(* ===== verification/_CoqProject ===== *)
-Q . S2P
Prelude.v
CacheState.v
Membuf.v
MembufSpec.v
ChunkMap.v
FileCache.v
CacheInv.v
CacheFrame.v
MembufInv.v
CacheOps.v
Purge.v
ScanGet.v
CacheGet.v
ScanRelease.v
CacheRelease.v
Truncate.v
CacheSize.v
TruncateSpec.v
CacheTruncate.v
DirtyLists.v
CacheSteps.v
CacheExamples.v
Fcsm.v
FcsmInv.v
FcsmSteps.v
FcsmStable.v
FcsmProgress.v
FcsmExamples.v
Readahead.v
ReadaheadSpec.v
ReadPath.v
ReadCache.v
ReadInv.v
ReadReply.v
ReadSteps.v
ReadLoop.v
ReadCallback.v
ReadProps.v
ReadExamples.v
WritePath.v
WriteCache.v
WriteStale.v
WriteSteps.v
WriteLoop.v
WriteProps.v
WriteExamples.v
WriteBack.v
FlushCache.v
FlushInv.v
FlushReply.v
FlushState.v
FlushGather.v
FlushSync.v
FlushPick.v
FlushStart.v
FlushSteps.v
FlushProps.v
FlushExamples.v
DirCache.v
DirInv.v
DirRefs.v
DirOps.v
DirNames.v
DirEnum.v
DirEnumInv.v
DirReaddir.v
DirCallback.v
DirClient.v
DirSteps.v
DirProps.v
DirExamples.v
