(* ===== verification/Prelude.v ===== *)
(** * AZNFS turbo client: a verification development

    The turbo client ([src/turbonfs]) is a user space NFS v3 client for Azure Blob: fuse
    requests come in through [fs-handler.h] and [nfs_client], become [rpc_task]s, are
    answered from the caches of an [nfs_inode] where possible and by RPCs otherwise.  Seven
    parts carry its own logic and are modelled here.

    - The file cache ([file_cache.cpp], [file_cache.h]): per file a map of chunks over
      shared buffers (membufs) with flags for locking, dirtiness, flushing and commits.
    - The flush-commit state machine ([fcsm.cpp], [fcsm.h]) with the functions of
      [nfs_inode.cpp] and the callbacks of [rpc_task.cpp] it drives: it decides when dirty
      data is written and committed, and which waiting writes and flushes are answered.  It
      sees ranges and sequence numbers; the chunks and bytes are in the write-back.
    - Readahead ([readahead.cpp], [readahead.h]): detection of sequential access and the
      readahead window.
    - The read path ([run_read()] to the reply in [rpc_task.cpp], [jukebox_read()] of
      [nfs_client.cpp]): a request is served from the file cache, and by one child task per
      missing chunk that reads into the chunk's locked buffer.
    - The write path ([run_write()] in [rpc_task.cpp], [copy_to_cache()] of
      [nfs_inode.cpp]): the data is copied to the buffers of the file cache, and the state
      machine is told.
    - The write-back ([sync_membufs()] in [nfs_inode.cpp], [struct bc_iovec] in [rpc_task.h],
      [issue_write_rpc()] and [write_iov_callback()] in [rpc_task.cpp], [jukebox_write()] in
      [nfs_client.cpp]): dirty chunks are gathered into WRITEs and followed until the server
      has all of their bytes.
    - The directory cache ([rpc_readdir.cpp], [rpc_readdir.h]) with the inode table and
      the reference counts ([nfs_inode.cpp], [nfs_inode.h], [nfs_client.cpp]) and the
      enumeration and lookup handlers ([rpc_task.cpp]).

    They meet at these points: the state machine takes the chunks to write and to commit
    from the file cache's list queries and clears their flags when RPCs complete;
    a read takes its chunks with [get()], reports to the readahead state and releases what
    it has read; a write takes its chunks with [getx()], marks them dirty and hands the extent
    it got to the state machine; a later lookup carries out an invalidation that a READ reply asked for;
    the reference counts of the directory
    cache decide when an inode, and with it its caches, is deleted.

    ** How the code is represented

    A function of the source is a definition of the same name in the state-and-assertion
    monad [M] of this file: it returns a result and a new state, or [None] when an
    [assert] fails or a freed object is read.  [wp m s Q] says that [m] runs from [s] and
    establishes [Q]: total correctness, so "the operation runs" includes that no
    assertion fails; [wlp] is the partial version.  Shared objects (membufs, inodes,
    directory entries) live in maps from addresses, with their use counts; aliasing is
    equality of addresses.  Integers are [Z] with [u64], [i64] written where the source
    can wrap.  A function that holds its lock throughout is one step; interleavings are
    sequences of steps ([CacheSteps], [FcsmSteps], [ReadProps], [DirSteps]).

    ** Files

    File cache:
    - [CacheState] the data; [Membuf] the membuf and chunk operations; [MembufSpec] what
      each does to its membuf and to the metrics.
    - [ChunkMap] the ordered map; [FileCache] [scan()], [get()], [getx()], [release()],
      purge, prune; [Truncate] [truncate()]; [DirtyLists] the list queries.
    - [CacheInv], [MembufInv], [CacheOps] the invariant of a cache and its preservation by
      the primitives; [Purge], [ScanGet], [ScanRelease], [TruncateSpec], [CacheSize] the
      loops.
    - [CacheGet], [CacheRelease], [CacheTruncate], [DirtyLists]: the theorems on the
      operations.  A lookup tiles the range with chunks in use and refines a map from file
      offsets to storage cells; release and truncation compute reference chunk maps and
      drop exactly the bytes they may; the queries return exactly the qualifying chunks.
    - [CacheSteps], [CacheExamples] the operations as a transition system: every reachable
      cache is consistent (sorted disjoint chunks, exact metrics) and unsaved data is kept
      until the cache is shut down.

    Flush-commit state machine:
    - [Fcsm] the handlers; [FcsmInv] the invariant; [FcsmSteps] accounting, exactly-once
      answers, no stalls, termination; [FcsmStable] a flush that returned has its data
      written; [FcsmProgress] no assertion fails and every order of callbacks drains the
      machine, for files with stable writes whose flush callbacks do not race
      ([can_happen]); [FcsmExamples] witnesses, and runs in which assertions fail.

    Readahead:
    - [Readahead] the code; [ReadaheadSpec] no byte is read ahead twice, recommendations
      stay in the window and in the file, the byte count is exact, sequential readers are
      detected; also runs that show the limits of these.

    Read path:
    - [ReadPath] the code, with the contents of the buffers; [CacheFrame] what every cache
      operation leaves alone of the references and use counts a client holds.
    - [ReadCache] the cache as the read path uses it: each operation runs and keeps the
      bytes of the file, whatever other requests hold, and when the assertion on the uptodate
      bytes holds ([sole_room]); [ReadInv] the invariant of all read
      tasks together, and seen from the task whose handler runs; [ReadReply],
      [ReadSteps], [ReadLoop], [ReadCallback] the handlers keep it.
    - [ReadProps] the steps of all requests interleaved, with callbacks, retries and
      cache operations of others, under the conditions of [enabled]: replies are the bytes of
      the file, as vectors of which fuse takes 1023, no assertion fails, no deadlock, nothing
      is left behind; [ReadExamples] witnesses, and runs that show what happens outside
      of these conditions.

    Write path:
    - [WritePath] the code; [WriteCache] what copying a chunk does to the contents of the
      file, and why there is room to mark it; [WriteStale] the measure of a writer's attempts;
      [WriteSteps], [WriteLoop] one chunk, all chunks, all attempts.
    - [WriteProps] a write to a cache at rest puts a prefix of its data in the cache, all of it
      unless it reports an error, and changes nothing else; it succeeds by the third attempt if others
      leave no partial reads behind; reads see what was written.  [WriteExamples] witnesses
      and runs.

    Write-back:
    - [WriteBack] the code, with the buffers and the bytes that reach the server.
    - [FlushCache] the cache as a flush uses it; [FlushInv] the invariant [core]: every chunk
      in a queue is locked, in use and flushing, its iovec is what is left of it, and what is not
      left is on the server; [FlushReply] the end of a WRITE; [FlushState] the invariant of the
      whole state, replies and retries; [FlushGather], [FlushSync] the loop of [sync_membufs()];
      [FlushPick] how many bytes are picked, which the assertions of
      [on_flush_complete()] compare; [FlushStart] the start of a flush and the switch to stable
      writes.
    - [FlushSteps] the steps of flushes, replies, retries and evictions in any order;
      [FlushProps] while no WRITE fails no assertion fails, the contents of the file do not
      change, a stable flush brings all of them to the server, the totals of the WRITEs
      carried out agree with the counters, a flush ends within a bounded number of steps
      that are not jukebox retries, a failed WRITE aborts; [FlushExamples] witnesses and runs.

    Directory cache and inodes:
    - [DirCache] the caches, directory entries, inodes and their operations, [decref()]
      and [clear()] with their mutual recursion; [DirEnum] the enumeration and lookup
      handlers.
    - [DirInv] the invariant: reference counts are exact relative to the references a
      running computation and fuse hold; [DirRefs], [DirOps], [DirNames], [DirEnumInv],
      [DirReaddir], [DirCallback], [DirClient] the specifications of the operations.
    - [DirSteps] the transition system of fuse requests and server replies; [DirProps]
      the theorems: every admissible operation runs (no failed assertion, no use after
      free), counts are exact, no dangling references, one inode per file, name cache and
      enumeration round trips, the enumeration equals its reference, re-enumeration
      progresses until a jukebox error, whose retry ([jukebox_readdir]) loses the target;
      [DirExamples] witnesses, and runs outside the hypotheses.

    ** Bounds and fuel

    Loops over lists recurse on the list.  [scan_for] runs on twice the number of chunks
    plus one (a chunk and the gap before it); [find_left] and [find_right] on the number
    of chunks; [dircache_loop] on the reply size (an entry takes at least a byte);
    [decref_n] on one more than the number of directory caches (each nesting empties one
    more cache).  Running out of fuel is a failed assertion, so the theorems
    that an operation runs prove that the fuel suffices.  Hypotheses on the environment
    are stated with the transition systems ([op_ok]): calling discipline of the file
    cache, cookies below UINT32_MAX that ascend, a non-zero cookie verifier, fuse not
    forgetting more than it received, and a directory cache limit that is not exceeded
    while a reply is entered (beyond it the code aborts, see [DirExamples]).  For the read
    path ([enabled]): the server's file does not change during a run and its replies are
    true, the file sizes fuse reads are the server's or expired, a READ call is queued at
    the first attempt, no READ starts at or beyond the server's end of file, a hole is
    filled through a chunk that maps its whole buffer, and a buffer is marked uptodate when
    the uptodate buffers and this one do not overlap ([sole]; the assertion of
    [set_uptodate()] is derived from it, [sole_room]); [ReadExamples] shows what happens
    without the last four.  For the write path: the cache is at rest when the write starts ([at_rest],
    which the reads of [ReadProps] lead back to), nothing waits for a commit, and what other threads
    do while the writer sleeps leaves alone what it holds ([bystander]; releases of any range do);
    [try_copy] then goes back to its start at most once, so one unit of fuel is enough.
    For the write-back ([at_start], [startable], [flush_enabled], and [flush_safe] where no
    assertion is to fail): the cache is at rest and ends before AZNFSC_MAX_FILE_SIZE, no
    dirty data is being truncated, dirty membufs are no longer than a WRITE, an unstable flush
    starts when no other is under way, and with data that waits for a commit only if it
    appends; a WRITE writes between one byte and all of them, or asks to be
    sent again.

    ** Not modelled

    File-backed membufs ([drop()]); buffer contents in truncation; writes while reads or
    flushes of the same file are under way; the limits on dirty bytes and
    inline writes; what comes after a failed write or commit, which the callbacks end with [assert(0)]; parent tasks of
    flushes, which no caller passes; issue and completion of readahead RPCs; the memory
    pressure factors of [periodic_updater()], which are floating point; attribute caching,
    open counts and silly rename; the RPC transport, fuse entry points, configuration
    parsing, statistics, logging and the nofuse front end, which wrap libraries that are
    not part of the sources; the shell scripts.  Races on fields that the source leaves
    unguarded are not represented; steps are atomic where the source holds a lock. *)
From Stdlib Require Import ZArith Lia.
From stdpp Require Export base tactics option list gmap fin_maps.

#[global] Open Scope Z_scope.

(** ** Machine integers

    [uint64_t], [uint32_t] and [int64_t] values are integers ([Z]); where the
    source relies on (or must exclude) wrap-around the reduction is written
    out with the functions below. *)
Definition u64 (x : Z) : Z := x mod 2 ^ 64.

Definition u32 (x : Z) : Z := x mod 2 ^ 32.

(** Conversion of a 64-bit pattern to [int64_t] (two's complement). *)
Definition i64 (x : Z) : Z :=
  let y := u64 x in if y <? 2 ^ 63 then y else y - 2 ^ 64.

Lemma u64_small x : 0 ≤ x < 2 ^ 64 → u64 x = x.
Proof. intros. by apply Z.mod_small. Qed.

Lemma i64_small x : 0 ≤ x < 2 ^ 63 → i64 x = x.
Proof.
  intros. unfold i64. rewrite u64_small by lia.
  destruct (Z.ltb_spec x (2 ^ 63)); lia.
Qed.

Lemma u64_range x : 0 ≤ u64 x < 2 ^ 64.
Proof. unfold u64. apply Z.mod_pos_bound. lia. Qed.

(** Limits of aznfsc.h: the largest block of a blob and, with at most 50000 blocks, the
    largest file. *)
Definition AZNFSC_MAX_BLOCK_SIZE : Z := 100 * 1024 * 1024.
Definition AZNFSC_MAX_FILE_SIZE : Z := 50000 * AZNFSC_MAX_BLOCK_SIZE.

(** ** The state-and-assertion monad

    A computation of type [M S A] runs on a state [S]; it returns a value and
    a new state, or [None] when an [assert] of the source does not hold (the
    process aborts). *)
Definition M (S A : Type) : Type := S → option (A * S).

Section monad.
Context {S : Type}.

#[export] Instance M_ret : MRet (M S) := λ A a s, Some (a, s).
Definition bind {A B} (m : M S A) (k : A → M S B) : M S B := λ s,
  match m s with Some (a, s') => k a s' | None => None end.

(** [assert(b)] *)
Definition massert (b : bool) : M S () :=
  λ s, if b then Some ((), s) else None.

Definition mget : M S S := λ s, Some (s, s).
Definition mmodify (f : S → S) : M S () := λ s, Some ((), f s).

(** Reading an optional value that the source dereferences. *)
Definition mderef {A} (o : option A) : M S A :=
  λ s, match o with Some a => Some (a, s) | None => None end.

(** [for (auto& x : l) f(x);] *)
Fixpoint mfor {A} (l : list A) (f : A → M S ()) : M S () :=
  match l with
  | [] => mret ()
  | x :: l' => bind (f x) (λ _, mfor l' f)
  end.
End monad.

Notation "'do' x ← m ; k" := (bind m (λ x, k))
  (at level 10, x binder, m at level 100, k at level 200, only parsing).
Notation "'do_' m ; k" := (bind m (λ _, k))
  (at level 10, m at level 100, k at level 200, only parsing).

(** [wp m s Q]: running [m] from [s] aborts on no assertion, and the result
    satisfies [Q]. *)
Definition wp {S A} (m : M S A) (s : S) (Q : A → S → Prop) : Prop :=
  ∃ a s', m s = Some (a, s') ∧ Q a s'.

Section wp.
Context {S : Type}.
Implicit Types s : S.

Lemma wp_ret {A} (a : A) s Q : Q a s → wp (mret a) s Q.
Proof. intros. by exists a, s. Qed.

Lemma wp_bind {A B} (m : M S A) (k : A → M S B) s Q :
  wp m s (λ a s', wp (k a) s' Q) → wp (bind m k) s Q.
Proof.
  intros (a & s' & Hm & b & s'' & Hk & HQ). exists b, s''. split; [|done].
  unfold bind. by rewrite Hm.
Qed.

Lemma wp_assert b s (Q : () → S → Prop) :
  b = true → Q () s → wp (massert b) s Q.
Proof. intros -> ?. by exists (), s. Qed.

Lemma wp_get s (Q : S → S → Prop) : Q s s → wp mget s Q.
Proof. intros. by exists s, s. Qed.

Lemma wp_modify f s (Q : () → S → Prop) : Q () (f s) → wp (mmodify f) s Q.
Proof. intros. by exists (), (f s). Qed.

Lemma wp_deref {A} (o : option A) a s (Q : A → S → Prop) :
  o = Some a → Q a s → wp (mderef o) s Q.
Proof. intros -> ?. by exists a, s. Qed.

Lemma wp_mono {A} (m : M S A) s (Q Q' : A → S → Prop) :
  wp m s Q → (∀ a s', Q a s' → Q' a s') → wp m s Q'.
Proof. intros (a & s' & ? & ?) Himp. exists a, s'. eauto. Qed.

Lemma wp_run {A} (m : M S A) s a s' (Q : A → S → Prop) :
  m s = Some (a, s') → wp m s Q → Q a s'.
Proof. intros Hm (? & ? & Hm' & ?). by simplify_eq. Qed.

Lemma wp_bind_assoc {A B C} (m : M S A) (k1 : A → M S B) (k2 : B → M S C) s Q :
  wp (bind (bind m k1) k2) s Q → wp (bind m (λ a, bind (k1 a) k2)) s Q.
Proof.
  intros (c & s' & Hm & HQ). exists c, s'. split; [|done]. unfold bind in *.
  by destruct (m s) as [[a s1]|].
Qed.

(** A loop over a list, with an invariant on the elements still to visit. *)
Lemma wp_for {A} (l : list A) (f : A → M S ()) (I : list A → S → Prop) s
    (Q : () → S → Prop) :
  I l s →
  (∀ x l' s', I (x :: l') s' → wp (f x) s' (λ _ s'', I l' s'')) →
  (∀ s', I [] s' → Q () s') →
  wp (mfor l f) s Q.
Proof.
  intros HI Hstep Hend. revert s HI.
  induction l as [|x l IH]; intros s HI; simpl.
  - apply wp_ret. by apply Hend.
  - apply wp_bind. eapply wp_mono; [by apply Hstep|]. simpl. intros. by apply IH.
Qed.
End wp.

(** [wlp m s Q]: if [m] runs from [s] without aborting, its result satisfies [Q]. *)
Definition wlp {S A} (m : M S A) (s : S) (Q : A → S → Prop) : Prop :=
  ∀ a s', m s = Some (a, s') → Q a s'.

Section wlp.
Context {S : Type}.
Implicit Types s : S.

Lemma wlp_ret {A} (a : A) s (Q : A → S → Prop) : Q a s → wlp (mret a) s Q.
Proof. intros HQ a' s' H. by injection H as <- <-. Qed.

Lemma wlp_bind {A B} (m : M S A) (k : A → M S B) s Q :
  wlp m s (λ a s', wlp (k a) s' Q) → wlp (bind m k) s Q.
Proof.
  intros Hm b s'' Hrun. unfold bind in Hrun.
  destruct (m s) as [[a s']|] eqn:E; [|done]. by eapply Hm.
Qed.

Lemma wlp_assert b s (Q : () → S → Prop) : (b = true → Q () s) → wlp (massert b) s Q.
Proof. intros HQ [] s' Hrun. destruct b; [|done]. injection Hrun as <-. by apply HQ. Qed.

Lemma wlp_get s (Q : S → S → Prop) : Q s s → wlp mget s Q.
Proof. intros HQ a s' Hrun. by injection Hrun as <- <-. Qed.

Lemma wlp_modify f s (Q : () → S → Prop) : Q () (f s) → wlp (mmodify f) s Q.
Proof. intros HQ [] s' Hrun. by injection Hrun as <-. Qed.

Lemma wlp_deref {A} (o : option A) s (Q : A → S → Prop) :
  (∀ a, o = Some a → Q a s) → wlp (mderef o) s Q.
Proof. intros HQ a s' Hrun. destruct o; [|done]. injection Hrun as <- <-. by apply HQ. Qed.

Lemma wlp_mono {A} (m : M S A) s (Q Q' : A → S → Prop) :
  wlp m s Q → (∀ a s', Q a s' → Q' a s') → wlp m s Q'.
Proof. intros Hm Himp a s' Hrun. eauto. Qed.

Lemma wp_wlp {A} (m : M S A) s (Q : A → S → Prop) : wp m s Q → wlp m s Q.
Proof. intros Hwp a s' Hrun. by eapply wp_run. Qed.

(** A loop over a list preserves an invariant each iteration preserves. *)
Lemma wlp_for {A} (l : list A) (f : A → M S ()) (I : S → Prop) s :
  I s → (∀ x s', x ∈ l → I s' → wlp (f x) s' (λ _ s'', I s'')) →
  wlp (mfor l f) s (λ _ s', I s').
Proof.
  revert s. induction l as [|x l IH]; intros s HI Hstep; simpl.
  - by apply wlp_ret.
  - apply wlp_bind. eapply wlp_mono; [apply Hstep; [by left|done]|].
    simpl. intros. apply IH; [done|]. intros. apply Hstep; [by right|done].
Qed.
End wlp.

Ltac wlp_step :=
  lazymatch goal with
  | |- wlp (bind _ _) _ _ => apply wlp_bind; cbv beta
  | |- wlp (mret _) _ _ => apply wlp_ret; cbv beta
  | |- wlp (massert _) _ _ => apply wlp_assert; intros ?; cbv beta
  | |- wlp mget _ _ => apply wlp_get; cbv beta
  | |- wlp (mmodify _) _ _ => apply wlp_modify; cbv beta
  | |- wlp (mderef _) _ _ => apply wlp_deref; intros ? ?; cbv beta
  | |- wlp (if ?b then _ else _) _ _ => destruct b eqn:?
  end.

(** Symbolic execution of one monadic instruction. *)
Ltac wp_step :=
  lazymatch goal with
  | |- wp (bind _ _) _ _ => apply wp_bind; cbv beta
  | |- wp (mret _) _ _ => apply wp_ret; cbv beta
  | |- wp (massert _) _ _ => apply wp_assert; [|cbv beta]
  | |- wp mget _ _ => apply wp_get; cbv beta
  | |- wp (mmodify _) _ _ => apply wp_modify; cbv beta
  | |- wp (mderef _) _ _ => eapply wp_deref; [|cbv beta]
  end.

Lemma wp_bind_assert {S A} b (k : () → M S A) s Q :
  b = true → wp (k ()) s Q → wp (bind (massert b) k) s Q.
Proof. intros. apply wp_bind, wp_assert; done. Qed.

(** Closes a boolean comparison by arithmetic. *)
Ltac cmp :=
  first [ apply Z.leb_le | apply Z.ltb_lt | apply Z.eqb_eq ]; simpl in *; lia.

(** Passes every leading assertion that [tac] proves. *)
Ltac wp_asserts tac := repeat (apply wp_bind_assert; [solve [tac]|cbv beta]).

(** ** Sums over a finite map *)
Definition msum {A} (f : A → Z) (m : gmap nat A) : Z :=
  map_fold (λ _ x acc, f x + acc) 0 m.

Section msum.
Context {A : Type} (f : A → Z).
Implicit Types m : gmap nat A.

Lemma msum_empty : msum f ∅ = 0.
Proof. unfold msum. by rewrite map_fold_empty. Qed.

Lemma msum_insert_fresh m i x :
  m !! i = None → msum f (<[i:=x]> m) = f x + msum f m.
Proof.
  intros Hi. unfold msum. rewrite map_fold_insert_L; [done| |done]. intros. lia.
Qed.

Lemma msum_delete m i x :
  m !! i = Some x → msum f (delete i m) = msum f m - f x.
Proof.
  intros Hi. rewrite <- (insert_id m i x Hi) at 2.
  rewrite <- insert_delete_eq, msum_insert_fresh by apply lookup_delete_eq. lia.
Qed.

Lemma msum_insert m i x y :
  m !! i = Some x → msum f (<[i:=y]> m) = msum f m - f x + f y.
Proof.
  intros Hi. rewrite <- insert_delete_eq, msum_insert_fresh by apply lookup_delete_eq.
  rewrite (msum_delete _ _ _ Hi). lia.
Qed.

Lemma msum_nonneg m : (∀ i x, m !! i = Some x → 0 ≤ f x) → 0 ≤ msum f m.
Proof.
  induction m as [|i x m Hi IH] using map_ind; intros Hpos.
  - by rewrite msum_empty.
  - rewrite msum_insert_fresh by done.
    assert (0 ≤ f x) by (apply (Hpos i); apply lookup_insert_eq).
    enough (0 ≤ msum f m) by lia. apply IH. intros j y Hj. apply (Hpos j).
    rewrite lookup_insert_ne; [done|congruence].
Qed.

Lemma msum_elem_le m i x :
  (∀ i x, m !! i = Some x → 0 ≤ f x) → m !! i = Some x → f x ≤ msum f m.
Proof.
  intros Hpos Hi. assert (0 ≤ msum f (delete i m)) as H.
  { apply msum_nonneg. intros j y Hj. apply (Hpos j). by apply lookup_delete_Some in Hj as [_ ?]. }
  rewrite (msum_delete _ _ _ Hi) in H. lia.
Qed.

Lemma msum_mono (g : A → Z) m :
  (∀ i x, m !! i = Some x → f x ≤ g x) → msum f m ≤ msum g m.
Proof.
  induction m as [|i x m Hi IH] using map_ind; intros Hle.
  - done.
  - unfold msum in *. rewrite !map_fold_insert_L by (done || (intros; lia)).
    assert (f x ≤ g x) by (apply (Hle i); apply lookup_insert_eq).
    enough (map_fold (λ _ x acc, f x + acc) 0 m ≤ map_fold (λ _ x acc, g x + acc) 0 m) by lia.
    apply IH. intros j y Hj. apply (Hle j). rewrite lookup_insert_ne; [done|congruence].
Qed.

Lemma msum_add (g : A → Z) m : msum (λ x, f x + g x) m = msum f m + msum g m.
Proof.
  induction m as [|i x m Hi IH] using map_ind; [done|].
  unfold msum in *. rewrite !map_fold_insert_L by (done || (intros; lia)). lia.
Qed.
End msum.

(** A map whose elements weigh no more than those of another has a smaller sum. *)
Lemma msum_le {A} (f : A → Z) (m m' : gmap nat A) :
  (∀ i x, m !! i = Some x → 0 ≤ f x) → (∀ i x, m' !! i = Some x → (∃ y, m !! i = Some y ∧ f x ≤ f y) ∨ f x ≤ 0) →
  msum f m' ≤ msum f m.
Proof.
  revert m. induction m' as [|i x m' Hi IH] using map_ind; intros m Hpos Hsub.
  - rewrite msum_empty. by apply msum_nonneg.
  - rewrite msum_insert_fresh by done.
    assert (∀ j z, m' !! j = Some z → j ≠ i ∧ ((∃ y, m !! j = Some y ∧ f z ≤ f y) ∨ f z ≤ 0)) as Hrest.
    { intros j z Hz. assert (j ≠ i) by congruence. split; [done|]. apply Hsub. by rewrite lookup_insert_ne. }
    destruct (Hsub i x) as [(y & Hy & Hf)|H0]; [apply lookup_insert_eq|..].
    + assert (msum f m' ≤ msum f (delete i m)) as Hle; [|rewrite (msum_delete f m i y Hy) in Hle; lia].
      apply IH; [intros j z [_ Hz]%lookup_delete_Some; by apply (Hpos j)|].
      intros j z Hz. destruct (Hrest _ _ Hz). by rewrite lookup_delete_ne.
    + enough (msum f m' ≤ msum f m) by lia. apply IH; [done|]. intros j z Hz. by apply Hrest.
Qed.

Lemma msum_sub {A} (f : A → Z) (m m' : gmap nat A) :
  (∀ i x, m !! i = Some x → 0 ≤ f x) → (∀ i x, m' !! i = Some x → ∃ y, m !! i = Some y ∧ f y = f x) → msum f m' ≤ msum f m.
Proof. intros Hpos Hsub. apply msum_le; [done|]. intros i x (y & Hy & Hf)%Hsub. left. exists y. split; [done|lia]. Qed.

(** Equal sums of pointwise ordered functions are pointwise equal. *)
Lemma msum_eq_pointwise {A} (f g : A → Z) m :
  (∀ i x, m !! i = Some x → f x ≤ g x) → msum f m = msum g m →
  ∀ i x, m !! i = Some x → f x = g x.
Proof.
  intros Hle Heq i x Hi. apply Z.le_antisymm; [by eapply Hle|].
  assert (msum f (delete i m) ≤ msum g (delete i m)) as Hd.
  { apply msum_mono. intros j y [_ Hj]%lookup_delete_Some. by apply (Hle j). }
  rewrite !(msum_delete _ _ _ _ Hi) in Hd. lia.
Qed.

(** Intervals that do not overlap are no longer together than what they lie in. *)
Lemma msum_disjoint {A} (off : A → Z) (m : gmap nat A) : ∀ (f : A → Z) lo hi, lo ≤ hi →
  (∀ i x, m !! i = Some x → 0 ≤ f x) →
  (∀ i x, m !! i = Some x → 0 < f x → lo ≤ off x ∧ off x + f x ≤ hi) →
  (∀ i j x y, i ≠ j → m !! i = Some x → m !! j = Some y → 0 < f x → 0 < f y → off x + f x ≤ off y ∨ off y + f y ≤ off x) →
  msum f m ≤ hi - lo.
Proof.
  remember (size m) as n eqn:Hn. revert m Hn. induction n as [|n IH]; intros m Hn f lo hi Hle Hpos Hin Hdis.
  { symmetry in Hn. apply map_size_empty_inv in Hn as ->. rewrite msum_empty. lia. }
  destruct (map_choose m) as (i & x & Hi); [intros ->; by rewrite map_size_empty in Hn|].
  assert (n = size (delete i m)) as Hs by (rewrite map_size_delete_Some; [lia|by eexists]).
  assert (∀ j y, delete i m !! j = Some y → j ≠ i ∧ m !! j = Some y) as Hd by (intros j y [? ?]%lookup_delete_Some; done).
  pose proof (msum_delete f m i x Hi) as Hdel. specialize (IH _ Hs). pose proof (Hpos _ _ Hi).
  destruct (decide (f x = 0)) as [H0|H0].
  { enough (msum f (delete i m) ≤ hi - lo) by lia. apply IH; [done|..].
    - intros j y [_ Hj]%Hd. by eapply Hpos.
    - intros j y [_ Hj]%Hd. by eapply Hin.
    - intros j k y z ? [_ Hj]%Hd [_ Hk]%Hd. by eapply Hdis. }
  destruct (Hin _ _ Hi) as [Hlo Hhi]; [lia|].
  set (L y := if decide (off y + f y ≤ off x) then f y else 0). set (R y := if decide (off y + f y ≤ off x) then 0 else f y).
  assert (msum L (delete i m) ≤ off x - lo) as HL.
  { apply IH; unfold L; [lia|..].
    - intros j y [_ Hj]%Hd. pose proof (Hpos _ _ Hj). case_decide; lia.
    - intros j y [_ Hj]%Hd. case_decide; [|lia]. intros Hf. destruct (Hin _ _ Hj Hf). lia.
    - intros j k y z Hjk [_ Hj]%Hd [_ Hk]%Hd. do 2 case_decide; try lia. by apply (Hdis j k). }
  assert (msum R (delete i m) ≤ hi - (off x + f x)) as HR.
  { apply IH; unfold R; [lia|..].
    - intros j y [_ Hj]%Hd. pose proof (Hpos _ _ Hj). case_decide; lia.
    - intros j y [Hji Hj]%Hd. case_decide; [lia|]. intros Hf. destruct (Hin _ _ Hj Hf). destruct (Hdis _ _ _ _ Hji Hj Hi Hf); lia.
    - intros j k y z Hjk [_ Hj]%Hd [_ Hk]%Hd. do 2 case_decide; try lia. by apply (Hdis j k). }
  assert (msum f (delete i m) ≤ msum (λ y, L y + R y) (delete i m)) as Hsum.
  { apply msum_mono. intros j y _. unfold L, R. case_decide; lia. }
  rewrite msum_add in Hsum. lia.
Qed.

(** ** Lists *)
Lemma filter_all {A} (P : A → Prop) `{!∀ x, Decision (P x)} (l : list A) : (∀ x, x ∈ l → P x) → filter P l = l.
Proof.
  induction l as [|x l IH]; intros Hl; [done|].
  rewrite filter_cons_True by (apply Hl; by left). f_equal. apply IH. intros. apply Hl. by right.
Qed.

Lemma filter_ext_in {A} (P Q : A → Prop) `{!∀ x, Decision (P x), !∀ x, Decision (Q x)} (l : list A) :
  (∀ x, x ∈ l → P x ↔ Q x) → filter P l = filter Q l.
Proof.
  induction l as [|x l IH]; intros Hl; [done|].
  rewrite !filter_cons, IH by (intros; apply Hl; by right).
  assert (P x ↔ Q x) by (apply Hl; by left). repeat case_decide; tauto.
Qed.

Lemma filter_none {A} (P : A → Prop) `{!∀ x, Decision (P x)} (l : list A) :
  (∀ x, x ∈ l → ¬ P x) → filter P l = [].
Proof.
  induction l as [|x l IH]; intros Hl; [done|].
  rewrite filter_cons_False by (apply Hl; by left). apply IH. intros. apply Hl. by right.
Qed.

(** ** Counting occurrences *)
Definition occ (x : nat) (l : list nat) : Z := foldr (λ y (n : Z), (if decide (y = x) then 1 else 0) + n) 0 l.

Lemma occ_nonneg x l : 0 ≤ occ x l.
Proof. induction l; simpl; [done|]. case_decide; lia. Qed.

Lemma occ_app x l l' : occ x (l ++ l') = occ x l + occ x l'.
Proof. induction l; simpl; [done|]. rewrite IHl. lia. Qed.

#[export] Instance occ_perm x : Proper ((≡ₚ) ==> eq) (occ x).
Proof. intros l l' H. induction H; simpl; lia. Qed.

Lemma occ_pos x l : x ∈ l ↔ 0 < occ x l.
Proof.
  induction l as [|y l IH]; simpl; [split; [by intros ?%not_elem_of_nil|lia]|].
  rewrite elem_of_cons. pose proof (occ_nonneg x l). case_decide; split.
  - lia.
  - intros _. by left.
  - intros [->|?]; [done|]. apply IH in H1. lia.
  - intros ?. right. apply IH. lia.
Qed.

Lemma occ_notin x l : x ∉ l → occ x l = 0.
Proof. intros H. pose proof (occ_nonneg x l). rewrite occ_pos in H. lia. Qed.

Lemma occ_nodup x l : NoDup l → occ x l ≤ 1.
Proof.
  induction 1 as [|y l Hy _ IH]; simpl; [lia|]. case_decide; [subst; rewrite occ_notin by done; lia|lia].
Qed.

Lemma occ_repeat x n y : occ x (repeat y n) = if decide (y = x) then Z.of_nat n else 0.
Proof. induction n as [|n IH]; simpl; [by case_decide|]. rewrite IH. case_decide; lia. Qed.

Lemma occ_cons_eq x l : occ x (x :: l) = 1 + occ x l.
Proof. simpl. by rewrite decide_True. Qed.

Lemma occ_cons_ne x y l : y ≠ x → occ x (y :: l) = occ x l.
Proof. intros. simpl. rewrite decide_False by done. lia. Qed.

Lemma occ_mid x y l l' : occ x (y :: l ++ l') = occ x (l ++ y :: l').
Proof. simpl. rewrite !occ_app. simpl. lia. Qed.
