(* ===== verification/CacheState.v ===== *)
(** * State of the per-file chunk cache

    Data of [turbonfs/inc/file_cache.h]: the membuf flag word, [membuf],
    [bytes_chunk], the metrics of a [bytes_chunk_cache] and the cache itself.

    - A membuf lives in a heap ([membufs], indexed by an allocation number) and
      is shared by every [bytes_chunk] that names its number: the aliasing of
      [std::shared_ptr<membuf>] is the aliasing of the number.  [mb_use_count]
      is the [use_count()] of the control block.
    - [chunkmap] is a [std::map<uint64_t, bytes_chunk>]: a list of (key, value)
      pairs in increasing key order (see [ChunkMap]).
    - The atomic metrics come in pairs, one per cache and one static for all
      caches; [st] and [st_g] map the metric's name to its value.
    - Buffer addresses are not modelled: a byte of a membuf is named by the
      membuf's number and the index into its buffer. *)
From S2P Require Import Prelude.

(** ** Constants of aznfsc.h and file_cache.h *)
Definition AZNFSC_MAX_CHUNK_SIZE : Z := 4 * 1024 * 1024.
Definition AZNFSC_BAD_OFFSET : Z := 2 ^ 64 - 1.

(** ** MB_Flag *)
Inductive MB_Flag := Uptodate | Locked | Truncated | Dirty | Flushing | CommitPending.

#[export] Instance MB_Flag_eq_dec : EqDecision MB_Flag.
Proof. solve_decision. Defined.

(** The enumerator's value, [1 << n]. *)
Definition flag_bit (f : MB_Flag) : Z :=
  match f with
  | Uptodate => 0 | Locked => 1 | Truncated => 2
  | Dirty => 3 | Flushing => 4 | CommitPending => 5
  end.

Definition flag_mask (f : MB_Flag) : Z := Z.shiftl 1 (flag_bit f).

(** [flag & f], [flag |= f] and [flag &= ~f]. *)
Definition has_flag (w : Z) (f : MB_Flag) : bool := negb (Z.land w (flag_mask f) =? 0).
Definition or_flag (w : Z) (f : MB_Flag) : Z := Z.lor w (flag_mask f).
Definition clear_flag (w : Z) (f : MB_Flag) : Z := Z.land w (Z.lnot (flag_mask f)).

Lemma flag_mask_bit f i : 0 ≤ i → Z.testbit (flag_mask f) i = (flag_bit f =? i).
Proof.
  intros. unfold flag_mask. rewrite Z.shiftl_1_l, Z.pow2_bits_eqb; [done|].
  by destruct f.
Qed.

Lemma flag_bit_nonneg f : 0 ≤ flag_bit f.
Proof. by destruct f. Qed.

Definition flag_eqb (f g : MB_Flag) : bool :=
  match f, g with
  | Uptodate, Uptodate | Locked, Locked | Truncated, Truncated
  | Dirty, Dirty | Flushing, Flushing | CommitPending, CommitPending => true
  | _, _ => false
  end.

Lemma flag_bit_inj f g : (flag_bit f =? flag_bit g) = flag_eqb f g.
Proof. by destruct f, g. Qed.

Lemma has_flag_testbit w f : has_flag w f = Z.testbit w (flag_bit f).
Proof.
  unfold has_flag. destruct (Z.testbit w (flag_bit f)) eqn:E.
  - apply negb_true_iff, Z.eqb_neq. intros H0.
    assert (Z.testbit (Z.land w (flag_mask f)) (flag_bit f) = true) as Hb.
    { rewrite Z.land_spec, flag_mask_bit by apply flag_bit_nonneg.
      by rewrite E, Z.eqb_refl. }
    by rewrite H0, Z.bits_0 in Hb.
  - apply negb_false_iff, Z.eqb_eq, Z.bits_inj'. intros n Hn.
    rewrite Z.land_spec, flag_mask_bit, Z.bits_0 by done.
    destruct (Z.eqb_spec (flag_bit f) n) as [<-|]; [by rewrite E|apply andb_false_r].
Qed.

Lemma has_or_flag w f g : has_flag (or_flag w f) g = flag_eqb f g || has_flag w g.
Proof.
  rewrite !has_flag_testbit. unfold or_flag.
  rewrite Z.lor_spec, flag_mask_bit by apply flag_bit_nonneg.
  rewrite flag_bit_inj. apply orb_comm.
Qed.

Lemma has_clear_flag w f g :
  has_flag (clear_flag w f) g = negb (flag_eqb f g) && has_flag w g.
Proof.
  rewrite !has_flag_testbit. unfold clear_flag.
  rewrite Z.land_spec, Z.lnot_spec, flag_mask_bit by apply flag_bit_nonneg.
  rewrite flag_bit_inj. apply andb_comm.
Qed.

Lemma has_flag_0 f : has_flag 0 f = false.
Proof. by destruct f. Qed.

(** ** membuf *)
Record membuf := Membuf {
  mb_initial_offset : Z;
  mb_initial_length : Z;
  mb_offset : Z;
  mb_length : Z;
  mb_allocated_length : Z;
  mb_backing_file_fd : Z;
  mb_flag : Z;
  mb_inuse : Z;
  mb_use_count : Z;
}.

Definition mb_set_flag (w : Z) (mb : membuf) : membuf :=
  Membuf (mb_initial_offset mb) (mb_initial_length mb) (mb_offset mb) (mb_length mb)
    (mb_allocated_length mb) (mb_backing_file_fd mb) w (mb_inuse mb) (mb_use_count mb).
Definition mb_set_inuse (n : Z) (mb : membuf) : membuf :=
  Membuf (mb_initial_offset mb) (mb_initial_length mb) (mb_offset mb) (mb_length mb)
    (mb_allocated_length mb) (mb_backing_file_fd mb) (mb_flag mb) n (mb_use_count mb).
Definition mb_set_use_count (n : Z) (mb : membuf) : membuf :=
  Membuf (mb_initial_offset mb) (mb_initial_length mb) (mb_offset mb) (mb_length mb)
    (mb_allocated_length mb) (mb_backing_file_fd mb) (mb_flag mb) (mb_inuse mb) n.
Definition mb_set_range (off len : Z) (mb : membuf) : membuf :=
  Membuf (mb_initial_offset mb) (mb_initial_length mb) off len
    (mb_allocated_length mb) (mb_backing_file_fd mb) (mb_flag mb) (mb_inuse mb)
    (mb_use_count mb).

Definition mb_has (f : MB_Flag) (mb : membuf) : bool := has_flag (mb_flag mb) f.
Definition mb_is_inuse (mb : membuf) : bool := 0 <? mb_inuse mb.
Definition mb_is_file_backed (mb : membuf) : bool := negb (mb_backing_file_fd mb =? -1).

(** ** bytes_chunk *)
Record bytes_chunk := Chunk {
  bc_alloc_buffer : nat;
  bc_offset : Z;
  bc_length : Z;
  bc_buffer_offset : Z;
  bc_pvt : Z;
  bc_num_backend_calls_issued : Z;
  bc_is_whole : bool;
  bc_is_new : bool;
}.

#[export] Instance bytes_chunk_eq_dec : EqDecision bytes_chunk.
Proof. solve_decision. Defined.

Definition bc_end (bc : bytes_chunk) : Z := bc_offset bc + bc_length bc.

(** [maps_full_membuf()] asserts that a new chunk is whole. *)
Definition maps_full_membuf {S} (bc : bytes_chunk) : M S bool :=
  do_ massert (negb (bc_is_new bc) || bc_is_whole bc); mret (bc_is_whole bc).

(** ** Metrics *)
Inductive counter :=
  | num_chunks | num_get | bytes_get | num_release | bytes_release
  | num_truncate | bytes_truncate | bytes_allocated | bytes_cached
  | bytes_dirty | bytes_flushing | bytes_commit_pending | bytes_uptodate
  | bytes_inuse | bytes_locked.

#[export] Instance counter_eq_dec : EqDecision counter.
Proof. solve_decision. Defined.

Definition stats := counter → Z.

Definition stat_bump (k : counter) (d : Z) (m : stats) : stats :=
  λ k', if decide (k = k') then m k' + d else m k'.

(** ** bytes_chunk_cache *)
Record cache := Cache {
  chunkmap : list (Z * bytes_chunk);
  membufs : gmap nat membuf;
  next_id : nat;
  st : stats;
  st_g : stats;
  cache_size : Z;
  invalidate_pending : bool;
  backing_file_name : bool;
  backing_file_fd : Z;
}.

(** Computations on one cache. *)
Abbreviation MC := (M cache).

Definition c_set_chunkmap (m : list (Z * bytes_chunk)) (s : cache) : cache :=
  Cache m (membufs s) (next_id s) (st s) (st_g s) (cache_size s)
    (invalidate_pending s) (backing_file_name s) (backing_file_fd s).
Definition c_set_membufs (h : gmap nat membuf) (s : cache) : cache :=
  Cache (chunkmap s) h (next_id s) (st s) (st_g s) (cache_size s)
    (invalidate_pending s) (backing_file_name s) (backing_file_fd s).
Definition c_set_next_id (n : nat) (s : cache) : cache :=
  Cache (chunkmap s) (membufs s) n (st s) (st_g s) (cache_size s)
    (invalidate_pending s) (backing_file_name s) (backing_file_fd s).
Definition c_bump (k : counter) (d : Z) (s : cache) : cache :=
  Cache (chunkmap s) (membufs s) (next_id s) (stat_bump k d (st s))
    (stat_bump k d (st_g s)) (cache_size s)
    (invalidate_pending s) (backing_file_name s) (backing_file_fd s).
Definition c_set_cache_size (n : Z) (s : cache) : cache :=
  Cache (chunkmap s) (membufs s) (next_id s) (st s) (st_g s) n
    (invalidate_pending s) (backing_file_name s) (backing_file_fd s).
Definition c_set_invalidate (b : bool) (s : cache) : cache :=
  Cache (chunkmap s) (membufs s) (next_id s) (st s) (st_g s) (cache_size s)
    b (backing_file_name s) (backing_file_fd s).

(** A freshly constructed cache; [g] holds the static counters. *)
Definition bytes_chunk_cache_new (g : stats) (file_backed : bool) : cache :=
  Cache [] ∅ 0 (λ _, 0) g 0 false file_backed (-1).

(** [x += d; x_g += d;] *)
Definition stat_add (k : counter) (d : Z) : MC () := mmodify (c_bump k d).

(** [assert(x >= d); assert(x_g >= d); x -= d; x_g -= d;] *)
Definition stat_sub (k : counter) (d : Z) : MC () :=
  do s ← mget;
  do_ massert (d <=? st s k);
  do_ massert (d <=? st_g s k);
  mmodify (c_bump k (- d)).

(** Access to a membuf through its shared pointer. *)
Definition get_membuf (id : nat) : MC membuf :=
  do s ← mget; mderef (membufs s !! id).
Definition put_membuf (id : nat) (mb : membuf) : MC () :=
  mmodify (λ s, c_set_membufs (<[id := mb]> (membufs s)) s).

Lemma stat_bump_eq k d m : stat_bump k d m k = m k + d.
Proof. unfold stat_bump. by rewrite decide_True. Qed.

Lemma stat_bump_ne k k' d m : k ≠ k' → stat_bump k d m k' = m k'.
Proof. intros. unfold stat_bump. by rewrite decide_False. Qed.

(** Evaluates metrics after updates. *)
Ltac bumps := repeat first [ rewrite stat_bump_eq | rewrite stat_bump_ne by done ].
