(* ===== verification/Membuf.v ===== *)
(** * Operations of membuf and bytes_chunk

    The member functions of [struct membuf] and the constructors of
    [struct bytes_chunk] ([turbonfs/src/file_cache.cpp],
    [turbonfs/inc/file_cache.h]).  Each operation acts on the cache the membuf
    belongs to, since it maintains that cache's metrics.  Every [assert] of the
    source on modelled state is an [massert]. *)
From S2P Require Import Prelude CacheState.

(** ** Flag queries (with the assertions they contain) *)
Definition is_uptodate (mb : membuf) : bool := mb_has Uptodate mb.
Definition is_locked (mb : membuf) : bool := mb_has Locked mb.
Definition is_truncated (mb : membuf) : bool := mb_has Truncated mb.
Definition is_inuse (mb : membuf) : bool := mb_is_inuse mb.

Definition is_dirty (mb : membuf) : MC bool :=
  let dirty := mb_has Dirty mb in
  do_ massert (negb dirty || is_uptodate mb);
  do_ massert (negb dirty || negb (mb_has CommitPending mb));
  mret dirty.

Definition is_flushing (mb : membuf) : MC bool :=
  let flushing := mb_has Flushing mb in
  do_ massert (negb flushing || negb (mb_has CommitPending mb));
  mret flushing.

Definition is_commit_pending (mb : membuf) : MC bool :=
  let commit_pending := mb_has CommitPending mb in
  do_ massert (negb commit_pending || negb (mb_has Dirty mb));
  do_ massert (negb commit_pending || negb (mb_has Flushing mb));
  mret commit_pending.

(** ** Construction and destruction *)

(** [load()] is a no-op for memory-backed membufs and asserts for file-backed
    ones. *)
Definition load (mb : membuf) : MC () := massert (negb (mb_is_file_backed mb)).

(** [std::make_shared<membuf>(bcc, off, len, bcc->backing_file_fd)] *)
Definition membuf_new (off len : Z) : MC nat :=
  do s ← mget;
  let id := next_id s in
  let mb := Membuf off len off len len (backing_file_fd s) 0 0 1 in
  if mb_is_file_backed mb then do_ load mb; mret id
  else
    do_ massert (0 <? len);
    do_ mmodify (c_set_next_id (S id));
    do_ put_membuf id mb;
    do_ stat_add bytes_allocated len;
    mret id.

(** [~membuf()] *)
Definition membuf_dtor (id : nat) : MC () :=
  do mb ← get_membuf id;
  do_ massert (negb (is_inuse mb));
  do_ massert (0 <? mb_length mb);
  do_ massert (mb_length mb <=? mb_initial_length mb);
  do_ massert (mb_initial_offset mb <=? mb_offset mb);
  do_ massert (mb_offset mb - mb_initial_offset mb <=? mb_initial_length mb - mb_length mb);
  do dirty ← is_dirty mb;
  do_ massert (negb dirty || is_truncated mb);
  do_ massert (negb (is_locked mb));
  do_ massert (negb (mb_is_file_backed mb));
  do_ massert (mb_initial_length mb =? mb_allocated_length mb);
  do_ (if is_truncated mb && dirty then
         do flushing ← is_flushing mb;
         do_ massert (negb flushing);
         stat_sub bytes_dirty (mb_length mb)
       else mret ());
  do_ (if is_uptodate mb then stat_sub bytes_uptodate (mb_length mb) else mret ());
  do_ stat_sub bytes_allocated (mb_allocated_length mb);
  mmodify (λ s, c_set_membufs (delete id (membufs s)) s).

(** Copying and destroying a [std::shared_ptr<membuf>]. *)
Definition shared_ptr_copy (id : nat) : MC () :=
  do mb ← get_membuf id; put_membuf id (mb_set_use_count (mb_use_count mb + 1) mb).

Definition shared_ptr_reset (id : nat) : MC () :=
  do mb ← get_membuf id;
  if mb_use_count mb =? 1 then membuf_dtor id
  else put_membuf id (mb_set_use_count (mb_use_count mb - 1) mb).

(** The constructor of a chunk that refers to an existing membuf. *)
Definition bytes_chunk_view (off len boff : Z) (id : nat) (whole new : bool) : MC bytes_chunk :=
  do_ shared_ptr_copy id;
  do mb ← get_membuf id;
  do s ← mget;
  do_ massert (negb new || whole);
  do_ massert (1 <? mb_use_count mb);
  do_ massert (mb_initial_offset mb <=? mb_offset mb);
  do_ massert (mb_length mb <=? mb_initial_length mb);
  do_ massert (eqb (negb (backing_file_name s)) (backing_file_fd s =? -1));
  do_ massert (off <? AZNFSC_MAX_FILE_SIZE);
  do_ massert (0 <? len);
  do_ massert (len <=? mb_length mb);
  do_ massert (mb_offset mb <=? off);
  do_ massert (mb_offset mb - mb_initial_offset mb <=? boff);
  do_ massert (mb_length mb <=? AZNFSC_MAX_CHUNK_SIZE);
  do_ massert (off + len <=? AZNFSC_MAX_FILE_SIZE);
  do_ load mb;
  do_ massert (boff <? mb_initial_length mb);
  mret (Chunk id off len boff 0 0 whole new).

(** The constructor of a brand new chunk with its own membuf. *)
Definition bytes_chunk_new (off len : Z) : MC bytes_chunk :=
  do id ← membuf_new off len;
  do bc ← bytes_chunk_view off len 0 id true true;
  do_ shared_ptr_reset id;
  mret bc.

(** The copy constructor keeps the cursor fields. *)
Definition bytes_chunk_copy (bc : bytes_chunk) : MC bytes_chunk :=
  do c ← bytes_chunk_view (bc_offset bc) (bc_length bc) (bc_buffer_offset bc)
           (bc_alloc_buffer bc) (bc_is_whole bc) (bc_is_new bc);
  mret (Chunk (bc_alloc_buffer c) (bc_offset c) (bc_length c) (bc_buffer_offset c)
          (bc_pvt bc) (bc_num_backend_calls_issued bc) (bc_is_whole c) (bc_is_new c)).

(** The destructor releases the chunk's reference. *)
Definition bytes_chunk_dtor (bc : bytes_chunk) : MC () := shared_ptr_reset (bc_alloc_buffer bc).

(** ** trim *)
Definition trim (id : nat) (trim_len : Z) (left : bool) : MC () :=
  do mb0 ← get_membuf id;
  do_ massert (0 <? trim_len);
  do_ massert (trim_len <? mb_length mb0);
  let mb := mb_set_range (if left then mb_offset mb0 + trim_len else mb_offset mb0)
              (mb_length mb0 - trim_len) mb0 in
  do_ put_membuf id mb;
  do_ massert (negb (is_inuse mb));
  do flushing ← is_flushing mb;
  do_ massert (negb flushing);
  do commit_pending ← is_commit_pending mb;
  do_ massert (negb commit_pending);
  do_ (if is_uptodate mb then stat_sub bytes_uptodate trim_len else mret ());
  do dirty ← is_dirty mb;
  do_ (if dirty then stat_sub bytes_dirty trim_len else mret ());
  (if is_locked mb then stat_sub bytes_locked trim_len else mret ()).

(** ** Flag updates *)
Definition set_uptodate (id : nat) : MC () :=
  do mb ← get_membuf id;
  do_ massert (is_locked mb);
  do_ massert (is_inuse mb);
  do_ massert (0 <? mb_length mb);
  do_ put_membuf id (mb_set_flag (or_flag (mb_flag mb) Uptodate) mb);
  if is_uptodate mb then mret ()
  else
    let re := mb_offset mb + mb_length mb in
    do_ mmodify (λ s, c_set_cache_size (Z.max (cache_size s) re) s);
    do_ stat_add bytes_uptodate (mb_length mb);
    do s ← mget;
    do_ massert (st s bytes_uptodate <=? AZNFSC_MAX_FILE_SIZE);
    do_ massert ((st s bytes_uptodate <=? cache_size s)
                 || (st s bytes_cached <? st s bytes_uptodate));
    massert (re <=? cache_size s).

(** [clear_uptodate()] ends with [assert(0)]. *)
Definition clear_uptodate (id : nat) : MC () :=
  do mb ← get_membuf id;
  do_ massert (is_locked mb);
  do_ massert (is_inuse mb);
  do_ put_membuf id (mb_set_flag (clear_flag (mb_flag mb) Uptodate) mb);
  do_ stat_sub bytes_uptodate (mb_length mb);
  massert false.

Definition set_commit_pending (id : nat) : MC () :=
  do mb ← get_membuf id;
  do_ massert (is_locked mb);
  do_ massert (is_inuse mb);
  do_ massert (is_uptodate mb);
  do dirty ← is_dirty mb;
  do_ massert (negb dirty);
  do flushing ← is_flushing mb;
  do_ massert (negb flushing);
  do_ massert (negb (mb_has CommitPending mb));
  do_ put_membuf id (mb_set_flag (or_flag (mb_flag mb) CommitPending) mb);
  do_ stat_add bytes_commit_pending (mb_length mb);
  do s ← mget;
  massert (st s bytes_commit_pending <=? AZNFSC_MAX_FILE_SIZE).

Definition clear_commit_pending (id : nat) : MC () :=
  do mb ← get_membuf id;
  do_ massert (is_locked mb);
  do_ massert (is_inuse mb);
  do cp ← is_commit_pending mb;
  do_ massert cp;
  do dirty ← is_dirty mb;
  do_ massert (negb dirty);
  do flushing ← is_flushing mb;
  do_ massert (negb flushing);
  do_ massert (is_uptodate mb);
  do_ put_membuf id (mb_set_flag (clear_flag (mb_flag mb) CommitPending) mb);
  stat_sub bytes_commit_pending (mb_length mb).

(** [flush_locked] is [!bcc->get_inode() || bcc->get_inode()->is_flushing]: the
    caller holds the inode's flush lock (or the cache has no inode). *)
Definition set_flushing (flush_locked : bool) (id : nat) : MC () :=
  do mb ← get_membuf id;
  do_ massert (is_locked mb);
  do_ massert (is_inuse mb);
  do_ massert flush_locked;
  do_ massert (negb (is_truncated mb));
  do dirty ← is_dirty mb;
  do_ massert (dirty && is_uptodate mb);
  do_ put_membuf id (mb_set_flag (or_flag (mb_flag mb) Flushing) mb);
  do_ stat_add bytes_flushing (mb_length mb);
  do s ← mget;
  massert (st s bytes_flushing <=? AZNFSC_MAX_FILE_SIZE).

Definition clear_flushing (id : nat) : MC () :=
  do mb ← get_membuf id;
  do_ massert (is_locked mb);
  do_ massert (is_inuse mb);
  do_ massert (negb (is_truncated mb));
  do_ massert (mb_has Flushing mb);
  do dirty ← is_dirty mb;
  do_ massert (negb dirty);
  do_ put_membuf id (mb_set_flag (clear_flag (mb_flag mb) Flushing) mb);
  stat_sub bytes_flushing (mb_length mb).

Definition try_lock (id : nat) : MC bool :=
  do mb ← get_membuf id;
  do_ massert (is_inuse mb);
  do_ put_membuf id (mb_set_flag (or_flag (mb_flag mb) Locked) mb);
  let locked := negb (is_locked mb) in
  if locked then
    do_ stat_add bytes_locked (mb_length mb);
    do s ← mget;
    do_ massert (st s bytes_locked <=? AZNFSC_MAX_FILE_SIZE);
    mret true
  else mret false.

(** [set_locked()] waits until the lock is free.  In this model the wait is a
    precondition: the operation is run when [try_lock] succeeds, and its run
    from a state in which the membuf is locked is undefined ([None]), the
    caller being blocked there. *)
Definition set_locked (id : nat) : MC bool :=
  do mb ← get_membuf id;
  do_ massert (is_inuse mb);
  do locked ← try_lock id;
  do_ massert locked;
  do mb' ← get_membuf id;
  do_ massert (is_locked mb');
  do_ massert (is_inuse mb');
  mret true.

Definition clear_locked (id : nat) : MC () :=
  do mb ← get_membuf id;
  do_ massert (is_locked mb);
  do_ massert (is_inuse mb);
  do flushing ← is_flushing mb;
  do_ massert (negb flushing);
  do_ put_membuf id (mb_set_flag (clear_flag (mb_flag mb) Locked) mb);
  stat_sub bytes_locked (mb_length mb).

Definition set_dirty (id : nat) : MC () :=
  do mb ← get_membuf id;
  do_ massert (is_locked mb);
  do_ massert (is_inuse mb);
  do_ massert (is_uptodate mb);
  do flushing ← is_flushing mb;
  do_ massert (negb flushing);
  do cp ← is_commit_pending mb;
  do_ massert (negb cp);
  do_ put_membuf id (mb_set_flag (or_flag (mb_flag mb) Dirty) mb);
  if mb_has Dirty mb then mret ()
  else
    do_ stat_add bytes_dirty (mb_length mb);
    do s ← mget;
    massert (st s bytes_dirty <=? AZNFSC_MAX_FILE_SIZE).

Definition clear_dirty (id : nat) : MC () :=
  do mb ← get_membuf id;
  do_ massert (is_locked mb);
  do_ massert (is_inuse mb);
  do flushing ← is_flushing mb;
  do_ massert flushing;
  do_ put_membuf id (mb_set_flag (clear_flag (mb_flag mb) Dirty) mb);
  stat_sub bytes_dirty (mb_length mb).

Definition set_truncated (id : nat) : MC () :=
  do mb ← get_membuf id;
  do_ massert (is_locked mb);
  do_ massert (negb (is_truncated mb));
  do flushing ← is_flushing mb;
  do_ massert (negb flushing);
  put_membuf id (mb_set_flag (or_flag (mb_flag mb) Truncated) mb).

Definition set_inuse (id : nat) : MC () :=
  do mb ← get_membuf id;
  do_ stat_add bytes_inuse (mb_length mb);
  put_membuf id (mb_set_inuse (mb_inuse mb + 1) mb).

Definition clear_inuse (id : nat) : MC () :=
  do mb ← get_membuf id;
  do_ stat_sub bytes_inuse (mb_length mb);
  do_ massert (0 <? mb_inuse mb);
  put_membuf id (mb_set_inuse (mb_inuse mb - 1) mb).

(** ** Release and flush eligibility of a chunk *)
Definition safe_to_release (bc : bytes_chunk) : MC bool :=
  do mb ← get_membuf (bc_alloc_buffer bc);
  if is_inuse mb then mret false
  else
    do dirty ← is_dirty mb;
    if dirty then mret false
    else do cp ← is_commit_pending mb; mret (negb cp).

Definition needs_flush (bc : bytes_chunk) : MC bool :=
  do mb ← get_membuf (bc_alloc_buffer bc);
  do dirty ← is_dirty mb;
  if dirty then do flushing ← is_flushing mb; mret (negb flushing) else mret false.
