(* ===== verification/MembufSpec.v ===== *)
(** * What each membuf operation does

    Every operation on a live membuf replaces it by an updated membuf and moves
    the metrics by exactly the difference of the two membufs' contributions
    ([weight]).  This is the one fact the invariant of the cache needs of the
    membuf layer; the per-operation lemmas below also record which guards must
    have held. *)
From S2P Require Import Prelude CacheState Membuf.

(** The contribution of one membuf to a metric. *)
Definition weight (k : counter) (mb : membuf) : Z :=
  match k with
  | bytes_allocated => mb_allocated_length mb
  | bytes_dirty => if mb_has Dirty mb then mb_length mb else 0
  | bytes_flushing => if mb_has Flushing mb then mb_length mb else 0
  | bytes_commit_pending => if mb_has CommitPending mb then mb_length mb else 0
  | bytes_uptodate => if mb_has Uptodate mb then mb_length mb else 0
  | bytes_locked => if mb_has Locked mb then mb_length mb else 0
  | bytes_inuse => mb_inuse mb * mb_length mb
  | _ => 0
  end.

(** The metrics that are sums over live membufs. *)
Definition tracked (k : counter) : bool :=
  match k with
  | bytes_allocated | bytes_dirty | bytes_flushing | bytes_commit_pending
  | bytes_uptodate | bytes_locked | bytes_inuse => true
  | _ => false
  end.

Record mb_updated (id : nat) (mb mb' : membuf) (s s' : cache) : Prop := {
  upd_lookup : membufs s !! id = Some mb;
  upd_heap : membufs s' = <[id := mb']> (membufs s);
  upd_st : ∀ k, st s' k = st s k + weight k mb' - weight k mb;
  upd_st_g : ∀ k, st_g s' k = st_g s k + weight k mb' - weight k mb;
  upd_chunkmap : chunkmap s' = chunkmap s;
  upd_next : next_id s' = next_id s;
  upd_fd : backing_file_fd s' = backing_file_fd s;
  upd_name : backing_file_name s' = backing_file_name s;
  upd_inval : invalidate_pending s' = invalidate_pending s;
  upd_size : cache_size s' = cache_size s;
}.

(** Evaluates the flag queries of an updated flag word. *)
Ltac flags :=
  unfold is_uptodate, is_locked, is_truncated, is_inuse, mb_has, mb_is_inuse in *;
  simpl in *; rewrite ?has_or_flag, ?has_clear_flag in *; simpl in *.

(** Unfolds the operations down to the monad's primitives. *)
Ltac mb_unfold :=
  unfold is_dirty, is_flushing, is_commit_pending, get_membuf, put_membuf, stat_add, stat_sub;
  cbv zeta.

Ltac bools :=
  repeat match goal with
  | H : negb _ = true |- _ => apply negb_true_iff in H
  | H : negb _ = false |- _ => apply negb_false_iff in H
  | H : (_ && _)%bool = true |- _ => apply andb_true_iff in H as [? ?]
  | H : (_ <=? _) = true |- _ => apply Z.leb_le in H
  | H : (_ <? _) = true |- _ => apply Z.ltb_lt in H
  | H : (_ =? _) = true |- _ => apply Z.eqb_eq in H
  | H : (_ <=? _) = false |- _ => apply Z.leb_gt in H
  | H : (_ <? _) = false |- _ => apply Z.ltb_ge in H
  | H : (_ =? _) = false |- _ => apply Z.eqb_neq in H
  end.

Ltac wlp_go := mb_unfold; repeat (wlp_step; cbv zeta).

(** Proves [mb_updated] for a concrete operation, after the flags are known. *)
Ltac upd_solve :=
  split; simpl; try reflexivity; try assumption;
  let k := fresh "k" in
  intros k; destruct k; bumps;
  simpl; flags;
  repeat match goal with H : has_flag _ _ = _ |- _ => rewrite H end; simpl; try lia.

(** Runs an operation symbolically, keeping the guards that were passed. *)
Ltac op_spec :=
  wlp_go; simplify_eq; simpl in *; bools; simpl in *; simplify_eq;
  eexists; split_and!; try eassumption; try upd_solve.

Section ops.
Implicit Types (id : nat) (s : cache) (mb : membuf).

Lemma set_locked_spec id s :
  wlp (set_locked id) s (λ _ s', ∃ mb, is_locked mb = false ∧ is_inuse mb = true ∧
    mb_updated id mb (mb_set_flag (or_flag (mb_flag mb) Locked) mb) s s').
Proof.
  unfold set_locked, try_lock. wlp_go; simplify_eq.
  all: repeat (wlp_step; cbv zeta); simplify_eq; try done. simpl in *.
  rewrite lookup_insert_eq in *; simplify_eq. bools.
  eexists; split_and!; [eassumption|eassumption|upd_solve].
Qed.

(** A failed [try_lock] leaves the membuf as it is. *)
Lemma try_lock_spec id s :
  wlp (try_lock id) s (λ b s', ∃ mb, b = negb (is_locked mb) ∧ is_inuse mb = true ∧
    mb_updated id mb (mb_set_flag (or_flag (mb_flag mb) Locked) mb) s s').
Proof.
  unfold try_lock. wlp_go; simplify_eq; bools;
    (eexists; split_and!; [|eassumption|upd_solve]).
  all: by match goal with H : is_locked _ = _ |- _ => rewrite H end.
Qed.

Lemma clear_locked_spec id s :
  wlp (clear_locked id) s (λ _ s', ∃ mb, is_locked mb = true ∧ is_inuse mb = true ∧
    mb_has Flushing mb = false ∧
    mb_updated id mb (mb_set_flag (clear_flag (mb_flag mb) Locked) mb) s s').
Proof. unfold clear_locked. op_spec. Qed.

Lemma set_uptodate_spec id s :
  wlp (set_uptodate id) s (λ _ s', ∃ mb, is_locked mb = true ∧ is_inuse mb = true ∧
    cache_size s' = (if is_uptodate mb then cache_size s
                     else Z.max (cache_size s) (mb_offset mb + mb_length mb)) ∧
    mb_updated id mb (mb_set_flag (or_flag (mb_flag mb) Uptodate) mb)
      (c_set_cache_size (cache_size s') s) s').
Proof.
  unfold set_uptodate. wlp_go; simplify_eq; simpl in *; bools;
    (eexists; split_and!; [eassumption|eassumption| |upd_solve]);
    by match goal with H : is_uptodate _ = _ |- _ => rewrite H end.
Qed.

Lemma set_dirty_spec id s :
  wlp (set_dirty id) s (λ _ s', ∃ mb, is_locked mb = true ∧ is_inuse mb = true ∧
    is_uptodate mb = true ∧ mb_has Flushing mb = false ∧ mb_has CommitPending mb = false ∧
    mb_updated id mb (mb_set_flag (or_flag (mb_flag mb) Dirty) mb) s s').
Proof. unfold set_dirty. op_spec. Qed.

Lemma clear_dirty_spec id s mb :
  membufs s !! id = Some mb → mb_has Dirty mb = true →
  wlp (clear_dirty id) s (λ _ s', is_locked mb = true ∧ is_inuse mb = true ∧ mb_has Flushing mb = true ∧
    mb_updated id mb (mb_set_flag (clear_flag (mb_flag mb) Dirty) mb) s s').
Proof.
  intros Hid Hd. unfold clear_dirty. wlp_go; simplify_eq; simpl in *; bools; split_and!; try done. upd_solve.
Qed.

Lemma set_flushing_spec fl id s mb :
  membufs s !! id = Some mb → mb_has Flushing mb = false →
  wlp (set_flushing fl id) s (λ _ s', is_locked mb = true ∧ is_inuse mb = true ∧
    fl = true ∧ is_truncated mb = false ∧ mb_has Dirty mb = true ∧ is_uptodate mb = true ∧
    mb_updated id mb (mb_set_flag (or_flag (mb_flag mb) Flushing) mb) s s').
Proof.
  intros Hid Hf. unfold set_flushing. wlp_go; simplify_eq; simpl in *; bools; split_and!; try done. upd_solve.
Qed.

Lemma clear_flushing_spec id s :
  wlp (clear_flushing id) s (λ _ s', ∃ mb, is_locked mb = true ∧ is_inuse mb = true ∧
    mb_has Flushing mb = true ∧ mb_has Dirty mb = false ∧
    mb_updated id mb (mb_set_flag (clear_flag (mb_flag mb) Flushing) mb) s s').
Proof. unfold clear_flushing. op_spec. Qed.

Lemma set_commit_pending_spec id s :
  wlp (set_commit_pending id) s (λ _ s', ∃ mb, is_locked mb = true ∧ is_inuse mb = true ∧
    is_uptodate mb = true ∧ mb_has Dirty mb = false ∧ mb_has Flushing mb = false ∧
    mb_has CommitPending mb = false ∧
    mb_updated id mb (mb_set_flag (or_flag (mb_flag mb) CommitPending) mb) s s').
Proof. unfold set_commit_pending. op_spec. Qed.

Lemma clear_commit_pending_spec id s :
  wlp (clear_commit_pending id) s (λ _ s', ∃ mb, is_locked mb = true ∧ is_inuse mb = true ∧
    mb_has CommitPending mb = true ∧ is_uptodate mb = true ∧
    mb_updated id mb (mb_set_flag (clear_flag (mb_flag mb) CommitPending) mb) s s').
Proof. unfold clear_commit_pending. op_spec. Qed.

Lemma set_truncated_spec id s :
  wlp (set_truncated id) s (λ _ s', ∃ mb, is_locked mb = true ∧
    is_truncated mb = false ∧ mb_has Flushing mb = false ∧
    mb_updated id mb (mb_set_flag (or_flag (mb_flag mb) Truncated) mb) s s').
Proof. unfold set_truncated. op_spec. Qed.

Lemma clear_inuse_spec id s :
  wlp (clear_inuse id) s (λ _ s', ∃ mb, is_inuse mb = true ∧
    mb_updated id mb (mb_set_inuse (mb_inuse mb - 1) mb) s s').
Proof.
  unfold clear_inuse. op_spec. by apply Z.ltb_lt.
Qed.

(** Operations that cannot abort on a live membuf. *)
Lemma set_inuse_spec id s mb :
  membufs s !! id = Some mb →
  wp (set_inuse id) s (λ _ s',
    mb_updated id mb (mb_set_inuse (mb_inuse mb + 1) mb) s s').
Proof.
  intros Hid. unfold set_inuse. mb_unfold.
  repeat first [wp_step; [exact Hid|]|wp_step]. upd_solve.
Qed.

Lemma shared_ptr_copy_spec id s mb :
  membufs s !! id = Some mb →
  wp (shared_ptr_copy id) s (λ _ s',
    mb_updated id mb (mb_set_use_count (mb_use_count mb + 1) mb) s s').
Proof.
  intros Hid. unfold shared_ptr_copy. mb_unfold.
  repeat first [wp_step; [exact Hid|]|wp_step]. upd_solve.
Qed.
End ops.

(** ** Operations on a membuf whose guards hold do not abort *)

(** The metrics can absorb the membuf's contribution. *)
Definition room (mb : membuf) (s : cache) : Prop := ∀ k, weight k mb ≤ st s k ≤ st_g s k.

Lemma room_updated id mb mb' s s' : mb_updated id mb mb' s s' → room mb s → room mb' s'.
Proof.
  intros Hu Hr k. rewrite (upd_st _ _ _ _ _ Hu), (upd_st_g _ _ _ _ _ Hu). specialize (Hr k). lia.
Qed.

Lemma mb_updated_trans id mb1 mb2 mb3 s1 s2 s3 :
  mb_updated id mb1 mb2 s1 s2 → mb_updated id mb2 mb3 s2 s3 → mb_updated id mb1 mb3 s1 s3.
Proof.
  intros [? Hh1 Hs1 Hg1] [? Hh2 Hs2 Hg2]. split; try congruence.
  - rewrite Hh2, Hh1. by rewrite insert_insert_eq.
  - intros c. rewrite Hs2, Hs1. lia.
  - intros c. rewrite Hg2, Hg1. lia.
Qed.

Lemma upd_this id mb mb' s s' : mb_updated id mb mb' s s' → membufs s' !! id = Some mb'.
Proof. intros Hu. rewrite (upd_heap _ _ _ _ _ Hu). apply lookup_insert_eq. Qed.

Section total.
Context (id : nat) (s : cache) (mb : membuf) (Hid : membufs s !! id = Some mb) (Hroom : room mb s).

Lemma clear_inuse_total :
  is_inuse mb = true → 0 < mb_length mb →
  wp (clear_inuse id) s (λ _ s', mb_updated id mb (mb_set_inuse (mb_inuse mb - 1) mb) s s').
Proof.
  intros Hiu Hl. pose proof (Hroom bytes_inuse) as Hr. simpl in Hr. apply Z.ltb_lt in Hiu as Hiu'.
  assert (mb_length mb ≤ st s bytes_inuse) by nia.
  unfold clear_inuse, get_membuf, stat_sub, put_membuf. repeat wp_step; [exact Hid|cmp|cmp|done|].
  upd_solve.
Qed.

Lemma clear_locked_total :
  is_locked mb = true → is_inuse mb = true → mb_has Flushing mb = false →
  wp (clear_locked id) s (λ _ s', mb_updated id mb (mb_set_flag (clear_flag (mb_flag mb) Locked) mb) s s').
Proof.
  intros Hlk Hiu Hf. pose proof (Hroom bytes_locked) as Hr. unfold is_locked in Hlk. simpl in Hr. rewrite Hlk in Hr.
  unfold clear_locked, get_membuf, is_flushing, stat_sub, put_membuf. cbv zeta.
  repeat wp_step; [exact Hid|done|done|by rewrite Hf|by rewrite Hf|cmp|cmp|]. upd_solve.
Qed.

Lemma set_truncated_total :
  is_locked mb = true → is_truncated mb = false → mb_has Flushing mb = false →
  wp (set_truncated id) s (λ _ s', mb_updated id mb (mb_set_flag (or_flag (mb_flag mb) Truncated) mb) s s').
Proof.
  intros Hlk Ht Hf. unfold set_truncated, get_membuf, is_flushing, put_membuf. cbv zeta.
  repeat wp_step; [exact Hid|done|by rewrite Ht|by rewrite Hf|by rewrite Hf|]. upd_solve.
Qed.

(** The lock is free and the new total of locked bytes is within bounds. *)
Lemma try_lock_total :
  is_inuse mb = true → is_locked mb = false → st s bytes_locked + mb_length mb ≤ AZNFSC_MAX_FILE_SIZE →
  wp (try_lock id) s (λ b s', b = true ∧
    mb_updated id mb (mb_set_flag (or_flag (mb_flag mb) Locked) mb) s s').
Proof.
  intros Hiu Hlk Hb. unfold try_lock, get_membuf, stat_add, put_membuf. cbv zeta.
  wp_step. wp_step. wp_step. wp_step; [exact Hid|]. wp_asserts done. wp_step. wp_step.
  rewrite Hlk. simpl. repeat wp_step; [simpl; bumps; cmp|]. split; [done|].
  unfold is_locked in Hlk. upd_solve.
Qed.

Lemma set_locked_total :
  is_inuse mb = true → is_locked mb = false → st s bytes_locked + mb_length mb ≤ AZNFSC_MAX_FILE_SIZE →
  wp (set_locked id) s (λ _ s',
    mb_updated id mb (mb_set_flag (or_flag (mb_flag mb) Locked) mb) s s').
Proof.
  intros Hiu Hlk Hb. unfold set_locked, get_membuf. wp_step. wp_step. wp_step. wp_step; [exact Hid|].
  wp_asserts done. wp_step. eapply wp_mono; [by apply try_lock_total|]. cbv beta. intros b s' [-> Hu].
  wp_asserts done. repeat wp_step; [by apply (upd_this _ _ _ _ _ Hu)| |done|done].
  unfold is_locked, mb_has. simpl. by rewrite has_or_flag.
Qed.
End total.
