(* ===== verification/ChunkMap.v ===== *)
(** * The chunkmap: a [std::map<uint64_t, bytes_chunk>]

    The ordered map is a list of (key, value) pairs in increasing key order; an
    iterator is the key it points at, [None] being [end()].  [cm_wf lo m] is the
    shape invariant of the chunkmap: keys are the chunks' offsets, chunks are
    not empty, sorted and do not overlap, and all start at or after [lo]. *)
From S2P Require Import Prelude CacheState.

Abbreviation cmap := (list (Z * bytes_chunk)).

(** ** Operations of std::map *)
Fixpoint cm_lower_bound (x : Z) (m : cmap) : option Z :=
  match m with
  | [] => None
  | (k, _) :: m' => if x <=? k then Some k else cm_lower_bound x m'
  end.

Fixpoint cm_lookup (x : Z) (m : cmap) : option bytes_chunk :=
  match m with
  | [] => None
  | (k, v) :: m' => if x =? k then Some v else cm_lookup x m'
  end.

Definition cm_begin (m : cmap) : option Z := fst <$> head m.

(** [std::next(it)] *)
Definition cm_next (k : Z) (m : cmap) : option Z := cm_lower_bound (k + 1) m.

(** [it < end()] comparisons on iterators, [end()] being past every key. *)
Definition key_before (k : Z) (it : option Z) : bool :=
  match it with Some k' => k <? k' | None => true end.

(** [std::prev(it)]; [None] when [it] is [begin()]. *)
Fixpoint cm_prev (it : option Z) (m : cmap) : option Z :=
  match m with
  | [] => None
  | (k, _) :: m' =>
      if key_before k it then
        match cm_prev it m' with Some k' => Some k' | None => Some k end
      else None
  end.

(** [try_emplace(k, v)]: the map and whether the insertion took place. *)
Fixpoint cm_try_emplace (k : Z) (v : bytes_chunk) (m : cmap) : cmap * bool :=
  match m with
  | [] => ([(k, v)], true)
  | (k', v') :: m' =>
      if k <? k' then ((k, v) :: m, true)
      else if k =? k' then (m, false)
      else let '(r, b) := cm_try_emplace k v m' in ((k', v') :: r, b)
  end.

Fixpoint cm_erase (k : Z) (m : cmap) : cmap :=
  match m with
  | [] => []
  | (k', v') :: m' => if k =? k' then m' else (k', v') :: cm_erase k m'
  end.

(** Assignment through an iterator, [it->second = v]. *)
Fixpoint cm_update (k : Z) (v : bytes_chunk) (m : cmap) : cmap :=
  match m with
  | [] => []
  | (k', v') :: m' => if k =? k' then (k', v) :: m' else (k', v') :: cm_update k v m'
  end.

(** The keys visited by [for (it = b; it != e; ++it)]. *)
Definition cm_range (b e : option Z) (m : cmap) : list Z :=
  match b with
  | None => []
  | Some b => filter (λ k, b ≤ k ∧ key_before k e = true) m.*1
  end.

(** ** Shape invariant *)
Fixpoint cm_wf (lo : Z) (m : cmap) : Prop :=
  match m with
  | [] => True
  | (k, bc) :: m' =>
      k = bc_offset bc ∧ lo ≤ k ∧ 0 < bc_length bc ∧ cm_wf (bc_end bc) m'
  end.

(** The end of the last chunk of [m], [lo] if there is none. *)
Fixpoint cm_last_end (lo : Z) (m : cmap) : Z :=
  match m with [] => lo | (_, bc) :: m' => cm_last_end (bc_end bc) m' end.

(** The chunk that caches byte [x]. *)
Fixpoint cm_find (x : Z) (m : cmap) : option bytes_chunk :=
  match m with
  | [] => None
  | (_, bc) :: m' => if (bc_offset bc <=? x) && (x <? bc_end bc) then Some bc else cm_find x m'
  end.

(** Total bytes cached by the chunks of [m]. *)
Fixpoint cm_bytes (m : cmap) : Z :=
  match m with [] => 0 | (_, bc) :: m' => bc_length bc + cm_bytes m' end.

Section lemmas.
Implicit Types (m : cmap) (k lo x : Z) (bc : bytes_chunk).

Lemma cm_wf_weaken lo lo' m : lo' ≤ lo → cm_wf lo m → cm_wf lo' m.
Proof. destruct m as [|[k bc] m]; simpl; [done|]. intuition lia. Qed.

Lemma cm_wf_app lo m1 m2 :
  cm_wf lo (m1 ++ m2) ↔ cm_wf lo m1 ∧ cm_wf (cm_last_end lo m1) m2.
Proof.
  revert lo. induction m1 as [|[k bc] m1 IH]; intros lo; simpl; [tauto|].
  rewrite IH. tauto.
Qed.

Lemma cm_last_end_ge lo m : cm_wf lo m → lo ≤ cm_last_end lo m.
Proof.
  revert lo. induction m as [|[k bc] m IH]; intros lo; simpl; [lia|].
  intros (-> & ? & ? & Hm). apply IH in Hm. unfold bc_end in *. lia.
Qed.

Lemma cm_last_end_app lo m1 m2 :
  cm_last_end lo (m1 ++ m2) = cm_last_end (cm_last_end lo m1) m2.
Proof. revert lo. by induction m1 as [|[k bc] m1 IH]; intros lo; simpl. Qed.

Lemma cm_wf_elem lo m k bc :
  cm_wf lo m → (k, bc) ∈ m →
  k = bc_offset bc ∧ lo ≤ k ∧ 0 < bc_length bc ∧ bc_end bc ≤ cm_last_end lo m.
Proof.
  revert lo. induction m as [|[k' bc'] m IH]; intros lo; simpl; [by intros _ ?%elem_of_nil|].
  intros (-> & Hlo & Hlen & Hm) [Heq|Hin]%elem_of_cons.
  - simplify_eq. apply cm_last_end_ge in Hm. auto.
  - destruct (IH _ Hm Hin) as (? & ? & ? & ?). unfold bc_end in *. split_and!; lia.
Qed.

(** Every chunk of a well-formed map splits it. *)
Lemma cm_wf_keys_lt lo m1 k bc m2 :
  cm_wf lo (m1 ++ (k, bc) :: m2) → ∀ k' bc', (k', bc') ∈ m1 → bc_end bc' ≤ k ∧ k' < k.
Proof.
  intros (H1 & H2)%cm_wf_app k' bc' Hin. simpl in H2. destruct H2 as (-> & Hlo & _).
  destruct (cm_wf_elem _ _ _ _ H1 Hin) as (-> & ? & ? & ?). unfold bc_end in *. lia.
Qed.

Lemma cm_wf_keys_gt lo m1 k bc m2 :
  cm_wf lo (m1 ++ (k, bc) :: m2) → ∀ k' bc', (k', bc') ∈ m2 → bc_end bc ≤ k' ∧ k < k'.
Proof.
  intros (H1 & H2)%cm_wf_app k' bc' Hin. simpl in H2.
  destruct H2 as (-> & Hlo & ? & Hm).
  destruct (cm_wf_elem _ _ _ _ Hm Hin) as (-> & ? & ? & ?). unfold bc_end in *. lia.
Qed.

Lemma cm_lookup_elem lo m k bc : cm_wf lo m → cm_lookup k m = Some bc ↔ (k, bc) ∈ m.
Proof.
  revert lo. induction m as [|[k' bc'] m IH]; intros lo Hwf; simpl.
  - split; [done|by intros ?%elem_of_nil].
  - destruct Hwf as (-> & ? & ? & Hm). destruct (Z.eqb_spec k (bc_offset bc')) as [->|Hne].
    + split; [intros; simplify_eq; by left|].
      intros [?|Hin]%elem_of_cons; [by simplify_eq|].
      destruct (cm_wf_elem _ _ _ _ Hm Hin) as (? & ? & ? & ?). unfold bc_end in *. lia.
    + rewrite (IH _ Hm), elem_of_cons. split; [by right|].
      intros [?|?]; [by simplify_eq|done].
Qed.

Lemma cm_find_elem lo m x bc :
  cm_wf lo m →
  cm_find x m = Some bc ↔ (bc_offset bc, bc) ∈ m ∧ bc_offset bc ≤ x < bc_end bc.
Proof.
  revert lo. induction m as [|[k' bc'] m IH]; intros lo Hwf; simpl.
  - split; [done|by intros [?%elem_of_nil _]].
  - destruct Hwf as (-> & ? & ? & Hm). rewrite elem_of_cons.
    destruct ((bc_offset bc' <=? x) && (x <? bc_end bc')) eqn:E.
    + apply andb_true_iff in E as [E1%Z.leb_le E2%Z.ltb_lt].
      split; [intros; simplify_eq; auto|].
      intros [[?|Hin] ?]; [by simplify_eq|].
      destruct (cm_wf_elem _ _ _ _ Hm Hin) as (? & ? & ? & ?). unfold bc_end in *. lia.
    + rewrite (IH _ Hm). split; [tauto|].
      intros [[?|?] ?]; [|done]. simplify_eq.
      apply andb_false_iff in E as [E%Z.leb_gt|E%Z.ltb_ge]; lia.
Qed.

Lemma cm_find_None lo m x :
  cm_wf lo m → cm_find x m = None ↔
  ∀ k bc, (k, bc) ∈ m → ¬ (bc_offset bc ≤ x < bc_end bc).
Proof.
  intros Hwf. split.
  - intros Hn k bc Hin Hx. destruct (cm_wf_elem _ _ _ _ Hwf Hin) as (-> & _).
    assert (cm_find x m = Some bc) by (by apply (cm_find_elem lo)). congruence.
  - intros Hall. destruct (cm_find x m) as [bc|] eqn:E; [|done].
    apply (cm_find_elem lo) in E as [? ?]; [|done]. exfalso. by eapply Hall.
Qed.

Lemma cm_elem_split lo m k bc :
  cm_wf lo m → (k, bc) ∈ m → ∃ m1 m2, m = m1 ++ (k, bc) :: m2.
Proof. intros _ Hin. by apply list_elem_of_split. Qed.

(** *** Map operations on a split map *)
Lemma cm_lower_bound_split x m1 m2 :
  (∀ k bc, (k, bc) ∈ m1 → k < x) → (∀ k bc, (k, bc) ∈ m2 → x ≤ k) →
  cm_lower_bound x (m1 ++ m2) = cm_begin m2.
Proof.
  intros H1 H2. induction m1 as [|[k bc] m1 IH]; simpl.
  - destruct m2 as [|[k bc] m2]; simpl; [done|].
    assert (x ≤ k) by (eapply H2; by left). by rewrite (proj2 (Z.leb_le _ _)).
  - assert (k < x) by (eapply H1; by left).
    rewrite (proj2 (Z.leb_gt _ _)) by done. apply IH. intros. eapply H1. by right.
Qed.

Lemma cm_lookup_split m1 k bc m2 :
  (∀ k' bc', (k', bc') ∈ m1 → k' < k) → cm_lookup k (m1 ++ (k, bc) :: m2) = Some bc.
Proof.
  intros H1. induction m1 as [|[k' bc'] m1 IH]; simpl; [by rewrite Z.eqb_refl|].
  assert (k' < k) by (eapply H1; by left).
  rewrite (proj2 (Z.eqb_neq _ _)) by lia. apply IH. intros. eapply H1. by right.
Qed.

Lemma cm_erase_split m1 k bc m2 :
  (∀ k' bc', (k', bc') ∈ m1 → k' < k) → cm_erase k (m1 ++ (k, bc) :: m2) = m1 ++ m2.
Proof.
  intros H1. induction m1 as [|[k' bc'] m1 IH]; simpl; [by rewrite Z.eqb_refl|].
  assert (k' < k) by (eapply H1; by left).
  rewrite (proj2 (Z.eqb_neq _ _)) by lia. f_equal. apply IH. intros. eapply H1. by right.
Qed.

Lemma cm_update_split m1 k bc v m2 :
  (∀ k' bc', (k', bc') ∈ m1 → k' < k) →
  cm_update k v (m1 ++ (k, bc) :: m2) = m1 ++ (k, v) :: m2.
Proof.
  intros H1. induction m1 as [|[k' bc'] m1 IH]; simpl; [by rewrite Z.eqb_refl|].
  assert (k' < k) by (eapply H1; by left).
  rewrite (proj2 (Z.eqb_neq _ _)) by lia. f_equal. apply IH. intros. eapply H1. by right.
Qed.

Lemma cm_try_emplace_split m1 k v m2 :
  (∀ k' bc', (k', bc') ∈ m1 → k' < k) → (∀ k' bc', (k', bc') ∈ m2 → k < k') →
  cm_try_emplace k v (m1 ++ m2) = (m1 ++ (k, v) :: m2, true).
Proof.
  intros H1 H2. induction m1 as [|[k' bc'] m1 IH]; simpl.
  - destruct m2 as [|[k' bc'] m2]; simpl; [done|].
    assert (k < k') by (eapply H2; by left). by rewrite (proj2 (Z.ltb_lt _ _)).
  - assert (k' < k) by (eapply H1; by left).
    rewrite (proj2 (Z.ltb_ge _ _)), (proj2 (Z.eqb_neq _ _)), IH by (lia || (intros; eapply H1; by right)).
    done.
Qed.

Lemma cm_prev_split it m1 k bc m2 :
  (∀ k' bc', (k', bc') ∈ m1 → key_before k' it = true) → key_before k it = true →
  (∀ k' bc', (k', bc') ∈ m2 → key_before k' it = false) →
  cm_prev it (m1 ++ (k, bc) :: m2) = Some k.
Proof.
  intros H1 Hk H2. induction m1 as [|[k' bc'] m1 IH]; simpl.
  - rewrite Hk. destruct m2 as [|[k' bc'] m2]; simpl; [done|].
    rewrite (H2 k' bc') by (by left). done.
  - rewrite (H1 k' bc') by (by left). rewrite IH; [done|]. intros. eapply H1. by right.
Qed.

Lemma cm_prev_last it m1 m2 :
  (∀ k bc, (k, bc) ∈ m1 → key_before k it = true) →
  (∀ k bc, (k, bc) ∈ m2 → key_before k it = false) →
  cm_prev it (m1 ++ m2) = fst <$> last m1.
Proof.
  intros H1 H2. induction m1 as [|[k bc] m1 IH]; simpl.
  - destruct m2 as [|[k bc] m2]; simpl; [done|]. by rewrite (H2 k bc) by (by left).
  - rewrite (H1 k bc) by (by left). rewrite IH by (intros; eapply H1; by right).
    destruct m1 as [|p m1]; [done|]. change (last ((k, bc) :: p :: m1)) with (last (p :: m1)).
    destruct (last (p :: m1)) eqn:E; [done|]. by apply last_None in E.
Qed.

Lemma cm_prev_elem it m k : cm_prev it m = Some k → ∃ bc, (k, bc) ∈ m.
Proof.
  induction m as [|[k' bc'] m IH]; simpl; [done|]. destruct (key_before k' it); [|done].
  destruct (cm_prev it m).
  - intros [= ->]. destruct IH as [bc ?]; [done|]. exists bc. by right.
  - intros [= ->]. exists bc'. by left.
Qed.

Lemma last_elem {A} (l : list A) (a : A) : last l = Some a → a ∈ l.
Proof. intros (l' & ->)%last_Some. apply elem_of_app. right. by left. Qed.

(** Splitting at an arbitrary byte: the chunks ending at or before [x], and
    the others. *)
Lemma cm_split_at lo m x :
  cm_wf lo m → ∃ m1 m2, m = m1 ++ m2 ∧
    (∀ k bc, (k, bc) ∈ m1 → bc_end bc ≤ x) ∧ (∀ k bc, (k, bc) ∈ m2 → x < bc_end bc).
Proof.
  revert lo. induction m as [|[k bc] m IH]; intros lo Hwf.
  - exists [], []. split; [done|]. split; intros ? ? ?%elem_of_nil; done.
  - destruct Hwf as (Hk & ? & ? & Hm). destruct (Z.leb_spec (bc_end bc) x).
    + destruct (IH _ Hm) as (m1 & m2 & -> & Hle & Hgt). exists ((k, bc) :: m1), m2.
      split; [done|]. split; [|done].
      intros k' bc' [?|?]%elem_of_cons; [by simplify_eq|by eapply Hle].
    + exists [], ((k, bc) :: m). split; [done|]. split; [by intros ? ? ?%elem_of_nil|].
      intros k' bc' [?|Hin]%elem_of_cons; [by simplify_eq|].
      destruct (cm_wf_elem _ _ _ _ Hm Hin) as (? & ? & ? & ?). unfold bc_end in *. lia.
Qed.

Lemma cm_bytes_cons p m : cm_bytes (p :: m) = bc_length p.2 + cm_bytes m.
Proof. by destruct p. Qed.

Lemma cm_bytes_app m1 m2 : cm_bytes (m1 ++ m2) = cm_bytes m1 + cm_bytes m2.
Proof. induction m1 as [|[k bc] m1 IH]; simpl; lia. Qed.

Lemma cm_bytes_le lo m : cm_wf lo m → 0 ≤ cm_bytes m ≤ cm_last_end lo m - lo.
Proof.
  revert lo. induction m as [|[k bc] m IH]; intros lo; simpl; [lia|].
  intros (-> & ? & ? & Hm). apply IH in Hm. unfold bc_end in *. lia.
Qed.

(** Removing a chunk keeps the shape. *)
Lemma cm_wf_remove lo m1 k bc m2 : cm_wf lo (m1 ++ (k, bc) :: m2) → cm_wf lo (m1 ++ m2).
Proof.
  rewrite !cm_wf_app. simpl. intros (H1 & -> & ? & ? & H2). split; [done|].
  eapply cm_wf_weaken; [|done]. unfold bc_end. lia.
Qed.

(** Replacing a chunk by a chunk that covers a part of it keeps the shape. *)
Lemma cm_wf_shrink lo m1 k bc k' bc' m2 :
  cm_wf lo (m1 ++ (k, bc) :: m2) →
  k' = bc_offset bc' → bc_offset bc ≤ bc_offset bc' → 0 < bc_length bc' →
  bc_end bc' ≤ bc_end bc →
  cm_wf lo (m1 ++ (k', bc') :: m2).
Proof.
  rewrite !cm_wf_app. simpl. intros (H1 & -> & ? & ? & H2) -> ? ? ?.
  split_and!; [done|done|lia|done|]. eapply cm_wf_weaken; [|done]. lia.
Qed.

(** Inserting a chunk into a gap keeps the shape. *)
Lemma cm_wf_insert lo m1 k bc m2 :
  cm_wf lo (m1 ++ m2) → k = bc_offset bc → cm_last_end lo m1 ≤ k → 0 < bc_length bc →
  (∀ k' bc', (k', bc') ∈ m2 → bc_end bc ≤ k') →
  cm_wf lo (m1 ++ (k, bc) :: m2).
Proof.
  rewrite !cm_wf_app. simpl. intros (H1 & H2) -> ? ? Hgt. split_and!; try done.
  destruct m2 as [|[k' bc'] m2]; [done|]. simpl in *.
  destruct H2 as (-> & ? & ? & ?). split_and!; try done. eapply Hgt. by left.
Qed.

(** Neighbours of a chunk. *)
Lemma cm_next_split lo m1 k bc m2 :
  cm_wf lo (m1 ++ (k, bc) :: m2) → cm_next k (m1 ++ (k, bc) :: m2) = cm_begin m2.
Proof.
  intros Hw. unfold cm_next. rewrite cons_middle, app_assoc. apply cm_lower_bound_split.
  - intros k' c' [Hp|?%list_elem_of_singleton]%elem_of_app; [|simplify_eq; lia].
    destruct (cm_wf_keys_lt _ _ _ _ _ Hw _ _ Hp). lia.
  - intros k' c' Hp. destruct (cm_wf_keys_gt _ _ _ _ _ Hw _ _ Hp). lia.
Qed.

Lemma cm_prev_middle lo m1 k bc m2 :
  cm_wf lo (m1 ++ (k, bc) :: m2) → cm_prev (Some k) (m1 ++ (k, bc) :: m2) = fst <$> last m1.
Proof.
  intros Hw. apply cm_prev_last; simpl.
  - intros k' c' Hp. apply Z.ltb_lt. by destruct (cm_wf_keys_lt _ _ _ _ _ Hw _ _ Hp).
  - intros k' c' [?|Hp]%elem_of_cons; apply Z.ltb_ge; [by simplify_eq|].
    destruct (cm_wf_keys_gt _ _ _ _ _ Hw _ _ Hp). lia.
Qed.

(** A chunk that starts where its predecessor ends is the next one. *)
Lemma cm_begin_at lo m1 k bc m2 k' bc' :
  cm_wf lo (m1 ++ (k, bc) :: m2) → (k', bc') ∈ m1 ++ (k, bc) :: m2 → k' = bc_end bc →
  cm_begin m2 = Some k'.
Proof.
  intros Hw [Hp|[?|Hs]%elem_of_cons]%elem_of_app ->.
  - destruct (cm_wf_keys_lt _ _ _ _ _ Hw _ _ Hp).
    apply cm_wf_app in Hw as (_ & -> & _ & ? & _). unfold bc_end in *. lia.
  - apply cm_wf_app in Hw as (_ & ? & _ & ? & _). simplify_eq. unfold bc_end in *. lia.
  - apply cm_wf_app in Hw as (_ & _ & _ & ? & Hm2). destruct m2 as [|[k2 c2] m2]; [by apply elem_of_nil in Hs|].
    simpl in *. destruct Hm2 as (-> & ? & ? & Hm2). apply elem_of_cons in Hs as [?|Hs]; [unfold cm_begin; simpl; congruence|].
    destruct (cm_wf_elem _ _ _ _ Hm2 Hs) as (_ & ? & _). unfold bc_end in *. lia.
Qed.
(** The iteration [for (it = begin(f); it != begin(B); ++it)]. *)
Lemma cm_range_split lo A f B :
  cm_wf lo (A ++ f ++ B) → f ≠ [] → cm_range (cm_begin f) (cm_begin B) (A ++ f ++ B) = f.*1.
Proof.
  destruct f as [|[k0 c0] f]; [done|]. intros Hw _. unfold cm_range. simpl.
  rewrite fmap_app, fmap_cons, fmap_app. simpl. rewrite filter_app.
  assert (∀ k c, (k, c) ∈ B → k0 < k) as HB.
  { intros k c Hin. destruct (cm_wf_keys_gt _ _ _ _ _ Hw k c); [rewrite elem_of_app; by right|done]. }
  assert (∀ k c, (k, c) ∈ (k0, c0) :: f → k0 ≤ k) as Hge.
  { intros k c [?|Hin]%elem_of_cons; [simplify_eq; lia|].
    destruct (cm_wf_keys_gt _ _ _ _ _ Hw k c); [rewrite elem_of_app; by left|lia]. }
  assert (∀ k c, (k, c) ∈ (k0, c0) :: f → key_before k (cm_begin B) = true) as Hbefore.
  { intros k c Hin. destruct B as [|[kb cb] B]; [done|]. simpl. apply Z.ltb_lt.
    rewrite app_assoc in Hw.
    destruct (cm_wf_keys_lt _ _ _ _ _ Hw k c); [rewrite elem_of_app; by right|done]. }
  assert (∀ k c, (k, c) ∈ B → key_before k (cm_begin B) = false) as Hafter.
  { intros k c Hin. destruct B as [|[kb cb] B]; [by apply elem_of_nil in Hin|]. simpl. apply Z.ltb_ge.
    rewrite app_assoc in Hw. apply elem_of_cons in Hin as [?|Hin]; [simplify_eq; lia|].
    destruct (cm_wf_keys_gt _ _ _ _ _ Hw k c Hin). lia. }
  assert (filter (λ k, k0 ≤ k ∧ key_before k (cm_begin B) = true) A.*1 = []) as ->.
  { apply filter_none. intros k ([k' c'] & -> & Hin)%list_elem_of_fmap [? _]. simpl in *.
    destruct (cm_wf_keys_lt _ _ _ _ _ Hw k' c' Hin). lia. }
  change (k0 :: f.*1 ++ B.*1) with (((k0, c0) :: f).*1 ++ B.*1). rewrite filter_app.
  rewrite filter_all.
  2: { intros k ([k' c'] & -> & Hin)%list_elem_of_fmap. simpl. split; [by eapply Hge|by eapply Hbefore]. }
  rewrite filter_none; [by rewrite app_nil_r|].
  intros k ([k' c'] & -> & Hin)%list_elem_of_fmap [_ Hk]. simpl in *. by rewrite (Hafter _ _ Hin) in Hk.
Qed.
End lemmas.
