(* ===== verification/FileCache.v ===== *)
(** * bytes_chunk_cache: the operations

    The member functions of [class bytes_chunk_cache]
    ([turbonfs/src/file_cache.cpp], [turbonfs/inc/file_cache.h]), written the
    way the source writes them: [scan] with its cursor, iterators and extent
    tracking, the purge, prune, truncate and drop loops, and the list queries.
    The chunkmap lock is held for the whole of [scan], [clear_nolock] and
    [inline_prune], so each is one atomic computation here.

    [UTILIZE_TAILROOM_FROM_LAST_MEMBUF] is not defined, as in the source. *)
From S2P Require Import Prelude CacheState Membuf ChunkMap.

(** [it->second] *)
Definition chunk_at (k : Z) : MC bytes_chunk :=
  do s ← mget; mderef (cm_lookup k (chunkmap s)).

Definition put_chunkmap (m : cmap) : MC () := mmodify (c_set_chunkmap m).

(** [chunkmap.erase(it)] destroys the chunk and with it its membuf reference. *)
Definition chunkmap_erase (k : Z) : MC () :=
  do bc ← chunk_at k;
  do s ← mget;
  do_ put_chunkmap (cm_erase k (chunkmap s));
  bytes_chunk_dtor bc.

(** [chunkmap.try_emplace(off, this, off, len, boff, alloc_buffer)], followed by
    the assertion that the key was not present. *)
Definition chunkmap_emplace (off len boff : Z) (id : nat) : MC () :=
  do bc ← bytes_chunk_view off len boff id true false;
  do s ← mget;
  let '(m', inserted) := cm_try_emplace off bc (chunkmap s) in
  do_ massert inserted;
  put_chunkmap m'.

(** A new chunk enters the chunkmap: emplacement, then accounting. *)
Definition add_chunk (off len boff : Z) (id : nat) : MC () :=
  do_ chunkmap_emplace off len boff id;
  do_ stat_add num_chunks 1;
  stat_add bytes_cached len.

(** The accounting that goes with every whole chunk leaving the chunkmap. *)
Definition account_chunk_removed (bc : bytes_chunk) : MC () :=
  do_ stat_sub num_chunks 1;
  stat_sub bytes_cached (bc_length bc).

(** A whole chunk leaves the chunkmap: accounting, then [chunkmap.erase(it)]. *)
Definition remove_chunk (k : Z) (bc : bytes_chunk) : MC () :=
  do_ account_chunk_removed bc; chunkmap_erase k.

(** ** clear_nolock *)

(** What one iteration of the purge loop does with the chunk at [k]. *)
Definition clear_one (shutdown : bool) (k : Z) : MC () :=
  do bc ← chunk_at k;
  do mb ← get_membuf (bc_alloc_buffer bc);
  if negb shutdown && is_inuse mb then mret ()
  else
    do_ massert (negb (is_inuse mb));
    if negb shutdown && is_locked mb then mret ()
    else
      do_ massert (negb (is_locked mb));
      do dirty ← is_dirty mb;
      if negb shutdown && dirty then mret ()
      else
        do cp ← is_commit_pending mb;
        if negb shutdown && cp then mret ()
        else
          do safe ← safe_to_release bc;
          do_ massert (safe || shutdown);
          remove_chunk k bc.

Definition clear_nolock (shutdown : bool) : MC () :=
  do s ← mget;
  do_ massert (st s bytes_allocated <=? st_g s bytes_allocated);
  do_ massert (st s bytes_cached <=? st_g s bytes_cached);
  do_ massert (st s bytes_dirty + st s bytes_commit_pending <=? st s bytes_allocated);
  if negb shutdown && (st s bytes_dirty + st s bytes_commit_pending =? st s bytes_allocated)
  then mret ()
  else
    do_ mfor (chunkmap s).*1 (clear_one shutdown);
    do s' ← mget;
    match chunkmap s' with
    | _ :: _ => do_ massert (negb shutdown); massert (0 <? st s' bytes_allocated)
    | [] => massert (st s' bytes_cached =? 0)
    end.

Definition clear (shutdown : bool) : MC () := clear_nolock shutdown.

Definition invalidate : MC () := mmodify (c_set_invalidate true).

Definition test_and_clear_invalidate_pending : MC bool :=
  do s ← mget; do_ mmodify (c_set_invalidate false); mret (invalidate_pending s).

(** ** scan *)
Inductive scan_action := SCAN_ACTION_INVALID | SCAN_ACTION_GET | SCAN_ACTION_RELEASE.

Definition is_get (a : scan_action) : bool :=
  match a with SCAN_ACTION_GET => true | _ => false end.
Definition is_release (a : scan_action) : bool :=
  match a with SCAN_ACTION_RELEASE => true | _ => false end.

(** The local variables of [scan]: cursor, extent edges, deletion range and the
    vector under construction. *)
Record cursor := Cur { next_offset : Z; remaining_length : Z; it : option Z }.
Record extent := Ext { x_left : Z; x_right : Z; lookback_it : option Z }.
Record deletion := Del {
  begin_delete : option Z; end_delete : option Z; released_trim : Z; released_full1 : Z }.
Record scan_st := Scan { s_cur : cursor; s_ext : extent; s_del : deletion; s_vec : list bytes_chunk }.

Definition del0 : deletion := Del None None 0 0.

Definition scan_checks (a : scan_action) (offset length : Z) : MC () :=
  do_ massert (offset <? AZNFSC_MAX_FILE_SIZE);
  do_ massert (0 <? length);
  do_ massert (i64 (offset + length) =? i64 (i64 offset + i64 length));
  do_ massert ((length <=? AZNFSC_MAX_CHUNK_SIZE) || is_release a);
  do_ massert (u64 (offset + length) <=? AZNFSC_MAX_FILE_SIZE);
  massert (is_get a || is_release a).

(** How the search for the first chunk ends: at [goto end], at
    [goto allocate_only_chunk], or at the loop over the chunkmap. *)
Inductive scan_jump := J_end | J_alloc (x : scan_st) | J_loop (x : scan_st).

(** The range starts in the gap before chunk [k] at [koff]: account for the part
    before that chunk, allocating it for a get. *)
Definition scan_gap (a : scan_action) (offset length koff k : Z) (lb : option Z) : MC scan_jump :=
  let chunk_length := Z.min (koff - offset) length in
  let cur := Cur (offset + chunk_length) (length - chunk_length) (Some k) in
  if is_get a then
    do bc ← bytes_chunk_new offset chunk_length;
    mret (J_loop (Scan cur (Ext offset (offset + chunk_length) lb) del0 [bc]))
  else mret (J_loop (Scan cur (Ext AZNFSC_BAD_OFFSET AZNFSC_BAD_OFFSET None) del0 [])).

Definition scan_start (a : scan_action) (offset length : Z) : MC scan_jump :=
  do s ← mget;
  let m := chunkmap s in
  match cm_lower_bound offset m with
  | None =>
      match cm_prev None m with
      | None =>
          if is_release a then mret J_end
          else mret (J_alloc (Scan (Cur offset length None)
                                (Ext offset (offset + length) None) del0 []))
      | Some k =>
          do bc ← chunk_at k;
          if bc_end bc <=? offset then
            if is_release a then mret J_end
            else
              let lb := if bc_end bc <? offset then None else Some k in
              mret (J_alloc (Scan (Cur offset length (Some k))
                               (Ext offset (offset + length) lb) del0 []))
          else
            mret (J_loop (Scan (Cur offset length (Some k))
                            (Ext (bc_offset bc) AZNFSC_BAD_OFFSET (cm_prev (Some k) m)) del0 []))
      end
  | Some k =>
      do bc ← chunk_at k;
      do_ massert (k =? bc_offset bc);
      if k =? offset then
        mret (J_loop (Scan (Cur offset length (Some k))
                        (Ext k AZNFSC_BAD_OFFSET (cm_prev (Some k) m)) del0 []))
      else
        match cm_prev (Some k) m with
        | None => scan_gap a offset length (bc_offset bc) k None
        | Some kp =>
            do bcp ← chunk_at kp;
            if bc_end bcp <=? offset then
              (* the test below reads next_offset after it was advanced *)
              let new_next := offset + Z.min (bc_offset bc - offset) length in
              let lb := if bc_end bcp <? new_next then None else Some kp in
              scan_gap a offset length (bc_offset bc) k lb
            else
              mret (J_loop (Scan (Cur offset length (Some kp))
                              (Ext (bc_offset bcp) AZNFSC_BAD_OFFSET (cm_prev (Some kp) m)) del0 []))
        end
  end.

(** Trims the chunk at [k] from the left by [n] bytes: the chunkmap entry and its
    membuf are updated, and the entry moves to its new key. *)
Definition trim_chunk_left (k n : Z) : MC Z :=
  do bc ← chunk_at k;
  let bc' := Chunk (bc_alloc_buffer bc) (bc_offset bc + n) (bc_length bc - n)
               (bc_buffer_offset bc + n) (bc_pvt bc) (bc_num_backend_calls_issued bc)
               (bc_is_whole bc) (bc_is_new bc) in
  do s ← mget;
  do_ put_chunkmap (cm_update k bc' (chunkmap s));
  do_ trim (bc_alloc_buffer bc) n true;
  do_ stat_sub bytes_cached n;
  do_ chunkmap_emplace (bc_offset bc') (bc_length bc') (bc_buffer_offset bc') (bc_alloc_buffer bc');
  do_ chunkmap_erase k;
  mret (bc_offset bc').

(** Trims the chunk at [k] from the right, to end at [new_end]. *)
Definition trim_chunk_right (k new_end n : Z) : MC () :=
  do bc ← chunk_at k;
  let bc' := Chunk (bc_alloc_buffer bc) (bc_offset bc) (new_end - bc_offset bc)
               (bc_buffer_offset bc) (bc_pvt bc) (bc_num_backend_calls_issued bc)
               (bc_is_whole bc) (bc_is_new bc) in
  do_ massert (0 <? bc_length bc');
  do s ← mget;
  do_ put_chunkmap (cm_update k bc' (chunkmap s));
  do_ trim (bc_alloc_buffer bc) n false;
  stat_sub bytes_cached n.

(** Iterator comparison. *)
Definition it_eqb (a b : option Z) : bool :=
  match a, b with
  | None, None => true
  | Some x, Some y => x =? y
  | _, _ => false
  end.

(** Advances the cursor by [n] bytes ([done:] and the [continue] of the gap). *)
Definition advance (c : cursor) (n : Z) (it' : option Z) : MC cursor :=
  do_ massert (0 <=? remaining_length c - n);
  mret (Cur (next_offset c + n) (remaining_length c - n) it').

(** The loop body when [next_offset == bc->offset]. *)
Definition scan_at_start (a : scan_action) (k : Z) (bc : bytes_chunk) (x : scan_st) : MC scan_st :=
  let c := s_cur x in let e := s_ext x in let d := s_del x in
  do s ← mget;
  let nxt := cm_next k (chunkmap s) in
  let chunk_length := Z.min (bc_length bc) (remaining_length c) in
  do_ massert (0 <? chunk_length);
  if is_get a then
    do v ← bytes_chunk_view (next_offset c) chunk_length (bc_buffer_offset bc)
             (bc_alloc_buffer bc) (chunk_length =? bc_length bc) false;
    do c' ← advance c chunk_length nxt;
    mret (Scan c' (Ext (x_left e) (bc_end bc) (lookback_it e)) d (s_vec x ++ [v]))
  else
    do safe ← safe_to_release bc;
    if safe then
      if chunk_length =? bc_length bc then
        let b := match begin_delete d with None => Some k | Some _ => begin_delete d end in
        do c' ← advance c chunk_length nxt;
        mret (Scan c' e (Del b nxt (released_trim d) (released_full1 d + chunk_length)) (s_vec x))
      else
        do_ massert (chunk_length =? remaining_length c);
        do k' ← trim_chunk_left k chunk_length;
        let ed := if it_eqb (Some k) (end_delete d) then Some k' else end_delete d in
        do c' ← advance c chunk_length (Some k);
        mret (Scan c' e (Del (begin_delete d) ed (released_trim d + chunk_length)
                             (released_full1 d)) (s_vec x))
    else
      do c' ← advance c chunk_length nxt;
      mret (Scan c' e d (s_vec x)).

(** The loop body when [next_offset < bc->offset]: a gap. *)
Definition scan_before (a : scan_action) (k : Z) (bc : bytes_chunk) (x : scan_st) : MC scan_st :=
  let c := s_cur x in let e := s_ext x in
  let chunk_length := Z.min (bc_offset bc - next_offset c) (remaining_length c) in
  if is_get a then
    do v ← bytes_chunk_new (next_offset c) chunk_length;
    do c' ← advance c chunk_length (Some k);
    mret (Scan c' (Ext (x_left e) (next_offset c') (lookback_it e)) (s_del x) (s_vec x ++ [v]))
  else
    do c' ← advance c chunk_length (Some k);
    mret (Scan c' e (s_del x) (s_vec x)).

(** The loop body when [next_offset > bc->offset]: inside the chunk. *)
Definition scan_inside (a : scan_action) (offset length k : Z) (bc : bytes_chunk) (x : scan_st)
    : MC scan_st :=
  let c := s_cur x in let e := s_ext x in let d := s_del x in
  do s ← mget;
  let nxt := cm_next k (chunkmap s) in
  let chunk_length := Z.min (bc_end bc - next_offset c) (remaining_length c) in
  do_ massert (0 <? chunk_length);
  if is_get a then
    do v ← bytes_chunk_view (next_offset c) chunk_length
             (bc_buffer_offset bc + (next_offset c - bc_offset bc)) (bc_alloc_buffer bc)
             false false;
    do c' ← advance c chunk_length nxt;
    mret (Scan c' (Ext (x_left e) (bc_end bc) (lookback_it e)) d (s_vec x ++ [v]))
  else
    do safe ← safe_to_release bc;
    if safe then
      let chunk_after_offset := next_offset c + chunk_length in
      let chunk_after_length := bc_end bc - chunk_after_offset in
      if chunk_after_length =? 0 then
        do_ massert (chunk_length =? bc_end bc - next_offset c);
        do_ trim_chunk_right k (next_offset c) chunk_length;
        do c' ← advance c chunk_length nxt;
        mret (Scan c' e (Del (begin_delete d) (end_delete d) (released_trim d + chunk_length)
                             (released_full1 d)) (s_vec x))
      else
        do_ massert (offset =? next_offset c);
        do_ massert (length =? remaining_length c);
        do c' ← advance c chunk_length nxt;
        mret (Scan c' e d (s_vec x))
    else
      do c' ← advance c chunk_length nxt;
      mret (Scan c' e d (s_vec x)).

(** One iteration of the loop over the chunkmap. *)
Definition scan_iter (a : scan_action) (offset length k : Z) (x : scan_st) : MC scan_st :=
  do bc ← chunk_at k;
  do mb ← get_membuf (bc_alloc_buffer bc);
  do_ massert (bc_length bc =? mb_length mb);
  do_ massert (bc_offset bc =? mb_offset mb);
  do_ (if is_get a then load mb else mret ());
  do_ massert (next_offset (s_cur x) <? bc_end bc);
  if next_offset (s_cur x) =? bc_offset bc then scan_at_start a k bc x
  else if next_offset (s_cur x) <? bc_offset bc then scan_before a k bc x
  else scan_inside a offset length k bc x.

(** [for (; remaining_length != 0 && it != chunkmap.end(); )]; each chunk needs
    at most two iterations (its gap and itself). *)
Fixpoint scan_for (fuel : nat) (a : scan_action) (offset length : Z) (x : scan_st) : MC scan_st :=
  if remaining_length (s_cur x) =? 0 then mret x
  else match it (s_cur x) with
  | None => mret x
  | Some k =>
      match fuel with
      | O => do_ massert false; mret x
      | S fuel' => do x' ← scan_iter a offset length k x; scan_for fuel' a offset length x'
      end
  end.

(** Allocation of the only or the last chunk, beyond the highest chunk. *)
Definition scan_alloc_last (a : scan_action) (x : scan_st) : MC scan_st :=
  let c := s_cur x in
  if remaining_length c =? 0 then mret x
  else if is_get a then
    do v ← bytes_chunk_new (next_offset c) (remaining_length c);
    mret (Scan (Cur (next_offset c) 0 (it c)) (s_ext x) (s_del x) (s_vec x ++ [v]))
  else mret (Scan (Cur (next_offset c) 0 (it c)) (s_ext x) (s_del x) (s_vec x)).

(** Marks a returned chunk inuse and adds a new chunk to the chunkmap; returns
    the right edge of the extent. *)
Definition scan_insert_one (a : scan_action) (bc : bytes_chunk) (xr : Z) : MC Z :=
  do_ (if is_get a then set_inuse (bc_alloc_buffer bc) else mret ());
  if bc_is_new bc then
    do_ massert (bc_is_whole bc);
    do mb ← get_membuf (bc_alloc_buffer bc);
    do_ massert (0 <? mb_length mb);
    do_ massert (mb_length mb <=? mb_allocated_length mb);
    do_ massert (bc_buffer_offset bc =? 0);
    do_ massert (bc_length bc =? mb_length mb);
    do_ massert (is_get a);
    do_ add_chunk (bc_offset bc) (bc_length bc) (bc_buffer_offset bc) (bc_alloc_buffer bc);
    mret (if xr <? bc_end bc then bc_end bc else xr)
  else mret xr.

Fixpoint scan_insert (a : scan_action) (v : list bytes_chunk) (xr : Z) : MC Z :=
  match v with
  | [] => mret xr
  | bc :: v' => do xr' ← scan_insert_one a bc xr; scan_insert a v' xr'
  end.

(** Deletes the chunks of [begin_delete, end_delete) that are safe to release;
    returns the number of bytes released ([bytes_released_full2]). *)
Fixpoint scan_delete (keys : list Z) : MC Z :=
  match keys with
  | [] => mret 0
  | k :: keys' =>
      do bc ← chunk_at k;
      do safe ← safe_to_release bc;
      if safe then
        do_ remove_chunk k bc;
        do n ← scan_delete keys';
        mret (bc_length bc + n)
      else scan_delete keys'
  end.

(** The look-back loop for the extent's left edge. *)
Fixpoint find_left (fuel : nat) (k : Z) (xl : Z) : MC Z :=
  do bc ← chunk_at k;
  if negb (xl =? AZNFSC_BAD_OFFSET) && negb (bc_end bc =? xl) then mret xl
  else
    do nf ← needs_flush bc;
    if negb nf then mret xl
    else
      do s ← mget;
      match cm_prev (Some k) (chunkmap s), fuel with
      | Some k', S fuel' => find_left fuel' k' (bc_offset bc)
      | Some _, O => do_ massert false; mret xl
      | None, _ => mret (bc_offset bc)
      end.

(** The look-forward loop for the extent's right edge. *)
Fixpoint find_right (fuel : nat) (k : option Z) (xr : Z) : MC Z :=
  match k with
  | None => mret xr
  | Some k =>
      do bc ← chunk_at k;
      if negb (xr =? AZNFSC_BAD_OFFSET) && negb (bc_offset bc =? xr) then mret xr
      else
        do nf ← needs_flush bc;
        if negb nf then mret xr
        else
          do s ← mget;
          match fuel with
          | O => do_ massert false; mret xr
          | S fuel' => find_right fuel' (cm_next k (chunkmap s)) (bc_end bc)
          end
  end.

Record scan_res := Res { r_vec : list bytes_chunk; r_released : Z; r_left : Z; r_right : Z }.

(** From [allocate_only_chunk:] to the end of the function. *)
Definition scan_finish (a : scan_action) (find_extent : bool) (x0 : scan_st) : MC scan_res :=
  do x ← scan_alloc_last a x0;
  do xr ← scan_insert a (s_vec x) (x_right (s_ext x));
  do s ← mget;
  do rel ← (if is_release a then
              let d := s_del x in
              do full2 ← scan_delete (cm_range (begin_delete d) (end_delete d) (chunkmap s));
              do_ massert (released_full1 d <=? full2);
              mret (released_trim d + full2)
            else
              do_ massert (it_eqb (begin_delete (s_del x)) None);
              do_ massert (it_eqb (end_delete (s_del x)) None);
              mret 0);
  if find_extent then
    let fuel := length (chunkmap s) in
    do l ← (match lookback_it (s_ext x) with
            | Some k => find_left fuel k (x_left (s_ext x))
            | None => mret (x_left (s_ext x))
            end);
    do r ← find_right (S fuel) (it (s_cur x)) xr;
    mret (Res (s_vec x) rel l r)
  else mret (Res (s_vec x) rel AZNFSC_BAD_OFFSET AZNFSC_BAD_OFFSET).

(** The part of [scan] after the invalidation check.  For a file-backed cache a
    get either fails to open the backing file or builds a file-backed membuf,
    whose [load()] asserts: it aborts in both cases. *)
Definition scan_body (a : scan_action) (offset len : Z) (find_extent : bool) : MC scan_res :=
  do s ← mget;
  do_ (if is_get a then massert (negb (backing_file_name s)) else mret ());
  do j ← scan_start a offset len;
  match j with
  | J_end => mret (Res [] 0 AZNFSC_BAD_OFFSET AZNFSC_BAD_OFFSET)
  | J_alloc x => scan_finish a find_extent x
  | J_loop x =>
      do_ massert (negb (is_get a) || negb (x_left (s_ext x) =? AZNFSC_BAD_OFFSET));
      do x' ← scan_for (2 * length (chunkmap s) + 1) a offset len x;
      scan_finish a find_extent x'
  end.

Definition scan (a : scan_action) (offset len : Z) (find_extent : bool) : MC scan_res :=
  do_ scan_checks a offset len;
  do_ massert (is_get a || negb find_extent);
  do inv ← test_and_clear_invalidate_pending;
  do_ (if inv then clear_nolock false else mret ());
  scan_body a offset len find_extent.

(** ** inline_prune *)

(** [get_prune_goals] is a parameter here (see [CacheLimits]): the number of
    bytes to prune inline, given the cache's and the global allocation. *)
Section prune.
Context (prune_goal : Z → Z → Z) (in_ra_window : Z → Z → bool).

Fixpoint prune_loop (keys : list Z) (inline_bytes pruned : Z) : MC Z :=
  match keys with
  | [] => mret pruned
  | k :: keys' =>
      if pruned <? inline_bytes then
        do bc ← chunk_at k;
        do mb ← get_membuf (bc_alloc_buffer bc);
        if in_ra_window (mb_offset mb) (mb_length mb) then prune_loop keys' inline_bytes pruned
        else if is_inuse mb then prune_loop keys' inline_bytes pruned
        else if is_locked mb then prune_loop keys' inline_bytes pruned
        else
          do dirty ← is_dirty mb;
          if dirty then prune_loop keys' inline_bytes pruned
          else
            do cp ← is_commit_pending mb;
            if cp then prune_loop keys' inline_bytes pruned
            else
              do_ remove_chunk k bc;
              prune_loop keys' inline_bytes (pruned + mb_allocated_length mb)
      else mret pruned
  end.

Definition inline_prune : MC () :=
  do s ← mget;
  let inline_bytes := prune_goal (st s bytes_allocated) (st_g s bytes_allocated) in
  if inline_bytes =? 0 then mret ()
  else do_ prune_loop (chunkmap s).*1 inline_bytes 0; mret ().

(** ** The public entry points *)
Definition get (offset len : Z) : MC (list bytes_chunk) :=
  do_ stat_add num_get 1;
  do_ stat_add bytes_get len;
  do_ inline_prune;
  do r ← scan SCAN_ACTION_GET offset len false;
  mret (r_vec r).

Definition getx (offset len : Z) : MC (list bytes_chunk * Z * Z) :=
  do_ stat_add num_get 1;
  do_ stat_add bytes_get len;
  do_ inline_prune;
  do r ← scan SCAN_ACTION_GET offset len true;
  mret (r_vec r, r_left r, r_right r).
End prune.

Definition release (offset len : Z) : MC Z :=
  do_ stat_add num_release 1;
  do r ← scan SCAN_ACTION_RELEASE offset len false;
  do_ massert (r_released r <=? len);
  do_ stat_add bytes_release (r_released r);
  mret (r_released r).
