(* ===== verification/CacheInv.v ===== *)
(** * The invariant of the cache and its basic preservation lemmas

    [inv s] relates the chunkmap, the membuf heap, the reference counts and the
    metrics of a (memory-backed) cache.  This file proves that every membuf
    operation and every primitive chunkmap operation preserves it without
    failing an assertion; [Scan*], [Purge] and [Truncate] build on it. *)
From S2P Require Import Prelude CacheState Membuf MembufSpec ChunkMap FileCache.

(** ** Well-formed membufs *)
Record mb_wf (mb : membuf) : Prop := {
  wf_initial : 0 ≤ mb_initial_offset mb;
  wf_offset : mb_initial_offset mb ≤ mb_offset mb;
  wf_length : 0 < mb_length mb;
  wf_fits : mb_offset mb - mb_initial_offset mb + mb_length mb ≤ mb_initial_length mb;
  wf_chunk : mb_initial_length mb ≤ AZNFSC_MAX_CHUNK_SIZE;
  wf_file : mb_initial_offset mb + mb_initial_length mb ≤ AZNFSC_MAX_FILE_SIZE;
  wf_alloc : mb_allocated_length mb = mb_initial_length mb;
  wf_fd : mb_backing_file_fd mb = -1;
  wf_inuse : 0 ≤ mb_inuse mb;
  wf_dirty : mb_has Dirty mb = true → mb_has Uptodate mb = true ∧ mb_has CommitPending mb = false;
  wf_flushing : mb_has Flushing mb = true →
    mb_has CommitPending mb = false ∧ mb_has Locked mb = true ∧ 0 < mb_inuse mb;
  wf_commit : mb_has CommitPending mb = true → mb_has Uptodate mb = true;
}.

(** Somebody holds the membuf for IO. *)
Definition held (mb : membuf) : bool := mb_has Locked mb || mb_is_inuse mb.

Ltac held_simpl := unfold held, mb_has, mb_is_inuse in *; simpl in *.

Definition ids (m : cmap) : list nat := bc_alloc_buffer <$> m.*2.

Definition in_map (id : nat) (m : cmap) : bool := bool_decide (id ∈ ids m).

(** The chunkmap entry [bc] and its membuf agree, and file offset [x] is stored
    at index [x - initial_offset] of the buffer. *)
Record linked (bc : bytes_chunk) (mb : membuf) : Prop := {
  link_offset : bc_offset bc = mb_offset mb;
  link_length : bc_length bc = mb_length mb;
  link_buffer : bc_buffer_offset bc = bc_offset bc - mb_initial_offset mb;
}.

(** An entry of the chunkmap refers to the whole of its membuf, and no I/O uses it. *)
Definition plain (bc : bytes_chunk) : Prop := bc_is_new bc = false ∧ bc_is_whole bc = true ∧ bc_pvt bc = 0.

(** Holders that must keep a reference of their own: all of them, except the
    running operation that pins the membufs of [pin] through the chunkmap. *)
Definition held_out (pin : gset nat) (id : nat) (mb : membuf) : bool :=
  if decide (id ∈ pin) then false else held mb.

Record invp (pin : gset nat) (s : cache) : Prop := {
  inv_wf : cm_wf 0 (chunkmap s);
  inv_bound : cm_last_end 0 (chunkmap s) ≤ AZNFSC_MAX_FILE_SIZE;
  inv_ids : NoDup (ids (chunkmap s));
  inv_link : ∀ k bc, (k, bc) ∈ chunkmap s →
    ∃ mb, membufs s !! bc_alloc_buffer bc = Some mb ∧ linked bc mb;
  inv_heap : ∀ id mb, membufs s !! id = Some mb → mb_wf mb ∧ (id < next_id s)%nat;
  inv_refs : ∀ id mb, membufs s !! id = Some mb →
    Z.max 1 (Z.b2z (in_map id (chunkmap s)) + Z.b2z (held_out pin id mb)) ≤ mb_use_count mb;
  inv_st : ∀ k, tracked k = true → st s k = msum (weight k) (membufs s);
  inv_num : st s num_chunks = Z.of_nat (length (chunkmap s));
  inv_cached : st s bytes_cached = cm_bytes (chunkmap s);
  inv_pos : ∀ k, 0 ≤ st s k;
  inv_g : ∀ k, st s k ≤ st_g s k;
  inv_mem : backing_file_name s = false ∧ backing_file_fd s = -1;
  inv_pin : ∀ id, id ∈ pin → in_map id (chunkmap s) = true;
  inv_plain : ∀ k bc, (k, bc) ∈ chunkmap s → plain bc;
}.

(** The invariant between operations: nothing is pinned. *)
Abbreviation inv := (invp ∅).

Lemma weight_nonneg k mb : mb_wf mb → 0 ≤ weight k mb.
Proof.
  intros Hwf. pose proof (wf_length _ Hwf). pose proof (wf_inuse _ Hwf).
  pose proof (wf_alloc _ Hwf). pose proof (wf_fits _ Hwf). pose proof (wf_offset _ Hwf).
  destruct k; simpl; repeat case_match; nia.
Qed.

Lemma weight_untracked k mb : tracked k = false → weight k mb = 0.
Proof. by destruct k. Qed.

Section inv_facts.
Context (pin : gset nat) (s : cache) (Hinv : invp pin s).

Lemma inv_weight_le id mb k :
  membufs s !! id = Some mb → weight k mb ≤ st s k.
Proof.
  intros Hid. destruct (tracked k) eqn:Ht.
  - rewrite (inv_st _ _ Hinv k Ht). apply (msum_elem_le (weight k) _ id); [|done].
    intros i x Hx. apply weight_nonneg. by apply (inv_heap _ _ Hinv) in Hx as [? _].
  - rewrite weight_untracked by done. apply (inv_pos _ _ Hinv).
Qed.

Lemma inv_chunk k bc :
  (k, bc) ∈ chunkmap s → ∃ mb, membufs s !! bc_alloc_buffer bc = Some mb ∧ linked bc mb ∧ mb_wf mb.
Proof.
  intros Hin. destruct (inv_link _ _ Hinv _ _ Hin) as (mb & Hmb & Hl).
  exists mb. split_and!; try done. by apply (inv_heap _ _ Hinv) in Hmb as [? _].
Qed.

Lemma chunk_at_spec k bc (Q : bytes_chunk → cache → Prop) :
  (k, bc) ∈ chunkmap s → Q bc s → wp (chunk_at k) s Q.
Proof.
  intros Hin HQ. unfold chunk_at. repeat wp_step; [|exact HQ].
  by apply (cm_lookup_elem 0); [apply (inv_wf _ _ Hinv)|].
Qed.

Lemma inv_chunk_bounds k bc :
  (k, bc) ∈ chunkmap s →
  k = bc_offset bc ∧ 0 ≤ bc_offset bc ∧ 0 < bc_length bc ∧ bc_end bc ≤ AZNFSC_MAX_FILE_SIZE.
Proof.
  intros Hin. destruct (cm_wf_elem _ _ _ _ (inv_wf _ _ Hinv) Hin) as (-> & ? & ? & ?).
  pose proof (inv_bound _ _ Hinv). split_and!; [done|lia|lia|lia].
Qed.
End inv_facts.

(** Locking one more membuf keeps the locked bytes within the allocated ones. *)
Lemma locked_room pin s i mb :
  invp pin s → membufs s !! i = Some mb → is_locked mb = false →
  st s bytes_allocated ≤ AZNFSC_MAX_FILE_SIZE → st s bytes_locked + mb_length mb ≤ AZNFSC_MAX_FILE_SIZE.
Proof.
  intros Hinv Hi Hlk Hb. rewrite (inv_st _ _ Hinv bytes_locked) by done. rewrite (inv_st _ _ Hinv) in Hb by done.
  pose proof (msum_mono (weight bytes_locked) (weight bytes_allocated) (delete i (membufs s))) as Hmono.
  rewrite !(msum_delete _ _ _ mb) in Hmono by done. unfold is_locked in Hlk. simpl in Hmono. rewrite Hlk in Hmono.
  destruct (inv_heap _ _ Hinv _ _ Hi) as [[] _].
  enough (msum (weight bytes_locked) (membufs s) - 0 ≤ msum (weight bytes_allocated) (membufs s) - mb_allocated_length mb)
    by lia.
  apply Hmono. intros j x [_ Hj]%lookup_delete_Some. destruct (inv_heap _ _ Hinv _ _ Hj) as [[] _]. case_match; lia.
Qed.

(** ** Flag queries do not abort on well-formed membufs *)
Definition safe_mb (mb : membuf) : bool :=
  negb (mb_is_inuse mb) && negb (mb_has Dirty mb) && negb (mb_has CommitPending mb).

Section queries.
Context (s : cache) (mb : membuf) (Hwf : mb_wf mb).

Lemma is_dirty_wp (Q : bool → cache → Prop) : Q (mb_has Dirty mb) s → wp (is_dirty mb) s Q.
Proof.
  intros HQ. unfold is_dirty, is_uptodate. cbv zeta. repeat wp_step; [| |exact HQ].
  all: destruct (mb_has Dirty mb) eqn:E; [|done]; apply (wf_dirty _ Hwf) in E as [E1 E2].
  - by rewrite E1.
  - by rewrite E2.
Qed.

Lemma is_flushing_wp (Q : bool → cache → Prop) :
  Q (mb_has Flushing mb) s → wp (is_flushing mb) s Q.
Proof.
  intros HQ. unfold is_flushing. cbv zeta. repeat wp_step; [|exact HQ].
  destruct (mb_has Flushing mb) eqn:E; [|done]. by apply (wf_flushing _ Hwf) in E as [-> _].
Qed.

Lemma is_commit_pending_wp (Q : bool → cache → Prop) :
  Q (mb_has CommitPending mb) s → wp (is_commit_pending mb) s Q.
Proof.
  intros HQ. unfold is_commit_pending. cbv zeta. repeat wp_step; [| |exact HQ].
  - destruct (mb_has Dirty mb) eqn:E; [|by rewrite orb_true_r].
    by apply (wf_dirty _ Hwf) in E as [_ ->].
  - destruct (mb_has Flushing mb) eqn:E; [|by rewrite orb_true_r].
    by apply (wf_flushing _ Hwf) in E as [-> _].
Qed.
End queries.

Lemma get_membuf_wp id mb s (Q : membuf → cache → Prop) :
  membufs s !! id = Some mb → Q mb s → wp (get_membuf id) s Q.
Proof. intros Hid HQ. unfold get_membuf. repeat wp_step; [exact Hid|exact HQ]. Qed.

Lemma safe_to_release_wp bc mb s (Q : bool → cache → Prop) :
  membufs s !! bc_alloc_buffer bc = Some mb → mb_wf mb → Q (safe_mb mb) s →
  wp (safe_to_release bc) s Q.
Proof.
  intros Hid Hwf HQ. unfold safe_to_release, safe_mb, is_inuse in *. wp_step.
  eapply get_membuf_wp; [exact Hid|]. destruct (mb_is_inuse mb); simpl in HQ.
  { by wp_step. }
  wp_step. apply is_dirty_wp; [done|]. destruct (mb_has Dirty mb); simpl in HQ.
  { by wp_step. }
  wp_step. apply is_commit_pending_wp; [done|]. by wp_step.
Qed.

Lemma needs_flush_wp bc mb s (Q : bool → cache → Prop) :
  membufs s !! bc_alloc_buffer bc = Some mb → mb_wf mb →
  Q (mb_has Dirty mb && negb (mb_has Flushing mb)) s → wp (needs_flush bc) s Q.
Proof.
  intros Hid Hwf HQ. unfold needs_flush. wp_step. eapply get_membuf_wp; [exact Hid|].
  wp_step. apply is_dirty_wp; [done|]. destruct (mb_has Dirty mb); simpl in HQ.
  - wp_step. apply is_flushing_wp; [done|]. by wp_step.
  - by wp_step.
Qed.

Lemma stat_sub_wp k d s (Q : () → cache → Prop) :
  d ≤ st s k → d ≤ st_g s k → Q () (c_bump k (- d) s) → wp (stat_sub k d) s Q.
Proof.
  intros H1 H2 HQ. unfold stat_sub. repeat wp_step; [by apply Z.leb_le|by apply Z.leb_le|exact HQ].
Qed.

(** ** Updating a membuf in place *)

(** An update that keeps the geometry, and is legal for a chunkmap entry. *)
Record mb_step (mb mb' : membuf) : Prop := {
  step_offset : mb_offset mb' = mb_offset mb;
  step_length : mb_length mb' = mb_length mb;
  step_initial : mb_initial_offset mb' = mb_initial_offset mb;
  step_wf : mb_wf mb';
}.

Lemma inv_update pin s s' id mb mb' :
  invp pin s → mb_updated id mb mb' s s' → mb_step mb mb' →
  Z.max 1 (Z.b2z (in_map id (chunkmap s)) + Z.b2z (held_out pin id mb')) ≤ mb_use_count mb' →
  invp pin s'.
Proof.
  intros Hinv [Hid Hheap Hst Hstg Hcm Hnext Hfd Hname _ _] [Ho Hl Hi Hwf'] Href.
  split; rewrite ?Hcm, ?Hnext, ?Hheap, ?Hfd, ?Hname; try apply Hinv.
  - intros k bc Hin. destruct (inv_link _ _ Hinv _ _ Hin) as (mb0 & Hmb0 & Hlk).
    destruct (decide (bc_alloc_buffer bc = id)) as [<-|Hne].
    + simplify_eq. exists mb'. rewrite lookup_insert_eq. split; [done|].
      destruct Hlk. split; congruence.
    + exists mb0. by rewrite lookup_insert_ne.
  - intros i x. destruct (decide (i = id)) as [->|Hne].
    + rewrite lookup_insert_eq. intros [= <-]. split; [done|]. by apply (inv_heap _ _ Hinv id mb).
    + rewrite lookup_insert_ne by done. apply (inv_heap _ _ Hinv).
  - intros i x. destruct (decide (i = id)) as [->|Hne].
    + rewrite lookup_insert_eq. by intros [= <-].
    + rewrite lookup_insert_ne by done. apply (inv_refs _ _ Hinv).
  - intros k Hk. rewrite Hst, (inv_st _ _ Hinv k Hk), (msum_insert _ _ _ mb) by done. lia.
  - rewrite Hst. simpl. pose proof (inv_num _ _ Hinv). lia.
  - rewrite Hst. simpl. pose proof (inv_cached _ _ Hinv). lia.
  - intros k. rewrite Hst. pose proof (inv_weight_le _ _ Hinv id mb k Hid).
    pose proof (weight_nonneg k _ Hwf'). lia.
  - intros k. rewrite Hst, Hstg. pose proof (inv_g _ _ Hinv k). lia.
Qed.

(** The reference count may change freely above the number of holders. *)
Lemma mb_step_use_count mb n : mb_wf mb → mb_step mb (mb_set_use_count n mb).
Proof. intros Hwf. split; try done. by destruct Hwf; split. Qed.

Lemma mb_step_inuse mb n :
  mb_wf mb → 0 ≤ n → (mb_has Flushing mb = true → 0 < n) → mb_step mb (mb_set_inuse n mb).
Proof.
  intros Hwf ? Hfl. split; try done. destruct Hwf; split; try done.
  intros Hf. specialize (Hfl Hf). by destruct (wf_flushing0 Hf) as (? & ? & ?).
Qed.

(** Data that is not inuse is not being flushed. *)
Lemma not_inuse_not_flushing mb : mb_wf mb → mb_is_inuse mb = false → mb_has Flushing mb = false.
Proof.
  intros Hwf Hiu%Z.ltb_ge. destruct (mb_has Flushing mb) eqn:E; [|done].
  apply (wf_flushing _ Hwf) in E as (_ & _ & ?). lia.
Qed.

(** ** Constructing a chunk *)
Lemma bytes_chunk_view_raw s id mb off len boff whole new :
  membufs s !! id = Some mb → mb_wf mb → 1 ≤ mb_use_count mb →
  backing_file_name s = false → backing_file_fd s = -1 →
  mb_offset mb ≤ off → 0 < len → off + len ≤ mb_offset mb + mb_length mb →
  boff = off - mb_initial_offset mb → (new = true → whole = true) →
  wp (bytes_chunk_view off len boff id whole new) s (λ bc s',
    bc = Chunk id off len boff 0 0 whole new ∧
    mb_updated id mb (mb_set_use_count (mb_use_count mb + 1) mb) s s').
Proof.
  intros Hid Hwf Huc Hname Hfd Hlo Hlen Hhi Hboff Hnew. destruct Hwf.
  unfold bytes_chunk_view. wp_step. eapply wp_mono; [by apply shared_ptr_copy_spec|].
  simpl. intros _ s' Hupd.
  wp_step. eapply get_membuf_wp. { rewrite (upd_heap _ _ _ _ _ Hupd). apply lookup_insert_eq. }
  simpl. wp_step. wp_step.
  wp_asserts ltac:(first [ cmp | destruct new; [by rewrite Hnew|done]
    | rewrite ?(upd_name _ _ _ _ _ Hupd), ?(upd_fd _ _ _ _ _ Hupd), Hname, Hfd; done
    | unfold mb_is_file_backed; simpl; by rewrite wf_fd0 ]).
  by wp_step.
Qed.

Lemma bytes_chunk_view_spec pin s id mb off len boff whole new :
  invp pin s → membufs s !! id = Some mb →
  mb_offset mb ≤ off → 0 < len → off + len ≤ mb_offset mb + mb_length mb →
  boff = off - mb_initial_offset mb → (new = true → whole = true) →
  wp (bytes_chunk_view off len boff id whole new) s (λ bc s',
    bc = Chunk id off len boff 0 0 whole new ∧ invp pin s' ∧
    mb_updated id mb (mb_set_use_count (mb_use_count mb + 1) mb) s s').
Proof.
  intros Hinv Hid ? ? ? ? ?. pose proof (inv_refs _ _ Hinv _ _ Hid) as Href.
  destruct (inv_heap _ _ Hinv _ _ Hid) as [Hwf _].
  eapply wp_mono.
  { eapply (bytes_chunk_view_raw s id mb); try done; [lia|apply (inv_mem _ _ Hinv)..]. }
  simpl. intros bc s' [-> Hupd]. split_and!; [done| |done].
  eapply inv_update; [done|exact Hupd|by apply mb_step_use_count|].
  change (held_out pin id (mb_set_use_count _ mb)) with (held_out pin id mb). simpl. lia.
Qed.

(** ** Destroying a membuf *)
Record mb_removed (id : nat) (mb : membuf) (s s' : cache) : Prop := {
  rem_heap : membufs s' = delete id (membufs s);
  rem_st : ∀ k, st s' k = st s k - weight k mb;
  rem_st_g : ∀ k, st_g s' k = st_g s k - weight k mb;
  rem_chunkmap : chunkmap s' = chunkmap s;
  rem_next : next_id s' = next_id s;
  rem_fd : backing_file_fd s' = backing_file_fd s;
  rem_name : backing_file_name s' = backing_file_name s;
  rem_size : cache_size s' = cache_size s;
}.

(** The destructor of a membuf nobody holds, with nothing left to commit and no
    unflushed data other than truncated data, returns its whole contribution
    to the metrics. *)
Lemma membuf_dtor_spec s id mb :
  membufs s !! id = Some mb → mb_wf mb → held mb = false →
  mb_has CommitPending mb = false → (mb_has Dirty mb = true → mb_has Truncated mb = true) →
  (∀ k, weight k mb ≤ st s k ≤ st_g s k) →
  wp (membuf_dtor id) s (λ _ s', mb_removed id mb s s').
Proof.
  intros Hid Hwf Hheld Hcp Hd Hst.
  apply orb_false_iff in Hheld as [Hlk Hiu].
  assert (mb_has Flushing mb = false) as Hfl.
  { destruct (mb_has Flushing mb) eqn:E; [|done]. apply (wf_flushing _ Hwf) in E as (_ & ? & _). congruence. }
  assert (mb_inuse mb = 0) as Hiu0.
  { unfold mb_is_inuse in Hiu. apply Z.ltb_ge in Hiu. pose proof (wf_inuse _ Hwf). lia. }
  pose proof (wf_length _ Hwf). pose proof (wf_offset _ Hwf). pose proof (wf_fits _ Hwf).
  pose proof (wf_alloc _ Hwf).
  unfold membuf_dtor. wp_step. eapply get_membuf_wp; [exact Hid|].
  wp_asserts ltac:(first [cmp | unfold is_inuse; by rewrite Hiu]).
  wp_step. apply is_dirty_wp; [done|].
  unfold is_truncated, is_locked, is_uptodate, mb_is_file_backed. rewrite Hlk, (wf_fd _ Hwf).
  wp_asserts ltac:(first [done | cmp | destruct (mb_has Dirty mb); [by rewrite Hd|done]]).
  assert (mb_has Truncated mb && mb_has Dirty mb = mb_has Dirty mb) as ->.
  { destruct (mb_has Dirty mb); [by rewrite Hd|apply andb_false_r]. }
  pose proof (Hst bytes_dirty) as Hs1. pose proof (Hst bytes_uptodate) as Hs2.
  pose proof (Hst bytes_allocated) as Hs3. simpl in Hs1, Hs2, Hs3.
  destruct (mb_has Dirty mb) eqn:Ed, (mb_has Uptodate mb) eqn:Eu.
  all: repeat first [ wp_step
    | apply is_flushing_wp; [done|] | (rewrite Hfl; done)
    | apply stat_sub_wp; [simpl; bumps; lia..|] ].
  all: split; simpl; try done; intros []; bumps; simpl; rewrite ?Ed, ?Eu, ?Hfl, ?Hcp, ?Hlk, ?Hiu0; simpl; lia.
Qed.

Lemma inv_delete pin s s' id mb :
  invp pin s → membufs s !! id = Some mb → mb_removed id mb s s' →
  in_map id (chunkmap s) = false → invp pin s'.
Proof.
  intros Hinv Hid [Hheap Hst Hstg Hcm Hnext Hfd Hname _] Hmap.
  split; rewrite ?Hcm, ?Hnext, ?Hheap, ?Hfd, ?Hname; try apply Hinv.
  - intros k bc Hin. destruct (inv_link _ _ Hinv _ _ Hin) as (mb0 & Hmb0 & Hlk).
    exists mb0. rewrite lookup_delete_ne; [done|]. intros ->.
    apply bool_decide_eq_false in Hmap. apply Hmap, list_elem_of_fmap. exists bc.
    split; [done|]. apply list_elem_of_fmap. by exists (k, bc).
  - intros i x [_ Hx]%lookup_delete_Some. by apply (inv_heap _ _ Hinv).
  - intros i x [_ Hx]%lookup_delete_Some. by apply (inv_refs _ _ Hinv).
  - intros k Hk. rewrite Hst, (inv_st _ _ Hinv k Hk), (msum_delete _ _ _ mb) by done. lia.
  - rewrite Hst. simpl. pose proof (inv_num _ _ Hinv). lia.
  - rewrite Hst. simpl. pose proof (inv_cached _ _ Hinv). lia.
  - intros k. rewrite Hst. pose proof (inv_weight_le _ _ Hinv id mb k Hid). lia.
  - intros k. rewrite Hst, Hstg. pose proof (inv_g _ _ Hinv k). lia.
Qed.

(** Dropping one reference changes only the membuf it refers to. *)
Record ref_dropped (id : nat) (mb : membuf) (s s' : cache) : Prop := {
  drop_other : ∀ i, i ≠ id → membufs s' !! i = membufs s !! i;
  drop_this : membufs s' !! id =
    if mb_use_count mb =? 1 then None else Some (mb_set_use_count (mb_use_count mb - 1) mb);
  drop_chunkmap : chunkmap s' = chunkmap s;
  drop_next : next_id s' = next_id s;
  drop_size : cache_size s' = cache_size s;
}.

Lemma shared_ptr_reset_spec pin s id mb :
  invp pin s → membufs s !! id = Some mb →
  id ∉ pin → Z.b2z (in_map id (chunkmap s)) + Z.b2z (held_out pin id mb) + 1 ≤ mb_use_count mb →
  (mb_use_count mb = 1 → mb_has CommitPending mb = false ∧
     (mb_has Dirty mb = true → mb_has Truncated mb = true)) →
  wp (shared_ptr_reset id) s (λ _ s', invp pin s' ∧ ref_dropped id mb s s').
Proof.
  intros Hinv Hid Hpin Huc Hlast. destruct (inv_heap _ _ Hinv _ _ Hid) as [Hwf _].
  unfold shared_ptr_reset. wp_step. eapply get_membuf_wp; [exact Hid|].
  destruct (Z.eqb_spec (mb_use_count mb) 1) as [H1|H1].
  - destruct (Hlast H1) as [Hcp Hd].
    assert (in_map id (chunkmap s) = false ∧ held mb = false) as [Hm Hh].
    { unfold held_out in Huc. rewrite decide_False in Huc by done.
      destruct (in_map id (chunkmap s)), (held mb); simpl in *; split; (done || lia). }
    eapply wp_mono.
    { apply membuf_dtor_spec; try done. intros k.
      split; [by eapply inv_weight_le|apply (inv_g _ _ Hinv)]. }
    simpl. intros _ s' Hrem. split; [by eapply inv_delete|].
    destruct Hrem. split; try done.
    + intros i Hi. by rewrite rem_heap0, lookup_delete_ne.
    + rewrite rem_heap0, lookup_delete_eq. by rewrite H1.
  - unfold put_membuf. wp_step.
    assert (mb_updated id mb (mb_set_use_count (mb_use_count mb - 1) mb) s
      (c_set_membufs (<[id:=mb_set_use_count (mb_use_count mb - 1) mb]> (membufs s)) s)) as Hupd.
    { upd_solve. }
    split.
    + eapply inv_update; [done|exact Hupd|by apply mb_step_use_count|].
      pose proof (inv_refs _ _ Hinv _ _ Hid). change (held_out pin id (mb_set_use_count _ mb)) with (held_out pin id mb).
      destruct (in_map id (chunkmap s)), (held_out pin id mb); simpl in *; lia.
    + split; try done; simpl.
      * intros i Hi. by rewrite lookup_insert_ne.
      * rewrite lookup_insert_eq. by rewrite (proj2 (Z.eqb_neq _ _) H1).
Qed.

(** ** A new chunk with its own membuf *)
Definition fresh_mb (off len : Z) : membuf := Membuf off len off len len (-1) 0 0 1.

Lemma fresh_mb_wf off len :
  0 ≤ off → 0 < len → len ≤ AZNFSC_MAX_CHUNK_SIZE → off + len ≤ AZNFSC_MAX_FILE_SIZE →
  mb_wf (fresh_mb off len).
Proof. intros. by split; simpl; try lia; unfold mb_has; simpl; rewrite ?has_flag_0. Qed.

Lemma inv_fresh_id pin s : invp pin s → membufs s !! next_id s = None.
Proof.
  intros Hinv. destruct (membufs s !! next_id s) eqn:E; [|done].
  apply (inv_heap _ _ Hinv) in E as [_ ?]. lia.
Qed.

Lemma in_map_fresh pin s : invp pin s → in_map (next_id s) (chunkmap s) = false.
Proof.
  intros Hinv. apply bool_decide_eq_false. intros (bc & Heq & ([k bc'] & -> & Hin)%list_elem_of_fmap)%list_elem_of_fmap.
  destruct (inv_link _ _ Hinv _ _ Hin) as (mb & Hmb & _). simpl in *.
  rewrite <- Heq, (inv_fresh_id pin s Hinv) in Hmb. done.
Qed.

(** State after the allocation of a membuf. *)
Record mb_allocated (id : nat) (mb : membuf) (s s' : cache) : Prop := {
  al_heap : membufs s' = <[id := mb]> (membufs s);
  al_chunkmap : chunkmap s' = chunkmap s;
  al_next : next_id s' = S (next_id s);
}.

Lemma membuf_new_spec pin s off len :
  invp pin s → 0 ≤ off → 0 < len → len ≤ AZNFSC_MAX_CHUNK_SIZE → off + len ≤ AZNFSC_MAX_FILE_SIZE →
  wp (membuf_new off len) s (λ id s',
    id = next_id s ∧ invp pin s' ∧ mb_allocated id (fresh_mb off len) s s').
Proof.
  intros Hinv Hoff Hlen Hc Hf. destruct (inv_mem _ _ Hinv) as [Hname Hfd].
  pose proof (inv_fresh_id _ _ Hinv) as Hfresh. pose proof (in_map_fresh _ _ Hinv) as Hmap.
  unfold membuf_new. wp_step. wp_step. unfold mb_is_file_backed. simpl. rewrite Hfd. simpl.
  wp_asserts cmp. unfold put_membuf, stat_add. repeat wp_step.
  split; [done|]. split; [|by split; simpl; rewrite ?Hfd].
  pose proof (fresh_mb_wf _ _ Hoff Hlen Hc Hf) as Hwf.
  split; simpl; try apply Hinv.
  - intros k bc Hin. destruct (inv_link _ _ Hinv _ _ Hin) as (mb & Hmb & ?). exists mb.
    rewrite lookup_insert_ne by congruence. done.
  - intros i x. destruct (decide (i = next_id s)) as [->|?].
    + rewrite lookup_insert_eq. intros [= <-]. split; [done|lia].
    + rewrite lookup_insert_ne by done. intros ?%(inv_heap _ _ Hinv). intuition lia.
  - intros i x. destruct (decide (i = next_id s)) as [->|?].
    + rewrite lookup_insert_eq. intros [= <-]. rewrite Hmap. unfold held_out. by case_decide.
    + rewrite lookup_insert_ne by done. apply (inv_refs _ _ Hinv).
  - intros k Hk. rewrite msum_insert_fresh by done. pose proof (inv_st _ _ Hinv k Hk).
    destruct k; try done; bumps; simpl; unfold mb_has; simpl; rewrite ?has_flag_0; lia.
  - intros k. pose proof (inv_pos _ _ Hinv k). unfold stat_bump. case_decide; lia.
  - intros k. pose proof (inv_g _ _ Hinv k). unfold stat_bump. case_decide; lia.
Qed.

Lemma bytes_chunk_new_spec pin s off len :
  invp pin s → 0 ≤ off → 0 < len → len ≤ AZNFSC_MAX_CHUNK_SIZE → off + len ≤ AZNFSC_MAX_FILE_SIZE →
  wp (bytes_chunk_new off len) s (λ bc s',
    bc = Chunk (next_id s) off len 0 0 0 true true ∧ invp pin s' ∧
    mb_allocated (next_id s) (fresh_mb off len) s s').
Proof.
  intros Hinv Hoff Hlen Hc Hf. unfold bytes_chunk_new. wp_step.
  eapply wp_mono; [by apply membuf_new_spec|]. simpl. intros id s1 (-> & Hinv1 & Hal).
  destruct Hal as [Hh Hcm Hnx].
  wp_step. eapply wp_mono.
  { eapply (bytes_chunk_view_spec _ _ _ (fresh_mb off len)); simpl; try done; try lia.
    rewrite Hh. apply lookup_insert_eq. }
  simpl. intros bc s2 (-> & Hinv2 & Hupd).
  assert (membufs s2 !! next_id s = Some (mb_set_use_count 2 (fresh_mb off len))) as Hid2.
  { rewrite (upd_heap _ _ _ _ _ Hupd). apply lookup_insert_eq. }
  wp_step. eapply wp_mono.
  { eapply shared_ptr_reset_spec; [done|exact Hid2| | |done].
    { intros Hp%(inv_pin _ _ Hinv). by rewrite (in_map_fresh _ _ Hinv) in Hp. }
    unfold held_out; case_decide; rewrite (upd_chunkmap _ _ _ _ _ Hupd), Hcm, (in_map_fresh _ _ Hinv); done. }
  simpl. intros _ s3 (Hinv3 & Hdrop). wp_step. split; [done|]. split; [done|].
  destruct Hdrop as [Hother Hthis Hcm3 Hnx3 _]. destruct Hupd as [_ Hh2 _ _ Hcm2 Hnx2 _ _ _ _].
  split; simpl.
  - apply map_eq. intros i. destruct (decide (i = next_id s)) as [->|?].
    + by rewrite lookup_insert_eq, Hthis.
    + by rewrite lookup_insert_ne, Hother, Hh2, lookup_insert_ne, Hh, lookup_insert_ne by done.
  - congruence.
  - congruence.
Qed.

(** ** Updates the invariant does not look at *)
Definition call_counter (k : counter) : bool :=
  match k with
  | num_get | bytes_get | num_release | bytes_release | num_truncate | bytes_truncate => true
  | _ => false
  end.

Lemma inv_count pin s k d : invp pin s → call_counter k = true → 0 ≤ d → invp pin (c_bump k d s).
Proof.
  intros Hinv Hk Hd. split; simpl; try apply Hinv.
  - intros k' Hk'. rewrite <- (inv_st _ _ Hinv k' Hk'). apply stat_bump_ne. by intros ->; destruct k'.
  - rewrite stat_bump_ne by (by intros ->). apply (inv_num _ _ Hinv).
  - rewrite stat_bump_ne by (by intros ->). apply (inv_cached _ _ Hinv).
  - intros k'. pose proof (inv_pos _ _ Hinv k'). unfold stat_bump. case_decide; lia.
  - intros k'. pose proof (inv_g _ _ Hinv k'). unfold stat_bump. case_decide; lia.
Qed.

Lemma inv_set_invalidate pin s b : invp pin s → invp pin (c_set_invalidate b s).
Proof. intros Hinv. split; apply Hinv. Qed.

(** A fresh memory-backed cache. *)
Lemma inv_new g : (∀ k, 0 ≤ g k) → inv (bytes_chunk_cache_new g false).
Proof.
  intros Hg. split; simpl; try done.
  - apply NoDup_nil_2.
  - by intros ? ? ?%elem_of_nil.
  - by intros ? ? ?%elem_of_nil.
Qed.
