(* ===== verification/CacheFrame.v ===== *)
(** * References and use counts across the cache operations

    The invariant of the cache bounds the reference count of a membuf from below by the
    holders it can see.  A client that keeps chunks over several operations needs more:
    that its own references keep their membufs alive, whatever is released or purged in
    between, and that use counts are exact.  [ledger g h s] states this for the list [g]
    of references and the list [h] of use counts held outside the cache; every cache
    operation keeps a ledger, a lookup adding what it returns.  [evolves] states what the
    operations leave alone in a membuf. *)
From S2P Require Import Prelude CacheState Membuf MembufSpec ChunkMap FileCache CacheInv.

Record ledger (g h : list nat) (s : cache) : Prop := {
  ld_live : ∀ i, i ∈ g → is_Some (membufs s !! i);
  ld_ref : ∀ i mb, membufs s !! i = Some mb → mb_use_count mb = occ i (ids (chunkmap s)) + occ i g;
  ld_use : ∀ i mb, membufs s !! i = Some mb → mb_inuse mb = occ i h;
  ld_heap : ∀ i mb, membufs s !! i = Some mb → (i < next_id s)%nat;
  ld_map : ∀ i, i ∈ ids (chunkmap s) → (i < next_id s)%nat;
  ld_held : ∀ i, i ∈ h → (i < next_id s)%nat;
}.

(** [mb'] is [mb] later on: perhaps trimmed, if nobody used it; its flags are the same. *)
Record mb_later (mb mb' : membuf) : Prop := {
  lt_flag : mb_flag mb' = mb_flag mb;
  lt_initial : mb_initial_offset mb' = mb_initial_offset mb;
  lt_lo : mb_offset mb ≤ mb_offset mb';
  lt_hi : mb_offset mb' + mb_length mb' ≤ mb_offset mb + mb_length mb;
  lt_inuse : mb_inuse mb ≤ mb_inuse mb';
  lt_held : 0 < mb_inuse mb → mb_offset mb' = mb_offset mb ∧ mb_length mb' = mb_length mb;
}.

(** Every membuf of [s'] is one of [s], or it is new and has no flags. *)
Record evolves (s s' : cache) : Prop := {
  ev_next : (next_id s ≤ next_id s')%nat;
  ev_size : cache_size s' = cache_size s;
  ev_mb : ∀ i mb', membufs s' !! i = Some mb' →
    (∃ mb, membufs s !! i = Some mb ∧ mb_later mb mb') ∨ ((next_id s ≤ i)%nat ∧ mb_flag mb' = 0);
}.

Lemma mb_later_refl mb : mb_later mb mb.
Proof. split; (done || lia). Qed.

Lemma mb_later_trans mb1 mb2 mb3 : mb_later mb1 mb2 → mb_later mb2 mb3 → mb_later mb1 mb3.
Proof.
  intros [F1 I1 L1 H1 U1 E1] [F2 I2 L2 H2 U2 E2]. split; try congruence; try lia.
Qed.

Lemma evolves_refl s : evolves s s.
Proof. split; [done|done|]. intros i mb H. left. eauto using mb_later_refl. Qed.

Lemma evolves_trans s1 s2 s3 : evolves s1 s2 → evolves s2 s3 → evolves s1 s3.
Proof.
  intros [N1 Z1 E1] [N2 Z2 E2]. split; [lia|congruence|]. intros i mb3 H3.
  destruct (E2 _ _ H3) as [(mb2 & H2 & L2)|[? ?]]; [|right; split; [lia|done]].
  destruct (E1 _ _ H2) as [(mb1 & H1 & L1)|[? F]].
  - left. eauto using mb_later_trans.
  - right. split; [done|]. by rewrite (lt_flag _ _ L2).
Qed.

(** The ledger of a computation that started in [s0]. *)
Definition at_ (s0 : cache) (g h : list nat) (s : cache) : Prop := ledger g h s ∧ evolves s0 s.

Lemma at_init g h s : ledger g h s → at_ s g h s.
Proof. intros. split; [done|apply evolves_refl]. Qed.

(** Membufs, chunkmap and allocation are all a ledger looks at. *)
Lemma at_same s0 g h s s' :
  membufs s' = membufs s → chunkmap s' = chunkmap s → next_id s' = next_id s → cache_size s' = cache_size s →
  at_ s0 g h s → at_ s0 g h s'.
Proof.
  intros Hm Hc Hn Hz [[V R U H M L] [N Z E]]. split.
  - split; rewrite ?Hm, ?Hc, ?Hn; done.
  - split; rewrite ?Hm, ?Hn, ?Hz; done.
Qed.

Lemma at_perm s0 g g' h h' s : g ≡ₚ g' → h ≡ₚ h' → at_ s0 g h s → at_ s0 g' h' s.
Proof.
  intros Hg Hh [[V R U H M L] E]. split; [|done]. split; try done.
  - intros i. rewrite <- Hg. apply V.
  - intros i mb. rewrite <- Hg. apply R.
  - intros i mb. rewrite <- Hh. apply U.
  - intros i. rewrite <- Hh. apply L.
Qed.

Lemma ledger_perm g g' h h' s : g ≡ₚ g' → h ≡ₚ h' → ledger g h s → ledger g' h' s.
Proof. intros Hg Hh Hl%at_init. by apply (at_perm _ _ _ _ _ _ Hg Hh) in Hl as [? _]. Qed.

(** Changing the chunkmap and the references together. *)
Lemma at_chunkmap s0 g h g' s m :
  (∀ i, occ i (ids m) + occ i g' = occ i (ids (chunkmap s)) + occ i g) → (∀ i, i ∈ g' → is_Some (membufs s !! i)) →
  (∀ i, i ∈ ids m → (i < next_id s)%nat) →
  at_ s0 g h s → at_ s0 g' h (c_set_chunkmap m s).
Proof.
  intros Hocc Hsub Hm [[V R U H M L] E]. split; [|by destruct E; split]. split; simpl; try done.
  intros i mb Hi. rewrite Hocc. by apply R.
Qed.

(** Changing a membuf. *)
Lemma at_membuf s0 g h g' h' s id mb mb' :
  membufs s !! id = Some mb → mb_later mb mb' →
  (∀ i, i ≠ id → occ i g' = occ i g ∧ occ i h' = occ i h) → mb_inuse mb' = occ id h' →
  (occ id g' = occ id g + (mb_use_count mb' - mb_use_count mb)) →
  at_ s0 g h s → at_ s0 g' h' (c_set_membufs (<[id := mb']> (membufs s)) s).
Proof.
  intros Hid Hl Hocc Huse Hg [[V R U H M L] E]. split.
  - split; simpl; try done.
    + intros i Hi. destruct (decide (i = id)) as [->|Hne]; [rewrite lookup_insert_eq; eauto|].
      rewrite lookup_insert_ne by done. apply V, occ_pos. destruct (Hocc i Hne) as [<- _]. by apply occ_pos.
    + intros i x. destruct (decide (i = id)) as [->|Hne].
      * rewrite lookup_insert_eq. intros [= <-]. specialize (R _ _ Hid). lia.
      * rewrite lookup_insert_ne by done. destruct (Hocc i Hne) as [-> _]. apply R.
    + intros i x. destruct (decide (i = id)) as [->|Hne].
      * rewrite lookup_insert_eq. by intros [= <-].
      * rewrite lookup_insert_ne by done. destruct (Hocc i Hne) as [_ ->]. apply U.
    + intros i x. destruct (decide (i = id)) as [->|Hne]; [intros _; by eapply H|]. rewrite lookup_insert_ne by done. apply H.
    + intros i Hi. destruct (decide (i = id)) as [->|Hne]; [by eapply H|]. apply L, occ_pos.
      destruct (Hocc i Hne) as [_ <-]. by apply occ_pos.
  - eapply evolves_trans; [done|]. split; simpl; [done|done|]. intros i x. destruct (decide (i = id)) as [->|Hne].
    + rewrite lookup_insert_eq. intros [= <-]. left. eauto.
    + rewrite lookup_insert_ne by done. intros. left. eauto using mb_later_refl.
Qed.

Lemma get_membuf_wlp id s (Q : membuf → cache → Prop) :
  (∀ mb, membufs s !! id = Some mb → Q mb s) → wlp (get_membuf id) s Q.
Proof. intros HQ. unfold get_membuf. by repeat wlp_step; apply HQ. Qed.

Lemma chunk_at_wlp k s (Q : bytes_chunk → cache → Prop) :
  (∀ bc, cm_lookup k (chunkmap s) = Some bc → Q bc s) → wlp (chunk_at k) s Q.
Proof. intros HQ. unfold chunk_at. by repeat wlp_step; apply HQ. Qed.

Ltac at_same_as H := eapply at_same; [..|exact H]; done.

(** ** Primitive operations *)
Section prims.
Context (s0 : cache).

Lemma at_stat_add g h s k d : at_ s0 g h s → wlp (stat_add k d) s (λ _ s', at_ s0 g h s').
Proof. intros Ha. unfold stat_add. wlp_step. at_same_as Ha. Qed.

Lemma at_stat_sub g h s k d : at_ s0 g h s → wlp (stat_sub k d) s (λ _ s', at_ s0 g h s').
Proof. intros Ha. unfold stat_sub. repeat wlp_step. at_same_as Ha. Qed.

Lemma at_copy g h s id : at_ s0 g h s → wlp (shared_ptr_copy id) s (λ _ s', at_ s0 (id :: g) h s').
Proof.
  intros Ha. unfold shared_ptr_copy, get_membuf, put_membuf. repeat wlp_step.
  eapply at_membuf; [done|by split; simpl|..]; simpl; try done.
  - intros i Hi. by rewrite decide_False by done.
  - by apply (proj1 Ha).
  - rewrite decide_True by done. lia.
Qed.

Lemma at_view g h s off len boff id w n :
  at_ s0 g h s → wlp (bytes_chunk_view off len boff id w n) s (λ bc s', bc = Chunk id off len boff 0 0 w n ∧ at_ s0 (id :: g) h s').
Proof.
  intros Ha. unfold bytes_chunk_view. wlp_step. eapply wlp_mono; [by apply at_copy|]. cbv beta. intros _ s1 H1.
  unfold load, get_membuf. repeat wlp_step. by split.
Qed.

(** Dropping a reference may destroy the membuf: nobody else refers to it then. *)
Lemma at_reset g h s id : at_ s0 (id :: g) h s → wlp (shared_ptr_reset id) s (λ _ s', at_ s0 g h s').
Proof.
  intros Ha. unfold shared_ptr_reset. wlp_step. apply get_membuf_wlp. intros mb H. wlp_step.
  - apply Z.eqb_eq in Heqb. assert (at_ s0 g h (c_set_membufs (delete id (membufs s)) s)) as Hd.
    { destruct Ha as [[V R U H' M L] E]. pose proof (R _ _ H) as Hr. rewrite occ_cons_eq in Hr.
      pose proof (occ_nonneg id (ids (chunkmap s))). pose proof (occ_nonneg id g).
      split; [split; simpl; try done|].
      - intros i Hi. rewrite lookup_delete_ne; [apply V; by right|]. intros ->. apply occ_pos in Hi. lia.
      - intros i x [Hne Hx]%lookup_delete_Some. specialize (R _ _ Hx). by rewrite occ_cons_ne in R.
      - intros i x [_ Hx]%lookup_delete_Some. by apply U.
      - intros i x [_ Hx]%lookup_delete_Some. by eapply H'.
      - eapply evolves_trans; [done|]. split; simpl; [done|done|]. intros i x [_ Hx]%lookup_delete_Some.
        left. eauto using mb_later_refl. }
    clear Ha. unfold membuf_dtor, get_membuf, is_dirty, is_flushing, stat_sub.
    repeat wlp_step; at_same_as Hd.
  - unfold put_membuf. wlp_step. eapply at_membuf; [done|by split; simpl|..|exact Ha]; simpl.
    + intros i Hi. by rewrite decide_False by done.
    + by apply (proj1 Ha).
    + rewrite decide_True by done. lia.
Qed.

(** A trim asserts that the membuf is not in use. *)
Lemma at_trim g h s id n left : at_ s0 g h s → wlp (trim id n left) s (λ _ s', at_ s0 g h s').
Proof.
  intros Ha. unfold trim, put_membuf. wlp_step. apply get_membuf_wlp. intros mb H. do 4 wlp_step. cbv zeta. do 2 wlp_step.
  set (mb' := mb_set_range _ _ _). set (s1 := c_set_membufs _ _). do 2 wlp_step.
  assert (at_ s0 g h s1) as Ht.
  { apply negb_true_iff, Z.ltb_ge in H2. simpl in H2. bools.
    eapply at_membuf; [done| |done|exact (ld_use _ _ _ (proj1 Ha) _ _ H)|simpl; lia|done].
    pose proof (ld_use _ _ _ (proj1 Ha) _ _ H). pose proof (occ_nonneg id h).
    split; simpl; try done; destruct left; try lia. }
  unfold is_flushing, is_commit_pending, is_dirty, stat_sub.
  repeat wlp_step; at_same_as Ht.
Qed.

Lemma at_set_inuse g h s id : at_ s0 g h s → wlp (set_inuse id) s (λ _ s', at_ s0 g (id :: h) s').
Proof.
  intros Ha. unfold set_inuse, stat_add, put_membuf. wlp_step. apply get_membuf_wlp. intros mb H. do 3 wlp_step.
  apply (at_membuf s0 g h g (id :: h) _ id mb); simpl; [done|split; simpl; (done || lia)|..].
  - intros i Hi. by rewrite decide_False.
  - rewrite decide_True by done. pose proof (ld_use _ _ _ (proj1 Ha) _ _ H). lia.
  - lia.
  - at_same_as Ha.
Qed.

Lemma at_membuf_new g h s off len : at_ s0 g h s → wlp (membuf_new off len) s (λ id s', at_ s0 (id :: g) h s').
Proof.
  intros Ha. unfold membuf_new. do 2 wlp_step. cbv zeta. wlp_step.
  - unfold load. do 2 wlp_step. by rewrite Heqb in H.
  - unfold put_membuf, stat_add. repeat wlp_step. eapply at_same; [done|done|done|done|].
    destruct Ha as [[V R U H' M L] [N Z E]]. set (id := next_id s) in *.
    assert (∀ x, x ∈ g → x ≠ id) as Hg. { intros x Hx ->. destruct (V _ Hx) as [mb ?%H']. lia. }
    assert (occ id g = 0) as Hg0 by (apply occ_notin; intros Hx; by apply (Hg _ Hx)).
    assert (occ id h = 0) as Hh0 by (apply occ_notin; intros Hx%L; lia).
    assert (occ id (ids (chunkmap s)) = 0) as Hm0 by (apply occ_notin; intros Hx%M; lia).
    split; [split; simpl|split; simpl].
    + intros i [->|Hi]%elem_of_cons; [rewrite lookup_insert_eq; eauto|]. rewrite lookup_insert_ne; [by apply V|].
      intros <-. by apply (Hg _ Hi).
    + intros i x. destruct (decide (i = id)) as [->|Hne].
      * rewrite lookup_insert_eq. intros [= <-]. simpl. rewrite decide_True by done. lia.
      * rewrite lookup_insert_ne by done. intros Hx. rewrite decide_False by done. apply R in Hx. lia.
    + intros i x. destruct (decide (i = id)) as [->|Hne].
      * rewrite lookup_insert_eq. intros [= <-]. done.
      * rewrite lookup_insert_ne by done. apply U.
    + intros i x. destruct (decide (i = id)) as [->|Hne]; [lia|]. rewrite lookup_insert_ne by done. intros ?%H'. lia.
    + intros i ?%M. lia.
    + intros i ?%L. lia.
    + lia.
    + done.
    + intros i x. destruct (decide (i = id)) as [->|Hne].
      * rewrite lookup_insert_eq. intros [= <-]. by right.
      * rewrite lookup_insert_ne by done. apply E.
Qed.

Lemma at_chunk_new g h s off len :
  at_ s0 g h s → wlp (bytes_chunk_new off len) s (λ bc s', at_ s0 (bc_alloc_buffer bc :: g) h s' ∧
    bc_pvt bc = 0 ∧ bc_num_backend_calls_issued bc = 0).
Proof.
  intros Ha. unfold bytes_chunk_new. wlp_step. eapply wlp_mono; [by apply at_membuf_new|]. cbv beta. intros id s1 H1.
  wlp_step. eapply wlp_mono; [by apply at_view|]. cbv beta. intros bc s2 [-> H2].
  wlp_step. eapply wlp_mono; [by apply at_reset|]. cbv beta. intros _ s3 H3. wlp_step. by split.
Qed.

(** ** The chunkmap *)
Lemma occ_ids_cons i k c m : occ i (ids ((k, c) :: m)) = occ i [bc_alloc_buffer c] + occ i (ids m).
Proof. change (ids ((k, c) :: m)) with ([bc_alloc_buffer c] ++ ids m). apply occ_app. Qed.

Lemma occ_erase i k m bc :
  cm_lookup k m = Some bc → occ i (ids m) = occ i [bc_alloc_buffer bc] + occ i (ids (cm_erase k m)).
Proof.
  induction m as [|[k' c] m IH]; [done|]. rewrite occ_ids_cons. cbn [cm_lookup cm_erase]. destruct (k =? k'); [intros [= ->]; lia|].
  intros Hl. rewrite (IH Hl), occ_ids_cons. lia.
Qed.

Lemma occ_emplace i k v m m' :
  cm_try_emplace k v m = (m', true) → occ i (ids m') = occ i [bc_alloc_buffer v] + occ i (ids m).
Proof.
  revert m'. induction m as [|[k' c] m IH]; intros m'; cbn [cm_try_emplace]; [intros [= <-]; by rewrite occ_ids_cons|].
  destruct (k <? k'); [intros [= <-]; by rewrite !occ_ids_cons|]. destruct (k =? k'); [done|].
  destruct (cm_try_emplace k v m) as [r b]. intros [= <- ->]. rewrite !occ_ids_cons, (IH r eq_refl). lia.
Qed.

Lemma occ_update i k v m bc :
  cm_lookup k m = Some bc → bc_alloc_buffer v = bc_alloc_buffer bc → occ i (ids (cm_update k v m)) = occ i (ids m).
Proof.
  intros Hl Hv. induction m as [|[k' c] m IH]; cbn [cm_lookup cm_update] in *; [done|]. destruct (k =? k').
  - simplify_eq. rewrite !occ_ids_cons. by rewrite Hv.
  - rewrite !occ_ids_cons, (IH Hl). done.
Qed.

Lemma at_update g h s k v bc :
  cm_lookup k (chunkmap s) = Some bc → bc_alloc_buffer v = bc_alloc_buffer bc → at_ s0 g h s →
  wlp (put_chunkmap (cm_update k v (chunkmap s))) s (λ _ s', at_ s0 g h s').
Proof.
  intros Hl Hv Ha. unfold put_chunkmap. wlp_step. eapply at_chunkmap; [|apply (proj1 Ha)| |exact Ha].
  - intros i. by erewrite occ_update.
  - intros i Hi%occ_pos. erewrite occ_update in Hi by done. apply (ld_map _ _ _ (proj1 Ha)). by apply occ_pos.
Qed.

Lemma at_erase g h s k : at_ s0 g h s → wlp (chunkmap_erase k) s (λ _ s', at_ s0 g h s').
Proof.
  intros Ha. unfold chunkmap_erase, put_chunkmap. wlp_step. apply chunk_at_wlp. intros bc Hl. do 4 wlp_step.
  unfold bytes_chunk_dtor. intros a s' Hrun.
  destruct (membufs s !! bc_alloc_buffer bc) as [mb|] eqn:Hmb.
  2: { exfalso. revert Hrun. unfold shared_ptr_reset, get_membuf, bind, mget, mderef. simpl. by rewrite Hmb. }
  revert Hrun. eapply at_reset, at_chunkmap; [| | |exact Ha].
  - intros i. rewrite (occ_erase i _ _ _ Hl). simpl. lia.
  - intros i [->|Hi]%elem_of_cons; [eauto|]. by apply (proj1 Ha).
  - intros i Hi. apply (ld_map _ _ _ (proj1 Ha)), occ_pos. apply occ_pos in Hi. rewrite (occ_erase i _ _ _ Hl).
    simpl. case_decide; lia.
Qed.

Lemma at_emplace g h s off len boff id : at_ s0 g h s → wlp (chunkmap_emplace off len boff id) s (λ _ s', at_ s0 g h s').
Proof.
  intros Ha. unfold chunkmap_emplace, put_chunkmap. wlp_step. eapply wlp_mono; [by apply at_view|].
  cbv beta. intros bc s1 [-> H1]. do 2 wlp_step. destruct (cm_try_emplace _ _ _) as [m' b] eqn:He. do 3 wlp_step. subst b.
  pose proof (λ i, occ_emplace i _ _ _ _ He) as Hocc. simpl in Hocc. eapply at_chunkmap; [| | |exact H1].
  - intros i. rewrite Hocc. simpl. lia.
  - intros i Hi. apply (proj1 H1). by right.
  - intros i Hi%occ_pos. rewrite Hocc in Hi. destruct (decide (id = i)) as [->|Hne].
    + destruct (ld_live _ _ _ (proj1 H1) i ltac:(by left)) as [mb Hmb]. by eapply (ld_heap _ _ _ (proj1 H1)).
    + apply (ld_map _ _ _ (proj1 H1)), occ_pos. lia.
Qed.
End prims.

(** ** Composite operations *)
Create HintDb fr.
#[export] Hint Resolve at_stat_add at_stat_sub at_trim at_erase at_emplace : fr.

(** One instruction of a computation that keeps the ledger. *)
Ltac fr_step :=
  first [ wlp_step
        | apply get_membuf_wlp; intros ? ?
        | apply chunk_at_wlp; intros ? ?
        | eapply wlp_mono; [solve [eauto 2 with fr]|cbv beta; intros] ].
Ltac fr_pure := unfold safe_to_release, needs_flush, is_dirty, is_flushing, is_commit_pending, load.
Ltac fr_auto := fr_pure; repeat fr_step; try done.

Section ops.
Context (s0 : cache) (g h : list nat).

Lemma at_remove_chunk s k bc : at_ s0 g h s → wlp (remove_chunk k bc) s (λ _ s', at_ s0 g h s').
Proof. intros. unfold remove_chunk, account_chunk_removed. fr_auto. Qed.

Lemma at_add_chunk s off len boff id : at_ s0 g h s → wlp (add_chunk off len boff id) s (λ _ s', at_ s0 g h s').
Proof. intros. unfold add_chunk. fr_auto. Qed.

Lemma at_trim_left s k n : at_ s0 g h s → wlp (trim_chunk_left k n) s (λ _ s', at_ s0 g h s').
Proof.
  intros. unfold trim_chunk_left. wlp_step. apply chunk_at_wlp. intros bc Hl. cbv zeta. do 3 wlp_step.
  eapply wlp_mono; [by eapply at_update|]. cbv beta. intros. fr_auto.
Qed.

Lemma at_trim_right s k e n : at_ s0 g h s → wlp (trim_chunk_right k e n) s (λ _ s', at_ s0 g h s').
Proof.
  intros. unfold trim_chunk_right. wlp_step. apply chunk_at_wlp. intros bc Hl. cbv zeta. do 5 wlp_step.
  eapply wlp_mono; [by eapply at_update|]. cbv beta. intros. fr_auto.
Qed.
End ops.
#[export] Hint Resolve at_remove_chunk at_add_chunk at_trim_left at_trim_right : fr.

Section purges.
Context (s0 : cache) (g h : list nat).

Lemma at_clear_one s k : at_ s0 g h s → wlp (clear_one false k) s (λ _ s', at_ s0 g h s').
Proof. intros. unfold clear_one. fr_auto. Qed.

Lemma at_clear s : at_ s0 g h s → wlp (clear_nolock false) s (λ _ s', at_ s0 g h s').
Proof.
  intros. unfold clear_nolock. repeat wlp_step; [done|].
  eapply wlp_mono; [apply (wlp_for _ _ (at_ s0 g h)); [done|]; intros; by apply at_clear_one|]. cbv beta. intros.
  do 2 wlp_step. case_match; fr_auto.
Qed.

Lemma at_prune_loop ra ks : ∀ s a b, at_ s0 g h s → wlp (prune_loop ra ks a b) s (λ _ s', at_ s0 g h s').
Proof.
  induction ks as [|k ks IH]; intros s a b Ha; simpl; [by wlp_step|]. fr_pure.
  repeat first [fr_step | (apply IH; done)]; done.
Qed.

Lemma at_prune pg ra s : at_ s0 g h s → wlp (inline_prune pg ra) s (λ _ s', at_ s0 g h s').
Proof.
  intros. unfold inline_prune. repeat wlp_step; [done|]. eapply wlp_mono; [by apply at_prune_loop|]. cbv beta. intros. by wlp_step.
Qed.
End purges.
#[export] Hint Resolve at_clear at_prune : fr.

(** ** The scan *)
Definition vids (v : list bytes_chunk) : list nat := bc_alloc_buffer <$> v.

(** A chunk as the lookup returns it: nothing of it has been read yet. *)
Definition unread (bc : bytes_chunk) : Prop := bc_pvt bc = 0 ∧ bc_num_backend_calls_issued bc = 0.

Section scan.
Context (s0 : cache) (g h : list nat).

(** The references of the vector under construction. *)
Abbreviation at_vec v s := (at_ s0 (vids v ++ g) h s ∧ Forall unread v).

Lemma at_snoc v bc s :
  at_ s0 (bc_alloc_buffer bc :: vids v ++ g) h s → Forall unread v → unread bc → at_vec (v ++ [bc]) s.
Proof.
  intros Ha Hv Hb. split; [|by apply Forall_app; split; [|constructor]].
  eapply at_perm; [|done|exact Ha]. unfold vids. rewrite fmap_app, <- app_assoc. simpl. by rewrite Permutation_middle.
Qed.

Definition jump_vec (j : scan_jump) : list bytes_chunk :=
  match j with J_end => [] | J_alloc x | J_loop x => s_vec x end.

Lemma at_gap a s o l ko k lb : at_ s0 g h s → wlp (scan_gap a o l ko k lb) s (λ j s', at_vec (jump_vec j) s').
Proof.
  intros Ha. unfold scan_gap. cbv zeta. wlp_step; wlp_step; [|by split].
  eapply wlp_mono; [by apply at_chunk_new|]. cbv beta. intros bc s1 [H1 Hb]. wlp_step. split; [done|by constructor].
Qed.

Lemma at_start a s o l : at_ s0 g h s → wlp (scan_start a o l) s (λ j s', at_vec (jump_vec j) s').
Proof.
  intros Ha. unfold scan_start. cbv zeta. do 2 wlp_step.
  repeat first [ apply at_gap; done | fr_step | case_match ]; by split.
Qed.

Lemma at_scan_at_start a k bc x s :
  at_vec (s_vec x) s → wlp (scan_at_start a k bc x) s (λ x' s', at_vec (s_vec x') s').
Proof.
  intros [Ha Hv]. unfold scan_at_start, advance. cbv zeta. do 5 wlp_step.
  - wlp_step. eapply wlp_mono; [by apply at_view|]. cbv beta. intros v s1 [-> H1]. repeat wlp_step. by apply at_snoc.
  - fr_pure. repeat fr_step; by split.
Qed.

Lemma at_before a k bc x s : at_vec (s_vec x) s → wlp (scan_before a k bc x) s (λ x' s', at_vec (s_vec x') s').
Proof.
  intros [Ha Hv]. unfold scan_before, advance. cbv zeta. wlp_step; [wlp_step|repeat fr_step; by split].
  eapply wlp_mono; [by apply at_chunk_new|]. cbv beta. intros v s1 [H1 Hb]. repeat wlp_step. by apply at_snoc.
Qed.

Lemma at_inside a o l k bc x s : at_vec (s_vec x) s → wlp (scan_inside a o l k bc x) s (λ x' s', at_vec (s_vec x') s').
Proof.
  intros [Ha Hv]. unfold scan_inside, advance. cbv zeta. do 5 wlp_step.
  - wlp_step. eapply wlp_mono; [by apply at_view|]. cbv beta. intros v s1 [-> H1]. repeat wlp_step. by apply at_snoc.
  - fr_pure. repeat fr_step; by split.
Qed.

Lemma at_iter a o l k x s : at_vec (s_vec x) s → wlp (scan_iter a o l k x) s (λ x' s', at_vec (s_vec x') s').
Proof.
  intros Ha. unfold scan_iter, load.
  repeat first [ apply at_scan_at_start; done | apply at_before; done | apply at_inside; done | fr_step ].
Qed.

Lemma at_for n : ∀ a o l x s, at_vec (s_vec x) s → wlp (scan_for n a o l x) s (λ x' s', at_vec (s_vec x') s').
Proof.
  induction n as [|n IH]; intros a o l x s Ha; simpl; (wlp_step; [by wlp_step|]);
    (destruct (it (s_cur x)); [|by wlp_step]).
  - repeat wlp_step. done.
  - wlp_step. eapply wlp_mono; [by apply at_iter|]. cbv beta. intros. by apply IH.
Qed.

Lemma at_delete ks : ∀ s g', at_ s0 g' h s → wlp (scan_delete ks) s (λ _ s', at_ s0 g' h s').
Proof.
  induction ks as [|k ks IH]; intros s g' Ha; simpl; [by wlp_step|]. fr_pure.
  repeat first [fr_step | eapply wlp_mono; [apply IH; done|cbv beta; intros] ]; done.
Qed.
End scan.

(** Marking the vector inuse. *)
Lemma at_insert_one s0 g h a bc xr s :
  at_ s0 g h s → wlp (scan_insert_one a bc xr) s (λ _ s', at_ s0 g (if is_get a then bc_alloc_buffer bc :: h else h) s').
Proof.
  intros Ha. unfold scan_insert_one. wlp_step. eapply (wlp_mono _ _ (λ _ s', at_ s0 g (if is_get a then bc_alloc_buffer bc :: h else h) s')).
  { destruct (is_get a); [by apply at_set_inuse|by wlp_step]. }
  cbv beta. intros. fr_auto.
Qed.

Lemma at_insert s0 g v : ∀ h xr s,
  at_ s0 g h s → wlp (scan_insert SCAN_ACTION_GET v xr) s (λ _ s', at_ s0 g (vids v ++ h) s').
Proof.
  induction v as [|bc v IH]; intros h xr s Ha; simpl; [by wlp_step|]. wlp_step.
  eapply wlp_mono; [by apply at_insert_one|]. cbv beta. intros xr' s1 H1. simpl in H1.
  eapply wlp_mono; [by apply IH|]. cbv beta. intros _ s2. apply at_perm; [done|]. unfold vids. simpl.
  by rewrite Permutation_middle.
Qed.

(** What a scan adds to the ledger: a lookup returns one reference and one use count
    for each chunk of its vector. *)
Definition taken (a : scan_action) (v : list bytes_chunk) : list nat := if is_get a then vids v else [].

Section scan_all.
Context (s0 : cache) (g h : list nat).

Lemma at_alloc_last a x s :
  at_ s0 (vids (s_vec x) ++ g) h s ∧ Forall unread (s_vec x) →
  wlp (scan_alloc_last a x) s (λ x' s', at_ s0 (vids (s_vec x') ++ g) h s' ∧ Forall unread (s_vec x')).
Proof.
  intros [Ha Hv]. unfold scan_alloc_last. cbv zeta. repeat wlp_step; try done.
  eapply wlp_mono; [by apply at_chunk_new|]. cbv beta. intros v s1 [H1 Hb]. wlp_step. by apply at_snoc.
Qed.

(** The search for the extent changes nothing. *)
Lemma find_left_same n : ∀ k xl s, wlp (find_left n k xl) s (λ _ s', s' = s).
Proof.
  induction n as [|n IH]; intros k xl s; cbn [find_left]; wlp_step; apply chunk_at_wlp; intros bc _;
    unfold needs_flush, get_membuf, is_dirty, is_flushing, is_commit_pending; repeat wlp_step; try done; case_match; repeat wlp_step; try done; apply IH.
Qed.

Lemma find_right_same n : ∀ k xr s, wlp (find_right n k xr) s (λ _ s', s' = s).
Proof.
  induction n as [|n IH]; intros [k|] xr s; cbn [find_right]; wlp_step; try done; apply chunk_at_wlp; intros bc _;
    unfold needs_flush, get_membuf, is_dirty, is_flushing, is_commit_pending; repeat wlp_step; try done; apply IH.
Qed.

Ltac find_same := fr_pure; repeat
  first [ wlp_step
        | apply chunk_at_wlp; intros ? ?
        | apply get_membuf_wlp; intros ? ?
        | eapply wlp_mono; [apply find_left_same|cbv beta; intros ? ? ->]
        | eapply wlp_mono; [apply find_right_same|cbv beta; intros ? ? ->]
        | case_match ]; simpl.

Lemma at_finish a b x s :
  a = SCAN_ACTION_GET ∨ s_vec x = [] ∧ a = SCAN_ACTION_RELEASE → at_ s0 (vids (s_vec x) ++ g) h s ∧ Forall unread (s_vec x) →
  wlp (scan_finish a b x) s (λ r s', at_ s0 (vids (r_vec r) ++ g) (taken a (r_vec r) ++ h) s' ∧
    Forall unread (r_vec r) ∧ (a = SCAN_ACTION_RELEASE → r_vec r = [])).
Proof.
  intros Hx Ha. unfold scan_finish. wlp_step.
  eapply (wlp_mono _ _ (λ x' s', (at_ s0 (vids (s_vec x') ++ g) h s' ∧ Forall unread (s_vec x')) ∧ (a = SCAN_ACTION_RELEASE → s_vec x' = []))).
  { intros x' s' Hrun. split; [by eapply at_alloc_last|]. intros ->. destruct Hx as [?|[Hv _]]; [done|].
    revert Hrun. unfold scan_alloc_last. cbv zeta. simpl. case_match; intros Hrun; injection Hrun as <- _; done. }
  cbv beta. intros x1 s1 [[H1 Hu1] Hv1]. wlp_step. unfold taken. destruct Hx as [->|[_ ->]]; simpl.
  - eapply wlp_mono; [by apply at_insert|]. cbv beta. intros xr s2 H2. find_same; by split_and!.
  - rewrite Hv1 in * by done. simpl in *. do 3 wlp_step.
    do 2 wlp_step.
    eapply wlp_mono; [by apply at_delete|]. cbv beta. intros n s2 H2. find_same; by split_and!.
Qed.

(** A release builds no vector. *)
Lemma release_start s o l : wlp (scan_start SCAN_ACTION_RELEASE o l) s (λ j s', jump_vec j = []).
Proof.
  unfold scan_start, scan_gap. cbv zeta. do 2 wlp_step. repeat first [fr_step | case_match ]; done.
Qed.

Lemma release_iter o l k x s : wlp (scan_iter SCAN_ACTION_RELEASE o l k x) s (λ x' _, s_vec x' = s_vec x).
Proof.
  unfold scan_iter, scan_at_start, scan_before, scan_inside, advance. cbv zeta. simpl.
  repeat first [ wlp_step | intros ? ? ?; simpl; done | eapply (wlp_mono _ _ (λ _ _, True)); [by intros ?|cbv beta; intros ? ? _] ]; done.
Qed.

Lemma release_for n : ∀ o l x s, wlp (scan_for n SCAN_ACTION_RELEASE o l x) s (λ x' _, s_vec x' = s_vec x).
Proof.
  induction n as [|n IH]; intros o l x s; simpl; (wlp_step; [by wlp_step|]); (destruct (it (s_cur x)); [|by wlp_step]).
  - by repeat wlp_step.
  - wlp_step. eapply wlp_mono; [apply release_iter|]. cbv beta. intros x1 s1 <-. apply IH.
Qed.

Lemma at_body a o l b s :
  a = SCAN_ACTION_GET ∨ a = SCAN_ACTION_RELEASE → at_ s0 g h s →
  wlp (scan_body a o l b) s (λ r s', at_ s0 (vids (r_vec r) ++ g) (taken a (r_vec r) ++ h) s' ∧
    Forall unread (r_vec r) ∧ (a = SCAN_ACTION_RELEASE → r_vec r = [])).
Proof.
  intros Hga Ha. unfold scan_body. do 3 wlp_step.
  eapply (wlp_mono _ _ (λ _ s', s' = s)); [destruct (is_get a); by wlp_step|]. cbv beta. intros _ ? ->. wlp_step.
  eapply (wlp_mono _ _ (λ j s', (at_ s0 (vids (jump_vec j) ++ g) h s' ∧ Forall unread (jump_vec j)) ∧ (a = SCAN_ACTION_RELEASE → jump_vec j = []))).
  { intros j s' Hrun. split; [by eapply at_start|]. intros ->. by eapply release_start. }
  cbv beta. intros j s1 [H1 Hv]. destruct j as [|x|x]; simpl in *.
  - wlp_step. simpl. split; [|by split]. destruct H1 as [H1 _]. unfold taken. by destruct (is_get a).
  - apply at_finish; [|done]. destruct Hga as [?|?]; auto.
  - do 3 wlp_step.
    eapply (wlp_mono _ _ (λ x' s', (at_ s0 (vids (s_vec x') ++ g) h s' ∧ Forall unread (s_vec x')) ∧ (a = SCAN_ACTION_RELEASE → s_vec x' = []))).
    { intros x' s' Hrun. split; [by eapply at_for|]. intros ->. rewrite <- Hv by done. by eapply release_for. }
    cbv beta. intros x1 s2 [H2 Hv2]. apply at_finish; [|done]. destruct Hga as [?|?]; auto.
Qed.

Lemma at_scan a o l b s :
  a = SCAN_ACTION_GET ∨ a = SCAN_ACTION_RELEASE → at_ s0 g h s →
  wlp (scan a o l b) s (λ r s', at_ s0 (vids (r_vec r) ++ g) (taken a (r_vec r) ++ h) s' ∧
    Forall unread (r_vec r) ∧ (a = SCAN_ACTION_RELEASE → r_vec r = [])).
Proof.
  intros Hga Ha. unfold scan. wlp_step.
  eapply (wlp_mono _ _ (λ _ s', s' = s)); [unfold scan_checks; by repeat wlp_step|]. cbv beta. intros _ ? ->.
  unfold test_and_clear_invalidate_pending. do 9 wlp_step.
  eapply (wlp_mono _ _ (λ _ s', at_ s0 g h s')).
  { destruct (invalidate_pending s); [apply at_clear|wlp_step]; at_same_as Ha. }
  cbv beta. intros _ s1 H1. by apply at_body.
Qed.
End scan_all.

(** ** The public operations *)

(** A lookup adds the chunks it returns to the ledger. *)
Lemma ledger_get pg ra o l g h s :
  ledger g h s → wlp (get pg ra o l) s (λ v s', (ledger (vids v ++ g) (vids v ++ h) s' ∧ evolves s s') ∧ Forall unread v).
Proof.
  intros Ha%at_init. unfold get. repeat fr_step. eapply wlp_mono; [by apply at_scan; [left|]|].
  cbv beta. intros r s2 (Hr & Hu & _). by wlp_step.
Qed.

Lemma ledger_getx pg ra o l g h s :
  ledger g h s → wlp (getx pg ra o l) s (λ r s', (ledger (vids r.1.1 ++ g) (vids r.1.1 ++ h) s' ∧ evolves s s') ∧ Forall unread r.1.1).
Proof.
  intros Ha%at_init. unfold getx. repeat fr_step. eapply wlp_mono; [by apply at_scan; [left|]|].
  cbv beta. intros r s2 (Hr & Hu & _). by wlp_step.
Qed.

Lemma ledger_release o l g h s :
  ledger g h s → wlp (release o l) s (λ _ s', ledger g h s' ∧ evolves s s').
Proof.
  intros Ha%at_init. unfold release. wlp_step. fr_step. wlp_step.
  eapply wlp_mono; [by apply at_scan; [right|]|]. cbv beta. intros r s1 (H1 & _ & Hr). rewrite Hr in H1 by done. by fr_auto.
Qed.

Lemma ledger_clear g h s : ledger g h s → wlp (clear false) s (λ _ s', ledger g h s' ∧ evolves s s').
Proof. intros Ha%at_init. by apply at_clear. Qed.

Lemma ledger_reset g h s id : ledger (id :: g) h s → wlp (shared_ptr_reset id) s (λ _ s', ledger g h s' ∧ evolves s s').
Proof. intros Ha%at_init. by apply at_reset. Qed.
