(* ===== verification/MembufInv.v ===== *)
(** * Membuf operations preserve the invariant

    Every flag or use-count operation that runs to completion preserves the
    invariant of the cache.  Three operations have an obligation the code does
    not check itself: [clear_dirty()] must be called on a dirty membuf,
    [set_flushing()] on one that is not flushing yet, and the last
    [clear_inuse()] must come after the flush has ended. *)
From S2P Require Import Prelude CacheState Membuf MembufSpec ChunkMap FileCache CacheInv.

Lemma inv_flag_update pin s s' id mb w :
  invp pin s → mb_updated id mb (mb_set_flag w mb) s s' → mb_wf (mb_set_flag w mb) →
  (has_flag w Locked = true → held mb = true) → invp pin s'.
Proof.
  intros Hinv Hu Hwf Hheld. eapply inv_update; [done|exact Hu|by split|].
  pose proof (inv_refs _ _ Hinv id mb (upd_lookup _ _ _ _ _ Hu)) as Hr. simpl.
  enough (Z.b2z (held_out pin id (mb_set_flag w mb)) ≤ Z.b2z (held_out pin id mb)) by lia.
  unfold held_out. case_decide; [done|]. unfold held, mb_has, mb_is_inuse in *. simpl.
  destruct (has_flag w Locked) eqn:E; simpl; [by rewrite (Hheld eq_refl)|].
  destruct (0 <? mb_inuse mb), (has_flag (mb_flag mb) Locked); simpl; lia.
Qed.

Lemma mb_wf_set_flag mb w :
  mb_wf mb →
  (has_flag w Dirty = true → has_flag w Uptodate = true ∧ has_flag w CommitPending = false) →
  (has_flag w Flushing = true →
     has_flag w CommitPending = false ∧ has_flag w Locked = true ∧ 0 < mb_inuse mb) →
  (has_flag w CommitPending = true → has_flag w Uptodate = true) → mb_wf (mb_set_flag w mb).
Proof. intros Hwf ? ? ?. by destruct Hwf; split. Qed.

Section ops.
Context (pin : gset nat) (s : cache) (Hinv : invp pin s).

(** Shows that an updated flag word is well-formed, from the guards and the
    well-formedness of the old word. *)
Ltac wf_flags Hwf :=
  apply mb_wf_set_flag; [exact Hwf|..];
  rewrite ?has_or_flag, ?has_clear_flag; simpl;
  pose proof (wf_dirty _ Hwf); pose proof (wf_flushing _ Hwf); pose proof (wf_commit _ Hwf);
  unfold is_uptodate, is_locked, is_truncated, is_inuse, mb_is_inuse, mb_has in *; bools; clear Hinv;
  repeat match goal with H : mb_updated _ _ _ _ _ |- _ => clear H | H : mb_wf _ |- _ => clear H end;
  match goal with |- context [has_flag (mb_flag ?mb) _] =>
    destruct (has_flag (mb_flag mb) Uptodate), (has_flag (mb_flag mb) Locked), (has_flag (mb_flag mb) Dirty),
      (has_flag (mb_flag mb) Flushing), (has_flag (mb_flag mb) CommitPending) end;
  simpl in *; intuition (congruence || lia).

(** The operation keeps the holders of the membuf. *)
Ltac same_holders :=
  unfold held, is_locked, is_inuse, mb_has in *;
  intros _; repeat match goal with H : _ = true |- _ => rewrite H end; rewrite ?orb_true_r; done.

(** Preservation from an operation's specification. *)
Ltac preserves Hupd :=
  let Hwf := fresh "Hwf" in
  destruct (inv_heap _ _ Hinv _ _ (upd_lookup _ _ _ _ _ Hupd)) as [Hwf _];
  eapply inv_flag_update; [exact Hinv|exact Hupd|wf_flags Hwf|same_holders].

Lemma set_locked_inv id : wlp (set_locked id) s (λ _ s', invp pin s').
Proof.
  eapply wlp_mono; [apply set_locked_spec|]. cbv beta. intros _ s' (mb & Hlk & Hiu & Hu). preserves Hu.
Qed.

Lemma try_lock_inv id : wlp (try_lock id) s (λ _ s', invp pin s').
Proof.
  eapply wlp_mono; [apply try_lock_spec|]. cbv beta. intros _ s' (mb & _ & Hiu & Hu). preserves Hu.
Qed.

Lemma clear_locked_inv id : wlp (clear_locked id) s (λ _ s', invp pin s').
Proof.
  eapply wlp_mono; [apply clear_locked_spec|]. cbv beta. intros _ s' (mb & Hlk & Hiu & Hf & Hu). preserves Hu.
Qed.

Lemma set_uptodate_inv id : wlp (set_uptodate id) s (λ _ s', invp pin s').
Proof.
  eapply wlp_mono; [apply set_uptodate_spec|]. cbv beta. intros _ s' (mb & Hlk & Hiu & _ & Hu).
  destruct (inv_heap _ _ Hinv id mb (upd_lookup _ _ _ _ _ Hu)) as [Hwf _].
  eapply (inv_flag_update pin (c_set_cache_size (cache_size s') s)); [split; apply Hinv|exact Hu|wf_flags Hwf|same_holders].
Qed.

Lemma set_dirty_inv id : wlp (set_dirty id) s (λ _ s', invp pin s').
Proof.
  eapply wlp_mono; [apply set_dirty_spec|]. cbv beta.
  intros _ s' (mb & Hlk & Hiu & Hup & Hf & Hcp & Hu). preserves Hu.
Qed.

Lemma clear_dirty_inv id mb :
  membufs s !! id = Some mb → mb_has Dirty mb = true → wlp (clear_dirty id) s (λ _ s', invp pin s').
Proof.
  intros Hid Hd. eapply wlp_mono; [apply clear_dirty_spec; done|]. cbv beta.
  intros _ s' (Hlk & Hiu & Hf & Hu). preserves Hu.
Qed.

Lemma set_flushing_inv fl id mb :
  membufs s !! id = Some mb → mb_has Flushing mb = false → wlp (set_flushing fl id) s (λ _ s', invp pin s').
Proof.
  intros Hid Hd. eapply wlp_mono; [apply set_flushing_spec; done|]. cbv beta.
  intros _ s' (Hlk & Hiu & _ & Ht & Hdi & Hup & Hu). preserves Hu.
Qed.

Lemma clear_flushing_inv id : wlp (clear_flushing id) s (λ _ s', invp pin s').
Proof.
  eapply wlp_mono; [apply clear_flushing_spec|]. cbv beta. intros _ s' (mb & Hlk & Hiu & Hf & Hd & Hu). preserves Hu.
Qed.

Lemma set_commit_pending_inv id : wlp (set_commit_pending id) s (λ _ s', invp pin s').
Proof.
  eapply wlp_mono; [apply set_commit_pending_spec|]. cbv beta.
  intros _ s' (mb & Hlk & Hiu & Hup & Hd & Hf & Hcp & Hu). preserves Hu.
Qed.

Lemma clear_commit_pending_inv id : wlp (clear_commit_pending id) s (λ _ s', invp pin s').
Proof.
  eapply wlp_mono; [apply clear_commit_pending_spec|]. cbv beta.
  intros _ s' (mb & Hlk & Hiu & Hcp & Hup & Hu). preserves Hu.
Qed.

Lemma set_truncated_inv id : wlp (set_truncated id) s (λ _ s', invp pin s').
Proof.
  eapply wlp_mono; [apply set_truncated_spec|]. cbv beta. intros _ s' (mb & Hlk & Ht & Hf & Hu). preserves Hu.
Qed.

(** Taking a use count needs a reference of one's own. *)
Lemma set_inuse_inv id mb :
  membufs s !! id = Some mb → Z.b2z (in_map id (chunkmap s)) + 1 ≤ mb_use_count mb ∨ id ∈ pin →
  wp (set_inuse id) s (λ _ s', invp pin s' ∧ mb_updated id mb (mb_set_inuse (mb_inuse mb + 1) mb) s s').
Proof.
  intros Hid Huc. destruct (inv_heap _ _ Hinv _ _ Hid) as [Hwf _]. pose proof (wf_inuse _ Hwf).
  pose proof (inv_refs _ _ Hinv _ _ Hid) as Hr.
  eapply wp_mono; [by apply set_inuse_spec|]. cbv beta. intros _ s' Hupd. split; [|done].
  eapply inv_update; [done|exact Hupd|apply mb_step_inuse; [done|lia|lia]|]. simpl.
  unfold held_out in *. case_decide; [lia|]. destruct Huc as [?|?]; [|done].
  destruct (held (mb_set_inuse _ mb)); simpl; lia.
Qed.

(** Giving a use count back; a membuf under flush keeps another one. *)
Lemma clear_inuse_inv id mb :
  membufs s !! id = Some mb → (mb_has Flushing mb = true → 1 < mb_inuse mb) →
  wlp (clear_inuse id) s (λ _ s', invp pin s').
Proof.
  intros Hid Hfl. eapply wlp_mono; [apply clear_inuse_spec|]. cbv beta. intros _ s' (mb0 & Hiu%Z.ltb_lt & Hu).
  pose proof (upd_lookup _ _ _ _ _ Hu). simplify_eq.
  destruct (inv_heap _ _ Hinv _ _ Hid) as [Hwf _]. pose proof (inv_refs _ _ Hinv _ _ Hid) as Hr.
  eapply inv_update; [done|exact Hu|apply mb_step_inuse; [done|lia|intros Hf; specialize (Hfl Hf); lia]|].
  simpl. enough (Z.b2z (held_out pin id (mb_set_inuse (mb_inuse mb - 1) mb)) ≤ Z.b2z (held_out pin id mb)) by lia.
  unfold held_out. case_decide; [done|]. unfold held, mb_has, mb_is_inuse. simpl.
  destruct (has_flag _ _); [done|]. simpl. rewrite (proj2 (Z.ltb_lt _ _) Hiu). by destruct (0 <? _).
Qed.
End ops.
