(* ===== verification/CacheOps.v ===== *)
(** * Chunkmap operations preserve the invariant

    Removing a chunk, trimming a chunk from either side and adding a new chunk:
    the ways in which [scan], the purge loops and [truncate] change the
    chunkmap. *)
From S2P Require Import Prelude CacheState Membuf MembufSpec ChunkMap FileCache CacheInv.

Section ids.
Implicit Types (m : cmap) (i : nat).

Lemma ids_app m1 m2 : ids (m1 ++ m2) = ids m1 ++ ids m2.
Proof. unfold ids. by rewrite !fmap_app. Qed.

Lemma elem_of_ids i m : i ∈ ids m ↔ ∃ k bc, (k, bc) ∈ m ∧ bc_alloc_buffer bc = i.
Proof.
  unfold ids. rewrite list_elem_of_fmap. split.
  - intros (bc & -> & ([k bc'] & -> & Hin)%list_elem_of_fmap). eauto.
  - intros (k & bc & Hin & <-). exists bc. split; [done|]. apply list_elem_of_fmap. by exists (k, bc).
Qed.

Lemma in_map_middle i m1 k bc m2 :
  in_map i (m1 ++ (k, bc) :: m2) = bool_decide (i = bc_alloc_buffer bc) || in_map i (m1 ++ m2).
Proof.
  unfold in_map. rewrite <- bool_decide_or. apply bool_decide_ext.
  rewrite !ids_app. simpl. unfold ids at 2. simpl. fold (ids m2). set_solver.
Qed.

Lemma ids_nodup_middle m1 k bc m2 :
  NoDup (ids (m1 ++ (k, bc) :: m2)) → NoDup (ids (m1 ++ m2)) ∧ in_map (bc_alloc_buffer bc) (m1 ++ m2) = false.
Proof.
  rewrite !ids_app. unfold ids at 2. simpl. fold (ids m2). intros (H1 & H2 & H3)%NoDup_app.
  apply NoDup_cons in H3 as [H3 H4]. split.
  - apply NoDup_app. split_and!; [done| |done]. set_solver.
  - apply bool_decide_eq_false. rewrite ids_app. set_solver.
Qed.

Lemma ids_nodup_insert m1 k bc m2 :
  NoDup (ids (m1 ++ m2)) → in_map (bc_alloc_buffer bc) (m1 ++ m2) = false →
  NoDup (ids (m1 ++ (k, bc) :: m2)).
Proof.
  unfold in_map. rewrite bool_decide_eq_false, !ids_app. unfold ids at 5. simpl. fold (ids m2).
  intros (H1 & H2 & H3)%NoDup_app Hn. apply NoDup_app. split_and!; [done|set_solver|].
  apply NoDup_cons. set_solver.
Qed.
End ids.

(** A membuf has at most one chunk in the chunkmap. *)
Lemma ids_inj (m : cmap) p q :
  NoDup (ids m) → p ∈ m → q ∈ m → bc_alloc_buffer p.2 = bc_alloc_buffer q.2 → p = q.
Proof.
  intros Hnd (m1 & m2 & ->)%list_elem_of_split Hq Heq. destruct p as [k c], q as [k' c'].
  apply ids_nodup_middle in Hnd as [_ Hout%bool_decide_eq_false].
  apply elem_of_app in Hq as [Hq|[?|Hq]%elem_of_cons]; [|done|]; destruct Hout; apply elem_of_ids;
    exists k', c'; (split; [apply elem_of_app; tauto|done]).
Qed.

(** ** Removing a chunk *)
Section unmap.
Context (pin : gset nat) (s : cache) (Hinv : invp pin s).
Context (m1 m2 : cmap) (k : Z) (bc : bytes_chunk) (Hsplit : chunkmap s = m1 ++ (k, bc) :: m2).
Context (Hpin : bc_alloc_buffer bc ∉ pin).

Definition unmapped : cache :=
  c_set_chunkmap (m1 ++ m2) (c_bump bytes_cached (- bc_length bc) (c_bump num_chunks (- 1) s)).

Lemma inv_unmap : invp pin unmapped ∧ in_map (bc_alloc_buffer bc) (m1 ++ m2) = false.
Proof.
  pose proof (inv_wf _ _ Hinv) as Hwf. pose proof (inv_ids _ _ Hinv) as Hids.
  pose proof (inv_bound _ _ Hinv) as Hb. pose proof (inv_num _ _ Hinv) as Hnum.
  pose proof (inv_cached _ _ Hinv) as Hca.
  rewrite Hsplit in Hwf, Hids, Hb, Hnum, Hca.
  destruct (ids_nodup_middle _ _ _ _ Hids) as [Hids' Hmap].
  pose proof (cm_wf_remove _ _ _ _ _ Hwf) as Hwf'.
  rewrite cm_bytes_app in Hca. simpl in Hca. rewrite length_app in Hnum. simpl in Hnum.
  pose proof (cm_bytes_le _ _ Hwf') as Hbl. rewrite cm_bytes_app in Hbl.
  assert (∀ i, Z.b2z (in_map i (m1 ++ m2)) ≤ Z.b2z (in_map i (chunkmap s))) as Hle.
  { intros i. rewrite Hsplit, in_map_middle. by destruct (in_map i (m1 ++ m2)), (bool_decide _). }
  split; [|done]. split; simpl; try done.
  - rewrite cm_last_end_app in *. simpl in Hb.
    apply cm_wf_app in Hwf as [H1 (-> & Hlo & Hlen & H2)]. apply cm_wf_app in Hwf' as [_ H2'].
    destruct m2 as [|[k' bc'] m']; simpl in *; [|done].
    pose proof (cm_last_end_ge _ _ H1). unfold bc_end in Hb. lia.
  - intros k' bc' Hin. apply (inv_link _ _ Hinv k'). rewrite Hsplit. set_solver.
  - intros. by apply (inv_heap _ _ Hinv).
  - intros i mb Hi. pose proof (inv_refs _ _ Hinv i mb Hi). specialize (Hle i). lia.
  - intros k' Hk'. rewrite <- (inv_st _ _ Hinv k' Hk'). destruct k'; try done; by bumps.
  - bumps. rewrite length_app. lia.
  - bumps. rewrite cm_bytes_app. lia.
  - intros k'. pose proof (inv_pos _ _ Hinv k').
    destruct (decide (k' = num_chunks)) as [->|]; [bumps; lia|].
    destruct (decide (k' = bytes_cached)) as [->|]; [bumps; lia|].
    rewrite !stat_bump_ne by congruence. done.
  - intros k'. pose proof (inv_g _ _ Hinv k'). unfold stat_bump. repeat case_decide; lia.
  - apply Hinv.
  - intros i Hi. pose proof (inv_pin _ _ Hinv i Hi) as H. rewrite Hsplit, in_map_middle in H.
    rewrite bool_decide_false in H by congruence. done.
  - intros k' bc' Hin. apply (inv_plain _ _ Hinv k'). rewrite Hsplit. set_solver.
Qed.
End unmap.

(** The effect of removing the chunk [bc] from [m1 ++ (k, bc) :: m2]. *)
Record chunk_removed (bc : bytes_chunk) (m1 m2 : cmap) (s s' : cache) : Prop := {
  cr_chunkmap : chunkmap s' = m1 ++ m2;
  cr_other : ∀ i, i ≠ bc_alloc_buffer bc → membufs s' !! i = membufs s !! i;
  cr_next : next_id s' = next_id s;
  cr_size : cache_size s' = cache_size s;
}.

Lemma remove_chunk_spec pin s m1 k bc m2 mb :
  invp pin s → chunkmap s = m1 ++ (k, bc) :: m2 → bc_alloc_buffer bc ∉ pin →
  membufs s !! bc_alloc_buffer bc = Some mb →
  (mb_use_count mb = 1 → mb_has CommitPending mb = false ∧ (mb_has Dirty mb = true → mb_has Truncated mb = true)) →
  wp (remove_chunk k bc) s (λ _ s', invp pin s' ∧ chunk_removed bc m1 m2 s s').
Proof.
  intros Hinv Hsplit Hpin Hid Hlast.
  destruct (inv_unmap pin s Hinv m1 m2 k bc Hsplit Hpin) as [Hinv' Hmap].
  pose proof (inv_wf _ _ Hinv) as Hwf. rewrite Hsplit in Hwf.
  pose proof (inv_num _ _ Hinv) as Hn. pose proof (inv_cached _ _ Hinv) as Hc.
  rewrite Hsplit in Hn, Hc. rewrite length_app in Hn. rewrite cm_bytes_app in Hc. simpl in *.
  pose proof (cm_bytes_le _ _ (cm_wf_remove _ _ _ _ _ Hwf)) as Hbl. rewrite cm_bytes_app in Hbl.
  pose proof (inv_g _ _ Hinv num_chunks). pose proof (inv_g _ _ Hinv bytes_cached).
  assert (∀ k' bc', (k', bc') ∈ m1 → k' < k) as Hlt.
  { intros k' bc' Hin. by eapply cm_wf_keys_lt. }
  unfold remove_chunk, account_chunk_removed, chunkmap_erase. wp_step. wp_step.
  apply stat_sub_wp; [lia|lia|]. apply stat_sub_wp; [simpl; bumps; lia..|].
  wp_step. unfold chunk_at. repeat wp_step.
  { simpl. rewrite Hsplit. by apply cm_lookup_split. }
  simpl. rewrite Hsplit, cm_erase_split by done. unfold bytes_chunk_dtor, put_chunkmap. wp_step.
  eapply wp_mono.
  { eapply (shared_ptr_reset_spec pin _ _ mb); [exact Hinv'|done|done| |done].
    simpl. rewrite Hmap. pose proof (inv_refs _ _ Hinv _ _ Hid) as Hr.
    rewrite Hsplit, in_map_middle, bool_decide_true in Hr by done. simpl in Hr. simpl. lia. }
  simpl. intros _ s' [Hi' Hdrop]. split; [done|]. destruct Hdrop. by split.
Qed.

(** ** Trimming a chunk *)
Lemma trim_spec s id mb n left :
  membufs s !! id = Some mb → mb_wf mb → 0 < n < mb_length mb →
  mb_is_inuse mb = false → mb_has Flushing mb = false → mb_has CommitPending mb = false →
  (∀ k, weight k mb ≤ st s k ≤ st_g s k) →
  wp (trim id n left) s (λ _ s', mb_updated id mb
    (mb_set_range (if left then mb_offset mb + n else mb_offset mb) (mb_length mb - n) mb) s s').
Proof.
  intros Hid Hwf Hn Hiu Hfl Hcp Hst.
  assert (mb_inuse mb = 0) as Hiu0.
  { unfold mb_is_inuse in Hiu. apply Z.ltb_ge in Hiu. pose proof (wf_inuse _ Hwf). lia. }
  set (mb' := mb_set_range (if left then mb_offset mb + n else mb_offset mb) (mb_length mb - n) mb).
  assert (mb_wf mb') as Hwf'. { destruct Hwf, left; split; simpl; (done || lia). }
  unfold trim. wp_step. eapply get_membuf_wp; [exact Hid|]. wp_asserts cmp. cbv zeta.
  fold mb'. unfold put_membuf. wp_step. wp_step. change (is_inuse mb') with (mb_is_inuse mb). rewrite Hiu. wp_asserts done.
  wp_step. apply is_flushing_wp; [done|]. change (mb_has Flushing mb') with (mb_has Flushing mb).
  rewrite Hfl. wp_asserts done.
  wp_step. apply is_commit_pending_wp; [done|].
  change (mb_has CommitPending mb') with (mb_has CommitPending mb). rewrite Hcp. wp_asserts done.
  change (is_uptodate mb') with (mb_has Uptodate mb). change (is_locked mb') with (mb_has Locked mb).
  pose proof (Hst bytes_dirty) as Hs1. pose proof (Hst bytes_uptodate) as Hs2.
  pose proof (Hst bytes_locked) as Hs3. simpl in Hs1, Hs2, Hs3.
  destruct (mb_has Uptodate mb) eqn:Eu, (mb_has Dirty mb) eqn:Ed, (mb_has Locked mb) eqn:El.
  all: repeat first [ wp_step | (apply is_dirty_wp; [done|]; change (mb_has Dirty mb') with (mb_has Dirty mb); rewrite Ed)
    | apply stat_sub_wp; [simpl; bumps; simpl; lia..|] ].
  all: split; simpl; try done; intros []; bumps; simpl; unfold mb_has in *; simpl;
    rewrite ?Eu, ?Ed, ?El, ?Hfl, ?Hcp, ?Hiu0; simpl; lia.
Qed.

(** Replacing a chunkmap entry and its membuf by a trimmed pair keeps the
    invariant, provided the metrics follow. *)
Lemma inv_trim pin s s' m1 k bc m2 mb k' bc' mb' n :
  invp pin s → chunkmap s = m1 ++ (k, bc) :: m2 →
  membufs s !! bc_alloc_buffer bc = Some mb →
  chunkmap s' = m1 ++ (k', bc') :: m2 → membufs s' = <[bc_alloc_buffer bc := mb']> (membufs s) →
  k' = bc_offset bc' → bc_alloc_buffer bc' = bc_alloc_buffer bc →
  bc_offset bc ≤ bc_offset bc' → 0 < bc_length bc' → bc_end bc' ≤ bc_end bc →
  bc_length bc' = bc_length bc - n → linked bc' mb' → mb_wf mb' →
  (held_out pin (bc_alloc_buffer bc) mb' = true → held_out pin (bc_alloc_buffer bc) mb = true) →
  mb_use_count mb' = mb_use_count mb →
  (∀ c, st s' c = st s c + weight c mb' - weight c mb - (if decide (c = bytes_cached) then n else 0)) →
  (∀ c, st_g s' c - st s' c = st_g s c - st s c) →
  next_id s' = next_id s → backing_file_name s' = backing_file_name s →
  backing_file_fd s' = backing_file_fd s → (plain bc → plain bc') → invp pin s'.
Proof.
  intros Hinv Hsplit Hid Hcm Hheap Hk' Halloc Hlo Hpos Hhi Hn Hlk Hwf' Hheld Huc Hst Hstg Hnx Hnm Hfd Hnew.
  pose proof (inv_wf _ _ Hinv) as Hwf. pose proof (inv_ids _ _ Hinv) as Hids.
  pose proof (inv_bound _ _ Hinv) as Hb. pose proof (inv_num _ _ Hinv) as Hnum.
  pose proof (inv_cached _ _ Hinv) as Hca.
  assert ((k, bc) ∈ chunkmap s) as Hin by (rewrite Hsplit, elem_of_app, elem_of_cons; tauto).
  rewrite Hsplit in Hwf, Hids, Hb, Hnum, Hca.
  assert (∀ i, in_map i (chunkmap s') = in_map i (chunkmap s)) as Hmap.
  { intros i. by rewrite Hcm, Hsplit, !in_map_middle, Halloc. }
  pose proof (cm_wf_shrink _ _ _ _ k' bc' _ Hwf Hk' Hlo Hpos Hhi) as Hwf2.
  pose proof (cm_bytes_le _ _ Hwf2) as Hbl.
  destruct (ids_nodup_middle _ _ _ _ Hids) as [Hids' Hnotin].
  assert (cm_bytes (chunkmap s') = cm_bytes (chunkmap s) - n) as Hbytes.
  { rewrite Hcm, Hsplit, !cm_bytes_app. simpl. lia. }
  split; rewrite ?Hheap, ?Hnx, ?Hnm, ?Hfd; try apply Hinv.
  - by rewrite Hcm.
  - rewrite Hcm, cm_last_end_app in *. simpl in *. destruct m2 as [|[k2 bc2] m']; simpl in *; [lia|done].
  - rewrite Hcm. apply ids_nodup_insert; [done|]. by rewrite Halloc.
  - intros k0 bc0. rewrite Hcm, elem_of_app, elem_of_cons. intros Hin0.
    destruct (decide (bc0 = bc')) as [->|Hne].
    + exists mb'. rewrite Halloc, lookup_insert_eq. done.
    + assert ((k0, bc0) ∈ m1 ++ m2) as Hin1 by (rewrite elem_of_app; naive_solver).
      destruct (inv_link _ _ Hinv k0 bc0) as (mb0 & Hmb0 & ?).
      { rewrite Hsplit, elem_of_app, elem_of_cons. apply elem_of_app in Hin1. tauto. }
      exists mb0. split; [|done]. rewrite lookup_insert_ne; [done|]. intros Heq.
      apply bool_decide_eq_false in Hnotin. apply Hnotin, elem_of_ids. eauto.
  - intros i x. destruct (decide (i = bc_alloc_buffer bc)) as [->|?].
    + rewrite lookup_insert_eq. intros [= <-]. split; [done|]. by apply (inv_heap _ _ Hinv _ mb).
    + rewrite lookup_insert_ne by done. apply (inv_heap _ _ Hinv).
  - intros i x. rewrite Hmap. destruct (decide (i = bc_alloc_buffer bc)) as [->|?].
    + rewrite lookup_insert_eq. intros [= <-]. pose proof (inv_refs _ _ Hinv _ _ Hid).
      rewrite Huc. destruct (held_out pin _ mb'); [rewrite Hheld in * by done; done|].
      destruct (held_out pin _ mb), (in_map _ _); simpl in *; lia.
    + rewrite lookup_insert_ne by done. apply (inv_refs _ _ Hinv).
  - intros c Hc. rewrite Hst, (msum_insert _ _ _ mb), (inv_st _ _ Hinv c Hc) by done.
    destruct c; try done; simpl; lia.
  - rewrite Hst. simpl. rewrite Hcm, Hnum, !length_app. simpl. lia.
  - rewrite Hst, Hbytes, (inv_cached _ _ Hinv). simpl. lia.
  - intros c. rewrite Hst. pose proof (inv_weight_le _ _ Hinv _ mb c Hid).
    pose proof (weight_nonneg c _ Hwf'). case_decide as Hc; [|lia]. subst c.
    rewrite (inv_cached _ _ Hinv). simpl. rewrite Hcm in Hbytes. lia.
  - intros c. pose proof (inv_g _ _ Hinv c). pose proof (Hstg c). lia.
  - intros i Hi. rewrite Hmap. by apply (inv_pin _ _ Hinv).
  - intros k0 bc0. rewrite Hcm, elem_of_app, elem_of_cons. intros Hin0.
    destruct (decide (bc0 = bc')) as [->|Hne]; [by apply Hnew, (inv_plain _ _ Hinv k)|].
    apply (inv_plain _ _ Hinv k0). rewrite Hsplit, elem_of_app, elem_of_cons. naive_solver.
Qed.

(** [bc] cut down to the range [off, e). *)
Definition cut (bc : bytes_chunk) (off e : Z) : bytes_chunk :=
  Chunk (bc_alloc_buffer bc) off (e - off) (bc_buffer_offset bc + (off - bc_offset bc))
    (bc_pvt bc) (bc_num_backend_calls_issued bc) (bc_is_whole bc) (bc_is_new bc).

(** The effect of trimming. *)
Record chunk_trimmed (bc : bytes_chunk) (mb : membuf) (k' : Z) (bc' : bytes_chunk) (m1 m2 : cmap)
    (s s' : cache) : Prop := {
  ct_chunkmap : chunkmap s' = m1 ++ (k', bc') :: m2;
  ct_other : ∀ i, i ≠ bc_alloc_buffer bc → membufs s' !! i = membufs s !! i;
  ct_this : membufs s' !! bc_alloc_buffer bc =
    Some (mb_set_range (bc_offset bc') (bc_length bc') mb);
  ct_next : next_id s' = next_id s;
  ct_size : cache_size s' = cache_size s;
}.

Lemma trim_chunk_right_spec pin s m1 k bc m2 mb e :
  invp pin s → chunkmap s = m1 ++ (k, bc) :: m2 →
  membufs s !! bc_alloc_buffer bc = Some mb → safe_mb mb = true →
  bc_offset bc < e < bc_end bc →
  wp (trim_chunk_right k e (bc_end bc - e)) s (λ _ s',
    invp pin s' ∧ chunk_trimmed bc mb k (cut bc (bc_offset bc) e) m1 m2 s s').
Proof.
  intros Hinv Hsplit Hid Hsafe He. destruct (inv_heap _ _ Hinv _ _ Hid) as [Hwf _].
  unfold safe_mb in Hsafe. apply andb_true_iff in Hsafe as [[Hiu%negb_true_iff Hd%negb_true_iff]%andb_true_iff Hcp%negb_true_iff].
  pose proof (not_inuse_not_flushing _ Hwf Hiu) as Hfl.
  assert ((k, bc) ∈ chunkmap s) as Hin by (rewrite Hsplit, elem_of_app, elem_of_cons; tauto).
  destruct (inv_link _ _ Hinv _ _ Hin) as (mb0 & Hmb0 & [Hlo Hll Hlb]). simplify_eq.
  pose proof (inv_wf _ _ Hinv) as Hw. rewrite Hsplit in Hw.
  assert (∀ k' bc', (k', bc') ∈ m1 → k' < k) as Hlt by (intros ? ? ?; by eapply cm_wf_keys_lt).
  destruct (inv_chunk_bounds _ _ Hinv _ _ Hin) as (-> & _ & _ & _). unfold bc_end in *.
  set (mb' := mb_set_range (mb_offset mb) (mb_length mb - (bc_offset bc + bc_length bc - e)) mb).
  unfold trim_chunk_right. wp_step. eapply chunk_at_spec; [done|exact Hin|]. cbv zeta.
  wp_asserts cmp. wp_step. wp_step. rewrite Hsplit, cm_update_split by done.
  wp_step. unfold put_chunkmap. wp_step. wp_step. eapply wp_mono.
  { apply (trim_spec _ _ mb); simpl; try done; try lia. intros c.
    split; [by eapply inv_weight_le|apply (inv_g _ _ Hinv)]. }
  simpl. fold mb'. intros _ s1 Hupd.
  pose proof (inv_cached _ _ Hinv) as Hca. rewrite Hsplit, cm_bytes_app in Hca. simpl in Hca.
  pose proof (cm_bytes_le _ _ (cm_wf_remove _ _ _ _ _ Hw)) as Hbl. rewrite cm_bytes_app in Hbl.
  pose proof (inv_g _ _ Hinv bytes_cached). destruct Hupd as [_ Hh Hs Hsg Hc Hn Hf Hnm _ Hsz]. simpl in *.
  apply stat_sub_wp. { rewrite Hs. simpl. lia. } { rewrite Hsg. simpl. lia. }
  assert (mb_wf mb') as Hwf'. { destruct Hwf; split; simpl; (done || lia). }
  split; [|split; simpl].
  - eapply (inv_trim pin s _ m1 _ bc m2 mb (bc_offset bc) (cut bc (bc_offset bc) e) mb'
              (bc_offset bc + bc_length bc - e)); simpl; try done; try lia.
    + rewrite Hc. unfold cut. by rewrite Z.sub_diag, Z.add_0_r.
    + unfold bc_end. simpl. lia.
    + split; simpl; lia.
    + intros c. unfold stat_bump. rewrite Hs. case_decide as E1; case_decide as E2; subst; (done || lia).
    + intros c. unfold stat_bump. rewrite Hs, Hsg. case_decide; lia.
  - rewrite Hc. unfold cut. by rewrite Z.sub_diag, Z.add_0_r.
  - intros i Hi. by rewrite Hh, lookup_insert_ne.
  - rewrite Hh, lookup_insert_eq. unfold mb'. do 2 f_equal; lia.
  - done.
  - done.
Qed.

Lemma trim_chunk_left_spec pin s m1 k bc m2 mb n :
  invp pin s → chunkmap s = m1 ++ (k, bc) :: m2 →
  membufs s !! bc_alloc_buffer bc = Some mb → safe_mb mb = true →
  0 < n < bc_length bc →
  wp (trim_chunk_left k n) s (λ k' s',
    k' = bc_offset bc + n ∧ invp pin s' ∧ chunk_trimmed bc mb k'
      (Chunk (bc_alloc_buffer bc) k' (bc_length bc - n) (bc_buffer_offset bc + n) 0 0 true false)
      m1 m2 s s').
Proof.
  intros Hinv Hsplit Hid Hsafe Hn. destruct (inv_heap _ _ Hinv _ _ Hid) as [Hwf _].
  unfold safe_mb in Hsafe. apply andb_true_iff in Hsafe as [[Hiu%negb_true_iff Hd%negb_true_iff]%andb_true_iff Hcp%negb_true_iff].
  pose proof (not_inuse_not_flushing _ Hwf Hiu) as Hfl.
  assert ((k, bc) ∈ chunkmap s) as Hin by (rewrite Hsplit, elem_of_app, elem_of_cons; tauto).
  destruct (inv_link _ _ Hinv _ _ Hin) as (mb0 & Hmb0 & [Hlo Hll Hlb]). simplify_eq.
  pose proof (inv_wf _ _ Hinv) as Hw. rewrite Hsplit in Hw.
  assert (∀ k' bc', (k', bc') ∈ m1 → k' < k) as Hlt by (intros ? ? ?; by eapply cm_wf_keys_lt).
  assert (∀ k' bc', (k', bc') ∈ m2 → bc_end bc ≤ k') as Hgt by (intros ? ? ?; by eapply cm_wf_keys_gt).
  destruct (inv_chunk_bounds _ _ Hinv _ _ Hin) as (-> & _ & _ & _). unfold bc_end in *.
  set (mb' := mb_set_range (mb_offset mb + n) (mb_length mb - n) mb).
  assert (mb_wf mb') as Hwf'. { destruct Hwf; split; simpl; (done || lia). }
  pose proof (inv_refs _ _ Hinv _ _ Hid) as Hr.
  unfold trim_chunk_left. wp_step. eapply chunk_at_spec; [done|exact Hin|]. cbv zeta.
  wp_step. wp_step. rewrite Hsplit, cm_update_split by done.
  unfold put_chunkmap. wp_step. wp_step. wp_step. eapply wp_mono.
  { apply (trim_spec _ _ mb); simpl; try done; try lia. intros c.
    split; [by eapply inv_weight_le|apply (inv_g _ _ Hinv)]. }
  simpl. fold mb'. intros _ s1 Hu1.
  pose proof (inv_cached _ _ Hinv) as Hca. rewrite Hsplit, cm_bytes_app in Hca. simpl in Hca.
  pose proof (cm_bytes_le _ _ (cm_wf_remove _ _ _ _ _ Hw)) as Hbl. rewrite cm_bytes_app in Hbl.
  pose proof (inv_g _ _ Hinv bytes_cached). destruct (inv_mem _ _ Hinv) as [Hnm Hfd].
  destruct Hu1 as [_ Hh1 Hs1 Hg1 Hc1 Hn1 Hf1 Hm1 _ Hz1]. simpl in *.
  wp_step. apply stat_sub_wp. { rewrite Hs1. simpl. lia. } { rewrite Hg1. simpl. lia. }
  unfold chunkmap_emplace. wp_step. wp_step. eapply wp_mono.
  { eapply (bytes_chunk_view_raw _ _ mb'); simpl; try done; try lia; try congruence.
    rewrite Hh1. apply lookup_insert_eq. }
  simpl. intros bc2 s2 [-> Hu2]. destruct Hu2 as [_ Hh2 Hs2 Hg2 Hc2 Hn2 Hf2 Hm2 _ Hz2]. simpl in *.
  wp_step. wp_step. rewrite Hc2, Hc1.
  change (m1 ++ (bc_offset bc, ?x) :: m2) with (m1 ++ [(bc_offset bc, x)] ++ m2). rewrite app_assoc.
  rewrite cm_try_emplace_split.
  2: { intros k' bc' [?|?%list_elem_of_singleton]%elem_of_app; [|simplify_eq; lia].
       pose proof (Hlt k' bc'). naive_solver lia. }
  2: { intros k' bc' Hin'. pose proof (Hgt _ _ Hin'). lia. }
  wp_asserts done. unfold put_chunkmap. wp_step. wp_step. unfold chunkmap_erase, chunk_at. wp_step. wp_step. wp_step.
  rewrite <- app_assoc. simpl. wp_step. { by apply cm_lookup_split. }
  wp_step. wp_step. wp_step. simpl. rewrite cm_erase_split by done. unfold put_chunkmap. wp_step.
  unfold bytes_chunk_dtor, shared_ptr_reset. simpl. wp_step. eapply get_membuf_wp.
  { simpl. rewrite Hh2. apply lookup_insert_eq. }
  simpl. destruct (Z.eqb_spec (mb_use_count mb + 1) 1); [lia|].
  unfold put_membuf. wp_step. wp_step. split; [done|]. simpl.
  assert (∀ c, weight c (mb_set_use_count (mb_use_count mb + 1) mb') = weight c mb') as Hw2 by (by intros []).
  split; [|split; simpl; [done| | |congruence|congruence]].
  - eapply (inv_trim pin s _ m1 _ bc m2 mb (bc_offset bc + n)
      (Chunk (bc_alloc_buffer bc) (bc_offset bc + n) (bc_length bc - n) (bc_buffer_offset bc + n) 0 0 true false)
      (mb_set_use_count (mb_use_count mb + 1 - 1) mb') n); simpl; try done; try lia; try congruence.
    + by rewrite Hh2, Hh1, !insert_insert_eq.
    + unfold bc_end. simpl. lia.
    + split; simpl; lia.
    + by destruct Hwf'; split.
    + intros c. rewrite Hs2, Hw2. unfold stat_bump. rewrite Hs1.
      assert (weight c (mb_set_use_count (mb_use_count mb + 1 - 1) mb') = weight c mb') as -> by (by destruct c).
      repeat case_decide; subst; (done || lia).
    + intros c. rewrite Hs2, Hg2, Hw2. unfold stat_bump. rewrite Hs1, Hg1. case_decide; lia.
  - intros i Hi. rewrite Hh2, Hh1, !lookup_insert_ne by done. done.
  - rewrite lookup_insert_eq. unfold mb', mb_set_use_count, mb_set_range. simpl. do 2 f_equal; lia.
Qed.

(** ** Adding a chunk *)
Section map.
Context (pin : gset nat) (s : cache) (Hinv : invp pin s).
Context (m1 m2 : cmap) (Hsplit : chunkmap s = m1 ++ m2).
Context (bc : bytes_chunk) (mb : membuf) (Hid : membufs s !! bc_alloc_buffer bc = Some mb).
Context (Hout : in_map (bc_alloc_buffer bc) (chunkmap s) = false) (Hlk : linked bc mb).
Context (Hlo : ∀ k c, (k, c) ∈ m1 → bc_end c ≤ bc_offset bc).
Context (Hhi : ∀ k c, (k, c) ∈ m2 → bc_end bc ≤ k) (Hnew : plain bc).

Lemma gap_bounds : 0 ≤ bc_offset bc ∧ 0 < bc_length bc ∧ bc_end bc ≤ AZNFSC_MAX_FILE_SIZE.
Proof.
  destruct Hlk as [Ho Hl _]. destruct (inv_heap _ _ Hinv _ _ Hid) as [Hwf _]. destruct Hwf.
  unfold bc_end. lia.
Qed.

Lemma last_end_le lo m x : lo ≤ x → (∀ k c, (k, c) ∈ m → bc_end c ≤ x) → cm_last_end lo m ≤ x.
Proof.
  revert lo. induction m as [|[k c] m IH]; intros lo Hx Hm; simpl; [done|].
  apply IH; [eapply Hm; by left|]. intros. eapply Hm. by right.
Qed.

Lemma cm_wf_map : cm_wf 0 (m1 ++ (bc_offset bc, bc) :: m2).
Proof.
  pose proof gap_bounds as (? & ? & ?). apply cm_wf_insert; try done.
  - rewrite <- Hsplit. apply (inv_wf _ _ Hinv).
  - by apply last_end_le.
Qed.

Definition mapped : cache :=
  c_bump bytes_cached (bc_length bc) (c_bump num_chunks 1
    (c_set_chunkmap (m1 ++ (bc_offset bc, bc) :: m2) s)).

Lemma inv_map_chunk : 1 + Z.b2z (held_out pin (bc_alloc_buffer bc) mb) ≤ mb_use_count mb → invp pin mapped.
Proof.
  intros Huc. pose proof gap_bounds as (H0 & Hl & He). rewrite Hsplit in Hout.
  split; simpl; try apply Hinv.
  - apply cm_wf_map.
  - rewrite cm_last_end_app. simpl. apply last_end_le; [done|]. intros k c Hin.
    apply (inv_chunk_bounds _ _ Hinv k c). rewrite Hsplit, elem_of_app. by right.
  - apply ids_nodup_insert; [|done]. rewrite <- Hsplit. apply (inv_ids _ _ Hinv).
  - intros k c [Hin|[Heq|Hin]%elem_of_cons]%elem_of_app.
    + apply (inv_link _ _ Hinv k). rewrite Hsplit, elem_of_app. by left.
    + simplify_eq. eauto.
    + apply (inv_link _ _ Hinv k). rewrite Hsplit, elem_of_app. by right.
  - intros i x Hx. pose proof (inv_refs _ _ Hinv i x Hx) as Hr. rewrite in_map_middle, <- Hsplit.
    destruct (decide (i = bc_alloc_buffer bc)) as [->|Hne].
    + rewrite bool_decide_true by done. simplify_eq. simpl. lia.
    + rewrite bool_decide_false by done. done.
  - intros k Hk. rewrite <- (inv_st _ _ Hinv k Hk). destruct k; try done; by bumps.
  - bumps. rewrite (inv_num _ _ Hinv), Hsplit, !length_app. simpl. lia.
  - bumps. rewrite (inv_cached _ _ Hinv), Hsplit, !cm_bytes_app. simpl. lia.
  - intros k. pose proof (inv_pos _ _ Hinv k). unfold stat_bump. repeat case_decide; lia.
  - intros k. pose proof (inv_g _ _ Hinv k). unfold stat_bump. repeat case_decide; lia.
  - intros i Hi. rewrite in_map_middle, <- Hsplit, (inv_pin _ _ Hinv) by done. apply orb_true_r.
  - intros k c [Hin|[Heq|Hin]%elem_of_cons]%elem_of_app.
    + apply (inv_plain _ _ Hinv k). rewrite Hsplit, elem_of_app. by left.
    + by simplify_eq.
    + apply (inv_plain _ _ Hinv k). rewrite Hsplit, elem_of_app. by right.
Qed.
End map.

Lemma add_chunk_spec pin s m1 m2 id off len boff mb :
  invp pin s → chunkmap s = m1 ++ m2 → membufs s !! id = Some mb →
  in_map id (chunkmap s) = false → linked (Chunk id off len boff 0 0 true false) mb →
  (∀ k c, (k, c) ∈ m1 → bc_end c ≤ off) → (∀ k c, (k, c) ∈ m2 → off + len ≤ k) →
  wp (add_chunk off len boff id) s (λ _ s', invp pin s' ∧
    chunkmap s' = m1 ++ (off, Chunk id off len boff 0 0 true false) :: m2 ∧
    membufs s' = <[id := mb_set_use_count (mb_use_count mb + 1) mb]> (membufs s) ∧
    next_id s' = next_id s).
Proof.
  intros Hinv Hsplit Hid Hout Hlk Hlo Hhi. destruct (inv_heap _ _ Hinv _ _ Hid) as [Hwf _].
  pose proof (inv_refs _ _ Hinv _ _ Hid) as Hr. rewrite Hout in Hr. simpl in Hr.
  destruct Hlk as [Ho Hl Hb]. simpl in Ho, Hl, Hb. pose proof (wf_length _ Hwf).
  unfold add_chunk, chunkmap_emplace. wp_step. wp_step. eapply wp_mono.
  { eapply (bytes_chunk_view_spec pin s id mb); try done; lia. }
  simpl. intros bc s1 (-> & Hinv1 & [_ Hh _ _ Hc Hn _ _ _ _]).
  wp_step. wp_step. rewrite Hc, Hsplit, cm_try_emplace_split.
  2: { intros k c Hin. specialize (Hlo _ _ Hin).
       destruct (inv_chunk_bounds _ _ Hinv k c) as (-> & ? & ? & _); [rewrite Hsplit, elem_of_app; by left|].
       unfold bc_end in *. lia. }
  2: { intros k c Hin. specialize (Hhi _ _ Hin). lia. }
  wp_asserts done. unfold put_chunkmap, stat_add. repeat wp_step. split_and!; try done.
  apply (inv_map_chunk pin s1 Hinv1 m1 m2 ltac:(congruence)
    (Chunk id off len boff 0 0 true false) (mb_set_use_count (mb_use_count mb + 1) mb)); simpl; try done.
  - rewrite Hh. apply lookup_insert_eq.
  - by rewrite Hc.
  - change (held_out pin id (mb_set_use_count _ mb)) with (held_out pin id mb). lia.
Qed.
