(* ===== verification/Purge.v ===== *)
(** * Purging and pruning

    [clear_nolock()] (run by a pending invalidation and by [clear()]) and
    [inline_prune()].  Both drop only chunks nobody uses and whose data is safe
    on the server; the purge drops all of them. *)
From S2P Require Import Prelude CacheState Membuf MembufSpec ChunkMap FileCache CacheInv CacheOps.

(** The chunk may be dropped from the cache. *)
Definition purgeable_mb (mb : membuf) : bool := safe_mb mb && negb (mb_has Locked mb).

Definition purgeable (s : cache) (p : Z * bytes_chunk) : bool :=
  match membufs s !! bc_alloc_buffer p.2 with
  | Some mb => purgeable_mb mb
  | None => false
  end.

(** [s'] results from [s] by dropping purgeable chunks. *)
Record purged (s s' : cache) : Prop := {
  pu_inv : inv s';
  pu_sub : ∀ p, p ∈ chunkmap s' → p ∈ chunkmap s;
  pu_drop : ∀ p, p ∈ chunkmap s → p ∉ chunkmap s' → purgeable s p = true;
  pu_heap : ∀ i, (∀ p, p ∈ chunkmap s → bc_alloc_buffer p.2 = i → p ∈ chunkmap s') →
    membufs s' !! i = membufs s !! i;
}.

Lemma purgeable_spec s k c mb :
  membufs s !! bc_alloc_buffer c = Some mb → purgeable s (k, c) = true ↔
  mb_is_inuse mb = false ∧ mb_has Dirty mb = false ∧ mb_has CommitPending mb = false ∧
  mb_has Locked mb = false.
Proof.
  intros Hmb. unfold purgeable, purgeable_mb, safe_mb. simpl. rewrite Hmb.
  rewrite !andb_true_iff, !negb_true_iff. tauto.
Qed.

(** ** The loop: chunks of [rest] are still to be visited *)
Record visiting (s0 : cache) (keep : cmap) (rest : cmap) (s : cache) : Prop := {
  v_inv : inv s;
  v_map : chunkmap s = keep ++ rest;
  v_heap : ∀ i, (∀ p, p ∈ chunkmap s0 → bc_alloc_buffer p.2 = i → p ∈ keep ++ rest) →
    membufs s !! i = membufs s0 !! i;
  v_sub : ∀ p, p ∈ keep → p ∈ chunkmap s0;
  v_drop : ∀ p, p ∈ chunkmap s0 → p ∉ keep ++ rest → purgeable s0 p = true;
  v_rest : ∃ pre, chunkmap s0 = pre ++ rest;
}.

Section visit.
Context (s0 : cache) (Hinv0 : inv s0).

Lemma visit_init : visiting s0 [] (chunkmap s0) s0.
Proof. split; try done; [by intros ? ?%elem_of_nil|by exists []]. Qed.

(** The visited chunk and its membuf, unchanged since the start. *)
Lemma visit_head keep k c rest s :
  visiting s0 keep ((k, c) :: rest) s → ∃ mb,
    (k, c) ∈ chunkmap s ∧ (k, c) ∈ chunkmap s0 ∧ membufs s !! bc_alloc_buffer c = Some mb ∧
    membufs s0 !! bc_alloc_buffer c = Some mb ∧ linked c mb ∧ mb_wf mb.
Proof.
  intros [Hinv Hm Hheap Hsub Hdrop [pre Hpre]].
  assert ((k, c) ∈ chunkmap s) as Hin by (rewrite Hm, elem_of_app, elem_of_cons; tauto).
  assert ((k, c) ∈ chunkmap s0) as Hin0 by (rewrite Hpre, elem_of_app, elem_of_cons; tauto).
  destruct (inv_chunk _ _ Hinv _ _ Hin) as (mb & Hmb & Hl & Hwf). exists mb.
  split_and!; try done. rewrite <- Hmb. symmetry. apply Hheap. intros [k' c'] Hp Heq. simpl in Heq.
  assert ((k', c') = (k, c)) as -> by (by eapply (ids_inj (chunkmap s0)); [apply (inv_ids _ _ Hinv0)|..]).
  rewrite elem_of_app, elem_of_cons. tauto.
Qed.

Lemma visit_keep keep p rest s : visiting s0 keep (p :: rest) s → visiting s0 (keep ++ [p]) rest s.
Proof.
  intros [Hinv Hm Hheap Hsub Hdrop [pre Hpre]]. split; try done.
  - by rewrite <- app_assoc.
  - intros i. rewrite <- app_assoc. apply Hheap.
  - intros q [?| ->%list_elem_of_singleton]%elem_of_app; [by apply Hsub|].
    rewrite Hpre, elem_of_app, elem_of_cons. tauto.
  - intros q. rewrite <- app_assoc. apply Hdrop.
  - exists (pre ++ [p]). by rewrite <- app_assoc.
Qed.

Lemma visit_drop keep k c rest s :
  visiting s0 keep ((k, c) :: rest) s → purgeable s0 (k, c) = true →
  wp (remove_chunk k c) s (λ _ s', visiting s0 keep rest s').
Proof.
  intros Hv Hp. destruct (visit_head _ _ _ _ _ Hv) as (mb & Hin & Hin0 & Hmb & Hmb0 & _).
  destruct Hv as [Hinv Hm Hheap Hsub Hdrop [pre Hpre]].
  destruct (proj1 (purgeable_spec s0 k c mb Hmb0) Hp) as (Hiu & Hd & Hcp & Hlk).
  eapply wp_mono.
  { eapply remove_chunk_spec; [done|exact Hm|set_solver|exact Hmb|]. intros _. split; [done|congruence]. }
  simpl. intros _ s' [Hinv' [Hm' Hother _]]. split; try done.
  - intros i Hi. destruct (decide (i = bc_alloc_buffer c)) as [->|Hne].
    + assert ((k, c) ∈ keep ++ rest) as Hin1 by (by apply (Hi (k, c))).
      pose proof (inv_ids _ _ Hinv) as Hnd. rewrite Hm in Hnd.
      apply ids_nodup_middle in Hnd as [_ Hout]. apply bool_decide_eq_false in Hout.
      destruct Hout. apply elem_of_ids. eauto.
    + rewrite Hother by done. apply Hheap. intros p Hp1 Heq. specialize (Hi _ Hp1 Heq).
      rewrite elem_of_app in *. rewrite elem_of_cons. tauto.
  - intros p Hp0 Hn. destruct (decide (p = (k, c))) as [->|Hne]; [done|]. apply Hdrop; [done|].
    rewrite elem_of_app, elem_of_cons in *. tauto.
  - exists (pre ++ [(k, c)]). by rewrite <- app_assoc.
Qed.

Lemma visiting_purged keep rest s : visiting s0 keep rest s → purged s0 s.
Proof.
  intros [Hinv Hm Hheap Hsub Hdrop [pre Hpre]]. split; rewrite ?Hm; try done.
  intros p [?|?]%elem_of_app; [by apply Hsub|]. rewrite Hpre, elem_of_app. tauto.
Qed.
End visit.

(** ** clear_nolock *)
Section clear.
Context (s0 : cache) (Hinv0 : inv s0).

Abbreviation kept := (filter (λ p, purgeable s0 p = false)).

Lemma clear_one_spec keep k c rest s :
  visiting s0 keep ((k, c) :: rest) s →
  wp (clear_one false k) s (λ _ s', visiting s0 (keep ++ kept [(k, c)]) rest s').
Proof.
  intros Hv. destruct (visit_head _ Hinv0 _ _ _ _ _ Hv) as (mb & Hin & _ & Hmb & Hmb0 & _ & Hwf).
  pose proof (v_inv _ _ _ _ Hv) as Hinv. pose proof (purgeable_spec s0 k c mb Hmb0) as Hsp.
  assert (purgeable s0 (k, c) = false → wp (mret ()) s
    (λ _ s', visiting s0 (keep ++ kept [(k, c)]) rest s')) as Hskip.
  { intros Hp. rewrite filter_cons_True by done. wp_step. by apply visit_keep. }
  unfold clear_one. wp_step. eapply chunk_at_spec; [done|exact Hin|].
  wp_step. eapply get_membuf_wp; [exact Hmb|]. simpl. unfold is_inuse, is_locked.
  destruct (mb_is_inuse mb) eqn:Hiu.
  { apply Hskip. apply not_true_iff_false. rewrite Hsp. naive_solver. }
  wp_asserts done. destruct (mb_has Locked mb) eqn:Hlk.
  { apply Hskip. apply not_true_iff_false. rewrite Hsp. naive_solver. }
  wp_asserts done. wp_step. apply is_dirty_wp; [done|]. destruct (mb_has Dirty mb) eqn:Hd.
  { apply Hskip. apply not_true_iff_false. rewrite Hsp. naive_solver. }
  wp_step. apply is_commit_pending_wp; [done|]. destruct (mb_has CommitPending mb) eqn:Hcp.
  { apply Hskip. apply not_true_iff_false. rewrite Hsp. naive_solver. }
  wp_step. eapply safe_to_release_wp; [exact Hmb|done|]. unfold safe_mb. rewrite Hiu, Hd, Hcp.
  wp_asserts done. assert (purgeable s0 (k, c) = true) as Hp by (by rewrite Hsp).
  rewrite filter_cons_False, app_nil_r by (by rewrite Hp). by apply (visit_drop s0).
Qed.

Lemma clear_loop rest : ∀ keep s,
  visiting s0 keep rest s →
  wp (mfor rest.*1 (clear_one false)) s (λ _ s', visiting s0 (keep ++ kept rest) [] s').
Proof.
  induction rest as [|[k c] rest IH]; intros keep s Hv; simpl.
  - wp_step. by rewrite app_nil_r.
  - wp_step. eapply wp_mono; [by apply clear_one_spec|]. cbv beta. intros _ s' Hv'.
    eapply wp_mono; [by apply IH|]. cbv beta. intros _ s'' Hv''.
    by rewrite <- app_assoc, <- filter_app in Hv''.
Qed.

(** Dirty and commit-pending data is allocated data. *)
Lemma unsafe_le_alloc i mb :
  membufs s0 !! i = Some mb →
  weight bytes_dirty mb + weight bytes_commit_pending mb ≤ weight bytes_allocated mb.
Proof.
  intros [Hwf _]%(inv_heap _ _ Hinv0). pose proof (wf_fits _ Hwf). pose proof (wf_offset _ Hwf).
  pose proof (wf_length _ Hwf). pose proof (wf_alloc _ Hwf). simpl.
  destruct (mb_has Dirty mb) eqn:Hd; [apply (wf_dirty _ Hwf) in Hd as [_ ->]; lia|].
  destruct (mb_has CommitPending mb); lia.
Qed.

Lemma unsafe_bytes_le : st s0 bytes_dirty + st s0 bytes_commit_pending ≤ st s0 bytes_allocated.
Proof.
  rewrite !(inv_st _ _ Hinv0) by done. rewrite <- msum_add. apply msum_mono, unsafe_le_alloc.
Qed.

(** When dirty and commit-pending bytes make up the whole cache, no chunk can
    be dropped: the early return of the purge misses nothing. *)
Lemma all_unsafe p :
  st s0 bytes_dirty + st s0 bytes_commit_pending = st s0 bytes_allocated →
  p ∈ chunkmap s0 → purgeable s0 p = false.
Proof.
  intros Heq Hin. destruct p as [k c]. destruct (inv_chunk _ _ Hinv0 _ _ Hin) as (mb & Hmb & _ & Hwf).
  rewrite !(inv_st _ _ Hinv0) in Heq by done. rewrite <- msum_add in Heq.
  pose proof (msum_eq_pointwise _ _ _ unsafe_le_alloc Heq _ _ Hmb) as He. simpl in He.
  pose proof (wf_length _ Hwf). pose proof (wf_fits _ Hwf). pose proof (wf_offset _ Hwf).
  pose proof (wf_alloc _ Hwf). apply not_true_iff_false. rewrite (purgeable_spec _ _ _ _ Hmb).
  intros (_ & Hd & Hcp & _). rewrite Hd, Hcp in He. lia.
Qed.

Lemma purged_refl : purged s0 s0.
Proof. by split. Qed.

Lemma clear_nolock_spec :
  wp (clear_nolock false) s0 (λ _ s', purged s0 s' ∧ chunkmap s' = kept (chunkmap s0)).
Proof.
  pose proof (inv_g _ _ Hinv0 bytes_allocated). pose proof (inv_g _ _ Hinv0 bytes_cached).
  pose proof unsafe_bytes_le. unfold clear_nolock. wp_step. wp_step. wp_asserts cmp. simpl.
  destruct (Z.eqb_spec (st s0 bytes_dirty + st s0 bytes_commit_pending) (st s0 bytes_allocated)) as [Heq|_].
  { wp_step. split; [by apply purged_refl|]. symmetry. apply filter_all.
    intros p Hp. by apply all_unsafe. }
  wp_step. eapply wp_mono; [by apply (clear_loop _ []), visit_init|]. cbv beta. intros _ s' Hv. simpl in Hv.
  pose proof (v_inv _ _ _ _ Hv) as Hinv. pose proof (v_map _ _ _ _ Hv) as Hm. rewrite app_nil_r in Hm.
  pose proof (visiting_purged _ _ _ _ Hv) as Hpu.
  wp_step. wp_step. destruct (chunkmap s') as [|[k c] m] eqn:Hm'.
  - wp_step; [|split; [done|congruence]]. rewrite (inv_cached _ _ Hinv), Hm'. done.
  - assert ((k, c) ∈ chunkmap s') as Hin by (rewrite Hm'; by left).
    destruct (inv_chunk _ _ Hinv _ _ Hin) as (mb & Hmb & _ & Hwf).
    pose proof (inv_weight_le _ _ Hinv _ mb bytes_allocated Hmb) as Hw. simpl in Hw.
    pose proof (wf_length _ Hwf). pose proof (wf_fits _ Hwf). pose proof (wf_offset _ Hwf).
    pose proof (wf_alloc _ Hwf). wp_asserts done. wp_step; [apply Z.ltb_lt; lia|split; [done|congruence]].
Qed.
End clear.

(** *** The purge when the file is closed *)

(** No data that is still to be written or committed is in a chunk that only the chunkmap
    refers to: the destructor of its membuf asserts that it is not dirty, and does not take
    what waits for a commit out of [bytes_commit_pending]. *)
Definition last_safe (s : cache) : Prop := ∀ k bc mb, (k, bc) ∈ chunkmap s → membufs s !! bc_alloc_buffer bc = Some mb →
  mb_use_count mb = 1 → mb_has CommitPending mb = false ∧ (mb_has Dirty mb = true → mb_has Truncated mb = true).

Lemma remove_first s k c rest :
  inv s → last_safe s → chunkmap s = (k, c) :: rest →
  wp (remove_chunk k c) s (λ _ s', inv s' ∧ last_safe s' ∧ chunkmap s' = rest).
Proof.
  intros Hinv Hsafe Hm. assert ((k, c) ∈ chunkmap s) as Hin by (rewrite Hm; by left).
  destruct (inv_chunk _ _ Hinv _ _ Hin) as (mb & Hmb & _).
  eapply wp_mono; [eapply (remove_chunk_spec ∅ s [] k c rest mb); [done|exact Hm|set_solver|done|by eapply Hsafe]|].
  cbv beta. intros _ s' [Hinv' [Hm' Hother _ _]]. split_and!; [done| |done]. intros k' bc x Hx Hxm.
  pose proof (inv_ids _ _ Hinv) as Hnd. rewrite Hm in Hnd. apply NoDup_cons in Hnd as [Hnd _]. rewrite Hm' in Hx. simpl in Hx.
  rewrite Hother in Hxm; [|intros Heq; apply Hnd; simpl; rewrite <- Heq; apply elem_of_ids; eauto].
  eapply Hsafe; [|done]. rewrite Hm. by right.
Qed.

Lemma clear_all_loop rest : ∀ s,
  inv s → last_safe s → chunkmap s = rest → wlp (mfor rest.*1 (clear_one true)) s (λ _ s', inv s').
Proof.
  induction rest as [|[k c] rest IH]; intros s Hinv Hsafe Hm; cbn [mfor fmap list_fmap fst]; [by wlp_step|].
  assert ((k, c) ∈ chunkmap s) as Hin by (rewrite Hm; by left).
  destruct (inv_chunk _ _ Hinv _ _ Hin) as (mb & Hmb & _ & Hwf).
  wlp_step. unfold clear_one. wlp_step. apply wp_wlp. eapply chunk_at_spec; [done|exact Hin|].
  wlp_step. apply wp_wlp. eapply get_membuf_wp; [exact Hmb|]. simpl. do 4 wlp_step.
  wlp_step. apply wp_wlp, is_dirty_wp; [done|]. wlp_step. apply wp_wlp, is_commit_pending_wp; [done|].
  wlp_step. apply wp_wlp. eapply safe_to_release_wp; [exact Hmb|done|]. do 2 wlp_step.
  eapply wlp_mono; [by apply wp_wlp, remove_first|]. cbv beta. intros _ s' (? & ? & ?). by apply IH.
Qed.

Lemma clear_all_inv s : inv s → last_safe s → wlp (clear_nolock true) s (λ _ s', inv s').
Proof.
  intros Hinv Hsafe. unfold clear_nolock. do 8 wlp_step. simpl. wlp_step. eapply wlp_mono; [by apply clear_all_loop|].
  cbv beta. intros _ s' Hinv'. do 2 wlp_step. case_match; repeat wlp_step; done.
Qed.

(** ** inline_prune *)
Section prune.
Context (s0 : cache) (Hinv0 : inv s0) (prune_goal : Z → Z → Z) (in_ra_window : Z → Z → bool).

(** The chunk is protected by the readahead window. *)
Definition in_window (p : Z * bytes_chunk) : bool := in_ra_window (bc_offset p.2) (bc_length p.2).

(** Bytes freed by dropping the chunks of [m]. *)
Fixpoint freed (m : cmap) : Z :=
  match m with
  | [] => 0
  | (_, c) :: m' =>
      match membufs s0 !! bc_alloc_buffer c with Some mb => mb_allocated_length mb | None => 0 end
      + freed m'
  end.

(** What the prune keeps of [m], having [goal] bytes left to free. *)
Fixpoint pruned_map (m : cmap) (goal : Z) : cmap :=
  match m with
  | [] => []
  | p :: m' =>
      if 0 <? goal then
        if in_window p || negb (purgeable s0 p) then p :: pruned_map m' goal
        else pruned_map m' (goal - freed [p])
      else m
  end.

Lemma prune_loop_spec rest : ∀ keep s inline done,
  visiting s0 keep rest s →
  wp (prune_loop in_ra_window rest.*1 inline done) s (λ _ s',
    purged s0 s' ∧ chunkmap s' = keep ++ pruned_map rest (inline - done)).
Proof.
  induction rest as [|[k c] rest IH]; intros keep s inline done Hv; simpl.
  { wp_step. split; [by eapply visiting_purged|]. apply (v_map _ _ _ _ Hv). }
  assert ((0 <? inline - done) = (done <? inline)) as ->.
  { apply Bool.eq_iff_eq_true. rewrite !Z.ltb_lt. lia. }
  destruct (done <? inline).
  2: { wp_step. split; [by eapply visiting_purged|]. apply (v_map _ _ _ _ Hv). }
  destruct (visit_head _ Hinv0 _ _ _ _ _ Hv) as (mb & Hin & _ & Hmb & Hmb0 & [Ho Hl _] & Hwf).
  pose proof (v_inv _ _ _ _ Hv) as Hinv. pose proof (purgeable_spec s0 k c mb Hmb0) as Hsp.
  unfold in_window at 1. simpl. rewrite Ho, Hl, Hmb0.
  assert (wp (prune_loop in_ra_window rest.*1 inline done) s (λ _ s',
    purged s0 s' ∧ chunkmap s' = keep ++ (k, c) :: pruned_map rest (inline - done))) as Hskip.
  { eapply wp_mono; [by apply IH, visit_keep|]. cbv beta. intros _ s' [? Hm].
    by rewrite <- app_assoc in Hm. }
  assert (¬ (mb_is_inuse mb = false ∧ mb_has Dirty mb = false ∧ mb_has CommitPending mb = false ∧
    mb_has Locked mb = false) → purgeable s0 (k, c) = false) as Hnp.
  { rewrite <- Hsp. apply not_true_is_false. }
  wp_step. eapply chunk_at_spec; [done|exact Hin|]. wp_step. eapply get_membuf_wp; [exact Hmb|].
  destruct (in_ra_window (mb_offset mb) (mb_length mb)); simpl; [done|].
  unfold is_inuse, is_locked. destruct (mb_is_inuse mb); [rewrite Hnp; [done|naive_solver]|].
  destruct (mb_has Locked mb); [rewrite Hnp; [done|naive_solver]|].
  wp_step. apply is_dirty_wp; [done|]. destruct (mb_has Dirty mb); [rewrite Hnp; [done|naive_solver]|].
  wp_step. apply is_commit_pending_wp; [done|].
  destruct (mb_has CommitPending mb); [rewrite Hnp; [done|naive_solver]|].
  assert (purgeable s0 (k, c) = true) as Hp by (by apply Hsp). rewrite Hp. simpl.
  wp_step. eapply wp_mono; [by apply (visit_drop s0)|]. cbv beta. intros _ s' Hv'.
  eapply wp_mono; [by apply IH|]. cbv beta. intros _ s'' [? ->]. split; [done|].
  do 2 f_equal. lia.
Qed.

(** A prune with nothing to do keeps everything. *)
Definition pruned (m : cmap) (goal : Z) : cmap := if goal =? 0 then m else pruned_map m goal.

Lemma inline_prune_spec :
  wp (inline_prune prune_goal in_ra_window) s0 (λ _ s', purged s0 s' ∧
    chunkmap s' = pruned (chunkmap s0) (prune_goal (st s0 bytes_allocated) (st_g s0 bytes_allocated))).
Proof.
  unfold inline_prune, pruned. wp_step. wp_step. case_match.
  - wp_step. split; [by apply purged_refl|done].
  - wp_step. eapply wp_mono; [by apply (prune_loop_spec _ []), visit_init|]. cbv beta. simpl.
    intros _ s' [? Hm]. wp_step. split; [done|]. by rewrite Hm, Z.sub_0_r.
Qed.
End prune.

(** ** Composition *)
Lemma purged_chunk s s' k c :
  purged s s' → (k, c) ∈ chunkmap s → NoDup (ids (chunkmap s)) → (k, c) ∈ chunkmap s' →
  membufs s' !! bc_alloc_buffer c = membufs s !! bc_alloc_buffer c.
Proof.
  intros Hp Hin Hnd Hin'. apply (pu_heap _ _ Hp). intros [k' c'] Hq Heq. simpl in Heq.
  enough ((k', c') = (k, c)) as -> by done. by eapply ids_inj.
Qed.

Lemma purged_trans s1 s2 s3 : inv s1 → purged s1 s2 → purged s2 s3 → purged s1 s3.
Proof.
  intros Hinv H12 H23. split.
  - apply (pu_inv _ _ H23).
  - intros p Hp. by apply (pu_sub _ _ H12), (pu_sub _ _ H23).
  - intros [k c] Hin Hn. destruct (decide ((k, c) ∈ chunkmap s2)) as [H2|H2]; [|by apply (pu_drop _ _ H12)].
    pose proof (pu_drop _ _ H23 _ H2 Hn) as Hp. unfold purgeable in *. simpl in *.
    by rewrite (purged_chunk s1 s2 k c H12 Hin (inv_ids _ _ Hinv) H2) in Hp.
  - intros i Hi. rewrite (pu_heap _ _ H23), (pu_heap _ _ H12); [done| |].
    + intros p Hp Heq. by apply (pu_sub _ _ H23), Hi.
    + intros p Hp Heq. apply Hi; [by apply (pu_sub _ _ H12)|done].
Qed.

(** [purged] only looks at the chunkmap and the heap of its first state. *)
Lemma purged_same s s1 s' :
  chunkmap s1 = chunkmap s → membufs s1 = membufs s → purged s1 s' → purged s s'.
Proof.
  intros Hc Hm Hp. destruct Hp as [Hi Hs Hd Hh]. unfold purgeable in *. rewrite Hc, Hm in *. by split.
Qed.
