(* ===== verification/ScanGet.v ===== *)
(** * scan(SCAN_ACTION_GET): the cache lookup

    [get()] and [getx()] return a list of chunks that tile the requested range
    exactly; bytes that were cached keep their place, the others get fresh
    membufs; every returned membuf is inuse; and no assertion fails.  The proof
    follows the code: the loop builds the vector ([get_st]), the final pass
    inserts the new chunks ([ins_st]). *)
From S2P Require Import Prelude CacheState Membuf MembufSpec ChunkMap FileCache CacheInv CacheOps.

(** One turn of the loop. *)
Lemma scan_for_S fuel a offset len x k :
  remaining_length (s_cur x) ≠ 0 → it (s_cur x) = Some k →
  scan_for (S fuel) a offset len x =
  bind (scan_iter a offset len k x) (scan_for fuel a offset len).
Proof. intros Hr Hit. simpl. by rewrite (proj2 (Z.eqb_neq _ _) Hr), Hit. Qed.

(** The vector [v] tiles [a, b). *)
Fixpoint covers (v : list bytes_chunk) (a b : Z) : Prop :=
  match v with
  | [] => a = b
  | bc :: v' => bc_offset bc = a ∧ 0 < bc_length bc ∧ covers v' (bc_end bc) b
  end.

Lemma covers_snoc v a b bc :
  covers v a b → bc_offset bc = b → 0 < bc_length bc → covers (v ++ [bc]) a (bc_end bc).
Proof.
  revert a. induction v as [|c v IH]; intros a; simpl; [intros ->; naive_solver|].
  intros (? & ? & ?) ? ?. naive_solver.
Qed.

Lemma covers_le v a b : covers v a b → a ≤ b.
Proof.
  revert a. induction v as [|c v IH]; intros a; simpl; [lia|].
  intros (? & ? & Hc). apply IH in Hc. unfold bc_end in Hc. lia.
Qed.

Lemma covers_elem v a b bc : covers v a b → bc ∈ v → a ≤ bc_offset bc ∧ bc_end bc ≤ b.
Proof.
  revert a. induction v as [|c v IH]; intros a; simpl; [by intros _ ?%elem_of_nil|].
  intros (<- & ? & Hc) [->|Hin]%elem_of_cons.
  - apply covers_le in Hc. lia.
  - destruct (IH _ Hc Hin). unfold bc_end in *. lia.
Qed.

Lemma covers_app v1 v2 a b : covers (v1 ++ v2) a b ↔ ∃ m, covers v1 a m ∧ covers v2 m b.
Proof.
  revert a. induction v1 as [|c v1 IH]; intros a; simpl.
  - split; [eauto|]. by intros (m & -> & ?).
  - rewrite IH. naive_solver.
Qed.

(** No two chunks of a tiling share a byte. *)
Lemma covers_unique v a e b b' o :
  covers v a e → b ∈ v → b' ∈ v → bc_offset b ≤ o < bc_end b → bc_offset b' ≤ o < bc_end b' → b = b'.
Proof.
  revert a. induction v as [|x v IH]; intros a Hc Hb Hb' Ho Ho'; [by apply elem_of_nil in Hb|]. destruct Hc as (_ & _ & Hc).
  apply elem_of_cons in Hb as [->|Hb], Hb' as [->|Hb']; try done.
  - destruct (covers_elem _ _ _ _ Hc Hb'). lia.
  - destruct (covers_elem _ _ _ _ Hc Hb). lia.
  - by eapply IH.
Qed.

Lemma covers_nodup v a e : covers v a e → NoDup v.
Proof.
  revert a. induction v as [|x v IH]; intros a Hc; [apply NoDup_nil_2|]. destruct Hc as (Ho & Hl & Hc).
  apply NoDup_cons. split; [|by eapply IH]. intros Hx. destruct (covers_elem _ _ _ _ Hc Hx). unfold bc_end in *. lia.
Qed.

Lemma covers_at v a b x : covers v a b → a ≤ x < b → ∃ bc, bc ∈ v ∧ bc_offset bc ≤ x < bc_end bc.
Proof.
  revert a. induction v as [|c v IH]; intros a; simpl; [lia|].
  intros (<- & ? & Hc) Hx. destruct (Z.ltb_spec x (bc_end c)).
  - exists c. split; [by left|lia].
  - destruct (IH _ Hc) as (bc & ? & ?); [lia|]. exists bc. split; [by right|done].
Qed.

(** A returned chunk is a window into a chunkmap chunk. *)
Record is_view (bc c : bytes_chunk) : Prop := {
  view_alloc : bc_alloc_buffer bc = bc_alloc_buffer c;
  view_lo : bc_offset c ≤ bc_offset bc;
  view_hi : bc_end bc ≤ bc_end c;
  view_boff : bc_buffer_offset bc = bc_buffer_offset c + (bc_offset bc - bc_offset c);
  view_whole : bc_is_whole bc = true ↔ bc_offset bc = bc_offset c ∧ bc_length bc = bc_length c;
}.

Section get.
(** The state when the lookup starts. *)
Context (s0 : cache) (Hinv0 : inv s0).

Definition disjoint_from (off e : Z) (m : cmap) : Prop :=
  ∀ k c, (k, c) ∈ m → e ≤ bc_offset c ∨ bc_end c ≤ off.

Definition new_ok (s : cache) (bc : bytes_chunk) : Prop :=
  bc = Chunk (bc_alloc_buffer bc) (bc_offset bc) (bc_length bc) 0 0 0 true true ∧
  (next_id s0 ≤ bc_alloc_buffer bc < next_id s)%nat ∧
  membufs s !! bc_alloc_buffer bc = Some (fresh_mb (bc_offset bc) (bc_length bc)) ∧
  disjoint_from (bc_offset bc) (bc_end bc) (chunkmap s0).

Definition old_ok (s : cache) (bc : bytes_chunk) : Prop :=
  bc_is_new bc = false ∧
  (∃ k c, (k, c) ∈ chunkmap s0 ∧ is_view bc c) ∧
  ∃ mb, membufs s !! bc_alloc_buffer bc = Some mb ∧ 2 ≤ mb_use_count mb.

Definition vec_ok (s : cache) (bc : bytes_chunk) : Prop := new_ok s bc ∨ old_ok s bc.

Definition new_ids (v : list bytes_chunk) : list nat :=
  bc_alloc_buffer <$> filter (λ bc, bc_is_new bc = true) v.

(** A chunk of the vector starts where the request or an entry of the chunkmap starts. *)
Definition starts (offset : Z) (bc : bytes_chunk) : Prop :=
  bc_is_new bc = true ∨ bc_offset bc = offset ∨
  ∃ k c, (k, c) ∈ chunkmap s0 ∧ is_view bc c ∧ bc_offset bc = bc_offset c.

(** While the vector covers [offset, n): the chunkmap is unchanged and the
    heap has only gained membufs and references. *)
Record get_st (offset n : Z) (v : list bytes_chunk) (s : cache) : Prop := {
  g_inv : inv s;
  g_map : chunkmap s = chunkmap s0;
  g_next : (next_id s0 ≤ next_id s)%nat;
  g_heap : ∀ id mb, membufs s0 !! id = Some mb →
    ∃ u, mb_use_count mb ≤ u ∧ membufs s !! id = Some (mb_set_use_count u mb);
  g_cov : covers v offset n;
  g_vec : Forall (vec_ok s) v;
  g_ids : NoDup (new_ids v);
  g_start : Forall (starts offset) v;
}.

Lemma get_st_init offset : get_st offset offset [] s0.
Proof.
  split; try done; [|apply NoDup_nil_2].
  intros id mb Hid. exists (mb_use_count mb). split; [done|].
  rewrite Hid. f_equal. by destruct mb.
Qed.

Lemma new_ids_lt v s : Forall (vec_ok s) v → ∀ i, i ∈ new_ids v → (i < next_id s)%nat.
Proof.
  intros Hv i (bc & -> & [Hn Hin]%list_elem_of_filter)%list_elem_of_fmap.
  rewrite Forall_forall in Hv. destruct (Hv _ Hin) as [(_ & ? & _)|[? _]]; [lia|congruence].
Qed.

(** Adding a window into the chunkmap chunk [c]. *)
Lemma get_view offset n v s k c l whole :
  get_st offset n v s → (k, c) ∈ chunkmap s0 →
  bc_offset c ≤ n → n = offset ∨ n = bc_offset c → 0 < l → n + l ≤ bc_end c →
  (whole = true ↔ n = bc_offset c ∧ l = bc_length c) →
  wp (bytes_chunk_view n l (bc_buffer_offset c + (n - bc_offset c)) (bc_alloc_buffer c) whole false)
    s (λ bc s', get_st offset (n + l) (v ++ [bc]) s').
Proof.
  intros [Hinv Hm Hnx Hheap Hcov Hvec Hids Hst] Hin Hlo Hns Hl Hhi Hwhole.
  destruct (inv_chunk _ _ Hinv0 _ _ Hin) as (mb0 & Hmb0 & [Ho Hle Hbo] & _).
  destruct (Hheap _ _ Hmb0) as (u & Hu & Hmb). unfold bc_end in *.
  eapply wp_mono.
  { eapply (bytes_chunk_view_spec ∅ s _ (mb_set_use_count u mb0)); simpl; try done; lia. }
  simpl. intros bc s' (-> & Hinv' & [_ Hh _ _ Hc Hn _ _ _ _]).
  pose proof (inv_refs _ _ Hinv0 _ _ Hmb0) as Href. simpl in Href.
  assert (∀ bc, vec_ok s bc → vec_ok s' bc) as Hmono.
  { intros b [(He & Hi & Hf & Hd)|(He & Hv & mb & Hf & Hu')].
    - left. split_and!; try done; [lia|lia|].
      rewrite Hh, lookup_insert_ne; [done|]. intros Heq. rewrite <- Heq in Hf.
      apply (inv_heap _ _ Hinv0) in Hmb0 as [_ ?]. lia.
    - right. split_and!; try done. destruct (decide (bc_alloc_buffer b = bc_alloc_buffer c)) as [->|Hne].
      + rewrite Hh, lookup_insert_eq. simplify_eq. eexists; split; [done|]. simpl. lia.
      + rewrite Hh, lookup_insert_ne by done. eauto. }
  split; simpl; try done; try congruence.
  - intros id mb Hid. destruct (Hheap _ _ Hid) as (u' & Hu' & Hl').
    destruct (decide (id = bc_alloc_buffer c)) as [->|Hne].
    + simplify_eq. exists (u + 1). rewrite Hh, lookup_insert_eq. split; [lia|done].
    + rewrite Hh, lookup_insert_ne by done. eauto.
  - eapply (covers_snoc _ _ n); [done| |]; simpl; done.
  - apply Forall_app. split; [by eapply Forall_impl; [exact Hvec|]|]. apply Forall_singleton. right.
    split; [done|]. split.
    + exists k, c. split; [done|]. by split; unfold bc_end; simpl; try lia.
    + simpl. rewrite Hh, lookup_insert_eq. eexists; split; [done|]. simpl. lia.
  - unfold new_ids. rewrite filter_app, fmap_app. simpl. by rewrite app_nil_r.
  - apply Forall_app. split; [done|]. apply Forall_singleton. right. destruct Hns as [->|He]; [by left|right].
    exists k, c. split; [done|]. split; [|done]. by split; unfold bc_end; simpl; try lia.
Qed.

(** Adding a new chunk in a gap. *)
Lemma get_new offset n v s l :
  get_st offset n v s → 0 ≤ n → 0 < l → l ≤ AZNFSC_MAX_CHUNK_SIZE → n + l ≤ AZNFSC_MAX_FILE_SIZE →
  disjoint_from n (n + l) (chunkmap s0) →
  wp (bytes_chunk_new n l) s (λ bc s', get_st offset (n + l) (v ++ [bc]) s' ∧
    ∃ id, bc = Chunk id n l 0 0 0 true true).
Proof.
  intros [Hinv Hm Hnx Hheap Hcov Hvec Hids Hst] Hn0 Hl Hc Hf Hdis.
  eapply wp_mono; [by apply (bytes_chunk_new_spec ∅)|]. simpl.
  intros bc s' (-> & Hinv' & [Hh Hcm Hnx']). pose proof (inv_fresh_id _ _ Hinv) as Hfresh.
  assert (∀ bc, vec_ok s bc → vec_ok s' bc) as Hmono.
  { intros b [(He & Hi & Hf' & Hd)|(He & Hv & mb & Hf' & Hu')].
    - left. split_and!; try done; [lia|lia|]. rewrite Hh, lookup_insert_ne by lia. done.
    - right. split_and!; try done. exists mb. rewrite Hh, lookup_insert_ne by congruence. done. }
  split; [|eauto]. split; simpl; try done; try congruence.
  - lia.
  - intros id mb Hid. destruct (Hheap _ _ Hid) as (u' & Hu' & Hl').
    exists u'. rewrite Hh, lookup_insert_ne by congruence. done.
  - eapply (covers_snoc _ _ n); [done| |]; simpl; done.
  - apply Forall_app. split; [by eapply Forall_impl; [exact Hvec|]|]. apply Forall_singleton. left.
    split_and!; simpl; try done; try lia. rewrite Hh. apply lookup_insert_eq.
  - unfold new_ids. rewrite filter_app, fmap_app. simpl. apply NoDup_app. split_and!; [done| |].
    + intros i Hi. apply (new_ids_lt _ _ Hvec) in Hi. intros ?%list_elem_of_singleton. lia.
    + apply NoDup_singleton.
  - apply Forall_app. split; [done|]. apply Forall_singleton. by left.
Qed.

(** *** The loop over the chunkmap *)

(** The right edge, when [offset, n) is covered: [n] itself, or the end of the
    chunk that caches the byte before [n]. *)
Definition xr_ok (n : Z) (xr : Z) : Prop :=
  (xr = n ∧ ∀ k c, (k, c) ∈ chunkmap s0 → ¬ (bc_offset c < n < bc_end c)) ∨
  ∃ k c, (k, c) ∈ chunkmap s0 ∧ bc_offset c < n ≤ bc_end c ∧ xr = bc_end c.

(** The left edge: [offset], or the start of the chunk that caches it. *)
Definition xl_ok (offset : Z) (xl : Z) : Prop :=
  (xl = offset ∧ ∀ k c, (k, c) ∈ chunkmap s0 → ¬ (bc_offset c < offset < bc_end c)) ∨
  ∃ k c, (k, c) ∈ chunkmap s0 ∧ bc_offset c ≤ offset < bc_end c ∧ xl = bc_offset c.

Lemma no_straddle pre k c suf x :
  chunkmap s0 = pre ++ (k, c) :: suf → (∀ k' c', (k', c') ∈ pre → bc_end c' ≤ x) →
  x ≤ bc_offset c → ∀ k' c', (k', c') ∈ chunkmap s0 → ¬ (bc_offset c' < x < bc_end c').
Proof.
  intros Hm Hpre Hx k' c' Hin ?. pose proof (inv_wf _ _ Hinv0) as Hw. rewrite Hm in Hw.
  destruct (inv_chunk_bounds _ _ Hinv0 _ _ Hin) as (-> & _).
  rewrite Hm in Hin. apply elem_of_app in Hin as [Hp|[?|Hs]%elem_of_cons].
  - specialize (Hpre _ _ Hp). lia.
  - simplify_eq. lia.
  - destruct (cm_wf_keys_gt _ _ _ _ _ Hw _ _ Hs).
    apply cm_wf_app in Hw as (_ & -> & _). lia.
Qed.

(** The look-back iterator points at a chunk. *)
Definition lb_ok (lb : option Z) : Prop :=
  ∀ k, lb = Some k → ∃ c, (k, c) ∈ chunkmap s0.

(** The loop state: [suf] is what [it] has still to visit. *)
Record loop_st (offset len : Z) (suf : cmap) (x : scan_st) (s : cache) : Prop := {
  l_get : get_st offset (next_offset (s_cur x)) (s_vec x) s;
  l_it : it (s_cur x) = cm_begin suf;
  l_split : ∃ pre, chunkmap s0 = pre ++ suf ∧
    (0 < remaining_length (s_cur x) → ∀ k c, (k, c) ∈ pre → bc_end c ≤ next_offset (s_cur x)) ∧
    (s_vec x ≠ [] → ∀ k c, (k, c) ∈ pre → bc_end c ≤ x_right (s_ext x));
  l_suf : ∀ k c, (k, c) ∈ suf → next_offset (s_cur x) < bc_end c;
  l_sum : next_offset (s_cur x) + remaining_length (s_cur x) = offset + len;
  l_rem : 0 ≤ remaining_length (s_cur x);
  l_del : s_del x = del0;
  l_xr : s_vec x ≠ [] → xr_ok (next_offset (s_cur x)) (x_right (s_ext x)) ∧
    ∀ k c, (k, c) ∈ suf → x_right (s_ext x) ≤ k;
}.

Section loop.
Context (offset len : Z) (Hoff : 0 ≤ offset) (Hlen : 0 < len).
Context (Hchunk : len ≤ AZNFSC_MAX_CHUNK_SIZE) (Hfile : offset + len ≤ AZNFSC_MAX_FILE_SIZE).

(** The chunk in front of [it] has been used up to [n + l]. *)
Lemma consumed n rem l e c suf v vc s xl lb :
  get_st offset (n + l) (v ++ [vc]) s →
  (∃ pre', chunkmap s0 = pre' ++ suf ∧ ∀ k' c', (k', c') ∈ pre' → bc_end c' ≤ e) →
  (∀ k' c', (k', c') ∈ suf → e ≤ k' ∧ k' = bc_offset c' ∧ 0 < bc_length c') →
  e = bc_end c → (∃ k, (k, c) ∈ chunkmap s0) → bc_offset c ≤ n →
  n + rem = offset + len → 0 < l → l = Z.min (e - n) rem → n < e →
  loop_st offset len suf
    (Scan (Cur (n + l) (rem - l) (cm_begin suf)) (Ext xl e lb) del0 (v ++ [vc])) s.
Proof.
  intros Hget (pre & Hm & Hpre) Hgt -> [k Hin] Hlo Hsum Hl Hmin Hlt.
  split; simpl; try done; try lia.
  - exists pre. split_and!; [done| |done]. intros Hr k' c' Hp. specialize (Hpre _ _ Hp). lia.
  - intros k' c' Hs. destruct (Hgt _ _ Hs) as (? & ? & ?). unfold bc_end in *. lia.
  - intros _. split; [right; exists k, c; split_and!; (done || lia)|].
    intros k' c' Hs. by destruct (Hgt _ _ Hs).
Qed.

Lemma loop_iter k c suf x s :
  loop_st offset len ((k, c) :: suf) x s → 0 < remaining_length (s_cur x) →
  wp (scan_iter SCAN_ACTION_GET offset len k x) s (λ x' s',
    s_vec x' ≠ [] ∧ lookback_it (s_ext x') = lookback_it (s_ext x) ∧
    x_left (s_ext x') = x_left (s_ext x) ∧
    (loop_st offset len suf x' s' ∨
     loop_st offset len ((k, c) :: suf) x' s' ∧ next_offset (s_cur x) < bc_offset c ∧
     (next_offset (s_cur x') = bc_offset c ∨ remaining_length (s_cur x') = 0))).
Proof.
  intros [Hget Hit (pre & Hm & Hpre & Hpre2) Hsuf Hsum Hrem Hdel Hxr] Hpos.
  destruct x as [[n rem it0] [xl xr lb] d v]. simpl in *. subst d.
  pose proof (g_inv _ _ _ _ Hget) as Hinv. pose proof (g_map _ _ _ _ Hget) as Hmap.
  assert ((k, c) ∈ chunkmap s0) as Hin by (rewrite Hm, elem_of_app, elem_of_cons; tauto).
  assert ((k, c) ∈ chunkmap s) as Hin' by by rewrite Hmap.
  destruct (inv_chunk _ _ Hinv _ _ Hin') as (mb & Hmb & [Ho Hl Hb] & Hwf).
  destruct (inv_chunk_bounds _ _ Hinv _ _ Hin') as (-> & Hc0 & Hcl & Hce).
  pose proof (covers_le _ _ _ (g_cov _ _ _ _ Hget)) as Hge.
  pose proof (inv_wf _ _ Hinv0) as Hw. rewrite Hm in Hw.
  assert (n < bc_end c) as Hlt by (eapply Hsuf; by left).
  assert (∀ k' c', (k', c') ∈ suf → bc_end c ≤ k' ∧ k' = bc_offset c' ∧ 0 < bc_length c') as Hgt.
  { intros k' c' Hin2. destruct (cm_wf_keys_gt _ _ _ _ _ Hw _ _ Hin2).
    destruct (inv_chunk_bounds _ _ Hinv0 k' c') as (? & ? & ? & ?);
      [rewrite Hm, elem_of_app, elem_of_cons; tauto|]. split_and!; (done || lia). }
  assert (cm_next (bc_offset c) (chunkmap s) = cm_begin suf) as Hnext.
  { rewrite Hmap, Hm. by eapply cm_next_split. }
  assert (∃ pre', chunkmap s0 = pre' ++ suf ∧ ∀ k' c', (k', c') ∈ pre' → bc_end c' ≤ bc_end c) as Hpre'.
  { exists (pre ++ [(bc_offset c, c)]). split; [by rewrite Hm, <- app_assoc|].
    intros k' c' [Hp|?%list_elem_of_singleton]%elem_of_app; [|by simplify_eq].
    destruct (cm_wf_keys_lt _ _ _ _ _ Hw _ _ Hp). unfold bc_end in *. lia. }
  unfold scan_iter. wp_step. eapply chunk_at_spec; [done|exact Hin'|].
  wp_step. eapply get_membuf_wp; [done|]. wp_asserts cmp. simpl.
  wp_step. unfold load. wp_step. { unfold mb_is_file_backed. by rewrite (wf_fd _ Hwf). }
  wp_asserts cmp. destruct (Z.eqb_spec n (bc_offset c)) as [Heq|Hne];
    [|destruct (Z.ltb_spec n (bc_offset c)) as [Hb1|Hb1]].
  - unfold scan_at_start. cbv zeta. wp_step. wp_step. simpl. wp_asserts cmp. wp_step.
    replace (bc_buffer_offset c) with (bc_buffer_offset c + (n - bc_offset c)) by lia.
    eapply wp_mono.
    { eapply get_view; [exact Hget|exact Hin|lia|by right|lia|unfold bc_end in *; lia|].
      rewrite Z.eqb_eq. tauto. }
    intros vc s' Hget'. simpl. unfold advance. wp_step. wp_asserts cmp. wp_step. wp_step. simpl.
    split; [by destruct v|]. split; [done|]. split; [done|]. left. rewrite Hnext.
    eapply (consumed n rem _ (bc_end c) c); eauto; unfold bc_end in *; lia.
  - unfold scan_before. cbv zeta. simpl. wp_step. eapply wp_mono.
    { eapply get_new; [exact Hget|lia..|]. intros k' c' Hin2. rewrite Hm in Hin2.
      apply elem_of_app in Hin2 as [Hp|[?|Hs]%elem_of_cons].
      - right. by eapply Hpre.
      - simplify_eq. left. lia.
      - left. destruct (Hgt _ _ Hs) as (? & ? & ?). unfold bc_end in *. lia. }
    intros vc s' [Hget' _]. simpl. unfold advance. wp_step. wp_asserts cmp. wp_step. wp_step. simpl.
    split; [by destruct v|]. split; [done|]. split; [done|]. right. split; [|lia].
    split; simpl; try done; try lia.
    + exists pre. split_and!; [done|..]; intros _ k' c' Hp; specialize (Hpre Hpos _ _ Hp); lia.
    + intros k' c' [?|Hs]%elem_of_cons; [simplify_eq; unfold bc_end in *; lia|].
      destruct (Hgt _ _ Hs) as (? & ? & ?). unfold bc_end in *. lia.
    + intros _. split.
      { left. split; [done|]. eapply no_straddle; [done| |lia].
        intros k' c' Hp. specialize (Hpre Hpos _ _ Hp). lia. }
      intros k' c' [?|Hs]%elem_of_cons; [simplify_eq; lia|].
      destruct (Hgt _ _ Hs) as (? & ? & ?). unfold bc_end in *. lia.
  - unfold scan_inside. cbv zeta. wp_step. wp_step. simpl. wp_asserts cmp. wp_step.
    eapply wp_mono.
    { eapply get_view; [exact Hget|exact Hin|lia| |lia|unfold bc_end in *; lia|].
      - left. destruct v as [|b v]; [by pose proof (g_cov _ _ _ _ Hget)|].
        destruct Hxr as [Hx1 Hx2]; [done|]. specialize (Hx2 _ _ ltac:(by left)). destruct Hx1 as [[? _]|(? & ? & _ & ? & ?)]; lia.
      - split; [done|]. intros [? ?]. lia. }
    intros vc s' Hget'. simpl. unfold advance. wp_step. wp_asserts cmp. wp_step. wp_step. simpl.
    split; [by destruct v|]. split; [done|]. split; [done|]. left. rewrite Hnext.
    eapply (consumed n rem _ (bc_end c) c); eauto; unfold bc_end in *; lia.
Qed.

Lemma loop_done fuel suf x s :
  loop_st offset len suf x s → remaining_length (s_cur x) = 0 ∨ suf = [] →
  scan_for fuel SCAN_ACTION_GET offset len x s = Some (x, s).
Proof.
  intros Hl Hd. pose proof (l_it _ _ _ _ _ Hl) as Hit. pose proof (l_rem _ _ _ _ _ Hl).
  destruct fuel; simpl; (destruct (Z.eqb_spec (remaining_length (s_cur x)) 0); [done|]);
    (destruct Hd as [?| ->]; [lia|]); by rewrite Hit.
Qed.

(** The loop ends with nothing left to cover, or past the last chunk. *)
Lemma loop_for suf : ∀ fuel x s,
  loop_st offset len suf x s → (2 * length suf ≤ fuel)%nat →
  wp (scan_for fuel SCAN_ACTION_GET offset len x) s (λ x' s', ∃ suf',
    loop_st offset len suf' x' s' ∧ (remaining_length (s_cur x') = 0 ∨ suf' = []) ∧
    lookback_it (s_ext x') = lookback_it (s_ext x) ∧ x_left (s_ext x') = x_left (s_ext x) ∧
    (s_vec x' = s_vec x ∧ x' = x ∨ s_vec x' ≠ [])).
Proof.
  induction suf as [|[k c] suf IH]; intros fuel x s Hl Hfuel.
  { exists x, s. split; [by eapply loop_done; eauto|]. exists []. eauto 10. }
  destruct (decide (remaining_length (s_cur x) = 0)) as [Hz|Hnz].
  { exists x, s. split; [by eapply loop_done; eauto|]. exists ((k, c) :: suf). eauto 10. }
  pose proof (l_rem _ _ _ _ _ Hl). simpl in Hfuel.
  destruct fuel as [|[|fuel]]; [lia|lia|].
  pose proof (l_it _ _ _ _ _ Hl) as Hit. simpl in Hit.
  rewrite (scan_for_S _ _ _ _ _ k) by done. wp_step.
  eapply wp_mono; [apply (loop_iter _ _ _ _ _ Hl); lia|]. cbv beta.
  intros x1 s1 (Hne & Hlb & Hxl & [Hl1|(Hl1 & Hlt1 & Hend)]).
  { eapply wp_mono; [apply (IH (S fuel) x1 s1 Hl1); lia|]. cbv beta.
    intros x2 s2 (suf' & ? & ? & ? & ? & Hv). exists suf'. split_and!; try done; try congruence.
    right. destruct Hv as [[-> ->]|?]; done. }
  destruct (decide (remaining_length (s_cur x1) = 0)) as [Hz1|Hnz1].
  { exists x1, s1. split; [by apply (loop_done (S fuel) _ _ _ Hl1); left|].
    exists ((k, c) :: suf). eauto 10. }
  pose proof (l_rem _ _ _ _ _ Hl1). pose proof (l_it _ _ _ _ _ Hl1) as Hit1. simpl in Hit1.
  rewrite (scan_for_S _ _ _ _ _ k) by done. wp_step.
  eapply wp_mono; [apply (loop_iter _ _ _ _ _ Hl1); lia|]. cbv beta.
  intros x2 s2 (Hne2 & Hlb2 & Hxl2 & [Hl2|(Hl2 & Hlt2 & Hend2)]).
  { eapply wp_mono; [apply (IH fuel x2 s2 Hl2); lia|]. cbv beta.
    intros x3 s3 (suf' & ? & ? & ? & ? & Hv). exists suf'. split_and!; try done; try congruence.
    right. destruct Hv as [[-> ->]|?]; done. }
  (* the second iteration starts at the chunk's first byte, so it consumes it *)
  lia.
Qed.

(** *** Where the lookup starts *)
Definition start_ok (j : scan_jump) (s : cache) : Prop :=
  match j with
  | J_end => False
  | J_alloc x =>
      get_st offset offset [] s ∧ s_vec x = [] ∧ s_del x = del0 ∧
      next_offset (s_cur x) = offset ∧ remaining_length (s_cur x) = len ∧
      (∀ k c, (k, c) ∈ chunkmap s0 → bc_end c ≤ offset) ∧
      x_left (s_ext x) = offset ∧ x_right (s_ext x) = offset + len ∧ lb_ok (lookback_it (s_ext x)) ∧
      lb_ok (it (s_cur x))
  | J_loop x =>
      ∃ suf, loop_st offset len suf x s ∧ (length suf ≤ length (chunkmap s0))%nat ∧
        xl_ok offset (x_left (s_ext x)) ∧ lb_ok (lookback_it (s_ext x)) ∧ (suf = [] → s_vec x ≠ [])
  end.

(** The gap in front of the chunk [c], where the range starts. *)
Lemma start_gap k c pre suf lb :
  chunkmap s0 = pre ++ (k, c) :: suf → (∀ k' c', (k', c') ∈ pre → bc_end c' ≤ offset) →
  (∀ k' c', (k', c') ∈ (k, c) :: suf → offset < bc_end c') → offset < bc_offset c → lb_ok lb →
  wp (scan_gap SCAN_ACTION_GET offset len (bc_offset c) k lb) s0 start_ok.
Proof.
  intros Hm Hpre Hsuf Hlt Hlb. pose proof (inv_wf _ _ Hinv0) as Hw. rewrite Hm in Hw.
  assert ((k, c) ∈ chunkmap s0) as Hin by (rewrite Hm, elem_of_app, elem_of_cons; tauto).
  destruct (inv_chunk_bounds _ _ Hinv0 _ _ Hin) as (-> & _ & Hcl & Hce).
  unfold scan_gap. cbv zeta. simpl. wp_step. eapply wp_mono.
  { apply (get_new offset offset [] s0); [apply get_st_init|lia..|].
    intros k' c' Hin2. rewrite Hm in Hin2. apply elem_of_app in Hin2 as [Hp|[?|Hs]%elem_of_cons].
    - right. by eapply Hpre.
    - simplify_eq. left. lia.
    - left. destruct (cm_wf_keys_gt _ _ _ _ _ Hw _ _ Hs).
      destruct (inv_chunk_bounds _ _ Hinv0 k' c') as (-> & _);
        [rewrite Hm, elem_of_app, elem_of_cons; tauto|]. lia. }
  simpl. intros bc s1 [Hget _]. wp_step. simpl. exists ((bc_offset c, c) :: suf).
  split; [|split_and!; [rewrite Hm, length_app; simpl; lia|left; split; [done|]; eapply no_straddle; (done || lia)|done|done]].
  split; simpl; try done; try lia.
  - exists pre. split_and!; [done|..]; intros _ k' c' Hp; specialize (Hpre _ _ Hp); lia.
  - intros k' c' [?|Hs]%elem_of_cons; [simplify_eq; unfold bc_end in *; lia|].
    destruct (cm_wf_keys_gt _ _ _ _ _ Hw _ _ Hs).
    destruct (inv_chunk_bounds _ _ Hinv0 k' c') as (-> & _ & ? & _);
      [rewrite Hm, elem_of_app, elem_of_cons; tauto|]. unfold bc_end in *. lia.
  - intros _. split.
    { left. split; [done|]. eapply no_straddle; [done| |lia].
      intros k' c' Hp. specialize (Hpre _ _ Hp). lia. }
    intros k' c' [?|Hs]%elem_of_cons; [simplify_eq; lia|].
    destruct (cm_wf_keys_gt _ _ _ _ _ Hw _ _ Hs). unfold bc_end in *. lia.
Qed.

Lemma start_in k c pre suf xl lb :
  chunkmap s0 = pre ++ (k, c) :: suf → (∀ k' c', (k', c') ∈ pre → bc_end c' ≤ offset) →
  (∀ k' c', (k', c') ∈ (k, c) :: suf → offset < bc_end c') → bc_offset c ≤ offset → xl = bc_offset c → lb_ok lb →
  start_ok (J_loop (Scan (Cur offset len (Some k)) (Ext xl AZNFSC_BAD_OFFSET lb) del0 [])) s0.
Proof.
  intros Hm Hpre Hsuf Hlo -> Hlb. simpl.
  assert (offset < bc_end c) by (eapply Hsuf; by left). exists ((k, c) :: suf).
  assert ((k, c) ∈ chunkmap s0) by (rewrite Hm, elem_of_app, elem_of_cons; tauto).
  split; [|split_and!; [rewrite Hm, length_app; simpl; lia|right; exists k, c; done|done|done]].
  split; simpl; try done; try lia; [apply get_st_init|].
  exists pre. split_and!; [done| |done]. intros _ k' c' ?. by eapply Hpre.
Qed.

Lemma start_get : wp (scan_start SCAN_ACTION_GET offset len) s0 start_ok.
Proof.
  pose proof (inv_wf _ _ Hinv0) as Hw.
  destruct (cm_split_at _ _ offset Hw) as (pre & suf & Hm & Hpre & Hsuf).
  assert (∀ k c, (k, c) ∈ chunkmap s0 → k = bc_offset c ∧ 0 < bc_length c) as Hk.
  { intros k c Hin. by destruct (inv_chunk_bounds _ _ Hinv0 _ _ Hin) as (? & _ & ? & _). }
  assert (∀ k c, (k, c) ∈ pre → k < offset) as Hprek.
  { intros k c Hin. destruct (Hk k c); [rewrite Hm, elem_of_app; tauto|].
    specialize (Hpre _ _ Hin). unfold bc_end in *. lia. }
  assert (∀ i, lb_ok (cm_prev i (pre ++ suf))) as Hlbp.
  { intros i k' Hk'. rewrite Hm. by eapply cm_prev_elem. }
  unfold scan_start. wp_step. wp_step. cbv zeta. rewrite Hm in *.
  destruct suf as [|[k c] suf].
  - (* everything cached ends at or before [offset] *)
    rewrite cm_lower_bound_split; [|done|by intros ? ? ?%elem_of_nil]. simpl.
    rewrite (cm_prev_last None); [|done|by intros ? ? ?%elem_of_nil].
    destruct (last pre) as [[k c]|] eqn:Hlast; simpl.
    + apply last_elem in Hlast. wp_step.
      eapply chunk_at_spec; [done|rewrite Hm, elem_of_app; by left|].
      specialize (Hpre _ _ Hlast) as Hle. rewrite (proj2 (Z.leb_le _ _)) by done. wp_step. simpl.
      split_and!; try done; [apply get_st_init|..].
      { intros k' c'. rewrite Hm, app_nil_r. apply Hpre. }
      all: try (case_match; [done|]); intros ? [= <-]; exists c; by rewrite Hm, app_nil_r.
    + wp_step. simpl. apply last_None in Hlast as ->.
      split_and!; try done; [apply get_st_init|]. rewrite Hm; by intros ? ? ?%elem_of_nil.
  - assert ((k, c) ∈ pre ++ (k, c) :: suf) as Hin by (rewrite elem_of_app, elem_of_cons; tauto).
    destruct (Hk _ _ Hin) as [-> Hcl].
    assert (offset < bc_end c) as Hce by (eapply Hsuf; by left).
    assert (∀ k' c', (k', c') ∈ suf → bc_end c ≤ k') as Hgt
      by (intros ? ? ?; by eapply cm_wf_keys_gt).
    destruct (Z.leb_spec offset (bc_offset c)) as [Hle|Hgt1].
    + (* the first chunk past [offset] starts at or after it *)
      rewrite cm_lower_bound_split; [|done|].
      2: { intros k' c' [?|Hs]%elem_of_cons; [by simplify_eq|].
           specialize (Hgt _ _ Hs). unfold bc_end in *. lia. }
      simpl. wp_step. eapply chunk_at_spec; [done|by rewrite Hm|]. wp_asserts cmp.
      destruct (Z.eqb_spec (bc_offset c) offset) as [Heq|Hne].
      * wp_step. eapply start_in; (done || lia || apply Hlbp).
      * rewrite (cm_prev_middle _ _ _ _ _ Hw).
        destruct (last pre) as [[kp cp]|] eqn:Hlast; simpl.
        -- apply last_elem in Hlast. wp_step.
           eapply chunk_at_spec; [done|rewrite Hm, elem_of_app; by left|].
           rewrite (proj2 (Z.leb_le _ _)) by (by eapply Hpre).
           eapply start_gap; try done; [lia|]. case_match; [done|]. intros ? [= <-].
           exists cp. rewrite Hm, elem_of_app. by left.
        -- eapply start_gap; (done || lia).
    + (* [offset] lies inside the chunk [c] *)
      assert (cm_lower_bound offset (pre ++ (bc_offset c, c) :: suf) = cm_begin suf) as ->.
      { change (pre ++ (bc_offset c, c) :: suf) with (pre ++ [(bc_offset c, c)] ++ suf).
        rewrite app_assoc. apply cm_lower_bound_split.
        - intros k' c' [Hp|?%list_elem_of_singleton]%elem_of_app; [by eapply Hprek|by simplify_eq].
        - intros k' c' Hs. specialize (Hgt _ _ Hs). lia. }
      assert (∀ it, (∀ k' c', (k', c') ∈ suf → key_before k' it = false) → key_before (bc_offset c) it = true →
        (∀ k' c', (k', c') ∈ pre → key_before k' it = true) →
        cm_prev it (pre ++ (bc_offset c, c) :: suf) = Some (bc_offset c)) as Hprev.
      { intros. by apply cm_prev_split. }
      destruct suf as [|[k2 c2] suf2]; simpl.
      * rewrite (Hprev None); [|by intros ? ? ?%elem_of_nil|done|done].
        wp_step. eapply chunk_at_spec; [done|by rewrite Hm|].
        rewrite (proj2 (Z.leb_gt _ _)) by done. wp_step. eapply start_in; (done || lia || apply Hlbp).
      * assert ((k2, c2) ∈ pre ++ (bc_offset c, c) :: (k2, c2) :: suf2) as Hin2
          by (rewrite elem_of_app, !elem_of_cons; tauto).
        destruct (Hk _ _ Hin2) as [-> Hc2l]. assert (bc_end c ≤ bc_offset c2) by (eapply Hgt; by left).
        wp_step. eapply chunk_at_spec; [done|by rewrite Hm|]. wp_asserts cmp.
        rewrite (proj2 (Z.eqb_neq _ _)) by lia.
        rewrite (Hprev (Some (bc_offset c2))); simpl.
        2: { intros k' c' [?|Hs]%elem_of_cons; apply Z.ltb_ge; [simplify_eq; lia|].
             assert (bc_end c2 ≤ k').
             { rewrite cons_middle, app_assoc in Hw. by eapply (cm_wf_keys_gt _ _ _ _ _ Hw). }
             unfold bc_end in *. lia. }
        2: { apply Z.ltb_lt. unfold bc_end in *. lia. }
        2: { intros k' c' Hp. apply Z.ltb_lt. specialize (Hprek _ _ Hp). unfold bc_end in *. lia. }
        wp_step. eapply chunk_at_spec; [done|by rewrite Hm|].
        rewrite (proj2 (Z.leb_gt _ _)) by done. wp_step. eapply start_in; (done || lia || apply Hlbp).
Qed.

(** *** The chunk past everything cached *)
Lemma alloc_last x s :
  get_st offset (next_offset (s_cur x)) (s_vec x) s →
  next_offset (s_cur x) + remaining_length (s_cur x) = offset + len →
  0 ≤ remaining_length (s_cur x) →
  (0 < remaining_length (s_cur x) →
   ∀ k c, (k, c) ∈ chunkmap s0 → bc_end c ≤ next_offset (s_cur x)) →
  wp (scan_alloc_last SCAN_ACTION_GET x) s (λ x' s',
    get_st offset (offset + len) (s_vec x') s' ∧ s_ext x' = s_ext x ∧ s_del x' = s_del x ∧
    it (s_cur x') = it (s_cur x) ∧
    (0 < remaining_length (s_cur x) → ∃ id, last (s_vec x') =
      Some (Chunk id (next_offset (s_cur x)) (remaining_length (s_cur x)) 0 0 0 true true))).
Proof.
  intros Hget Hsum Hrem Hbelow. unfold scan_alloc_last. cbv zeta.
  pose proof (covers_le _ _ _ (g_cov _ _ _ _ Hget)).
  destruct (Z.eqb_spec (remaining_length (s_cur x)) 0) as [Hz|Hz].
  - wp_step. replace (offset + len) with (next_offset (s_cur x)) by lia. split_and!; (done || lia).
  - simpl. wp_step. eapply wp_mono.
    { eapply get_new; [exact Hget|lia..|]. intros k c Hin. right. apply (Hbelow ltac:(lia) _ _ Hin). }
    intros bc s' [Hg Hbc]. wp_step. simpl.
    replace (offset + len) with (next_offset (s_cur x) + remaining_length (s_cur x)) by lia.
    split_and!; try done. intros _. destruct Hbc as [id ->]. rewrite last_snoc. eauto.
Qed.
End loop.

(** ** Insertion *)

(** The chunkmap entry made for the new chunk [bc]. *)
Definition entry (bc : bytes_chunk) : bytes_chunk :=
  Chunk (bc_alloc_buffer bc) (bc_offset bc) (bc_length bc) 0 0 0 true false.

(** A membuf that has only gained holders. *)
Definition more_held (mb mb' : membuf) : Prop :=
  ∃ u i, mb_use_count mb ≤ u ∧ mb_inuse mb ≤ i ∧ mb' = mb_set_inuse i (mb_set_use_count u mb).

Lemma more_held_refl mb : more_held mb mb.
Proof. exists (mb_use_count mb), (mb_inuse mb). split_and!; try done. by destruct mb. Qed.

Lemma more_held_trans mb1 mb2 mb3 : more_held mb1 mb2 → more_held mb2 mb3 → more_held mb1 mb3.
Proof.
  intros (u & i & ? & ? & ->) (u' & i' & ? & ? & ->). simpl in *. exists u', i'.
  split_and!; (done || lia).
Qed.

(** [v1] has been processed, [v2] is still to come. *)
Record ins_st (v1 v2 : list bytes_chunk) (s : cache) : Prop := {
  i_inv : inv s;
  i_map : ∀ k c, (k, c) ∈ chunkmap s ↔ (k, c) ∈ chunkmap s0 ∨
    ∃ bc, bc ∈ v1 ∧ bc_is_new bc = true ∧ k = bc_offset bc ∧ c = entry bc;
  i_heap : ∀ id mb, membufs s0 !! id = Some mb → ∃ mb', membufs s !! id = Some mb' ∧ more_held mb mb';
  i_vec : Forall (vec_ok s) v2;
  i_ids : NoDup (new_ids (v1 ++ v2));
  i_done : ∀ bc, bc ∈ v1 → ∃ mb, membufs s !! bc_alloc_buffer bc = Some mb ∧ 0 < mb_inuse mb;
  i_view : ∀ bc, bc ∈ v1 → bc_is_new bc = true ∨ ∃ k c, (k, c) ∈ chunkmap s0 ∧ is_view bc c;
  i_newv : ∀ bc, bc ∈ v1 → bc_is_new bc = true →
    bc = Chunk (bc_alloc_buffer bc) (bc_offset bc) (bc_length bc) 0 0 0 true true ∧
    disjoint_from (bc_offset bc) (bc_end bc) (chunkmap s0);
}.

Lemma ins_init offset n v s : get_st offset n v s → ins_st [] v s.
Proof.
  intros [Hinv Hm Hnx Hheap Hcov Hvec Hids _]. split; try done.
  - intros k c. rewrite Hm. split; [by left|]. intros [?|(? & ?%elem_of_nil & _)]; done.
  - intros id mb Hid. destruct (Hheap _ _ Hid) as (u & Hu & Hl). eexists; split; [done|].
    exists u, (mb_inuse mb). split_and!; (done || by destruct mb).
  - by intros ? ?%elem_of_nil.
  - by intros ? ?%elem_of_nil.
  - by intros ? ?%elem_of_nil.
Qed.

(** Marking a chunk of the vector inuse. *)
Lemma insert_inuse s id mb :
  inv s → membufs s !! id = Some mb →
  Z.b2z (in_map id (chunkmap s)) + 1 ≤ mb_use_count mb →
  wp (set_inuse id) s (λ _ s', inv s' ∧ chunkmap s' = chunkmap s ∧ next_id s' = next_id s ∧
    membufs s' = <[id := mb_set_inuse (mb_inuse mb + 1) mb]> (membufs s)).
Proof.
  intros Hinv Hid Huc. destruct (inv_heap _ _ Hinv _ _ Hid) as [Hwf _].
  pose proof (wf_inuse _ Hwf). pose proof (inv_refs _ _ Hinv _ _ Hid).
  eapply wp_mono; [by apply set_inuse_spec|]. simpl. intros _ s' Hupd.
  split_and!; [|apply Hupd..]. eapply inv_update; [done|exact Hupd| |].
  - apply mb_step_inuse; [done|lia|lia].
  - unfold held_out. rewrite decide_False by set_solver. simpl.
    destruct (held _); simpl; lia.
Qed.

(** The free space around a range that no chunk overlaps. *)
Lemma gap_split m off e :
  cm_wf 0 m → disjoint_from off e m → off < e →
  ∃ m1 m2, m = m1 ++ m2 ∧ (∀ k c, (k, c) ∈ m1 → bc_end c ≤ off) ∧ (∀ k c, (k, c) ∈ m2 → e ≤ k).
Proof.
  intros Hwf Hdis Hlt. destruct (cm_split_at _ _ off Hwf) as (m1 & m2 & -> & H1 & H2).
  exists m1, m2. split_and!; try done. intros k c Hin. specialize (H2 _ _ Hin).
  assert ((k, c) ∈ m1 ++ m2) as Hin' by (apply elem_of_app; by right).
  destruct (cm_wf_elem _ _ _ _ Hwf Hin') as (-> & _ & _ & _).
  destruct (Hdis _ _ Hin'); lia.
Qed.

Lemma vec_ok_update s s' id mb mb' bc :
  membufs s !! id = Some mb → membufs s' = <[id := mb']> (membufs s) → next_id s' = next_id s →
  mb_use_count mb ≤ mb_use_count mb' →
  (bc_is_new bc = true → bc_alloc_buffer bc ≠ id) → vec_ok s bc → vec_ok s' bc.
Proof.
  intros Hid Hh Hnx Hu Hne [(He & Hi & Hf & Hd)|(He & Hv & mb0 & Hf & Hu')].
  - left. split_and!; try done; [lia|lia|]. rewrite Hh, lookup_insert_ne; [done|].
    intros ->. rewrite He in Hne. by apply Hne.
  - right. split_and!; try done. rewrite Hh.
    destruct (decide (bc_alloc_buffer bc = id)) as [Heq|?].
    + rewrite Heq in *. rewrite lookup_insert_eq. simplify_eq. exists mb'. split; [done|lia].
    + rewrite lookup_insert_ne by done. eauto.
Qed.

Lemma new_ids_elem v bc : bc ∈ v → bc_is_new bc = true → bc_alloc_buffer bc ∈ new_ids v.
Proof.
  intros Hin Hn. apply list_elem_of_fmap. exists bc. split; [done|]. by apply list_elem_of_filter.
Qed.

Lemma new_ids_split v1 bc v2 :
  bc_is_new bc = true → NoDup (new_ids (v1 ++ bc :: v2)) →
  bc_alloc_buffer bc ∉ new_ids v1 ∧ bc_alloc_buffer bc ∉ new_ids v2.
Proof.
  intros Hn. unfold new_ids. rewrite filter_app, filter_cons_True, fmap_app by done. simpl.
  intros (_ & Hd & H2)%NoDup_app. apply NoDup_cons in H2 as [? _]. split; [|done].
  intros Hin. apply (Hd _ Hin). by left.
Qed.

Lemma heap_update s s' id mb mb' :
  membufs s !! id = Some mb → membufs s' = <[id := mb']> (membufs s) → more_held mb mb' →
  ∀ i x, membufs s !! i = Some x → ∃ x', membufs s' !! i = Some x' ∧ more_held x x'.
Proof.
  intros Hid Hh Hm i x Hi. rewrite Hh. destruct (decide (i = id)) as [->|?].
  - rewrite lookup_insert_eq. simplify_eq. eauto.
  - rewrite lookup_insert_ne by done. eauto using more_held_refl.
Qed.

Lemma ins_old v1 bc v2 s :
  ins_st v1 (bc :: v2) s → old_ok s bc →
  wp (set_inuse (bc_alloc_buffer bc)) s (λ _ s', ins_st (v1 ++ [bc]) v2 s').
Proof.
  intros [Hinv Hmap Hheap Hvec Hids Hdone Hview Hnewv] (Hn & (k0 & c0 & Hin0 & Hv0) & mb & Hmb & Hu).
  apply Forall_cons in Hvec as [_ Hvec].
  eapply wp_mono. { apply insert_inuse; [done|exact Hmb|]. destruct (in_map _ _); simpl; lia. }
  simpl. intros _ s' (Hinv' & Hcm & Hnx & Hh).
  assert (more_held mb (mb_set_inuse (mb_inuse mb + 1) mb)) as Hmore.
  { exists (mb_use_count mb), (mb_inuse mb + 1). split_and!; (lia || by destruct mb). }
  pose proof (heap_update _ _ _ _ _ Hmb Hh Hmore) as Hup.
  split; try done.
  - intros k c. rewrite Hcm, Hmap. split; (intros [?|(b & Hb & Hb')]; [by left|right; exists b]).
    + split; [apply elem_of_app; by left|done].
    + apply elem_of_app in Hb as [?| ->%list_elem_of_singleton]; [done|]. naive_solver congruence.
  - intros i x Hi. destruct (Hheap _ _ Hi) as (x' & Hx' & Hm').
    destruct (Hup _ _ Hx') as (x'' & Hx'' & Hm''). eauto using more_held_trans.
  - eapply Forall_impl; [exact Hvec|]. intros b Hb. eapply vec_ok_update; eauto.
    { done. }
    intros Hbn. destruct Hb as [(_ & Hb & _)|[? _]]; [|congruence].
    destruct (inv_chunk _ _ Hinv0 _ _ Hin0) as (m0 & Hm0 & _).
    apply (inv_heap _ _ Hinv0) in Hm0 as [_ ?]. rewrite (view_alloc _ _ Hv0). lia.
  - by rewrite <- app_assoc.
  - intros b [Hb| ->%list_elem_of_singleton]%elem_of_app.
    + destruct (Hdone _ Hb) as (x & Hx & ?). destruct (Hup _ _ Hx) as (x' & Hx' & (u & i & ? & ? & ->)).
      eexists; split; [done|]. simpl. lia.
    + rewrite Hh, lookup_insert_eq. eexists; split; [done|]. simpl.
      destruct (inv_heap _ _ Hinv _ _ Hmb) as [Hwf _]. pose proof (wf_inuse _ Hwf). lia.
  - intros b [Hb| ->%list_elem_of_singleton]%elem_of_app; [by apply Hview|]. right. eauto.
  - intros b [Hb| ->%list_elem_of_singleton]%elem_of_app Hbn; [by apply Hnewv|congruence].
Qed.

Lemma ins_gap v1 bc v2 s a b :
  ins_st v1 (bc :: v2) s → covers (v1 ++ bc :: v2) a b →
  disjoint_from (bc_offset bc) (bc_end bc) (chunkmap s0) →
  disjoint_from (bc_offset bc) (bc_end bc) (chunkmap s).
Proof.
  intros Hins (m & H1 & H2)%covers_app Hd k c [Hin|(b' & Hb' & _ & -> & ->)]%(i_map _ _ _ Hins).
  - by apply (Hd k).
  - right. destruct (covers_elem _ _ _ _ H1 Hb'). simpl in H2. destruct H2 as [-> _].
    unfold bc_end in *. simpl. lia.
Qed.

Lemma ins_new_out v1 bc v2 s :
  ins_st v1 (bc :: v2) s → new_ok s bc → in_map (bc_alloc_buffer bc) (chunkmap s) = false.
Proof.
  intros Hins (Hbc & Hi & _). apply bool_decide_eq_false.
  intros (k & c & [Hin|(b & Hb & Hbn & _ & ->)]%(i_map _ _ _ Hins) & Heq)%elem_of_ids.
  - destruct (inv_chunk _ _ Hinv0 _ _ Hin) as (m0 & Hm0 & _).
    apply (inv_heap _ _ Hinv0) in Hm0 as [_ ?]. lia.
  - simpl in Heq. pose proof (i_ids _ _ _ Hins) as Hids.
    apply new_ids_split in Hids as [Hn _]; [|by rewrite Hbc].
    apply Hn. rewrite <- Heq. by apply new_ids_elem.
Qed.

Lemma ins_new v1 bc v2 s a b xr :
  ins_st v1 (bc :: v2) s → new_ok s bc → covers (v1 ++ bc :: v2) a b → 0 < bc_length bc →
  wp (scan_insert_one SCAN_ACTION_GET bc xr) s (λ xr' s',
    xr' = (if xr <? bc_end bc then bc_end bc else xr) ∧ ins_st (v1 ++ [bc]) v2 s').
Proof.
  intros Hins Hok Hcov Hlen. pose proof (ins_new_out _ _ _ _ Hins Hok) as Hout.
  destruct Hok as (Hbc & Hi & Hmb & Hdis). pose proof (ins_gap _ _ _ _ _ _ Hins Hcov Hdis) as Hdis'.
  destruct Hins as [Hinv Hmap Hheap Hvec Hids Hdone Hview Hnewv].
  assert (bc_is_new bc = true ∧ bc_is_whole bc = true ∧ bc_buffer_offset bc = 0) as (Hn & Hw & Hbo)
    by (by rewrite Hbc).
  apply Forall_cons in Hvec as [_ Hvec].
  destruct (new_ids_split _ _ _ Hn Hids) as [_ Hfresh2].
  unfold scan_insert_one. simpl. rewrite Hn, Hw. wp_step. eapply wp_mono.
  { apply insert_inuse; [done|exact Hmb|]. rewrite Hout. simpl. lia. }
  simpl. intros _ s1 (Hinv1 & Hcm1 & Hnx1 & Hh1).
  set (mb1 := mb_set_inuse 1 (fresh_mb (bc_offset bc) (bc_length bc))).
  assert (membufs s1 !! bc_alloc_buffer bc = Some mb1) as Hmb1.
  { rewrite Hh1. apply lookup_insert_eq. }
  wp_asserts done. wp_step. eapply get_membuf_wp; [exact Hmb1|]. unfold mb1. simpl. rewrite Hbo.
  wp_asserts ltac:(first [done|cmp]).
  destruct (gap_split (chunkmap s1) (bc_offset bc) (bc_end bc)) as (m1 & m2 & Hm & Hlo & Hhi).
  { apply (inv_wf _ _ Hinv1). } { by rewrite Hcm1. } { unfold bc_end. lia. }
  wp_step. eapply wp_mono.
  { eapply (add_chunk_spec ∅ s1 m1 m2); [done|done|exact Hmb1|by rewrite Hcm1| |done|done].
    split; simpl; lia. }
  simpl. intros _ s2 (Hinv2 & Hcm2 & Hh2 & Hnx2). wp_step. split; [done|].
  set (mb2 := mb_set_use_count 2 mb1).
  assert (membufs s2 = <[bc_alloc_buffer bc := mb2]> (membufs s)) as Hh.
  { rewrite Hh2, Hh1. apply insert_insert_eq. }
  assert (more_held (fresh_mb (bc_offset bc) (bc_length bc)) mb2) as Hmore by (exists 2, 1; simpl; done).
  pose proof (heap_update _ _ _ _ _ Hmb Hh Hmore) as Hup.
  split; try done.
  - intros k c. rewrite Hcm2, elem_of_app, elem_of_cons.
    transitivity ((k, c) ∈ chunkmap s1 ∨ (k, c) = (bc_offset bc, entry bc)).
    { rewrite Hm, elem_of_app. unfold entry. tauto. }
    rewrite Hcm1, Hmap. split.
    + intros [[?|(b' & ? & ?)]|?]; [by left|right; exists b'; rewrite elem_of_app; tauto|].
      right. exists bc. simplify_eq. rewrite elem_of_app, list_elem_of_singleton. naive_solver.
    + intros [?|(b' & [Hb'| ->%list_elem_of_singleton]%elem_of_app & ? & -> & ->)]; [tauto| |by right].
      left. right. eauto.
  - intros i x Hx. destruct (Hheap _ _ Hx) as (x' & Hx' & Hm').
    destruct (Hup _ _ Hx') as (x'' & Hx'' & Hm''). eauto using more_held_trans.
  - apply Forall_forall. intros c Hc. rewrite Forall_forall in Hvec.
    eapply (vec_ok_update s s2); [exact Hmb|exact Hh|congruence|done| |by apply Hvec].
    intros Hcn Heq. apply Hfresh2. rewrite <- Heq. by apply new_ids_elem.
  - by rewrite <- app_assoc.
  - intros c [Hc| ->%list_elem_of_singleton]%elem_of_app.
    + destruct (Hdone _ Hc) as (x & Hx & ?). destruct (Hup _ _ Hx) as (x' & Hx' & (u & i & ? & ? & ->)).
      eexists; split; [done|]. simpl. lia.
    + rewrite Hh, lookup_insert_eq. by eexists.
  - intros c [Hc| ->%list_elem_of_singleton]%elem_of_app; [by apply Hview|by left].
  - intros c [Hc| ->%list_elem_of_singleton]%elem_of_app Hcn; [by apply Hnewv|done].
Qed.

Lemma ins_one v1 bc v2 s a b xr :
  ins_st v1 (bc :: v2) s → covers (v1 ++ bc :: v2) a b →
  wp (scan_insert_one SCAN_ACTION_GET bc xr) s (λ xr' s',
    xr' = (if bc_is_new bc then Z.max xr (bc_end bc) else xr) ∧ ins_st (v1 ++ [bc]) v2 s').
Proof.
  intros Hins Hcov. pose proof (i_vec _ _ _ Hins) as [[Hok|Hok] _]%Forall_cons.
  - assert (0 < bc_length bc) as Hl by (apply covers_app in Hcov as (? & _ & ? & ? & _); done).
    pose proof Hok as (Hbc & _). eapply wp_mono; [by eapply ins_new|]. simpl.
    intros xr' s' [-> ?]. split; [|done]. rewrite Hbc. simpl. case_match; bools; lia.
  - pose proof Hok as (Hn & _). unfold scan_insert_one. simpl. rewrite Hn. wp_step.
    eapply wp_mono; [by apply ins_old|]. simpl. intros _ s' ?. by wp_step.
Qed.

Lemma ins_all v2 : ∀ v1 s a b xr,
  ins_st v1 v2 s → covers (v1 ++ v2) a b →
  wp (scan_insert SCAN_ACTION_GET v2 xr) s (λ xr' s', ins_st (v1 ++ v2) [] s' ∧
    xr ≤ xr' ≤ Z.max xr b ∧ ((∃ bc, last v2 = Some bc ∧ bc_is_new bc = true) → b ≤ xr')).
Proof.
  induction v2 as [|bc v2 IH]; intros v1 s a b xr Hins Hcov; simpl.
  - wp_step. rewrite app_nil_r in *. split; [done|]. split; [lia|]. by intros (? & ? & ?).
  - wp_step. eapply wp_mono; [by eapply ins_one|]. simpl. intros xr' s' [-> Hins'].
    assert (bc_end bc ≤ b) as Hb.
    { apply covers_app in Hcov as (? & _ & _ & _ & Hc). by apply covers_le in Hc. }
    eapply wp_mono. { apply (IH (v1 ++ [bc]) s' a b); [done|]. by rewrite <- app_assoc. }
    simpl. rewrite <- app_assoc. simpl. intros xr'' s'' (? & Hx & Hlast). split; [done|].
    split; [destruct (bc_is_new bc); lia|]. intros (c & Hc & Hcn).
    destruct v2 as [|c2 v2]; [|apply Hlast; eauto]. simpl in Hc. simplify_eq. rewrite Hcn in Hx.
    apply covers_app in Hcov as (? & _ & _ & _ & Heq). simpl in Heq. lia.
Qed.
End get.

(** ** The edges of the dirty extent *)
Section extent.
Context (s : cache) (Hinv : inv s).

(** The chunk has data that has to be flushed. *)
Definition chunk_needs_flush (c : bytes_chunk) : Prop :=
  ∃ mb, membufs s !! bc_alloc_buffer c = Some mb ∧
    mb_has Dirty mb = true ∧ mb_has Flushing mb = false.

(** [a, b) is made of chunks that need flushing. *)
Inductive dirty_run : Z → Z → Prop :=
  | dirty_nil a : dirty_run a a
  | dirty_cons k c b : (k, c) ∈ chunkmap s → chunk_needs_flush c →
      dirty_run (bc_end c) b → dirty_run (bc_offset c) b.

Lemma dirty_run_snoc a k c :
  dirty_run a (bc_offset c) → (k, c) ∈ chunkmap s → chunk_needs_flush c → dirty_run a (bc_end c).
Proof.
  intros Hrun Hin Hnf. remember (bc_offset c) as e eqn:He.
  induction Hrun as [a|k' c' b Hin' Hnf' _ IH].
  - subst a. by eapply dirty_cons, dirty_nil.
  - eapply dirty_cons; eauto.
Qed.

Lemma dirty_run_le a b : dirty_run a b → a ≤ b.
Proof.
  induction 1 as [|k c b Hin _ _ IH]; [done|].
  destruct (inv_chunk_bounds _ _ Hinv _ _ Hin) as (_ & _ & ? & _). unfold bc_end in *. lia.
Qed.

Lemma needs_flush_spec k c (Q : bool → cache → Prop) :
  (k, c) ∈ chunkmap s → (∀ b, (b = true ↔ chunk_needs_flush c) → Q b s) → wp (needs_flush c) s Q.
Proof.
  intros Hin HQ. destruct (inv_chunk _ _ Hinv _ _ Hin) as (mb & Hmb & _ & Hwf).
  eapply needs_flush_wp; [done|done|]. apply HQ. rewrite andb_true_iff, negb_true_iff.
  unfold chunk_needs_flush. split; [eauto|]. intros (? & ? & ?). by simplify_eq.
Qed.

Lemma find_left_spec fuel : ∀ k c pre post xl,
  chunkmap s = pre ++ (k, c) :: post → (length pre ≤ fuel)%nat → xl ≠ AZNFSC_BAD_OFFSET →
  wp (find_left fuel k xl) s (λ l s', s' = s ∧ dirty_run l xl).
Proof.
  induction fuel as [|fuel IH]; intros k c pre post xl Hm Hf Hxl; simpl.
  all: assert ((k, c) ∈ chunkmap s) as Hin by (rewrite Hm, elem_of_app, elem_of_cons; tauto).
  all: pose proof (inv_wf _ _ Hinv) as Hw; rewrite Hm in Hw.
  all: assert (cm_prev (Some k) (chunkmap s) = fst <$> last pre) as Hprev
    by (rewrite Hm; by eapply cm_prev_middle).
  all: wp_step; eapply chunk_at_spec; [done|exact Hin|].
  all: rewrite (proj2 (Z.eqb_neq _ _) Hxl); simpl; destruct (Z.eqb_spec (bc_end c) xl) as [He|He]; simpl;
    [|wp_step; split; [done|apply dirty_nil]].
  all: wp_step; eapply needs_flush_spec; [exact Hin|]; intros [] Hb; simpl;
    [|wp_step; split; [done|apply dirty_nil]].
  all: wp_step; wp_step; rewrite Hprev.
  all: assert (dirty_run (bc_offset c) xl) as Hrun
    by (subst xl; eapply dirty_cons; [done|tauto|apply dirty_nil]).
  - destruct pre; [|simpl in Hf; lia]. simpl. by wp_step.
  - destruct (last pre) as [[k' c']|] eqn:Hl; simpl; [|by wp_step].
    apply last_Some in Hl as [pre' ->]. rewrite <- app_assoc in Hm. simpl in Hm.
    rewrite length_app in Hf. simpl in Hf.
    destruct (inv_chunk_bounds _ _ Hinv _ _ Hin) as (_ & ? & _ & ?).
    eapply wp_mono.
    { eapply IH; [done|lia|]. pose proof (dirty_run_le _ _ Hrun).
      unfold AZNFSC_BAD_OFFSET, AZNFSC_MAX_FILE_SIZE, AZNFSC_MAX_BLOCK_SIZE in *. lia. }
    simpl. intros l s' [-> Hl]. split; [done|]. rewrite <- He. eapply dirty_run_snoc; [done|done|tauto].
Qed.

(** The extent stops at a chunk that does not need flushing. *)
Definition stops_at (r : Z) : Prop :=
  ∀ k c, (k, c) ∈ chunkmap s → bc_offset c = r → ¬ chunk_needs_flush c.

Lemma find_right_spec suf : ∀ fuel pre xr,
  chunkmap s = pre ++ suf → (length suf ≤ fuel)%nat → xr ≠ AZNFSC_BAD_OFFSET →
  (∀ k c, (k, c) ∈ chunkmap s → bc_offset c = xr → cm_begin suf = Some k) →
  wp (find_right fuel (cm_begin suf) xr) s (λ r s', s' = s ∧ dirty_run xr r ∧ stops_at r).
Proof.
  induction suf as [|[k c] suf IH]; intros fuel pre xr Hm Hf Hxr Hat.
  { destruct fuel; simpl; wp_step; (split_and!; [done|apply dirty_nil|]);
      intros k c Hin Heq; specialize (Hat _ _ Hin Heq); done. }
  destruct fuel as [|fuel]; [simpl in Hf; lia|].
  assert ((k, c) ∈ chunkmap s) as Hin by (rewrite Hm, elem_of_app, elem_of_cons; tauto).
  pose proof (inv_wf _ _ Hinv) as Hw. rewrite Hm in Hw.
  destruct (inv_chunk_bounds _ _ Hinv _ _ Hin) as (-> & ? & ? & ?).
  assert (∀ k' c', (k', c') ∈ chunkmap s → bc_offset c' = xr → c' = c ∧ xr = bc_offset c) as Hat'.
  { intros k' c' Hin' Heq. pose proof (Hat _ _ Hin' Heq) as Hk. injection Hk as <-. subst xr.
    destruct (inv_chunk_bounds _ _ Hinv _ _ Hin') as (Hk2 & _).
    pose proof (inv_wf _ _ Hinv) as Hw'. apply (cm_lookup_elem 0 _ _ _ Hw') in Hin, Hin'.
    split; congruence. }
  simpl. wp_step. eapply chunk_at_spec; [done|exact Hin|].
  rewrite (proj2 (Z.eqb_neq _ _) Hxr). simpl. destruct (Z.eqb_spec (bc_offset c) xr) as [He|He]; simpl.
  2: { wp_step. split_and!; [done|apply dirty_nil|]. intros k' c' Hin' Heq.
       destruct (Hat' _ _ Hin' Heq). congruence. }
  wp_step. eapply needs_flush_spec; [exact Hin|]. intros [] Hb; simpl.
  2: { wp_step. split_and!; [done|apply dirty_nil|]. intros k' c' Hin' Heq.
       destruct (Hat' _ _ Hin' Heq) as [-> _]. rewrite <- Hb. done. }
  wp_step. wp_step.
  assert (cm_next (bc_offset c) (chunkmap s) = cm_begin suf) as ->.
  { rewrite Hm. by eapply cm_next_split. }
  eapply wp_mono.
  { apply (IH fuel (pre ++ [(bc_offset c, c)])); [by rewrite <- app_assoc|simpl in Hf; lia| |].
    { unfold AZNFSC_BAD_OFFSET, AZNFSC_MAX_FILE_SIZE, AZNFSC_MAX_BLOCK_SIZE in *. lia. }
    intros k' c' Hin' Heq. destruct (inv_chunk_bounds _ _ Hinv _ _ Hin') as (-> & _ & ? & _).
    rewrite Hm in Hin'. eapply cm_begin_at; [exact Hw|exact Hin'|lia]. }
  simpl. intros r s' (-> & Hrun & Hmax). split_and!; [done| |done].
  rewrite <- He. eapply dirty_cons; [done|tauto|done].
Qed.
End extent.

(** ** The result of a lookup *)

(** What a get that started in [s0] returned ([v]) and left behind ([s]). *)
Record got (s0 : cache) (offset len : Z) (v : list bytes_chunk) (s : cache) : Prop := {
  got_inv : inv s;
  got_cov : covers v offset (offset + len);
  got_map : ∀ k c, (k, c) ∈ chunkmap s ↔ (k, c) ∈ chunkmap s0 ∨
    ∃ bc, bc ∈ v ∧ bc_is_new bc = true ∧ k = bc_offset bc ∧ c = entry bc;
  got_heap : ∀ id mb, membufs s0 !! id = Some mb → ∃ mb', membufs s !! id = Some mb' ∧ more_held mb mb';
  got_inuse : ∀ bc, bc ∈ v → ∃ mb, membufs s !! bc_alloc_buffer bc = Some mb ∧ 0 < mb_inuse mb;
  got_view : ∀ bc, bc ∈ v → ∃ k c, (k, c) ∈ chunkmap s ∧ is_view bc c;
  got_new : ∀ bc, bc ∈ v → bc_is_new bc = true ↔
    disjoint_from (bc_offset bc) (bc_end bc) (chunkmap s0);
  got_start : Forall (starts s0 offset) v;
}.

(** [l, r) extends the chunks that cache the first and the last byte of the
    range by runs of chunks that need flushing, as far as possible on the
    right. *)
Definition extent_ok (offset len l r : Z) (s : cache) : Prop :=
  ∃ cl cr, cm_find offset (chunkmap s) = Some cl ∧
    cm_find (offset + len - 1) (chunkmap s) = Some cr ∧
    dirty_run s l (bc_offset cl) ∧ dirty_run s (bc_end cr) r ∧ stops_at s r.

Section finish.
#[local] Arguments find_left : simpl never.
#[local] Arguments find_right : simpl never.
Context (s0 : cache) (Hinv0 : inv s0) (offset len : Z) (Hoff : 0 ≤ offset) (Hlen : 0 < len).
Context (Hchunk : len ≤ AZNFSC_MAX_CHUNK_SIZE) (Hfile : offset + len ≤ AZNFSC_MAX_FILE_SIZE).

(** The state in which [allocate_only_chunk:] is reached. *)
Record fin_st (x : scan_st) (s : cache) : Prop := {
  f_get : get_st s0 offset (next_offset (s_cur x)) (s_vec x) s;
  f_sum : next_offset (s_cur x) + remaining_length (s_cur x) = offset + len;
  f_rem : 0 ≤ remaining_length (s_cur x);
  f_del : s_del x = del0;
  f_below : 0 < remaining_length (s_cur x) →
    ∀ k c, (k, c) ∈ chunkmap s0 → bc_end c ≤ next_offset (s_cur x);
  f_xl : xl_ok s0 offset (x_left (s_ext x));
  f_lb : lb_ok s0 (lookback_it (s_ext x));
  f_xr : xr_ok s0 (offset + len) (Z.max (x_right (s_ext x)) (offset + len));
  f_xr_rem : remaining_length (s_cur x) = 0 → offset + len ≤ x_right (s_ext x);
  f_it : lb_ok s0 (it (s_cur x));
  f_at : ∀ k c, (k, c) ∈ chunkmap s0 →
    bc_offset c = Z.max (x_right (s_ext x)) (offset + len) → it (s_cur x) = Some k;
}.

Lemma got_of_ins v s :
  ins_st s0 v [] s → covers v offset (offset + len) → Forall (starts s0 offset) v → got s0 offset len v s.
Proof.
  intros [Hinv Hmap Hheap Hvec Hids Hdone Hview Hnewv] Hcov Hst. split; try done.
  - intros bc Hb. destruct (Hview _ Hb) as [Hn|(k & c & Hin & Hv)].
    + exists (bc_offset bc), (entry bc). split; [apply Hmap; right; eauto|].
      destruct (Hnewv _ Hb Hn) as [-> _]. by split; unfold bc_end; simpl; try lia.
    + exists k, c. split; [apply Hmap; by left|done].
  - intros bc Hb. split; [intros Hn; by apply Hnewv|]. intros Hd.
    destruct (Hview _ Hb) as [?|(k & c & Hin & [_ Hlo Hhi _ _])]; [done|]. exfalso.
    assert (0 < bc_length bc).
    { apply list_elem_of_split in Hb as (v1 & v2 & ->). by apply covers_app in Hcov as (? & _ & _ & ? & _). }
    unfold bc_end in *. destruct (Hd _ _ Hin); unfold bc_end in *; lia.
Qed.

(** The chunks of the vector are parts of different membufs. *)
Lemma got_nodup v s : got s0 offset len v s → NoDup (bc_alloc_buffer <$> v).
Proof.
  intros Hg. pose proof (got_cov _ _ _ _ _ Hg) as Hcov. pose proof (inv_ids _ _ (got_inv _ _ _ _ _ Hg)) as Hids.
  apply NoDup_fmap_2_strong; [|by eapply covers_nodup].
  assert (∀ b k c, b ∈ v → (k, c) ∈ chunkmap s → is_view b c → bc_offset b = offset ∨ bc_offset b = bc_offset c) as Hst.
  { intros b k c Hb Hin Hv. pose proof (got_start _ _ _ _ _ Hg) as Hst. rewrite Forall_forall in Hst.
    destruct (Hst _ Hb) as [Hn|[?|(k' & c' & Hin' & Hv' & ?)]]; [|by left|]; right.
    - assert ((k, c) = (bc_offset b, entry b)) as E.
      { eapply (ids_inj (chunkmap s)); [done|done|apply (got_map _ _ _ _ _ Hg); right; by exists b|]. simpl. by rewrite <- (view_alloc _ _ Hv). }
      by injection E as _ ->.
    - assert ((k, c) = (k', c')) as E.
      { eapply (ids_inj (chunkmap s)); [done|done|apply (got_map _ _ _ _ _ Hg); by left|]. simpl. by rewrite <- (view_alloc _ _ Hv), <- (view_alloc _ _ Hv'). }
      by injection E as _ ->. }
  intros b1 b2 H1 H2 Heq. destruct (got_view _ _ _ _ _ Hg _ H1) as (k1 & c1 & Hin1 & Hv1).
  destruct (got_view _ _ _ _ _ Hg _ H2) as (k2 & c2 & Hin2 & Hv2).
  assert ((k1, c1) = (k2, c2)) as E.
  { eapply (ids_inj (chunkmap s)); [done..|]. simpl. by rewrite <- (view_alloc _ _ Hv1), <- (view_alloc _ _ Hv2). }
  injection E as <- <-. destruct (covers_elem _ _ _ _ Hcov H1), (covers_elem _ _ _ _ Hcov H2).
  pose proof (view_lo _ _ Hv1). pose proof (view_lo _ _ Hv2).
  assert (bc_offset b1 = bc_offset b2) as Ho by (destruct (Hst _ _ _ H1 Hin1 Hv1), (Hst _ _ _ H2 Hin2 Hv2); lia).
  assert (∀ b, b ∈ v → 0 < bc_length b) as Hl.
  { intros b (v1 & v2 & ->)%list_elem_of_split. by apply covers_app in Hcov as (? & _ & _ & ? & _). }
  pose proof (Hl _ H1). pose proof (Hl _ H2). eapply (covers_unique _ _ _ _ _ (bc_offset b1) Hcov); [done..| |]; unfold bc_end; lia.
Qed.

(** The chunk that caches a byte of the range after the lookup. *)
Lemma got_find v s x :
  got s0 offset len v s → offset ≤ x < offset + len → ∃ bc c, bc ∈ v ∧
    bc_offset bc ≤ x < bc_end bc ∧ cm_find x (chunkmap s) = Some c ∧ is_view bc c.
Proof.
  intros Hg Hx. destruct (covers_at _ _ _ x (got_cov _ _ _ _ _ Hg) Hx) as (bc & Hb & Hbx).
  destruct (got_view _ _ _ _ _ Hg _ Hb) as (k & c & Hin & Hv). exists bc, c. split; [done|]. split; [done|]. split; [|done].
  pose proof (inv_wf _ _ (got_inv _ _ _ _ _ Hg)) as Hw.
  destruct (cm_wf_elem _ _ _ _ Hw Hin) as (-> & _). apply (cm_find_elem 0); [done|].
  split; [done|]. destruct Hv. lia.
Qed.

(** A chunk of the old map keeps caching its bytes. *)
Lemma got_find_old v s k c x :
  got s0 offset len v s → (k, c) ∈ chunkmap s0 → bc_offset c ≤ x < bc_end c →
  cm_find x (chunkmap s) = Some c.
Proof.
  intros Hg Hin Hx. destruct (inv_chunk_bounds _ _ Hinv0 _ _ Hin) as (-> & _).
  apply (cm_find_elem 0); [apply (inv_wf _ _ (got_inv _ _ _ _ _ Hg))|].
  split; [|done]. apply (got_map _ _ _ _ _ Hg). by left.
Qed.

(** The first and last chunk of the range have the edges [scan] starts from. *)
Lemma left_edge v s xl :
  got s0 offset len v s → xl_ok s0 offset xl →
  ∃ c, cm_find offset (chunkmap s) = Some c ∧ bc_offset c = xl.
Proof.
  intros Hg [[-> Hno]|(k & c & Hin & Hc & ->)]; [|exists c; split; [by eapply got_find_old|done]].
  destruct (got_find v s offset Hg ltac:(lia)) as (bc & c & Hb & Hbx & Hf & Hv). exists c.
  split; [done|]. pose proof (view_lo _ _ Hv). pose proof (view_hi _ _ Hv).
  destruct (covers_elem _ _ _ _ (got_cov _ _ _ _ _ Hg) Hb).
  apply (cm_find_elem 0) in Hf as [Hf Hfx]; [|apply (inv_wf _ _ (got_inv _ _ _ _ _ Hg))].
  apply (got_map _ _ _ _ _ Hg) in Hf as [Hf|(b & Hb' & _ & _ & ->)].
  - specialize (Hno _ _ Hf). lia.
  - simpl in *. destruct (covers_elem _ _ _ _ (got_cov _ _ _ _ _ Hg) Hb'). lia.
Qed.

Lemma right_edge v s xr :
  got s0 offset len v s → xr_ok s0 (offset + len) xr →
  ∃ c, cm_find (offset + len - 1) (chunkmap s) = Some c ∧ bc_end c = xr.
Proof.
  intros Hg [[-> Hno]|(k & c & Hin & Hc & ->)]; [|exists c; split; [eapply got_find_old; [done..|lia]|done]].
  destruct (got_find v s (offset + len - 1) Hg ltac:(lia)) as (bc & c & Hb & Hbx & Hf & Hv). exists c.
  split; [done|]. pose proof (view_lo _ _ Hv). pose proof (view_hi _ _ Hv).
  destruct (covers_elem _ _ _ _ (got_cov _ _ _ _ _ Hg) Hb).
  apply (cm_find_elem 0) in Hf as [Hf Hfx]; [|apply (inv_wf _ _ (got_inv _ _ _ _ _ Hg))].
  apply (got_map _ _ _ _ _ Hg) in Hf as [Hf|(b & Hb' & _ & _ & ->)].
  - specialize (Hno _ _ Hf). lia.
  - unfold entry, bc_end in *. simpl in *.
    destruct (covers_elem _ _ _ _ (got_cov _ _ _ _ _ Hg) Hb'). unfold bc_end in *. lia.
Qed.

Lemma finish_get fe x s :
  fin_st x s →
  wp (scan_finish SCAN_ACTION_GET fe x) s (λ r s', got s0 offset len (r_vec r) s' ∧
    r_released r = 0 ∧ (fe = true → extent_ok offset len (r_left r) (r_right r) s')).
Proof.
  intros [Hget Hsum Hrem Hdel Hbelow Hxl Hlb Hxr Hxr0 Hit Hat]. unfold scan_finish.
  wp_step. eapply wp_mono; [by apply (alloc_last s0 offset len)|].
  cbv beta. intros x1 s1 (Hget1 & Hext & Hdel1 & Hit1 & Hlast).
  pose proof (g_cov _ _ _ _ _ Hget1) as Hcov.
  wp_step. eapply wp_mono.
  { apply (ins_all s0 Hinv0 _ [] s1 offset (offset + len)); [by eapply ins_init|done]. }
  cbv beta. simpl. rewrite Hext, Hdel1, Hdel. intros xr s2 (Hins & Hxr1 & Hxr2).
  pose proof (got_of_ins _ _ Hins Hcov (g_start _ _ _ _ _ Hget1)) as Hg. pose proof (got_inv _ _ _ _ _ Hg) as Hinv.
  assert (xr = Z.max (x_right (s_ext x)) (offset + len)) as ->.
  { destruct (decide (remaining_length (s_cur x) = 0)) as [Hz|Hz]; [specialize (Hxr0 Hz); lia|].
    destruct Hlast as [id Hl]; [lia|]. enough (offset + len ≤ xr) by lia. apply Hxr2. by eexists. }
  wp_step. wp_step. wp_step. do 2 (apply wp_bind_assert; [done|]). wp_step.
  destruct fe; [|wp_step; split_and!; done].
  destruct (left_edge _ _ _ Hg Hxl) as (cl & Hcl & Hcl').
  destruct (right_edge _ _ _ Hg Hxr) as (cr & Hcr & Hcr').
  assert (∀ k, lb_ok s0 (Some k) → ∃ c pre post, chunkmap s2 = pre ++ (k, c) :: post) as Hsplit.
  { intros k Hk. destruct (Hk k) as [c Hc]; [done|]. exists c. apply (list_elem_of_split (chunkmap s2)).
    apply (got_map _ _ _ _ _ Hg). by left. }
  assert (∀ x, x ≤ AZNFSC_MAX_FILE_SIZE → x ≠ AZNFSC_BAD_OFFSET) as Hbad.
  { unfold AZNFSC_BAD_OFFSET, AZNFSC_MAX_FILE_SIZE, AZNFSC_MAX_BLOCK_SIZE. lia. }
  wp_step. eapply (wp_mono _ _ (λ l s', s' = s2 ∧ dirty_run s2 l (bc_offset cl))).
  { rewrite Hcl'. destruct (lookback_it (s_ext x)) as [k|]; [|wp_step; split; [done|apply dirty_nil]].
    destruct (Hsplit k Hlb) as (c & pre & post & Hm). eapply find_left_spec; [done|done| |].
    { rewrite Hm, length_app. lia. }
    destruct Hxl as [[-> _]|(? & ? & Hin & ? & ->)]; apply Hbad; [lia|].
    destruct (inv_chunk_bounds _ _ Hinv0 _ _ Hin) as (_ & ? & ? & ?). unfold bc_end in *. lia. }
  cbv beta. intros l s' [-> Hl]. wp_step.
  eapply (wp_mono _ _ (λ r s', s' = s2 ∧ dirty_run s2 (bc_end cr) r ∧ stops_at s2 r)).
  { rewrite Hcr', Hit1. assert (∃ pre suf, chunkmap s2 = pre ++ suf ∧ cm_begin suf = it (s_cur x)) as (pre & suf & Hm & Hb).
    { destruct (it (s_cur x)) as [k|]; [|exists (chunkmap s2), []; by rewrite app_nil_r].
      destruct (Hsplit k Hit) as (c & pre & post & Hm). by exists pre, ((k, c) :: post). }
    rewrite <- Hb. eapply find_right_spec; [done|done|rewrite Hm, length_app; lia| |].
    - apply Hbad. rewrite <- Hcr'. apply (cm_find_elem 0) in Hcr as [Hin _]; [|apply (inv_wf _ _ Hinv)].
      by destruct (inv_chunk_bounds _ _ Hinv _ _ Hin) as (_ & _ & _ & ?).
    - intros k c Hin Heq. rewrite Hb. apply (got_map _ _ _ _ _ Hg) in Hin as [Hin|(b & Hb' & _ & _ & ->)];
        [by eapply Hat|]. exfalso. simpl in Heq.
      assert (0 < bc_length b).
      { apply list_elem_of_split in Hb' as (v1 & v2 & Hv). rewrite Hv in Hcov.
        by apply covers_app in Hcov as (? & _ & _ & ? & _). }
      destruct (covers_elem _ _ _ _ Hcov Hb'). unfold bc_end in *. lia. }
  cbv beta. intros r s' (-> & Hr & Hstop). wp_step. simpl. split_and!; try done. intros _.
  exists cl, cr. done.
Qed.

Lemma fin_of_loop x s suf :
  loop_st s0 offset len suf x s → remaining_length (s_cur x) = 0 ∨ suf = [] → s_vec x ≠ [] →
  xl_ok s0 offset (x_left (s_ext x)) → lb_ok s0 (lookback_it (s_ext x)) → fin_st x s.
Proof.
  intros [Hget Hit (pre & Hm & Hpre & Hpre2) Hsuf Hsum Hrem Hdel Hxr] Hend Hne Hxl Hlb.
  destruct (Hxr Hne) as [Hok Hnext]. specialize (Hpre2 Hne).
  set (n := next_offset (s_cur x)) in *. set (xr := x_right (s_ext x)) in *.
  assert (n ≤ xr) as Hge by (destruct Hok as [[-> _]|(? & ? & _ & ? & ->)]; lia).
  assert (0 < remaining_length (s_cur x) → ∀ k c, (k, c) ∈ chunkmap s0 → bc_end c ≤ n) as Hbelow.
  { intros Hpos k c. destruct Hend as [?| ->]; [lia|]. rewrite Hm, app_nil_r. by apply Hpre. }
  split; try done; fold xr.
  - destruct (decide (remaining_length (s_cur x) = 0)) as [Hz|Hz].
    + replace (Z.max xr (offset + len)) with xr by lia. by replace (offset + len) with n by lia.
    + left. specialize (Hbelow ltac:(lia)). split.
      * destruct Hok as [[-> _]|(k & c & Hin & ? & Heq)]; [lia|]. specialize (Hbelow _ _ Hin). lia.
      * intros k c Hin. specialize (Hbelow _ _ Hin). lia.
  - lia.
  - intros k Hk. rewrite Hit in Hk. destruct suf as [|[k' c'] suf]; [done|injection Hk as <-].
    exists c'. rewrite Hm, elem_of_app, elem_of_cons. tauto.
  - intros k c Hin Heq. pose proof (inv_wf _ _ Hinv0) as Hw.
    destruct (cm_wf_elem _ _ _ _ Hw Hin) as (-> & _ & ? & _). rewrite Hm in Hin.
    apply elem_of_app in Hin as [Hp|Hs]; [specialize (Hpre2 _ _ Hp); unfold bc_end in *; lia|].
    assert (remaining_length (s_cur x) = 0) by (destruct Hend as [?| ->]; [done|by apply elem_of_nil in Hs]).
    rewrite Hit. destruct suf as [|[k' c'] suf]; [by apply elem_of_nil in Hs|]. simpl.
    assert (xr ≤ k') by (eapply Hnext; by left). rewrite Hm in Hw.
    apply elem_of_cons in Hs as [?|Hs]; [by simplify_eq|].
    destruct (cm_wf_keys_gt _ _ _ _ _ Hw _ _ Hs). lia.
Qed.

Lemma scan_get_body fe :
  wp (scan_body SCAN_ACTION_GET offset len fe) s0 (λ r s', got s0 offset len (r_vec r) s' ∧
    r_released r = 0 ∧ (fe = true → extent_ok offset len (r_left r) (r_right r) s')).
Proof.
  unfold scan_body. wp_step. wp_step. simpl. rewrite (proj1 (inv_mem _ _ Hinv0)).
  apply wp_bind_assert; [done|]. wp_step. eapply wp_mono; [by apply start_get|]. cbv beta.
  intros j s Hj. destruct j as [|x|x]; simpl in Hj; [done|..].
  - destruct Hj as (Hget & Hv & Hd & Hn & Hr & Hbelow & Hxl & Hxr & Hlb & Hit).
    apply finish_get. split; try done; rewrite ?Hn, ?Hr, ?Hxl, ?Hxr, ?Hv, ?Z.max_id; try done; try lia.
    + left. split; [done|]. intros k c Hin. specialize (Hbelow _ _ Hin). lia.
    + left. split; [done|]. intros k c Hin. specialize (Hbelow _ _ Hin). lia.
    + intros k c Hin. destruct (inv_chunk_bounds _ _ Hinv0 _ _ Hin) as (_ & _ & ? & _).
      specialize (Hbelow _ _ Hin). unfold bc_end in *. lia.
  - destruct Hj as (suf & Hl & Hf & Hxl & Hlb & Hne).
    apply wp_bind_assert.
    { apply negb_true_iff, Z.eqb_neq.
      destruct Hxl as [[-> _]|(? & ? & _ & ? & ->)];
        unfold AZNFSC_BAD_OFFSET, AZNFSC_MAX_FILE_SIZE, AZNFSC_MAX_BLOCK_SIZE in *; lia. }
    wp_step. eapply wp_mono; [eapply (loop_for s0 Hinv0 offset len); (exact Hl || lia)|].
    cbv beta. intros x' s' (suf' & Hl' & Hend & Hlb' & Hxl' & Hv).
    apply finish_get. eapply fin_of_loop; [done|done| |by rewrite Hxl'|by rewrite Hlb'].
    destruct Hv as [[Hv ->]|?]; [|done]. intros Hnil.
    pose proof (g_cov _ _ _ _ _ (l_get _ _ _ _ _ _ Hl)) as Hc. rewrite Hnil in Hc. simpl in Hc.
    pose proof (l_sum _ _ _ _ _ _ Hl). destruct Hend as [?| ->]; [lia|].
    pose proof (l_it _ _ _ _ _ _ Hl) as Hi. rewrite (l_it _ _ _ _ _ _ Hl') in Hi.
    destruct suf; [by apply Hne|done].
Qed.
End finish.
