(* ===== verification/CacheGet.v ===== *)
(** * get() and getx()

    The public lookups: pruning, a pending invalidation and the scan together.
    [byte_at] is the abstract view of a cache, a partial map from file offsets
    to storage cells; the theorems state what a lookup does to it. *)
From S2P Require Import Prelude CacheState Membuf MembufSpec ChunkMap FileCache CacheInv CacheOps Purge ScanGet.

(** The cell (membuf, index into its buffer) that caches file offset [x]. *)
Definition cell (c : bytes_chunk) (x : Z) : nat * Z :=
  (bc_alloc_buffer c, bc_buffer_offset c + (x - bc_offset c)).

Definition byte_at (s : cache) (x : Z) : option (nat * Z) :=
  (λ c, cell c x) <$> cm_find x (chunkmap s).

(** The range a caller may ask for. *)
Record get_range (offset len : Z) : Prop := {
  gr_off : 0 ≤ offset;
  gr_len : 0 < len ≤ AZNFSC_MAX_CHUNK_SIZE;
  gr_file : offset + len ≤ AZNFSC_MAX_FILE_SIZE;
}.

(** Byte [x] is cached and may not be dropped: it is inuse, locked, dirty or not
    committed. *)
Definition busy_at (s : cache) (x : Z) : Prop :=
  ∃ c, cm_find x (chunkmap s) = Some c ∧ purgeable s (bc_offset c, c) = false.

Lemma scan_checks_ok a offset len s (Q : () → cache → Prop) :
  0 ≤ offset → 0 < len → offset + len ≤ AZNFSC_MAX_FILE_SIZE → is_get a || is_release a = true →
  (len ≤ AZNFSC_MAX_CHUNK_SIZE ∨ is_release a = true) → Q () s → wp (scan_checks a offset len) s Q.
Proof.
  intros Hoff Hlen Hfile Ha Hmax HQ. unfold scan_checks.
  assert (offset + len < 2 ^ 63).
  { unfold AZNFSC_MAX_FILE_SIZE, AZNFSC_MAX_BLOCK_SIZE in *. lia. }
  rewrite !i64_small, !u64_small by (rewrite ?i64_small by lia; lia).
  wp_asserts ltac:(first [cmp|destruct Hmax as [?%Z.leb_le| ->]; [by apply orb_true_iff; left|apply orb_true_r]]).
  by wp_step.
Qed.

(** Invalidation and scan, from any state that satisfies the invariant. *)
Lemma scan_get_spec s offset len fe :
  inv s → get_range offset len →
  wp (scan SCAN_ACTION_GET offset len fe) s (λ r s', ∃ s1, purged s s1 ∧
    (invalidate_pending s = false → chunkmap s1 = chunkmap s ∧ membufs s1 = membufs s) ∧
    got s1 offset len (r_vec r) s' ∧
    (fe = true → extent_ok offset len (r_left r) (r_right r) s')).
Proof.
  intros Hinv [Hoff [Hlen Hmax] Hfile]. unfold scan. wp_step. apply scan_checks_ok; try done; [by left|].
  wp_asserts done. unfold test_and_clear_invalidate_pending. repeat wp_step.
  pose proof (inv_set_invalidate _ _ false Hinv) as Hinv'.
  eapply (wp_mono _ _ (λ _ s1, purged s s1 ∧
    (invalidate_pending s = false → chunkmap s1 = chunkmap s ∧ membufs s1 = membufs s))).
  { destruct (invalidate_pending s).
    - eapply wp_mono; [by apply clear_nolock_spec|]. cbv beta. intros _ s1 [Hp _].
      split; [|done]. by eapply purged_same; [..|exact Hp].
    - wp_step. split; [|done]. by eapply purged_same; [..|apply purged_refl, Hinv']. }
  cbv beta. intros _ s1 [Hp Hsame]. eapply wp_mono.
  { apply scan_get_body; try done. apply (pu_inv _ _ Hp). }
  cbv beta. intros r s' (Hg & _ & Hx). eauto.
Qed.

(** Counting the call and pruning before the scan. *)
Lemma get_prologue pg ra s len (k : () → MC scan_res) Q :
  inv s → 0 ≤ len → (∀ s1, purged s s1 → wp (k ()) s1 Q) →
  wp (do_ stat_add num_get 1; do_ stat_add bytes_get len; bind (inline_prune pg ra) k) s Q.
Proof.
  intros Hinv Hlen Hk. unfold stat_add. repeat wp_step.
  pose proof (inv_count _ _ num_get 1 Hinv eq_refl ltac:(lia)) as Hinv1.
  pose proof (inv_count _ _ bytes_get len Hinv1 eq_refl Hlen) as Hinv2.
  eapply wp_mono; [by apply inline_prune_spec|]. cbv beta. intros [] s1 [Hp _].
  apply Hk. by eapply purged_same; [..|exact Hp].
Qed.

(** A lookup: some purgeable chunks go, then the range is looked up. *)
Definition looked_up (s : cache) (offset len : Z) (v : list bytes_chunk) (s' : cache) : Prop :=
  ∃ s1, purged s s1 ∧ got s1 offset len v s'.

Lemma get_scan_spec pg ra s offset len fe :
  inv s → get_range offset len →
  wp (do_ stat_add num_get 1; do_ stat_add bytes_get len; do_ inline_prune pg ra;
      scan SCAN_ACTION_GET offset len fe) s
    (λ r s', looked_up s offset len (r_vec r) s' ∧
      (fe = true → extent_ok offset len (r_left r) (r_right r) s')).
Proof.
  intros Hinv Hr. apply get_prologue; [done|destruct Hr; lia|]. intros s1 Hp.
  eapply wp_mono; [apply scan_get_spec; [apply (pu_inv _ _ Hp)|done]|]. cbv beta.
  intros r s' (s2 & Hp2 & _ & Hg & Hx). split; [|done]. exists s2. split; [|done].
  by eapply purged_trans.
Qed.

Lemma get_spec pg ra s offset len :
  inv s → get_range offset len →
  wp (get pg ra offset len) s (λ v s', looked_up s offset len v s').
Proof.
  intros Hinv Hr. destruct (get_scan_spec pg ra s offset len false Hinv Hr) as (r & s' & Hrun & Hl & _).
  exists (r_vec r), s'. split; [|done]. unfold get, bind in *.
  repeat (case_match; simplify_eq; try done).
Qed.

Lemma getx_spec pg ra s offset len :
  inv s → get_range offset len →
  wp (getx pg ra offset len) s (λ r s', looked_up s offset len r.1.1 s' ∧
    extent_ok offset len r.1.2 r.2 s').
Proof.
  intros Hinv Hr. destruct (get_scan_spec pg ra s offset len true Hinv Hr) as (r & s' & Hrun & Hl & Hx).
  exists (r_vec r, r_left r, r_right r), s'. split; [|auto]. unfold getx, bind in *.
  repeat (case_match; simplify_eq; try done).
Qed.

Section looked_up.
Context (s : cache) (Hinv : inv s) (offset len : Z) (v : list bytes_chunk) (s' : cache).
Context (Hl : looked_up s offset len v s').

Lemma up_inv : inv s'.
Proof. destruct Hl as (s1 & _ & Hg). apply (got_inv _ _ _ _ _ Hg). Qed.

(** Every byte of the range is cached where the returned chunk says. *)
Lemma up_in_range x :
  offset ≤ x < offset + len → ∃ bc, bc ∈ v ∧ bc_offset bc ≤ x < bc_end bc ∧
    byte_at s' x = Some (cell bc x).
Proof.
  destruct Hl as (s1 & _ & Hg). intros Hx.
  destruct (got_find _ _ _ _ _ _ Hg Hx) as (bc & c & Hb & Hbx & Hf & [Ha _ _ Hbo _]).
  exists bc. split; [done|]. split; [done|]. unfold byte_at, cell. rewrite Hf. simpl.
  do 2 f_equal; [done|lia].
Qed.

(** Chunks that are busy stay as they are. *)
Lemma up_busy k c mb :
  (k, c) ∈ chunkmap s → membufs s !! bc_alloc_buffer c = Some mb → purgeable s (k, c) = false →
  (k, c) ∈ chunkmap s' ∧ ∃ mb', membufs s' !! bc_alloc_buffer c = Some mb' ∧ more_held mb mb'.
Proof.
  destruct Hl as (s1 & Hp & Hg). intros Hin Hmb Hnp.
  assert ((k, c) ∈ chunkmap s1) as Hin1.
  { destruct (decide ((k, c) ∈ chunkmap s1)); [done|].
    by rewrite (pu_drop _ _ Hp (k, c)) in Hnp. }
  split; [apply (got_map _ _ _ _ _ Hg); by left|]. apply (got_heap _ _ _ _ _ Hg).
  by rewrite (purged_chunk s s1 k c Hp Hin (inv_ids _ _ Hinv) Hin1).
Qed.

Lemma purged_byte s1 x : purged s s1 → byte_at s1 x = byte_at s x ∨ byte_at s1 x = None ∧ ¬ busy_at s x.
Proof.
  intros Hp. unfold byte_at. destruct (cm_find x (chunkmap s1)) as [c|] eqn:Hf.
  - left. apply (cm_find_elem 0) in Hf as [Hin Hx]; [|apply (inv_wf _ _ (pu_inv _ _ Hp))].
    assert (cm_find x (chunkmap s) = Some c) as ->; [|done].
    apply (cm_find_elem 0); [apply (inv_wf _ _ Hinv)|]. split; [|done]. by apply (pu_sub _ _ Hp).
  - right. split; [done|]. intros (c & Hc & Hnp).
    apply (cm_find_elem 0) in Hc as [Hin Hx]; [|apply (inv_wf _ _ Hinv)].
    rewrite (pu_drop _ _ Hp) in Hnp; [done|done|]. intros Hin1.
    by eapply (cm_find_None 0 _ _ (inv_wf _ _ (pu_inv _ _ Hp))) in Hin1.
Qed.

(** Outside the range nothing appears, and nothing busy disappears. *)
Lemma up_outside x :
  ¬ (offset ≤ x < offset + len) →
  byte_at s' x = byte_at s x ∨ byte_at s' x = None ∧ ¬ busy_at s x.
Proof.
  destruct Hl as (s1 & Hp & Hg). intros Hx. enough (byte_at s' x = byte_at s1 x) as -> by by apply purged_byte.
  unfold byte_at. f_equal. pose proof (pu_inv _ _ Hp) as Hinv1. pose proof (got_inv _ _ _ _ _ Hg) as Hinv'.
  destruct (cm_find x (chunkmap s1)) as [c|] eqn:Hf.
  - apply (cm_find_elem 0) in Hf as [Hin Hcx]; [|apply (inv_wf _ _ Hinv1)].
    eapply (got_find_old s1); eauto.
  - destruct (cm_find x (chunkmap s')) as [c|] eqn:Hf'; [|done]. exfalso.
    apply (cm_find_elem 0) in Hf' as [Hin Hcx]; [|apply (inv_wf _ _ Hinv')].
    apply (got_map _ _ _ _ _ Hg) in Hin as [Hin|(b & Hb & _ & _ & ->)].
    + by eapply (cm_find_None 0 _ _ (inv_wf _ _ Hinv1)) in Hin.
    + destruct (covers_elem _ _ _ _ (got_cov _ _ _ _ _ Hg) Hb).
      unfold entry, bc_end in *. simpl in *. lia.
Qed.

(** Nothing busy moves, in or out of the range. *)
Lemma up_busy_byte x : busy_at s x → byte_at s' x = byte_at s x.
Proof.
  intros (c & Hf & Hnp). pose proof Hf as Hf'.
  apply (cm_find_elem 0) in Hf' as [Hin Hx]; [|apply (inv_wf _ _ Hinv)].
  destruct (inv_chunk _ _ Hinv _ _ Hin) as (mb & Hmb & _).
  destruct (up_busy _ _ _ Hin Hmb Hnp) as [Hin' _]. unfold byte_at. rewrite Hf.
  assert (cm_find x (chunkmap s') = Some c) as ->; [|done].
  apply (cm_find_elem 0); [apply (inv_wf _ _ up_inv)|done].
Qed.

(** A chunk that is not new returns bytes that were already cached. *)
Lemma up_old bc x :
  bc ∈ v → bc_is_new bc = false → bc_offset bc ≤ x < bc_end bc → byte_at s x = Some (cell bc x).
Proof.
  destruct Hl as (s1 & Hp & Hg). intros Hb Hn Hx.
  destruct (got_view _ _ _ _ _ Hg _ Hb) as (k & c & Hin & [Ha Hlo Hhi Hbo _]).
  apply (got_map _ _ _ _ _ Hg) in Hin as [Hin|(b & Hb' & Hbn & -> & ->)].
  - unfold byte_at. destruct (inv_chunk_bounds _ _ (pu_inv _ _ Hp) _ _ Hin) as (-> & _).
    assert (cm_find x (chunkmap s) = Some c) as ->.
    { apply (cm_find_elem 0); [apply (inv_wf _ _ Hinv)|]. split; [by apply (pu_sub _ _ Hp)|lia]. }
    unfold cell. simpl. do 2 f_equal; [done|lia].
  - exfalso. apply (got_new _ _ _ _ _ Hg _ Hb') in Hbn.
    assert (bc_is_new bc ≠ true) as Hne by congruence. apply Hne, (got_new _ _ _ _ _ Hg _ Hb).
    intros k' c' Hin'. unfold entry, bc_end in *. simpl in *.
    destruct (Hbn _ _ Hin'); unfold bc_end in *; [left|right]; lia.
Qed.
End looked_up.

(** ** Properties of the lookups *)

(** C7: a lookup of a valid range never fails an assertion; it returns chunks
    that tile exactly the requested range, each with a membuf marked inuse, and
    it preserves the invariant of the cache.  This holds for every pruning
    policy and whether or not an invalidation is pending. *)
Theorem get_tiles_range pg ra s offset len :
  inv s → get_range offset len →
  ∃ v s', get pg ra offset len s = Some (v, s') ∧ inv s' ∧ covers v offset (offset + len) ∧
    ∀ bc, bc ∈ v → ∃ mb, membufs s' !! bc_alloc_buffer bc = Some mb ∧ is_inuse mb = true.
Proof.
  intros Hinv Hr. destruct (get_spec pg ra s offset len Hinv Hr) as (v & s' & Hrun & Hl).
  exists v, s'. split_and!; [done|by eapply up_inv|..]; destruct Hl as (s1 & _ & Hg).
  - apply (got_cov _ _ _ _ _ Hg).
  - intros bc Hb. destruct (got_inuse _ _ _ _ _ Hg _ Hb) as (mb & Hmb & ?).
    exists mb. split; [done|]. by apply Z.ltb_lt.
Qed.

Definition no_stats : stats := λ _, 0.
Definition empty_cache : cache := bytes_chunk_cache_new no_stats false.
Definition no_prune (_ _ : Z) : Z := 0.
Definition no_window (_ _ : Z) : bool := false.

Lemma empty_inv : inv empty_cache.
Proof. by apply inv_new. Qed.

Lemma get_tiles_range_witness :
  ∃ v s', get no_prune no_window 5 10 empty_cache = Some (v, s') ∧ inv s' ∧ covers v 5 (5 + 10) ∧
    ∀ bc, bc ∈ v → ∃ mb, membufs s' !! bc_alloc_buffer bc = Some mb ∧ is_inuse mb = true.
Proof. apply get_tiles_range; [apply empty_inv|by split]. Defined.

(** C13: the lookup refines its abstract specification on the byte map.  Inside
    the range every byte is cached in the cell the returned chunk names;
    a chunk not flagged new returns the cells that already cached its bytes;
    outside the range no byte appears; and no busy byte (inuse, locked, dirty or
    uncommitted) moves or disappears anywhere. *)
Theorem get_refines_byte_map pg ra s offset len v s' :
  inv s → get_range offset len → get pg ra offset len s = Some (v, s') →
  (∀ x, offset ≤ x < offset + len → ∃ bc, bc ∈ v ∧ bc_offset bc ≤ x < bc_end bc ∧
     byte_at s' x = Some (cell bc x)) ∧
  (∀ bc x, bc ∈ v → bc_is_new bc = false → bc_offset bc ≤ x < bc_end bc →
     byte_at s x = Some (cell bc x)) ∧
  (∀ x, ¬ (offset ≤ x < offset + len) → byte_at s' x = byte_at s x ∨ byte_at s' x = None) ∧
  (∀ x, busy_at s x → byte_at s' x = byte_at s x).
Proof.
  intros Hinv Hr Hrun. pose proof (wp_run _ _ _ _ _ Hrun (get_spec pg ra s offset len Hinv Hr)) as Hl.
  split_and!.
  - intros x. by eapply up_in_range.
  - intros bc x. by eapply up_old.
  - intros x Hx. destruct (up_outside s Hinv offset len v s' Hl x Hx) as [?|[? _]]; auto.
  - by eapply up_busy_byte.
Qed.

Lemma get_refines_byte_map_witness :
  ∃ v s', get no_prune no_window 5 10 empty_cache = Some (v, s') ∧
    ∀ x, 5 ≤ x < 5 + 10 → ∃ bc, bc ∈ v ∧ bc_offset bc ≤ x < bc_end bc ∧
      byte_at s' x = Some (cell bc x).
Proof.
  destruct (get_spec no_prune no_window empty_cache 5 10 empty_inv) as (v & s' & Hrun & _); [by split|].
  exists v, s'. split; [exact Hrun|].
  apply (get_refines_byte_map no_prune no_window empty_cache 5 10 v s'); [apply empty_inv|by split|exact Hrun].
Defined.

(** A lookup keeps every chunk whose data must not be dropped, together with
    its membuf: offset, length and flags are the same, and it may only have
    gained users. *)
Theorem get_keeps_busy_chunks pg ra s offset len v s' k c mb :
  inv s → get_range offset len → get pg ra offset len s = Some (v, s') →
  (k, c) ∈ chunkmap s → membufs s !! bc_alloc_buffer c = Some mb →
  is_inuse mb || is_locked mb || mb_has Dirty mb || mb_has CommitPending mb = true →
  (k, c) ∈ chunkmap s' ∧ ∃ mb', membufs s' !! bc_alloc_buffer c = Some mb' ∧
    mb_flag mb' = mb_flag mb ∧ mb_offset mb' = mb_offset mb ∧ mb_length mb' = mb_length mb ∧
    mb_inuse mb ≤ mb_inuse mb'.
Proof.
  intros Hinv Hr Hrun Hin Hmb Hbusy.
  pose proof (wp_run _ _ _ _ _ Hrun (get_spec pg ra s offset len Hinv Hr)) as Hl.
  destruct (up_busy s Hinv offset len v s' Hl k c mb Hin Hmb) as (Hin' & mb' & Hmb' & (u & i & ? & ? & ->)).
  - apply not_true_iff_false. rewrite (purgeable_spec _ _ _ _ Hmb). unfold is_inuse, is_locked in Hbusy.
    intros (H1 & H2 & H3 & H4). by rewrite H1, H2, H3, H4 in Hbusy.
  - split; [done|]. eexists; split; [done|]. by split_and!.
Qed.

(** A cache with one chunk in use, [5, 15). *)
Definition one_chunk : cache :=
  match get no_prune no_window 5 10 empty_cache with Some (_, s) => s | None => empty_cache end.

Lemma one_chunk_inv : inv one_chunk.
Proof.
  unfold one_chunk.
  destruct (get_spec no_prune no_window empty_cache 5 10 empty_inv) as (v & s' & Hrun & Hl); [by split|].
  rewrite Hrun. by eapply up_inv.
Qed.

Lemma get_keeps_busy_chunks_witness :
  ∃ v s' mb', get no_prune no_window 0 8 one_chunk = Some (v, s') ∧
    (5, Chunk 0 5 10 0 0 0 true false) ∈ chunkmap s' ∧ membufs s' !! 0%nat = Some mb' ∧ 1 ≤ mb_inuse mb'.
Proof.
  assert (∃ v s', get no_prune no_window 0 8 one_chunk = Some (v, s')) as (v & s' & Hrun)
    by (destruct (get_spec no_prune no_window one_chunk 0 8 one_chunk_inv) as (v & s' & Hrun & _);
        [by split|eauto]).
  destruct (get_keeps_busy_chunks no_prune no_window one_chunk 0 8 v s' 5
    (Chunk 0 5 10 0 0 0 true false) (Membuf 5 10 5 10 10 (-1) 0 1 2)) as (Hin & mb' & Hmb & _ & _ & _ & Hiu);
    [apply one_chunk_inv|by split|exact Hrun|vm_compute; left|vm_compute; reflexivity|vm_compute; reflexivity|].
  exists v, s', mb'. split_and!; done.
Defined.

(** C30: [getx()] does not fail either, and the extent it reports contains the
    range: it is the chunk caching the first byte and the chunk caching the last
    byte, extended to the left and to the right by contiguous chunks that all
    need flushing; the chunk at the right edge, if there is one, does not. *)
Theorem getx_reports_dirty_extent pg ra s offset len :
  inv s → get_range offset len →
  ∃ v l r s', getx pg ra offset len s = Some (v, l, r, s') ∧ inv s' ∧
    covers v offset (offset + len) ∧ l ≤ offset ∧ offset + len ≤ r ∧ extent_ok offset len l r s'.
Proof.
  intros Hinv Hr. destruct (getx_spec pg ra s offset len Hinv Hr) as ([[v l] r] & s' & Hrun & Hl & Hx).
  simpl in *. pose proof (up_inv _ _ _ _ _ Hl) as Hinv'. exists v, l, r, s'.
  destruct Hl as (s1 & _ & Hg). pose proof Hx as (cl & cr & Hcl & Hcr & Hdl & Hdr & _).
  apply (cm_find_elem 0) in Hcl as [_ ?]; [|apply (inv_wf _ _ Hinv')].
  apply (cm_find_elem 0) in Hcr as [_ ?]; [|apply (inv_wf _ _ Hinv')].
  pose proof (dirty_run_le _ Hinv' _ _ Hdl). pose proof (dirty_run_le _ Hinv' _ _ Hdr).
  split_and!; try done; [apply (got_cov _ _ _ _ _ Hg)|lia|lia].
Qed.

Lemma getx_reports_dirty_extent_witness :
  ∃ v l r s', getx no_prune no_window 15 5 one_chunk = Some (v, l, r, s') ∧ inv s' ∧
    covers v 15 (15 + 5) ∧ l ≤ 15 ∧ 15 + 5 ≤ r ∧ extent_ok 15 5 l r s'.
Proof. apply (getx_reports_dirty_extent no_prune no_window one_chunk 15 5); [apply one_chunk_inv|by split]. Defined.

(** What a writer does with a membuf it got: fill it and mark it dirty. *)
Definition write_membuf (id : nat) : MC () :=
  do_ set_locked id; do_ set_uptodate id; do_ set_dirty id; do_ clear_locked id; clear_inuse id.

Definition left_edge_of (m : MC (list bytes_chunk * Z * Z)) : MC Z := do r ← m; mret r.1.2.

(** The left edge [getx(10, 5)] reports after [0, 10) was written, without and
    with a chunk [20, 30) beyond the range. *)
Definition left_edge_alone : MC Z :=
  do_ get no_prune no_window 0 10; do_ write_membuf 0;
  left_edge_of (getx no_prune no_window 10 5).

Definition left_edge_with_later_chunk : MC Z :=
  do_ get no_prune no_window 0 10; do_ write_membuf 0; do_ get no_prune no_window 20 10;
  left_edge_of (getx no_prune no_window 10 5).

(** The left edge depends on an unrelated chunk.  A dirty chunk that touches
    the range from the left is part of the extent when nothing is cached beyond
    the range, but is left out when a later chunk exists: the test that guards
    the look-back reads [next_offset] after it was advanced. *)
Theorem getx_left_edge_depends_on_later_chunk :
  fst <$> left_edge_alone empty_cache = Some 0 ∧
  fst <$> left_edge_with_later_chunk empty_cache = Some 10.
Proof. split; vm_compute; reflexivity. Qed.
