(* ===== verification/ScanRelease.v ===== *)
(** * scan(SCAN_ACTION_RELEASE): releasing a byte range

    [release()] drops the chunks that lie in the range and are safe to release,
    trims the safe chunks that stick out on one side, and leaves everything
    else alone.  [after_release] is the chunkmap it is supposed to leave; the
    loop is proved to compute it, with the bytes it reports. *)
From S2P Require Import Prelude CacheState Membuf MembufSpec ChunkMap FileCache CacheInv CacheOps.

(** The chunk's data may be dropped. *)
Definition chunk_safe (s : cache) (c : bytes_chunk) : bool :=
  match membufs s !! bc_alloc_buffer c with Some mb => safe_mb mb | None => false end.

Section reference.
Context (s0 : cache) (offset e : Z).

(** The chunk lies in [offset, e) and is dropped. *)
Definition drops (p : Z * bytes_chunk) : bool :=
  chunk_safe s0 p.2 && (offset <=? bc_offset p.2) && (bc_end p.2 <=? e).

(** The chunk sticks out on the left only: its tail is cut off. *)
Definition cut_tail (c : bytes_chunk) : bool :=
  chunk_safe s0 c && (bc_offset c <? offset) && (offset <? bc_end c) && (bc_end c <=? e).

(** The chunk sticks out on the right only: its head is cut off. *)
Definition cut_head (c : bytes_chunk) : bool :=
  chunk_safe s0 c && (offset <=? bc_offset c) && (bc_offset c <? e) && (e <? bc_end c).

Definition trims (p : Z * bytes_chunk) : Z * bytes_chunk :=
  let c := p.2 in
  if cut_tail c then (p.1, cut c (bc_offset c) offset)
  else if cut_head c then
    (e, Chunk (bc_alloc_buffer c) e (bc_end c - e) (bc_buffer_offset c + (e - bc_offset c)) 0 0 true false)
  else p.

Definition after_release (m : cmap) : cmap := trims <$> filter (λ p, drops p = false) m.

(** ** Deletion of the collected chunks *)

Lemma dropped_not_trimmed p : drops p = true → trims p = p.
Proof.
  unfold drops, trims, cut_tail, cut_head. rewrite !andb_true_iff, Z.leb_le, Z.leb_le.
  intros [[-> ?] ?]. simpl.
  rewrite (proj2 (Z.ltb_ge (bc_offset p.2) offset)) by lia. simpl.
  rewrite (proj2 (Z.ltb_ge e (bc_end p.2))) by lia. by rewrite !andb_false_r.
Qed.
End reference.

Lemma pu_in_filter s' A fp B p {P : Z * bytes_chunk → Prop} `{!∀ x, Decision (P x)} :
  chunkmap s' = A ++ filter P fp ++ B → p ∈ chunkmap s' → p ∈ A ++ fp ++ B.
Proof.
  intros ->. rewrite !elem_of_app. intros [?|[[_ ?]%list_elem_of_filter|?]]; tauto.
Qed.

(** Deleting the chunks [fp] of [A ++ fp ++ B] that are safe. *)
Lemma delete_spec fp : ∀ A B s,
  inv s → chunkmap s = A ++ fp ++ B →
  wp (scan_delete fp.*1) s (λ n s', inv s' ∧
    chunkmap s' = A ++ filter (λ p, chunk_safe s p.2 = false) fp ++ B ∧
    n = cm_bytes (chunkmap s) - cm_bytes (chunkmap s') ∧ next_id s' = next_id s ∧
    (∀ i, (∀ p, p ∈ chunkmap s → bc_alloc_buffer p.2 = i → p ∈ chunkmap s') →
      membufs s' !! i = membufs s !! i)).
Proof.
  induction fp as [|[k c] fp IH]; intros A B s Hinv Hm; simpl.
  { wp_step. rewrite Hm. split_and!; (done || lia). }
  assert ((k, c) ∈ chunkmap s) as Hin by (rewrite Hm; set_solver).
  destruct (inv_chunk _ _ Hinv _ _ Hin) as (mb & Hmb & _ & Hwf).
  assert (chunk_safe s c = safe_mb mb) as Hcs by (unfold chunk_safe; by rewrite Hmb).
  wp_step. eapply chunk_at_spec; [done|exact Hin|].
  wp_step. eapply safe_to_release_wp; [exact Hmb|done|]. destruct (safe_mb mb) eqn:Hs.
  - rewrite filter_cons_False by (simpl; congruence).
    pose proof (inv_ids _ _ Hinv) as Hnd. rewrite Hm in Hnd. simpl in Hnd.
    apply ids_nodup_middle in Hnd as [_ Hout%bool_decide_eq_false].
    unfold safe_mb in Hs. apply andb_true_iff in Hs as [[_ Hd%negb_true_iff]%andb_true_iff Hcp%negb_true_iff].
    wp_step. eapply wp_mono.
    { eapply (remove_chunk_spec ∅ s A k c (fp ++ B) mb); first [done|set_solver|intros _; split; [done|congruence]]. }
    cbv beta. intros _ s1 [Hinv1 [Hm1 Hother Hnx]].
    assert (∀ p, p ∈ A ++ fp ++ B → membufs s1 !! bc_alloc_buffer p.2 = membufs s !! bc_alloc_buffer p.2) as Hsame.
    { intros [k' c'] Hp. apply Hother. intros Heq. apply Hout, elem_of_ids. eauto. }
    wp_step. eapply wp_mono; [by apply (IH A B s1)|]. cbv beta.
    intros n s' (Hinv' & Hm' & Hn & Hnx' & Hh). wp_step.
    assert (filter (λ p, chunk_safe s1 p.2 = false) fp = filter (λ p, chunk_safe s p.2 = false) fp) as Hf.
    { apply filter_ext_in. intros p Hp. unfold chunk_safe. rewrite Hsame by set_solver. done. }
    rewrite Hf in Hm'. split_and!; try done; try congruence.
    + rewrite Hn, Hm1, Hm, !cm_bytes_app. simpl. lia.
    + intros i Hi. rewrite Hh, Hother; [done|..].
      * intros ->. apply Hout, elem_of_ids. exists k, c. split; [|done].
        eapply (pu_in_filter s'); [exact Hm'|by apply (Hi (k, c))].
      * intros p Hp Heq. apply Hi; [|done]. rewrite Hm. rewrite Hm1 in Hp. set_solver.
  - rewrite filter_cons_True by done. eapply wp_mono.
    { apply (IH (A ++ [(k, c)]) B s Hinv). by rewrite <- app_assoc. }
    cbv beta. intros n s' (? & Hm' & Hn & ? & ?). rewrite <- app_assoc in Hm'. done.
Qed.

Section release.
Context (s0 : cache) (Hinv0 : inv s0) (offset len : Z) (Hoff : 0 ≤ offset) (Hlen : 0 < len).

Abbreviation e := (offset + len).
Abbreviation dropped := (drops s0 offset e).
Abbreviation trimmed := (trims s0 offset e).

(** A chunk outside the range is left alone. *)
Lemma outside p : bc_end p.2 ≤ offset ∨ e ≤ bc_offset p.2 → 0 < bc_length p.2 →
  trimmed p = p ∧ dropped p = false.
Proof.
  unfold drops, trims, cut_tail, cut_head, bc_end. intros Hout ?. split.
  - destruct (chunk_safe s0 p.2), (Z.ltb_spec (bc_offset p.2) offset),
      (Z.ltb_spec offset (bc_offset p.2 + bc_length p.2)), (Z.leb_spec (bc_offset p.2 + bc_length p.2) e),
      (Z.leb_spec offset (bc_offset p.2)), (Z.ltb_spec (bc_offset p.2) e),
      (Z.ltb_spec e (bc_offset p.2 + bc_length p.2)); simpl; (done || lia).
  - destruct (chunk_safe s0 p.2), (Z.leb_spec offset (bc_offset p.2)),
      (Z.leb_spec (bc_offset p.2 + bc_length p.2) e); simpl; (done || lia).
Qed.

(** A chunk inside the range is dropped if it is safe. *)
Lemma within p : offset ≤ bc_offset p.2 → bc_end p.2 ≤ e →
  trimmed p = p ∧ dropped p = chunk_safe s0 p.2.
Proof.
  unfold drops, trims, cut_tail, cut_head. intros.
  rewrite (proj2 (Z.leb_le offset (bc_offset p.2))), (proj2 (Z.leb_le (bc_end p.2) e)) by done.
  rewrite (proj2 (Z.ltb_ge (bc_offset p.2) offset)), (proj2 (Z.ltb_ge e (bc_end p.2))) by done.
  by rewrite !andb_false_r, !andb_true_r.
Qed.

(** A chunk that is not safe is left alone. *)
Lemma unsafe p : chunk_safe s0 p.2 = false → trimmed p = p ∧ dropped p = false.
Proof. unfold drops, trims, cut_tail, cut_head. by intros ->. Qed.

(** A chunk that sticks out on both sides is left alone. *)
Lemma around p : bc_offset p.2 < offset → e < bc_end p.2 → trimmed p = p ∧ dropped p = false.
Proof.
  unfold drops, trims, cut_tail, cut_head. intros.
  rewrite (proj2 (Z.leb_gt offset (bc_offset p.2))), (proj2 (Z.leb_gt (bc_end p.2) e)) by done.
  by rewrite !andb_false_r.
Qed.

(** The deletion range covers the safe chunks seen so far that lie in the range. *)
Definition del_ok (pre suf : cmap) (d : deletion) : Prop :=
  (begin_delete d = None ∧ end_delete d = None ∧ ∀ p, p ∈ pre → dropped p = false) ∨
  ∃ a f b, pre = a ++ f ++ b ∧ f ≠ [] ∧ (∀ p, p ∈ a → dropped p = false) ∧
    (∀ p, p ∈ b → dropped p = false) ∧
    (∀ p, p ∈ f → offset ≤ bc_offset p.2 ∧ bc_end p.2 ≤ e) ∧
    begin_delete d = cm_begin f ∧ end_delete d = cm_begin ((trimmed <$> b) ++ suf).

(** The loop state: [pre] has been visited. *)
Record rel_st (pre suf : cmap) (x : scan_st) (s : cache) : Prop := {
  rl_inv : inv s;
  rl_split : chunkmap s0 = pre ++ suf;
  rl_map : chunkmap s = (trimmed <$> pre) ++ suf;
  rl_safe : ∀ p, p ∈ chunkmap s0 → chunk_safe s p.2 = chunk_safe s0 p.2;
  rl_heap : ∀ i, (∀ p, p ∈ pre → bc_alloc_buffer p.2 = i → trimmed p = p) →
    membufs s !! i = membufs s0 !! i;
  rl_it : 0 < remaining_length (s_cur x) → it (s_cur x) = cm_begin suf;
  rl_suf : 0 < remaining_length (s_cur x) → ∀ p, p ∈ suf → next_offset (s_cur x) < bc_end p.2;
  rl_end : remaining_length (s_cur x) = 0 → ∀ p, p ∈ suf → e ≤ bc_offset p.2;
  rl_first : 0 < remaining_length (s_cur x) → ∀ p, p ∈ suf →
    next_offset (s_cur x) = offset ∨ next_offset (s_cur x) ≤ bc_offset p.2;
  rl_sum : next_offset (s_cur x) + remaining_length (s_cur x) = e;
  rl_rem : 0 ≤ remaining_length (s_cur x) ≤ len;
  rl_trim : released_trim (s_del x) = cm_bytes (chunkmap s0) - cm_bytes (chunkmap s);
  rl_full : released_full1 (s_del x) = cm_bytes (filter (λ p, dropped p = true) pre);
  rl_bound : released_trim (s_del x) + released_full1 (s_del x) ≤ next_offset (s_cur x) - offset;
  rl_del : del_ok pre suf (s_del x);
  rl_vec : s_vec x = [];
}.

Lemma trimmed_key p : p.1 = bc_offset p.2 → 0 < bc_length p.2 → p.1 ≤ (trimmed p).1 < bc_end p.2.
Proof.
  intros Hk Hl. unfold trims. case_match; [simpl; unfold bc_end; lia|].
  case_match eqn:E; [|unfold bc_end; lia]. simpl.
  unfold cut_head in E. rewrite !andb_true_iff, Z.ltb_lt, Z.ltb_lt in E. lia.
Qed.

(** [p] joins the visited chunks and is not to be deleted. *)
Lemma del_skip pre p suf d ed :
  del_ok pre (p :: suf) d → dropped p = false →
  (∀ q, q ∈ pre → (trimmed q).1 < p.1) →
  ed = (if it_eqb (Some p.1) (end_delete d) then Some (trimmed p).1 else end_delete d) →
  del_ok (pre ++ [p]) suf (Del (begin_delete d) ed (released_trim d) (released_full1 d)).
Proof.
  intros [(Hb & He & Hn)|(a & f & b & -> & Hf & Ha & Hb & Hin & Hbeg & Hend)] Hp Hkey ->.
  - left. rewrite He. simpl. split_and!; try done.
    intros q [?| ->%list_elem_of_singleton]%elem_of_app; [by apply Hn|done].
  - right. exists a, f, (b ++ [p]). simpl. split_and!; try done.
    + by rewrite <- !app_assoc.
    + intros q [?| ->%list_elem_of_singleton]%elem_of_app; [by apply Hb|done].
    + rewrite Hend, fmap_app, <- app_assoc. destruct b as [|q b]; simpl; [by rewrite Z.eqb_refl|].
      rewrite (proj2 (Z.eqb_neq _ _)); [done|].
      assert ((trimmed q).1 < p.1) by (apply Hkey; set_solver). lia.
Qed.

(** [p] joins the visited chunks and is to be deleted. *)
Lemma del_add pre p suf d n :
  cm_wf 0 (pre ++ p :: suf) → del_ok pre (p :: suf) d → offset ≤ bc_offset p.2 → bc_end p.2 ≤ e →
  del_ok (pre ++ [p]) suf
    (Del (match begin_delete d with None => Some p.1 | Some _ => begin_delete d end) (cm_begin suf)
         (released_trim d) n).
Proof.
  intros Hw [(Hb & He & Hn)|(a & f & b & -> & Hf & Ha & Hb & Hin & Hbeg & Hend)] Hlo Hhi; right.
  - exists pre, [p], []. rewrite Hb. split_and!; try done; [by intros ? ?%elem_of_nil|].
    intros q ->%list_elem_of_singleton. done.
  - exists a, (f ++ b ++ [p]), []. split_and!; try done.
    + by rewrite app_nil_r, <- !app_assoc.
    + by destruct f.
    + by intros ? ?%elem_of_nil.
    + destruct p as [k c]. intros [k' c'] Hq. simpl in *.
      apply elem_of_app in Hq as [Hq|[Hq|?%list_elem_of_singleton]%elem_of_app];
        [by apply (Hin (k', c'))| |by simplify_eq].
      destruct f as [|[kf cf] f]; [done|]. destruct (Hin (kf, cf)) as [? ?]; [by left|]. simpl in *.
      destruct (cm_wf_keys_lt _ _ _ _ _ Hw k' c') as [? _]; [set_solver|].
      assert (bc_end cf ≤ k' ∧ k' = bc_offset c' ∧ 0 < bc_length cf) as (? & -> & ?).
      { rewrite <- !app_assoc in Hw. simpl in Hw.
        destruct (cm_wf_keys_gt _ _ _ _ _ Hw k' c') as [? _]; [set_solver|].
        destruct (cm_wf_elem _ _ k' c' Hw) as (? & _); [set_solver|].
        destruct (cm_wf_elem _ _ kf cf Hw) as (_ & _ & ? & _); [set_solver|]. done. }
      apply cm_wf_app in Hw as (_ & -> & _ & ? & _). unfold bc_end in *. lia.
    + simpl. rewrite Hbeg. destruct f; [done|]. done.
Qed.

(** Facts about the chunk the iterator points at. *)
Lemma rel_head pre k c suf x s :
  rel_st pre ((k, c) :: suf) x s → ∃ mb,
    (k, c) ∈ chunkmap s0 ∧ (k, c) ∈ chunkmap s ∧ k = bc_offset c ∧ 0 < bc_length c ∧
    cm_wf 0 (pre ++ (k, c) :: suf) ∧ membufs s !! bc_alloc_buffer c = Some mb ∧ linked c mb ∧ mb_wf mb ∧
    safe_mb mb = chunk_safe s0 c ∧ (∀ q, q ∈ suf → bc_end c ≤ bc_offset q.2 ∧ 0 < bc_length q.2) ∧
    (∀ q, q ∈ pre → (trimmed q).1 < k).
Proof.
  intros Hr. pose proof (rl_inv _ _ _ _ Hr) as Hinv. pose proof (rl_split _ _ _ _ Hr) as Hm0.
  pose proof (rl_map _ _ _ _ Hr) as Hm. pose proof (inv_wf _ _ Hinv0) as Hw. rewrite Hm0 in Hw.
  assert ((k, c) ∈ chunkmap s0) as Hin0 by (rewrite Hm0; set_solver).
  assert ((k, c) ∈ chunkmap s) as Hin by (rewrite Hm; set_solver).
  destruct (inv_chunk _ _ Hinv _ _ Hin) as (mb & Hmb & Hl & Hwf).
  destruct (inv_chunk_bounds _ _ Hinv0 _ _ Hin0) as (Hk & _ & ? & _). exists mb. split_and!; try done.
  - pose proof (rl_safe _ _ _ _ Hr _ Hin0) as Hs. simpl in Hs. rewrite <- Hs. unfold chunk_safe. by rewrite Hmb.
  - intros [k' c'] Hq. destruct (cm_wf_keys_gt _ _ _ _ _ Hw _ _ Hq).
    destruct (inv_chunk_bounds _ _ Hinv0 k' c') as (-> & _ & ? & _); [rewrite Hm0; set_solver|]. done.
  - intros [k' c'] Hq. destruct (cm_wf_keys_lt _ _ _ _ _ Hw _ _ Hq).
    destruct (inv_chunk_bounds _ _ Hinv0 k' c') as (-> & _ & ? & _); [rewrite Hm0; set_solver|].
    destruct (trimmed_key (bc_offset c', c')); [done|done|]. simpl in *. lia.
Qed.

Lemma rel_advance pre k c suf x s s' d' it' ext :
  rel_st pre ((k, c) :: suf) x s → 0 < remaining_length (s_cur x) →
  inv s' → chunkmap s' = (trimmed <$> pre) ++ trimmed (k, c) :: suf →
  (∀ i, i ≠ bc_alloc_buffer c ∨ trimmed (k, c) = (k, c) → membufs s' !! i = membufs s !! i) →
  chunk_safe s' c = chunk_safe s0 c →
  released_trim d' = released_trim (s_del x) + (bc_length c - bc_length (trimmed (k, c)).2) →
  released_full1 d' = released_full1 (s_del x) + (if dropped (k, c) then bc_length c else 0) →
  released_trim d' + released_full1 d' ≤ Z.min (bc_end c) e - offset →
  del_ok (pre ++ [(k, c)]) suf d' → (Z.min (bc_end c) e < e → it' = cm_begin suf) →
  rel_st (pre ++ [(k, c)]) suf
    (Scan (Cur (Z.min (bc_end c) e) (e - Z.min (bc_end c) e) it') ext d' []) s'.
Proof.
  intros Hr Hpos Hinv' Hm' Hother Hsafe Ht Hf Hb Hd Hit.
  destruct (rel_head _ _ _ _ _ _ Hr) as (mb & Hin0 & Hin & -> & Hcl & Hw & Hmb & _ & _ & _ & Hsuf & _).
  pose proof (rl_suf _ _ _ _ Hr Hpos (bc_offset c, c) ltac:(by left)) as Hlt. simpl in Hlt.
  destruct Hr as [Hinv Hm0 Hm Hs Hh Hit0 Hsuf0 Hend0 Hfirst0 Hsum Hrem Htr Hfu Hbd Hdel Hvec].
  split; simpl; try done; try lia.
  - by rewrite <- app_assoc.
  - by rewrite Hm', fmap_app, <- app_assoc.
  - intros p Hp. destruct (decide (bc_alloc_buffer p.2 = bc_alloc_buffer c)) as [Heq|Hne].
    + unfold chunk_safe in *. by rewrite Heq.
    + rewrite <- (Hs p Hp). unfold chunk_safe. by rewrite Hother by (by left).
  - intros i Hi. rewrite Hother.
    + apply Hh. intros p Hp. apply Hi. set_solver.
    + destruct (decide (i = bc_alloc_buffer c)) as [->|]; [|by left]. right. apply Hi; set_solver.
  - intros ?. apply Hit. lia.
  - intros ? q Hq. destruct (Hsuf _ Hq). unfold bc_end in *. lia.
  - intros ? q Hq. destruct (Hsuf _ Hq). lia.
  - intros ? q Hq. right. destruct (Hsuf _ Hq). lia.
  - rewrite Ht, Htr, Hm', Hm, !cm_bytes_app. simpl. destruct (trimmed _). simpl. lia.
  - rewrite Hf, Hfu, filter_app, cm_bytes_app. destruct (dropped (bc_offset c, c)) eqn:E.
    + rewrite filter_cons_True by done. simpl. lia.
    + rewrite filter_cons_False by congruence. simpl. lia.
Qed.

(** A visited chunk that stays as it is. *)
Lemma rel_keep pre k c suf x s ext it' :
  rel_st pre ((k, c) :: suf) x s → 0 < remaining_length (s_cur x) →
  trimmed (k, c) = (k, c) → dropped (k, c) = false → it' = cm_begin suf →
  rel_st (pre ++ [(k, c)]) suf
    (Scan (Cur (Z.min (bc_end c) e) (e - Z.min (bc_end c) e) it') ext (s_del x) []) s.
Proof.
  intros Hr Hpos Ht Hd ->. destruct (rel_head _ _ _ _ _ _ Hr) as (mb & Hin0 & _ & _ & _ & _ & _ & _ & _ & _ & _ & Hkey).
  pose proof (rl_suf _ _ _ _ Hr Hpos (k, c) ltac:(by left)) as Hlt. simpl in Hlt.
  pose proof (rl_bound _ _ _ _ Hr). pose proof (rl_sum _ _ _ _ Hr). pose proof (rl_rem _ _ _ _ Hr).
  eapply rel_advance; try done; rewrite ?Ht, ?Hd; simpl; try lia.
  - apply (rl_inv _ _ _ _ Hr).
  - apply (rl_map _ _ _ _ Hr).
  - apply (rl_safe _ _ _ _ Hr (k, c) Hin0).
  - pose proof (del_skip pre (k, c) suf (s_del x) _ (rl_del _ _ _ _ Hr) Hd Hkey eq_refl) as Hd'.
    rewrite Ht in Hd'. simpl in Hd'. destruct (s_del x) as [b [k'|] t f]; simpl in *; [|done].
    destruct (Z.eqb_spec k k') as [->|]; done.
Qed.

Lemma iter_trim_head pre c suf n rem it0 ext d s :
  let x := Scan (Cur n rem it0) ext d [] in
  rel_st pre ((bc_offset c, c) :: suf) x s → 0 < rem → n = bc_offset c → e < bc_end c →
  chunk_safe s0 c = true →
  wp (trim_chunk_left (bc_offset c) rem) s (λ k' s',
    rel_st (pre ++ [(bc_offset c, c)]) suf
      (Scan (Cur e 0 (Some (bc_offset c))) ext
        (Del (begin_delete d) (if it_eqb (Some (bc_offset c)) (end_delete d) then Some k' else end_delete d)
           (released_trim d + rem) (released_full1 d)) []) s').
Proof.
  intros x Hr Hpos Hn He Hs. pose proof (rl_sum _ _ _ _ Hr) as Hsum. pose proof (rl_rem _ _ _ _ Hr) as Hrem.
  pose proof (rl_bound _ _ _ _ Hr) as Hbd. simpl in *.
  destruct (rel_head _ _ _ _ _ _ Hr) as (mb & Hin0 & Hin & _ & Hcl & Hw & Hmb & Hlk & Hwf & Hsm & Hsuf & Hkey).
  assert (trimmed (bc_offset c, c) = (e, Chunk (bc_alloc_buffer c) e (bc_end c - e)
    (bc_buffer_offset c + (e - bc_offset c)) 0 0 true false)) as Ht.
  { unfold trims, cut_tail, cut_head. simpl. rewrite Hs.
    rewrite (proj2 (Z.ltb_ge (bc_offset c) offset)), (proj2 (Z.leb_le offset (bc_offset c))) by lia.
    rewrite (proj2 (Z.ltb_lt (bc_offset c) e)), (proj2 (Z.ltb_lt e (bc_end c))) by lia. done. }
  assert (dropped (bc_offset c, c) = false) as Hd.
  { unfold drops. simpl. rewrite (proj2 (Z.leb_gt (bc_end c) e)) by lia. apply andb_false_r. }
  eapply wp_mono.
  { eapply (trim_chunk_left_spec ∅ s (trimmed <$> pre) _ c suf mb rem);
      [apply (rl_inv _ _ _ _ Hr)|apply (rl_map _ _ _ _ Hr)|done|congruence|unfold bc_end in *; lia]. }
  cbv beta. intros k' s' (-> & Hinv' & [Hm' Hother Hthis _]). simpl in Hthis.
  replace (bc_offset c + rem) with e in * by lia.
  replace e with (Z.min (bc_end c) e) at 1 by lia. replace 0 with (e - Z.min (bc_end c) e) at 1 by lia.
  pose proof (del_skip pre (bc_offset c, c) suf d _ (rl_del _ _ _ _ Hr) Hd Hkey eq_refl) as Hdel.
  rewrite Ht in Hdel.
  eapply rel_advance; try done; simpl; rewrite ?Ht, ?Hd; simpl; try lia.
  - rewrite Hm'. do 3 f_equal. f_equal; unfold bc_end in *; lia.
  - intros i [Hi|Hi]; [by apply Hother|]. exfalso. injection Hi as Hi _. lia.
  - rewrite Hs, <- Hsm in *. unfold chunk_safe. rewrite Hthis. by rewrite <- Hs.
  - unfold bc_end in *. lia.
Qed.

Lemma iter_trim_tail pre c suf n rem it0 ext d s :
  let x := Scan (Cur n rem it0) ext d [] in
  rel_st pre ((bc_offset c, c) :: suf) x s → 0 < rem → n = offset → bc_offset c < offset →
  bc_end c ≤ e → chunk_safe s0 c = true →
  wp (trim_chunk_right (bc_offset c) n (bc_end c - n)) s (λ _ s',
    rel_st (pre ++ [(bc_offset c, c)]) suf
      (Scan (Cur (bc_end c) (e - bc_end c) (cm_begin suf)) ext
        (Del (begin_delete d) (end_delete d) (released_trim d + (bc_end c - n)) (released_full1 d)) []) s').
Proof.
  intros x Hr Hpos -> Hlo He Hs. pose proof (rl_sum _ _ _ _ Hr) as Hsum. pose proof (rl_rem _ _ _ _ Hr) as Hrem.
  pose proof (rl_bound _ _ _ _ Hr) as Hbd.
  pose proof (rl_suf _ _ _ _ Hr Hpos (bc_offset c, c) ltac:(by left)) as Hlt. simpl in *.
  destruct (rel_head _ _ _ _ _ _ Hr) as (mb & Hin0 & Hin & _ & Hcl & Hw & Hmb & Hlk & Hwf & Hsm & Hsuf & Hkey).
  assert (trimmed (bc_offset c, c) = (bc_offset c, cut c (bc_offset c) offset)) as Ht.
  { unfold trims, cut_tail. simpl. rewrite Hs.
    rewrite (proj2 (Z.ltb_lt (bc_offset c) offset)), (proj2 (Z.ltb_lt offset (bc_end c))) by lia.
    by rewrite (proj2 (Z.leb_le (bc_end c) e)) by lia. }
  assert (dropped (bc_offset c, c) = false) as Hd.
  { unfold drops. simpl. rewrite (proj2 (Z.leb_gt offset (bc_offset c))) by lia.
    by rewrite andb_false_r. }
  eapply wp_mono.
  { eapply (trim_chunk_right_spec ∅ s (trimmed <$> pre) _ c suf mb offset);
      [apply (rl_inv _ _ _ _ Hr)|apply (rl_map _ _ _ _ Hr)|done|congruence|lia]. }
  cbv beta. intros _ s' (Hinv' & [Hm' Hother Hthis _]). simpl in Hthis.
  replace (Scan (Cur (bc_end c) (e - bc_end c) (cm_begin suf))) with
    (Scan (Cur (Z.min (bc_end c) e) (e - Z.min (bc_end c) e) (cm_begin suf))) by (do 2 f_equal; lia).
  pose proof (del_skip pre (bc_offset c, c) suf d _ (rl_del _ _ _ _ Hr) Hd Hkey eq_refl) as Hdel.
  assert ((if it_eqb (Some (bc_offset c)) (end_delete d) then Some (trimmed (bc_offset c, c)).1
    else end_delete d) = end_delete d) as Hed.
  { rewrite Ht. destruct (end_delete d) as [k'|]; simpl; [|done]. by destruct (Z.eqb_spec (bc_offset c) k') as [->|]. }
  simpl in Hed, Hdel. rewrite Hed in Hdel.
  eapply rel_advance; try done; simpl; rewrite ?Ht, ?Hd; simpl; try lia.
  - by rewrite Hm'.
  - intros i [Hi|Hi]; [by apply Hother|]. exfalso. injection Hi as Hi. apply (f_equal bc_length) in Hi.
    unfold bc_end in *. simpl in Hi. lia.
  - rewrite Hs, <- Hsm in *. unfold chunk_safe. rewrite Hthis. by rewrite <- Hs.
  - unfold bc_end in *. lia.
Qed.

(** Common start of an iteration. *)
Lemma iter_start pre c suf x s Q :
  rel_st pre ((bc_offset c, c) :: suf) x s → 0 < remaining_length (s_cur x) →
  wp (if next_offset (s_cur x) =? bc_offset c then scan_at_start SCAN_ACTION_RELEASE (bc_offset c) c x
      else if next_offset (s_cur x) <? bc_offset c then scan_before SCAN_ACTION_RELEASE (bc_offset c) c x
      else scan_inside SCAN_ACTION_RELEASE offset len (bc_offset c) c x) s Q →
  wp (scan_iter SCAN_ACTION_RELEASE offset len (bc_offset c) x) s Q.
Proof.
  intros Hr Hpos HQ. destruct (rel_head _ _ _ _ _ _ Hr) as (mb & _ & Hin & _ & _ & _ & Hmb & [Ho Hl _] & _).
  pose proof (rl_suf _ _ _ _ Hr Hpos (bc_offset c, c) ltac:(by left)) as Hlt. simpl in Hlt.
  unfold scan_iter. wp_step. eapply chunk_at_spec; [apply (rl_inv _ _ _ _ Hr)|exact Hin|].
  wp_step. eapply get_membuf_wp; [exact Hmb|]. by wp_asserts cmp.
Qed.

Lemma rel_iter pre k c suf x s :
  rel_st pre ((k, c) :: suf) x s → 0 < remaining_length (s_cur x) →
  wp (scan_iter SCAN_ACTION_RELEASE offset len k x) s (λ x' s',
    rel_st (pre ++ [(k, c)]) suf x' s' ∨
    rel_st pre ((k, c) :: suf) x' s' ∧ next_offset (s_cur x) < bc_offset c ∧
      (next_offset (s_cur x') = bc_offset c ∨ remaining_length (s_cur x') = 0)).
Proof.
  intros Hr Hpos.
  destruct (rel_head _ _ _ _ _ _ Hr) as (mb & Hin0 & Hin & -> & Hcl & Hw & Hmb & Hlk & Hwf & Hsm & Hsuf & Hkey).
  pose proof (rl_suf _ _ _ _ Hr Hpos (bc_offset c, c) ltac:(by left)) as Hlt.
  pose proof (rl_first _ _ _ _ Hr Hpos (bc_offset c, c) ltac:(by left)) as Hfst.
  pose proof (rl_sum _ _ _ _ Hr) as Hsum. pose proof (rl_rem _ _ _ _ Hr) as Hrem.
  pose proof (rl_bound _ _ _ _ Hr) as Hbd. pose proof (rl_vec _ _ _ _ Hr) as Hvec.
  apply (iter_start pre _ suf); [done|done|]. destruct x as [[n rem it0] ext d v]. simpl in *. subst v.
  assert (cm_next (bc_offset c) (chunkmap s) = cm_begin suf) as Hnext.
  { rewrite (rl_map _ _ _ _ Hr). eapply cm_next_split. rewrite <- (rl_map _ _ _ _ Hr).
    apply (inv_wf _ _ (rl_inv _ _ _ _ Hr)). }
  assert (∀ l, l = Z.min (bc_end c - n) rem → Z.min (bc_end c) e = n + l ∧ e - Z.min (bc_end c) e = rem - l) as Hcur by lia.
  assert (∀ l, l = Z.min (bc_end c - n) rem → trimmed (bc_offset c, c) = (bc_offset c, c) →
    dropped (bc_offset c, c) = false →
    rel_st (pre ++ [(bc_offset c, c)]) suf (Scan (Cur (n + l) (rem - l) (cm_begin suf)) ext d []) s) as Hkeep.
  { intros l Hl Ht Hd. destruct (Hcur l Hl) as [<- <-]. by apply (rel_keep pre _ c suf _ s ext _ Hr). }
  destruct (Z.eqb_spec n (bc_offset c)) as [Heq|Hne]; [|destruct (Z.ltb_spec n (bc_offset c)) as [Hb|Hb]].
  - (* the range (still) starts at this chunk *)
    unfold scan_at_start. cbv zeta. wp_step. wp_step. simpl. rewrite Hnext.
    wp_asserts ltac:(unfold bc_end in *; cmp).
    wp_step. eapply safe_to_release_wp; [exact Hmb|done|]. rewrite Hsm.
    destruct (chunk_safe s0 c) eqn:Hs.
    2: { unfold advance. wp_step. wp_asserts ltac:(unfold bc_end in *; cmp). wp_step. wp_step. left.
         destruct (unsafe (bc_offset c, c) Hs). apply Hkeep; [unfold bc_end; lia|done|done]. }
    destruct (Z.eqb_spec (Z.min (bc_length c) rem) (bc_length c)) as [Hfull|Hpart].
    + (* whole chunk: noted for deletion *)
      unfold advance. wp_step. wp_asserts cmp. wp_step. wp_step. left. rewrite Hfull. simpl.
      destruct (within (bc_offset c, c)) as [Ht Hd]; [simpl; lia|simpl; unfold bc_end; lia|]. simpl in Hd.
      destruct (Hcur (bc_length c)) as [<- <-]; [unfold bc_end; lia|].
      eapply (rel_advance _ _ _ _ _ s); try done; simpl; rewrite ?Ht, ?Hd, ?Hs; simpl; try lia.
      * apply (rl_inv _ _ _ _ Hr).
      * apply (rl_map _ _ _ _ Hr).
      * rewrite <- Hs. apply (rl_safe _ _ _ _ Hr (bc_offset c, c) Hin0).
      * unfold bc_end. lia.
      * apply (del_add pre (bc_offset c, c) suf d); [done|apply (rl_del _ _ _ _ Hr)|simpl; lia|
          simpl; unfold bc_end; lia].
    + (* head of the chunk: trimmed *)
      replace (Z.min (bc_length c) rem) with rem by lia. wp_asserts cmp. wp_step.
      eapply wp_mono; [eapply iter_trim_head; try done; unfold bc_end; lia|]. cbv beta.
      intros k' s' Hr'. unfold advance. wp_step. wp_asserts cmp. wp_step. wp_step. left. simpl.
      by replace (n + rem) with e by lia; rewrite Z.sub_diag.
  - (* a gap *)
    unfold scan_before, advance. cbv zeta. simpl. wp_step. wp_asserts cmp. wp_step. wp_step. right. simpl.
    split; [|lia]. destruct Hr as [? ? ? ? ? ? ? ? ? ? ? ? ? ? ? ?].
    split; simpl in *; try done; try lia.
    + intros _ p [->|Hp]%elem_of_cons; [unfold bc_end in *; simpl; lia|]. destruct (Hsuf _ Hp). unfold bc_end in *. lia.
    + intros ? p [->|Hp]%elem_of_cons; [unfold bc_end in *; simpl; lia|]. destruct (Hsuf _ Hp). unfold bc_end in *. lia.
    + intros ? p [->|Hp]%elem_of_cons; [unfold bc_end in *; simpl; lia|]. destruct (Hsuf _ Hp). unfold bc_end in *. lia.
  - (* the range starts inside this chunk *)
    assert (n = offset ∧ rem = len) as [-> ->] by lia.
    unfold scan_inside. cbv zeta. wp_step. wp_step. simpl. rewrite Hnext.
    wp_asserts ltac:(unfold bc_end in *; cmp).
    wp_step. eapply safe_to_release_wp; [exact Hmb|done|]. rewrite Hsm.
    destruct (chunk_safe s0 c) eqn:Hs.
    2: { unfold advance. wp_step. wp_asserts ltac:(unfold bc_end in *; cmp). wp_step. wp_step. left.
         destruct (unsafe (bc_offset c, c) Hs). apply Hkeep; done. }
    case_match eqn:Ha; bools.
    + wp_asserts cmp. wp_step. replace (Z.min (bc_end c - offset) len) with (bc_end c - offset) by lia.
      eapply wp_mono; [eapply iter_trim_tail; try done; lia|]. cbv beta.
      intros _ s' Hr'. unfold advance. wp_step. wp_asserts cmp. wp_step. wp_step. left. simpl.
      replace (offset + (bc_end c - offset)) with (bc_end c) by lia.
      by replace (len - (bc_end c - offset)) with (e - bc_end c) by lia.
    + wp_asserts ltac:(rewrite Z.eqb_refl; done). unfold advance. wp_step.
      wp_asserts ltac:(unfold bc_end in *; cmp). wp_step. wp_step. left.
      destruct (around (bc_offset c, c)); [simpl; lia|simpl; lia|]. by apply Hkeep.
Qed.

Lemma rel_done fuel pre suf x s :
  rel_st pre suf x s → remaining_length (s_cur x) = 0 ∨ suf = [] →
  scan_for fuel SCAN_ACTION_RELEASE offset len x s = Some (x, s).
Proof.
  intros Hr Hd. pose proof (rl_it _ _ _ _ Hr) as Hit. pose proof (rl_rem _ _ _ _ Hr).
  destruct fuel; simpl; (destruct (Z.eqb_spec (remaining_length (s_cur x)) 0); [done|]);
    (destruct Hd as [?| ->]; [lia|]); by rewrite Hit by lia.
Qed.

Lemma rel_for_S fuel x k :
  remaining_length (s_cur x) ≠ 0 → it (s_cur x) = Some k →
  scan_for (S fuel) SCAN_ACTION_RELEASE offset len x =
  bind (scan_iter SCAN_ACTION_RELEASE offset len k x) (scan_for fuel SCAN_ACTION_RELEASE offset len).
Proof. intros Hr Hit. simpl. by rewrite (proj2 (Z.eqb_neq _ _) Hr), Hit. Qed.

Lemma rel_for suf : ∀ fuel pre x s,
  rel_st pre suf x s → (2 * length suf ≤ fuel)%nat →
  wp (scan_for fuel SCAN_ACTION_RELEASE offset len x) s (λ x' s', ∃ pre' suf',
    rel_st pre' suf' x' s' ∧ (remaining_length (s_cur x') = 0 ∨ suf' = [])).
Proof.
  induction suf as [|[k c] suf IH]; intros fuel pre x s Hr Hfuel.
  { exists x, s. split; [by eapply rel_done; eauto|]. eauto. }
  destruct (decide (remaining_length (s_cur x) = 0)) as [Hz|Hnz].
  { exists x, s. split; [by eapply rel_done; eauto|]. eauto. }
  pose proof (rl_rem _ _ _ _ Hr). simpl in Hfuel. destruct fuel as [|[|fuel]]; [lia|lia|].
  rewrite (rel_for_S _ _ k) by (done || apply (rl_it _ _ _ _ Hr); lia). wp_step.
  eapply wp_mono; [apply (rel_iter _ _ _ _ _ _ Hr); lia|]. cbv beta.
  intros x1 s1 [Hr1|(Hr1 & Hlt1 & Hend)]; [eapply IH; [done|lia]|].
  destruct (decide (remaining_length (s_cur x1) = 0)) as [Hz1|Hnz1].
  { exists x1, s1. split; [by apply (rel_done (S fuel) _ _ _ _ Hr1); left|]. eauto. }
  pose proof (rl_rem _ _ _ _ Hr1).
  rewrite (rel_for_S _ _ k) by (done || apply (rl_it _ _ _ _ Hr1); lia). wp_step.
  eapply wp_mono; [apply (rel_iter _ _ _ _ _ _ Hr1); lia|]. cbv beta.
  intros x2 s2 [Hr2|(Hr2 & Hlt2 & _)]; [eapply IH; [done|lia]|].
  (* the second iteration starts at the chunk's first byte, so it consumes it *)
  lia.
Qed.

(** *** Where the scan starts *)
Lemma rel_init pre suf n rem it0 ext :
  chunkmap s0 = pre ++ suf → (∀ p, p ∈ pre → bc_end p.2 ≤ offset) →
  (0 < rem → ∀ p, p ∈ suf → n < bc_end p.2) → (rem = 0 → ∀ p, p ∈ suf → e ≤ bc_offset p.2) →
  (∀ p, p ∈ suf → n = offset ∨ n ≤ bc_offset p.2) → it0 = cm_begin suf →
  offset ≤ n → n + rem = e → 0 ≤ rem →
  rel_st pre suf (Scan (Cur n rem it0) ext del0 []) s0.
Proof.
  intros Hm Hpre Hsuf Hend Hfirst Hit Hn Hsum Hrem.
  assert (∀ p, p ∈ pre → trimmed p = p ∧ dropped p = false) as Hout.
  { intros [k c] Hp. apply outside; [left; by apply Hpre|].
    by destruct (inv_chunk_bounds _ _ Hinv0 k c) as (_ & _ & ? & _); [rewrite Hm; set_solver|]. }
  assert (trimmed <$> pre = pre) as Hmap.
  { rewrite <- (list_fmap_id pre) at 2. apply list_fmap_ext. intros i p Hp.
    apply Hout. by eapply list_elem_of_lookup_2. }
  split; simpl; try done; try lia.
  - by rewrite Hmap.
  - rewrite filter_none; [done|]. intros p Hp. destruct (Hout _ Hp) as [_ ->]. done.
  - left. split_and!; try done. intros p Hp. by destruct (Hout _ Hp).
Qed.

Definition rel_start_ok (j : scan_jump) (s : cache) : Prop :=
  s = s0 ∧
  match j with
  | J_end => ∀ p, p ∈ chunkmap s0 → bc_end p.2 ≤ offset
  | J_alloc _ => False
  | J_loop x => ∃ pre suf, rel_st pre suf x s0
  end.

Lemma start_rel : wp (scan_start SCAN_ACTION_RELEASE offset len) s0 rel_start_ok.
Proof.
  pose proof (inv_wf _ _ Hinv0) as Hw.
  destruct (cm_split_at _ _ offset Hw) as (pre & suf & Hm & Hpre & Hsuf).
  assert (∀ k c, (k, c) ∈ chunkmap s0 → k = bc_offset c ∧ 0 < bc_length c) as Hk.
  { intros k c Hin. by destruct (inv_chunk_bounds _ _ Hinv0 _ _ Hin) as (? & _ & ? & _). }
  assert (∀ k c, (k, c) ∈ pre → k < offset) as Hprek.
  { intros k c Hin. destruct (Hk k c); [rewrite Hm, elem_of_app; tauto|].
    specialize (Hpre _ _ Hin). unfold bc_end in *. lia. }
  assert (∀ p, p ∈ pre → bc_end p.2 ≤ offset) as Hpre' by (intros [k c]; apply Hpre).
  unfold scan_start. wp_step. wp_step. cbv zeta. rewrite Hm in *.
  destruct suf as [|[k c] suf].
  - rewrite cm_lower_bound_split; [|done|by intros ? ? ?%elem_of_nil]. simpl.
    rewrite (cm_prev_last None); [|done|by intros ? ? ?%elem_of_nil].
    assert (rel_start_ok J_end s0) as Hj.
    { split; [done|]. intros p. rewrite Hm, app_nil_r. apply Hpre'. }
    destruct (last pre) as [[k c]|] eqn:Hlast; simpl; [|by wp_step].
    apply last_elem in Hlast. wp_step. eapply chunk_at_spec; [done|rewrite Hm, elem_of_app; by left|].
    rewrite (proj2 (Z.leb_le _ _)) by (by eapply Hpre). by wp_step.
  - assert ((k, c) ∈ pre ++ (k, c) :: suf) as Hin by (rewrite elem_of_app, elem_of_cons; tauto).
    destruct (Hk _ _ Hin) as [-> Hcl].
    assert (offset < bc_end c) as Hce by (eapply Hsuf; by left).
    assert (∀ k' c', (k', c') ∈ suf → bc_end c ≤ k') as Hgt by (intros ? ? ?; by eapply cm_wf_keys_gt).
    assert (∀ ext, rel_start_ok (J_loop (Scan (Cur offset len (Some (bc_offset c))) ext del0 [])) s0) as Hin_case.
    { intros ext. split; [done|]. exists pre, ((bc_offset c, c) :: suf). apply rel_init; try done; try lia.
      intros _ [k' c'] Hp. by eapply Hsuf. }
    assert (∀ lb, offset < bc_offset c →
      wp (scan_gap SCAN_ACTION_RELEASE offset len (bc_offset c) (bc_offset c) lb) s0 rel_start_ok) as Hgap.
    { intros lb Hlt. unfold scan_gap. cbv zeta. simpl. wp_step. split; [done|].
      exists pre, ((bc_offset c, c) :: suf). apply rel_init; try done; try lia.
      all: intros; match goal with H : ?p ∈ _ :: _ |- _ => destruct p as [k' c'];
        apply elem_of_cons in H as [?|Hp]; [simplify_eq; unfold bc_end in *; simpl; lia|] end.
      all: specialize (Hgt _ _ Hp); destruct (Hk k' c') as [-> ?]; [set_solver|unfold bc_end in *; simpl; lia]. }
    destruct (Z.leb_spec offset (bc_offset c)) as [Hle|Hgt1].
    + rewrite cm_lower_bound_split; [|done|].
      2: { intros k' c' [?|Hs]%elem_of_cons; [by simplify_eq|].
           specialize (Hgt _ _ Hs). unfold bc_end in *. lia. }
      simpl. wp_step. eapply chunk_at_spec; [done|by rewrite Hm|]. wp_asserts cmp.
      destruct (Z.eqb_spec (bc_offset c) offset) as [Heq|Hne]; [by wp_step|].
      rewrite (cm_prev_middle _ _ _ _ _ Hw).
      destruct (last pre) as [[kp cp]|] eqn:Hlast; simpl; [|apply Hgap; lia].
      apply last_elem in Hlast. wp_step. eapply chunk_at_spec; [done|rewrite Hm, elem_of_app; by left|].
      rewrite (proj2 (Z.leb_le _ _)) by (by eapply Hpre). apply Hgap. lia.
    + assert (cm_lower_bound offset (pre ++ (bc_offset c, c) :: suf) = cm_begin suf) as ->.
      { rewrite cons_middle, app_assoc. apply cm_lower_bound_split.
        - intros k' c' [Hp|?%list_elem_of_singleton]%elem_of_app; [by eapply Hprek|by simplify_eq].
        - intros k' c' Hs. specialize (Hgt _ _ Hs). lia. }
      assert (∀ it, (∀ k' c', (k', c') ∈ suf → key_before k' it = false) → key_before (bc_offset c) it = true →
        (∀ k' c', (k', c') ∈ pre → key_before k' it = true) →
        cm_prev it (pre ++ (bc_offset c, c) :: suf) = Some (bc_offset c)) as Hprev.
      { intros. by apply cm_prev_split. }
      destruct suf as [|[k2 c2] suf2]; simpl.
      * rewrite (Hprev None); [|by intros ? ? ?%elem_of_nil|done|done].
        wp_step. eapply chunk_at_spec; [done|by rewrite Hm|].
        rewrite (proj2 (Z.leb_gt _ _)) by done. by wp_step.
      * assert ((k2, c2) ∈ pre ++ (bc_offset c, c) :: (k2, c2) :: suf2) as Hin2
          by (rewrite elem_of_app, !elem_of_cons; tauto).
        destruct (Hk _ _ Hin2) as [-> Hc2l]. assert (bc_end c ≤ bc_offset c2) by (eapply Hgt; by left).
        wp_step. eapply chunk_at_spec; [done|by rewrite Hm|]. wp_asserts cmp.
        rewrite (proj2 (Z.eqb_neq _ _)) by lia.
        assert (cm_prev (Some (bc_offset c2)) (pre ++ (bc_offset c, c) :: (bc_offset c2, c2) :: suf2)
          = Some (bc_offset c)) as ->.
        { rewrite cons_middle, app_assoc in Hw |- *. rewrite (cm_prev_middle _ _ _ _ _ Hw).
          by rewrite last_snoc. }
        simpl. wp_step. eapply chunk_at_spec; [done|by rewrite Hm|].
        rewrite (proj2 (Z.leb_gt _ _)) by done. by wp_step.
Qed.

(** ** The result *)

(** [n] bytes were released and [s'] is left behind. *)
Record released (n : Z) (s' : cache) : Prop := {
  re_inv : inv s';
  re_map : chunkmap s' = after_release s0 offset e (chunkmap s0);
  re_bytes : n = st s0 bytes_cached - st s' bytes_cached;
  re_le : 0 ≤ n ≤ len;
  re_heap : ∀ i, (∀ p, p ∈ chunkmap s0 → bc_alloc_buffer p.2 = i → p ∈ chunkmap s') →
    membufs s' !! i = membufs s0 !! i;
}.

Lemma cached_bytes s n :
  inv s → n = cm_bytes (chunkmap s0) - cm_bytes (chunkmap s) → n = st s0 bytes_cached - st s bytes_cached.
Proof. intros Hinv. by rewrite (inv_cached _ _ Hinv0), (inv_cached _ _ Hinv). Qed.

Lemma after_release_outside m :
  (∀ p, p ∈ m → trimmed p = p ∧ dropped p = false) → after_release s0 offset e m = m.
Proof.
  intros Hm. unfold after_release. rewrite filter_all by (intros p Hp; by destruct (Hm _ Hp)).
  rewrite <- (list_fmap_id m) at 2. apply list_fmap_ext. intros i p Hp.
  apply Hm. by eapply list_elem_of_lookup_2.
Qed.

Lemma after_release_app m1 m2 :
  after_release s0 offset e (m1 ++ m2) = after_release s0 offset e m1 ++ after_release s0 offset e m2.
Proof. unfold after_release. by rewrite filter_app, fmap_app. Qed.

Lemma after_release_kept m :
  (∀ p, p ∈ m → dropped p = false) → after_release s0 offset e m = trimmed <$> m.
Proof. intros Hm. unfold after_release. by rewrite filter_all. Qed.

(** The chunks of the deletion range: the unsafe ones stay. *)
Lemma after_release_range (f : cmap) :
  (∀ p, p ∈ f → offset ≤ bc_offset p.2 ∧ bc_end p.2 ≤ e) →
  after_release s0 offset e f = filter (λ p, chunk_safe s0 p.2 = false) f ∧
  cm_bytes (filter (λ p, dropped p = true) f) = cm_bytes f - cm_bytes (after_release s0 offset e f).
Proof.
  intros Hf. assert (after_release s0 offset e f = filter (λ p, chunk_safe s0 p.2 = false) f) as ->.
  { unfold after_release. rewrite (filter_ext_in _ (λ p, chunk_safe s0 p.2 = false)).
    - rewrite <- (list_fmap_id (filter _ f)) at 2. apply list_fmap_ext.
      intros i p [_ Hp]%list_elem_of_lookup_2%list_elem_of_filter. destruct (Hf _ Hp). by apply within.
    - intros p Hp. destruct (Hf _ Hp). by destruct (within p) as [_ ->]. }
  split; [done|]. induction f as [|p f IH]; [done|].
  rewrite !filter_cons. destruct (Hf p) as [Hlo Hhi]; [by left|]. destruct (within p Hlo Hhi) as [_ Hd].
  specialize (IH ltac:(intros; apply Hf; by right)). rewrite Hd.
  destruct (chunk_safe s0 p.2), p as [k c]; simpl; lia.
Qed.

Lemma after_release_le (m : cmap) :
  (∀ p, p ∈ m → 0 < bc_length p.2) → cm_bytes (after_release s0 offset e m) ≤ cm_bytes m.
Proof.
  unfold after_release. induction m as [|p m IH]; intros Hm; [done|].
  assert (0 < bc_length p.2) as Hl by (apply Hm; by left).
  specialize (IH ltac:(intros; apply Hm; by right)). rewrite filter_cons. case_decide.
  - rewrite fmap_cons, !cm_bytes_cons. enough (bc_length (trimmed p).2 ≤ bc_length p.2) by lia.
    unfold trims. destruct (cut_tail s0 offset e p.2) eqn:E1; [|destruct (cut_head s0 offset e p.2) eqn:E2; [|lia]].
    + unfold cut_tail in E1. bools. unfold bc_end in *. simpl. lia.
    + unfold cut_head in E2. bools. unfold bc_end in *. simpl. lia.
  - rewrite cm_bytes_cons. lia.
Qed.

Lemma after_release_trimmed_range (f : cmap) :
  (∀ p, p ∈ f → offset ≤ bc_offset p.2 ∧ bc_end p.2 ≤ e) → trimmed <$> f = f.
Proof.
  intros Hf. rewrite <- (list_fmap_id f) at 2. apply list_fmap_ext. intros i p Hp%list_elem_of_lookup_2.
  destruct (Hf _ Hp). by apply within.
Qed.

(** A chunk found in the final map was left alone. *)
Lemma after_release_same p :
  p ∈ chunkmap s0 → p ∈ after_release s0 offset e (chunkmap s0) → trimmed p = p ∧ dropped p = false.
Proof.
  intros Hp (q & Heq & [Hq Hin]%list_elem_of_filter)%list_elem_of_fmap.
  assert (p = q) as <-; [|done].
  eapply ids_inj; [apply (inv_ids _ _ Hinv0)|done|done|]. rewrite Heq. unfold trims. by repeat case_match.
Qed.

(** The deletion loop turns the visited chunkmap into the final one. *)
Lemma delete_range pre suf d s :
  inv s → chunkmap s0 = pre ++ suf → chunkmap s = (trimmed <$> pre) ++ suf →
  (∀ p, p ∈ chunkmap s0 → chunk_safe s p.2 = chunk_safe s0 p.2) →
  (∀ i, (∀ p, p ∈ pre → bc_alloc_buffer p.2 = i → trimmed p = p) → membufs s !! i = membufs s0 !! i) →
  released_full1 d = cm_bytes (filter (λ p, dropped p = true) pre) →
  del_ok pre suf d → after_release s0 offset e suf = suf →
  wp (scan_delete (cm_range (begin_delete d) (end_delete d) (chunkmap s))) s (λ n s',
    n = released_full1 d ∧ n = cm_bytes (chunkmap s) - cm_bytes (chunkmap s') ∧ inv s' ∧
    chunkmap s' = after_release s0 offset e (chunkmap s0) ∧
    ∀ i, (∀ p, p ∈ chunkmap s0 → bc_alloc_buffer p.2 = i → p ∈ chunkmap s') →
      membufs s' !! i = membufs s0 !! i).
Proof.
  intros Hinv Hm0 Hm Hsafe Hheap Hfu Hdel Hsuf.
  destruct Hdel as [(Hb & He & Hn)|(a & f & b & Hpre & Hf & Ha & Hbn & Hin & Hb & He)].
  - rewrite Hb. simpl. wp_step. rewrite Hfu, filter_none by (intros p Hp; rewrite Hn; done).
    rewrite Hm0, after_release_app, Hsuf, after_release_kept by done.
    split_and!; try done; [rewrite Hm; simpl; lia|]. intros i Hi. apply Hheap. intros p Hp Heq.
    assert (p ∈ chunkmap s0) as Hp0 by (rewrite Hm0; set_solver).
    apply (after_release_same p Hp0). specialize (Hi p ltac:(set_solver) Heq).
    by rewrite Hm0, after_release_app, Hsuf, after_release_kept, <- Hm by done.
  - destruct (after_release_range f Hin) as [Hfr Hfb].
    assert (chunkmap s = (trimmed <$> a) ++ f ++ (trimmed <$> b) ++ suf) as Hsplit.
    { rewrite Hm, Hpre, !fmap_app, (after_release_trimmed_range f Hin). by rewrite <- !app_assoc. }
    assert (after_release s0 offset e (chunkmap s0) = (trimmed <$> a) ++
      filter (λ p, chunk_safe s0 p.2 = false) f ++ (trimmed <$> b) ++ suf) as Hfin.
    { rewrite Hm0, Hpre, !after_release_app, Hsuf, Hfr, !after_release_kept by done. by rewrite <- !app_assoc. }
    rewrite Hb, He, Hsplit, (cm_range_split 0); [|rewrite <- Hsplit; apply (inv_wf _ _ Hinv)|done].
    eapply wp_mono; [by apply delete_spec|]. cbv beta. intros n s' (Hinv' & Hm' & Hn & _ & Hh).
    rewrite (filter_ext_in _ (λ p, chunk_safe s0 p.2 = false)) in Hm'.
    2: { intros p Hp. rewrite Hsafe; [done|]. rewrite Hm0, Hpre. set_solver. }
    rewrite <- Hfin in Hm'. split_and!; try done.
    + rewrite Hfu, Hpre, !filter_app, !cm_bytes_app, Hfb, Hfr.
      rewrite !(filter_none (λ p, dropped p = true)) by (intros p Hp; rewrite (Ha _ Hp) || rewrite (Hbn _ Hp); done).
      rewrite Hn, Hm', Hfin, Hsplit, !cm_bytes_app. simpl. lia.
    + by rewrite <- Hsplit.
    + intros i Hi. rewrite Hh, Hheap; [done|..].
      * intros p Hp Heq. assert (p ∈ chunkmap s0) as Hp0 by (rewrite Hm0; set_solver).
        apply (after_release_same p Hp0). rewrite <- Hm'. by apply Hi.
      * intros p Hp Heq. rewrite Hm in Hp. apply elem_of_app in Hp as [(q & -> & Hq)%list_elem_of_fmap|Hp];
          [|apply Hi; [rewrite Hm0; set_solver|done]].
        assert (bc_alloc_buffer (trimmed q).2 = bc_alloc_buffer q.2) as Hal by (unfold trims; by repeat case_match).
        rewrite Hal in Heq. assert (q ∈ chunkmap s0) as Hq0 by (rewrite Hm0; set_solver).
        pose proof (Hi q Hq0 Heq) as Hq1. rewrite Hm' in Hq1.
        destruct (after_release_same q Hq0 Hq1) as [-> _]. by apply Hi.
Qed.

Lemma finish_release pre suf x s :
  rel_st pre suf x s → remaining_length (s_cur x) = 0 ∨ suf = [] →
  wp (scan_finish SCAN_ACTION_RELEASE false x) s (λ r s', r_vec r = [] ∧ released (r_released r) s').
Proof.
  intros Hr Hend. pose proof (rl_sum _ _ _ _ Hr) as Hsum. pose proof (rl_rem _ _ _ _ Hr) as Hrem.
  pose proof (rl_bound _ _ _ _ Hr) as Hbd.
  assert (after_release s0 offset e suf = suf) as Hsuf.
  { apply after_release_outside. intros [k c] Hp.
    destruct Hend as [Hz| ->]; [|by apply elem_of_nil in Hp]. apply outside.
    - right. by apply (rl_end _ _ _ _ Hr Hz).
    - destruct (inv_chunk_bounds _ _ Hinv0 k c) as (_ & _ & ? & _); [|done].
      rewrite (rl_split _ _ _ _ Hr). set_solver. }
  unfold scan_finish. wp_step.
  eapply (wp_mono _ _ (λ x1 s1, s1 = s ∧ s_vec x1 = [] ∧ s_del x1 = s_del x)).
  { unfold scan_alloc_last. cbv zeta. pose proof (rl_vec _ _ _ _ Hr).
    simpl; case_match; wp_step; split_and!; done. }
  cbv beta. intros x1 s1 (-> & Hv & Hd). rewrite Hv, Hd. simpl. wp_step. wp_step. wp_step. wp_step.
  destruct Hr as [Hinv Hm0 Hm Hsafe Hheap _ _ _ _ _ _ Htr Hfu _ Hdel _].
  wp_step. cbv zeta. wp_step.
  eapply (wp_mono _ _ (λ n s', n = released_full1 (s_del x) ∧
    n = cm_bytes (chunkmap s) - cm_bytes (chunkmap s') ∧ inv s' ∧
    chunkmap s' = after_release s0 offset e (chunkmap s0) ∧
    ∀ i, (∀ p, p ∈ chunkmap s0 → bc_alloc_buffer p.2 = i → p ∈ chunkmap s') →
      membufs s' !! i = membufs s0 !! i)).
  { apply (delete_range pre suf (s_del x) s); done. }
  cbv beta. intros n s' (-> & Hn & Hinv' & Hm' & Hheap'). wp_asserts ltac:(apply Z.leb_refl).
  wp_step. wp_step. simpl. split; [done|]. split; try done; [apply cached_bytes; [done|lia]|].
  pose proof (after_release_le (chunkmap s0)) as Hle. rewrite Hm' in Hn.
  assert (cm_bytes (after_release s0 offset e (chunkmap s0)) ≤ cm_bytes (chunkmap s0)); [|lia].
  apply Hle. intros [k c] Hp. by destruct (inv_chunk_bounds _ _ Hinv0 _ _ Hp) as (_ & _ & ? & _).
Qed.
End release.
