(* ===== verification/CacheRelease.v ===== *)
(** * release()

    The public release operation, with its pending-invalidation check, and its
    effect on the byte map. *)
From S2P Require Import Prelude CacheState Membuf MembufSpec ChunkMap FileCache CacheInv MembufInv CacheOps Purge ScanGet CacheGet ScanRelease.

(** The range a caller may release; it is not limited to one chunk. *)
Record release_range (offset len : Z) : Prop := {
  rr_off : 0 ≤ offset;
  rr_len : 0 < len;
  rr_file : offset + len ≤ AZNFSC_MAX_FILE_SIZE;
}.

Lemma scan_release_body s offset len :
  inv s → 0 ≤ offset → 0 < len →
  wp (scan_body SCAN_ACTION_RELEASE offset len false) s (λ r s',
    r_vec r = [] ∧ released s offset len (r_released r) s').
Proof.
  intros Hinv Hoff Hlen. unfold scan_body. wp_step. wp_step. simpl. wp_step. wp_step. wp_step.
  eapply wp_mono; [by apply start_rel|]. cbv beta. intros j s1 [-> Hj]. destruct j as [|x|x]; [|done|].
  - wp_step. simpl. split; [done|].
    assert (after_release s offset (offset + len) (chunkmap s) = chunkmap s) as Hsame.
    { apply after_release_outside. intros [k c] Hp. apply outside; [done|left; by apply Hj|].
      by destruct (inv_chunk_bounds _ _ Hinv _ _ Hp) as (_ & _ & ? & _). }
    split; try done; lia.
  - destruct Hj as (pre & suf & Hr). wp_asserts done. wp_step. eapply wp_mono.
    { eapply (rel_for s Hinv offset len); [done|done|exact Hr|].
      rewrite (rl_split _ _ _ _ _ _ _ Hr), length_app. lia. }
    cbv beta. intros x' s' (pre' & suf' & Hr' & Hend). by eapply finish_release.
Qed.

Lemma scan_release_spec s offset len :
  inv s → release_range offset len →
  wp (scan SCAN_ACTION_RELEASE offset len false) s (λ r s', ∃ s1, purged s s1 ∧
    (invalidate_pending s = false → chunkmap s1 = chunkmap s ∧ membufs s1 = membufs s ∧
       st s1 bytes_cached = st s bytes_cached) ∧
    released s1 offset len (r_released r) s').
Proof.
  intros Hinv [Hoff Hlen Hfile]. unfold scan. wp_step. apply scan_checks_ok; try done; [by right|].
  wp_asserts done. unfold test_and_clear_invalidate_pending. repeat wp_step.
  pose proof (inv_set_invalidate _ _ false Hinv) as Hinv'.
  eapply (wp_mono _ _ (λ _ s1, purged s s1 ∧ (invalidate_pending s = false →
    chunkmap s1 = chunkmap s ∧ membufs s1 = membufs s ∧ st s1 bytes_cached = st s bytes_cached))).
  { destruct (invalidate_pending s).
    - eapply wp_mono; [by apply clear_nolock_spec|]. cbv beta. intros _ s1 [Hp _].
      split; [|done]. by eapply purged_same; [..|exact Hp].
    - wp_step. split; [|done]. by eapply purged_same; [..|apply purged_refl, Hinv']. }
  cbv beta. intros _ s1 [Hp Hsame]. eapply wp_mono; [apply scan_release_body; [apply (pu_inv _ _ Hp)|done..]|].
  cbv beta. intros r s' (_ & Hr). eauto.
Qed.

Lemma release_spec s offset len :
  inv s → release_range offset len →
  wp (release offset len) s (λ n s', ∃ s1 s2, purged s s1 ∧
    (invalidate_pending s = false → chunkmap s1 = chunkmap s ∧ membufs s1 = membufs s ∧
       st s1 bytes_cached = st s bytes_cached) ∧
    released s1 offset len n s2 ∧ s' = c_bump bytes_release n s2 ∧ inv s').
Proof.
  intros Hinv Hr. unfold release, stat_add. wp_step. wp_step.
  pose proof (inv_count _ _ num_release 1 Hinv eq_refl ltac:(lia)) as Hinv1.
  wp_step. eapply wp_mono; [by apply scan_release_spec|]. cbv beta. simpl.
  intros r s2 (s1 & Hp & Hsame & Hrel). pose proof (re_le _ _ _ _ _ Hrel).
  wp_asserts cmp. wp_step. wp_step. wp_step. exists s1, s2. split_and!; try done.
  - by eapply purged_same; [..|exact Hp].
  - apply inv_count; [apply (re_inv _ _ _ _ _ Hrel)|done|lia].
Qed.

(** ** Bytes *)
Section bytes.
Context (s : cache) (Hinv : inv s) (offset len : Z) (n : Z) (s' : cache).
Context (Hrel : released s offset len n s').

Abbreviation e := (offset + len).

(** Byte [x] is dropped: it is in the range, its chunk is safe to release, and
    the chunk does not stick out of the range on both sides. *)
Definition released_at (x : Z) : bool :=
  match cm_find x (chunkmap s) with
  | Some c => (offset <=? x) && (x <? e) && chunk_safe s c &&
              negb ((bc_offset c <? offset) && (e <? bc_end c))
  | None => false
  end.

Lemma trims_sub p :
  0 < bc_length p.2 → bc_offset p.2 ≤ bc_offset (trims s offset e p).2 ∧
    bc_end (trims s offset e p).2 ≤ bc_end p.2.
Proof.
  intros. unfold trims. destruct (cut_tail s offset e p.2) eqn:E1;
    [|destruct (cut_head s offset e p.2) eqn:E2; [|lia]].
  - unfold cut_tail in E1. bools. unfold bc_end in *. simpl. lia.
  - unfold cut_head in E2. bools. unfold bc_end in *. simpl. lia.
Qed.

(** Looking up a byte in the released map. *)
Lemma find_after x c' :
  cm_find x (chunkmap s') = Some c' ↔ ∃ c, cm_find x (chunkmap s) = Some c ∧
    drops s offset e (bc_offset c, c) = false ∧ c' = (trims s offset e (bc_offset c, c)).2 ∧
    bc_offset c' ≤ x < bc_end c'.
Proof.
  pose proof (inv_wf _ _ Hinv) as Hw. pose proof (inv_wf _ _ (re_inv _ _ _ _ _ Hrel)) as Hw'.
  rewrite (cm_find_elem 0) by done. rewrite (re_map _ _ _ _ _ Hrel). unfold after_release.
  rewrite list_elem_of_fmap. split.
  - intros [([k c] & Heq & [Hd Hin]%list_elem_of_filter) Hx].
    destruct (inv_chunk_bounds _ _ Hinv _ _ Hin) as (-> & _ & ? & _).
    destruct (trims_sub (bc_offset c, c)); [done|]. rewrite <- Heq in *. simpl in *.
    exists c. split; [apply (cm_find_elem 0); [done|]; split; [done|lia]|].
    split; [done|]. rewrite <- Heq. done.
  - intros (c & [Hin Hcx]%(cm_find_elem 0) & Hd & -> & Hx); [|done]. split; [|done].
    exists (bc_offset c, c). split; [|by apply list_elem_of_filter].
    unfold trims. by repeat case_match.
Qed.

Lemma trims_cell c x :
  cell (trims s offset e (bc_offset c, c)).2 x = cell c x.
Proof. unfold trims, cell. simpl. repeat case_match; simpl; f_equal; lia. Qed.

(** The byte survives exactly when it is not dropped. *)
Lemma survives c x :
  bc_offset c ≤ x < bc_end c →
  drops s offset e (bc_offset c, c) = false ∧
    bc_offset (trims s offset e (bc_offset c, c)).2 ≤ x < bc_end (trims s offset e (bc_offset c, c)).2 ↔
  (offset <=? x) && (x <? e) && chunk_safe s c && negb ((bc_offset c <? offset) && (e <? bc_end c)) = false.
Proof.
  intros Hx. unfold drops, trims, cut_tail, cut_head. simpl.
  destruct (chunk_safe s c); simpl; [|by rewrite andb_false_r].
  destruct (Z.leb_spec offset (bc_offset c)), (Z.leb_spec (bc_end c) e), (Z.ltb_spec (bc_offset c) offset),
    (Z.ltb_spec offset (bc_end c)), (Z.ltb_spec (bc_offset c) e), (Z.ltb_spec e (bc_end c)); simpl; try lia.
  all: destruct (Z.leb_spec offset x), (Z.ltb_spec x e); unfold bc_end in *; simpl in *;
    (split; [intros []|intros ?; split]); (done || lia).
Qed.

Lemma released_bytes x :
  byte_at s' x = if released_at x then None else byte_at s x.
Proof.
  unfold byte_at, released_at. pose proof (inv_wf _ _ Hinv) as Hw.
  destruct (cm_find x (chunkmap s)) as [c|] eqn:Hf.
  2: { destruct (cm_find x (chunkmap s')) as [c'|] eqn:Hf'; [|done].
       apply find_after in Hf' as (c & Hc & _). congruence. }
  pose proof Hf as Hf2. apply (cm_find_elem 0) in Hf2 as [Hin Hcx]; [|done].
  pose proof (survives c x Hcx) as Hs. destruct (_ && negb _) eqn:E.
  - destruct (cm_find x (chunkmap s')) as [c'|] eqn:Hf'; [|done]. exfalso.
    apply find_after in Hf' as (c1 & Hc & Hd & -> & Hx). simplify_eq. discriminate (proj1 Hs (conj Hd Hx)).
  - destruct (proj2 Hs eq_refl) as [Hd Hx].
    assert (cm_find x (chunkmap s') = Some (trims s offset e (bc_offset c, c)).2) as ->.
    { apply find_after. eauto. }
    simpl. by rewrite trims_cell.
Qed.
End bytes.

(** ** Properties of release *)

(** C18: when no invalidation is pending, releasing a valid range fails no assertion and computes the reference
    chunkmap: safe chunks inside the range are gone, a safe chunk that sticks
    out on one side is trimmed to the part outside, all other chunks are
    untouched.  The returned count is the number of bytes that left the cache
    and never exceeds the length of the range. *)
Theorem release_computes_reference s offset len :
  inv s → release_range offset len → invalidate_pending s = false →
  ∃ n s', release offset len s = Some (n, s') ∧ inv s' ∧
    chunkmap s' = after_release s offset (offset + len) (chunkmap s) ∧
    n = st s bytes_cached - st s' bytes_cached ∧ 0 ≤ n ≤ len.
Proof.
  intros Hinv Hr Hi.
  destruct (release_spec s offset len Hinv Hr) as (n & s' & Hrun & s1 & s2 & _ & Hsame & Hrel & -> & Hinv').
  destruct (Hsame Hi) as (Hm & Hh & Hst). eexists n, _. split; [done|]. split; [done|]. simpl.
  rewrite (re_map _ _ _ _ _ Hrel), (re_bytes _ _ _ _ _ Hrel) at 1. bumps.
  split; [|split; [lia|apply (re_le _ _ _ _ _ Hrel)]].
  unfold after_release, drops, trims, cut_tail, cut_head, chunk_safe. by rewrite Hm, Hh.
Qed.

(** One chunk [5, 15) that nobody uses. *)
Definition idle_chunk : cache :=
  match clear_inuse 0 one_chunk with Some (_, s) => s | None => empty_cache end.

Lemma idle_chunk_inv : inv idle_chunk.
Proof.
  unfold idle_chunk. destruct (clear_inuse 0 one_chunk) as [[[] s]|] eqn:E; [|apply empty_inv].
  eapply (clear_inuse_inv ∅ one_chunk one_chunk_inv 0 (Membuf 5 10 5 10 10 (-1) 0 1 2));
    [vm_compute; reflexivity|done|exact E].
Qed.

Lemma release_computes_reference_witness :
  ∃ n s', release 10 3 idle_chunk = Some (n, s') ∧ inv s' ∧
    chunkmap s' = after_release idle_chunk 10 (10 + 3) (chunkmap idle_chunk) ∧
    n = st idle_chunk bytes_cached - st s' bytes_cached ∧ 0 ≤ n ≤ 3.
Proof.
  apply (release_computes_reference idle_chunk 10 3); [apply idle_chunk_inv|by split|vm_compute; reflexivity].
Defined.

(** The effect of a release on the byte map: a byte disappears exactly when it
    lies in the range, its chunk is safe to release (not inuse, not dirty, not
    waiting for a commit) and that chunk does not stick out of the range on both
    sides; every other byte keeps its cell. *)
Theorem release_drops_exactly s offset len n s' :
  inv s → release_range offset len → invalidate_pending s = false →
  release offset len s = Some (n, s') →
  ∀ x, byte_at s' x = if released_at s offset len x then None else byte_at s x.
Proof.
  intros Hinv Hr Hi Hrun x.
  destruct (wp_run _ _ _ _ _ Hrun (release_spec s offset len Hinv Hr))
    as (s1 & s2 & Hp & Hsame & Hrel & -> & _).
  destruct (Hsame Hi) as (Hm & Hh & _). change (byte_at (c_bump _ _ s2) x) with (byte_at s2 x).
  rewrite (released_bytes s1 (pu_inv _ _ Hp) offset len n s2 Hrel).
  unfold released_at, byte_at, chunk_safe. by rewrite Hm, Hh.
Qed.

Lemma release_drops_exactly_witness :
  ∃ n s', release 5 3 idle_chunk = Some (n, s') ∧ byte_at s' 7 = None ∧
    byte_at s' 8 = byte_at idle_chunk 8.
Proof.
  destruct (release_spec idle_chunk 5 3 idle_chunk_inv) as (n & s' & Hrun & _); [by split|].
  exists n, s'. split; [exact Hrun|].
  split; (erewrite (release_drops_exactly idle_chunk 5 3 n s');
    [vm_compute; reflexivity|apply idle_chunk_inv|by split|vm_compute; reflexivity|exact Hrun]).
Defined.

(** Unsafe chunks stay. *)
Lemma release_keeps s offset len k c mb :
  inv s → release_range offset len → (k, c) ∈ chunkmap s → membufs s !! bc_alloc_buffer c = Some mb →
  is_inuse mb || mb_has Dirty mb || mb_has CommitPending mb = true →
  wp (release offset len) s (λ _ s', (k, c) ∈ chunkmap s' ∧ membufs s' !! bc_alloc_buffer c = Some mb).
Proof.
  intros Hinv Hr Hin Hmb Hun. eapply wp_mono; [by apply release_spec|]. cbv beta.
  intros n s' (s1 & s2 & Hp & _ & Hrel & -> & _). simpl.
  assert (safe_mb mb = false) as Hs.
  { unfold safe_mb. unfold is_inuse in Hun.
    by destruct (mb_is_inuse mb), (mb_has Dirty mb), (mb_has CommitPending mb). }
  assert ((k, c) ∈ chunkmap s1) as Hin1.
  { destruct (decide ((k, c) ∈ chunkmap s1)) as [?|Hn]; [done|].
    pose proof (pu_drop _ _ Hp _ Hin Hn) as Hpu. unfold purgeable, purgeable_mb in Hpu. simpl in Hpu.
    by rewrite Hmb, Hs in Hpu. }
  pose proof (purged_chunk s s1 k c Hp Hin (inv_ids _ _ Hinv) Hin1) as Hh. rewrite Hmb in Hh.
  destruct (unsafe s1 offset len (k, c)) as [Ht Hd]; [unfold chunk_safe; simpl; by rewrite Hh|].
  assert ((k, c) ∈ chunkmap s2) as Hin2.
  { rewrite (re_map _ _ _ _ _ Hrel). apply list_elem_of_fmap. exists (k, c).
    split; [done|]. by apply list_elem_of_filter. }
  split; [done|]. rewrite (re_heap _ _ _ _ _ Hrel); [done|]. intros p Hp1 Heq.
  by rewrite (ids_inj _ p (k, c) (inv_ids _ _ (pu_inv _ _ Hp)) Hp1 Hin1 Heq).
Qed.

(** A release, even one that first carries out a pending invalidation, never
    touches a chunk that is inuse, dirty or commit pending: it stays in the
    chunkmap with its membuf exactly as it was. *)
Theorem release_keeps_unsafe_chunks s offset len n s' k c mb :
  inv s → release_range offset len → release offset len s = Some (n, s') →
  (k, c) ∈ chunkmap s → membufs s !! bc_alloc_buffer c = Some mb →
  is_inuse mb || mb_has Dirty mb || mb_has CommitPending mb = true →
  (k, c) ∈ chunkmap s' ∧ membufs s' !! bc_alloc_buffer c = Some mb.
Proof.
  intros Hinv Hr Hrun Hin Hmb Hun. apply (wp_run _ _ _ _ _ Hrun (release_keeps s offset len k c mb Hinv Hr Hin Hmb Hun)).
Qed.

Lemma release_keeps_unsafe_chunks_witness :
  ∃ n s', release 0 100 one_chunk = Some (n, s') ∧ (5, Chunk 0 5 10 0 0 0 true false) ∈ chunkmap s' ∧
    membufs s' !! 0%nat = Some (Membuf 5 10 5 10 10 (-1) 0 1 2).
Proof.
  destruct (release_spec one_chunk 0 100 one_chunk_inv) as (n & s' & Hrun & _); [by split|].
  exists n, s'. split; [exact Hrun|].
  apply (release_keeps_unsafe_chunks one_chunk 0 100 n s' 5 (Chunk 0 5 10 0 0 0 true false)
    (Membuf 5 10 5 10 10 (-1) 0 1 2));
    [apply one_chunk_inv|by split|exact Hrun|vm_compute; left|vm_compute; reflexivity|vm_compute; reflexivity].
Defined.
