(* ===== verification/Truncate.v ===== *)
(** * truncate()

    [bytes_chunk_cache::truncate()] in its three steps: collect and pin the
    affected chunks, lock their membufs, then drop or trim them.  Other threads
    may run between the steps; each step is a definition of its own, and
    [truncate] runs them back to back.  The theorems say which bytes go, that
    chunks other threads use are skipped and reported, and that every pin is
    given back. *)
From S2P Require Import Prelude CacheState Membuf MembufSpec ChunkMap FileCache CacheInv MembufInv CacheOps.

(** ** The operation *)

(** The first affected chunk: the first one that starts at or after
    [trunc_len], or its predecessor if that has bytes past [trunc_len]. *)
Definition truncate_first (trunc_len : Z) : MC (option Z) :=
  do s ← mget;
  let it := cm_lower_bound trunc_len (chunkmap s) in
  match cm_prev it (chunkmap s) with
  | None => mret it
  | Some kp =>
      do prev_bc ← chunk_at kp;
      do_ massert (bc_offset prev_bc <? trunc_len);
      mret (if trunc_len <? bc_end prev_bc then Some kp else it)
  end.

(** Step 1: mark the affected membufs inuse; returns the iterators. *)
Definition truncate_pin (trunc_len k : Z) : MC () :=
  do bc ← chunk_at k;
  do_ massert (trunc_len <? bc_end bc);
  set_inuse (bc_alloc_buffer bc).

Definition truncate_collect (trunc_len : Z) : MC (list Z) :=
  do s ← mget;
  match chunkmap s with
  | [] => mret []
  | _ =>
      do it ← truncate_first trunc_len;
      let it_vec1 := cm_range it None (chunkmap s) in
      do_ mfor it_vec1 (truncate_pin trunc_len);
      mret it_vec1
  end.

(** Step 2: lock the membufs; returns the locked ones and how many were skipped. *)
Fixpoint truncate_lock (post : bool) (it_vec1 : list Z) : MC (list Z * Z) :=
  match it_vec1 with
  | [] => mret ([], 0)
  | k :: rest =>
      do bc ← chunk_at k;
      let id := bc_alloc_buffer bc in
      do mb ← get_membuf id;
      do_ massert (1 <=? mb_inuse mb);
      if 1 <? mb_inuse mb then
        do_ clear_inuse id;
        do r ← truncate_lock post rest;
        mret (r.1, r.2 + 1)
      else if post then
        do locked ← try_lock id;
        if locked then
          do r ← truncate_lock post rest;
          mret (k :: r.1, r.2)
        else
          do_ clear_inuse id;
          do_ massert false;
          do r ← truncate_lock post rest;
          mret (r.1, r.2 + 1)
      else
        do_ set_locked id;
        do r ← truncate_lock post rest;
        mret (k :: r.1, r.2)
  end.

(** Cuts the chunk at [k] down to [trunc_len]. *)
Definition truncate_trim (trunc_len k : Z) (bc : bytes_chunk) : MC Z :=
  let id := bc_alloc_buffer bc in
  let trim_bytes := bc_end bc - trunc_len in
  do_ massert (0 <? trim_bytes);
  let bc' := Chunk id (bc_offset bc) (bc_length bc - trim_bytes) (bc_buffer_offset bc)
               (bc_pvt bc) (bc_num_backend_calls_issued bc) (bc_is_whole bc) (bc_is_new bc) in
  do s ← mget;
  do_ put_chunkmap (cm_update k bc' (chunkmap s));
  do_ massert (0 <? bc_length bc');
  do_ clear_inuse id;
  do_ trim id trim_bytes false;
  do_ set_inuse id;
  do_ stat_sub bytes_cached trim_bytes;
  do_ clear_locked id;
  do_ clear_inuse id;
  mret trim_bytes.

(** Drops the chunk at [k]. *)
Definition truncate_drop (k : Z) (bc : bytes_chunk) : MC Z :=
  let id := bc_alloc_buffer bc in
  do_ account_chunk_removed bc;
  do_ set_truncated id;
  do_ clear_locked id;
  do_ clear_inuse id;
  do_ chunkmap_erase k;
  mret (bc_length bc).

(** Step 3, one chunk: bytes truncated and whether the chunk was skipped. *)
Definition truncate_one (trunc_len k : Z) : MC (Z * Z) :=
  do bc ← chunk_at k;
  do mb ← get_membuf (bc_alloc_buffer bc);
  do_ massert (bc_length bc =? mb_length mb);
  do_ massert (bc_offset bc =? mb_offset mb);
  do_ massert (trunc_len <? bc_end bc);
  do_ massert (1 <=? mb_inuse mb);
  if 1 <? mb_inuse mb then
    do_ clear_locked (bc_alloc_buffer bc);
    do_ clear_inuse (bc_alloc_buffer bc);
    mret (0, 1)
  else if bc_offset bc <? trunc_len then
    do n ← truncate_trim trunc_len k bc; mret (n, 0)
  else
    do n ← truncate_drop k bc; mret (n, 0).

Fixpoint truncate_apply (trunc_len : Z) (it_vec3 : list Z) : MC (Z * Z) :=
  match it_vec3 with
  | [] => mret (0, 0)
  | k :: rest =>
      do r ← truncate_one trunc_len k;
      do r' ← truncate_apply trunc_len rest;
      mret (r.1 + r'.1, r.2 + r'.2)
  end.

(** The new cache size: the end of the last uptodate chunk. *)
Fixpoint last_uptodate (h : gmap nat membuf) (rev_map : cmap) : option membuf :=
  match rev_map with
  | [] => None
  | (_, bc) :: m =>
      match h !! bc_alloc_buffer bc with
      | Some mb => if is_uptodate mb then Some mb else last_uptodate h m
      | None => last_uptodate h m
      end
  end.

Definition update_cache_size : MC () :=
  do s ← mget;
  match last_uptodate (membufs s) (reverse (chunkmap s)) with
  | Some mb =>
      let sz := mb_offset mb + mb_length mb in
      do_ massert (0 <? mb_length mb);
      do_ massert (sz <=? cache_size s);
      do_ mmodify (c_set_cache_size sz);
      massert (0 <? sz)
  | None => mmodify (c_set_cache_size 0)
  end.

(** [in_progress] and [flush_locked] are the inode's [is_truncate_in_progress()]
    and [is_flushing].  Returns the number of skipped membufs and the number of
    bytes truncated. *)
Definition truncate (in_progress flush_locked : bool) (trunc_len : Z) (post : bool) : MC (Z * Z) :=
  do_ massert in_progress;
  do_ massert (negb post || flush_locked);
  do_ massert (trunc_len <=? AZNFSC_MAX_FILE_SIZE);
  do it_vec1 ← truncate_collect trunc_len;
  match it_vec1 with
  | [] => mret (0, 0)
  | _ =>
      do r ← truncate_lock post it_vec1;
      match r.1 with
      | [] => mret (r.2, 0)
      | it_vec3 =>
          do r' ← truncate_apply trunc_len it_vec3;
          do_ update_cache_size;
          do_ massert (r'.1 <=? AZNFSC_MAX_FILE_SIZE - trunc_len);
          do_ stat_add bytes_truncate r'.1;
          do_ stat_add num_truncate 1;
          do s ← mget;
          do_ massert ((st s bytes_uptodate <=? cache_size s)
                       || (st s bytes_cached <? st s bytes_uptodate));
          mret (r.2 + r'.2, r'.1)
      end
  end.

(** ** Pinning and unpinning *)
Lemma inv_repin pin pin' s :
  invp pin s → (∀ i, i ∈ pin' → in_map i (chunkmap s) = true) →
  (∀ i mb, membufs s !! i = Some mb → i ∈ pin → i ∉ pin' → held mb = true →
     Z.b2z (in_map i (chunkmap s)) + 1 ≤ mb_use_count mb) →
  invp pin' s.
Proof.
  intros Hinv Hmap Hrefs. split; try apply Hinv; [|done]. intros i mb Hi.
  pose proof (inv_refs _ _ Hinv i mb Hi) as Hr. unfold held_out in *.
  destruct (decide (i ∈ pin')) as [Hp'|Hp'], (decide (i ∈ pin)) as [Hp|Hp].
  3: specialize (Hrefs i mb Hi Hp Hp').
  all: destruct (in_map i (chunkmap s)), (held mb); simpl in *; try specialize (Hrefs eq_refl); lia.
Qed.

(** The invariant only depends on the values of the metrics. *)
Lemma inv_ext pin s s' :
  invp pin s → chunkmap s' = chunkmap s → membufs s' = membufs s → next_id s' = next_id s →
  (∀ k, st s' k = st s k) → (∀ k, st_g s' k = st_g s k) →
  backing_file_name s' = backing_file_name s → backing_file_fd s' = backing_file_fd s → invp pin s'.
Proof.
  intros Hinv Hc Hm Hn Hs Hg Hnm Hfd. split; rewrite ?Hc, ?Hm, ?Hn, ?Hnm, ?Hfd, ?Hs; try apply Hinv.
  - intros k Hk. rewrite Hs. by apply (inv_st _ _ Hinv).
  - intros k. rewrite Hs. apply (inv_pos _ _ Hinv).
  - intros k. rewrite Hs, Hg. apply (inv_g _ _ Hinv).
Qed.

(** The state in which the membuf [id] has been updated. *)
Definition updated (id : nat) (mb mb' : membuf) (s : cache) : cache :=
  Cache (chunkmap s) (<[id := mb']> (membufs s)) (next_id s)
    (λ k, st s k + weight k mb' - weight k mb) (λ k, st_g s k + weight k mb' - weight k mb)
    (cache_size s) (invalidate_pending s) (backing_file_name s) (backing_file_fd s).

Lemma inv_room pin s id mb : invp pin s → membufs s !! id = Some mb → room mb s.
Proof. intros Hinv Hid k. split; [by eapply inv_weight_le|apply (inv_g _ _ Hinv)]. Qed.

Lemma inv_updated pin s id mb mb' :
  invp pin s → membufs s !! id = Some mb → mb_step mb mb' → mb_use_count mb' = mb_use_count mb →
  id ∈ pin → invp pin (updated id mb mb' s).
Proof.
  intros Hinv Hid Hstep Huc Hp. eapply inv_update; [done|by split|done|].
  pose proof (inv_refs _ _ Hinv _ _ Hid) as Hr. unfold held_out in *. rewrite decide_True in * by done.
  by rewrite Huc.
Qed.

(** The membuf that a truncation gives back. *)
Definition unheld (mb : membuf) : membuf :=
  mb_set_inuse (mb_inuse mb - 1) (mb_set_flag (clear_flag (mb_flag mb) Locked) mb).

Definition cut_off (mb : membuf) : membuf := mb_set_flag (or_flag (mb_flag mb) Truncated) mb.

(** A membuf the running truncate has pinned and locked, and nobody else uses. *)
Record grabbed (mb : membuf) : Prop := {
  gb_inuse : mb_inuse mb = 1;
  gb_locked : is_locked mb = true;
  gb_flushing : mb_has Flushing mb = false;
  gb_truncated : is_truncated mb = false;
  gb_commit : mb_has CommitPending mb = false;
}.

Lemma unheld_wf mb :
  mb_wf mb → mb_inuse mb = 1 → mb_has Flushing mb = false → mb_wf (unheld mb) ∧ held (unheld mb) = false.
Proof.
  intros Hwf Hiu Hfl. split.
  - apply (step_wf (mb_set_flag (clear_flag (mb_flag mb) Locked) mb)), mb_step_inuse; [|simpl; lia|].
    + apply mb_wf_set_flag; [done|..]; rewrite !has_clear_flag; simpl;
        [apply (wf_dirty _ Hwf)|by unfold mb_has in Hfl; rewrite Hfl|apply (wf_commit _ Hwf)].
    + unfold mb_has in *. simpl. by rewrite has_clear_flag, Hfl.
  - unfold held, mb_has, mb_is_inuse. simpl. by rewrite has_clear_flag, Hiu.
Qed.

Lemma cut_off_grabbed mb : mb_wf mb → grabbed mb →
  mb_wf (cut_off mb) ∧ mb_has Flushing (cut_off mb) = false ∧ mb_has CommitPending (cut_off mb) = false.
Proof.
  intros Hwf [Hiu Hlk Hfl Htr Hcp]. split_and!.
  - apply mb_wf_set_flag; [done|..]; rewrite !has_or_flag; simpl;
      [apply (wf_dirty _ Hwf)|by unfold mb_has in Hfl; rewrite Hfl|apply (wf_commit _ Hwf)].
  - unfold mb_has, cut_off. simpl. by rewrite has_or_flag.
  - unfold mb_has, cut_off. simpl. by rewrite has_or_flag.
Qed.

(** Giving lock and use count back, in any state with room for it. *)
Lemma unhold_spec id s mb :
  membufs s !! id = Some mb → room mb s → 0 < mb_length mb →
  is_locked mb = true → 0 < mb_inuse mb → mb_has Flushing mb = false →
  wp (do_ clear_locked id; clear_inuse id) s (λ _ s', mb_updated id mb (unheld mb) s s').
Proof.
  intros Hid Hr Hl Hlk Hiu Hfl. wp_step. eapply wp_mono.
  { apply (clear_locked_total id s mb); try done. by apply Z.ltb_lt. }
  cbv beta. intros _ s1 Hu1. eapply wp_mono.
  { eapply clear_inuse_total; [by eapply upd_this|by eapply room_updated| |done]. by apply Z.ltb_lt. }
  cbv beta. intros _ s2 Hu2. by eapply mb_updated_trans.
Qed.

(** ** Dropping and trimming a chunk *)
Section one.
Context (pin : gset nat) (s : cache) (Hinv : invp pin s).
Context (m1 m2 : cmap) (k : Z) (bc : bytes_chunk) (Hsplit : chunkmap s = m1 ++ (k, bc) :: m2).
Context (mb : membuf) (Hid : membufs s !! bc_alloc_buffer bc = Some mb) (Hgrab : grabbed mb).
Context (Hpin : bc_alloc_buffer bc ∈ pin).

Abbreviation id := (bc_alloc_buffer bc).

Lemma one_facts :
  mb_wf mb ∧ linked bc mb ∧ (∀ k' c', (k', c') ∈ m1 → k' < k) ∧ in_map id (m1 ++ m2) = false.
Proof.
  assert ((k, bc) ∈ chunkmap s) as Hin by (rewrite Hsplit; set_solver).
  destruct (inv_chunk _ _ Hinv _ _ Hin) as (mb0 & Hmb0 & Hlk & Hwf). simplify_eq.
  pose proof (inv_wf _ _ Hinv) as Hw. rewrite Hsplit in Hw.
  pose proof (inv_ids _ _ Hinv) as Hnd. rewrite Hsplit in Hnd.
  split_and!; try done; [intros ? ? ?; by eapply cm_wf_keys_lt|by apply (ids_nodup_middle m1 k bc m2)].
Qed.

Lemma pin_rest_in_map m i : (∀ j, in_map j m = in_map j (chunkmap s) ∨ j = id) →
  i ∈ pin ∖ {[id]} → in_map i m = true.
Proof.
  intros Hm [Hi Hne]%elem_of_difference. destruct (Hm i) as [->|Heq]; [by apply (inv_pin _ _ Hinv)|].
  exfalso. apply Hne. by apply elem_of_singleton.
Qed.

(** After the membuf has been truncated and given back, the chunk can go. *)
Lemma drop_ready :
  invp (pin ∖ {[id]}) (unmapped (updated id mb (unheld (cut_off mb)) s) m1 m2 bc).
Proof.
  pose proof one_facts as (Hwf & _ & _ & _). pose proof Hgrab as [Hiu Hlk Hfl Htr Hcp].
  destruct (cut_off_grabbed mb Hwf Hgrab) as (Hwf1 & Hfl1 & Hcp1).
  destruct (unheld_wf (cut_off mb) Hwf1 Hiu Hfl1) as [Hwf2 Hh2].
  assert (invp pin (updated id mb (unheld (cut_off mb)) s)) as Hinv1 by (by apply inv_updated).
  apply (inv_unmap (pin ∖ {[id]}) (updated id mb (unheld (cut_off mb)) s)) with (k := k); [|done|set_solver].
  apply (inv_repin pin); [done| |].
  - intros i. apply pin_rest_in_map. by left.
  - intros i mb' Hi Hp Hn Hheld. exfalso.
    assert (i = id) as -> by (destruct (decide (i = id)); [done|set_solver]).
    simpl in Hi. rewrite lookup_insert_eq in Hi. simplify_eq. congruence.
Qed.

Lemma truncate_drop_spec :
  wp (truncate_drop k bc) s (λ n s', n = bc_length bc ∧ invp (pin ∖ {[id]}) s' ∧ chunk_removed bc m1 m2 s s' ∧
    (mb_use_count mb = 1 → membufs s' !! id = None)).
Proof.
  pose proof one_facts as (Hwf & [Ho Hl _] & Hlt & Hout). pose proof Hgrab as [Hiu Hlk Hfl Htr Hcp].
  destruct (cut_off_grabbed mb Hwf Hgrab) as (Hwf1 & Hfl1 & Hcp1).
  pose proof (inv_room _ _ _ _ Hinv Hid) as Hr. pose proof (wf_length _ Hwf).
  pose proof (inv_num _ _ Hinv) as Hn. pose proof (inv_cached _ _ Hinv) as Hc.
  rewrite Hsplit in Hn, Hc. rewrite length_app in Hn. rewrite cm_bytes_app in Hc. simpl in Hn, Hc.
  pose proof (inv_wf _ _ Hinv) as Hw. rewrite Hsplit in Hw.
  pose proof (cm_bytes_le _ _ (cm_wf_remove _ _ _ _ _ Hw)) as Hbl. rewrite cm_bytes_app in Hbl.
  pose proof (inv_g _ _ Hinv num_chunks). pose proof (inv_g _ _ Hinv bytes_cached).
  unfold truncate_drop, account_chunk_removed. cbv zeta. wp_step. wp_step.
  apply stat_sub_wp; [lia|lia|]. apply stat_sub_wp; [simpl; bumps; lia..|].
  set (sA := c_bump bytes_cached (- bc_length bc) (c_bump num_chunks (- 1) s)).
  assert (room mb sA) as HrA.
  { intros c. specialize (Hr c). unfold sA. simpl. unfold stat_bump.
    repeat case_decide; simplify_eq; simpl in *; lia. }
  wp_step. eapply wp_mono; [by apply (set_truncated_total id sA mb)|]. cbv beta. intros _ sB HuB.
  apply wp_bind_assoc. wp_step. eapply wp_mono.
  { apply (unhold_spec id sB (cut_off mb)); try done; [by eapply upd_this|by eapply room_updated|..].
    - unfold is_locked, mb_has, cut_off. simpl. rewrite has_or_flag. done.
    - simpl. lia. }
  cbv beta. intros _ sC HuC. pose proof (mb_updated_trans _ _ _ _ _ _ _ HuB HuC) as Hu.
  destruct Hu as [_ Hh Hs Hg Hcm Hnx Hfd Hnm _ Hsz]. simpl in Hcm, Hnx, Hfd, Hnm, Hh.
  unfold chunkmap_erase, chunk_at. wp_step. wp_step. wp_step. wp_step.
  wp_step. { rewrite Hcm, Hsplit. by apply cm_lookup_split. }
  wp_step. wp_step. wp_step. unfold put_chunkmap. wp_step. rewrite Hcm, Hsplit, cm_erase_split by done.
  assert (invp (pin ∖ {[id]}) (c_set_chunkmap (m1 ++ m2) sC)) as HinvC.
  { eapply inv_ext; [apply drop_ready|..]; simpl; try done.
    - intros c. rewrite Hs. unfold sA. simpl. unfold stat_bump. repeat case_decide; lia.
    - intros c. rewrite Hg. unfold sA. simpl. unfold stat_bump. repeat case_decide; lia. }
  unfold bytes_chunk_dtor. eapply wp_mono.
  { eapply (shared_ptr_reset_spec _ _ id (unheld (cut_off mb)) HinvC); simpl.
    - rewrite Hh. apply lookup_insert_eq.
    - set_solver.
    - rewrite Hout. unfold held_out. rewrite decide_False by set_solver.
      rewrite (proj2 (unheld_wf (cut_off mb) Hwf1 Hiu Hfl1)). simpl.
      pose proof (inv_refs _ _ Hinv _ _ Hid). lia.
    - intros _. unfold mb_has, unheld, cut_off. simpl. rewrite !has_clear_flag, !has_or_flag. simpl.
      by split. }
  cbv beta. intros _ sD [HinvD [Hother Hthis Hcm' Hnx' Hsz']]. wp_step. split_and!; [done|done| |].
  - split; simpl in *; [congruence| |congruence|congruence].
    intros i Hi. rewrite Hother, Hh, lookup_insert_ne by done. done.
  - intros Huc. rewrite Hthis. simpl. by rewrite Huc.
Qed.

(** The membuf cut down to [tl]. *)
Definition shortened (tl : Z) : membuf := mb_set_range (mb_offset mb) (tl - mb_offset mb) mb.

(** Cutting the membuf while its use count is dropped for the call. *)
Lemma trim_pinned sA tl :
  membufs sA !! id = Some mb → room mb sA → mb_offset mb < tl < mb_offset mb + mb_length mb →
  wp (do_ (do_ clear_inuse id; trim id (mb_offset mb + mb_length mb - tl) false); set_inuse id) sA
    (λ _ s', mb_updated id mb (shortened tl) sA s').
Proof.
  intros HidA HrA Htl. pose proof one_facts as (Hwf & _). pose proof Hgrab as [Hiu Hlk Hfl Htr Hcp].
  pose proof (wf_length _ Hwf).
  assert (mb_wf (mb_set_inuse (mb_inuse mb - 1) mb)) as Hwf0.
  { apply (step_wf mb), mb_step_inuse; [done|lia|congruence]. }
  wp_step. wp_step. eapply wp_mono.
  { apply clear_inuse_total; [done|done| |done]. unfold is_inuse, mb_is_inuse. by rewrite Hiu. }
  cbv beta. intros _ sB HuB. eapply wp_mono.
  { eapply (trim_spec sB id (mb_set_inuse (mb_inuse mb - 1) mb)); try done; simpl; [by eapply upd_this|lia| |].
    - unfold mb_is_inuse. simpl. by rewrite Hiu.
    - by eapply room_updated. }
  cbv beta. intros _ sC HuC. eapply wp_mono; [eapply set_inuse_spec, upd_this, HuC|].
  cbv beta. intros _ sD HuD.
  pose proof (mb_updated_trans _ _ _ _ _ _ _ (mb_updated_trans _ _ _ _ _ _ _ HuB HuC) HuD) as Hu.
  simpl in Hu. enough (shortened tl = mb_set_inuse (mb_inuse mb - 1 + 1) (mb_set_range (mb_offset mb)
    (mb_length mb - (mb_offset mb + mb_length mb - tl)) (mb_set_inuse (mb_inuse mb - 1) mb))) as -> by done.
  unfold shortened, mb_set_range, mb_set_inuse. simpl. f_equal; lia.
Qed.

Lemma truncate_trim_spec tl :
  bc_offset bc < tl < bc_end bc →
  wp (truncate_trim tl k bc) s (λ n s', n = bc_end bc - tl ∧ invp (pin ∖ {[id]}) s' ∧
    chunkmap s' = m1 ++ (k, cut bc (bc_offset bc) tl) :: m2 ∧
    membufs s' = <[id := unheld (shortened tl)]> (membufs s) ∧ next_id s' = next_id s ∧
    cache_size s' = cache_size s).
Proof.
  intros Htl. pose proof one_facts as (Hwf & [Ho Hl Hb] & Hlt & Hout). pose proof Hgrab as [Hiu Hlk Hfl Htr Hcp].
  pose proof (inv_room _ _ _ _ Hinv Hid) as Hr. pose proof (wf_length _ Hwf).
  pose proof (inv_cached _ _ Hinv) as Hc. rewrite Hsplit, cm_bytes_app in Hc. simpl in Hc.
  pose proof (inv_wf _ _ Hinv) as Hw. rewrite Hsplit in Hw.
  pose proof (cm_bytes_le _ _ (cm_wf_remove _ _ _ _ _ Hw)) as Hbl. rewrite cm_bytes_app in Hbl.
  pose proof (inv_g _ _ Hinv bytes_cached). unfold bc_end in Htl |- *.
  assert (mb_wf (shortened tl)) as Hwf1 by (destruct Hwf; split; simpl; (done || lia)).
  destruct (unheld_wf (shortened tl) Hwf1 Hiu Hfl) as [Hwf2 Hh2].
  unfold truncate_trim, bc_end. cbv zeta. wp_asserts cmp. rewrite Hsplit, cm_update_split by done.
  set (sA := c_set_chunkmap _ s).
  replace (bc_offset bc + bc_length bc - tl) with (mb_offset mb + mb_length mb - tl) by lia. apply wp_bind_assoc, wp_bind_assoc.
  wp_step. eapply wp_mono; [eapply (wp_mono _ _ _ _ (trim_pinned sA tl Hid Hr ltac:(lia)))|].
  { intros a s' HQ. exact HQ. }
  cbv beta. intros _ sB [_ HhB HsB HgB HcB HnB HfB HmB _ HzB]. simpl in HhB, HsB, HgB, HcB, HnB, HfB, HmB.
  wp_step. apply stat_sub_wp. { rewrite HsB. simpl. lia. } { rewrite HgB. simpl. lia. }
  set (sC := c_bump bytes_cached _ sB).
  apply wp_bind_assoc. wp_step. eapply wp_mono.
  { apply (unhold_spec id sC (shortened tl)); try done; simpl; try lia.
    - rewrite HhB. apply lookup_insert_eq.
    - intros c. specialize (Hr c). unfold sC. simpl. unfold stat_bump. rewrite HsB, HgB.
      case_decide; simplify_eq; simpl in *; lia. }
  cbv beta. intros _ sD [_ HhD HsD HgD HcD HnD HfD HmD _ HzD]. simpl in HhD, HcD, HnD, HfD, HmD. wp_step.
  assert (membufs sD = <[id := unheld (shortened tl)]> (membufs s)) as Hh
    by (by rewrite HhD, HhB, insert_insert_eq).
  assert (chunkmap sD = m1 ++ (k, cut bc (bc_offset bc) tl) :: m2) as Hcm.
  { rewrite HcD, HcB. unfold cut. do 3 f_equal. f_equal; lia. }
  split; [lia|]. split; [|split_and!; [done|done|congruence|]].
  2: { unfold sC in HzD. simpl in HzD, HzB. congruence. }
  apply (inv_repin pin).
  - eapply (inv_trim pin s sD m1 k bc m2 mb k (cut bc (bc_offset bc) tl) _ (bc_offset bc + bc_length bc - tl));
      try done; simpl; unfold bc_end; simpl; try lia; try congruence.
    + assert ((k, bc) ∈ chunkmap s) as Hin by (rewrite Hsplit; set_solver).
      by destruct (inv_chunk_bounds _ _ Hinv _ _ Hin) as (-> & _).
    + split; simpl; lia.
    + unfold held_out. by rewrite decide_True.
    + intros c. rewrite HsD. unfold sC. simpl. unfold stat_bump. rewrite HsB.
      repeat case_decide; simplify_eq; simpl; lia.
    + intros c. rewrite HsD, HgD. unfold sC. simpl. unfold stat_bump. rewrite HsB, HgB.
      repeat case_decide; lia.
  - intros i. apply pin_rest_in_map. intros j. left. by rewrite Hcm, Hsplit, !in_map_middle.
  - intros i mb' Hi Hp Hn Hheld. exfalso.
    assert (i = id) as -> by (destruct (decide (i = id)); [done|set_solver]).
    rewrite Hh, lookup_insert_eq in Hi. simplify_eq. congruence.
Qed.
End one.
