(* ===== verification/CacheSize.v ===== *)
(** * cache_size against the uptodate bytes

    [truncate()] recomputes [cache_size] as the end of the last uptodate chunk
    and asserts that it is not below the number of uptodate bytes.  The
    assertion holds when every live membuf is in the chunkmap: the uptodate
    chunks do not overlap and all end at or before the last one's end. *)
From S2P Require Import Prelude CacheState Membuf MembufSpec ChunkMap FileCache CacheInv CacheOps Truncate.

(** Every uptodate chunk lies within [cache_size]. *)
Definition size_ok (s : cache) : Prop :=
  ∀ k bc mb, (k, bc) ∈ chunkmap s → membufs s !! bc_alloc_buffer bc = Some mb →
    is_uptodate mb = true → bc_end bc ≤ cache_size s.

(** Every live membuf belongs to a chunk of the chunkmap. *)
Definition no_orphans (s : cache) : Prop :=
  ∀ i mb, membufs s !! i = Some mb → i ∈ ids (chunkmap s).

(** The end of the last uptodate chunk. *)
Definition up_end (s : cache) : Z :=
  match last_uptodate (membufs s) (reverse (chunkmap s)) with
  | Some mb => mb_offset mb + mb_length mb
  | None => 0
  end.

(** The sum of [f] over the membufs of the chunks of [m]. *)
Fixpoint hsum (f : membuf → Z) (h : gmap nat membuf) (m : cmap) : Z :=
  match m with
  | [] => 0
  | (_, bc) :: m' => from_option f 0 (h !! bc_alloc_buffer bc) + hsum f h m'
  end.

Section sums.
Context (f : membuf → Z).

Lemma hsum_app h m1 m2 : hsum f h (m1 ++ m2) = hsum f h m1 + hsum f h m2.
Proof. induction m1 as [|[k bc] m1 IH]; simpl; lia. Qed.

Lemma hsum_delete h m i : i ∉ ids m → hsum f (delete i h) m = hsum f h m.
Proof.
  induction m as [|[k bc] m IH]; intros Hi; [done|]. simpl. unfold ids in Hi. simpl in Hi.
  apply not_elem_of_cons in Hi as [Hne Hi]. rewrite lookup_delete_ne, IH by done. done.
Qed.

(** The chunks of the map account for every membuf that counts. *)
Lemma msum_hsum_part m : ∀ h, NoDup (ids m) → (∀ i mb, h !! i = Some mb → i ∉ ids m → f mb = 0) → msum f h = hsum f h m.
Proof.
  induction m as [|[k bc] m IH]; intros h Hnd Hdom; simpl.
  - assert (∀ h' : gmap nat membuf, h' ⊆ h → msum f h' = 0) as Hz; [|by apply Hz].
    intros h'. induction h' as [|i mb h' Hi IH] using map_ind; intros Hs; [apply msum_empty|]. rewrite msum_insert_fresh by done.
    rewrite (Hdom i), IH; [done| | |apply not_elem_of_nil].
    + etrans; [|exact Hs]. by apply insert_subseteq.
    + eapply lookup_weaken; [|exact Hs]. apply lookup_insert_eq.
  - unfold ids in Hnd. simpl in Hnd. apply NoDup_cons in Hnd as [Hout Hnd].
    assert (msum f (delete (bc_alloc_buffer bc) h) = hsum f (delete (bc_alloc_buffer bc) h) m) as Hd.
    { apply IH; [done|]. intros i mb [Hne Hi]%lookup_delete_Some Hn. apply (Hdom _ _ Hi). unfold ids. simpl.
      rewrite elem_of_cons. intros [?|?]; [congruence|done]. }
    rewrite hsum_delete in Hd by done. destruct (h !! bc_alloc_buffer bc) as [mb|] eqn:E; simpl.
    + rewrite (msum_delete _ _ _ _ E) in Hd. lia.
    + rewrite delete_id in Hd by done. lia.
Qed.

(** The chunks of the map account for every live membuf. *)
Lemma msum_hsum m h : NoDup (ids m) → (∀ i mb, h !! i = Some mb → i ∈ ids m) → msum f h = hsum f h m.
Proof. intros Hnd Hdom. apply msum_hsum_part; [done|]. intros i mb Hi Hn. by destruct Hn; eapply Hdom. Qed.
End sums.

Lemma last_uptodate_elem h m mb :
  last_uptodate h m = Some mb →
  ∃ k bc, (k, bc) ∈ m ∧ h !! bc_alloc_buffer bc = Some mb ∧ is_uptodate mb = true.
Proof.
  induction m as [|[k bc] m IH]; simpl; [done|]. intros H.
  destruct (h !! bc_alloc_buffer bc) as [mb0|] eqn:E; [destruct (is_uptodate mb0) eqn:Eu|].
  - simplify_eq. exists k, bc. split_and!; [by left|done|done].
  - destruct (IH H) as (k' & bc' & ? & ? & ?). exists k', bc'. split_and!; [by right|done|done].
  - destruct (IH H) as (k' & bc' & ? & ? & ?). exists k', bc'. split_and!; [by right|done|done].
Qed.

(** The uptodate chunks of a well-formed map end where the last of them ends. *)
Lemma uptodate_bytes_le h m :
  cm_wf 0 m → (∀ k bc, (k, bc) ∈ m → ∃ mb, h !! bc_alloc_buffer bc = Some mb ∧ linked bc mb) →
  hsum (weight bytes_uptodate) h m ≤
  match last_uptodate h (reverse m) with Some mb => mb_offset mb + mb_length mb | None => 0 end.
Proof.
  induction m as [|[k bc] m IH] using rev_ind; intros Hw Hlk; [done|].
  rewrite reverse_app, hsum_app. simpl.
  destruct (Hlk k bc) as (mb & Hmb & [Ho Hl _]); [set_solver|]. rewrite Hmb. simpl.
  pose proof (cm_bytes_le _ _ Hw) as Hb. rewrite cm_bytes_app, cm_last_end_app in Hb. simpl in Hb.
  apply cm_wf_app in Hw as [Hw1 (-> & Hlo & Hlen & _)].
  destruct (is_uptodate mb) eqn:Eu; unfold is_uptodate in Eu; rewrite Eu.
  - assert (hsum (weight bytes_uptodate) h m ≤ cm_bytes m); [|unfold bc_end in *; lia].
    clear IH Hb. assert (∀ k bc, (k, bc) ∈ m → ∃ mb, h !! bc_alloc_buffer bc = Some mb ∧ linked bc mb) as Hlk'.
    { intros k' bc' Hin. apply (Hlk k'). set_solver. }
    clear Hlk Hlo. revert Hw1 Hlk'. generalize 0 at 1. induction m as [|[k' bc'] m IH]; intros lo Hw1 Hlk; simpl; [done|].
    destruct Hw1 as (-> & ? & ? & Hw1). destruct (Hlk (bc_offset bc') bc') as (mb' & Hmb' & [_ Hl' _]); [by left|].
    rewrite Hmb'. simpl. assert (hsum (weight bytes_uptodate) h m ≤ cm_bytes m).
    { eapply IH; [done|]. intros. apply (Hlk k). by right. }
    case_match; lia.
  - assert (hsum (weight bytes_uptodate) h m ≤
      match last_uptodate h (reverse m) with Some mb => mb_offset mb + mb_length mb | None => 0 end); [|lia].
    apply IH; [done|]. intros k' bc' Hin. apply (Hlk k'). set_solver.
Qed.

Lemma bytes_uptodate_le s : inv s → no_orphans s → st s bytes_uptodate ≤ up_end s.
Proof.
  intros Hinv Hno. rewrite (inv_st _ _ Hinv) by done.
  rewrite (msum_hsum _ (chunkmap s)); [|apply (inv_ids _ _ Hinv)|exact Hno].
  apply uptodate_bytes_le; [apply (inv_wf _ _ Hinv)|apply (inv_link _ _ Hinv)].
Qed.

(** Recomputing the size. *)
Lemma update_cache_size_spec s :
  inv s → size_ok s → wp update_cache_size s (λ _ s', s' = c_set_cache_size (up_end s) s).
Proof.
  intros Hinv Hsz. unfold update_cache_size, up_end. wp_step. wp_step.
  destruct (last_uptodate _ _) as [mb|] eqn:E; [|by wp_step].
  apply last_uptodate_elem in E as (k & bc & Hin & Hmb & Hup). rewrite elem_of_reverse in Hin.
  destruct (inv_chunk _ _ Hinv _ _ Hin) as (mb' & Hmb' & [Ho Hl _] & Hwf). simplify_eq.
  pose proof (Hsz _ _ _ Hin Hmb Hup) as Hle. unfold bc_end in Hle. pose proof (wf_length _ Hwf).
  destruct (inv_chunk_bounds _ _ Hinv _ _ Hin) as (_ & ? & _).
  cbv zeta. wp_asserts cmp. wp_step. wp_step. wp_step; [cmp|done].
Qed.

(** The last uptodate chunk is the one that ends last. *)
Lemma last_uptodate_ge h m :
  cm_wf 0 m → (∀ k bc, (k, bc) ∈ m → ∃ mb, h !! bc_alloc_buffer bc = Some mb ∧ linked bc mb) →
  ∀ k bc mb, (k, bc) ∈ m → h !! bc_alloc_buffer bc = Some mb → is_uptodate mb = true →
  ∃ mb', last_uptodate h (reverse m) = Some mb' ∧ bc_end bc ≤ mb_offset mb' + mb_length mb'.
Proof.
  induction m as [|[k0 bc0] m IH] using rev_ind; intros Hw Hlk k bc mb Hin Hmb Hup; [by apply elem_of_nil in Hin|].
  rewrite reverse_app. simpl. destruct (Hlk k0 bc0) as (mb0 & Hmb0 & [Ho Hl _]); [set_solver|]. rewrite Hmb0.
  apply cm_wf_app in Hw as [Hw1 (-> & Hlo & Hlen & _)].
  destruct (is_uptodate mb0) eqn:Eu.
  - exists mb0. split; [done|]. apply elem_of_app in Hin as [Hin|?%list_elem_of_singleton].
    + destruct (cm_wf_elem _ _ _ _ Hw1 Hin) as (_ & _ & _ & ?). lia.
    + simplify_eq. unfold bc_end. lia.
  - apply elem_of_app in Hin as [Hin|?%list_elem_of_singleton]; [|simplify_eq; congruence].
    eapply IH; try done. intros k' bc' Hin'. apply (Hlk k'). set_solver.
Qed.

Lemma up_end_ge s : inv s → ∀ k bc mb, (k, bc) ∈ chunkmap s → membufs s !! bc_alloc_buffer bc = Some mb →
  is_uptodate mb = true → bc_end bc ≤ up_end s.
Proof.
  intros Hinv k bc mb Hin Hmb Hup. unfold up_end.
  destruct (last_uptodate_ge (membufs s) (chunkmap s) (inv_wf _ _ Hinv) (inv_link _ _ Hinv) k bc mb Hin Hmb Hup)
    as (mb' & -> & ?). done.
Qed.

Lemma up_end_le s x : inv s → 0 ≤ x → (∀ k bc, (k, bc) ∈ chunkmap s → bc_end bc ≤ x) → up_end s ≤ x.
Proof.
  intros Hinv Hx Hall. unfold up_end. destruct (last_uptodate _ _) as [mb|] eqn:E; [|done].
  apply last_uptodate_elem in E as (k & bc & Hin & Hmb & _). rewrite elem_of_reverse in Hin.
  destruct (inv_link _ _ Hinv _ _ Hin) as (mb' & Hmb' & [Ho Hl _]). simplify_eq.
  pose proof (Hall _ _ Hin). unfold bc_end in *. lia.
Qed.
