(* ===== verification/TruncateSpec.v ===== *)
(** * truncate(): what it leaves behind

    The steps of [truncate] run back to back from a state in which every chunk
    with bytes past [trunc_len] is either in use by another thread or idle.
    The run aborts on no assertion and computes [after_truncate]: chunks in use
    stay as they are and are counted, the other affected chunks are cut or
    dropped, and every pin and lock taken on the way is given back. *)
From S2P Require Import Prelude CacheState Membuf MembufSpec ChunkMap FileCache CacheInv MembufInv CacheOps Truncate CacheSize.

(** ** The reference *)

(** The membuf of a chunk is in use. *)
Definition chunk_used (s : cache) (bc : bytes_chunk) : bool :=
  match membufs s !! bc_alloc_buffer bc with Some mb => mb_is_inuse mb | None => false end.

(** What becomes of a chunkmap entry. *)
Definition truncate_entry (s : cache) (tl : Z) (p : Z * bytes_chunk) : option (Z * bytes_chunk) :=
  if (bc_end p.2 <=? tl) || chunk_used s p.2 then Some p
  else if bc_offset p.2 <? tl then Some (p.1, cut p.2 (bc_offset p.2) tl) else None.

Definition after_truncate (s : cache) (tl : Z) (m : cmap) : cmap := omap (truncate_entry s tl) m.

(** A membuf the truncation can take: nobody uses or locks it, its data does
    not wait for a commit and the chunkmap has the only reference. *)
Record idle (mb : membuf) : Prop := {
  idle_inuse : mb_inuse mb = 0;
  idle_locked : is_locked mb = false;
  idle_truncated : is_truncated mb = false;
  idle_commit : mb_has CommitPending mb = false;
  idle_ref : mb_use_count mb = 1;
}.

(** The membufs before, between and after the steps. *)
Definition pinned (mb : membuf) : membuf := mb_set_inuse (mb_inuse mb + 1) mb.
Definition grab (mb : membuf) : membuf := mb_set_flag (or_flag (mb_flag mb) Locked) (pinned mb).

Lemma clear_or_flag w f : has_flag w f = false → clear_flag (or_flag w f) f = w.
Proof.
  intros Hw. apply Z.bits_inj'. intros n Hn. unfold clear_flag, or_flag.
  rewrite Z.land_spec, Z.lor_spec, Z.lnot_spec, flag_mask_bit by done.
  destruct (Z.eqb_spec (flag_bit f) n) as [<-|]; simpl.
  - rewrite andb_false_r. symmetry. by rewrite <- has_flag_testbit.
  - by rewrite orb_false_r, andb_true_r.
Qed.

Lemma unheld_grab mb : is_locked mb = false → unheld (grab mb) = mb.
Proof.
  intros Hlk. unfold unheld, grab, pinned, mb_set_inuse, mb_set_flag. destruct mb. simpl in *.
  rewrite clear_or_flag by done. f_equal. lia.
Qed.

Lemma unheld_shortened mb tl :
  is_locked mb = false → unheld (shortened (grab mb) tl) = mb_set_range (mb_offset mb) (tl - mb_offset mb) mb.
Proof.
  intros Hlk. unfold unheld, shortened, grab, pinned, mb_set_range, mb_set_inuse, mb_set_flag. destruct mb. simpl in *.
  rewrite clear_or_flag by done. f_equal. lia.
Qed.

Lemma grab_grabbed mb : mb_wf mb → idle mb → grabbed (grab mb) ∧ mb_wf (grab mb).
Proof.
  intros Hwf [Hiu Hlk Htr Hcp Huc].
  assert (mb_has Flushing mb = false) as Hfl.
  { apply not_inuse_not_flushing; [done|]. unfold mb_is_inuse. by rewrite Hiu. }
  unfold is_locked, is_truncated, mb_has in *. split.
  - split; unfold is_locked, is_truncated, mb_has; simpl; rewrite ?has_or_flag; simpl; try done. lia.
  - apply mb_wf_set_flag; [apply (step_wf mb), mb_step_inuse; [done|lia|unfold mb_has; congruence]|..];
      rewrite !has_or_flag; simpl; [apply (wf_dirty _ Hwf)|by rewrite Hfl|apply (wf_commit _ Hwf)].
Qed.

Lemma inv_pinned_update pin s s' id mb mb' :
  invp pin s → mb_updated id mb mb' s s' → mb_step mb mb' → mb_use_count mb' = mb_use_count mb →
  id ∈ pin → invp pin s'.
Proof.
  intros Hinv Hu Hstep Huc Hp. eapply inv_update; [done|exact Hu|done|].
  pose proof (inv_refs _ _ Hinv _ _ (upd_lookup _ _ _ _ _ Hu)) as Hr. unfold held_out in *.
  rewrite decide_True in * by done. by rewrite Huc.
Qed.

Section run.
Context (s0 : cache) (Hinv0 : inv s0) (tl : Z) (pre suf : cmap) (Hmap : chunkmap s0 = pre ++ suf).
Context (Hpre : ∀ k bc, (k, bc) ∈ pre → bc_end bc ≤ tl) (Hsuf : ∀ k bc, (k, bc) ∈ suf → tl < bc_end bc).
Context (Hquiet : ∀ k bc mb, (k, bc) ∈ suf → membufs s0 !! bc_alloc_buffer bc = Some mb →
  mb_is_inuse mb = true ∨ idle mb).
Context (Halloc : st s0 bytes_allocated ≤ AZNFSC_MAX_FILE_SIZE).

Definition pins (m : cmap) : gset nat := list_to_set (ids m).
Definition used (p : Z * bytes_chunk) : bool := chunk_used s0 p.2.

Lemma elem_of_pins i m : i ∈ pins m ↔ i ∈ ids m.
Proof. unfold pins. by rewrite elem_of_list_to_set. Qed.

(** Between the steps only the membufs differ from [s0], by [f]. *)
Record stage (f : nat → membuf → membuf) (s : cache) : Prop := {
  sg_inv : invp (pins suf) s;
  sg_map : chunkmap s = chunkmap s0;
  sg_heap : ∀ i, membufs s !! i = f i <$> membufs s0 !! i;
  sg_size : cache_size s = cache_size s0;
  sg_alloc : st s bytes_allocated = st s0 bytes_allocated;
  sg_next : next_id s = next_id s0;
}.

Lemma stage_ext f g s :
  stage f s → (∀ i mb, membufs s0 !! i = Some mb → f i mb = g i mb) → stage g s.
Proof.
  intros [? ? Hh ? ? ?] Hfg. split; try done. intros i. rewrite Hh.
  destruct (membufs s0 !! i) eqn:E; simpl; [by rewrite (Hfg _ _ E)|done].
Qed.

Lemma suf_ids p : p ∈ suf → bc_alloc_buffer p.2 ∈ ids suf.
Proof. destruct p as [k bc]. intros Hp. apply elem_of_ids. eauto. Qed.

Lemma suf_chunk p : p ∈ suf → p ∈ chunkmap s0.
Proof. rewrite Hmap. set_solver. Qed.

Lemma stage_0 : stage (λ _ mb, mb) s0.
Proof.
  split; try done; [|intros i; by destruct (membufs s0 !! i)]. apply (inv_repin ∅); [done| |set_solver].
  intros i Hi%elem_of_pins. apply bool_decide_eq_true. rewrite Hmap, ids_app. set_solver.
Qed.

Lemma stage_update f s s' p mb0 mb' :
  stage f s → p ∈ suf → membufs s0 !! bc_alloc_buffer p.2 = Some mb0 →
  mb_updated (bc_alloc_buffer p.2) (f (bc_alloc_buffer p.2) mb0) mb' s s' →
  mb_step (f (bc_alloc_buffer p.2) mb0) mb' →
  mb_use_count mb' = mb_use_count (f (bc_alloc_buffer p.2) mb0) →
  mb_allocated_length mb' = mb_allocated_length (f (bc_alloc_buffer p.2) mb0) →
  stage (λ i mb, if decide (i = bc_alloc_buffer p.2) then mb' else f i mb) s'.
Proof.
  intros [Hinv Hm Hh Hsz Hal Hnx] Hp Hmb0 Hu Hstep Huc Hlen. split.
  - eapply inv_pinned_update; [exact Hinv|exact Hu|done|done|]. by apply elem_of_pins, suf_ids.
  - by rewrite (upd_chunkmap _ _ _ _ _ Hu).
  - intros i. rewrite (upd_heap _ _ _ _ _ Hu). case_decide as Hi.
    + subst i. by rewrite lookup_insert_eq, Hmb0.
    + by rewrite lookup_insert_ne, Hh.
  - by rewrite (upd_size _ _ _ _ _ Hu).
  - rewrite (upd_st _ _ _ _ _ Hu). simpl. lia.
  - by rewrite (upd_next _ _ _ _ _ Hu).
Qed.

Lemma stage_chunk f s k bc (Q : bytes_chunk → cache → Prop) :
  stage f s → (k, bc) ∈ suf → Q bc s → wp (chunk_at k) s Q.
Proof.
  intros Hs Hin HQ. eapply chunk_at_spec; [apply (sg_inv _ _ Hs)| |exact HQ].
  rewrite (sg_map _ _ Hs). by apply suf_chunk.
Qed.

Lemma suf_membuf k bc : (k, bc) ∈ suf → ∃ mb, membufs s0 !! bc_alloc_buffer bc = Some mb ∧ linked bc mb ∧ mb_wf mb.
Proof. intros Hin%suf_chunk. by apply (inv_chunk _ _ Hinv0 k). Qed.

Lemma suf_nodup : NoDup (ids suf).
Proof. pose proof (inv_ids _ _ Hinv0) as Hnd. rewrite Hmap, ids_app in Hnd. by apply NoDup_app in Hnd as (_ & _ & ?). Qed.

(** A chunk of the tail is not among the ones before it. *)
Lemma suf_split_out A k bc R : suf = A ++ (k, bc) :: R →
  bc_alloc_buffer bc ∉ ids A ∧ bc_alloc_buffer bc ∉ ids R.
Proof.
  intros Hs. pose proof suf_nodup as Hnd. rewrite Hs in Hnd.
  apply ids_nodup_middle in Hnd as [_ Hn%bool_decide_eq_false]. rewrite ids_app in Hn. set_solver.
Qed.

(** *** Step 1 *)
Definition pinning (A : cmap) (i : nat) (mb : membuf) : membuf :=
  if decide (i ∈ ids A) then pinned mb else mb.

Lemma ids_snoc A p : ids (A ++ [p]) = ids A ++ [bc_alloc_buffer p.2].
Proof. by rewrite ids_app. Qed.

Lemma truncate_pin_spec s A k bc R :
  suf = A ++ (k, bc) :: R → stage (pinning A) s →
  wp (truncate_pin tl k) s (λ _ s', stage (pinning (A ++ [(k, bc)])) s').
Proof.
  intros Hs Hst. assert ((k, bc) ∈ suf) as Hin by (rewrite Hs; set_solver).
  destruct (suf_membuf _ _ Hin) as (mb & Hmb & _ & Hwf). destruct (suf_split_out _ _ _ _ Hs) as [Hout _].
  pose proof (wf_inuse _ Hwf). pose proof (Hsuf _ _ Hin).
  assert (pinning A (bc_alloc_buffer bc) mb = mb) as Hp by (unfold pinning; by rewrite decide_False).
  unfold truncate_pin. wp_step. eapply stage_chunk; [done..|]. wp_asserts cmp.
  eapply wp_mono.
  { apply (set_inuse_spec _ s mb). by rewrite (sg_heap _ _ Hst), Hmb; simpl; rewrite Hp. }
  cbv beta. intros _ s' Hu. eapply stage_ext.
  - eapply (stage_update _ _ _ (k, bc) mb (pinned mb)); simpl; rewrite ?Hp; try done.
    apply mb_step_inuse; [done|lia|lia].
  - intros i m Hi. simpl. unfold pinning. rewrite ids_snoc. simpl.
    repeat case_decide; simplify_eq; try done; set_solver.
Qed.

Lemma truncate_pin_all :
  wp (mfor suf.*1 (truncate_pin tl)) s0 (λ _ s', stage (pinning suf) s').
Proof.
  eapply (wp_for _ _ (λ l s, ∃ A R, suf = A ++ R ∧ l = R.*1 ∧ stage (pinning A) s)).
  - exists [], suf. split_and!; try done. apply (stage_ext _ _ _ stage_0). intros. unfold pinning.
    by rewrite decide_False by apply not_elem_of_nil.
  - intros x l s (A & R & Hs & Hl & Hst). destruct R as [|[k bc] R]; simplify_eq/=.
    eapply wp_mono; [by eapply truncate_pin_spec|]. cbv beta. intros _ s' Hst'.
    exists (A ++ [(k, bc)]), R. by rewrite <- app_assoc.
  - intros s (A & R & Hs & Hl & Hst). destruct R; [|done]. by rewrite app_nil_r in Hs; subst A.
Qed.

(** *** Step 2 *)
Definition locking (A : cmap) (i : nat) (mb : membuf) : membuf :=
  if decide (i ∈ ids A) then if mb_is_inuse mb then mb else grab mb
  else if decide (i ∈ ids suf) then pinned mb else mb.

Lemma locking_snoc A k bc R mb i m :
  suf = A ++ (k, bc) :: R → membufs s0 !! bc_alloc_buffer bc = Some mb → membufs s0 !! i = Some m →
  (if decide (i = bc_alloc_buffer bc) then (if mb_is_inuse mb then mb else grab mb) else locking A i m) =
  locking (A ++ [(k, bc)]) i m.
Proof.
  intros Hs Hmb Hi. destruct (suf_split_out _ _ _ _ Hs) as [Hout _]. unfold locking. rewrite ids_snoc. simpl.
  repeat case_decide; simplify_eq; try done; set_solver.
Qed.

Section lock_one.
Context (s : cache) (A R : cmap) (k : Z) (bc : bytes_chunk) (mb : membuf).
Context (Hs : suf = A ++ (k, bc) :: R) (Hst : stage (locking A) s).
Context (Hmb : membufs s0 !! bc_alloc_buffer bc = Some mb).

Lemma lock_one_facts :
  (k, bc) ∈ suf ∧ mb_wf mb ∧ membufs s !! bc_alloc_buffer bc = Some (pinned mb) ∧
  locking A (bc_alloc_buffer bc) mb = pinned mb ∧ mb_wf (pinned mb).
Proof.
  assert ((k, bc) ∈ suf) as Hin by (rewrite Hs; set_solver).
  destruct (suf_membuf _ _ Hin) as (mb0 & Hmb0 & _ & Hwf). simplify_eq.
  destruct (suf_split_out _ _ _ _ Hs) as [Hout _]. pose proof (wf_inuse _ Hwf).
  assert (locking A (bc_alloc_buffer bc) mb = pinned mb) as Hl.
  { unfold locking. rewrite decide_False, decide_True; [done| |done]. apply (suf_ids _ Hin). }
  split_and!; try done.
  - rewrite (sg_heap _ _ Hst), Hmb. simpl. by rewrite Hl.
  - apply (step_wf mb), mb_step_inuse; [done|lia|lia].
Qed.

Lemma lock_one_step s' mb' :
  mb_updated (bc_alloc_buffer bc) (pinned mb) mb' s s' → mb_step (pinned mb) mb' →
  mb_use_count mb' = mb_use_count mb → mb_allocated_length mb' = mb_allocated_length mb →
  mb' = (if mb_is_inuse mb then mb else grab mb) → stage (locking (A ++ [(k, bc)])) s'.
Proof.
  destruct lock_one_facts as (Hin & _ & _ & Hl & _). intros Hu Hstep Huc Hal Heq. eapply stage_ext.
  - eapply (stage_update _ _ _ (k, bc) mb mb'); simpl; rewrite ?Hl; done.
  - intros i m Hi. simpl. rewrite Heq. by eapply locking_snoc.
Qed.

(** A membuf in use is unpinned. *)
Lemma lock_skip :
  mb_is_inuse mb = true →
  wp (clear_inuse (bc_alloc_buffer bc)) s (λ _ s', stage (locking (A ++ [(k, bc)])) s').
Proof.
  intros Hiu. destruct lock_one_facts as (Hin & Hwf & Hid & _ & Hwf1). apply Z.ltb_lt in Hiu as Hiu'.
  eapply wp_mono.
  { eapply clear_inuse_total; [exact Hid|by eapply inv_room; [apply (sg_inv _ _ Hst)|]| |apply (wf_length _ Hwf1)].
    unfold is_inuse, mb_is_inuse. apply Z.ltb_lt. simpl. lia. }
  cbv beta. intros _ s' Hu. assert (mb_set_inuse (mb_inuse (pinned mb) - 1) (pinned mb) = mb) as Heq.
  { unfold pinned, mb_set_inuse. destruct mb. simpl. f_equal. lia. }
  rewrite Heq in Hu. eapply lock_one_step; [exact Hu|by split|done|done|by rewrite Hiu].
Qed.

(** An idle membuf is locked. *)
Lemma lock_idle :
  mb_is_inuse mb = false →
  wp (try_lock (bc_alloc_buffer bc)) s (λ b s', b = true ∧ stage (locking (A ++ [(k, bc)])) s') ∧
  wp (set_locked (bc_alloc_buffer bc)) s (λ _ s', stage (locking (A ++ [(k, bc)])) s').
Proof.
  intros Hiu. destruct lock_one_facts as (Hin & Hwf & Hid & _ & Hwf1).
  destruct (Hquiet _ _ _ Hin Hmb) as [?|Hidle]; [congruence|]. pose proof Hidle as [Hi0 Hlk _ _ _].
  destruct (grab_grabbed _ Hwf Hidle) as [_ Hwf2].
  assert (is_inuse (pinned mb) = true) by (unfold is_inuse, mb_is_inuse; simpl; by rewrite Hi0).
  assert (st s bytes_locked + mb_length (pinned mb) ≤ AZNFSC_MAX_FILE_SIZE).
  { eapply locked_room; [apply (sg_inv _ _ Hst)|exact Hid|done|]. by rewrite (sg_alloc _ _ Hst). }
  assert (∀ s', mb_updated (bc_alloc_buffer bc) (pinned mb) (grab mb) s s' → stage (locking (A ++ [(k, bc)])) s') as Hgo.
  { intros s' Hu. eapply lock_one_step; [exact Hu|by split|done|done|by rewrite Hiu]. }
  pose proof (inv_room _ _ _ _ (sg_inv _ _ Hst) Hid) as Hr. split.
  - eapply wp_mono; [by apply (try_lock_total _ s (pinned mb))|]. cbv beta. intros b s' [-> Hu]. eauto.
  - eapply wp_mono; [by apply (set_locked_total _ s (pinned mb))|]. cbv beta. intros _ s' Hu. eauto.
Qed.
End lock_one.

Lemma used_eq k bc mb : membufs s0 !! bc_alloc_buffer bc = Some mb → used (k, bc) = mb_is_inuse mb.
Proof. intros Hmb. unfold used, chunk_used. simpl. by rewrite Hmb. Qed.

Lemma truncate_lock_spec post R : ∀ A s,
  suf = A ++ R → stage (locking A) s →
  wp (truncate_lock post R.*1) s (λ r s', stage (locking suf) s' ∧
    r = ((filter (λ p, used p = false) R).*1, Z.of_nat (length (filter (λ p, used p = true) R)))).
Proof.
  induction R as [|[k bc] R IH]; intros A s Hs Hst; cbn [truncate_lock fmap list_fmap].
  { wp_step. rewrite app_nil_r in Hs. by subst A. }
  assert ((k, bc) ∈ suf) as Hin by (rewrite Hs; set_solver).
  destruct (suf_membuf _ _ Hin) as (mb & Hmb & _ & _).
  destruct (lock_one_facts s A R k bc mb Hs Hst Hmb) as (_ & Hwf & Hid & _ & _). pose proof (wf_inuse _ Hwf).
  assert (suf = (A ++ [(k, bc)]) ++ R) as Hs' by (by rewrite <- app_assoc).
  specialize (IH (A ++ [(k, bc)])).
  wp_step. eapply stage_chunk; [done..|]. cbv zeta. wp_step. eapply get_membuf_wp; [exact Hid|].
  change (mb_inuse (pinned mb)) with (mb_inuse mb + 1). wp_asserts cmp.
  assert ((1 <? mb_inuse mb + 1) = mb_is_inuse mb) as ->.
  { unfold mb_is_inuse. destruct (Z.ltb_spec 0 (mb_inuse mb)), (Z.ltb_spec 1 (mb_inuse mb + 1)); (done || lia). }
  pose proof (used_eq k bc mb Hmb) as Hused. rewrite !filter_cons. rewrite Hused.
  destruct (mb_is_inuse mb) eqn:Hiu.
  - wp_step. eapply wp_mono; [by eapply lock_skip|]. cbv beta. intros _ s1 Hst1.
    wp_step. eapply wp_mono; [by apply IH|]. cbv beta. intros r s2 [Hst2 ->]. wp_step. split; [done|].
    rewrite decide_False, decide_True by done. simpl. f_equal. lia.
  - destruct (lock_idle s A R k bc mb Hs Hst Hmb Hiu) as [Htry Hset]. rewrite decide_True, decide_False by done. simpl.
    destruct post; wp_step.
    + eapply wp_mono; [exact Htry|]. cbv beta. intros b s1 [-> Hst1].
      wp_step. eapply wp_mono; [by apply IH|]. cbv beta. intros r s2 [Hst2 ->]. by wp_step.
    + eapply wp_mono; [exact Hset|]. cbv beta. intros _ s1 Hst1.
      wp_step. eapply wp_mono; [by apply IH|]. cbv beta. intros r s2 [Hst2 ->]. by wp_step.
Qed.

(** *** Step 3 *)
Definition idles (R : cmap) : cmap := filter (λ p, used p = false) R.

(** The membuf of an idle chunk after the truncation. *)
Definition truncated_mb (bc : bytes_chunk) (mb : membuf) : option membuf :=
  if bc_offset bc <? tl then Some (mb_set_range (mb_offset mb) (tl - mb_offset mb) mb) else None.

(** The effect of step 3 on the tail [R] of the chunkmap [m1 ++ R]. *)
Record applied (m1 R : cmap) (n : Z) (s s' : cache) : Prop := {
  ap_inv : inv s';
  ap_map : chunkmap s' = m1 ++ after_truncate s0 tl R;
  ap_bytes : n = cm_bytes R - cm_bytes (after_truncate s0 tl R);
  ap_size : cache_size s' = cache_size s;
  ap_next : next_id s' = next_id s;
  ap_idle : ∀ k bc mb, (k, bc) ∈ idles R → membufs s0 !! bc_alloc_buffer bc = Some mb →
    membufs s' !! bc_alloc_buffer bc = truncated_mb bc mb;
  ap_other : ∀ i, i ∉ ids (idles R) → membufs s' !! i = membufs s !! i;
}.

Lemma after_truncate_cons p R :
  after_truncate s0 tl (p :: R) =
  match truncate_entry s0 tl p with Some q => q :: after_truncate s0 tl R | None => after_truncate s0 tl R end.
Proof. done. Qed.

(** One chunk of step 3. *)
Lemma truncate_one_spec s m1 k bc R mb pin :
  (k, bc) ∈ suf → used (k, bc) = false → membufs s0 !! bc_alloc_buffer bc = Some mb →
  invp pin s → bc_alloc_buffer bc ∈ pin → chunkmap s = m1 ++ (k, bc) :: R →
  membufs s !! bc_alloc_buffer bc = Some (grab mb) →
  wp (truncate_one tl k) s (λ r s', ∃ m1' n, r = (n, 0) ∧ invp (pin ∖ {[bc_alloc_buffer bc]}) s' ∧
    m1 ++ after_truncate s0 tl [(k, bc)] = m1' ∧ chunkmap s' = m1' ++ R ∧
    n = bc_length bc - cm_bytes (after_truncate s0 tl [(k, bc)]) ∧
    membufs s' !! bc_alloc_buffer bc = truncated_mb bc mb ∧
    (∀ i, i ≠ bc_alloc_buffer bc → membufs s' !! i = membufs s !! i) ∧
    cache_size s' = cache_size s ∧ next_id s' = next_id s).
Proof.
  intros Hin Hused Hmb Hinv Hpin Hm Hid. destruct (suf_membuf _ _ Hin) as (mb0 & Hmb0 & [Ho Hl Hb] & Hwf). simplify_eq.
  rewrite (used_eq _ _ _ Hmb) in Hused. destruct (Hquiet _ _ _ Hin Hmb) as [?|Hidle]; [congruence|].
  destruct (grab_grabbed _ Hwf Hidle) as [Hgr Hwf2]. pose proof Hidle as [Hi0 Hlk _ _ Huc].
  pose proof (Hsuf _ _ Hin) as Hend.
  assert (truncate_entry s0 tl (k, bc) =
    if bc_offset bc <? tl then Some (k, cut bc (bc_offset bc) tl) else None) as Hte.
  { unfold truncate_entry, chunk_used. simpl. rewrite Hmb, Hused, (proj2 (Z.leb_gt _ _)) by done. done. }
  rewrite after_truncate_cons, Hte. unfold truncated_mb.
  unfold truncate_one. wp_step. eapply (chunk_at_spec _ _ Hinv k bc); [rewrite Hm; set_solver|].
  wp_step. eapply get_membuf_wp; [exact Hid|]. wp_asserts ltac:(first [cmp|simpl; rewrite Hi0; done]).
  simpl. rewrite Hi0. simpl.
  destruct (Z.ltb_spec (bc_offset bc) tl) as [Hlt|Hge].
  - wp_step. eapply wp_mono; [eapply (truncate_trim_spec pin s Hinv m1 R k bc Hm (grab mb) Hid Hgr Hpin tl); lia|].
    cbv beta. intros n s' (-> & Hinv' & Hm' & Hh' & Hnx & Hsz). wp_step. eexists _, _. split_and!; try done.
    + rewrite Hm'. by rewrite <- app_assoc.
    + simpl. unfold bc_end. lia.
    + by rewrite Hh', lookup_insert_eq, unheld_shortened.
    + intros i Hi. by rewrite Hh', lookup_insert_ne.
  - wp_step. eapply wp_mono; [eapply (truncate_drop_spec pin s Hinv m1 R k bc Hm (grab mb) Hid Hgr Hpin)|].
    cbv beta. intros n s' (-> & Hinv' & [Hm' Hother Hnx Hsz] & Hgone). wp_step. eexists _, _. split_and!; try done.
    + rewrite Hm'. by rewrite app_nil_r.
    + simpl. lia.
    + apply Hgone. done.
Qed.

Lemma idles_cons p R : idles (p :: R) = if used p then idles R else p :: idles R.
Proof. unfold idles. rewrite filter_cons. by destruct (used p). Qed.

Lemma ids_filter_sub (m : cmap) (P : Z * bytes_chunk → Prop) `{!∀ x, Decision (P x)} i :
  i ∈ ids (filter P m) → i ∈ ids m.
Proof.
  rewrite !elem_of_ids. intros (k & bc & [_ Hin]%list_elem_of_filter & <-). eauto.
Qed.

Lemma truncate_apply_spec R : ∀ A m1 s,
  suf = A ++ R → invp (pins (idles R)) s → chunkmap s = m1 ++ R →
  (∀ i, i ∈ ids (idles R) → membufs s !! i = grab <$> membufs s0 !! i) →
  wp (truncate_apply tl (idles R).*1) s (λ r s', r.2 = 0 ∧ applied m1 R r.1 s s').
Proof.
  induction R as [|[k bc] R IH]; intros A m1 s Hs Hinv Hm Hh.
  { simpl. wp_step. split; [done|]. split; try done. by intros k bc mb Hin%elem_of_nil. }
  assert ((k, bc) ∈ suf) as Hin by (rewrite Hs; set_solver).
  destruct (suf_membuf _ _ Hin) as (mb & Hmb & _ & _). destruct (suf_split_out _ _ _ _ Hs) as [_ Hout].
  assert (bc_alloc_buffer bc ∉ ids (idles R)) as Hout' by (intros ?%ids_filter_sub; done).
  assert (suf = (A ++ [(k, bc)]) ++ R) as Hs' by (by rewrite <- app_assoc). rewrite idles_cons in *.
  destruct (used (k, bc)) eqn:Hu.
  - assert (truncate_entry s0 tl (k, bc) = Some (k, bc)) as Hte.
    { unfold truncate_entry. unfold used in Hu. simpl in *. by rewrite Hu, orb_true_r. }
    eapply wp_mono; [apply (IH _ (m1 ++ [(k, bc)]) s Hs' Hinv); [by rewrite <- app_assoc|done]|].
    cbv beta. intros r s' [Hr [? Hm' Hn Hsz Hnx Hid Hot]]. split; [done|].
    split; rewrite ?idles_cons, ?Hu, ?after_truncate_cons, ?Hte; try done.
    + by rewrite Hm', <- app_assoc.
    + simpl. lia.
  - cbn [truncate_apply fmap list_fmap fst snd].
    assert (bc_alloc_buffer bc ∈ ids ((k, bc) :: idles R)) as Hhd by (apply elem_of_ids; exists k, bc; set_solver).
    wp_step. eapply wp_mono.
    { eapply (truncate_one_spec s m1 k bc R mb _ Hin Hu Hmb Hinv); [by apply elem_of_pins|done|].
      by rewrite Hh, Hmb. }
    cbv beta. intros r s1 (m1' & n & -> & Hinv1 & Hm1' & Hmc & Hn & Hid1 & Hot1 & Hsz1 & Hnx1).
    wp_step. eapply wp_mono.
    { apply (IH _ m1' s1 Hs'); [| exact Hmc |].
      - replace (pins (idles R)) with (pins ((k, bc) :: idles R) ∖ {[bc_alloc_buffer bc]}); [done|].
        apply set_eq. intros i. rewrite elem_of_difference, elem_of_singleton, !elem_of_pins.
        change (ids ((k, bc) :: idles R)) with (bc_alloc_buffer bc :: ids (idles R)). rewrite elem_of_cons. naive_solver.
      - intros i Hi. rewrite Hot1 by (by intros ->). apply Hh. by right. }
    cbv beta. intros r s2 [Hr [Hinv2 Hm2 Hn2 Hsz2 Hnx2 Hid2 Hot2]]. wp_step. split; [by rewrite Hr|].
    assert (after_truncate s0 tl ((k, bc) :: R) = after_truncate s0 tl [(k, bc)] ++ after_truncate s0 tl R) as Hat.
    { rewrite !after_truncate_cons. by destruct (truncate_entry s0 tl (k, bc)). }
    split; rewrite ?idles_cons, ?Hu, ?Hat; cbn [fst snd]; try congruence.
    + by rewrite Hm2, <- Hm1', <- app_assoc.
    + rewrite cm_bytes_cons, cm_bytes_app. cbn [snd]. lia.
    + intros k' bc' mb' [?|Hin']%elem_of_cons Hmb'; [simplify_eq; by rewrite Hot2|by eapply Hid2].
    + intros i Hi. change (ids ((k, bc) :: idles R)) with (bc_alloc_buffer bc :: ids (idles R)) in Hi.
      rewrite not_elem_of_cons in Hi. destruct Hi as [Hne Hi]. by rewrite Hot2, Hot1.
Qed.

(** *** The affected chunks *)
Lemma pre_before k bc : (k, bc) ∈ pre → k = bc_offset bc ∧ k < tl.
Proof.
  intros Hin. pose proof (Hpre _ _ Hin). destruct (inv_chunk_bounds _ _ Hinv0 k bc) as (-> & _ & ? & _).
  { rewrite Hmap. set_solver. }
  unfold bc_end in *. split; [done|lia].
Qed.

Lemma truncate_first_spec (Q : option Z → cache → Prop) :
  Q (cm_begin suf) s0 → wp (truncate_first tl) s0 Q.
Proof.
  intros HQ. pose proof pre_before as Hpb. pose proof (inv_wf _ _ Hinv0) as Hw. rewrite Hmap in Hw. unfold truncate_first. wp_step. wp_step. cbv zeta.
  assert (∀ k bc, (k, bc) ∈ pre → k < tl) as Hlt by (intros k bc Hin; apply (Hpb k bc Hin)).
  destruct suf as [|[k c] R] eqn:Es.
  - rewrite app_nil_r in *. rewrite <- (app_nil_r (chunkmap s0)), Hmap, cm_lower_bound_split by (done || set_solver).
    rewrite cm_prev_last by (done || set_solver). destruct (last pre) as [[kp cp]|] eqn:El; simpl; [|by wp_step].
    apply last_elem in El. destruct (Hpb _ _ El) as [-> ?]. pose proof (Hpre _ _ El).
    wp_step. apply (chunk_at_spec _ _ Hinv0 _ cp); [by rewrite Hmap|]. wp_asserts cmp.
    rewrite (proj2 (Z.ltb_ge _ _)) by done. by wp_step.
  - pose proof (cm_wf_keys_gt _ _ _ _ _ Hw) as Hgt. pose proof (cm_wf_keys_lt _ _ _ _ _ Hw) as Hkl.
    assert (tl < bc_end c) as Hend by (apply (Hsuf k); by left).
    assert (k = bc_offset c) as Hk by (apply cm_wf_app in Hw as [_ (? & _)]; done).
    destruct (Z.ltb_spec k tl) as [Hin|Hge].
    + rewrite Hmap. rewrite (cons_middle _ pre R), app_assoc, cm_lower_bound_split; last first.
      { intros k' c' Hin'. destruct (Hgt _ _ Hin'). lia. }
      { intros k' c' [?|?%list_elem_of_singleton]%elem_of_app; [by eapply Hlt|by simplify_eq]. }
      rewrite <- app_assoc. simpl. rewrite cm_prev_split; last first.
      { intros k' c' Hin'. destruct R as [|[k2 c2] R]; [by apply elem_of_nil in Hin'|]. simpl. apply Z.ltb_ge.
        apply elem_of_cons in Hin' as [?|Hin']; [simplify_eq; lia|].
        rewrite (cons_middle _ pre), app_assoc in Hw. destruct (cm_wf_keys_gt _ _ _ _ _ Hw _ _ Hin'). lia. }
      { destruct R as [|[k2 c2] R]; [done|]. simpl. apply Z.ltb_lt. destruct (Hgt k2 c2); [set_solver|lia]. }
      { intros k' c' Hin'. destruct R as [|[k2 c2] R]; [done|]. simpl. apply Z.ltb_lt.
        destruct (Hgt k2 c2); [set_solver|]. destruct (Hkl _ _ Hin'). lia. }
      wp_step. apply (chunk_at_spec _ _ Hinv0 _ c); [rewrite Hmap; set_solver|]. wp_asserts cmp.
      rewrite (proj2 (Z.ltb_lt _ _)) by done. by wp_step.
    + rewrite Hmap, cm_lower_bound_split; [|done|].
      2: { intros k' c' [?|Hin']%elem_of_cons; [by simplify_eq|]. destruct (Hgt _ _ Hin'). lia. }
      change (cm_begin ((k, c) :: R)) with (Some k) in *. rewrite (cm_prev_middle 0) by done.
      destruct (last pre) as [[kp cp]|] eqn:El; simpl; [|by wp_step].
      apply last_elem in El. destruct (Hpb _ _ El) as [-> ?]. pose proof (Hpre _ _ El).
      wp_step. apply (chunk_at_spec _ _ Hinv0 _ cp); [rewrite Hmap; set_solver|]. wp_asserts cmp.
      rewrite (proj2 (Z.ltb_ge _ _)) by done. by wp_step.
Qed.

Lemma truncate_collect_spec :
  wp (truncate_collect tl) s0 (λ v s, v = suf.*1 ∧ stage (pinning suf) s).
Proof.
  pose proof stage_0 as Hst0. pose proof truncate_first_spec as Hfirst. pose proof truncate_pin_all as Hall.
  unfold truncate_collect. wp_step. wp_step. destruct (chunkmap s0) as [|p m] eqn:E.
  { wp_step. assert (suf = []) as Hs by (symmetry in Hmap; by apply app_nil in Hmap as [_ ?]).
    rewrite Hs. split; [done|]. rewrite <- Hs. apply (stage_ext _ _ _ Hst0). intros. unfold pinning.
    rewrite Hs. by rewrite decide_False by apply not_elem_of_nil. }
  rewrite <- E in *. wp_step. apply Hfirst.
  assert (cm_range (cm_begin suf) None (chunkmap s0) = suf.*1) as ->.
  { destruct (decide (suf = [])) as [->|Hne]; [done|].
    pose proof (inv_wf _ _ Hinv0) as Hw. rewrite Hmap in *. rewrite <- (app_nil_r suf) in Hw.
    pose proof (cm_range_split 0 pre suf [] Hw Hne) as H. by rewrite app_nil_r in H. }
  cbv zeta. wp_step. eapply wp_mono; [apply Hall|]. cbv beta. intros _ s' Hst. by wp_step.
Qed.

(** *** The whole operation *)
Record truncated (r : Z * Z) (s' : cache) : Prop := {
  td_inv : inv s';
  td_map : chunkmap s' = after_truncate s0 tl (chunkmap s0);
  td_skipped : r.1 = Z.of_nat (length (filter (λ p, used p = true) suf));
  td_bytes : r.2 = cm_bytes (chunkmap s0) - cm_bytes (chunkmap s');
  td_size : cache_size s' = if decide (idles suf = []) then cache_size s0 else up_end s';
  td_idle : ∀ k bc mb, (k, bc) ∈ idles suf → membufs s0 !! bc_alloc_buffer bc = Some mb →
    membufs s' !! bc_alloc_buffer bc = truncated_mb bc mb;
  td_other : ∀ i, i ∉ ids (idles suf) → membufs s' !! i = membufs s0 !! i;
}.

Lemma after_truncate_pre : after_truncate s0 tl (chunkmap s0) = pre ++ after_truncate s0 tl suf.
Proof.
  rewrite Hmap. unfold after_truncate. rewrite omap_app. f_equal.
  assert (∀ m : cmap, (∀ k bc, (k, bc) ∈ m → bc_end bc ≤ tl) → omap (truncate_entry s0 tl) m = m) as H; [|by apply H].
  induction m as [|[k bc] m IH]; intros Hm; [done|]. simpl. unfold truncate_entry at 1. simpl.
  rewrite (proj2 (Z.leb_le _ _)) by (apply (Hm k); by left). simpl. f_equal. apply IH. intros. apply (Hm k0). by right.
Qed.

Lemma ids_idles i : i ∈ ids suf → i ∉ ids (idles suf) →
  ∀ mb, membufs s0 !! i = Some mb → mb_is_inuse mb = true.
Proof.
  intros (k & bc & Hin & <-)%elem_of_ids Hn mb Hmb. destruct (mb_is_inuse mb) eqn:E; [done|]. destruct Hn.
  apply elem_of_ids. exists k, bc. split; [|done]. apply list_elem_of_filter. split; [|done]. by rewrite (used_eq k bc mb).
Qed.

Lemma idles_inuse i mb : i ∈ ids (idles suf) → membufs s0 !! i = Some mb → mb_is_inuse mb = false.
Proof.
  intros (k & bc & [Hu Hin]%list_elem_of_filter & <-)%elem_of_ids Hmb. by rewrite (used_eq k bc mb) in Hu.
Qed.

(** After step 2 only the idle affected membufs differ from the start. *)
Lemma locking_suf i mb :
  membufs s0 !! i = Some mb → locking suf i mb = if decide (i ∈ ids (idles suf)) then grab mb else mb.
Proof.
  intros Hmb. unfold locking. destruct (decide (i ∈ ids (idles suf))) as [Hi|Hi].
  - rewrite decide_True by (by eapply ids_filter_sub). by rewrite (idles_inuse i mb).
  - destruct (decide (i ∈ ids suf)) as [Hs|Hs]; [|done]. by rewrite (ids_idles i Hs Hi mb).
Qed.

Lemma unpin_used s : stage (locking suf) s → invp (pins (idles suf)) s.
Proof.
  intros Hst. apply (inv_repin (pins suf)); [apply (sg_inv _ _ Hst)| |].
  - intros i Hi%elem_of_pins%ids_filter_sub. by apply (inv_pin _ _ (sg_inv _ _ Hst)), elem_of_pins.
  - intros i mb Hi Hp%elem_of_pins Hn Hheld. rewrite elem_of_pins in Hn. rewrite (sg_heap _ _ Hst) in Hi.
    destruct (membufs s0 !! i) as [mb0|] eqn:E; [|done]. simpl in Hi.
    rewrite (locking_suf _ _ E), decide_False in Hi by done. simplify_eq.
    pose proof (inv_refs _ _ Hinv0 _ _ E) as Hr. unfold held_out in Hr.
    rewrite decide_False, Hheld in Hr by set_solver. rewrite (sg_map _ _ Hst). simpl in *. lia.
Qed.

Section finish.
Context (s2 : cache) (Hm2 : chunkmap s2 = after_truncate s0 tl (chunkmap s0)).
Context (Hidle2 : ∀ k bc mb, (k, bc) ∈ idles suf → membufs s0 !! bc_alloc_buffer bc = Some mb →
  membufs s2 !! bc_alloc_buffer bc = truncated_mb bc mb).
Context (Hother2 : ∀ i, i ∉ ids (idles suf) → membufs s2 !! i = membufs s0 !! i).

Lemma in_idles k bc : (k, bc) ∈ chunkmap s0 → bc_alloc_buffer bc ∈ ids (idles suf) → (k, bc) ∈ idles suf.
Proof.
  intros Hin (k' & bc' & Hin' & Heq)%elem_of_ids.
  assert ((k', bc') ∈ chunkmap s0) by (apply list_elem_of_filter in Hin' as [_ ?]; by apply suf_chunk).
  assert ((k, bc) = (k', bc')) as -> by (by apply (ids_inj (chunkmap s0)); [apply (inv_ids _ _ Hinv0)|..]). done.
Qed.

(** A chunk left by the truncation is a part of a chunk with the same flags. *)
Lemma left_chunk k bc : (k, bc) ∈ chunkmap s2 →
  ∃ bc0 mb0 mb, (k, bc0) ∈ chunkmap s0 ∧ bc_alloc_buffer bc0 = bc_alloc_buffer bc ∧ bc_end bc ≤ bc_end bc0 ∧
    membufs s0 !! bc_alloc_buffer bc = Some mb0 ∧ membufs s2 !! bc_alloc_buffer bc = Some mb ∧
    mb_flag mb = mb_flag mb0.
Proof.
  rewrite Hm2. unfold after_truncate. rewrite list_elem_of_omap. intros ([k0 bc0] & Hin & Hte).
  destruct (inv_chunk _ _ Hinv0 _ _ Hin) as (mb0 & Hmb0 & _ & _). unfold truncate_entry in Hte. simpl in Hte.
  destruct ((bc_end bc0 <=? tl) || chunk_used s0 bc0) eqn:Ek; simplify_eq.
  - exists bc, mb0, mb0. split_and!; try done. rewrite Hother2; [done|]. intros Hi%(in_idles k); [|done].
    apply list_elem_of_filter in Hi as [Hu Hi]. unfold used in Hu. simpl in Hu. rewrite Hu, orb_false_r in Ek.
    apply Z.leb_le in Ek. pose proof (Hsuf _ _ Hi). lia.
  - destruct (Z.ltb_spec (bc_offset bc0) tl) as [Hlt|]; simplify_eq/=.
    apply orb_false_iff in Ek as [Hend%Z.leb_gt Hu].
    assert ((k, bc0) ∈ idles suf) as Hi.
    { apply list_elem_of_filter. split; [done|]. rewrite Hmap in Hin. apply elem_of_app in Hin as [Hp|?]; [|done].
      pose proof (Hpre _ _ Hp). lia. }
    exists bc0, mb0, (mb_set_range (mb_offset mb0) (tl - mb_offset mb0) mb0).
    split_and!; try done; [unfold bc_end in *; simpl; lia|].
    rewrite (Hidle2 _ _ _ Hi Hmb0). unfold truncated_mb. by rewrite (proj2 (Z.ltb_lt _ _)).
Qed.

Lemma left_size_ok : size_ok s0 → cache_size s2 = cache_size s0 → size_ok s2.
Proof.
  intros Hok Hsz k bc mb Hin Hmb Hup. destruct (left_chunk _ _ Hin) as (bc0 & mb0 & mb' & Hin0 & Heq & Hle & Hmb0 & Hmb' & Hf).
  simplify_eq. rewrite <- Heq in Hmb0. unfold is_uptodate, mb_has in *. rewrite Hf in Hup.
  pose proof (Hok _ _ _ Hin0 Hmb0 Hup). lia.
Qed.

Lemma left_no_orphans : no_orphans s0 → no_orphans s2.
Proof.
  intros Hno i mb Hi. destruct (decide (i ∈ ids (idles suf))) as [Hid|Hid].
  - apply elem_of_ids in Hid as (k & bc & Hin & <-). pose proof Hin as [Hu Hs]%list_elem_of_filter.
    pose proof (suf_chunk _ Hs) as Hin0. destruct (inv_chunk _ _ Hinv0 _ _ Hin0) as (mb0 & Hmb0 & _ & _).
    rewrite (Hidle2 _ _ _ Hin Hmb0) in Hi. unfold truncated_mb in Hi.
    destruct (bc_offset bc <? tl) eqn:Elt; [|done].
    apply elem_of_ids. exists k, (cut bc (bc_offset bc) tl). split; [|done]. rewrite Hm2.
    apply list_elem_of_omap. exists (k, bc). split; [done|]. unfold truncate_entry. simpl.
    unfold used in Hu. simpl in Hu. rewrite Hu, (proj2 (Z.leb_gt _ _)) by (by eapply Hsuf). simpl. by rewrite Elt.
  - rewrite Hother2 in Hi by done. pose proof (Hno _ _ Hi) as (k & bc & Hin & <-)%elem_of_ids.
    apply elem_of_ids. exists k, bc. split; [|done]. rewrite Hm2. apply list_elem_of_omap. exists (k, bc). split; [done|].
    unfold truncate_entry. simpl. destruct (Z.leb_spec (bc_end bc) tl); [done|]. simpl.
    destruct (chunk_used s0 bc) eqn:Hu; [done|]. destruct Hid. apply elem_of_ids. exists k, bc. split; [|done].
    apply list_elem_of_filter. split; [done|]. rewrite Hmap in Hin. apply elem_of_app in Hin as [Hp|?]; [|done].
    pose proof (Hpre _ _ Hp). lia.
Qed.
End finish.

(** The truncated bytes all lie between [tl] and the end of the last chunk. *)
Lemma truncated_bytes_le R : ∀ lo,
  cm_wf lo R → (∀ k bc, (k, bc) ∈ R → tl < bc_end bc) →
  0 ≤ cm_bytes R - cm_bytes (after_truncate s0 tl R) ≤ Z.max 0 (cm_last_end lo R - Z.max lo tl).
Proof.
  induction R as [|[k bc] R IH]; intros lo Hw HR; [simpl; lia|].
  assert (tl < bc_end bc) as He by (apply (HR k); by left).
  rewrite after_truncate_cons. destruct Hw as (-> & Hlo & Hlen & Hw). cbn [cm_bytes cm_last_end].
  pose proof (cm_last_end_ge _ _ Hw). pose proof (IH _ Hw (λ k c H, HR k c (list_elem_of_further _ _ _ H))).
  unfold truncate_entry. cbn [snd fst]. rewrite (proj2 (Z.leb_gt _ _)) by done. cbn [orb].
  unfold bc_end in *. destruct (chunk_used s0 bc); [cbn [cm_bytes]; lia|].
  destruct (Z.ltb_spec (bc_offset bc) tl); cbn [cm_bytes cut bc_length]; lia.
Qed.

Lemma locked_other s i : stage (locking suf) s → i ∉ ids (idles suf) → membufs s !! i = membufs s0 !! i.
Proof.
  intros Hst Hi. rewrite (sg_heap _ _ Hst). destruct (membufs s0 !! i) as [mb|] eqn:E; [|done]. simpl.
  by rewrite (locking_suf _ _ E), decide_False.
Qed.

(** Every affected chunk is in use: nothing changes. *)
Lemma nothing_truncated s :
  stage (locking suf) s → idles suf = [] →
  truncated (Z.of_nat (length (filter (λ p, used p = true) suf)), 0) s.
Proof.
  intros Hst Hnil. assert (after_truncate s0 tl suf = suf) as Hsame.
  { clear -Hnil. induction suf as [|p R IH]; [done|]. rewrite idles_cons in Hnil.
    destruct (used p) eqn:Hu; [|done]. rewrite after_truncate_cons. unfold truncate_entry, used in *.
    rewrite Hu, orb_true_r. f_equal. by apply IH. }
  assert (chunkmap s = after_truncate s0 tl (chunkmap s0)) as Hcm.
  { by rewrite (sg_map _ _ Hst), after_truncate_pre, Hmap, Hsame. }
  split; cbn [fst snd]; try done.
  - pose proof (unpin_used _ Hst) as H. rewrite Hnil in H. done.
  - rewrite (sg_map _ _ Hst). lia.
  - rewrite decide_True by done. apply (sg_size _ _ Hst).
  - intros k bc mb Hin. rewrite Hnil in Hin. by apply elem_of_nil in Hin.
  - intros i Hi. by apply locked_other.
Qed.

(** The new size covers the uptodate bytes: the last assertion holds. *)
Lemma truncate_finish s2 n :
  inv s2 → no_orphans s2 → 0 ≤ n →
  let s3 := c_bump num_truncate 1 (c_bump bytes_truncate n (c_set_cache_size (up_end s2) s2)) in
  inv s3 ∧ up_end s3 = up_end s2 ∧
  ((st s3 bytes_uptodate <=? cache_size s3) || (st s3 bytes_cached <? st s3 bytes_uptodate)) = true.
Proof.
  intros Hinv Hno Hn s3. split_and!; [|done|].
  - apply inv_count; [|done|done]. apply inv_count; [|done|done]. split; apply Hinv.
  - simpl. bumps. rewrite (proj2 (Z.leb_le _ _)); [done|]. by apply bytes_uptodate_le.
Qed.

Lemma truncate_spec fl post :
  (post = true → fl = true) → 0 ≤ tl ≤ AZNFSC_MAX_FILE_SIZE → size_ok s0 → no_orphans s0 →
  wp (truncate true fl tl post) s0 (λ r s', truncated r s').
Proof.
  intros Hpost Htl Hok Hno. unfold truncate.
  wp_asserts ltac:(first [done|cmp|destruct post; [by rewrite Hpost|done]]).
  wp_step. eapply wp_mono; [apply truncate_collect_spec|]. cbv beta. intros v s [-> Hst].
  assert (stage (locking []) s) as Hst0.
  { apply (stage_ext _ _ _ Hst). intros. unfold pinning, locking. by rewrite (decide_False (P := _ ∈ ids [])) by apply not_elem_of_nil. }
  pose proof (truncate_lock_spec post suf [] s eq_refl Hst0) as Hlock. fold (idles suf) in Hlock.
  destruct suf.*1 as [|k0 l0] eqn:Esuf.
  { wp_step. apply fmap_nil_inv in Esuf as Es.
    assert (idles suf = []) as Hid0 by (by rewrite Es).
    assert (stage (locking suf) s) as Hst1 by (by rewrite Es at 1).
    pose proof (nothing_truncated _ Hst1 Hid0) as H. by rewrite Es in H at 1. }
  wp_step. eapply wp_mono; [exact Hlock|]. cbv beta. intros r s1 [Hst1 ->]. cbn [fst snd].
  destruct (idles suf).*1 as [|k1 l1] eqn:Eid.
  { wp_step. apply fmap_nil_inv in Eid. by apply nothing_truncated. }
  assert (idles suf ≠ []) as Hne by (by intros E; rewrite E in Eid). rewrite <- Eid.
  wp_step. eapply wp_mono.
  { apply (truncate_apply_spec suf [] pre s1 eq_refl (unpin_used _ Hst1)).
    - by rewrite (sg_map _ _ Hst1).
    - intros i Hi. rewrite (sg_heap _ _ Hst1). destruct (membufs s0 !! i) as [mb|] eqn:E; [|done]. simpl.
      by rewrite (locking_suf _ _ E), decide_True. }
  cbv beta. intros [n z] s2 [Hz [Hinv2 Hm2 Hn Hsz Hnx Hid2 Hot2]]. cbn [fst snd] in *. subst z.
  rewrite <- after_truncate_pre in Hm2.
  assert (∀ i, i ∉ ids (idles suf) → membufs s2 !! i = membufs s0 !! i) as Hot.
  { intros i Hi. by rewrite Hot2, locked_other. }
  wp_step. eapply wp_mono.
  { apply update_cache_size_spec; [done|]. apply left_size_ok; try done. by rewrite Hsz, (sg_size _ _ Hst1). }
  cbv beta. intros _ s3 ->. cbn [fst snd].
  pose proof (inv_wf _ _ Hinv0) as Hw. rewrite Hmap in Hw. apply cm_wf_app in Hw as [_ Hw].
  pose proof (truncated_bytes_le suf _ Hw Hsuf) as Hbytes. pose proof (inv_bound _ _ Hinv0) as Hbound.
  rewrite Hmap, cm_last_end_app in Hbound.
  assert (0 ≤ n) as Hn0 by lia.
  destruct (truncate_finish s2 n Hinv2 (left_no_orphans s2 Hm2 Hid2 Hot Hno) Hn0) as (Hinv3 & Hup & Has).
  wp_asserts cmp. unfold stat_add. do 7 wp_step. wp_step; [exact Has|]. wp_step.
  split; try done; cbn [fst snd].
  - lia.
  - change (chunkmap (c_bump _ _ (c_bump _ _ (c_set_cache_size (up_end s2) s2)))) with (chunkmap s2). rewrite Hm2, after_truncate_pre, Hmap, !cm_bytes_app. lia.
  - rewrite decide_False by done. done.
Qed.
End run.
