(* ===== verification/CacheTruncate.v ===== *)
(** * Properties of truncate() *)
From S2P Require Import Prelude CacheState Membuf MembufSpec ChunkMap FileCache CacheInv MembufInv CacheOps CacheGet CacheRelease Truncate CacheSize TruncateSpec.

(** The state a truncation to [tl] starts from: every chunk with a byte at or
    after [tl] is in use by somebody else or idle, no membuf outlives its chunk,
    the uptodate chunks lie within the cache size, and the cached data fits into
    a file. *)
Record truncatable (s : cache) (tl : Z) : Prop := {
  tr_inv : inv s;
  tr_chunks : ∀ k bc mb, (k, bc) ∈ chunkmap s → tl < bc_end bc →
    membufs s !! bc_alloc_buffer bc = Some mb → mb_is_inuse mb = true ∨ idle mb;
  tr_size : size_ok s;
  tr_orphans : no_orphans s;
  tr_alloc : st s bytes_allocated ≤ AZNFSC_MAX_FILE_SIZE;
  tr_len : 0 ≤ tl ≤ AZNFSC_MAX_FILE_SIZE;
}.

(** The chunks a truncation to [tl] must skip. *)
Definition skipped (s : cache) (tl : Z) : cmap :=
  filter (λ p, tl < bc_end p.2 ∧ chunk_used s p.2 = true) (chunkmap s).

(** The specification in terms of the whole chunkmap. *)
Lemma truncate_whole s tl fl post :
  truncatable s tl → (post = true → fl = true) →
  wp (truncate true fl tl post) s (λ r s', ∃ pre suf, chunkmap s = pre ++ suf ∧
    (∀ k bc, (k, bc) ∈ pre → bc_end bc ≤ tl) ∧ (∀ k bc, (k, bc) ∈ suf → tl < bc_end bc) ∧
    truncated s tl suf r s' ∧ skipped s tl = filter (λ p, used s p = true) suf ∧ size_ok s' ∧ no_orphans s').
Proof.
  intros [Hinv Hch Hsz Hno Hal Hlen] Hpost.
  destruct (cm_split_at 0 (chunkmap s) tl (inv_wf _ _ Hinv)) as (pre & suf & Hm & Hpre & Hsuf).
  assert (∀ k bc mb, (k, bc) ∈ suf → membufs s !! bc_alloc_buffer bc = Some mb → mb_is_inuse mb = true ∨ idle mb) as Hq.
  { intros k bc mb Hin. apply (Hch k); [rewrite Hm; set_solver|by eapply Hsuf]. }
  eapply wp_mono; [by apply (truncate_spec s Hinv tl pre suf Hm Hpre Hsuf)|].
  cbv beta. intros r s' Htr. exists pre, suf. split_and!; try done.
  - unfold skipped. rewrite Hm, filter_app, filter_none; simpl.
    + apply filter_ext_in. intros [k bc] Hin. pose proof (Hsuf _ _ Hin). simpl. unfold used. simpl. tauto.
    + intros [k bc] Hin [Hlt _]. pose proof (Hpre _ _ Hin). simpl in *. lia.
  - destruct Htr as [Hinv' Hm' _ _ Hsize Hid Hot].
    case_decide as Hnil; [by eapply (left_size_ok s Hinv tl pre suf)|].
    intros k bc mb Hin Hmb Hup. rewrite Hsize. by apply (up_end_ge s' Hinv' k bc mb).
  - destruct Htr. by eapply (left_no_orphans s Hinv tl pre suf).
Qed.

(** C17: a truncation from such a state fails no assertion, whether it is the
    blocking call or the final one under the flush lock.  It computes the
    reference chunkmap: chunks below the new size and chunks in use are
    untouched, an idle chunk across the new size is cut there, idle chunks beyond
    it are gone.  It reports how many chunks it skipped and how many bytes left
    the cache, and gives every lock and pin back ([inv] pins nothing). *)
Theorem truncate_computes_reference s tl fl post :
  truncatable s tl → (post = true → fl = true) →
  ∃ n_skipped n_bytes s', truncate true fl tl post s = Some ((n_skipped, n_bytes), s') ∧
    inv s' ∧ size_ok s' ∧ no_orphans s' ∧
    chunkmap s' = after_truncate s tl (chunkmap s) ∧
    n_skipped = Z.of_nat (length (skipped s tl)) ∧
    n_bytes = st s bytes_cached - st s' bytes_cached.
Proof.
  intros Ht Hpost. destruct (truncate_whole s tl fl post Ht Hpost)
    as ([ns nb] & s' & Hrun & pre & suf & Hm & Hpre & Hsuf & [Hinv Hmap Hsk Hby _ _ _] & Hskip & Hok & Hno).
  exists ns, nb, s'. rewrite Hskip, (inv_cached _ _ Hinv), (inv_cached _ _ (tr_inv _ _ Ht)). by split_and!.
Qed.

(** Byte [x] is cut off by a truncation to [tl]. *)
Definition truncated_at (s : cache) (tl x : Z) : bool :=
  match cm_find x (chunkmap s) with
  | Some c => (tl <=? x) && negb (chunk_used s c)
  | None => false
  end.

(** What is left of a chunk that caches [x]. *)
Lemma entry_survives s tl c x :
  bc_offset c ≤ x < bc_end c →
  (∃ c', truncate_entry s tl (bc_offset c, c) = Some (bc_offset c, c') ∧ bc_offset c' ≤ x < bc_end c' ∧
     bc_offset c' = bc_offset c ∧ cell c' x = cell c x) ↔
  (tl <=? x) && negb (chunk_used s c) = false.
Proof.
  intros Hx. unfold truncate_entry. simpl.
  destruct (chunk_used s c); [rewrite orb_true_r, andb_false_r; simpl; split; [done|eauto]|].
  rewrite orb_false_r, andb_true_r. destruct (Z.leb_spec (bc_end c) tl).
  { rewrite (proj2 (Z.leb_gt _ _)) by lia. split; [done|eauto]. }
  destruct (Z.ltb_spec (bc_offset c) tl), (Z.leb_spec tl x); (split; [intros (c' & Hc & Hx' & _)|intros Hf; try done]);
    simplify_eq; try done; try lia.
  - unfold bc_end in *. simpl in *. lia.
  - eexists. split; [done|]. unfold bc_end, cell in *. simpl. split_and!; try lia. f_equal. lia.
Qed.

Lemma entry_sub s tl p q : truncate_entry s tl p = Some q →
  bc_offset q.2 = bc_offset p.2 ∧ bc_end q.2 ≤ bc_end p.2 ∧ q.1 = p.1.
Proof.
  unfold truncate_entry. intros H. repeat case_match; simplify_eq; try done. simpl. unfold bc_end in *. simpl.
  repeat match goal with H : _ || _ = false |- _ => apply orb_false_iff in H as [? _] end. bools. split_and!; try done. lia.
Qed.

Lemma truncated_bytes s s' tl x :
  inv s → inv s' → chunkmap s' = after_truncate s tl (chunkmap s) →
  byte_at s' x = if truncated_at s tl x then None else byte_at s x.
Proof.
  intros Hinv Hinv' Hm. pose proof (inv_wf _ _ Hinv) as Hw. pose proof (inv_wf _ _ Hinv') as Hw'.
  assert (∀ c', cm_find x (chunkmap s') = Some c' → ∃ c, cm_find x (chunkmap s) = Some c ∧
    truncate_entry s tl (bc_offset c, c) = Some (bc_offset c, c')) as Hback.
  { intros c' [Hin Hx]%(cm_find_elem 0); [|done]. rewrite Hm in Hin.
    apply list_elem_of_omap in Hin as ([k c] & Hin & Hte). destruct (entry_sub _ _ _ _ Hte) as (Ho & He & Hk).
    simpl in *. destruct (inv_chunk_bounds _ _ Hinv _ _ Hin) as (-> & _). exists c. split; [|by rewrite Ho in Hte].
    apply (cm_find_elem 0); [done|]. split; [done|lia]. }
  unfold byte_at, truncated_at. destruct (cm_find x (chunkmap s)) as [c|] eqn:Hf.
  2: { destruct (cm_find x (chunkmap s')) as [c'|] eqn:Hf'; [|done]. by destruct (Hback _ eq_refl) as (c & ? & _). }
  pose proof Hf as [Hin Hx]%(cm_find_elem 0); [|done]. pose proof (entry_survives s tl c x Hx) as Hs.
  destruct (_ && _) eqn:E.
  - destruct (cm_find x (chunkmap s')) as [c'|] eqn:Hf'; [|done]. exfalso.
    destruct (Hback _ eq_refl) as (c1 & ? & Hte). simplify_eq.
    apply (cm_find_elem 0) in Hf' as [_ Hx']; [|done]. enough (true = false) by done. apply Hs. exists c'.
    destruct (entry_sub _ _ _ _ Hte) as (Ho & He & _). simpl in *. split_and!; try done; try lia.
    unfold truncate_entry in Hte. simpl in Hte. repeat case_match; simplify_eq; try done.
    unfold cell. simpl. f_equal. lia.
  - destruct (proj2 Hs eq_refl) as (c' & Hte & Hx' & Ho & Hcell).
    assert (cm_find x (chunkmap s') = Some c') as ->; [|simpl; by rewrite Hcell].
    apply (cm_find_elem 0); [done|]. split; [|done]. rewrite Hm, Ho. apply list_elem_of_omap. eauto.
Qed.

(** The effect of a truncation on the byte map: exactly the bytes at or after
    the new size whose chunk is not in use disappear; every other byte keeps its
    cell.  In particular no byte below the new size is lost. *)
Theorem truncate_drops_exactly s tl fl post ns nb s' :
  truncatable s tl → (post = true → fl = true) → truncate true fl tl post s = Some ((ns, nb), s') →
  ∀ x, byte_at s' x = if truncated_at s tl x then None else byte_at s x.
Proof.
  intros Ht Hpost Hrun x.
  destruct (wp_run _ _ _ _ _ Hrun (truncate_whole s tl fl post Ht Hpost))
    as (pre & suf & _ & _ & _ & [Hinv Hm _ _ _ _ _] & _).
  apply truncated_bytes; [apply (tr_inv _ _ Ht)|done|done].
Qed.

(** When nobody uses a chunk beyond the new size, the truncation is complete:
    nothing is skipped, no chunk reaches past [tl], and the cache size, which
    bounds what is served from the cache, is at most [tl] whenever anything was
    cut. *)
Theorem truncate_is_complete s tl fl post ns nb s' :
  truncatable s tl → (post = true → fl = true) → truncate true fl tl post s = Some ((ns, nb), s') →
  skipped s tl = [] →
  ns = 0 ∧ (∀ k bc, (k, bc) ∈ chunkmap s' → bc_end bc ≤ tl) ∧
  (∀ x, tl ≤ x → byte_at s' x = None) ∧
  (0 < nb → cache_size s' ≤ tl).
Proof.
  intros Ht Hpost Hrun Hnone.
  destruct (wp_run _ _ _ _ _ Hrun (truncate_whole s tl fl post Ht Hpost))
    as (pre & suf & Hmap & Hpre & Hsuf & [Hinv Hm Hsk Hby Hsz _ _] & Hskip & _). simpl in *.
  assert (∀ k bc, (k, bc) ∈ chunkmap s' → bc_end bc ≤ tl) as Hend.
  { intros k bc Hin. rewrite Hm in Hin. apply list_elem_of_omap in Hin as ([k0 bc0] & Hin0 & Hte).
    unfold truncate_entry in Hte. simpl in Hte. destruct (Z.leb_spec (bc_end bc0) tl); simplify_eq/=; [done|].
    destruct (chunk_used s bc0) eqn:Hu; simplify_eq.
    - exfalso. assert ((k, bc) ∈ skipped s tl) as Hbad by (by apply list_elem_of_filter).
      rewrite Hnone in Hbad. by apply elem_of_nil in Hbad.
    - case_match; simplify_eq. unfold bc_end. simpl. lia. }
  split_and!; [by rewrite Hsk, <- Hskip, Hnone|done| |].
  - intros x Hx. unfold byte_at. destruct (cm_find x (chunkmap s')) as [c|] eqn:Hf; [|done].
    apply (cm_find_elem 0) in Hf as [Hin ?]; [|apply (inv_wf _ _ Hinv)]. pose proof (Hend _ _ Hin). lia.
  - intros Hnb. rewrite Hsz. case_decide as Hid; [|apply up_end_le; [done|apply (tr_len _ _ Ht)|done]].
    exfalso. assert (suf = []) as Hs.
    { destruct suf as [|p R]; [done|]. rewrite idles_cons in Hid. destruct (used s p) eqn:Hu; [|done].
      rewrite Hskip in Hnone. rewrite filter_cons_True in Hnone by done. done. }
    rewrite Hs, app_nil_r in Hmap. rewrite Hmap, Hm, Hmap in Hby.
    assert (after_truncate s tl pre = pre) as Heq; [|rewrite Heq in Hby; lia].
    pose proof (after_truncate_pre s tl pre [] ltac:(by rewrite app_nil_r) Hpre) as Hp. rewrite Hmap in Hp.
    simpl in Hp. by rewrite app_nil_r in Hp.
Qed.

(** ** Witnesses *)

(** One uptodate chunk [5, 15) that nobody uses or refers to. *)
Definition fill_and_let_go (id : nat) : MC () :=
  do_ set_locked id; do_ set_uptodate id; do_ clear_locked id; do_ clear_inuse id; shared_ptr_reset id.

Definition quiet_chunk : cache :=
  match fill_and_let_go 0 one_chunk with Some (_, s) => s | None => empty_cache end.

Lemma quiet_chunk_map : chunkmap quiet_chunk = [(5, Chunk 0 5 10 0 0 0 true false)].
Proof. vm_compute. reflexivity. Qed.

Lemma quiet_chunk_heap : membufs quiet_chunk = {[0%nat := Membuf 5 10 5 10 10 (-1) 1 0 1]}.
Proof. vm_compute. reflexivity. Qed.

Lemma quiet_chunk_inv : inv quiet_chunk.
Proof.
  unfold quiet_chunk. destruct (fill_and_let_go 0 one_chunk) as [[[] s]|] eqn:E; [|apply empty_inv].
  revert E. generalize (); revert s. intros s u. change (fill_and_let_go 0 one_chunk = Some (u, s) → inv s).
  revert u s. change (wlp (fill_and_let_go 0) one_chunk (λ _ s, inv s)).
  assert (membufs one_chunk !! 0%nat = Some (Membuf 5 10 5 10 10 (-1) 0 1 2)) as H0 by (vm_compute; reflexivity).
  unfold fill_and_let_go. apply wlp_bind. intros b s1 E1.
  pose proof (set_locked_inv _ _ one_chunk_inv 0 _ _ E1) as Hi1.
  destruct (set_locked_spec 0 _ _ _ E1) as (m0 & _ & _ & Hu1). pose proof (upd_lookup _ _ _ _ _ Hu1). simplify_eq.
  apply wlp_bind. intros [] s2 E2. pose proof (set_uptodate_inv _ _ Hi1 0 _ _ E2) as Hi2.
  destruct (set_uptodate_spec 0 _ _ _ E2) as (m1 & _ & _ & _ & Hu2). pose proof (upd_lookup _ _ _ _ _ Hu2) as H1.
  simpl in H1. rewrite (upd_this _ _ _ _ _ Hu1) in H1. simplify_eq.
  apply wlp_bind. intros [] s3 E3. pose proof (clear_locked_inv _ _ Hi2 0 _ _ E3) as Hi3.
  destruct (clear_locked_spec 0 _ _ _ E3) as (m2 & _ & _ & _ & Hu3). pose proof (upd_lookup _ _ _ _ _ Hu3) as H2.
  rewrite (upd_this _ _ _ _ _ Hu2) in H2. simplify_eq. pose proof (upd_this _ _ _ _ _ Hu3) as H3.
  apply wlp_bind. intros [] s4 E4.
  pose proof (clear_inuse_inv _ _ Hi3 0 _ H3 ltac:(done) _ _ E4) as Hi4.
  destruct (clear_inuse_spec 0 _ _ _ E4) as (m3 & _ & Hu4). pose proof (upd_lookup _ _ _ _ _ Hu4) as H4.
  rewrite H3 in H4. simplify_eq. pose proof (upd_this _ _ _ _ _ Hu4) as H5.
  intros [] s5 E5. eapply (wp_run _ _ _ _ (λ _ s, inv s) E5), wp_mono; [apply (shared_ptr_reset_spec ∅ s4 0 _ Hi4 H5)|].
  - apply not_elem_of_empty.
  - by destruct (in_map 0 (chunkmap s4)).
  - discriminate.
  - by intros _ s' [? _].
Qed.

Lemma quiet_truncatable tl : 0 ≤ tl ≤ 20 → truncatable quiet_chunk tl.
Proof.
  intros Htl. split.
  - apply quiet_chunk_inv.
  - rewrite quiet_chunk_map, quiet_chunk_heap. intros k bc mb ?%list_elem_of_singleton _ Hmb. simplify_eq.
    apply lookup_singleton_Some in Hmb as [_ <-]. right. by split.
  - intros k bc mb. rewrite quiet_chunk_map. intros ?%list_elem_of_singleton _ _. simplify_eq. vm_compute. done.
  - intros i mb. rewrite quiet_chunk_heap, quiet_chunk_map. intros [<- _]%lookup_singleton_Some. by left.
  - vm_compute. done.
  - unfold AZNFSC_MAX_FILE_SIZE, AZNFSC_MAX_BLOCK_SIZE. lia.
Qed.

#[local] Opaque quiet_chunk.

Lemma truncate_computes_reference_witness :
  ∃ n_skipped n_bytes s', truncate true false 8 false quiet_chunk = Some ((n_skipped, n_bytes), s') ∧
    inv s' ∧ size_ok s' ∧ no_orphans s' ∧
    chunkmap s' = after_truncate quiet_chunk 8 (chunkmap quiet_chunk) ∧
    n_skipped = Z.of_nat (length (skipped quiet_chunk 8)) ∧
    n_bytes = st quiet_chunk bytes_cached - st s' bytes_cached.
Proof. apply (truncate_computes_reference quiet_chunk 8 false false); [by apply quiet_truncatable|done]. Defined.

Lemma quiet_8 : truncatable quiet_chunk 8.
Proof. apply quiet_truncatable. lia. Qed.

Lemma truncate_drops_exactly_witness :
  ∃ r s', truncate true true 8 true quiet_chunk = Some (r, s') ∧ byte_at s' 8 = None ∧ byte_at s' 7 = Some (0%nat, 2).
Proof.
  destruct (truncate_whole quiet_chunk 8 true true quiet_8 (λ H, H)) as ([ns nb] & s' & Hrun & _).
  exists (ns, nb), s'. split; [exact Hrun|].
  split; rewrite (truncate_drops_exactly quiet_chunk 8 true true ns nb s' quiet_8 (λ H, H) Hrun);
    unfold truncated_at, chunk_used, byte_at; rewrite quiet_chunk_map, ?quiet_chunk_heap; reflexivity.
Defined.

Lemma truncate_is_complete_witness :
  ∃ nb s', truncate true true 8 true quiet_chunk = Some ((0, nb), s') ∧ ∀ x, 8 ≤ x → byte_at s' x = None.
Proof.
  destruct (truncate_whole quiet_chunk 8 true true quiet_8 (λ H, H)) as ([ns nb] & s' & Hrun & _).
  destruct (truncate_is_complete quiet_chunk 8 true true ns nb s' quiet_8 (λ H, H) Hrun) as (Hns & _ & Hx & _).
  - unfold skipped, chunk_used. rewrite quiet_chunk_map, quiet_chunk_heap. reflexivity.
  - exists nb, s'. rewrite <- Hns at 1. split; [exact Hrun|exact Hx].
Defined.
