(* ===== verification/DirtyLists.v ===== *)
(** * The list queries of the flush and commit paths

    [get_dirty_bc_range()], [get_dirty_nonflushing_bcs_range()],
    [get_flushing_bc_range()], [get_contiguous_dirty_bcs()] and
    [get_commit_pending_bcs()]: each walks the chunkmap under the chunkmap lock
    and returns copies of the chunks that qualify, each with a use count of its
    own.  The theorems say that exactly the qualifying chunks are returned, in
    file order, and that nothing else changes. *)
From S2P Require Import Prelude CacheState Membuf MembufSpec ChunkMap FileCache CacheInv MembufInv CacheOps ScanGet CacheGet CacheRelease.

(** ** The operations *)

(** [mb->set_inuse(); bc_vec.emplace_back(bc);] *)
Definition take_chunk (bc : bytes_chunk) : MC bytes_chunk :=
  do_ set_inuse (bc_alloc_buffer bc); bytes_chunk_copy bc.

(** [while (it != chunkmap.cend() && it->first <= end_off)], taking the chunks
    [one] selects. *)
Fixpoint range_loop (end_off : Z) (one : bytes_chunk → membuf → MC bool) (keys : list Z) : MC (list bytes_chunk) :=
  match keys with
  | [] => mret []
  | k :: rest =>
      if k <=? end_off then
        do bc ← chunk_at k;
        do mb ← get_membuf (bc_alloc_buffer bc);
        do selected ← one bc mb;
        if selected then
          do c ← take_chunk bc;
          do v ← range_loop end_off one rest;
          mret (c :: v)
        else range_loop end_off one rest
      else mret []
  end.

Definition range_query (one : bytes_chunk → membuf → MC bool) (start_off end_off : Z) : MC (list bytes_chunk) :=
  do_ massert (start_off <? end_off);
  do s ← mget;
  range_loop end_off one (cm_range (cm_lower_bound start_off (chunkmap s)) None (chunkmap s)).

(** The chunk and its membuf must always be in sync. *)
Definition in_sync (bc : bytes_chunk) (mb : membuf) : MC () :=
  do_ massert (bc_offset bc =? mb_offset mb); massert (bc_length bc =? mb_length mb).

Definition select_flushing (bc : bytes_chunk) (mb : membuf) : MC bool :=
  do dirty ← is_dirty mb; if dirty then is_flushing mb else mret false.

Definition select_flushable (bc : bytes_chunk) (mb : membuf) : MC bool :=
  do_ in_sync bc mb;
  do dirty ← is_dirty mb;
  if dirty then do flushing ← is_flushing mb; mret (negb flushing && negb (is_truncated mb))
  else mret false.

Definition select_dirty (bc : bytes_chunk) (mb : membuf) : MC bool :=
  do_ in_sync bc mb; do dirty ← is_dirty mb; mret (dirty && negb (is_truncated mb)).

Definition get_flushing_bc_range : Z → Z → MC (list bytes_chunk) := range_query select_flushing.

Definition get_dirty_bc_range : Z → Z → MC (list bytes_chunk) := range_query select_dirty.

(** [*bytes]: the sum of the lengths of the chunks. *)
Definition bc_bytes (v : list bytes_chunk) : Z := foldr (λ bc n, bc_length bc + n) 0 v.

Definition get_dirty_nonflushing_bcs_range (start_off end_off : Z) : MC (list bytes_chunk * Z) :=
  do v ← range_query select_flushable start_off end_off; mret (v, bc_bytes v).

Fixpoint contiguous_loop (next_offset : Z) (keys : list Z) : MC (list bytes_chunk) :=
  match keys with
  | [] => mret []
  | k :: rest =>
      do bc ← chunk_at k;
      do mb ← get_membuf (bc_alloc_buffer bc);
      do flushable ← select_flushable bc mb;
      if flushable then
        if negb (next_offset =? AZNFSC_BAD_OFFSET) && negb (next_offset =? bc_offset bc) then mret []
        else
          let next_offset' := bc_offset bc + bc_length bc in
          do_ massert (negb (next_offset' =? AZNFSC_BAD_OFFSET));
          do c ← take_chunk bc;
          do v ← contiguous_loop next_offset' rest;
          mret (c :: v)
      else contiguous_loop next_offset rest
  end.

Definition get_contiguous_dirty_bcs : MC (list bytes_chunk * Z) :=
  do s ← mget;
  do v ← contiguous_loop AZNFSC_BAD_OFFSET (chunkmap s).*1;
  mret (v, bc_bytes v).

Fixpoint commit_loop (next_offset : Z) (keys : list Z) : MC (list bytes_chunk) :=
  match keys with
  | [] => mret []
  | k :: rest =>
      do bc ← chunk_at k;
      let id := bc_alloc_buffer bc in
      do mb0 ← get_membuf id;
      do cp ← is_commit_pending mb0;
      if cp then
        do_ massert (negb (is_truncated mb0));
        do_ set_inuse id;
        do_ set_locked id;
        do mb ← get_membuf id;
        do dirty ← is_dirty mb;
        do_ massert (negb dirty);
        do_ massert (is_uptodate mb);
        do cp' ← is_commit_pending mb;
        do_ massert cp';
        do_ massert (bc_length bc =? mb_length mb);
        do_ massert (bc_offset bc =? mb_offset mb);
        do_ massert ((next_offset =? AZNFSC_BAD_OFFSET) || (mb_offset mb =? next_offset));
        let next_offset' := mb_offset mb + mb_length mb in
        do_ massert (negb (next_offset' =? AZNFSC_BAD_OFFSET));
        do c ← bytes_chunk_copy bc;
        do v ← commit_loop next_offset' rest;
        mret (c :: v)
      else commit_loop next_offset rest
  end.

(** [stable_write] is the inode's [is_stable_write()]. *)
Definition get_commit_pending_bcs (stable_write : bool) : MC (list bytes_chunk * Z) :=
  do_ massert (negb stable_write);
  do s ← mget;
  do v ← commit_loop AZNFSC_BAD_OFFSET (chunkmap s).*1;
  mret (v, bc_bytes v).

(** ** Taking chunks *)

(** A membuf that gained a user and the user's reference. *)
Definition taken (mb : membuf) : membuf :=
  mb_set_use_count (mb_use_count mb + 1) (mb_set_inuse (mb_inuse mb + 1) mb).

(** [s'] is [s] with the membufs of [v] changed by [g]. *)
Record took (g : membuf → membuf) (v : list bytes_chunk) (s s' : cache) : Prop := {
  tk_inv : inv s';
  tk_map : chunkmap s' = chunkmap s;
  tk_heap : ∀ i, membufs s' !! i = if decide (i ∈ bc_alloc_buffer <$> v) then g <$> membufs s !! i else membufs s !! i;
  tk_size : cache_size s' = cache_size s;
  tk_next : next_id s' = next_id s;
  tk_alloc : st s' bytes_allocated = st s bytes_allocated;
}.

Lemma took_nil g s : inv s → took g [] s s.
Proof. intros Hinv. by split. Qed.

Lemma took_cons g c v s s1 s2 :
  bc_alloc_buffer c ∉ bc_alloc_buffer <$> v → took g [c] s s1 → took g v s1 s2 → took g (c :: v) s s2.
Proof.
  intros Hout [_ Hm1 Hh1 Hz1 Hn1 Ha1] [Hinv Hm2 Hh2 Hz2 Hn2 Ha2]. split; try congruence.
  intros i. rewrite Hh2, Hh1, fmap_cons. simpl.
  repeat case_decide; try done; try set_solver; destruct (membufs s !! i); done.
Qed.

(** An update that adds a user together with its reference keeps [inv]. *)
Lemma inv_take s s' id mb mb' :
  inv s → mb_updated id mb mb' s s' → mb_step mb mb' → mb_use_count mb' = mb_use_count mb + 1 → inv s'.
Proof.
  intros Hinv Hu Hstep Huc. eapply inv_update; [done|exact Hu|done|].
  pose proof (inv_refs _ _ Hinv _ _ (upd_lookup _ _ _ _ _ Hu)) as Hr. rewrite Huc.
  destruct (in_map id (chunkmap s)), (held_out ∅ id mb), (held_out ∅ id mb'); simpl in *; lia.
Qed.

Lemma took_one g bc mb s s' :
  inv s → mb_updated (bc_alloc_buffer bc) mb (g mb) s s' → mb_step mb (g mb) →
  mb_use_count (g mb) = mb_use_count mb + 1 → mb_allocated_length (g mb) = mb_allocated_length mb →
  took g [bc] s s'.
Proof.
  intros Hinv Hu Hstep Huc Hal. split; try apply Hu; [by eapply inv_take| |rewrite (upd_st _ _ _ _ _ Hu); simpl; lia].
  intros i. rewrite (upd_heap _ _ _ _ _ Hu). simpl. case_decide as Hi.
  - apply list_elem_of_singleton in Hi as ->. by rewrite lookup_insert_eq, (upd_lookup _ _ _ _ _ Hu).
  - rewrite lookup_insert_ne; [done|]. intros <-. apply Hi. by left.
Qed.

(** Copying a chunkmap entry whose membuf is [mb]. *)
Lemma bytes_chunk_copy_raw s bc mb :
  membufs s !! bc_alloc_buffer bc = Some mb → mb_wf mb → linked bc mb → 1 ≤ mb_use_count mb →
  backing_file_name s = false → backing_file_fd s = -1 → bc_is_new bc = false →
  wp (bytes_chunk_copy bc) s (λ c s', c = bc ∧
    mb_updated (bc_alloc_buffer bc) mb (mb_set_use_count (mb_use_count mb + 1) mb) s s').
Proof.
  intros Hid Hwf [Ho Hl Hb] Huc Hnm Hfd Hnew. pose proof (wf_length _ Hwf). unfold bytes_chunk_copy. wp_step.
  eapply wp_mono; [apply (bytes_chunk_view_raw s _ mb); try done; try lia; congruence|].
  cbv beta. intros c s' [-> Hu]. wp_step. split; [by destruct bc|done].
Qed.

Lemma linked_step bc mb mb' : linked bc mb → mb_step mb mb' → linked bc mb'.
Proof. intros [] []. split; congruence. Qed.

Lemma mb_step_trans m1 m2 m3 : mb_step m1 m2 → mb_step m2 m3 → mb_step m1 m3.
Proof. intros [] []. split; try congruence. Qed.

Lemma taken_step mb : mb_wf mb → mb_step mb (taken mb).
Proof.
  intros Hwf. pose proof (wf_inuse _ Hwf).
  apply (mb_step_trans _ (mb_set_inuse (mb_inuse mb + 1) mb)); [apply mb_step_inuse; [done|lia|lia]|].
  apply mb_step_use_count. apply (step_wf mb), mb_step_inuse; [done|lia|lia].
Qed.

Lemma take_chunk_spec s k bc :
  inv s → (k, bc) ∈ chunkmap s → wp (take_chunk bc) s (λ c s', c = bc ∧ took taken [bc] s s').
Proof.
  intros Hinv Hin. destruct (inv_chunk _ _ Hinv _ _ Hin) as (mb & Hmb & Hlk & Hwf).
  pose proof (inv_refs _ _ Hinv _ _ Hmb). pose proof (wf_inuse _ Hwf). destruct (inv_mem _ _ Hinv) as [Hnm Hfd].
  assert (mb_step mb (mb_set_inuse (mb_inuse mb + 1) mb)) as Hstep by (apply mb_step_inuse; [done|lia|lia]).
  unfold take_chunk. wp_step. eapply wp_mono; [by apply set_inuse_spec|]. cbv beta. intros _ s1 Hu1.
  eapply wp_mono.
  { eapply bytes_chunk_copy_raw; [by eapply upd_this|apply Hstep|by eapply linked_step|simpl; lia|..].
    - by rewrite (upd_name _ _ _ _ _ Hu1).
    - by rewrite (upd_fd _ _ _ _ _ Hu1).
    - by apply (inv_plain _ _ Hinv k bc Hin). }
  cbv beta. intros c s2 [-> Hu2]. split; [done|]. eapply took_one; [done|by eapply mb_updated_trans|by apply taken_step|done|done].
Qed.

(** ** The range queries *)

(** The pure selection predicates. *)
Definition flushing_mb (mb : membuf) : bool := mb_has Dirty mb && mb_has Flushing mb.
Definition flushable_mb (mb : membuf) : bool := mb_has Dirty mb && negb (mb_has Flushing mb) && negb (is_truncated mb).
Definition dirty_mb (mb : membuf) : bool := mb_has Dirty mb && negb (is_truncated mb).

(** [one] decides [P]. *)
Definition decides (one : bytes_chunk → membuf → MC bool) (P : membuf → bool) : Prop :=
  ∀ s bc mb, mb_wf mb → linked bc mb → wp (one bc mb) s (λ b s', b = P mb ∧ s' = s).

Lemma select_flushing_decides : decides select_flushing flushing_mb.
Proof.
  intros s bc mb Hwf _. unfold select_flushing, flushing_mb. wp_step. apply is_dirty_wp; [done|].
  destruct (mb_has Dirty mb); [|by wp_step]. by apply is_flushing_wp.
Qed.

Lemma select_flushable_decides : decides select_flushable flushable_mb.
Proof.
  intros s bc mb Hwf [Ho Hl _]. unfold select_flushable, in_sync, flushable_mb. wp_step. wp_step. wp_step; [cmp|].
  wp_step; [cmp|]. wp_step. apply is_dirty_wp; [done|]. destruct (mb_has Dirty mb); [|by wp_step].
  wp_step. apply is_flushing_wp; [done|]. by wp_step.
Qed.

Lemma select_dirty_decides : decides select_dirty dirty_mb.
Proof.
  intros s bc mb Hwf [Ho Hl _]. unfold select_dirty, in_sync. wp_step. wp_step. wp_step; [cmp|].
  wp_step; [cmp|]. wp_step. apply is_dirty_wp; [done|]. by wp_step.
Qed.

(** The membuf of the chunk satisfies [P]. *)
Definition chunk_is (P : membuf → bool) (s : cache) (bc : bytes_chunk) : bool :=
  match membufs s !! bc_alloc_buffer bc with Some mb => P mb | None => false end.

(** The chunks a query returns. *)
Definition selected (P : membuf → bool) (s : cache) (start_off end_off : Z) : list bytes_chunk :=
  (filter (λ p, start_off ≤ p.1 ≤ end_off ∧ chunk_is P s p.2 = true) (chunkmap s)).*2.

Lemma ids_fmap (m : cmap) : bc_alloc_buffer <$> m.*2 = ids m.
Proof. done. Qed.

Lemma took_chunk_is g P v s s' bc :
  took g v s s' → bc_alloc_buffer bc ∉ bc_alloc_buffer <$> v → chunk_is P s' bc = chunk_is P s bc.
Proof. intros Ht Hn. unfold chunk_is. by rewrite (tk_heap _ _ _ _ Ht), decide_False. Qed.

(** Walking the chunkmap: the next chunk and the ones after it. *)
Lemma walk_facts s A k bc R :
  inv s → chunkmap s = A ++ (k, bc) :: R →
  (k, bc) ∈ chunkmap s ∧ chunkmap s = (A ++ [(k, bc)]) ++ R ∧
  (∀ p, p ∈ R → bc_alloc_buffer p.2 ≠ bc_alloc_buffer bc) ∧
  ∃ mb, membufs s !! bc_alloc_buffer bc = Some mb ∧ linked bc mb ∧ mb_wf mb.
Proof.
  intros Hinv Hm. assert ((k, bc) ∈ chunkmap s) as Hin by (rewrite Hm; set_solver). split_and!; [done| | |].
  - by rewrite <- app_assoc.
  - pose proof (inv_ids _ _ Hinv) as Hnd. rewrite Hm in Hnd.
    apply ids_nodup_middle in Hnd as [_ Hout%bool_decide_eq_false]. intros [k' c'] Hp Heq. apply Hout.
    rewrite ids_app. apply elem_of_app. right. apply elem_of_ids. simpl in *. eauto.
  - by eapply inv_chunk.
Qed.

(** Taking a chunk does not change what the later ones are. *)
Lemma later_same g P s s1 bc (R : cmap) (Q : Z * bytes_chunk → Prop) `{!∀ p, Decision (Q p)} :
  took g [bc] s s1 → (∀ p, p ∈ R → bc_alloc_buffer p.2 ≠ bc_alloc_buffer bc) →
  filter (λ p, Q p ∧ chunk_is P s1 p.2 = true) R = filter (λ p, Q p ∧ chunk_is P s p.2 = true) R.
Proof.
  intros Ht Hne. apply filter_ext_in. intros p Hp. rewrite (took_chunk_is _ _ _ _ _ _ Ht); [done|]. simpl.
  rewrite list_elem_of_singleton. by apply Hne.
Qed.

Lemma later_out bc (R : cmap) (Q : Z * bytes_chunk → Prop) `{!∀ p, Decision (Q p)} :
  (∀ p, p ∈ R → bc_alloc_buffer p.2 ≠ bc_alloc_buffer bc) →
  bc_alloc_buffer bc ∉ bc_alloc_buffer <$> (filter Q R).*2.
Proof.
  intros Hne. rewrite ids_fmap. intros (k' & c' & [_ Hp]%list_elem_of_filter & Hal)%elem_of_ids. by apply (Hne (k', c')).
Qed.

(** The loop visits the tail [R] of the chunkmap. *)
Lemma range_loop_spec one P e R : ∀ A s,
  decides one P → inv s → chunkmap s = A ++ R →
  wp (range_loop e one R.*1) s (λ v s', v = (filter (λ p, p.1 ≤ e ∧ chunk_is P s p.2 = true) R).*2 ∧ took taken v s s').
Proof.
  induction R as [|[k bc] R IH]; intros A s Hone Hinv Hm; cbn [range_loop fmap list_fmap fst].
  { wp_step. split; [done|by apply took_nil]. }
  destruct (walk_facts _ _ _ _ _ Hinv Hm) as (Hin & Hm' & Hne & mb & Hmb & Hlk & Hwf).
  pose proof (inv_wf _ _ Hinv) as Hw. rewrite Hm in Hw. pose proof (cm_wf_keys_gt _ _ _ _ _ Hw) as Hgt.
  destruct (Z.leb_spec k e) as [Hle|Hgte].
  2: { wp_step. rewrite filter_none; [split; [done|by apply took_nil]|].
       intros [k' c'] [?|Hp]%elem_of_cons [Hk _]; simplify_eq/=; [lia|]. destruct (Hgt _ _ Hp). lia. }
  wp_step. apply (chunk_at_spec _ _ Hinv k bc); [done|]. wp_step. eapply get_membuf_wp; [exact Hmb|].
  wp_step. eapply wp_mono; [by apply Hone|]. cbv beta. intros b s1 [-> ->].
  assert (chunk_is P s bc = P mb) as Hc by (unfold chunk_is; by rewrite Hmb).
  rewrite filter_cons. cbn [fst snd]. rewrite Hc. destruct (P mb) eqn:EP.
  - rewrite decide_True by done. wp_step. eapply wp_mono; [by eapply take_chunk_spec|]. cbv beta. intros c s1 [-> Ht1].
    wp_step. eapply wp_mono.
    { apply (IH (A ++ [(k, bc)]) s1); [done|apply (tk_inv _ _ _ _ Ht1)|]. by rewrite (tk_map _ _ _ _ Ht1). }
    cbv beta. intros v s2 [-> Ht2]. wp_step.
    rewrite (later_same _ _ _ _ _ _ _ Ht1 Hne) in *. split; [done|].
    eapply took_cons; [by apply later_out|exact Ht1|exact Ht2].
  - rewrite decide_False by (by intros [_ ?]). by eapply IH.
Qed.

Lemma lower_bound_range lo m x :
  cm_wf lo m → ∃ A B, m = A ++ B ∧ (∀ k c, (k, c) ∈ A → k < x) ∧ (∀ k c, (k, c) ∈ B → x ≤ k) ∧
    cm_range (cm_lower_bound x m) None m = B.*1.
Proof.
  intros Hw. assert (∃ A B, m = A ++ B ∧ (∀ k c, (k, c) ∈ A → k < x) ∧ (∀ k c, (k, c) ∈ B → x ≤ k)) as (A & B & -> & HA & HB).
  { revert lo Hw. induction m as [|[k c] m IH]; intros lo Hw.
    - exists [], []. split_and!; [done|by intros ? ? ?%elem_of_nil..].
    - destruct Hw as (-> & ? & ? & Hw). destruct (IH _ Hw) as (A & B & -> & HA & HB).
      destruct (Z.ltb_spec (bc_offset c) x).
      + exists ((bc_offset c, c) :: A), B. split_and!; try done. intros k' c' [?|?]%elem_of_cons; [by simplify_eq|by eapply HA].
      + exists [], ((bc_offset c, c) :: A ++ B). split_and!; [done|by intros ? ? ?%elem_of_nil|].
        intros k' c' [?|Hin]%elem_of_cons; [by simplify_eq|]. destruct (cm_wf_elem _ _ _ _ Hw Hin) as (_ & ? & _).
        unfold bc_end in *. lia. }
  exists A, B. split_and!; try done. rewrite (cm_lower_bound_split _ _ _ HA HB).
  destruct (decide (B = [])) as [->|Hne]; [done|]. pose proof (cm_range_split lo A B []) as Hr.
  rewrite app_nil_r in Hr. by apply Hr.
Qed.

Lemma range_query_spec one P a b s :
  decides one P → inv s → a < b → wp (range_query one a b) s (λ v s', v = selected P s a b ∧ took taken v s s').
Proof.
  intros Hone Hinv Hab. unfold range_query. wp_asserts cmp. wp_step. wp_step.
  destruct (lower_bound_range 0 (chunkmap s) a (inv_wf _ _ Hinv)) as (A & B & Hm & HA & HB & Hr). rewrite Hr.
  eapply wp_mono; [by eapply range_loop_spec|]. cbv beta. intros v s' [-> Ht].
  enough (selected P s a b = (filter (λ p, p.1 ≤ b ∧ chunk_is P s p.2 = true) B).*2) as -> by done.
  unfold selected. rewrite Hm, filter_app, filter_none; simpl.
  - f_equal. apply filter_ext_in. intros [k c] Hin. pose proof (HB _ _ Hin). simpl. naive_solver lia.
  - intros [k c] Hin [[? _] _]. pose proof (HA _ _ Hin). simpl in *. lia.
Qed.

(** The three range queries return, in file order, exactly the chunks that
    start in the range and qualify: dirty and not truncated for
    [get_dirty_bc_range()], also not being flushed for
    [get_dirty_nonflushing_bcs_range()] (whose [*bytes] is their total length),
    dirty and being flushed for [get_flushing_bc_range()].  Each returned membuf
    gains one user and one reference; everything else stays. *)
Theorem range_queries_exact s a b :
  inv s → a < b →
  (∃ s', get_dirty_bc_range a b s = Some (selected dirty_mb s a b, s') ∧
     took taken (selected dirty_mb s a b) s s') ∧
  (∃ s', get_dirty_nonflushing_bcs_range a b s =
       Some ((selected flushable_mb s a b, bc_bytes (selected flushable_mb s a b)), s') ∧
     took taken (selected flushable_mb s a b) s s') ∧
  (∃ s', get_flushing_bc_range a b s = Some (selected flushing_mb s a b, s') ∧
     took taken (selected flushing_mb s a b) s s').
Proof.
  intros Hinv Hab. split_and!.
  - destruct (range_query_spec _ _ a b s select_dirty_decides Hinv Hab) as (v & s' & Hrun & -> & Ht). eauto.
  - destruct (range_query_spec _ _ a b s select_flushable_decides Hinv Hab) as (v & s' & Hrun & -> & Ht).
    exists s'. split; [|done]. unfold get_dirty_nonflushing_bcs_range, bind. by rewrite Hrun.
  - destruct (range_query_spec _ _ a b s select_flushing_decides Hinv Hab) as (v & s' & Hrun & -> & Ht). eauto.
Qed.

(** ** The contiguous run of flushable chunks *)

(** All chunks of [m] whose membuf satisfies [P], in file order. *)
Definition qualifying (P : membuf → bool) (s : cache) (m : cmap) : list bytes_chunk :=
  (filter (λ p, chunk_is P s p.2 = true) m).*2.

Lemma qualifying_cons P s k bc (R : cmap) :
  qualifying P s ((k, bc) :: R) = if chunk_is P s bc then bc :: qualifying P s R else qualifying P s R.
Proof. unfold qualifying. rewrite filter_cons. simpl. by destruct (chunk_is P s bc). Qed.

Lemma qualifying_later g P s s1 bc (R : cmap) :
  took g [bc] s s1 → (∀ p, p ∈ R → bc_alloc_buffer p.2 ≠ bc_alloc_buffer bc) → qualifying P s1 R = qualifying P s R.
Proof.
  intros Ht Hne. unfold qualifying. f_equal. apply filter_ext_in. intros p Hp.
  rewrite (took_chunk_is _ _ _ _ _ _ Ht); [done|]. simpl. rewrite list_elem_of_singleton. by apply Hne.
Qed.

(** [v] continues a run that has reached [next] and [w] is what follows it. *)
Fixpoint run_from (next : Z) (v w : list bytes_chunk) : Prop :=
  match v with
  | [] => match w with [] => True | c :: _ => next ≠ AZNFSC_BAD_OFFSET ∧ bc_offset c ≠ next end
  | c :: v' => (next = AZNFSC_BAD_OFFSET ∨ bc_offset c = next) ∧ run_from (bc_end c) v' w
  end.

Lemma bad_offset_out x : x ≤ AZNFSC_MAX_FILE_SIZE → x ≠ AZNFSC_BAD_OFFSET.
Proof. unfold AZNFSC_MAX_FILE_SIZE, AZNFSC_MAX_BLOCK_SIZE, AZNFSC_BAD_OFFSET. lia. Qed.

Lemma contiguous_loop_spec R : ∀ next A s,
  inv s → chunkmap s = A ++ R →
  wp (contiguous_loop next R.*1) s (λ v s', took taken v s s' ∧
    ∃ w, qualifying flushable_mb s R = v ++ w ∧ run_from next v w).
Proof.
  induction R as [|[k bc] R IH]; intros next A s Hinv Hm; cbn [contiguous_loop fmap list_fmap fst].
  { wp_step. split; [by apply took_nil|]. by exists []. }
  destruct (walk_facts _ _ _ _ _ Hinv Hm) as (Hin & Hm' & Hne & mb & Hmb & Hlk & Hwf).
  destruct (inv_chunk_bounds _ _ Hinv _ _ Hin) as (_ & _ & _ & Hend).
  wp_step. apply (chunk_at_spec _ _ Hinv k bc); [done|]. wp_step. eapply get_membuf_wp; [exact Hmb|].
  wp_step. eapply wp_mono; [by apply select_flushable_decides|]. cbv beta. intros b s1 [-> ->].
  assert (chunk_is flushable_mb s bc = flushable_mb mb) as Hc by (unfold chunk_is; by rewrite Hmb).
  rewrite qualifying_cons, Hc. destruct (flushable_mb mb); [|by eapply IH].
  destruct (negb _ && negb _) eqn:Ebrk.
  { apply andb_true_iff in Ebrk as [E1%negb_true_iff%Z.eqb_neq E2%negb_true_iff%Z.eqb_neq].
    wp_step. split; [by apply took_nil|]. eexists. split; [done|]. simpl. split; congruence. }
  cbv zeta. fold (bc_end bc). rewrite (proj2 (Z.eqb_neq _ _)) by (by apply bad_offset_out). wp_asserts done.
  wp_step. eapply wp_mono; [by eapply take_chunk_spec|]. cbv beta. intros c s1 [-> Ht1].
  wp_step. eapply wp_mono.
  { apply (IH (bc_end bc) (A ++ [(k, bc)]) s1); [apply (tk_inv _ _ _ _ Ht1)|]. by rewrite (tk_map _ _ _ _ Ht1). }
  cbv beta. intros v s2 [Ht2 (w & Hq & Hrun)]. wp_step. rewrite (qualifying_later _ _ _ _ _ _ Ht1 Hne) in Hq. split.
  - eapply took_cons; [|exact Ht1|exact Ht2].
    pose proof (later_out bc R (λ p, chunk_is flushable_mb s p.2 = true) Hne) as Hout.
    unfold qualifying in Hq. rewrite Hq, fmap_app in Hout. set_solver.
  - exists w. rewrite Hq. split; [done|]. simpl. split; [|done].
    apply andb_false_iff in Ebrk as [E%negb_false_iff%Z.eqb_eq|E%negb_false_iff%Z.eqb_eq]; [by left|by right].
Qed.

(** A run is a contiguous range, and it stops for a reason. *)
Lemma run_covers next c v w :
  (∀ x, x ∈ c :: v → 0 < bc_length x ∧ bc_end x ≠ AZNFSC_BAD_OFFSET) → run_from next (c :: v) w →
  ∃ e, covers (c :: v) (bc_offset c) e ∧ ∀ c' w', w = c' :: w' → bc_offset c' ≠ e.
Proof.
  revert next c. induction v as [|c2 v IH]; intros next c Hv [_ Hrun].
  - exists (bc_end c). destruct (Hv c) as [? ?]; [by left|]. split; [done|]. intros c' w' ->. apply Hrun.
  - destruct (IH (bc_end c) c2) as (e & Hcov & Hstop); [intros; apply Hv; by right|done|].
    destruct (Hv c) as [? ?]; [by left|]. destruct Hrun as [[?|Hadj] _]; [done|].
    exists e. split; [|done]. simpl in *. rewrite Hadj in Hcov. split_and!; try done; tauto.
Qed.

Lemma covers_bytes v a e : covers v a e → bc_bytes v = e - a.
Proof.
  revert a. induction v as [|x v IH]; intros a; simpl; [lia|]. intros (<- & ? & Hc). apply IH in Hc.
  unfold bc_end in Hc. lia.
Qed.

(** C29: [get_contiguous_dirty_bcs()] returns the longest contiguous run at the
    start of the flushable chunks (dirty, not being flushed, not truncated): the
    chunks cover a range without a gap, the next flushable chunk (if any) does
    not continue it, and the list is empty only if nothing is flushable.
    [*bytes] is the length of the run. *)
Theorem get_contiguous_dirty_bcs_spec s :
  inv s → ∃ v w s', get_contiguous_dirty_bcs s = Some ((v, bc_bytes v), s') ∧ took taken v s s' ∧
    qualifying flushable_mb s (chunkmap s) = v ++ w ∧ (v = [] → w = []) ∧
    (∀ c v', v = c :: v' → ∃ e, covers v (bc_offset c) e ∧ bc_bytes v = e - bc_offset c ∧
       ∀ c' w', w = c' :: w' → bc_offset c' ≠ e).
Proof.
  intros Hinv.
  destruct (contiguous_loop_spec (chunkmap s) AZNFSC_BAD_OFFSET [] s Hinv eq_refl) as (v & s' & Hrun & Ht & w & Hq & Hfrom).
  exists v, w, s'. split_and!; try done.
  - unfold get_contiguous_dirty_bcs, bind, mget. by rewrite Hrun.
  - intros ->. simpl in Hfrom. by destruct w as [|? ?]; [|destruct Hfrom].
  - intros c v' ->. destruct (run_covers AZNFSC_BAD_OFFSET c v' w) as (e & Hcov & Hstop); [|done|].
    { intros x Hx. assert (x ∈ qualifying flushable_mb s (chunkmap s)) as Hx' by (rewrite Hq; set_solver).
      apply list_elem_of_fmap in Hx' as ([k x'] & -> & [_ Hin]%list_elem_of_filter).
      destruct (inv_chunk_bounds _ _ Hinv _ _ Hin) as (_ & _ & ? & ?). split; [done|]. by apply bad_offset_out. }
    exists e. split_and!; try done. by apply covers_bytes.
Qed.

(** ** The chunks to commit *)
Definition pending_mb (mb : membuf) : bool := mb_has CommitPending mb.

(** A membuf that gained a user with its reference and was locked by it. *)
Definition taken_locked (mb : membuf) : membuf :=
  mb_set_use_count (mb_use_count mb + 1)
    (mb_set_flag (or_flag (mb_flag mb) Locked) (mb_set_inuse (mb_inuse mb + 1) mb)).

Section commit_one.
Context (s : cache) (Hinv : inv s) (k : Z) (bc : bytes_chunk) (Hin : (k, bc) ∈ chunkmap s) (mb : membuf).
Context (Hmb : membufs s !! bc_alloc_buffer bc = Some mb) (Hlk : linked bc mb) (Hwf : mb_wf mb).
Context (Hcp : mb_has CommitPending mb = true) (Hfree : is_locked mb = false).
Context (Hal : st s bytes_allocated ≤ AZNFSC_MAX_FILE_SIZE).

Lemma pending_flags : mb_has Dirty mb = false ∧ mb_has Flushing mb = false ∧ mb_has Uptodate mb = true.
Proof.
  split_and!; [| |by apply (wf_commit _ Hwf)].
  - destruct (mb_has Dirty mb) eqn:E; [|done]. apply (wf_dirty _ Hwf) in E as [_ E]. congruence.
  - destruct (mb_has Flushing mb) eqn:E; [|done]. apply (wf_flushing _ Hwf) in E as [E _]. congruence.
Qed.

Definition pinned_locked : membuf := mb_set_flag (or_flag (mb_flag mb) Locked) (mb_set_inuse (mb_inuse mb + 1) mb).

Lemma pinned_locked_step : mb_step mb pinned_locked.
Proof.
  destruct pending_flags as (Hd & Hf & Hup). pose proof (wf_inuse _ Hwf).
  split; try done. apply mb_wf_set_flag; [apply (step_wf mb), mb_step_inuse; [done|lia|lia]|..];
    unfold mb_has in *; rewrite !has_or_flag; simpl; by rewrite ?Hd, ?Hf.
Qed.

(** Pin, lock and copy: no assertion fails. *)
Lemma pin_and_lock :
  wp (do_ set_inuse (bc_alloc_buffer bc); set_locked (bc_alloc_buffer bc)) s (λ _ s',
    mb_updated (bc_alloc_buffer bc) mb pinned_locked s s').
Proof.
  pose proof (wf_inuse _ Hwf). wp_step. eapply wp_mono; [by apply set_inuse_spec|]. cbv beta. intros _ s1 Hu1.
  eapply wp_mono.
  { eapply set_locked_total; [by eapply upd_this| |done|].
    - unfold is_inuse, mb_is_inuse. apply Z.ltb_lt. simpl. lia.
    - rewrite (upd_st _ _ _ _ _ Hu1). simpl. pose proof (locked_room _ _ _ _ Hinv Hmb Hfree Hal).
      change (mb_has Locked (mb_set_inuse (mb_inuse mb + 1) mb)) with (mb_has Locked mb). lia. }
  cbv beta. intros _ s2 Hu2. by eapply mb_updated_trans.
Qed.
End commit_one.

(** The pending chunks can be taken: nobody has them locked or truncated. *)
Definition committable (s : cache) (m : cmap) : Prop :=
  ∀ k bc mb, (k, bc) ∈ m → membufs s !! bc_alloc_buffer bc = Some mb → mb_has CommitPending mb = true →
    is_locked mb = false ∧ is_truncated mb = false.

Lemma commit_loop_spec R : ∀ next A s e,
  inv s → chunkmap s = A ++ R → st s bytes_allocated ≤ AZNFSC_MAX_FILE_SIZE → committable s R →
  (next = AZNFSC_BAD_OFFSET ∧ (∃ a, covers (qualifying pending_mb s R) a e) ∨ covers (qualifying pending_mb s R) next e) →
  wp (commit_loop next R.*1) s (λ v s', v = qualifying pending_mb s R ∧ took taken_locked v s s').
Proof.
  induction R as [|[k bc] R IH]; intros next A s e Hinv Hm Hal Hcan Hcov; cbn [commit_loop fmap list_fmap fst].
  { wp_step. split; [done|by apply took_nil]. }
  destruct (walk_facts _ _ _ _ _ Hinv Hm) as (Hin & Hm' & Hne & mb & Hmb & Hlk & Hwf).
  destruct (inv_chunk_bounds _ _ Hinv _ _ Hin) as (_ & _ & _ & Hend).
  wp_step. apply (chunk_at_spec _ _ Hinv k bc); [done|]. cbv zeta. wp_step. eapply get_membuf_wp; [exact Hmb|].
  wp_step. apply is_commit_pending_wp; [done|].
  assert (chunk_is pending_mb s bc = mb_has CommitPending mb) as Hc by (unfold chunk_is; by rewrite Hmb).
  rewrite qualifying_cons, Hc in *. destruct (mb_has CommitPending mb) eqn:Hcp.
  2: { eapply IH; try done. intros k' c' mb' Hin'. apply (Hcan k'). by right. }
  destruct (Hcan k bc mb) as [Hfree Htr]; [by left|done|done|]. rewrite Htr. wp_asserts done.
  pose proof (pinned_locked_step mb Hwf Hcp Hfree) as Hstep. destruct (pending_flags mb Hwf Hcp Hfree) as (Hd & Hf & Hup).
  apply wp_bind_assoc. wp_step. eapply wp_mono; [by apply (pin_and_lock s Hinv bc mb Hmb Hwf Hfree Hal)|].
  cbv beta. intros _ s1 Hu1. wp_step. eapply get_membuf_wp; [by eapply upd_this|].
  assert (mb_wf (pinned_locked mb)) as Hwf1 by apply Hstep. destruct Hlk as [Ho Hl Hb].
  assert (∀ f, f ≠ Locked → mb_has f (pinned_locked mb) = mb_has f mb) as Hflag.
  { intros f Hf'. unfold mb_has. simpl. rewrite has_or_flag. by destruct f. }
  wp_step. apply is_dirty_wp; [done|]. rewrite (Hflag Dirty), Hd by done. wp_asserts done.
  unfold is_uptodate. rewrite (Hflag Uptodate), Hup by done. wp_asserts done.
  wp_step. apply is_commit_pending_wp; [done|]. rewrite (Hflag CommitPending), Hcp by done. wp_asserts ltac:(first [done|cmp]).
  change (mb_offset (pinned_locked mb)) with (mb_offset mb). change (mb_length (pinned_locked mb)) with (mb_length mb).
  assert ((next =? AZNFSC_BAD_OFFSET) || (mb_offset mb =? next) = true) as Hnext.
  { destruct Hcov as [[-> _]|[<- _]]; [by rewrite Z.eqb_refl|]. rewrite Ho, Z.eqb_refl. apply orb_true_r. }
  rewrite Hnext. rewrite <- Ho, <- Hl. fold (bc_end bc). rewrite (proj2 (Z.eqb_neq _ _)) by (by apply bad_offset_out).
  wp_asserts done. wp_step. eapply wp_mono.
  { eapply bytes_chunk_copy_raw; [by eapply upd_this|done|by eapply linked_step| |..].
    - simpl. pose proof (inv_refs _ _ Hinv _ _ Hmb). lia.
    - rewrite (upd_name _ _ _ _ _ Hu1). apply (inv_mem _ _ Hinv).
    - rewrite (upd_fd _ _ _ _ _ Hu1). apply (inv_mem _ _ Hinv).
    - by apply (inv_plain _ _ Hinv k bc Hin). }
  cbv beta. intros c s2 [-> Hu2].
  assert (took taken_locked [bc] s s2) as Ht1.
  { eapply took_one; [done|by eapply mb_updated_trans| |done|done].
    eapply mb_step_trans; [exact Hstep|]. by apply mb_step_use_count. }
  wp_step. eapply wp_mono.
  { apply (IH (bc_end bc) (A ++ [(k, bc)]) s2 e); [apply (tk_inv _ _ _ _ Ht1)|by rewrite (tk_map _ _ _ _ Ht1)|
      by rewrite (tk_alloc _ _ _ _ Ht1)| |].
    - intros k' c' mb' Hin' Hmb'. rewrite (tk_heap _ _ _ _ Ht1), decide_False in Hmb'.
      + apply (Hcan k' c'); [by right|done].
      + simpl. rewrite list_elem_of_singleton. by apply (Hne (k', c')).
    - right. rewrite (qualifying_later _ _ _ _ _ _ Ht1 Hne). destruct Hcov as [[_ (a & _ & _ & ?)]|(_ & _ & ?)]; done. }
  cbv beta. intros v s3 [-> Ht2]. wp_step. rewrite (qualifying_later _ _ _ _ _ _ Ht1 Hne) in *. split; [done|].
  eapply took_cons; [|exact Ht1|exact Ht2]. by apply later_out.
Qed.

(** [get_commit_pending_bcs()], called for unstable writes when the commit
    pending data is contiguous and nobody has it locked, returns every commit
    pending chunk, locked and with a user of its own, and nothing else; no
    assertion fails and [*bytes] is the length of the contiguous range. *)
Theorem get_commit_pending_bcs_exact s a e :
  inv s → st s bytes_allocated ≤ AZNFSC_MAX_FILE_SIZE → committable s (chunkmap s) →
  covers (qualifying pending_mb s (chunkmap s)) a e →
  ∃ s', get_commit_pending_bcs false s = Some ((qualifying pending_mb s (chunkmap s), e - a), s') ∧
    took taken_locked (qualifying pending_mb s (chunkmap s)) s s'.
Proof.
  intros Hinv Hal Hcan Hcov.
  destruct (commit_loop_spec (chunkmap s) AZNFSC_BAD_OFFSET [] s e Hinv eq_refl Hal Hcan) as (v & s' & Hrun & -> & Ht).
  { left. eauto. }
  exists s'. split; [|done]. unfold get_commit_pending_bcs, bind, mget. simpl. rewrite Hrun.
  by rewrite (covers_bytes _ _ _ Hcov).
Qed.
