(* ===== verification/CacheSteps.v ===== *)
(** * The cache as a state machine

    The public operations of a cache and of its membufs as the steps of a
    transition system.  A step is taken by a thread that follows the calling
    discipline ([op_ok]); the operations themselves check everything else.
    Steps of different threads interleave freely: the chunkmap operations are
    atomic (they hold the chunkmap lock) and so are the flag updates.  Every
    reachable state satisfies [inv]. *)
From S2P Require Import Prelude CacheState Membuf MembufSpec ChunkMap FileCache CacheInv MembufInv CacheOps Purge ScanGet CacheGet ScanRelease CacheRelease Truncate CacheSize TruncateSpec CacheTruncate DirtyLists.

Inductive op :=
  | Get (prune_goal : Z → Z → Z) (in_ra_window : Z → Z → bool) (offset len : Z)
  | Getx (prune_goal : Z → Z → Z) (in_ra_window : Z → Z → bool) (offset len : Z)
  | Release (offset len : Z)
  | Clear (shutdown : bool)
  | Invalidate
  | Truncate (flush_locked : bool) (trunc_len : Z) (post : bool)
  | GetDirtyRange (a b : Z)
  | GetDirtyNonflushing (a b : Z)
  | GetFlushingRange (a b : Z)
  | GetContiguousDirty
  | GetCommitPending
  | SetInuse (id : nat)
  | ClearInuse (id : nat)
  | TryLock (id : nat)
  | SetLocked (id : nat)
  | ClearLocked (id : nat)
  | SetUptodate (id : nat)
  | SetDirty (id : nat)
  | ClearDirty (id : nat)
  | SetFlushing (flush_locked : bool) (id : nat)
  | ClearFlushing (id : nat)
  | SetCommitPending (id : nat)
  | ClearCommitPending (id : nat)
  | CopyRef (id : nat)
  | DropRef (id : nat).

Definition ignore {A} (m : MC A) : MC () := do_ m; mret ().

Definition run_op (o : op) : MC () :=
  match o with
  | Get pg ra off len => ignore (get pg ra off len)
  | Getx pg ra off len => ignore (getx pg ra off len)
  | Release off len => ignore (release off len)
  | Clear shutdown => clear shutdown
  | Invalidate => invalidate
  | Truncate fl tl post => ignore (truncate true fl tl post)
  | GetDirtyRange a b => ignore (get_dirty_bc_range a b)
  | GetDirtyNonflushing a b => ignore (get_dirty_nonflushing_bcs_range a b)
  | GetFlushingRange a b => ignore (get_flushing_bc_range a b)
  | GetContiguousDirty => ignore get_contiguous_dirty_bcs
  | GetCommitPending => ignore (get_commit_pending_bcs false)
  | SetInuse id => set_inuse id
  | ClearInuse id => clear_inuse id
  | TryLock id => ignore (try_lock id)
  | SetLocked id => ignore (set_locked id)
  | ClearLocked id => clear_locked id
  | SetUptodate id => set_uptodate id
  | SetDirty id => set_dirty id
  | ClearDirty id => clear_dirty id
  | SetFlushing fl id => set_flushing fl id
  | ClearFlushing id => clear_flushing id
  | SetCommitPending id => set_commit_pending id
  | ClearCommitPending id => clear_commit_pending id
  | CopyRef id => shared_ptr_copy id
  | DropRef id => shared_ptr_reset id
  end.

(** A condition on the live membuf [id]. *)
Definition on_membuf (s : cache) (id : nat) (b : membuf → bool) : Prop :=
  from_option b false (membufs s !! id) = true.

(** References to [id] the chunkmap and the membuf's holders need. *)
Definition needed_refs (s : cache) (id : nat) (mb : membuf) : Z :=
  Z.b2z (in_map id (chunkmap s)) + Z.b2z (held mb).

(** What the calling code must ensure, beyond the assertions of the operation:
    valid ranges; a use count only with a reference of one's own; clearing dirty
    only after a flush of dirty data and not flushing twice; the flusher's use
    count until the flush has ended; a reference is dropped only by its owner,
    and the last one not with data still to be written, which also goes for the
    references of the chunkmap when the file is closed. *)
Definition op_ok (o : op) (s : cache) : Prop :=
  match o with
  | Get _ _ off len | Getx _ _ off len =>
      (0 <=? off) && (0 <? len) && (len <=? AZNFSC_MAX_CHUNK_SIZE) && (off + len <=? AZNFSC_MAX_FILE_SIZE) = true
  | Release off len => (0 <=? off) && (0 <? len) && (off + len <=? AZNFSC_MAX_FILE_SIZE) = true
  | Clear shutdown => shutdown = true → last_safe s
  | Truncate fl tl post => truncatable s tl ∧ (post = true → fl = true)
  | GetDirtyRange a b | GetDirtyNonflushing a b | GetFlushingRange a b => (a <? b) = true
  | GetCommitPending => st s bytes_allocated ≤ AZNFSC_MAX_FILE_SIZE ∧ committable s (chunkmap s) ∧
      ∃ a e, covers (qualifying pending_mb s (chunkmap s)) a e
  | CopyRef id => on_membuf s id (λ _, true)
  | SetInuse id => on_membuf s id (λ mb, Z.b2z (in_map id (chunkmap s)) + 1 <=? mb_use_count mb)
  | ClearInuse id => on_membuf s id (λ mb, negb (mb_has Flushing mb) || (1 <? mb_inuse mb))
  | ClearDirty id => on_membuf s id (λ mb, mb_has Dirty mb)
  | SetFlushing _ id => on_membuf s id (λ mb, negb (mb_has Flushing mb))
  | DropRef id => on_membuf s id (λ mb, (needed_refs s id mb + 1 <=? mb_use_count mb) &&
      (negb (mb_use_count mb =? 1) ||
       negb (mb_has CommitPending mb) && (negb (mb_has Dirty mb) || mb_has Truncated mb)))
  | _ => True
  end.

Inductive step (s s' : cache) : Prop :=
  | step_op o : op_ok o s → run_op o s = Some ((), s') → step s s'.

(** Reachable from a fresh memory-backed cache. *)
Inductive reachable : cache → Prop :=
  | reach_new g : (∀ k, 0 ≤ g k) → reachable (bytes_chunk_cache_new g false)
  | reach_step s s' : reachable s → step s s' → reachable s'.

Lemma on_membuf_elim s id b : on_membuf s id b → ∃ mb, membufs s !! id = Some mb ∧ b mb = true.
Proof. unfold on_membuf. destruct (membufs s !! id) as [mb|]; [eauto|done]. Qed.

Lemma ignore_wlp {A} (m : MC A) s (Q : cache → Prop) : wlp m s (λ _ s', Q s') → wlp (ignore m) s (λ _ s', Q s').
Proof. intros Hm. unfold ignore. wlp_step. eapply wlp_mono; [exact Hm|]. cbv beta. intros. by wlp_step. Qed.

Lemma range_query_inv s one P a b :
  decides one P → inv s → a < b → wlp (range_query one a b) s (λ _ s', inv s').
Proof.
  intros Hone Hinv Hab. eapply wp_wlp, wp_mono; [by eapply range_query_spec|]. cbv beta. intros v s' [_ Ht]. apply Ht.
Qed.

Lemma lookup_step_inv {A} (m : MC A) s (Q : A → cache → Prop) :
  wp m s Q → (∀ a s', Q a s' → inv s') → wlp m s (λ _ s', inv s').
Proof. intros Hm HQ. by eapply wp_wlp, wp_mono. Qed.

(** Reference counts of shared pointers. *)
Lemma copy_ref_inv s id : inv s → on_membuf s id (λ _, true) → wlp (shared_ptr_copy id) s (λ _ s', inv s').
Proof.
  intros Hinv (mb & Hid & _)%on_membuf_elim. destruct (inv_heap _ _ Hinv _ _ Hid) as [Hwf _].
  eapply wp_wlp, wp_mono; [by apply shared_ptr_copy_spec|]. cbv beta. intros _ s' Hu.
  eapply inv_update; [done|exact Hu|by apply mb_step_use_count|]. pose proof (inv_refs _ _ Hinv _ _ Hid).
  change (held_out ∅ id (mb_set_use_count _ mb)) with (held_out ∅ id mb). simpl. lia.
Qed.

Lemma drop_ref_inv s id : inv s → op_ok (DropRef id) s → wlp (shared_ptr_reset id) s (λ _ s', inv s').
Proof.
  intros Hinv (mb & Hid & Hb)%on_membuf_elim. apply andb_true_iff in Hb as [Hr%Z.leb_le Hlast].
  eapply lookup_step_inv; [apply (shared_ptr_reset_spec ∅ s id mb)|by intros _ s' [? _]]; try done.
  - intros Huc. rewrite Huc in Hlast. simpl in Hlast.
    apply andb_true_iff in Hlast as [Hcp%negb_true_iff Hd]. split; [done|]. intros Hdi. by rewrite Hdi in Hd.
Qed.

(** Every step preserves the invariant. *)
Lemma step_inv s s' : step s s' → inv s → inv s'.
Proof.
  intros [o Hok Hrun] Hinv. revert Hrun. generalize (). revert s'. intros s' u Hrun.
  enough (wlp (run_op o) s (λ _ s', inv s')) as Hw by (by eapply Hw).
  clear u s' Hrun. destruct o; simpl in Hok |- *; try apply ignore_wlp.
  - bools. eapply lookup_step_inv; [by apply get_spec|]. intros v s' Hl. by eapply up_inv.
  - bools. eapply lookup_step_inv; [by apply getx_spec|]. intros v s' [Hl _]. by eapply up_inv.
  - bools. eapply lookup_step_inv; [by apply release_spec|]. cbv beta. by intros v s' (? & ? & _ & _ & _ & _ & ?).
  - destruct shutdown; [by apply clear_all_inv; [|apply Hok]|].
    eapply lookup_step_inv; [by apply clear_nolock_spec|]. cbv beta. intros _ s' [Hp _]. apply (pu_inv _ _ Hp).
  - unfold invalidate. apply wlp_modify. by apply inv_set_invalidate.
  - destruct Hok as [Ht Hpost]. eapply lookup_step_inv; [by apply truncate_whole|]. cbv beta.
    intros r s' (? & ? & _ & _ & _ & Htr & _). apply (td_inv _ _ _ _ _ Htr).
  - bools. eapply range_query_inv; [apply select_dirty_decides|done|done].
  - bools. unfold get_dirty_nonflushing_bcs_range. wlp_step. eapply wlp_mono.
    { eapply range_query_inv; [apply select_flushable_decides|done|done]. }
    cbv beta. intros v s' Hi. by wlp_step.
  - bools. eapply range_query_inv; [apply select_flushing_decides|done|done].
  - unfold get_contiguous_dirty_bcs. do 3 wlp_step.
    eapply wlp_mono; [by apply wp_wlp, (contiguous_loop_spec _ _ [])|]. cbv beta. intros v s' [Ht _]. wlp_step. apply Ht.
  - destruct Hok as (Hal & Hcan & a & e & Hcov). unfold get_commit_pending_bcs. do 5 wlp_step.
    eapply wlp_mono; [apply wp_wlp, (commit_loop_spec _ _ [] s e); try done; left; eauto|].
    cbv beta. intros v s' [_ Ht]. wlp_step. apply Ht.
  - apply on_membuf_elim in Hok as (mb & Hid & Hr%Z.leb_le).
    eapply lookup_step_inv; [apply (set_inuse_inv ∅ s Hinv id mb Hid); by left|]. by intros _ s' [? _].
  - apply on_membuf_elim in Hok as (mb & Hid & Hf). eapply (clear_inuse_inv ∅ s Hinv id mb Hid).
    intros E. rewrite E in Hf. simpl in Hf. by apply Z.ltb_lt.
  - by apply try_lock_inv.
  - by apply set_locked_inv.
  - by apply clear_locked_inv.
  - by apply set_uptodate_inv.
  - by apply set_dirty_inv.
  - apply on_membuf_elim in Hok as (mb & Hid & Hd). by eapply clear_dirty_inv.
  - apply on_membuf_elim in Hok as (mb & Hid & Hd%negb_true_iff). by eapply set_flushing_inv.
  - by apply clear_flushing_inv.
  - by apply set_commit_pending_inv.
  - by apply clear_commit_pending_inv.
  - by apply copy_ref_inv.
  - by apply drop_ref_inv.
Qed.

Lemma reachable_invariant s : reachable s → inv s.
Proof.
  induction 1 as [g Hg|s s' Hr IH Hs]; [by apply inv_new|by eapply step_inv].
Qed.

(** ** Properties of reachable states *)


(** ** No data is lost *)

(** Data the server does not have for good yet. *)
Definition unsaved (mb : membuf) : bool := mb_has Dirty mb || mb_has CommitPending mb.

(** Unsaved chunks of [s] are still cached in [s'], and still unsaved. *)
Definition keeps_unsaved (s s' : cache) : Prop :=
  ∀ k bc mb, (k, bc) ∈ chunkmap s → membufs s !! bc_alloc_buffer bc = Some mb → unsaved mb = true →
  (k, bc) ∈ chunkmap s' ∧ ∃ mb', membufs s' !! bc_alloc_buffer bc = Some mb' ∧ unsaved mb' = true ∧
    mb_offset mb' = mb_offset mb ∧ mb_length mb' = mb_length mb ∧ mb_initial_offset mb' = mb_initial_offset mb.

(** The operations that end the protection of unsaved data: the flush and the
    commit completed, the data is cut off by a truncation, or the cache is cleared
    because the file is closed, which frees all chunks whatever they hold. *)
Definition may_discard (o : op) : bool :=
  match o with ClearDirty _ | ClearCommitPending _ | Truncate _ _ _ | Clear true => true | _ => false end.

Lemma keeps_refl s : keeps_unsaved s s.
Proof. intros k bc mb Hin Hmb Hu. split; [done|]. exists mb. by split_and!. Qed.

Lemma keeps_updated id mb mb' s s' :
  mb_updated id mb mb' s s' → (unsaved mb = true → unsaved mb' = true) →
  mb_offset mb' = mb_offset mb → mb_length mb' = mb_length mb → mb_initial_offset mb' = mb_initial_offset mb →
  keeps_unsaved s s'.
Proof.
  intros Hu Hun Ho Hl Hi k bc m Hin Hm Hum. rewrite (upd_chunkmap _ _ _ _ _ Hu). split; [done|].
  rewrite (upd_heap _ _ _ _ _ Hu). destruct (decide (bc_alloc_buffer bc = id)) as [Heq|Hne]; [rewrite Heq in *|].
  - pose proof (upd_lookup _ _ _ _ _ Hu). simplify_eq. exists mb'. rewrite lookup_insert_eq. split_and!; [done|by apply Hun|congruence..].
  - exists m. rewrite lookup_insert_ne by done. by split_and!.
Qed.

Lemma keeps_took g v s s' :
  took g v s s' → (∀ mb, unsaved (g mb) = unsaved mb ∧ mb_offset (g mb) = mb_offset mb ∧
    mb_length (g mb) = mb_length mb ∧ mb_initial_offset (g mb) = mb_initial_offset mb) → keeps_unsaved s s'.
Proof.
  intros Ht Hg k bc mb Hin Hmb Hu. rewrite (tk_map _ _ _ _ Ht), (tk_heap _ _ _ _ Ht). split; [done|].
  rewrite Hmb. destruct (Hg mb) as (Hug & Ho & Hl & Hi). case_decide; eexists; (split; [done|]).
  - rewrite Hug. by split_and!.
  - by split_and!.
Qed.

Lemma unsaved_unsafe mb : unsaved mb = true → is_inuse mb || mb_has Dirty mb || mb_has CommitPending mb = true.
Proof. unfold unsaved. by destruct (mb_has Dirty mb), (mb_has CommitPending mb), (is_inuse mb). Qed.

Lemma unsaved_not_purgeable s k c mb :
  membufs s !! bc_alloc_buffer c = Some mb → unsaved mb = true → purgeable s (k, c) = false.
Proof.
  intros Hmb Hu. apply not_true_iff_false. rewrite (purgeable_spec _ _ _ _ Hmb). intros (_ & Hd & Hc & _).
  unfold unsaved in Hu. by rewrite Hd, Hc in Hu.
Qed.

Lemma keeps_purged s s' : inv s → purged s s' → keeps_unsaved s s'.
Proof.
  intros Hinv Hp k c mb Hin Hmb Hu.
  assert ((k, c) ∈ chunkmap s') as Hin'.
  { destruct (decide ((k, c) ∈ chunkmap s')) as [?|Hn]; [done|].
    pose proof (pu_drop _ _ Hp _ Hin Hn) as Hd. by rewrite (unsaved_not_purgeable s k c mb) in Hd. }
  split; [done|]. exists mb. rewrite (purged_chunk s s' k c Hp Hin (inv_ids _ _ Hinv) Hin'). by split_and!.
Qed.

(** Dropping a reference to a cached membuf is never dropping the last one. *)
Lemma keeps_drop_ref s id s' :
  inv s → op_ok (DropRef id) s → shared_ptr_reset id s = Some ((), s') → keeps_unsaved s s'.
Proof.
  intros Hinv (mb & Hid & Hb)%on_membuf_elim Hrun k bc m Hin Hm Hu. apply andb_true_iff in Hb as [Hr%Z.leb_le Hlast].
  assert (wp (shared_ptr_reset id) s (λ _ s', inv s' ∧ ref_dropped id mb s s')) as Hspec.
  { apply (shared_ptr_reset_spec ∅ s id mb); try done. intros Huc. rewrite Huc in Hlast. simpl in Hlast.
    apply andb_true_iff in Hlast as [Hcp%negb_true_iff Hd]. split; [done|]. intros Hdi. by rewrite Hdi in Hd. }
  destruct (wp_run _ _ _ _ _ Hrun Hspec) as [_ [Hother Hthis Hcm _ _]]. rewrite Hcm. split; [done|].
  destruct (decide (bc_alloc_buffer bc = id)) as [Heq|Hne].
  - rewrite Heq in *. simplify_eq. rewrite Hthis.
    assert (in_map (bc_alloc_buffer bc) (chunkmap s) = true) as Hmap by (apply bool_decide_eq_true, elem_of_ids; eauto).
    unfold needed_refs in Hr. rewrite Hmap in Hr. simpl in Hr.
    rewrite (proj2 (Z.eqb_neq _ _)) by (destruct (held mb); simpl in Hr; lia). eexists. by split.
  - rewrite Hother by done. exists m. by split_and!.
Qed.

(** A flag update that leaves the dirty and commit-pending flags alone or sets them. *)
Ltac keeps_flag Hu :=
  eapply keeps_updated; [exact Hu|unfold unsaved, mb_has; simpl; rewrite ?has_or_flag, ?has_clear_flag; simpl; try done|
    done|done|done].

Lemma keeps_unsaved_step o s :
  inv s → op_ok o s → may_discard o = false → wlp (run_op o) s (λ _ s', keeps_unsaved s s').
Proof.
  intros Hinv Hok Hd. destruct o; simpl in Hok, Hd |- *; try done; try apply ignore_wlp.
  - bools. eapply wp_wlp, wp_mono; [by apply get_spec|]. intros v s' Hl k c mb Hin Hmb Hu.
    destruct (up_busy s Hinv _ _ _ _ Hl k c mb Hin Hmb (unsaved_not_purgeable _ _ _ _ Hmb Hu))
      as (? & mb' & ? & (u & i & ? & ? & ->)). split; [done|]. eexists. by split.
  - bools. eapply wp_wlp, wp_mono; [by apply getx_spec|]. intros v s' [Hl _] k c mb Hin Hmb Hu.
    destruct (up_busy s Hinv _ _ _ _ Hl k c mb Hin Hmb (unsaved_not_purgeable _ _ _ _ Hmb Hu))
      as (? & mb' & ? & (u & i & ? & ? & ->)). split; [done|]. eexists. by split.
  - bools. intros n s' Hrun k c mb Hin Hmb Hu.
    destruct (wp_run _ _ _ _ _ Hrun (release_keeps s offset len k c mb Hinv ltac:(by split) Hin Hmb (unsaved_unsafe _ Hu)))
      as [? ?]. split; [done|]. exists mb. by split_and!.
  - destruct shutdown; [done|]. eapply wp_wlp, wp_mono; [by apply clear_nolock_spec|]. intros _ s' [Hp _]. by apply keeps_purged.
  - unfold invalidate. apply wlp_modify. exact (keeps_refl s).
  - bools. eapply wp_wlp, wp_mono; [eapply range_query_spec; [apply select_dirty_decides|done|done]|].
    intros v s' [_ Ht]. by eapply keeps_took.
  - bools. unfold get_dirty_nonflushing_bcs_range. wlp_step. eapply wlp_mono.
    { eapply wp_wlp, range_query_spec; [apply select_flushable_decides|done|done]. }
    cbv beta. intros v s' [_ Ht]. wlp_step. by eapply keeps_took.
  - bools. eapply wp_wlp, wp_mono; [eapply range_query_spec; [apply select_flushing_decides|done|done]|].
    intros v s' [_ Ht]. by eapply keeps_took.
  - unfold get_contiguous_dirty_bcs. do 3 wlp_step.
    eapply wlp_mono; [by apply wp_wlp, (contiguous_loop_spec _ _ [])|]. cbv beta. intros v s' [Ht _]. wlp_step. by eapply keeps_took.
  - destruct Hok as (Hal & Hcan & a & e & Hcov). unfold get_commit_pending_bcs. do 5 wlp_step.
    eapply wlp_mono; [apply wp_wlp, (commit_loop_spec _ _ [] s e); try done; left; eauto|].
    cbv beta. intros v s' [_ Ht]. wlp_step. eapply keeps_took; [exact Ht|]. intros mb.
    unfold unsaved, mb_has. simpl. by rewrite !has_or_flag.
  - apply on_membuf_elim in Hok as (mb & Hid & _). eapply wp_wlp, wp_mono; [by apply set_inuse_spec|]. intros [] s' Hu. keeps_flag Hu.
  - eapply wlp_mono; [apply clear_inuse_spec|]. intros [] s' (mb & _ & Hu). keeps_flag Hu.
  - eapply wlp_mono; [apply try_lock_spec|]. intros b s' (mb & _ & _ & Hu). keeps_flag Hu.
  - eapply wlp_mono; [apply set_locked_spec|]. intros b s' (mb & _ & _ & Hu). keeps_flag Hu.
  - eapply wlp_mono; [apply clear_locked_spec|]. intros b s' (mb & _ & _ & _ & Hu). keeps_flag Hu.
  - eapply wlp_mono; [apply set_uptodate_spec|]. intros b s' (mb & _ & _ & _ & Hu).
    assert (keeps_unsaved (c_set_cache_size (cache_size s') s) s') as Hk by keeps_flag Hu. exact Hk.
  - eapply wlp_mono; [apply set_dirty_spec|]. intros b s' (mb & _ & _ & _ & _ & _ & Hu). keeps_flag Hu.
  - apply on_membuf_elim in Hok as (mb & Hid & Hf%negb_true_iff).
    eapply wlp_mono; [by apply set_flushing_spec|]. intros b s' (_ & _ & _ & _ & _ & _ & Hu). keeps_flag Hu.
  - eapply wlp_mono; [apply clear_flushing_spec|]. intros b s' (mb & _ & _ & _ & _ & Hu). keeps_flag Hu.
  - eapply wlp_mono; [apply set_commit_pending_spec|]. intros b s' (mb & _ & _ & _ & _ & _ & _ & Hu). keeps_flag Hu.
    intros _. apply orb_true_r.
  - apply on_membuf_elim in Hok as (mb & Hid & _). eapply wp_wlp, wp_mono; [by apply shared_ptr_copy_spec|].
    intros [] s' Hu. keeps_flag Hu.
  - intros [] s' Hrun. by eapply keeps_drop_ref.
Qed.

(** C11: unsaved data is not lost while the file is in use: whatever operation a caller performs
    that is not the completion of a flush or of a commit, a truncation or the clearing of
    the cache of a file that is closed ([clear(true)], which frees dirty data too), every
    chunk with dirty or not yet committed data stays in the cache, at the same place and
    still marked so. *)
Theorem unsaved_data_is_kept s s' o :
  reachable s → op_ok o s → may_discard o = false → run_op o s = Some ((), s') → keeps_unsaved s s'.
Proof. intros Hinv%reachable_invariant Hok Hd Hrun. by eapply keeps_unsaved_step. Qed.
