(* ===== verification/CacheExamples.v ===== *)
(** * Reachable example states

    Concrete runs of the state machine, and the theorems on the list queries and
    on reachable states applied to them; shutting a cache down. *)
From S2P Require Import Prelude CacheState Membuf MembufSpec ChunkMap FileCache CacheInv MembufInv CacheOps ScanGet CacheGet CacheRelease DirtyLists CacheSteps.

Fixpoint run_all (l : list op) (s : cache) : option cache :=
  match l with
  | [] => Some s
  | o :: l' => match run_op o s with Some (_, s') => run_all l' s' | None => None end
  end.

Fixpoint all_ok (l : list op) (s : cache) : Prop :=
  match l with
  | [] => True
  | o :: l' => op_ok o s ∧ match run_op o s with Some (_, s') => all_ok l' s' | None => True end
  end.

Lemma run_reachable l : ∀ s s', reachable s → all_ok l s → run_all l s = Some s' → reachable s'.
Proof.
  induction l as [|o l IH]; intros s s' Hr Hok Hrun; simpl in *; [congruence|].
  destruct Hok as [Hok Hrest]. destruct (run_op o s) as [[[] s1]|] eqn:E; [|done].
  eapply IH; [|exact Hrest|exact Hrun]. eapply reach_step; [exact Hr|]. by econstructor.
Qed.

(** A writer fills the chunk of membuf [id] and lets go of it. *)
Definition write_ops (id : nat) : list op :=
  [SetLocked id; SetUptodate id; SetDirty id; ClearLocked id; ClearInuse id; DropRef id].

(** A flusher that holds membuf [id] writes it unstably and leaves it to commit. *)
Definition flush_ops (id : nat) : list op :=
  [SetLocked id; SetFlushing true id; ClearDirty id; ClearFlushing id; SetCommitPending id;
   ClearLocked id; ClearInuse id; DropRef id].

(** [0, 10) and [10, 15) were written, [20, 30) was read. *)
Definition written_ops : list op :=
  [Get no_prune no_window 0 10] ++ write_ops 0 ++ [Get no_prune no_window 10 5] ++ write_ops 1 ++
  [Get no_prune no_window 20 10].

(** ... and then [0, 15) was flushed. *)
Definition flushed_ops : list op :=
  written_ops ++ [GetContiguousDirty] ++ flush_ops 0 ++ flush_ops 1.

Definition state_after (l : list op) : cache := default empty_cache (run_all l empty_cache).

Definition written : cache := state_after written_ops.
Definition flushed : cache := state_after flushed_ops.

(** ... and let go of by everybody. *)
Definition let_go : list op := [ClearInuse 2; DropRef 2].

(** [clear(true)] of a file that is closed with dirty data: the comment there says that the data is
    freed, but the destructor of the membuf asserts that it is not dirty. *)
Example shutdown_with_dirty_data_aborts : FileCache.clear true (state_after (written_ops ++ let_go)) = None.
Proof. by vm_compute. Qed.

(** With data that waits for a commit it runs, but the 15 bytes stay in the count. *)
Example shutdown_keeps_commit_pending_count :
  match FileCache.clear true (state_after (flushed_ops ++ let_go)) with
  | Some (_, s) => Some (length (chunkmap s), st s bytes_allocated, st s bytes_commit_pending)
  | None => None
  end = Some (0%nat, 0, 15).
Proof. by vm_compute. Qed.

Lemma state_after_reachable l : all_ok l empty_cache → reachable (state_after l).
Proof.
  intros Hok. unfold state_after. destruct (run_all l empty_cache) as [s|] eqn:E; [|by apply reach_new].
  eapply run_reachable; [by apply (reach_new no_stats)|exact Hok|exact E].
Qed.

Lemma written_reachable : reachable written.
Proof. apply state_after_reachable. vm_compute. repeat split. Qed.

Lemma flushed_reachable : reachable flushed.
Proof. apply state_after_reachable. vm_compute. repeat split. Qed.

Lemma written_map : chunkmap written =
  [(0, Chunk 0 0 10 0 0 0 true false); (10, Chunk 1 10 5 0 0 0 true false); (20, Chunk 2 20 10 0 0 0 true false)].
Proof. vm_compute. reflexivity. Qed.

Lemma flushed_map : chunkmap flushed =
  [(0, Chunk 0 0 10 0 0 0 true false); (10, Chunk 1 10 5 0 0 0 true false); (20, Chunk 2 20 10 0 0 0 true false)].
Proof. vm_compute. reflexivity. Qed.

Lemma written_dirty : qualifying flushable_mb written (chunkmap written) =
  [Chunk 0 0 10 0 0 0 true false; Chunk 1 10 5 0 0 0 true false].
Proof. vm_compute. reflexivity. Qed.

Lemma flushed_pending : qualifying pending_mb flushed (chunkmap flushed) =
  [Chunk 0 0 10 0 0 0 true false; Chunk 1 10 5 0 0 0 true false].
Proof. vm_compute. reflexivity. Qed.

#[local] Opaque written flushed.

Lemma range_queries_exact_witness :
  ∃ s', get_dirty_nonflushing_bcs_range 5 100 written = Some (([Chunk 1 10 5 0 0 0 true false], 5), s') ∧ inv s'.
Proof.
  destruct (range_queries_exact written 5 100 (reachable_invariant _ written_reachable) ltac:(lia))
    as (_ & (s' & Hrun & Ht) & _).
  assert (selected flushable_mb written 5 100 = [Chunk 1 10 5 0 0 0 true false]) as Hsel by (vm_compute; reflexivity).
  rewrite Hsel in *. exists s'. split; [exact Hrun|apply Ht].
Defined.

Lemma get_contiguous_dirty_bcs_witness :
  ∃ v w s', get_contiguous_dirty_bcs written = Some ((v, bc_bytes v), s') ∧
    [Chunk 0 0 10 0 0 0 true false; Chunk 1 10 5 0 0 0 true false] = v ++ w.
Proof.
  destruct (get_contiguous_dirty_bcs_spec written (reachable_invariant _ written_reachable))
    as (v & w & s' & Hrun & _ & Hq & _ & _).
  rewrite written_dirty in Hq. exists v, w, s'. split; [exact Hrun|exact Hq].
Defined.

Lemma get_commit_pending_bcs_witness :
  ∃ s', get_commit_pending_bcs false flushed =
    Some (([Chunk 0 0 10 0 0 0 true false; Chunk 1 10 5 0 0 0 true false], 15 - 0), s').
Proof.
  destruct (get_commit_pending_bcs_exact flushed 0 15 (reachable_invariant _ flushed_reachable)) as (s' & Hrun & _).
  - vm_compute. discriminate.
  - intros k bc mb Hin Hmb _. rewrite flushed_map in Hin.
    repeat (apply elem_of_cons in Hin as [Hin|Hin]; [injection Hin as -> ->; vm_compute in Hmb; injection Hmb as <-; split; reflexivity|]).
    apply elem_of_nil in Hin. destruct Hin.
  - rewrite flushed_pending. repeat split.
  - rewrite flushed_pending in Hrun. exists s'. exact Hrun.
Defined.


Lemma unsaved_data_is_kept_witness :
  ∃ s', run_op (Release 0 100) written = Some ((), s') ∧ (0, Chunk 0 0 10 0 0 0 true false) ∈ chunkmap s'.
Proof.
  destruct (release_spec written 0 100 (reachable_invariant _ written_reachable)) as (n & s' & Hrun & _); [split; vm_compute; done|].
  assert (run_op (Release 0 100) written = Some ((), s')) as E by (simpl; unfold ignore, bind; rewrite Hrun; reflexivity).
  exists s'. split; [exact E|].
  destruct (unsaved_data_is_kept written s' (Release 0 100) written_reachable eq_refl eq_refl E 0
    (Chunk 0 0 10 0 0 0 true false) (Membuf 0 10 0 10 10 (-1) 9 0 1)) as [Hin _].
  - rewrite written_map. left.
  - vm_compute. reflexivity.
  - reflexivity.
  - exact Hin.
Defined.
