(* ===== verification/Fcsm.v ===== *)
(** * The flush-commit state machine (fcsm)

    [class fcsm] ([turbonfs/src/fcsm.cpp], [turbonfs/inc/fcsm.h]) together with
    the parts of [nfs_inode] it drives: [sync_membufs()], [commit_membufs()],
    [switch_to_stable_write()] and [check_stable_write_required()]
    ([turbonfs/src/nfs_inode.cpp]), and the completion of the writes and commits
    they issue ([turbonfs/src/rpc_task.cpp]).

    - The state machine's members are the fields of [fcsm]; the inode flags it
      reads and writes are the fields of [inode].  [is_flushing] is the flush lock.
    - The file cache is seen as the state machine sees it: the ranges
      (offset, length) of the chunks that are dirty and not yet flushing
      ([flushable]), the ones under write ([inflight]) and the ones waiting for a
      commit ([pending]), each in file order.
    - A write task or a [done] flag is a number; [replied] and [signalled] record
      the tasks answered with [reply_write()] and the flags set to [true].
    - Sequence numbers count bytes; they are [Z], the 64-bit counters of the
      source wrap only after 16 EiB were written through one open file.

    The callers hold the flush lock where the source requires it; [flush_lock()]
    of a lock that is held is the caller waiting, so the operation does not run. *)
From S2P Require Import Prelude.

Abbreviation ext := (Z * Z)%type.

(** As the [off_t] it is compared with. *)
Definition AZNFSC_BAD_OFFSET : Z := i64 (2 ^ 64 - 1).

(** ** State *)
Record fctgt := Fctgt {
  flush_seq : Z;
  commit_seq : Z;
  task : option nat;
  done : option nat;
  commit_full : bool;
}.

Record fcsm := FCSM {
  ftgtq : list fctgt;
  ctgtq : list fctgt;
  flushed_seq_num : Z;
  flushing_seq_num : Z;
  committed_seq_num : Z;
  committing_seq_num : Z;
  in_fc_callback : Z;
  running : bool;
}.

Record inode := Inode {
  is_flushing : bool;
  stable_write : bool;
  commit_in_progress : bool;
  write_error : Z;
  putblock_filesize : Z;
}.

Record data := Data { flushable : list ext; inflight : list ext; pending : list ext }.
Record answers := Answers { replied : list nat; signalled : list nat }.
Record sys := Sys { fc : fcsm; ino : inode; dat : data; ans : answers }.

Abbreviation MF := (M sys).

Definition on_fc (f : fcsm → fcsm) (s : sys) : sys := Sys (f (fc s)) (ino s) (dat s) (ans s).
Definition on_ino (f : inode → inode) (s : sys) : sys := Sys (fc s) (f (ino s)) (dat s) (ans s).
Definition on_dat (f : data → data) (s : sys) : sys := Sys (fc s) (ino s) (f (dat s)) (ans s).
Definition on_ans (f : answers → answers) (s : sys) : sys := Sys (fc s) (ino s) (dat s) (f (ans s)).

Definition set_ftgtq (q : list fctgt) (x : fcsm) : fcsm :=
  FCSM q (ctgtq x) (flushed_seq_num x) (flushing_seq_num x) (committed_seq_num x) (committing_seq_num x) (in_fc_callback x) (running x).
Definition set_ctgtq (q : list fctgt) (x : fcsm) : fcsm :=
  FCSM (ftgtq x) q (flushed_seq_num x) (flushing_seq_num x) (committed_seq_num x) (committing_seq_num x) (in_fc_callback x) (running x).
Definition set_seqs (fd fg cd cg : Z) (x : fcsm) : fcsm :=
  FCSM (ftgtq x) (ctgtq x) fd fg cd cg (in_fc_callback x) (running x).
Definition set_cb (n : Z) (x : fcsm) : fcsm :=
  FCSM (ftgtq x) (ctgtq x) (flushed_seq_num x) (flushing_seq_num x) (committed_seq_num x) (committing_seq_num x) n (running x).
Definition set_running (b : bool) (x : fcsm) : fcsm :=
  FCSM (ftgtq x) (ctgtq x) (flushed_seq_num x) (flushing_seq_num x) (committed_seq_num x) (committing_seq_num x) (in_fc_callback x) b.

Definition set_lock (b : bool) (x : inode) : inode :=
  Inode b (stable_write x) (commit_in_progress x) (write_error x) (putblock_filesize x).
Definition set_stable (x : inode) : inode :=
  Inode (is_flushing x) true (commit_in_progress x) (write_error x) AZNFSC_BAD_OFFSET.
Definition set_commit (b : bool) (x : inode) : inode :=
  Inode (is_flushing x) (stable_write x) b (write_error x) (putblock_filesize x).
Definition set_putblock (n : Z) (x : inode) : inode :=
  Inode (is_flushing x) (stable_write x) (commit_in_progress x) (write_error x) n.

(** ** The file cache as the state machine sees it *)
Definition bytes (v : list ext) : Z := foldr (λ e n, e.2 + n) 0 v.

(** The contiguous run at the start of a list of ranges. *)
Fixpoint run_from (next : Z) (v : list ext) : list ext :=
  match v with
  | [] => []
  | (o, l) :: v' => if o =? next then (o, l) :: run_from (o + l) v' else []
  end.

Definition first_run (v : list ext) : list ext :=
  match v with [] => [] | (o, l) :: v' => (o, l) :: run_from (o + l) v' end.

Definition get_bytes_to_flush (s : sys) : Z := bytes (flushable (dat s)).
Definition get_bytes_to_commit (s : sys) : Z := bytes (pending (dat s)).
Definition is_flushing_in_progress (s : sys) : bool := 0 <? bytes (inflight (dat s)).

(** Insertion in file order. *)
Fixpoint insert_ext (e : ext) (v : list ext) : list ext :=
  match v with
  | [] => [e]
  | e' :: v' => if e.1 <? e'.1 then e :: v else e' :: insert_ext e v'
  end.

(** ** Answering the waiters *)
Definition reply_write (t : nat) : MF () := mmodify (on_ans (λ a, Answers (replied a ++ [t]) (signalled a))).

(** [assert( *done == false); *done = true;] *)
Definition signal (d : nat) : MF () :=
  do s ← mget;
  do_ massert (negb (bool_decide (d ∈ signalled (ans s))));
  mmodify (on_ans (λ a, Answers (replied a) (signalled a ++ [d]))).

Definition answer (t : option nat) (d : option nat) : MF () :=
  match t with
  | Some k => do_ massert (match d with None => true | Some _ => false end); reply_write k
  | None => match d with Some x => signal x | None => mret () end
  end.

(** ** fctgt *)
Definition some {A} (o : option A) : bool := match o with Some _ => true | None => false end.

(** [!done || ( *done == false)] *)
Definition not_done (d : option nat) (s : sys) : bool :=
  match d with Some x => negb (bool_decide (x ∈ signalled (ans s))) | None => true end.

Definition fctgt_new (fseq cseq : Z) (t d : option nat) (full : bool) : MF fctgt :=
  do s ← mget;
  do_ massert (negb (fseq =? 0) || negb (cseq =? 0));
  do_ massert (negb full || (fseq =? 0));
  do_ massert (negb full || negb (some t));
  do_ massert (negb full || some d);
  do_ massert (not_done d s);
  mret (Fctgt fseq cseq t d full).

Definition ftgtq_emplace (fseq cseq : Z) (t d : option nat) (full : bool) : MF () :=
  do g ← fctgt_new fseq cseq t d full; mmodify (on_fc (λ x, set_ftgtq (ftgtq x ++ [g]) x)).

Definition ctgtq_emplace (fseq cseq : Z) (t d : option nat) (full : bool) : MF () :=
  do g ← fctgt_new fseq cseq t d full; mmodify (on_fc (λ x, set_ctgtq (ctgtq x ++ [g]) x)).

(** ** Locks, flags and sequence numbers *)
Definition flush_lock : MF () :=
  do s ← mget; do_ massert (negb (is_flushing (ino s))); mmodify (on_ino (set_lock true)).

Definition flush_unlock : MF () :=
  do s ← mget; do_ massert (is_flushing (ino s)); mmodify (on_ino (set_lock false)).

Definition assert_lock : MF () := do s ← mget; massert (is_flushing (ino s)).

Definition mark_running : MF () := do_ assert_lock; mmodify (on_fc (set_running true)).

Definition clear_running : MF () :=
  do_ assert_lock;
  do s ← mget;
  do_ massert (running (fc s));
  mmodify (on_fc (set_running false)).

Definition add_flushing (n : Z) : MF () :=
  do_ assert_lock;
  do s ← mget;
  let x := fc s in
  do_ massert (flushed_seq_num x <=? flushing_seq_num x);
  do_ massert (committed_seq_num x <=? committing_seq_num x);
  do_ massert (committing_seq_num x <=? flushed_seq_num x);
  mmodify (on_fc (λ x, set_seqs (flushed_seq_num x) (flushing_seq_num x + n) (committed_seq_num x) (committing_seq_num x) x)).

Definition add_committing (n : Z) : MF () :=
  do_ assert_lock;
  do s ← mget;
  do_ massert (negb (stable_write (ino s)));
  do_ massert (committed_seq_num (fc s) <=? committing_seq_num (fc s));
  do_ mmodify (on_fc (λ x, set_seqs (flushed_seq_num x) (flushing_seq_num x) (committed_seq_num x) (committing_seq_num x + n) x));
  do s' ← mget;
  do_ massert (flushed_seq_num (fc s') <=? flushing_seq_num (fc s'));
  massert (committing_seq_num (fc s') <=? flushed_seq_num (fc s')).

Definition fc_cb_enter : MF () := mmodify (on_fc (λ x, set_cb (in_fc_callback x + 1) x)).

Definition fc_cb_exit : MF () :=
  do s ← mget;
  do_ massert (0 <? in_fc_callback (fc s));
  mmodify (on_fc (λ x, set_cb (in_fc_callback x - 1) x)).

(** [inode->set_stable_write()] *)
Definition set_stable_write : MF () :=
  do s ← mget; do_ massert (negb (stable_write (ino s))); mmodify (on_ino set_stable).

Definition set_commit_in_progress : MF () :=
  do s ← mget; do_ massert (negb (commit_in_progress (ino s))); mmodify (on_ino (set_commit true)).

Definition clear_commit_in_progress : MF () :=
  do s ← mget; do_ massert (commit_in_progress (ino s)); mmodify (on_ino (set_commit false)).

(** ** Dropping queued targets *)
Definition ctgtq_cleanup : MF () :=
  do_ assert_lock;
  do s ← mget;
  do_ massert (stable_write (ino s));
  do_ mfor (ctgtq (fc s)) (λ g, answer (task g) (done g));
  mmodify (on_fc (set_ctgtq [])).

Definition ftgtq_cleanup : MF () :=
  do_ assert_lock;
  do s ← mget;
  do_ mfor (ftgtq (fc s)) (λ g, answer (task g) (done g));
  mmodify (on_fc (set_ftgtq [])).

(** ** nfs_inode: issuing flushes and commits *)

(** The data waiting for a commit becomes dirty again. *)
Definition redirty (d : data) : data :=
  Data (foldl (λ v e, insert_ext e v) (flushable d) (pending d)) (inflight d) [].

Definition switch_to_stable_write : MF () :=
  do_ assert_lock;
  do s ← mget;
  do_ massert (negb (stable_write (ino s)));
  do_ massert (negb (commit_in_progress (ino s)));
  do_ massert (negb (is_flushing_in_progress s));
  if get_bytes_to_commit s =? 0 then
    do_ set_stable_write; ctgtq_cleanup
  else
    do_ mmodify (on_dat redirty);
    do s' ← mget;
    do_ massert (get_bytes_to_commit s' =? 0);
    do_ massert (negb (is_flushing_in_progress s'));
    do_ massert (negb (commit_in_progress (ino s')));
    do_ set_stable_write; ctgtq_cleanup.

Definition check_stable_write_required (offset : Z) : MF bool :=
  do_ assert_lock;
  do s ← mget;
  do_ massert (offset <=? AZNFSC_MAX_FILE_SIZE);
  if stable_write (ino s) then mret false
  else
    do_ massert (negb (putblock_filesize (ino s) =? AZNFSC_BAD_OFFSET));
    mret (negb (putblock_filesize (ino s) =? offset)).

(** One chunk of [sync_membufs()]: skipped unless it is dirty and not yet
    flushing, else its write is issued. *)
Definition sync_one (e : ext) : MF () :=
  do s ← mget;
  if bool_decide (e ∈ flushable (dat s)) then
    do_ mark_running;
    do_ mmodify (on_dat (λ d, Data (filter (λ e', e' ≠ e) (flushable d)) (inflight d ++ [e]) (pending d)));
    do_ add_flushing e.2;
    if stable_write (ino s) then massert (putblock_filesize (ino s) =? AZNFSC_BAD_OFFSET)
    else mmodify (on_ino (λ i, set_putblock (putblock_filesize i + e.2) i))
  else mret ().

Definition sync_membufs (v : list ext) : MF () :=
  do_ assert_lock;
  do s ← mget;
  do_ massert (stable_write (ino s) || negb (is_flushing_in_progress s));
  do_ massert (negb (commit_in_progress (ino s)));
  match v with
  | [] => mret ()
  | (o, _) :: _ =>
      do required ← check_stable_write_required o;
      do_ (if required then switch_to_stable_write else mret ());
      mfor v sync_one
  end.

Fixpoint commit_each (prev_offset : Z) (v : list ext) : MF () :=
  match v with
  | [] => mret ()
  | (o, l) :: v' =>
      do_ massert ((prev_offset =? 0) || (prev_offset =? o));
      do_ add_committing l;
      do_ mark_running;
      commit_each (if prev_offset =? 0 then o + l else prev_offset + l) v'
  end.

Definition commit_membufs (v : list ext) : MF () :=
  do_ assert_lock;
  do s ← mget;
  do_ massert (running (fc s) || (in_fc_callback (fc s) =? 0));
  do_ set_commit_in_progress;
  commit_each 0 v.

(** ** The event handlers *)

(** Assertions common to both ensure handlers. *)
Definition ensure_checks (t d : option nat) : MF () :=
  do s ← mget;
  let x := fc s in
  let idle := negb (running x) in
  do_ massert (negb (some t && some d));
  do_ massert (not_done d s);
  do_ massert (negb idle || (match ctgtq x, ftgtq x with [], [] => true | _, _ => false end));
  do_ massert (negb idle || (flushed_seq_num x =? flushing_seq_num x));
  massert (negb idle || (committed_seq_num x =? committing_seq_num x)).

Definition front_flush_seq (q : list fctgt) : Z := match q with g :: _ => flush_seq g | [] => 0 end.
Definition front_commit_seq (q : list fctgt) : Z := match q with g :: _ => commit_seq g | [] => 0 end.

(** What an idle state machine flushes: everything for stable writes, the first
    contiguous run for unstable writes, switching to stable writes if the caller
    wants everything and it is not contiguous. *)
Definition pick_flush (flush_full_unstable : bool) : MF (list ext) :=
  do s ← mget;
  let all := flushable (dat s) in
  if stable_write (ino s) then
    do_ massert (get_bytes_to_flush s <=? bytes all); mret all
  else
    let run := first_run all in
    if flush_full_unstable && (bytes run <? get_bytes_to_flush s) then
      do_ massert (negb (commit_in_progress (ino s)));
      do_ massert (negb (is_flushing_in_progress s));
      do_ massert (get_bytes_to_flush s <=? bytes all);
      do_ set_stable_write;
      mret all
    else mret run.

Definition ensure_flush (t d : option nat) (flush_full_unstable : bool) : MF () :=
  do_ assert_lock;
  do_ ensure_checks t d;
  do s ← mget;
  let x := fc s in
  do_ massert (flushed_seq_num x <=? flushing_seq_num x);
  let last_flush_seq := front_flush_seq (ftgtq x) in
  let target_flushed_seq_num := Z.max (flushing_seq_num x + get_bytes_to_flush s) last_flush_seq in
  if running x then
    do_ massert (match ftgtq x with
                 | [] => true
                 | g :: _ => (flush_seq g <=? target_flushed_seq_num) && (commit_seq g =? 0)
                 end);
    if negb (some t) && negb (some d) && (target_flushed_seq_num =? last_flush_seq) then mret ()
    else ftgtq_emplace target_flushed_seq_num 0 t d flush_full_unstable
  else
    do_ massert (flushed_seq_num x =? flushing_seq_num x);
    do_ massert (flushing_seq_num x <=? target_flushed_seq_num);
    if target_flushed_seq_num =? flushed_seq_num x then answer t d
    else
      do bc_vec ← pick_flush flush_full_unstable;
      do_ massert (eqb (match bc_vec with [] => true | _ => false end) (bytes bc_vec =? 0));
      do_ massert (0 <? bytes bc_vec);
      do_ sync_membufs bc_vec;
      do s' ← mget;
      do_ massert (running (fc s'));
      do_ massert (flushing_seq_num (fc s') =? flushing_seq_num x + bytes bc_vec);
      do_ massert (flushed_seq_num (fc s') <=? flushing_seq_num (fc s'));
      ftgtq_emplace target_flushed_seq_num 0 t d false.

(** [max_dirty_extent] is [bytes_chunk_cache::max_dirty_extent_bytes()]. *)
Definition commit_goal (max_dirty_extent : Z) (d : option nat) (full : bool) : MF Z :=
  do s ← mget;
  let commit_bytes := get_bytes_to_commit s in
  if full then
    do_ massert (some d && not_done d s);
    do_ massert (commit_bytes =? 0);
    mret (get_bytes_to_flush s)
  else if commit_bytes =? 0 then mret (Z.max (i64 (get_bytes_to_flush s - max_dirty_extent)) 0)
  else mret commit_bytes.

Definition ensure_commit (max_dirty_extent : Z) (t d : option nat) (full : bool) : MF () :=
  do_ assert_lock;
  do s0 ← mget;
  do_ massert (negb (stable_write (ino s0)));
  do_ massert (negb full || negb (some t));
  do_ massert (negb full || some d);
  do_ ensure_checks t d;
  do_ massert (committed_seq_num (fc s0) <=? committing_seq_num (fc s0));
  do_ massert (committing_seq_num (fc s0) <=? flushed_seq_num (fc s0));
  do commit_bytes ← commit_goal max_dirty_extent d full;
  if commit_bytes =? 0 then answer t d
  else
    do s ← mget;
    let x := fc s in
    let target := Z.max (committed_seq_num x + commit_bytes) (front_commit_seq (ctgtq x)) in
    if running x then
      do_ massert (match ctgtq x with
                   | [] => true
                   | g :: _ => (commit_seq g <=? target) && (flush_seq g =? 0)
                   end);
      ctgtq_emplace 0 target t d full
    else if flushed_seq_num x <? target then
      do_ ensure_flush None None full;
      do s' ← mget;
      do_ massert (target <=? flushing_seq_num (fc s'));
      if stable_write (ino s') then
        match t with
        | Some k => do_ massert (negb full); do_ massert (negb (some d)); reply_write k
        | None =>
            match d with
            | Some _ => do_ massert full; do_ massert (not_done d s'); ensure_flush None d false
            | None => mret ()
            end
        end
      else ctgtq_emplace 0 target t d false
    else
      let bc_vec := pending (dat s) in
      do_ massert (match bc_vec with [] => false | _ => true end);
      do_ massert (0 <? bytes bc_vec);
      do_ massert (committing_seq_num x =? committed_seq_num x);
      do_ commit_membufs bc_vec;
      do s' ← mget;
      do_ massert (running (fc s'));
      do_ massert (committing_seq_num (fc s') =? committing_seq_num x + bytes bc_vec);
      do_ massert (committed_seq_num (fc s') <? committing_seq_num (fc s'));
      ctgtq_emplace 0 target t d false.

(** Completes the targets at the front of a queue that [reached] holds of; returns
    the rest of the queue. *)
Fixpoint complete_targets (reached : fctgt → bool) (q : list fctgt) : MF (list fctgt) :=
  match q with
  | [] => mret []
  | g :: q' =>
      if reached g then do_ answer (task g) (done g); complete_targets reached q'
      else mret q
  end.

Definition run_ftgtq : MF () :=
  do s ← mget;
  do q ← complete_targets (λ g, flush_seq g <=? flushed_seq_num (fc s)) (ftgtq (fc s));
  mmodify (on_fc (set_ftgtq q)).

Definition run_ctgtq : MF () :=
  do s ← mget;
  do q ← complete_targets (λ g, commit_seq g <=? committed_seq_num (fc s)) (ctgtq (fc s));
  mmodify (on_fc (set_ctgtq q)).

Definition empty {A} (l : list A) : bool := match l with [] => true | _ => false end.

(** The part of [on_commit_complete()] under the flush lock. *)
Definition commit_continue : MF () :=
  do_ flush_lock;
  do s ← mget;
  do_ massert (negb (stable_write (ino s)) || empty (ctgtq (fc s)));
  do_ run_ctgtq;
  do s1 ← mget;
  let x := fc s1 in
  do_ (if negb (empty (ftgtq x)) || negb (empty (ctgtq x)) then
         do_ massert (empty (ftgtq x) || (flushed_seq_num x <? front_flush_seq (ftgtq x)));
         do_ massert (empty (ctgtq x) || (committed_seq_num x <? front_commit_seq (ctgtq x)));
         do bc_vec ← (if stable_write (ino s1) then
                        do_ massert (empty (ctgtq x)); mret (flushable (dat s1))
                      else
                        let run := first_run (flushable (dat s1)) in
                        do_ massert (negb (empty run)); do_ massert (0 <? bytes run); mret run);
         do_ massert (flushed_seq_num x <=? flushing_seq_num x);
         do_ sync_membufs bc_vec;
         do s2 ← mget;
         massert (flushing_seq_num (fc s2) =? flushing_seq_num x + bytes bc_vec)
       else
         do_ massert (flushing_seq_num x =? flushed_seq_num x);
         do_ massert (committing_seq_num x =? committed_seq_num x);
         do_ massert (flushed_seq_num x =? committed_seq_num x);
         do_ massert (negb (is_flushing_in_progress s1));
         do_ massert (negb (commit_in_progress (ino s1)));
         clear_running);
  flush_unlock.

(** The part before the flush lock. *)
Definition commit_account (commit_bytes : Z) : MF () :=
  do s ← mget;
  let x := fc s in
  do_ massert (negb (stable_write (ino s)));
  do_ massert (write_error (ino s) =? 0);
  do_ massert (0 <? commit_bytes);
  do_ massert (0 <? in_fc_callback x);
  do_ massert (running x);
  do_ clear_commit_in_progress;
  do_ massert (negb (is_flushing_in_progress s));
  do_ massert (get_bytes_to_commit s =? 0);
  do_ massert (committing_seq_num x <=? flushed_seq_num x);
  do_ massert (committing_seq_num x <=? flushing_seq_num x);
  do_ mmodify (on_fc (λ x, set_seqs (flushed_seq_num x) (flushing_seq_num x) (committed_seq_num x + commit_bytes) (committing_seq_num x) x));
  do s' ← mget;
  do_ massert (flushed_seq_num (fc s') =? committed_seq_num (fc s'));
  massert (committed_seq_num (fc s') =? committing_seq_num (fc s')).

Definition on_commit_complete (commit_bytes : Z) : MF () :=
  do_ commit_account commit_bytes; commit_continue.

(** The part of [on_flush_complete()] before the flush lock: accounts the bytes and
    tells whether this was the last write of the flush. *)
Definition flush_account (flush_bytes : Z) : MF bool :=
  do s ← mget;
  let x := fc s in
  do_ massert (write_error (ino s) =? 0);
  do_ massert (0 <? flush_bytes);
  do_ massert (0 <? in_fc_callback x);
  do_ massert (negb (commit_in_progress (ino s)));
  do_ massert (committing_seq_num x <=? flushed_seq_num x);
  do_ massert (committed_seq_num x <=? committing_seq_num x);
  do_ massert (committing_seq_num x <=? flushing_seq_num x);
  do_ mmodify (on_fc (λ x, set_seqs (flushed_seq_num x + flush_bytes) (flushing_seq_num x) (committed_seq_num x) (committing_seq_num x) x));
  do s' ← mget;
  do_ massert (flushed_seq_num (fc s') <=? flushing_seq_num (fc s'));
  mret (negb (is_flushing_in_progress s')).

(** The next thing to do after a flush: commit, flush more, or stop. *)
Definition flush_next : MF () :=
  do s ← mget;
  let x := fc s in
  if negb (empty (ctgtq x)) && (front_commit_seq (ctgtq x) <=? flushed_seq_num x) then
    do_ massert (negb (stable_write (ino s)));
    let bc_vec := pending (dat s) in
    do_ massert (eqb (empty bc_vec) (bytes bc_vec =? 0));
    do_ massert (negb (empty bc_vec));
    do_ massert (0 <? bytes bc_vec);
    do_ commit_membufs bc_vec;
    do s' ← mget;
    massert (committing_seq_num (fc s') =? committing_seq_num x + bytes bc_vec)
  else if (negb (empty (ftgtq x)) && (flushing_seq_num x <? front_flush_seq (ftgtq x)))
       || (negb (empty (ctgtq x)) && (flushing_seq_num x <? front_commit_seq (ctgtq x))) then
    let bc_vec := if stable_write (ino s) then flushable (dat s) else first_run (flushable (dat s)) in
    do_ massert (negb (empty bc_vec));
    let next_goal := Z.max (front_flush_seq (ftgtq x)) (front_commit_seq (ctgtq x)) in
    do_ massert (u64 (next_goal - flushing_seq_num x) <=? bytes bc_vec);
    do_ massert (flushed_seq_num x <=? flushing_seq_num x);
    do_ sync_membufs bc_vec;
    do s' ← mget;
    massert (flushing_seq_num (fc s') =? flushing_seq_num x + bytes bc_vec)
  else if empty (ftgtq x) && empty (ctgtq x) then
    do_ massert (flushed_seq_num x <=? flushing_seq_num x);
    do_ massert (negb (is_flushing_in_progress s));
    do_ massert (negb (commit_in_progress (ino s)));
    clear_running
  else massert false.

(** The part under the flush lock. *)
Definition flush_continue : MF () :=
  do_ flush_lock;
  do s ← mget;
  let x := fc s in
  do_ (if is_flushing_in_progress s || commit_in_progress (ino s) || negb (running x) then
         massert (running x || empty (ftgtq x))
       else
         do_ massert (flushed_seq_num x =? flushing_seq_num x);
         do_ run_ftgtq;
         flush_next);
  flush_unlock.

Definition on_flush_complete (flush_bytes : Z) : MF () :=
  do last ← flush_account flush_bytes;
  if last then flush_continue else mret ().

(** [fcsm::run()], called after a write was copied into the cache.  The arguments
    are the answers of [do_inline_write()], [commit_required()] and
    [flush_required()] of the file cache; [t] is the frontend write task. *)
Definition run (do_inline_write commit_required flush_required : bool) (max_dirty_extent : Z) (t : nat) : MF () :=
  let need_inline_write := do_inline_write in
  let need_commit := negb need_inline_write && commit_required in
  let need_flush := negb need_inline_write && flush_required in
  if negb need_inline_write && negb need_commit && negb need_flush then reply_write t
  else if need_inline_write then
    do_ flush_lock;
    do s ← mget;
    do_ (if stable_write (ino s) then ensure_flush (Some t) None false
         else ensure_commit max_dirty_extent (Some t) None false);
    flush_unlock
  else
    do_ (if need_commit then
           do s ← mget;
           do_ massert (negb (stable_write (ino s)));
           do_ flush_lock;
           do_ (if commit_in_progress (ino s) then massert (negb (is_flushing_in_progress s))
                else ensure_commit max_dirty_extent None None false);
           flush_unlock
         else mret ());
    do_ (if need_flush then
           do_ flush_lock; do_ ensure_flush None None false; flush_unlock
         else mret ());
    reply_write t.

(** ** Waiting for the ongoing flush and commit

    [wait_for_ongoing_flush()] lets the flush lock go until no write is in flight
    and no callback runs; with the lock held it then commits what waits for a
    commit, and waits (still holding the lock) until that commit is done.
    [wait_start] is the part up to that wait; it runs once the first condition
    holds, and tells whether a commit must be waited for. *)
Definition wait_start : MF bool :=
  do_ assert_lock;
  do s ← mget;
  do_ massert (negb (stable_write (ino s)) || (negb (commit_in_progress (ino s)) && empty (pending (dat s))));
  do_ massert (negb (is_flushing_in_progress s) && (in_fc_callback (fc s) =? 0));
  do_ (if 0 <? get_bytes_to_commit s then
         do_ massert (negb (stable_write (ino s)));
         if commit_in_progress (ino s) then mret () else commit_membufs (pending (dat s))
       else mret ());
  do s' ← mget;
  do_ massert (negb (commit_in_progress (ino s')) || running (fc s'));
  mret (commit_in_progress (ino s')).

(** The end of [wait_for_ongoing_flush()]. *)
Definition wait_finish : MF () :=
  do s ← mget;
  do_ massert (negb (commit_in_progress (ino s)));
  massert (negb (is_flushing_in_progress s)).

(** [flush_cache_and_wait()] after the wait: a target for all the dirty data. *)
Definition flush_cache_targets (max_dirty_extent : Z) (d : nat) : MF () :=
  do s ← mget;
  do_ (if stable_write (ino s) then ensure_flush None (Some d) false
       else ensure_commit max_dirty_extent None (Some d) true);
  flush_unlock.

(** [truncate_start()] after the wait, before the file cache is truncated. *)
Definition truncate_targets : MF () := do_ ftgtq_cleanup; flush_unlock.

(** ** Completion of the RPCs *)

(** [write_iov_callback()] for a successful write of the ranges [v], up to the call
    of [on_flush_complete()]: they leave the set under write and, if the write was
    unstable, wait for a commit. *)
Definition write_io_complete (a v b : list ext) : MF () :=
  do s ← mget;
  do_ massert (bool_decide (inflight (dat s) = a ++ v ++ b));
  do_ massert (negb (empty v));
  do_ fc_cb_enter;
  mmodify (on_dat (λ d, Data (flushable d) (a ++ b)
        (if stable_write (ino s) then pending d else foldl (λ w e, insert_ext e w) (pending d) v))).

(** [on_flush_complete()] up to the flush lock.  The result tells whether the
    callback goes on to take the lock ([flush_continue]); if not it ends here. *)
Definition write_account (flush_bytes : Z) : MF bool :=
  do last ← flush_account flush_bytes;
  do_ (if last then mret () else fc_cb_exit);
  mret last.

(** [commit_callback()] for a successful commit, up to the flush lock: the
    committed data is released from the cache. *)
Definition commit_callback : MF () :=
  do s ← mget;
  do_ massert (negb (stable_write (ino s)));
  do_ massert (commit_in_progress (ino s));
  do_ massert (negb (is_flushing_in_progress s));
  do_ massert (0 <? get_bytes_to_commit s);
  do_ fc_cb_enter;
  do_ mmodify (on_dat (λ d, Data (flushable d) (inflight d) []));
  commit_account (get_bytes_to_commit s).

(** ** Events *)

(** The thread that holds the flush lock while it waits for a commit. *)
Inductive waiter := FlushCache (d : nat) | TruncateStart.

(** A configuration: the system; the sizes of the writes whose callback has not yet
    called [on_flush_complete()]; how many flush and commit callbacks have accounted
    their bytes and wait for the flush lock; the thread that holds the lock. *)
Record conf := Conf {
  sys_of : sys;
  unaccounted : list Z;
  flush_waiting : nat;
  commit_waiting : nat;
  holder : option waiter;
}.

Inductive event :=
  | Dirty (e : ext)
  | Run (do_inline_write commit_required flush_required : bool) (t : nat)
  | Wait (w : waiter)
  | WaitDone
  | WriteDone (a v b : list ext)
  | FlushAccount (i : nat)
  | FlushContinue
  | CommitDone
  | CommitContinue.

(** The range of an application write is new dirty data, within the largest file. *)
Definition fresh (e : ext) (d : data) : bool :=
  (0 <? e.2) && (e.1 + e.2 <=? AZNFSC_MAX_FILE_SIZE) && bool_decide (e ∉ flushable d ++ inflight d ++ pending d).

(** [set_dirty()] of the chunk an application write filled. *)
Definition add_dirty (e : ext) (s : sys) : sys :=
  on_dat (λ d, Data (insert_ext e (flushable d)) (inflight d) (pending d)) s.

Definition after_wait (mde : Z) (w : waiter) : MF () :=
  do_ wait_finish;
  match w with FlushCache d => flush_cache_targets mde d | TruncateStart => truncate_targets end.

(** One event; [None] when an assertion fails or the event cannot happen. *)
Definition handle (mde : Z) (ev : event) (c : conf) : option conf :=
  let s := sys_of c in
  match ev with
  | Dirty e =>
      if fresh e (dat s) then Some (Conf (add_dirty e s) (unaccounted c) (flush_waiting c) (commit_waiting c) (holder c))
      else None
  | Run i cr fr t =>
      match run i cr fr mde t s with
      | Some (_, s') => Some (Conf s' (unaccounted c) (flush_waiting c) (commit_waiting c) (holder c))
      | None => None
      end
  | Wait w =>
      match bind flush_lock (λ _, wait_start) s with
      | Some (true, s') => Some (Conf s' (unaccounted c) (flush_waiting c) (commit_waiting c) (Some w))
      | Some (false, s') =>
          match after_wait mde w s' with
          | Some (_, s'') => Some (Conf s'' (unaccounted c) (flush_waiting c) (commit_waiting c) None)
          | None => None
          end
      | None => None
      end
  | WaitDone =>
      match holder c with
      | Some w =>
          match after_wait mde w s with
          | Some (_, s') => Some (Conf s' (unaccounted c) (flush_waiting c) (commit_waiting c) None)
          | None => None
          end
      | None => None
      end
  | WriteDone a v b =>
      match write_io_complete a v b s with
      | Some (_, s') => Some (Conf s' (unaccounted c ++ [bytes v]) (flush_waiting c) (commit_waiting c) (holder c))
      | None => None
      end
  | FlushAccount i =>
      match unaccounted c !! i with
      | Some n =>
          match write_account n s with
          | Some (last, s') =>
              Some (Conf s' (delete i (unaccounted c)) (if last then S (flush_waiting c) else flush_waiting c) (commit_waiting c) (holder c))
          | None => None
          end
      | None => None
      end
  | FlushContinue =>
      match flush_waiting c with
      | S n =>
          match bind flush_continue (λ _, fc_cb_exit) s with
          | Some (_, s') => Some (Conf s' (unaccounted c) n (commit_waiting c) (holder c))
          | None => None
          end
      | O => None
      end
  | CommitDone =>
      match commit_callback s with
      | Some (_, s') => Some (Conf s' (unaccounted c) (flush_waiting c) (S (commit_waiting c)) (holder c))
      | None => None
      end
  | CommitContinue =>
      match commit_waiting c with
      | S n =>
          match bind commit_continue (λ _, fc_cb_exit) s with
          | Some (_, s') => Some (Conf s' (unaccounted c) (flush_waiting c) n (holder c))
          | None => None
          end
      | O => None
      end
  end.

(** A file just opened: nothing cached, unstable writes unless the inode is known
    to need stable ones. *)
Definition sys0 (stable : bool) : sys :=
  Sys (FCSM [] [] 0 0 0 0 0 false)
    (Inode false stable false 0 (if stable then AZNFSC_BAD_OFFSET else 0)) (Data [] [] []) (Answers [] []).

Definition conf0 (stable : bool) : conf := Conf (sys0 stable) [] 0 0 None.

Fixpoint handle_all (mde : Z) (evs : list event) (c : conf) : option conf :=
  match evs with
  | [] => Some c
  | ev :: evs' => match handle mde ev c with Some c' => handle_all mde evs' c' | None => None end
  end.
