(* ===== verification/FcsmInv.v ===== *)
(** * The flush-commit state machine: its invariant

    What every handler does to the state, as equations between states ([answered],
    [synced], [committing]), and the invariant [Inv] that every event preserves. *)
From S2P Require Import Prelude Fcsm.

(** Runs the instructions up to the next call or branch. *)
Ltac wlp_go :=
  repeat lazymatch goal with
  | |- wlp (if _ then _ else _) _ _ => fail
  | |- _ => wlp_step
  end.

(** ** Sums of ranges *)
Definition positive (v : list ext) : Prop := Forall (λ e, 0 < e.2 ∧ e.1 + e.2 ≤ AZNFSC_MAX_FILE_SIZE) v.

Lemma bytes_app v w : bytes (v ++ w) = bytes v + bytes w.
Proof. induction v as [|e v IH]; simpl; lia. Qed.

#[export] Instance bytes_perm : Proper ((≡ₚ) ==> eq) bytes.
Proof. induction 1; simpl; lia. Qed.

Lemma bytes_nonneg v : positive v → 0 ≤ bytes v.
Proof. induction 1; simpl; lia. Qed.

Lemma bytes_pos v : positive v → v ≠ [] → 0 < bytes v.
Proof. intros [|e v' He Hv]; [done|]. pose proof (bytes_nonneg _ Hv). simpl. lia. Qed.

Lemma bytes_zero v : positive v → bytes v = 0 → v = [].
Proof. intros Hv Hz. destruct v; [done|]. pose proof (bytes_pos _ Hv ltac:(done)). lia. Qed.

Lemma flushing_iff s : positive (inflight (dat s)) → is_flushing_in_progress s = true ↔ inflight (dat s) ≠ [].
Proof.
  intros Hp. unfold is_flushing_in_progress. rewrite Z.ltb_lt. split.
  - intros ? Hz. rewrite Hz in *. simpl in *. lia.
  - by apply bytes_pos.
Qed.

Lemma insert_ext_perm e v : insert_ext e v ≡ₚ e :: v.
Proof.
  induction v as [|e' v IH]; simpl; [done|]. destruct (_ <? _); [done|].
  by rewrite IH, Permutation_swap.
Qed.

Lemma insert_all_perm v w : foldl (λ w e, insert_ext e w) w v ≡ₚ v ++ w.
Proof.
  revert w. induction v as [|e v IH]; intros w; simpl; [done|].
  by rewrite IH, insert_ext_perm, Permutation_middle.
Qed.

Lemma run_from_prefix n v : ∃ rest, v = run_from n v ++ rest.
Proof.
  revert n. induction v as [|[o l] v IH]; intros n; simpl; [by exists []|].
  destruct (_ =? _); [|by exists ((o, l) :: v)]. destruct (IH (o + l)) as [rest Hr].
  exists rest. simpl. by rewrite <- Hr.
Qed.

Lemma first_run_prefix v : ∃ rest, v = first_run v ++ rest.
Proof.
  destruct v as [|[o l] v]; simpl; [by exists []|].
  destruct (run_from_prefix (o + l) v) as [rest Hr]. exists rest. by rewrite <- Hr.
Qed.

Lemma first_run_nil v : first_run v = [] → v = [].
Proof. by destruct v as [|[] ?]. Qed.

(** Removing the ranges of [v]. *)
Definition without (v l : list ext) : list ext := filter (λ e, e ∉ v) l.

Lemma without_nil l : without [] l = l.
Proof. apply filter_all. set_solver. Qed.

Lemma without_cons e v l : without v (filter (λ e', e' ≠ e) l) = without (e :: v) l.
Proof.
  unfold without. rewrite list_filter_filter. apply filter_ext_in. intros x _. set_solver.
Qed.

Lemma without_perm v l : NoDup v → NoDup l → v ⊆ l → l ≡ₚ v ++ without v l.
Proof.
  intros Hv Hl Hsub. apply NoDup_Permutation; [done| |].
  - apply NoDup_app. split_and!; [done| |by apply NoDup_filter].
    intros x Hx Hw. apply list_elem_of_filter in Hw as [? _]. done.
  - intros x. rewrite elem_of_app. unfold without. rewrite list_elem_of_filter.
    destruct (decide (x ∈ v)); naive_solver.
Qed.

Lemma without_all l : without l l = [].
Proof. apply filter_none. naive_solver. Qed.

Lemma bytes_without v l : NoDup v → NoDup l → v ⊆ l → bytes l = bytes v + bytes (without v l).
Proof. intros. rewrite <- bytes_app. by rewrite <- without_perm. Qed.

(** ** What the building blocks do *)
Abbreviation otl := (@option_list nat).

Definition answered (t d : list nat) (s : sys) : sys :=
  on_ans (λ a, Answers (replied a ++ t) (signalled a ++ d)) s.

Lemma answer_spec t d s :
  wlp (answer t d) s (λ _ s', s' = answered (otl t) (otl d) s).
Proof.
  destruct s as [? ? ? [rp sg]]. unfold answer, reply_write, signal. destruct t as [k|], d as [x|].
  all: repeat wlp_step; try done; unfold answered, on_ans; simpl; by rewrite ?app_nil_r.
Qed.

Lemma answered_app t1 t2 d1 d2 s : answered t2 d2 (answered t1 d1 s) = answered (t1 ++ t2) (d1 ++ d2) s.
Proof. unfold answered, on_ans. destruct s as [? ? ? []]. simpl. by rewrite !app_assoc. Qed.

Lemma answered_nil s : answered [] [] s = s.
Proof. unfold answered, on_ans. destruct s as [? ? ? []]. simpl. by rewrite !app_nil_r. Qed.

Lemma answer_all_spec q s :
  wlp (mfor q (λ g, answer (task g) (done g))) s
    (λ _ s', s' = answered (omap task q) (omap done q) s).
Proof.
  revert s. induction q as [|g q IH]; intros s; simpl.
  - apply wlp_ret. by rewrite answered_nil.
  - apply wlp_bind. eapply wlp_mono; [apply answer_spec|]. intros [] s1 ->. cbv beta.
    eapply wlp_mono; [apply IH|]. intros [] s2 ->. rewrite answered_app.
    by destruct (task g), (done g).
Qed.

Lemma complete_targets_spec reached q s :
  wlp (complete_targets reached q) s (λ q2 s', ∃ q1,
    q = q1 ++ q2 ∧ Forall (λ g, reached g = true) q1 ∧
    (∀ g q3, q2 = g :: q3 → reached g = false) ∧
    s' = answered (omap task q1) (omap done q1) s).
Proof.
  revert s. induction q as [|g q IH]; intros s; simpl.
  - apply wlp_ret. exists []. by rewrite answered_nil.
  - destruct (reached g) eqn:Hg.
    + apply wlp_bind. eapply wlp_mono; [apply answer_spec|]. intros [] s1 ->. cbv beta.
      eapply wlp_mono; [apply IH|]. intros q2 s2 (q1 & -> & Hq1 & Hq2 & ->).
      exists (g :: q1). split_and!; [done|by constructor|done|].
      rewrite answered_app. simpl. by destruct (task g), (done g).
    + apply wlp_ret. exists []. split_and!; [done|done| |by rewrite answered_nil].
      intros ? ? [= <- <-]. done.
Qed.

Lemma fctgt_new_spec f c t d full s :
  wlp (fctgt_new f c t d full) s (λ g s', g = Fctgt f c t d full ∧ s' = s).
Proof. unfold fctgt_new. repeat wlp_step. done. Qed.

Lemma ftgtq_emplace_spec f c t d full s :
  wlp (ftgtq_emplace f c t d full) s
    (λ _ s', s' = on_fc (λ x, set_ftgtq (ftgtq x ++ [Fctgt f c t d full]) x) s).
Proof.
  unfold ftgtq_emplace. wlp_step. eapply wlp_mono; [apply fctgt_new_spec|].
  intros g s' [-> ->]. wlp_step. done.
Qed.

Lemma ctgtq_emplace_spec f c t d full s :
  wlp (ctgtq_emplace f c t d full) s
    (λ _ s', s' = on_fc (λ x, set_ctgtq (ctgtq x ++ [Fctgt f c t d full]) x) s).
Proof.
  unfold ctgtq_emplace. wlp_step. eapply wlp_mono; [apply fctgt_new_spec|].
  intros g s' [-> ->]. wlp_step. done.
Qed.

(** [v] put under write. *)
Definition synced (v : list ext) (s : sys) : sys :=
  Sys (set_running (negb (empty v) || running (fc s))
         (set_seqs (flushed_seq_num (fc s)) (flushing_seq_num (fc s) + bytes v)
            (committed_seq_num (fc s)) (committing_seq_num (fc s)) (fc s)))
    (set_putblock (if stable_write (ino s) then putblock_filesize (ino s) else putblock_filesize (ino s) + bytes v) (ino s))
    (Data (without v (flushable (dat s))) (inflight (dat s) ++ v) (pending (dat s))) (ans s).

(** The order of the sequence numbers, and the mark of stable writes. *)
Definition ordered (s : sys) : Prop :=
  flushed_seq_num (fc s) ≤ flushing_seq_num (fc s) ∧
  committed_seq_num (fc s) ≤ committing_seq_num (fc s) ≤ flushed_seq_num (fc s) ∧
  (stable_write (ino s) = true → putblock_filesize (ino s) = AZNFSC_BAD_OFFSET).

Lemma synced_nil s : synced [] s = s.
Proof.
  destruct s as [[] [? [] ? ? ?] [] ?]; unfold synced; simpl; rewrite without_nil, app_nil_r;
    unfold set_running, set_seqs, set_putblock; simpl; by rewrite ?Z.add_0_r.
Qed.

Lemma synced_cons e v s :
  synced v (synced [e] s) = synced (e :: v) s.
Proof.
  destruct s as [[] [? [] ? ? ?] [] ?]; unfold synced; simpl;
    unfold set_running, set_seqs, set_putblock; simpl; rewrite <- app_assoc;
    unfold without at 2; rewrite (filter_ext_in (λ e', e' ∉ [e]) (λ e', e' ≠ e)) by set_solver;
    rewrite without_cons, orb_true_r, Z.add_0_r, ?Z.add_assoc; done.
Qed.

Lemma sync_one_spec e s :
  is_flushing (ino s) = true → ordered s → e ∈ flushable (dat s) →
  sync_one e s = Some ((), synced [e] s).
Proof.
  intros Hlock (H1 & H2 & H3) He. destruct s as [x i [fl inf pe] a].
  unfold sync_one, mark_running, add_flushing, assert_lock, bind, mget, massert, mmodify; simpl in *.
  rewrite bool_decide_true by done. simpl. rewrite Hlock. simpl. rewrite Hlock. simpl.
  rewrite (proj2 (Z.leb_le _ _) H1), (proj2 (Z.leb_le _ _) (proj1 H2)), (proj2 (Z.leb_le _ _) (proj2 H2)).
  unfold synced, without, on_fc, on_ino, set_running, set_seqs; simpl.
  rewrite (filter_ext_in (λ e', e' ∉ [e]) (λ e', e' ≠ e)) by set_solver. rewrite Z.add_0_r.
  destruct (stable_write i) eqn:Hs; [|done]. rewrite (proj2 (Z.eqb_eq _ _) (H3 eq_refl)).
  unfold set_putblock. by destruct i; simpl in *.
Qed.

Lemma sync_each v s :
  is_flushing (ino s) = true → ordered s → positive v → NoDup v → v ⊆ flushable (dat s) →
  mfor v sync_one s = Some ((), synced v s).
Proof.
  revert s. induction v as [|e v IH]; intros s Hlock Ho Hp Hnd Hsub; simpl.
  - by rewrite synced_nil.
  - apply NoDup_cons in Hnd as [He Hnd]. apply Forall_cons in Hp as [Hp1 Hp].
    unfold bind. rewrite sync_one_spec by (done || set_solver).
    rewrite IH, synced_cons; [done| | |done|done|].
    + destruct s as [? [? [] ? ? ?] ? ?]; done.
    + destruct Ho as (? & ? & ?). destruct s as [? [? [] ? ? ?] ? ?]; split_and!; simpl in *; try done; lia.
    + simpl. intros x Hx. apply list_elem_of_filter. set_solver.
Qed.

(** A commit of [v] issued. *)
Definition committing (v : list ext) (s : sys) : sys :=
  Sys (set_running (negb (empty v) || running (fc s))
         (set_seqs (flushed_seq_num (fc s)) (flushing_seq_num (fc s))
            (committed_seq_num (fc s)) (committing_seq_num (fc s) + bytes v) (fc s)))
    (ino s) (dat s) (ans s).

Lemma committing_cons e v s : committing v (committing [e] s) = committing (e :: v) s.
Proof.
  destruct s as [[] ? ? ?]; unfold committing; simpl; unfold set_running, set_seqs; simpl.
  by rewrite orb_true_r, Z.add_0_r, Z.add_assoc.
Qed.

Lemma commit_each_spec p v s : wlp (commit_each p v) s (λ _ s', s' = committing v s).
Proof.
  revert p s. induction v as [|[o l] v IH]; intros p s; simpl.
  - wlp_step. destruct s as [[] ? ? ?]; unfold committing, set_running, set_seqs; simpl.
    by rewrite Z.add_0_r.
  - unfold add_committing, mark_running, assert_lock. repeat wlp_step.
    eapply wlp_mono; [apply IH|]. intros [] s' ->. rewrite <- committing_cons. f_equal.
    destruct s as [[] ? ? ?]; unfold committing, on_fc, set_running, set_seqs; simpl. by rewrite Z.add_0_r.
Qed.

Lemma commit_membufs_spec v s :
  wlp (commit_membufs v) s (λ _ s',
    commit_in_progress (ino s) = false ∧ s' = committing v (on_ino (set_commit true) s)).
Proof.
  unfold commit_membufs, assert_lock, set_commit_in_progress. repeat wlp_step.
  eapply wlp_mono; [apply commit_each_spec|]. intros [] s' ->. split; [|done].
  by destruct (commit_in_progress (ino s)).
Qed.

(** The switch to stable writes. *)
Definition switched (s : sys) : sys :=
  answered (omap task (ctgtq (fc s))) (omap done (ctgtq (fc s)))
    (on_fc (set_ctgtq []) (on_ino set_stable (on_dat redirty s))).

Lemma ctgtq_cleanup_spec s :
  wlp ctgtq_cleanup s (λ _ s', s' = answered (omap task (ctgtq (fc s))) (omap done (ctgtq (fc s))) (on_fc (set_ctgtq []) s)).
Proof.
  unfold ctgtq_cleanup, assert_lock. repeat wlp_step. eapply wlp_mono; [apply answer_all_spec|].
  intros [] s' ->. wlp_step. done.
Qed.

Lemma switch_spec s :
  positive (pending (dat s)) →
  wlp switch_to_stable_write s (λ _ s',
    stable_write (ino s) = false ∧ commit_in_progress (ino s) = false ∧ s' = switched s).
Proof.
  intros Hp. unfold switch_to_stable_write, set_stable_write, assert_lock. repeat wlp_step.
  all: eapply wlp_mono; [apply ctgtq_cleanup_spec|]; intros [] s' ->.
  all: split_and!; [by destruct (stable_write (ino s))|by destruct (commit_in_progress (ino s))|].
  - apply Z.eqb_eq, bytes_zero in Heqb; [|done]. destruct s as [? ? [fl inf pe] ?]. simpl in *. by subst.
  - done.
Qed.

Lemma reply_write_spec k s : wlp (reply_write k) s (λ _ s', s' = answered [k] [] s).
Proof.
  unfold reply_write. wlp_step. destruct s as [? ? ? []]; unfold answered, on_ans; simpl. by rewrite app_nil_r.
Qed.

(** ** The invariant *)
Definition lsum (l : list Z) : Z := foldr Z.add 0 l.

Record Inv (un : list Z) (s : sys) : Prop := {
  i_positive : positive (flushable (dat s) ++ inflight (dat s) ++ pending (dat s));
  i_nodup : NoDup (flushable (dat s) ++ inflight (dat s) ++ pending (dat s));
  i_un : Forall (λ n, 0 < n) un;
  i_flushing : flushing_seq_num (fc s) = flushed_seq_num (fc s) + bytes (inflight (dat s)) + lsum un;
  i_order : 0 ≤ committed_seq_num (fc s) ∧ committed_seq_num (fc s) ≤ committing_seq_num (fc s) ∧
    committing_seq_num (fc s) ≤ flushed_seq_num (fc s);
  i_unstable : stable_write (ino s) = false →
    flushed_seq_num (fc s) + lsum un = committed_seq_num (fc s) + bytes (pending (dat s)) ∧
    committing_seq_num (fc s) = committed_seq_num (fc s) + (if commit_in_progress (ino s) then bytes (pending (dat s)) else 0);
  i_stable : stable_write (ino s) = true →
    commit_in_progress (ino s) = false ∧ pending (dat s) = [] ∧ ctgtq (fc s) = [];
  i_commit : commit_in_progress (ino s) = true → inflight (dat s) = [] ∧ un = [] ∧ running (fc s) = true;
  i_idle : running (fc s) = false → ftgtq (fc s) = [] ∧ ctgtq (fc s) = [] ∧ inflight (dat s) = [] ∧ un = [];
  i_ftgtq : Forall (λ g, flush_seq g ≤ flushing_seq_num (fc s) + bytes (flushable (dat s))) (ftgtq (fc s));
  i_ctgtq : Forall (λ g, commit_seq g ≤ flushing_seq_num (fc s) + bytes (flushable (dat s))) (ctgtq (fc s));
  i_ftargets : Forall (λ g, (task g = None ∨ done g = None) ∧ commit_seq g = 0) (ftgtq (fc s));
  i_ctargets : Forall (λ g, (task g = None ∨ done g = None) ∧ flush_seq g = 0) (ctgtq (fc s));
  i_committing : commit_in_progress (ino s) = false → committing_seq_num (fc s) = committed_seq_num (fc s);
  i_started : running (fc s) = true → 0 < flushing_seq_num (fc s);
  i_error : write_error (ino s) = 0;
  i_putblock : putblock_filesize (ino s) = if stable_write (ino s) then AZNFSC_BAD_OFFSET else flushing_seq_num (fc s);
}.

(** All the bytes ever made dirty that are not known to be dropped. *)
Definition total (s : sys) : Z := flushing_seq_num (fc s) + bytes (flushable (dat s)).

(** How much work the cached data can still cause. *)
Definition weight (s : sys) : nat :=
  let n := (length (flushable (dat s)) + length (inflight (dat s)))%nat in
  (if stable_write (ino s) then 3 * (n + length (pending (dat s))) else 6 * n + 3 * length (pending (dat s)))%nat.

(** Something is under way whose completion runs the state machine again. *)
Definition busy (s : sys) : Prop := inflight (dat s) ≠ [] ∨ commit_in_progress (ino s) = true.

(** Every write task and every done flag: answered, or waiting in a queue. *)
Definition all_tasks (s : sys) : list nat := replied (ans s) ++ omap task (ftgtq (fc s) ++ ctgtq (fc s)).
Definition all_dones (s : sys) : list nat := signalled (ans s) ++ omap done (ftgtq (fc s) ++ ctgtq (fc s)).

(** What an operation guarantees that takes over the tasks [t] and the flags [d]. *)
Record Post (un : list Z) (t d : list nat) (s s' : sys) : Prop := {
  p_inv : Inv un s';
  p_cb : in_fc_callback (fc s') = in_fc_callback (fc s);
  p_lock : is_flushing (ino s') = is_flushing (ino s);
  p_tasks : all_tasks s' ≡ₚ all_tasks s ++ t;
  p_dones : all_dones s' ≡ₚ all_dones s ++ d;
  p_busy : busy s → busy s';
  p_run : running (fc s') = true → running (fc s) = true ∨ busy s';
  p_total : total s ≤ total s';
  p_weight : (weight s' ≤ weight s)%nat;
  p_stable : stable_write (ino s) = true → stable_write (ino s') = true;
}.

Lemma Post_refl un s : Inv un s → Post un [] [] s s.
Proof. intros. split; rewrite ?app_nil_r; auto; lia. Qed.

Lemma Post_trans un t1 t2 d1 d2 s1 s2 s3 :
  Post un t1 d1 s1 s2 → Post un t2 d2 s2 s3 → Post un (t1 ++ t2) (d1 ++ d2) s1 s3.
Proof.
  intros [] [? Hcb Hl Ht Hd Hb Hr Hto]. split; [done|congruence|congruence| | |auto|naive_solver|lia|lia|auto].
  - by rewrite Ht, p_tasks0, app_assoc.
  - by rewrite Hd, p_dones0, app_assoc.
Qed.

Lemma lsum_nonneg l : Forall (λ n, 0 < n) l → 0 ≤ lsum l.
Proof. induction 1; simpl in *; lia. Qed.

Lemma Inv_ordered un s : Inv un s → ordered s.
Proof.
  intros HI. pose proof (i_flushing _ _ HI) as H1. pose proof (i_order _ _ HI) as H2.
  pose proof (i_positive _ _ HI) as H3. pose proof (lsum_nonneg _ (i_un _ _ HI)).
  pose proof (i_putblock _ _ HI) as Hp.
  apply Forall_app in H3 as [_ [H3 _]%Forall_app]. pose proof (bytes_nonneg _ H3).
  split_and!; [lia|lia|lia|]. intros Hs. by rewrite Hs in Hp.
Qed.

Lemma answered_tasks t d s : all_tasks (answered t d s) ≡ₚ all_tasks s ++ t.
Proof. unfold all_tasks, answered. simpl. by rewrite <- !app_assoc, (Permutation_app_comm t). Qed.

Lemma answered_dones t d s : all_dones (answered t d s) ≡ₚ all_dones s ++ d.
Proof. unfold all_dones, answered. simpl. by rewrite <- !app_assoc, (Permutation_app_comm d). Qed.

Lemma Post_answered un t d s : Inv un s → Post un t d s (answered t d s).
Proof.
  intros HI. split; try done; [|apply answered_tasks|apply answered_dones|auto].
  destruct HI; split; done.
Qed.

Lemma Post_answer un t d s : Inv un s → wlp (answer t d) s (λ _ s', Post un (otl t) (otl d) s s').
Proof. intros HI. eapply wlp_mono; [apply answer_spec|]. intros [] s' ->. by apply Post_answered. Qed.

(** Splits an invariant into its fields and the pieces of its lists. *)
Ltac open_inv HI :=
  pose proof HI as [Hpos Hnd Hun Hfg Hord Hunst Hst Hcip Hidle Hft Hct Hftg Hctg Hcing Hstart Herr Hput]; simpl in *;
  pose proof Hpos as Hpos'; apply Forall_app in Hpos' as [Hpfl [Hpin Hppe]%Forall_app];
  pose proof (bytes_nonneg _ Hpfl); pose proof (bytes_nonneg _ Hpin); pose proof (bytes_nonneg _ Hppe);
  pose proof (lsum_nonneg _ Hun).

Lemma Forall_seq_mono (f : fctgt → Z) a b q : a ≤ b → Forall (λ g, f g ≤ a) q → Forall (λ g, f g ≤ b) q.
Proof. intros Hab Hq. eapply Forall_impl; [exact Hq|]. simpl. intros. lia. Qed.

Lemma Post_synced un v s :
  Inv un s → v ⊆ flushable (dat s) → NoDup v → commit_in_progress (ino s) = false →
  Post un [] [] s (synced v s).
Proof.
  intros HI Hsub Hnv Hc. destruct (decide (v = [])) as [->|Hv].
  { rewrite synced_nil. by apply Post_refl. }
  assert (empty v = false) as He by (by destruct v). open_inv HI.
  pose proof Hnd as [Hnd1 [_ _]]%NoDup_app.
  assert (flushable (dat s) ≡ₚ v ++ without v (flushable (dat s))) as Hp by (by apply without_perm).
  assert (bytes (flushable (dat s)) = bytes v + bytes (without v (flushable (dat s)))) as Hb
    by (rewrite <- bytes_app; by apply bytes_perm).
  assert (flushable (dat s) ++ inflight (dat s) ++ pending (dat s) ≡ₚ
    without v (flushable (dat s)) ++ (inflight (dat s) ++ v) ++ pending (dat s)) as Hall.
  { rewrite Hp at 1. rewrite <- !app_assoc. rewrite (Permutation_app_comm v). rewrite <- app_assoc.
    apply Permutation_app_head. rewrite (app_assoc (inflight _)), (Permutation_app_comm _ v), <- app_assoc.
    by rewrite !app_assoc, (Permutation_app_comm v). }
  split; simpl; rewrite ?app_nil_r; try done.
  - split; simpl; rewrite ?He; simpl; try done.
    + unfold positive. by rewrite <- Hall.
    + by rewrite <- Hall.
    + rewrite bytes_app. lia.
    + intros Hc'. congruence.
    + eapply Forall_seq_mono, Hft. lia.
    + eapply Forall_seq_mono, Hct. lia.
    + intros _. assert (0 < bytes v); [|lia]. apply bytes_pos; [|done]. apply Forall_forall.
      intros e He'. eapply Forall_forall in Hpfl; [done|]. by apply Hsub.
    + destruct (stable_write (ino s)); lia.
  - intros [?|?]; [left|congruence]. simpl. by destruct (inflight (dat s)).
  - intros _. right. left. simpl. destruct (inflight (dat s)); simpl; congruence.
  - unfold total; simpl. lia.
  - apply Permutation_length in Hp. rewrite length_app in Hp. unfold weight; simpl. rewrite length_app.
    destruct (stable_write (ino s)); lia.
Qed.

Lemma Post_switched un s :
  Inv un s → stable_write (ino s) = false → commit_in_progress (ino s) = false →
  Post un [] [] s (switched s).
Proof.
  intros HI Hs Hc. open_inv HI. specialize (Hunst Hs).
  assert (foldl (λ v e, insert_ext e v) (flushable (dat s)) (pending (dat s)) ≡ₚ
    pending (dat s) ++ flushable (dat s)) as Hp by apply insert_all_perm.
  assert (flushable (dat s) ++ inflight (dat s) ++ pending (dat s) ≡ₚ
    (pending (dat s) ++ flushable (dat s)) ++ inflight (dat s) ++ []) as Hall.
  { rewrite app_nil_r, (Permutation_app_comm (inflight _)), app_assoc. by rewrite (Permutation_app_comm (flushable _)). }
  split; simpl; try done.
  - split; simpl; try done.
    + unfold positive. by rewrite Hp, <- Hall.
    + by rewrite Hp, <- Hall.
    + intros Hr. by destruct (Hidle Hr) as (? & ? & ? & ?).
    + eapply Forall_seq_mono, Hft. rewrite Hp, bytes_app. lia.
  - unfold all_tasks; simpl. rewrite !app_nil_r, omap_app, <- !app_assoc.
    by rewrite (Permutation_app_comm (omap task (ctgtq (fc s)))).
  - unfold all_dones; simpl. rewrite !app_nil_r, omap_app, <- !app_assoc.
    by rewrite (Permutation_app_comm (omap done (ctgtq (fc s)))).
  - by left.
  - unfold total; simpl. rewrite Hp, bytes_app. lia.
  - unfold weight; simpl. rewrite Hp, length_app, Hs. lia.
Qed.

Lemma switched_flushable s : flushable (dat s) ⊆ flushable (dat (switched s)).
Proof. intros x Hx. simpl. rewrite insert_all_perm. set_solver. Qed.

Lemma check_spec o s :
  wlp (check_stable_write_required o) s (λ b s', s' = s ∧ b = negb (stable_write (ino s)) && negb (putblock_filesize (ino s) =? o)).
Proof.
  unfold check_stable_write_required, assert_lock. repeat wlp_step; split; try done; by rewrite Heqb.
Qed.

(** [sync_membufs()] of ranges that can be flushed: unless there is nothing to do
    the ranges go under write, after a switch to stable writes if they do not
    continue the file. *)
Lemma sync_spec un v s :
  Inv un s → v ⊆ flushable (dat s) → NoDup v →
  wlp (sync_membufs v) s (λ _ s', commit_in_progress (ino s) = false ∧
    (stable_write (ino s) = false → inflight (dat s) = []) ∧ ∃ s1, s' = synced v s1 ∧
    (s1 = s ∨ (stable_write (ino s) = false ∧ v ≠ [] ∧ s1 = switched s))).
Proof.
  intros HI Hsub Hnd. assert (positive v) as Hpv.
  { apply Forall_forall. intros e He. pose proof (i_positive _ _ HI) as Hp.
    eapply Forall_forall in Hp; [done|]. set_solver. }
  pose proof (i_positive _ _ HI) as [_ [Hpi Hpp]%Forall_app]%Forall_app.
  unfold sync_membufs, assert_lock. do 10 wlp_step.
  assert (commit_in_progress (ino s) = false) as Hc by (by destruct (commit_in_progress (ino s))).
  assert (stable_write (ino s) = false → inflight (dat s) = []) as Hin.
  { intros Hs. rewrite Hs in H0. simpl in H0. destruct (decide (inflight (dat s) = [])) as [|Hne]; [done|].
    apply (flushing_iff s Hpi) in Hne. by rewrite Hne in H0. }
  destruct v as [|[o l] v']; [wlp_step; split_and!; [done..|exists s; rewrite synced_nil; auto]|].
  set (v := (o, l) :: v') in *. wlp_step. eapply wlp_mono; [apply check_spec|]. intros b ? [-> Hb].
  wlp_step. eapply (wlp_mono _ _ (λ _ s1, s1 = s ∨ (stable_write (ino s) = false ∧ v ≠ [] ∧ s1 = switched s))).
  { destruct b; [|wlp_step; by left]. eapply wlp_mono; [by apply switch_spec|].
    intros _ s1 (Hs & _ & ->). right. done. }
  intros _ s1 Hs1. cbv beta. assert (Inv un s1 ∧ v ⊆ flushable (dat s1) ∧ is_flushing (ino s1) = true) as (HI1 & Hsub1 & Hl1).
  { destruct Hs1 as [->|(Hs & _ & ->)]; [done|]. split_and!; [by eapply p_inv, Post_switched| |done].
    pose proof (switched_flushable s). set_solver. }
  intros [] s' Hrun. rewrite sync_each in Hrun; [|done|by eapply Inv_ordered|done..].
  injection Hrun as <-. eauto 10.
Qed.

Lemma Post_sync un v s :
  Inv un s → v ⊆ flushable (dat s) → NoDup v →
  wlp (sync_membufs v) s (λ _ s', Post un [] [] s s' ∧ (v ≠ [] → busy s' ∧ running (fc s') = true) ∧
    flushing_seq_num (fc s') = flushing_seq_num (fc s) + bytes v).
Proof.
  intros HI Hsub Hnd. eapply wlp_mono; [by apply (sync_spec un)|].
  intros [] s' (Hc & Hin & s1 & -> & Hs1).
  assert (Post un [] [] s s1 ∧ v ⊆ flushable (dat s1) ∧ commit_in_progress (ino s1) = false ∧
    flushing_seq_num (fc s1) = flushing_seq_num (fc s)) as (HP & Hsub1 & Hc1 & Hf1).
  { destruct Hs1 as [->|(Hs & _ & ->)]; [by split_and!; [apply Post_refl|..]|].
    split_and!; [by apply Post_switched| |done..]. pose proof (switched_flushable s). set_solver. }
  split_and!; [| |by rewrite <- Hf1].
  - apply (Post_trans un [] [] [] [] _ s1); [done|]. apply Post_synced; [apply HP|done..].
  - intros Hv. split; [left|]; simpl; [|by destruct v]. by destruct (inflight (dat s1)), v.
Qed.

Lemma Post_ftgt un f t d full s :
  Inv un s → (t = None ∨ d = None) → running (fc s) = true → f ≤ flushing_seq_num (fc s) + bytes (flushable (dat s)) →
  wlp (ftgtq_emplace f 0 t d full) s (λ _ s', Post un (otl t) (otl d) s s' ∧ running (fc s') = true).
Proof.
  intros HI Hex Hr Hf. eapply wlp_mono; [apply ftgtq_emplace_spec|]. intros [] s' ->. split; [|done]. open_inv HI.
  split; simpl; try done.
  - split; simpl; try done; [congruence|apply Forall_app; auto..].
  - unfold all_tasks; simpl. rewrite !omap_app, <- !app_assoc. simpl. destruct t; simpl; rewrite ?app_nil_r; [|done].
    by rewrite Permutation_cons_append.
  - unfold all_dones; simpl. rewrite !omap_app, <- !app_assoc. simpl. destruct d; simpl; rewrite ?app_nil_r; [|done].
    by rewrite Permutation_cons_append.
  - by left.
Qed.

Lemma Post_ctgt un c t d full s :
  Inv un s → (t = None ∨ d = None) → running (fc s) = true → stable_write (ino s) = false →
  c ≤ flushing_seq_num (fc s) + bytes (flushable (dat s)) →
  wlp (ctgtq_emplace 0 c t d full) s (λ _ s', Post un (otl t) (otl d) s s').
Proof.
  intros HI Hex Hr Hs Hf. eapply wlp_mono; [apply ctgtq_emplace_spec|]. intros [] s' ->. open_inv HI.
  split; simpl; try done.
  - split; simpl; try done; [congruence|congruence|apply Forall_app; auto..].
  - unfold all_tasks; simpl. rewrite !omap_app, <- !app_assoc. simpl. by destruct t; simpl; rewrite ?app_nil_r.
  - unfold all_dones; simpl. rewrite !omap_app, <- !app_assoc. simpl. by destruct d; simpl; rewrite ?app_nil_r.
  - by left.
Qed.

(** A commit starts when nothing is under write. *)
Lemma Post_commit un s :
  Inv un s → stable_write (ino s) = false → inflight (dat s) = [] → un = [] →
  pending (dat s) ≠ [] →
  wlp (commit_membufs (pending (dat s))) s (λ _ s', Post un [] [] s s' ∧
    busy s' ∧ running (fc s') = true ∧ stable_write (ino s') = false ∧
    flushing_seq_num (fc s') = flushing_seq_num (fc s) ∧ flushable (dat s') = flushable (dat s) ∧
    commit_in_progress (ino s') = true).
Proof.
  intros HI Hs Hin -> Hpe. eapply wlp_mono; [apply commit_membufs_spec|]. intros [] s' [Hc ->].
  assert (empty (pending (dat s)) = false) as He by (by destruct (pending (dat s))).
  open_inv HI. rewrite Hc in *. destruct (Hunst Hs) as [Hu1 Hu2].
  split_and!; simpl; rewrite ?He; try done; [|by right].
  split; simpl; rewrite ?app_nil_r; try done; [|by right|right; by right].
  pose proof (bytes_pos _ Hppe Hpe). rewrite Hin in *. simpl in *.
  split; simpl; rewrite ?He, ?Hin; simpl; try done; try lia; congruence.
Qed.

Lemma pick_flush_spec un full s :
  Inv un s → running (fc s) = false → (full = true → pending (dat s) = []) →
  wlp (pick_flush full) s (λ v s', Inv un s' ∧ fc s' = fc s ∧ dat s' = dat s ∧ ans s' = ans s ∧
    is_flushing (ino s') = is_flushing (ino s) ∧ commit_in_progress (ino s') = commit_in_progress (ino s) ∧
    (stable_write (ino s) = true → stable_write (ino s') = true) ∧ v ⊆ flushable (dat s') ∧ NoDup v ∧ (weight s' ≤ weight s)%nat).
Proof.
  intros HI Hr Hfull. pose proof (i_nodup _ _ HI) as [Hndf _]%NoDup_app.
  assert (first_run (flushable (dat s)) ⊆ flushable (dat s) ∧ NoDup (first_run (flushable (dat s)))) as [Hf1 Hf2].
  { destruct (first_run_prefix (flushable (dat s))) as [rest Hrest]. split.
    - rewrite Hrest at 2. set_solver.
    - rewrite Hrest in Hndf. by apply NoDup_app in Hndf as [? _]. }
  unfold pick_flush, set_stable_write. repeat wlp_step; split_and!; try done.
  all: apply andb_true_iff in Heqb0 as [-> _]; specialize (Hfull eq_refl); open_inv HI.
  - destruct (Hidle Hr) as (? & ? & ? & ?). split; simpl; try done. intros _. split_and!; try done. by destruct (commit_in_progress (ino s)).
  - unfold weight; simpl. rewrite Heqb. lia.
Qed.

(** The assertions the two ensure handlers share change nothing. *)
Lemma ensure_checks_spec t d s : wlp (ensure_checks t d) s (λ _ s', s' = s ∧ (t = None ∨ d = None)).
Proof. unfold ensure_checks. repeat wlp_step. split; [done|]. destruct t, d; auto; done. Qed.

Lemma front_bound (f : fctgt → Z) q b :
  0 ≤ b → Forall (λ g, f g ≤ b) q → match q with g :: _ => f g | [] => 0 end ≤ b.
Proof. intros Hb Hq. by destruct Hq. Qed.

Lemma flush_target_bound un s :
  Inv un s → Z.max (flushing_seq_num (fc s) + get_bytes_to_flush s) (front_flush_seq (ftgtq (fc s))) ≤
    flushing_seq_num (fc s) + bytes (flushable (dat s)).
Proof.
  intros HI. open_inv HI. apply Z.max_lub; [unfold get_bytes_to_flush; lia|].
  unfold front_flush_seq. apply front_bound; [lia|done].
Qed.

Lemma Post_ensure_flush un t d full s :
  Inv un s → (full = true → pending (dat s) = []) →
  wlp (ensure_flush t d full) s (λ _ s', Post un (otl t) (otl d) s s' ∧
    (running (fc s') = false → flushing_seq_num (fc s') = flushing_seq_num (fc s))).
Proof.
  intros HI Hfull. pose proof (flush_target_bound _ _ HI) as Hb.
  unfold ensure_flush, assert_lock. do 5 wlp_step. eapply wlp_mono; [apply ensure_checks_spec|].
  intros [] ? [-> Hex]. cbv beta. do 4 wlp_step. wlp_step.
  - do 2 wlp_step. wlp_step.
    + wlp_step. split; [|congruence]. apply andb_true_iff in Heqb0 as [[? ?]%andb_true_iff _].
      destruct t, d; try done. by apply Post_refl.
    + eapply wlp_mono; [apply (Post_ftgt un); [done..|exact Hb]|]. intros [] s' [HP Hr]. split; [done|congruence].
  - do 4 wlp_step. wlp_step.
    { eapply wlp_mono; [by apply answer_spec|]. intros [] s' ->. split; [by apply Post_answered|done]. }
    wlp_step. eapply wlp_mono; [by apply (pick_flush_spec un)|].
    intros v s1 (HI1 & Hfc & Hdat & Hans & Hl1 & Hc1 & Hst1 & Hsub & Hnd & Hw1). cbv beta. do 5 wlp_step.
    eapply wlp_mono; [by apply (Post_sync un)|]. intros [] s2 (HP & Hbusy & Hfl). cbv beta. do 8 wlp_step.
    assert (Post un [] [] s s2) as HP2.
    { destruct HP. split; try done; [congruence|congruence| | | | | | |].
      - rewrite p_tasks0. unfold all_tasks. by rewrite Hfc, Hans.
      - rewrite p_dones0. unfold all_dones. by rewrite Hfc, Hans.
      - intros Hby. apply p_busy0. unfold busy. by rewrite Hdat, Hc1.
      - rewrite <- Hfc. done.
      - unfold total in *. by rewrite Hfc, Hdat in p_total0.
      - lia.
      - auto. }
    eapply wlp_mono; [apply (Post_ftgt un); [apply HP|done|done|]|].
    + pose proof (p_total _ _ _ _ _ HP2). unfold total in *. lia.
    + intros [] s3 [HP3 Hr3]. split; [|congruence]. by eapply (Post_trans un [] _ [] _ _ s2).
Qed.

Lemma i64_le x : - 2 ^ 63 ≤ x → i64 x ≤ x.
Proof.
  intros Hx. unfold i64, u64. destruct (Z.ltb_spec (x mod 2 ^ 64) (2 ^ 63)) as [Hlt|Hge].
  - destruct (Z.le_gt_cases 0 x); [by apply Z.mod_le|].
    rewrite <- (Z.mod_add x 1 (2 ^ 64)) in * by lia. rewrite Z.mod_small in * by lia. lia.
  - destruct (Z.le_gt_cases 0 x); [pose proof (Z.mod_le x (2 ^ 64)); lia|].
    rewrite <- (Z.mod_add x 1 (2 ^ 64)) by lia. rewrite Z.mod_small by lia. lia.
Qed.

Section handlers.
Context (mde : Z) (Hmde : 0 ≤ mde < 2 ^ 63).

Lemma commit_goal_spec un d full s :
  Inv un s → stable_write (ino s) = false →
  wlp (commit_goal mde d full) s (λ n s', s' = s ∧ (full = true → pending (dat s) = []) ∧
    committed_seq_num (fc s) + n ≤ total s).
Proof.
  intros HI Hs. open_inv HI. destruct (Hunst Hs) as [Hu _]. unfold commit_goal, total. repeat wlp_step.
  - split_and!; [done|intros _|].
    + by apply bytes_zero; [|apply Z.eqb_eq].
    + unfold get_bytes_to_flush. lia.
  - split_and!; [done|done|]. apply Z.eqb_eq in Heqb0. pose proof (i64_le (get_bytes_to_flush s - mde)) as Hi.
    unfold get_bytes_to_flush in *. lia.
  - split_and!; [done|done|]. unfold get_bytes_to_commit. lia.
Qed.

Lemma Post_ensure_commit un t d full s :
  Inv un s → wlp (ensure_commit mde t d full) s (λ _ s', Post un (otl t) (otl d) s s').
Proof.
  intros HI. unfold ensure_commit, assert_lock. wlp_go.
  assert (stable_write (ino s) = false) as Hs by (by destruct (stable_write (ino s))).
  eapply wlp_mono; [apply ensure_checks_spec|]. intros [] ? [-> Hex]. cbv beta. wlp_go.
  eapply wlp_mono; [by apply (commit_goal_spec un)|]. intros n ? (-> & Hfull & Hn). cbv beta.
  wlp_step; [by apply Post_answer|]. wlp_go.
  set (target := Z.max _ _). assert (target ≤ total s) as Ht.
  { apply Z.max_lub; [done|]. open_inv HI. unfold front_commit_seq, total. apply front_bound; [lia|done]. }
  wlp_step.
  { wlp_go. by apply (Post_ctgt un). }
  assert (flushing_seq_num (fc s) = flushed_seq_num (fc s)) as Hfl.
  { open_inv HI. destruct (Hidle Heqb0) as (_ & _ & Hi & Hu). rewrite Hfg, Hi, Hu. simpl. lia. }
  wlp_step.
  - wlp_step. eapply wlp_mono; [by apply (Post_ensure_flush un None None full)|].
    intros [] s1 [HP1 Hr1]. cbv beta. wlp_go. apply Z.leb_le in H5. apply Z.ltb_lt in Heqb1.
    assert (running (fc s1) = true) as Hr by (destruct (running (fc s1)); [done|]; rewrite Hr1 in H5 by done; lia).
    wlp_step.
    + assert (∀ t d, Post un t d s1 s1 → Post un t d s s1) as Htr by (intros; by eapply (Post_trans un [] _ [] _ _ s1)).
      destruct t as [k|].
      * wlp_go. eapply wlp_mono; [apply reply_write_spec|]. intros [] ? ->. destruct d as [x|]; [done|].
        eapply (Post_trans un [] _ [] _ _ s1); [done|]. apply (Post_answered un [k] []), HP1.
      * destruct d as [x|]; [|wlp_step; apply Htr, Post_refl, HP1].
        wlp_go. eapply wlp_mono; [apply (Post_ensure_flush un None (Some x) false); [apply HP1|done]|].
        intros [] s2 [HP2 _]. by eapply (Post_trans un [] _ [] _ _ s1).
    + eapply wlp_mono; [apply (Post_ctgt un); [apply HP1|done|done|done|]|].
      * open_inv HP1.(p_inv _ _ _ _ _). lia.
      * intros [] s2 HP2. by eapply (Post_trans un [] _ [] _ _ s1).
  - wlp_go. assert (inflight (dat s) = [] ∧ un = []) as [Hin Hu].
    { open_inv HI. by destruct (Hidle Heqb0) as (_ & _ & ? & ?). }
    eapply wlp_mono; [apply (Post_commit un); [done..|by destruct (pending (dat s))]|].
    intros [] s1 (HP1 & Hb1 & Hr1 & Hs1 & Hf1 & Hd1 & _). cbv beta. wlp_go.
    eapply wlp_mono; [apply (Post_ctgt un); [apply HP1|done|done|done|]|].
    + pose proof (p_total _ _ _ _ _ HP1). unfold total in *. lia.
    + intros [] s2 HP2. by eapply (Post_trans un [] _ [] _ _ s1).
Qed.
End handlers.

Lemma run_ftgtq_spec un s :
  Inv un s → wlp run_ftgtq s (λ _ s', Post un [] [] s s' ∧
    dat s' = dat s ∧ ino s' = ino s ∧ running (fc s') = running (fc s) ∧ ctgtq (fc s') = ctgtq (fc s) ∧
    flushed_seq_num (fc s') = flushed_seq_num (fc s) ∧ flushing_seq_num (fc s') = flushing_seq_num (fc s) ∧
    (∀ g q, ftgtq (fc s') = g :: q → flushed_seq_num (fc s') < flush_seq g)).
Proof.
  intros HI. unfold run_ftgtq. wlp_go. eapply wlp_mono; [apply complete_targets_spec|].
  intros q2 ? (q1 & Hq & Hq1 & Hq2 & ->). cbv beta. wlp_step. open_inv HI. rewrite Hq in *.
  split_and!; try done; [|intros g q ->; simpl; by eapply Z.leb_gt, Hq2].
  apply Forall_app in Hft as [_ Hft]. apply Forall_app in Hftg as [_ Hftg].
  split; simpl; try done; [| | |by left].
  - split; simpl; try done. intros Hr. destruct (Hidle Hr) as ([_ ->]%app_nil & ? & ? & ?). done.
  - unfold all_tasks; simpl. rewrite Hq, !omap_app, app_nil_r. by rewrite <- !app_assoc.
  - unfold all_dones; simpl. rewrite Hq, !omap_app, app_nil_r. by rewrite <- !app_assoc.
Qed.

Lemma run_ctgtq_spec un s :
  Inv un s → wlp run_ctgtq s (λ _ s', Post un [] [] s s' ∧
    dat s' = dat s ∧ ino s' = ino s ∧ running (fc s') = running (fc s) ∧ ftgtq (fc s') = ftgtq (fc s) ∧
    flushed_seq_num (fc s') = flushed_seq_num (fc s) ∧ flushing_seq_num (fc s') = flushing_seq_num (fc s) ∧
    (∀ g q, ctgtq (fc s') = g :: q → committed_seq_num (fc s') < commit_seq g)).
Proof.
  intros HI. unfold run_ctgtq. wlp_go. eapply wlp_mono; [apply complete_targets_spec|].
  intros q2 ? (q1 & Hq & Hq1 & Hq2 & ->). cbv beta. wlp_step. open_inv HI. rewrite Hq in *.
  split_and!; try done; [|intros g q ->; simpl; by eapply Z.leb_gt, Hq2].
  apply Forall_app in Hct as [_ Hct]. apply Forall_app in Hctg as [_ Hctg].
  split; simpl; try done; [| | |by left].
  - split; simpl; try done.
    + intros Hs. destruct (Hst Hs) as (? & ? & [_ ->]%app_nil). done.
    + intros Hr. destruct (Hidle Hr) as (? & [_ ->]%app_nil & ? & ?). done.
  - unfold all_tasks; simpl. rewrite Hq, !omap_app, app_nil_r, <- !app_assoc.
    apply Permutation_app_head. by rewrite app_assoc, (Permutation_app_comm (omap task q1)), <- app_assoc.
  - unfold all_dones; simpl. rewrite Hq, !omap_app, app_nil_r, <- !app_assoc.
    apply Permutation_app_head. by rewrite app_assoc, (Permutation_app_comm (omap done q1)), <- app_assoc.
Qed.

(** The machine stops only when nothing is left to do. *)
Lemma clear_running_spec un s :
  Inv un s → ftgtq (fc s) = [] → ctgtq (fc s) = [] → inflight (dat s) = [] → un = [] →
  commit_in_progress (ino s) = false →
  wlp clear_running s (λ _ s', Post un [] [] s s' ∧ running (fc s') = false).
Proof.
  intros HI Hf Hc Hi Hu Hcp. unfold clear_running, assert_lock. wlp_go. split; [|done]. open_inv HI.
  split; simpl; rewrite ?app_nil_r; try done.
  split; simpl; try done. congruence.
Qed.

Lemma first_run_sub un s :
  Inv un s → first_run (flushable (dat s)) ⊆ flushable (dat s) ∧ NoDup (first_run (flushable (dat s))).
Proof.
  intros HI. pose proof (i_nodup _ _ HI) as [Hndf _]%NoDup_app.
  destruct (first_run_prefix (flushable (dat s))) as [rest Hrest]. split.
  - rewrite Hrest at 2. set_solver.
  - rewrite Hrest in Hndf. by apply NoDup_app in Hndf as [? _].
Qed.

Lemma lsum_zero l : Forall (λ n, 0 < n) l → lsum l = 0 → l = [].
Proof. intros [|n l' Hn Hl]; [done|]. pose proof (lsum_nonneg _ Hl). simpl. lia. Qed.

Lemma empty_true {A} (l : list A) : empty l = true → l = [].
Proof. by destruct l. Qed.

Lemma Post_flush_next un s :
  Inv un s → inflight (dat s) = [] → un = [] → commit_in_progress (ino s) = false →
  wlp flush_next s (λ _ s', Post un [] [] s s' ∧ (running (fc s') = true → busy s')).
Proof.
  intros HI Hi Hu Hc. unfold flush_next. wlp_go. wlp_step; [|wlp_step; [|wlp_step]].
  - wlp_go. eapply wlp_mono; [apply (Post_commit un); [done| |done..|]|].
    + by destruct (stable_write (ino s)).
    + by destruct (pending (dat s)).
    + intros [] s' (HP & Hb & _). cbv beta. wlp_go. done.
  - wlp_go. set (v := if stable_write (ino s) then _ else _) in *.
    assert (v ⊆ flushable (dat s) ∧ NoDup v) as [Hsub Hnd].
    { unfold v. destruct (stable_write (ino s)); [|by apply (first_run_sub un)].
      by pose proof (i_nodup _ _ HI) as [Hnd _]%NoDup_app. }
    eapply wlp_mono; [by apply (Post_sync un)|]. intros [] s' (HP & Hb & _). cbv beta. wlp_go.
    split; [done|]. intros _. apply Hb. by destruct v.
  - apply andb_true_iff in Heqb1 as [?%empty_true ?%empty_true]. wlp_go.
    eapply wlp_mono; [by apply (clear_running_spec un)|]. intros [] s' [HP Hr]. split; [done|congruence].
  - by wlp_go.
Qed.

(** The flush lock taken and given back. *)
Lemma Post_locked un t d s s' :
  is_flushing (ino s) = false → Post un t d (on_ino (set_lock true) s) s' →
  Post un t d s (on_ino (set_lock false) s').
Proof.
  intros Hl [[]]. by split.
Qed.

Lemma Inv_lock un b s : Inv un s → Inv un (on_ino (set_lock b) s).
Proof. intros []. split; done. Qed.

Lemma Post_flush_continue un s :
  Inv un s → wlp flush_continue s (λ _ s', Post un [] [] s s' ∧ (running (fc s') = true → busy s')).
Proof.
  intros HI0. unfold flush_continue, flush_lock, flush_unlock. wlp_go.
  assert (is_flushing (ino s) = false) as Hl by (by destruct (is_flushing (ino s))).
  pose proof (Inv_lock un true s HI0) as HI. set (s1 := on_ino (set_lock true) s) in *.
  pose proof HI as HI'. open_inv HI'.
  eapply (wlp_mono _ _ (λ _ s', Post un [] [] s1 s' ∧ (running (fc s') = true → busy s'))).
  2:{ intros [] s' [HP Hb]. wlp_go. split; [by apply Post_locked|done]. }
  wlp_step.
  - wlp_go. split; [by apply Post_refl|]. intros Hr. simpl in Hr. rewrite Hr in Heqb. simpl in Heqb.
    rewrite orb_false_r in Heqb. apply orb_true_iff in Heqb as [Hb|Hb]; [left|by right].
    by apply flushing_iff.
  - apply orb_false_iff in Heqb as [[Hb1 Hb2]%orb_false_iff Hb3].
    assert (inflight (dat s) = []) as Hin.
    { apply dec_stable. intros Hne. apply (flushing_iff s1) in Hne; [|done]. congruence. }
    wlp_go. apply Z.eqb_eq in H4. rewrite Hfg, Hin in H4. simpl in H4.
    assert (un = []) as Hu by (apply lsum_zero; [done|lia]).
    eapply wlp_mono; [by apply (run_ftgtq_spec un)|]. intros [] s2 (HP & Hd & Hi & _). cbv beta.
    eapply wlp_mono; [apply (Post_flush_next un); [apply HP|by rewrite Hd|done|by rewrite Hi]|].
    intros [] s3 [HP3 Hb]. split; [|done]. by apply (Post_trans un [] [] [] [] _ s2).
Qed.

Lemma Post_commit_continue un s :
  Inv un s → wlp commit_continue s (λ _ s', Post un [] [] s s' ∧ (running (fc s') = true → busy s' ∨ un ≠ [])).
Proof.
  intros HI0. unfold commit_continue, flush_lock, flush_unlock. wlp_go.
  assert (is_flushing (ino s) = false) as Hl by (by destruct (is_flushing (ino s))).
  pose proof (Inv_lock un true s HI0) as HI. set (s1 := on_ino (set_lock true) s) in *.
  eapply wlp_mono; [by apply (run_ctgtq_spec un)|]. intros [] s2 (HP2 & Hd & Hi & Hr & Hf & Hfd & Hfg' & Hq). cbv beta.
  pose proof (p_inv _ _ _ _ _ HP2) as HI2. wlp_go.
  eapply (wlp_mono _ _ (λ _ s', Post un [] [] s2 s' ∧ (running (fc s') = true → busy s' ∨ un ≠ []))).
  2:{ intros [] s' [HP Hb]. wlp_go. split; [|done]. apply Post_locked; [done|].
      by apply (Post_trans un [] [] [] [] _ s2). }
  wlp_step.
  - wlp_go. set (P := λ (v : list ext) (s' : sys), s' = s2 ∧ v ⊆ flushable (dat s2) ∧ NoDup v ∧
      (v = [] → stable_write (ino s2) = true ∧ flushable (dat s2) = [] ∧ ftgtq (fc s2) ≠ [])).
    eapply (wlp_mono _ _ P).
    { unfold P. wlp_step; wlp_go; split_and!; try done.
      - by pose proof (i_nodup _ _ HI2) as [Hnd _]%NoDup_app.
      - intros Hv. split_and!; [done..|]. destruct (ftgtq (fc s2)); [|done]. simpl in *.
        by rewrite H3 in Heqb.
      - by apply (first_run_sub un).
      - by apply (first_run_sub un).
      - intros Hv. by rewrite Hv in H3. }
    intros v ? (-> & Hsub & Hndv & Hv). cbv beta. wlp_go.
    eapply wlp_mono; [by apply (Post_sync un)|]. intros [] s' (HP & Hb & _). cbv beta. wlp_go.
    split; [done|]. intros _. destruct (decide (v = [])) as [Hnil|?]; [|left; by apply Hb].
    destruct (Hv Hnil) as (Hs & Hfe & Hfne). open_inv HI2. destruct (ftgtq (fc s2)) as [|g q]; [done|].
    apply Forall_cons in Hft as [Hg _]. rewrite Hfe in Hg. simpl in *. apply Z.ltb_lt in H1.
    destruct (decide (inflight (dat s2) = [])) as [Hin|Hin]; [right|left; apply HP; by left].
    intros ->. rewrite Hin in Hfg. simpl in *. lia.
  - apply orb_false_iff in Heqb as [He1%negb_false_iff%empty_true He2%negb_false_iff%empty_true]. wlp_go.
    open_inv HI2. apply negb_true_iff in H4, H5. apply Z.eqb_eq in H1.
    assert (inflight (dat s2) = []) as Hin.
    { apply dec_stable. intros Hne. apply (flushing_iff s2) in Hne; [|done]. congruence. }
    rewrite Hin in Hfg. simpl in Hfg.
    eapply wlp_mono; [apply (clear_running_spec un); try done; apply lsum_zero; [done|lia]|].
    intros [] s' [HP Hrn]. split; [done|congruence].
Qed.

(** An ensure handler under the flush lock. *)
Lemma Post_under_lock un t d s (m : MF ()) :
  (∀ s1, Inv un s1 → wlp m s1 (λ _ s', Post un t d s1 s')) → Inv un s →
  wlp (bind flush_lock (λ _, bind m (λ _, flush_unlock))) s
    (λ _ s', is_flushing (ino s) = false ∧ Post un t d s s').
Proof.
  intros Hm HI. unfold flush_lock, flush_unlock. wlp_go.
  assert (is_flushing (ino s) = false) as Hl by (by destruct (is_flushing (ino s))).
  eapply wlp_mono; [by apply Hm, Inv_lock|]. intros [] s' HP. cbv beta. wlp_go.
  split; [done|]. by apply Post_locked.
Qed.

Lemma Post_ensure_flush' un t d s :
  Inv un s → wlp (ensure_flush t d false) s (λ _ s', Post un (otl t) (otl d) s s').
Proof.
  intros HI. eapply wlp_mono; [by apply (Post_ensure_flush un)|]. by intros [] s' [? _].
Qed.

Section running.
Context (mde : Z) (Hmde : 0 ≤ mde < 2 ^ 63).

(** A write goes through the state machine: its task is answered or queued; if the
    flush lock is held it is answered at once or waits for the lock. *)
Lemma Post_run un i c f t s :
  Inv un s → wlp (run i c f mde t) s (λ _ s', Post un [t] [] s s' ∧ (is_flushing (ino s) = true → s' = answered [t] [] s)).
Proof.
  intros HI. unfold run. cbv zeta. wlp_step.
  { eapply wlp_mono; [apply reply_write_spec|]. intros [] s' ->. split; [by apply Post_answered|done]. }
  wlp_step.
  { eapply wlp_mono.
    - apply (Post_under_lock un (otl (Some t)) [] s (do s ← mget; if stable_write (ino s) then ensure_flush (Some t) None false
           else ensure_commit mde (Some t) None false)); [|done].
      intros s1 HI1. wlp_go. wlp_step; [by apply (Post_ensure_flush' un (Some t) None)|by apply (Post_ensure_commit mde Hmde un (Some t) None)].
    - intros [] s' [Hl HP]. split; [done|congruence]. }
  subst i. simpl in *. rename c into nc, f into nf. wlp_step.
  eapply (wlp_mono _ _ (λ _ s1, Post un [] [] s s1 ∧ (nc = true → is_flushing (ino s) = false))).
  { wlp_step; [|wlp_step; split; [by apply Post_refl|done]]. do 4 wlp_step.
    eapply wlp_mono; [apply (Post_under_lock un [] []); [|done]|]; [|by intros [] s' [? ?]].
    intros s1 HI1. wlp_step; [wlp_step; by apply Post_refl|by apply (Post_ensure_commit mde Hmde un None None)]. }
  intros [] s1 [HP1 Hl1]. cbv beta. wlp_step.
  eapply (wlp_mono _ _ (λ _ s2, Post un [] [] s s2 ∧ (nf = true → is_flushing (ino s) = false))).
  { wlp_step; [|wlp_step; split; done].
    eapply wlp_mono; [apply (Post_under_lock un [] []); [|apply HP1]|].
    - intros s2 HI2. by apply (Post_ensure_flush' un None None).
    - intros [] s2 [? ?]. split; [by apply (Post_trans un [] [] [] [] _ s1)|].
      intros _. by rewrite <- (p_lock _ _ _ _ _ HP1). }
  intros [] s2 [HP2 Hl2]. cbv beta. eapply wlp_mono; [apply reply_write_spec|]. intros [] s' ->.
  split; [eapply (Post_trans un [] [t] [] [] _ s2); [done|apply Post_answered, HP2]|].
  intros Hlk. rewrite Hlk in *. destruct nc; [by specialize (Hl1 eq_refl)|].
  by destruct nf; [specialize (Hl2 eq_refl)|].
Qed.

End running.

(** ** Waiting threads *)

(** What the thread that waits for a commit relies on. *)
Definition quiet (un : list Z) (s : sys) : Prop :=
  inflight (dat s) = [] ∧ un = [] ∧ (commit_in_progress (ino s) = false → pending (dat s) = []).

Lemma no_flush un s : Inv un s → is_flushing_in_progress s = false → inflight (dat s) = [].
Proof.
  intros HI Hf. pose proof (i_positive _ _ HI) as [_ [Hpi _]%Forall_app]%Forall_app.
  apply dec_stable. intros Hne. apply (flushing_iff s) in Hne; [congruence|done].
Qed.

Lemma Post_wait_start un s :
  Inv un s → (in_fc_callback (fc s) = 0 → un = []) →
  wlp wait_start s (λ b s', Post un [] [] s s' ∧ in_fc_callback (fc s) = 0 ∧ b = commit_in_progress (ino s') ∧ quiet un s').
Proof.
  intros HI Hun. unfold wait_start, assert_lock. wlp_go.
  apply andb_true_iff in H1 as [Hin%negb_true_iff Hcb%Z.eqb_eq]. specialize (Hun Hcb).
  apply (no_flush un) in Hin; [|done].
  pose proof (i_positive _ _ HI) as [_ [_ Hpp]%Forall_app]%Forall_app.
  eapply (wlp_mono _ _ (λ _ s', Post un [] [] s s' ∧ quiet un s')).
  2:{ intros [] s' [HP Hq]. wlp_go. done. }
  wlp_step.
  - wlp_go. assert (stable_write (ino s) = false) as Hs by (by destruct (stable_write (ino s))).
    apply Z.ltb_lt in Heqb. unfold get_bytes_to_commit in Heqb. wlp_step.
    + wlp_step. split; [by apply Post_refl|]. split_and!; [done|done|congruence].
    + eapply wlp_mono; [apply (Post_commit un); [done..|]|].
      { intros He. rewrite He in Heqb. simpl in *. lia. }
      intros [] s' (HP & _ & _ & _ & _ & _ & Hc). split; [done|].
      split_and!; [by apply (i_commit un s'); [apply HP|]|done|congruence].
  - wlp_step. split; [by apply Post_refl|]. split_and!; [done|done|]. intros _.
    apply bytes_zero; [done|]. apply Z.ltb_ge in Heqb. pose proof (bytes_nonneg _ Hpp).
    unfold get_bytes_to_commit in *. lia.
Qed.

Definition waiter_dones (w : waiter) : list nat := match w with FlushCache d => [d] | TruncateStart => [] end.

Lemma Post_ftgtq_cleanup un s : Inv un s → wlp ftgtq_cleanup s (λ _ s', Post un [] [] s s').
Proof.
  intros HI. unfold ftgtq_cleanup, assert_lock. wlp_go. eapply wlp_mono; [apply answer_all_spec|].
  intros [] s' ->. wlp_step. open_inv HI. split; simpl; try done; [| | |by left].
  - split; simpl; try done. intros Hr. by destruct (Hidle Hr) as (? & ? & ? & ?).
  - unfold all_tasks; simpl. by rewrite !omap_app, app_nil_r, <- !app_assoc.
  - unfold all_dones; simpl. by rewrite !omap_app, app_nil_r, <- !app_assoc.
Qed.

Lemma Post_after_wait mde un w s :
  0 ≤ mde < 2 ^ 63 →
  Inv un s → wlp (after_wait mde w) s (λ _ s', ∃ s1,
    Post un [] (waiter_dones w) s s1 ∧ s' = on_ino (set_lock false) s1).
Proof.
  intros Hmde HI. unfold after_wait, wait_finish. wlp_go. destruct w as [d|].
  - unfold flush_cache_targets, flush_unlock. wlp_go.
    eapply (wlp_mono _ _ (λ _ s', Post un [] [d] s s')).
    + wlp_step; [by apply (Post_ensure_flush' un None (Some d))|by apply (Post_ensure_commit mde Hmde un None (Some d))].
    + intros [] s' HP. wlp_go. eauto.
  - unfold truncate_targets, flush_unlock. wlp_go. eapply wlp_mono; [by apply (Post_ftgtq_cleanup un)|].
    intros [] s' HP. cbv beta. wlp_go. eauto.
Qed.

(** ** Completions *)

(** What a callback leaves alone. *)
Definition same_waiters (s s' : sys) : Prop :=
  is_flushing (ino s') = is_flushing (ino s) ∧ all_tasks s' = all_tasks s ∧ all_dones s' = all_dones s ∧
  running (fc s') = running (fc s) ∧ stable_write (ino s') = stable_write (ino s).

Lemma lsum_app l1 l2 : lsum (l1 ++ l2) = lsum l1 + lsum l2.
Proof. induction l1; simpl in *; lia. Qed.

Lemma lsum_delete l i n : l !! i = Some n → lsum l = n + lsum (delete i l).
Proof.
  revert i. induction l as [|m l IH]; intros [|i] Hi; simpl in *; simplify_eq; [done|].
  rewrite (IH _ Hi). unfold delete. lia.
Qed.

Lemma write_io_spec un a v b s :
  Inv un s → wlp (write_io_complete a v b) s (λ _ s',
    inflight (dat s) = a ++ v ++ b ∧ v ≠ [] ∧ Inv (un ++ [bytes v]) s' ∧
    in_fc_callback (fc s') = in_fc_callback (fc s) + 1 ∧ same_waiters s s' ∧
    commit_in_progress (ino s') = commit_in_progress (ino s) ∧ flushable (dat s') = flushable (dat s) ∧
    inflight (dat s') = a ++ b ∧ flushed_seq_num (fc s') = flushed_seq_num (fc s) ∧
    flushing_seq_num (fc s') = flushing_seq_num (fc s) ∧ ftgtq (fc s') = ftgtq (fc s) ∧
    ctgtq (fc s') = ctgtq (fc s) ∧ (stable_write (ino s) = true → pending (dat s') = pending (dat s)) ∧
    (weight s' + 3 ≤ weight s)%nat).
Proof.
  intros HI. unfold write_io_complete, fc_cb_enter. wlp_go.
  apply bool_decide_eq_true in H. assert (v ≠ []) as Hv by (by destruct v). open_inv HI. rewrite H in *.
  assert (bytes (a ++ v ++ b) = bytes v + bytes (a ++ b)) as Hb by (rewrite !bytes_app; lia).
  assert (0 < bytes v) as Hv0. { apply bytes_pos; [|done]. apply Forall_app in Hpin as [_ [? _]%Forall_app]. done. }
  assert (a ++ v ++ b ≠ []) as Hne by (by destruct a, v).
  assert (commit_in_progress (ino s) = false) as Hc.
  { destruct (commit_in_progress (ino s)); [|done]. by destruct (Hcip eq_refl). }
  assert (running (fc s) = true) as Hr.
  { destruct (running (fc s)); [done|]. by destruct (Hidle eq_refl) as (_ & _ & ? & _). }
  set (pe' := if stable_write (ino s) then pending (dat s) else _).
  assert (stable_write (ino s) = true → pe' = []) as Hpe1.
  { intros Hs. unfold pe'. rewrite Hs. by apply Hst. }
  assert (stable_write (ino s) = false → pe' ≡ₚ v ++ pending (dat s)) as Hpe2.
  { intros Hs. unfold pe'. rewrite Hs. apply insert_all_perm. }
  assert (flushable (dat s) ++ (a ++ b) ++ pe' ⊆+ flushable (dat s) ++ (a ++ v ++ b) ++ pending (dat s)) as Hall.
  { apply submseteq_skips_l. destruct (stable_write (ino s)) eqn:Hs.
    - rewrite Hpe1 by done. rewrite app_nil_r. rewrite <- !app_assoc. apply submseteq_skips_l.
      rewrite (Permutation_app_comm v), <- app_assoc. apply submseteq_inserts_r. done.
    - rewrite Hpe2 by done. apply Permutation_submseteq. rewrite <- !app_assoc.
      apply Permutation_app_head. by rewrite !app_assoc, (Permutation_app_comm b). }
  split_and!; try done; [|intros Hs; unfold pe'; by rewrite Hs|].
  2:{ unfold weight; simpl. fold pe'. rewrite H, !length_app. assert (0 < length v)%nat by (destruct v; [done|simpl; lia]).
      destruct (stable_write (ino s)) eqn:Hs; [rewrite Hpe1 by done; simpl; lia|].
      rewrite (Permutation_length (Hpe2 eq_refl)), length_app. lia. }
  apply submseteq_Permutation in Hall as [rest Hall]. unfold positive in Hpos. rewrite Hall in Hpos, Hnd.
  apply Forall_app in Hpos as [Hpos _]. apply NoDup_app in Hnd as [Hnd _].
  split; simpl; try done.
  - apply Forall_app; auto.
  - rewrite lsum_app. simpl. lia.
  - intros Hs. fold pe'. rewrite lsum_app. simpl. rewrite Hpe2, bytes_app by done. rewrite Hc in *.
    destruct (Hunst Hs). lia.
  - intros Hs. split_and!; auto; by apply Hst.
  - congruence.
  - congruence.
Qed.

Lemma write_account_spec un i n s :
  Inv un s → un !! i = Some n →
  wlp (write_account n) s (λ last s',
    Inv (delete i un) s' ∧ same_waiters s s' ∧ dat s' = dat s ∧
    in_fc_callback (fc s') = in_fc_callback (fc s) - (if last then 0 else 1) ∧
    last = negb (is_flushing_in_progress s) ∧
    commit_in_progress (ino s') = commit_in_progress (ino s) ∧ ftgtq (fc s') = ftgtq (fc s) ∧
    ctgtq (fc s') = ctgtq (fc s) ∧ flushing_seq_num (fc s') = flushing_seq_num (fc s)).
Proof.
  intros HI Hi. unfold write_account, flush_account, fc_cb_exit. wlp_go.
  set (b := is_flushing_in_progress _). set (s1 := on_fc _ s).
  assert (Inv (delete i un) s1) as HI1.
  { open_inv HI. pose proof (lsum_delete _ _ _ Hi) as Hd.
    assert (un ≠ []) as Hne by (by intros ->). assert (0 < n) by (by eapply Forall_lookup_1 in Hun).
    split; simpl; try done.
    - by apply Forall_delete.
    - lia.
    - lia.
    - intros Hs. destruct (Hunst Hs). split; lia.
    - intros Hc. by destruct (Hcip Hc) as (_ & ? & _).
    - intros Hr. by destruct (Hidle Hr) as (_ & _ & _ & ?). }
  assert (b = is_flushing_in_progress s) as Hb by done. clearbody b. subst b.
  destruct (is_flushing_in_progress s) eqn:Hf; simpl.
  - wlp_go. split_and!; try done. by destruct HI1; split.
  - wlp_go. split_and!; try done. simpl; lia.
Qed.

Lemma commit_callback_spec un s :
  Inv un s → wlp commit_callback s (λ _ s',
    Inv un s' ∧ same_waiters s s' ∧ in_fc_callback (fc s') = in_fc_callback (fc s) + 1 ∧
    commit_in_progress (ino s) = true ∧ commit_in_progress (ino s') = false ∧
    flushable (dat s') = flushable (dat s) ∧ inflight (dat s') = inflight (dat s) ∧ pending (dat s') = [] ∧
    pending (dat s) ≠ [] ∧ stable_write (ino s) = false ∧
    flushing_seq_num (fc s') = flushing_seq_num (fc s) ∧ ftgtq (fc s') = ftgtq (fc s) ∧ ctgtq (fc s') = ctgtq (fc s) ∧
    (weight s' + 3 ≤ weight s)%nat).
Proof.
  intros HI. unfold commit_callback, commit_account, fc_cb_enter, clear_commit_in_progress. wlp_go.
  apply negb_true_iff in H. apply Z.ltb_lt in H2. open_inv HI. rewrite H0 in *.
  destruct (Hcip eq_refl) as (Hin & -> & Hr). destruct (Hunst H) as [Hu1 Hu2]. simpl in *.
  assert (pending (dat s) ≠ []) as Hne.
  { intros He. unfold get_bytes_to_commit in H2. rewrite He in H2. simpl in *. lia. }
  split_and!; try done.
  2:{ unfold weight; simpl. rewrite H. destruct (pending (dat s)); [done|]. simpl. lia. }
  unfold get_bytes_to_commit in *. rewrite Hin in *. apply NoDup_app in Hnd as [Hnd _].
  split; simpl; rewrite ?Hin; simpl; rewrite ?app_nil_r; try done; try lia; congruence.
Qed.

(** ** Configurations *)
Record CInv (c : conf) : Prop := {
  c_inv : Inv (unaccounted c) (sys_of c);
  c_callbacks : in_fc_callback (fc (sys_of c)) = Z.of_nat (length (unaccounted c) + flush_waiting c + commit_waiting c);
  c_lock : is_flushing (ino (sys_of c)) = some (holder c);
  c_awake : running (fc (sys_of c)) = true →
    busy (sys_of c) ∨ (0 < length (unaccounted c) + flush_waiting c + commit_waiting c)%nat;
  c_holder : ∀ w, holder c = Some w →
    quiet (unaccounted c) (sys_of c) ∧ flush_waiting c = O ∧ stable_write (ino (sys_of c)) = false;
}.

Definition event_tasks (ev : event) : list nat := match ev with Run _ _ _ t => [t] | _ => [] end.
Definition event_dones (ev : event) : list nat := match ev with Wait w => waiter_dones w | _ => [] end.

Definition conf_tasks (c : conf) : list nat := all_tasks (sys_of c).
Definition conf_dones (c : conf) : list nat :=
  all_dones (sys_of c) ++ match holder c with Some w => waiter_dones w | None => [] end.

(** Completions and their continuations: everything but new requests. *)
Definition is_callback (ev : event) : bool :=
  match ev with Dirty _ | Run _ _ _ _ | Wait _ => false | _ => true end.

Definition conf_weight (c : conf) : nat :=
  (weight (sys_of c) + 2 * length (unaccounted c) + flush_waiting c + commit_waiting c + (if some (holder c) then 1 else 0))%nat.

(** What every event guarantees. *)
Definition step_ok (ev : event) (c c' : conf) : Prop :=
  CInv c' ∧ conf_tasks c' ≡ₚ conf_tasks c ++ event_tasks ev ∧ conf_dones c' ≡ₚ conf_dones c ++ event_dones ev ∧
  (is_callback ev = true → (conf_weight c' < conf_weight c)%nat) ∧
  (stable_write (ino (sys_of c)) = true → stable_write (ino (sys_of c')) = true).
