(* ===== verification/FcsmSteps.v ===== *)
(** * The flush-commit state machine: what holds in every execution

    Every event preserves the invariant, answers or queues each write task and each
    done flag exactly once, and never leaves a target waiting with nothing under way. *)
From S2P Require Import Prelude Fcsm FcsmInv.

Lemma Inv_dirty un e s : Inv un s → fresh e (dat s) = true → Inv un (add_dirty e s) ∧ total s ≤ total (add_dirty e s).
Proof.
  intros HI [[He%Z.ltb_lt He'%Z.leb_le]%andb_true_iff Hf%bool_decide_eq_true]%andb_true_iff. open_inv HI.
  pose proof (insert_ext_perm e (flushable (dat s))) as Hp.
  assert (bytes (insert_ext e (flushable (dat s))) = e.2 + bytes (flushable (dat s))) as Hb by (by rewrite Hp).
  split; [|unfold total; simpl; lia].
  split; simpl; try done; rewrite ?Hb.
  - unfold positive. rewrite Hp. by constructor.
  - rewrite Hp. simpl. by constructor.
  - eapply Forall_seq_mono, Hft. lia.
  - eapply Forall_seq_mono, Hct. lia.
Qed.

(** An operation that ran without a waiting thread. *)
Lemma CInv_post c t d s' :
  CInv c → Post (unaccounted c) t d (sys_of c) s' → holder c = None →
  CInv (Conf s' (unaccounted c) (flush_waiting c) (commit_waiting c) None).
Proof.
  intros [HI Hcb Hl Ha _] HP Hh. split; simpl; try done.
  - apply HP.
  - by rewrite (p_cb _ _ _ _ _ HP).
  - by rewrite (p_lock _ _ _ _ _ HP), Hl, Hh.
  - intros Hr. destruct (p_run _ _ _ _ _ HP Hr) as [Hr'|?]; [|by left].
    destruct (Ha Hr') as [?|?]; [left; by apply HP|by right].
Qed.

Section steps.
Context (mde : Z) (Hmde : 0 ≤ mde < 2 ^ 63).

Lemma step_dirty e c c' : CInv c → handle mde (Dirty e) c = Some c' → step_ok (Dirty e) c c'.
Proof.
  intros [HI Hcb Hl Ha Hh] Hev. unfold handle in Hev. destruct (fresh e (dat (sys_of c))) eqn:Hf; [|done].
  injection Hev as <-. unfold step_ok, conf_tasks, conf_dones; simpl. rewrite !app_nil_r.
  split_and!; [|done..]. split; simpl; try done. by apply Inv_dirty.
Qed.

Lemma step_run i cr fr t c c' : CInv c → handle mde (Run i cr fr t) c = Some c' → step_ok (Run i cr fr t) c c'.
Proof.
  intros HC Hev. unfold handle in Hev. destruct (run _ _ _ _ _ _) as [[[] s']|] eqn:Hrun; [|done].
  injection Hev as <-. apply (Post_run mde Hmde (unaccounted c)) in Hrun as [HP Hlk]; [|apply HC].
  unfold step_ok, conf_tasks, conf_dones; simpl.
  split_and!; [|apply HP|rewrite (p_dones _ _ _ _ _ HP); by rewrite !app_nil_r|done|apply HP].
  destruct (holder c) as [w|] eqn:Hh; [|by eapply CInv_post].
  destruct HC as [HI Hcb Hl Ha Hq]. rewrite Hh in Hl. rewrite (Hlk Hl) in *.
  split; simpl; try done; [apply HP|]. intros w' Hw'. rewrite <- Hh in Hw'. exact (Hq w' Hw').
Qed.

Lemma post_after_wait c w s0 s1 s' :
  CInv c → (holder c = Some w ∨ holder c = None) →
  Post (unaccounted c) [] [] (on_ino (set_lock true) (sys_of c)) s0 →
  Post (unaccounted c) [] (waiter_dones w) s0 s1 →
  s' = on_ino (set_lock false) s1 →
  CInv (Conf s' (unaccounted c) (flush_waiting c) (commit_waiting c) None) ∧
  all_tasks s' ≡ₚ all_tasks (sys_of c) ∧ all_dones s' ≡ₚ all_dones (sys_of c) ++ waiter_dones w ∧
  (weight s' ≤ weight (sys_of c))%nat ∧ (stable_write (ino (sys_of c)) = true → stable_write (ino s') = true).
Proof.
  intros HC Hh HP0 HP1 ->. pose proof (Post_trans _ [] [] [] _ _ _ _ HP0 HP1) as HP. simpl in HP.
  destruct HC as [HI Hcb Hl Ha Hq]. split_and!.
  - split; simpl; try done.
    + by apply Inv_lock, HP.
    + by rewrite (p_cb _ _ _ _ _ HP).
    + intros Hr. destruct (p_run _ _ _ _ _ HP Hr) as [Hr'|?]; [|by left].
      destruct (Ha Hr') as [Hb|?]; [left; by apply (p_busy _ _ _ _ _ HP)|by right].
  - rewrite <- (app_nil_r (all_tasks (sys_of c))). apply HP.
  - apply HP.
  - apply HP.
  - apply HP.
Qed.

Lemma step_wait w c c' : CInv c → handle mde (Wait w) c = Some c' → step_ok (Wait w) c c'.
Proof.
  intros HC Hev. unfold handle in Hev. destruct (bind _ _ (sys_of c)) as [[b s0]|] eqn:Hst; [|done].
  pose proof (c_inv _ HC) as HI. pose proof (c_callbacks _ HC) as Hcb. pose proof (c_lock _ HC) as Hl.
  assert (wlp (bind flush_lock (λ _, wait_start)) (sys_of c) (λ b s0, holder c = None ∧
    Post (unaccounted c) [] [] (on_ino (set_lock true) (sys_of c)) s0 ∧
    flush_waiting c = O ∧ b = commit_in_progress (ino s0) ∧ quiet (unaccounted c) s0)) as Hw.
  { unfold flush_lock. wlp_go.
    assert (holder c = None) as Hh by (destruct (holder c); [by rewrite Hl in H|done]).
    eapply wlp_mono; [apply (Post_wait_start (unaccounted c)); [by apply Inv_lock|]|].
    - intros Hz. simpl in Hz. destruct (unaccounted c); [done|]. simpl in *. lia.
    - intros b' s1 (HP & Hz & -> & Hq). simpl in Hz. split_and!; try done. lia. }
  destruct (Hw _ _ Hst) as (Hh & HP & Hfw & Hb & Hq).
  unfold step_ok, conf_tasks, conf_dones; simpl. rewrite Hh, !app_nil_r. destruct b.
  - injection Hev as <-. simpl. assert (stable_write (ino s0) = false) as Hs.
    { pose proof (i_stable _ _ (p_inv _ _ _ _ _ HP)) as His. destruct (stable_write (ino s0)); [|done].
      destruct (His eq_refl). congruence. }
    split_and!; [|by rewrite (p_tasks _ _ _ _ _ HP), app_nil_r|by rewrite (p_dones _ _ _ _ _ HP), app_nil_r|done|apply HP].
    split; simpl; try done.
    + apply HP.
    + by rewrite (p_cb _ _ _ _ _ HP).
    + by rewrite (p_lock _ _ _ _ _ HP).
    + intros _. left. by right.
  - destruct (after_wait mde w s0) as [[[] s2]|] eqn:Haw; [|done]. injection Hev as <-.
    apply (Post_after_wait mde (unaccounted c)) in Haw as (s1 & HP1 & ->); [|done|apply HP]. simpl.
    rewrite app_nil_r. edestruct (post_after_wait c w s0 s1) as (? & ? & ? & _ & ?); eauto 10; done.
Qed.

Lemma on_ino_lock_id s b : is_flushing (ino s) = b → on_ino (set_lock b) s = s.
Proof. intros <-. by destruct s as [? [] ? ?]. Qed.

Lemma step_wait_done c c' : CInv c → handle mde WaitDone c = Some c' → step_ok WaitDone c c'.
Proof.
  intros HC Hev. unfold handle in Hev. destruct (holder c) as [w|] eqn:Hh; [|done].
  destruct (after_wait _ _ _) as [[[] s']|] eqn:Haw; [|done]. injection Hev as <-.
  apply (Post_after_wait mde (unaccounted c)) in Haw as (s1 & HP1 & ->); [|done|apply HC].
  assert (on_ino (set_lock true) (sys_of c) = sys_of c) as Hlk.
  { apply on_ino_lock_id. by rewrite (c_lock _ HC), Hh. }
  edestruct (post_after_wait c w (sys_of c) s1) as (? & ? & Hd & Hw & ?); [done|by left| |done|done|].
  { rewrite Hlk. apply Post_refl, HC. }
  unfold step_ok, conf_tasks, conf_dones, conf_weight; simpl. rewrite Hh, !app_nil_r.
  split_and!; try done. intros _. simpl in *. lia.
Qed.

Lemma step_write_done a v b c c' :
  CInv c → handle mde (WriteDone a v b) c = Some c' → step_ok (WriteDone a v b) c c'.
Proof.
  intros [HI Hcb Hl Ha Hq] Hev. unfold handle in Hev.
  destruct (write_io_complete _ _ _ _) as [[[] s']|] eqn:Hio; [|done]. injection Hev as <-.
  apply (write_io_spec (unaccounted c)) in Hio
    as (Hin & Hv & HI' & Hcb' & (Hlk & Ht & Hd & Hr & Hs) & Hc & _ & _ & _ & _ & _ & _ & _ & Hwt); [|done].
  unfold step_ok, conf_tasks, conf_dones, conf_weight; simpl. rewrite Ht, Hd, !app_nil_r.
  split_and!; [|done..|rewrite length_app; simpl; lia|congruence].
  split; simpl; try done; rewrite ?length_app; simpl.
  - lia.
  - congruence.
  - intros _. right. lia.
  - intros w Hw. destruct (Hq w Hw) as [(Hin' & _) _]. by destruct a, v; rewrite Hin in Hin'.
Qed.

Lemma step_account i c c' : CInv c → handle mde (FlushAccount i) c = Some c' → step_ok (FlushAccount i) c c'.
Proof.
  intros [HI Hcb Hl Ha Hq] Hev. unfold handle in Hev. destruct (unaccounted c !! i) as [n|] eqn:Hi; [|done].
  destruct (write_account _ _) as [[last s']|] eqn:Hio; [|done]. injection Hev as <-.
  apply (write_account_spec (unaccounted c) i) in Hio
    as (HI' & (Hlk & Ht & Hd & Hr & Hs) & Hdat & Hcb' & Hlast & Hc & _); [|done..].
  assert (length (delete i (unaccounted c)) = length (unaccounted c) - 1)%nat as Hlen by (by eapply length_delete). apply lookup_lt_Some in Hi as Hlt.
  unfold step_ok, conf_tasks, conf_dones, conf_weight; simpl. rewrite Ht, Hd, !app_nil_r.
  split_and!; [|done..|unfold weight; rewrite Hdat, Hs; destruct last; lia|congruence].
  split; simpl; try done.
  - rewrite Hcb', Hcb. destruct last; lia.
  - congruence.
  - intros _. destruct last; [right; lia|]. left. left. rewrite Hdat.
    apply (flushing_iff (sys_of c)); [|by destruct (is_flushing_in_progress (sys_of c))].
    by pose proof (i_positive _ _ HI) as [_ [Hpi _]%Forall_app]%Forall_app.
  - intros w Hw. destruct (Hq w Hw) as [(_ & Hun & _) _]. by rewrite Hun in Hlt; simpl in Hlt; lia.
Qed.

Lemma step_commit_done c c' : CInv c → handle mde CommitDone c = Some c' → step_ok CommitDone c c'.
Proof.
  intros [HI Hcb Hl Ha Hq] Hev. unfold handle in Hev.
  destruct (commit_callback _) as [[[] s']|] eqn:Hio; [|done]. injection Hev as <-.
  apply (commit_callback_spec (unaccounted c)) in Hio
    as (HI' & (Hlk & Ht & Hd & Hr & Hs) & Hcb' & Hc & Hc' & Hfl & Hin & Hpe & _ & Hst & _ & _ & _ & Hwt); [|done].
  unfold step_ok, conf_tasks, conf_dones, conf_weight; simpl. rewrite Ht, Hd, !app_nil_r.
  split_and!; [|done..|lia|congruence].
  split; simpl; try done.
  - lia.
  - congruence.
  - intros _. right. lia.
  - intros w Hw. destruct (Hq w Hw) as ((? & ? & ?) & ? & ?). unfold quiet. rewrite Hin. split_and!; try done. congruence.
Qed.

(** A callback that got the flush lock and ended. *)
Lemma fc_cb_exit_spec s :
  wlp fc_cb_exit s (λ _ s', s' = on_fc (λ x, set_cb (in_fc_callback x - 1) x) s).
Proof. unfold fc_cb_exit. wlp_go. done. Qed.

Lemma step_continue (m : MF ()) c s' nf nc :
  CInv c →
  (∀ s, Inv (unaccounted c) s → wlp m s (λ _ s', Post (unaccounted c) [] [] s s' ∧
    (running (fc s') = true → busy s' ∨ unaccounted c ≠ []))) →
  wlp m (sys_of c) (λ _ _, holder c = None) →
  bind m (λ _, fc_cb_exit) (sys_of c) = Some ((), s') →
  (flush_waiting c + commit_waiting c = S (nf + nc))%nat →
  CInv (Conf s' (unaccounted c) nf nc (holder c)) ∧
  all_tasks s' ≡ₚ all_tasks (sys_of c) ∧ all_dones s' ≡ₚ all_dones (sys_of c) ∧
  (weight s' ≤ weight (sys_of c))%nat ∧ (stable_write (ino (sys_of c)) = true → stable_write (ino s') = true).
Proof.
  intros [HI Hcb Hl Ha Hq] Hm Hh Hrun Hn. unfold bind in Hrun.
  destruct (m (sys_of c)) as [[[] s1]|] eqn:Hms; [|done].
  apply fc_cb_exit_spec in Hrun as ->. specialize (Hh _ _ Hms). destruct (Hm _ HI _ _ Hms) as [HP Hb].
  split_and!.
  - split; simpl; try done.
    + destruct (p_inv _ _ _ _ _ HP); by split.
    + rewrite (p_cb _ _ _ _ _ HP). lia.
    + by rewrite (p_lock _ _ _ _ _ HP).
    + intros Hr. destruct (Hb Hr) as [?|Hu]; [by left|right]. destruct (unaccounted c); [done|]. simpl. lia.
    + intros w Hw. congruence.
  - rewrite <- (app_nil_r (all_tasks (sys_of c))). apply HP.
  - rewrite <- (app_nil_r (all_dones (sys_of c))). apply HP.
  - apply HP.
  - apply HP.
Qed.

Lemma needs_lock (k : () → MF ()) c : CInv c → wlp (bind flush_lock k) (sys_of c) (λ _ _, holder c = None).
Proof.
  intros HC. unfold flush_lock. wlp_go.
  assert (holder c = None) as Hh by (pose proof (c_lock _ HC) as Hl; destruct (holder c); [by rewrite Hl in H|done]).
  by intros ? ? _.
Qed.

Lemma step_flush_continue c c' : CInv c → handle mde FlushContinue c = Some c' → step_ok FlushContinue c c'.
Proof.
  intros HC Hev. unfold handle in Hev. destruct (flush_waiting c) as [|n] eqn:Hn; [done|].
  destruct (bind _ _ _) as [[[] s']|] eqn:Hrun; [|done]. injection Hev as <-.
  unfold step_ok, conf_tasks, conf_dones, conf_weight; simpl. rewrite !app_nil_r.
  eapply (step_continue flush_continue c s' n (commit_waiting c)) in Hrun as (HC' & -> & -> & Hw & ?); try done.
  - rewrite Hn. split_and!; try done. lia.
  - intros s HI. eapply wlp_mono; [by apply Post_flush_continue|]. intros [] s1 [? ?]. auto.
  - by apply needs_lock.
  - lia.
Qed.

Lemma step_commit_continue c c' : CInv c → handle mde CommitContinue c = Some c' → step_ok CommitContinue c c'.
Proof.
  intros HC Hev. unfold handle in Hev. destruct (commit_waiting c) as [|n] eqn:Hn; [done|].
  destruct (bind _ _ _) as [[[] s']|] eqn:Hrun; [|done]. injection Hev as <-.
  unfold step_ok, conf_tasks, conf_dones, conf_weight; simpl. rewrite !app_nil_r.
  eapply (step_continue commit_continue c s' (flush_waiting c) n) in Hrun as (HC' & -> & -> & Hw & ?); try done.
  - rewrite Hn. split_and!; try done. lia.
  - intros s HI. by apply Post_commit_continue.
  - by apply needs_lock.
  - lia.
Qed.

Lemma step_event ev c c' : CInv c → handle mde ev c = Some c' → step_ok ev c c'.
Proof.
  destruct ev.
  - apply step_dirty.
  - apply step_run.
  - apply step_wait.
  - apply step_wait_done.
  - apply step_write_done.
  - apply step_account.
  - apply step_flush_continue.
  - apply step_commit_done.
  - apply step_commit_continue.
Qed.

Lemma conf0_ok stable : CInv (conf0 stable).
Proof.
  split; simpl; try done. split; simpl; try done; try (intros; lia); try by destruct stable.
  all: by constructor.
Qed.

Definition tasks_of (evs : list event) : list nat := mjoin (event_tasks <$> evs).
Definition dones_of (evs : list event) : list nat := mjoin (event_dones <$> evs).

Lemma execution evs c c' :
  CInv c → handle_all mde evs c = Some c' →
  CInv c' ∧ conf_tasks c' ≡ₚ conf_tasks c ++ tasks_of evs ∧ conf_dones c' ≡ₚ conf_dones c ++ dones_of evs.
Proof.
  revert c. induction evs as [|ev evs IH]; intros c HC Hrun; simpl in Hrun.
  - injection Hrun as <-. unfold tasks_of, dones_of; simpl. by rewrite !app_nil_r.
  - destruct (handle mde ev c) as [c1|] eqn:Hev; [|done].
    destruct (step_event _ _ _ HC Hev) as (HC1 & Ht1 & Hd1 & _). destruct (IH _ HC1 Hrun) as (? & Ht & Hd).
    split_and!; [done| |]; unfold tasks_of, dones_of in *; simpl.
    + by rewrite Ht, Ht1, <- app_assoc.
    + by rewrite Hd, Hd1, <- app_assoc.
Qed.
End steps.

(** ** Properties of executions *)

Section executions.
Context (mde : Z) (Hmde : 0 ≤ mde < 2 ^ 63).

Lemma reached stable evs c :
  handle_all mde evs (conf0 stable) = Some c →
  CInv c ∧ conf_tasks c ≡ₚ tasks_of evs ∧ conf_dones c ≡ₚ dones_of evs.
Proof.
  intros Hrun. apply (execution mde Hmde) in Hrun; [done|apply conf0_ok].
Qed.

(** C16: in every execution, whatever the interleaving of writes, callbacks and waiting
    threads, the sequence numbers of the state machine are exact: the bytes issued for
    flush are those flushed, those under write and those whose callback has not yet
    accounted them; the bytes flushed are those committed and those waiting for a commit
    as long as writes are unstable.  Nothing is under write during a commit, nothing waits
    for a commit once writes are stable, and a stopped machine has no target queued and
    nothing under way. *)
Theorem fcsm_accounting stable evs c :
  handle_all mde evs (conf0 stable) = Some c →
  let x := fc (sys_of c) in let i := ino (sys_of c) in let d := dat (sys_of c) in
  flushing_seq_num x = flushed_seq_num x + bytes (inflight d) + lsum (unaccounted c) ∧
  0 ≤ committed_seq_num x ≤ committing_seq_num x ∧ committing_seq_num x ≤ flushed_seq_num x ≤ flushing_seq_num x ∧
  (stable_write i = false → flushed_seq_num x + lsum (unaccounted c) = committed_seq_num x + bytes (pending d)) ∧
  (commit_in_progress i = true → inflight d = [] ∧ running x = true) ∧
  (stable_write i = true → commit_in_progress i = false ∧ pending d = [] ∧ ctgtq x = []) ∧
  (running x = false → ftgtq x = [] ∧ ctgtq x = [] ∧ inflight d = []).
Proof.
  intros Hrun x i d. destruct (reached _ _ _ Hrun) as (HC & _ & _).
  pose proof (Inv_ordered _ _ (c_inv _ HC)) as Ho. open_inv (c_inv _ HC). subst x i d.
  destruct Ho as (? & ? & _). split_and!; try done; try lia; intros Hb.
  - by apply Hunst.
  - by destruct (Hcip Hb) as (? & ? & ?).
  - by destruct (Hidle Hb) as (? & ? & ? & ?).
Qed.

(** C31: no write is lost and none is answered twice: in every execution the writes handed
    to the state machine are exactly those answered and those waiting in a queue, and the
    done flags are exactly those set, those waiting in a queue and the one of the thread
    that waits with the flush lock. *)
Theorem fcsm_answers_once stable evs c :
  handle_all mde evs (conf0 stable) = Some c →
  let q := ftgtq (fc (sys_of c)) ++ ctgtq (fc (sys_of c)) in
  replied (ans (sys_of c)) ++ omap task q ≡ₚ tasks_of evs ∧
  signalled (ans (sys_of c)) ++ omap done q ++
    match holder c with Some w => waiter_dones w | None => [] end ≡ₚ dones_of evs.
Proof.
  intros Hrun q. destruct (reached _ _ _ Hrun) as (_ & Ht & Hd). split; [done|].
  rewrite <- Hd. unfold conf_dones, all_dones. by rewrite app_assoc.
Qed.

(** C24: the machine never stalls: once no write and no commit is under way, no callback
    is running and no thread waits, the machine has stopped, every write was answered
    and every done flag is set. *)
Theorem fcsm_never_stalls stable evs c :
  handle_all mde evs (conf0 stable) = Some c →
  inflight (dat (sys_of c)) = [] → commit_in_progress (ino (sys_of c)) = false →
  unaccounted c = [] → flush_waiting c = O → commit_waiting c = O → holder c = None →
  running (fc (sys_of c)) = false ∧
  replied (ans (sys_of c)) ≡ₚ tasks_of evs ∧ signalled (ans (sys_of c)) ≡ₚ dones_of evs.
Proof.
  intros Hrun Hin Hc Hun Hfw Hcw Hh. destruct (reached _ _ _ Hrun) as (HC & Ht & Hd).
  assert (running (fc (sys_of c)) = false) as Hr.
  { destruct (running (fc (sys_of c))) eqn:Hr; [|done]. destruct (c_awake _ HC Hr) as [[?|?]|Hlt]; [done|congruence|].
    rewrite Hun, Hfw, Hcw in Hlt. simpl in Hlt. lia. }
  split; [done|]. unfold conf_tasks, conf_dones, all_tasks, all_dones in *. rewrite Hh in Hd.
  destruct (i_idle _ _ (c_inv _ HC) Hr) as (Hf & Hcq & _). rewrite Hf, Hcq in *. simpl in *.
  rewrite ?app_nil_r in Ht. rewrite ?app_nil_r in Hd. done.
Qed.

(** C32: without new requests the callbacks run only finitely often: from any reachable
    configuration at most [conf_weight c] completions and continuations can happen. *)
Theorem fcsm_callbacks_terminate stable evs c evs' c' :
  handle_all mde evs (conf0 stable) = Some c →
  handle_all mde evs' c = Some c' → Forall (λ ev, is_callback ev = true) evs' →
  (length evs' + conf_weight c' ≤ conf_weight c)%nat.
Proof.
  intros Hrun. destruct (reached _ _ _ Hrun) as (HC & _ & _). clear Hrun. revert c HC.
  induction evs' as [|ev evs' IH]; intros c HC Hrun Hcb; simpl in *.
  - by injection Hrun as <-.
  - destruct (handle mde ev c) as [c1|] eqn:Hev; [|done]. apply Forall_cons in Hcb as [Hev' Hcb].
    destruct (step_event mde Hmde _ _ _ HC Hev) as (HC1 & _ & _ & Hw & _). specialize (Hw Hev').
    specialize (IH _ HC1 Hrun Hcb). lia.
Qed.
End executions.
