(* ===== verification/FcsmStable.v ===== *)
(** * The flush-commit state machine: files with stable writes

    Once a file uses stable writes there is nothing to commit: a flush of the whole file
    is a flush target for all the dirty data.  Here: what [flush_cache_and_wait()] promises
    its caller is kept ([flush_cache_durable]), and no handler aborts ([stable_progress]). *)
From S2P Require Import Prelude Fcsm FcsmInv FcsmSteps.

(** ** What the handlers do for stable writes *)
Definition flush_target (s : sys) : Z :=
  Z.max (flushing_seq_num (fc s) + bytes (flushable (dat s))) (front_flush_seq (ftgtq (fc s))).

Definition queued (t d : option nat) (n : Z) (s : sys) : sys :=
  on_fc (λ x, set_ftgtq (ftgtq x ++ [Fctgt n 0 t d false]) x) s.

(** The state after [ensure_flush()]. *)
Definition ensured (t d : option nat) (s : sys) : sys :=
  if running (fc s) then
    if negb (some t) && negb (some d) && (flush_target s =? front_flush_seq (ftgtq (fc s))) then s
    else queued t d (flush_target s) s
  else if flush_target s =? flushed_seq_num (fc s) then answered (otl t) (otl d) s
  else queued t d (flush_target s) (synced (flushable (dat s)) s).

Lemma sync_stable un v s :
  Inv un s → stable_write (ino s) = true → v ⊆ flushable (dat s) → NoDup v →
  wlp (sync_membufs v) s (λ _ s', s' = synced v s).
Proof.
  intros HI Hs Hsub Hnd. eapply wlp_mono; [by apply (sync_spec un)|].
  intros [] s' (_ & _ & s1 & -> & [->|(Hns & _)]); congruence.
Qed.

Lemma Inv_flushable un s : Inv un s → NoDup (flushable (dat s)).
Proof. intros HI. by pose proof (i_nodup _ _ HI) as [? _]%NoDup_app. Qed.

Lemma ensure_flush_ensured un t d s :
  Inv un s → stable_write (ino s) = true →
  wlp (ensure_flush t d false) s (λ _ s', s' = ensured t d s).
Proof.
  intros HI Hs. unfold ensure_flush, assert_lock, ensured. wlp_go.
  eapply wlp_mono; [apply ensure_checks_spec|]. intros [] ? [-> _]. cbv beta. wlp_go.
  change (Z.max _ _) with (flush_target s). wlp_step.
  - wlp_go. wlp_step; [by wlp_step|]. apply ftgtq_emplace_spec.
  - wlp_go. wlp_step; [apply answer_spec|]. wlp_go.
    unfold pick_flush. wlp_go. rewrite Hs. wlp_go.
    eapply wlp_mono; [apply (sync_stable un); [done..|by eapply Inv_flushable]|].
    intros [] s1 ->. cbv beta. wlp_go. apply ftgtq_emplace_spec.
Qed.

(** ** The promise to a waiting thread

    [D] is the data that was dirty when the thread with flag [d] called
    [flush_cache_and_wait()]: its target is still queued and asks for more bytes than are
    issued as long as some of [D] is not issued, or all of [D] is written. *)
Definition promised (D : list ext) (d : nat) (s : sys) : Prop :=
  (∃ g, g ∈ ftgtq (fc s) ∧ done g = Some d ∧
    ((∃ e, e ∈ D ∧ e ∈ flushable (dat s)) → flushing_seq_num (fc s) < flush_seq g)) ∨
  (∀ e, e ∈ D → e ∉ flushable (dat s) ∧ e ∉ inflight (dat s)).

Lemma promised_mono D d s s' :
  promised D d s → flushable (dat s') = flushable (dat s) → inflight (dat s') ⊆ inflight (dat s) →
  flushing_seq_num (fc s') = flushing_seq_num (fc s) → ftgtq (fc s) ⊆ ftgtq (fc s') → promised D d s'.
Proof.
  intros HK Hf Hi Hs Hq. unfold promised. rewrite Hf, Hs. destruct HK as [(g & ? & ? & ?)|HK]; [left|right].
  - exists g. set_solver.
  - intros e He. destruct (HK e He). set_solver.
Qed.

Lemma promised_synced D d s : promised D d s → promised D d (synced (flushable (dat s)) s).
Proof.
  intros [(g & ? & ? & ?)|HK]; [left|right]; simpl; rewrite without_all.
  - exists g. split_and!; [done..|]. set_solver.
  - intros e He. destruct (HK e He). set_solver.
Qed.

Lemma promised_ensured un D d t d' s :
  Inv un s → promised D d s → promised D d (ensured t d' s).
Proof.
  intros HI HK. unfold ensured. destruct (running (fc s)) eqn:Hr.
  - destruct (_ && _); [done|]. eapply promised_mono; [done..|]. simpl. set_solver.
  - destruct (_ =? _); [done|]. apply promised_synced in HK.
    eapply promised_mono; [exact HK|done..|]. simpl. set_solver.
Qed.

Lemma bytes_in e v : positive v → e ∈ v → 0 < bytes v.
Proof. intros Hv He. apply bytes_pos; [done|]. intros ->. set_solver. Qed.

Lemma promise_made un d s :
  Inv un s → promised (flushable (dat s) ++ inflight (dat s)) d (ensured None (Some d) s).
Proof.
  intros HI. open_inv HI. unfold ensured. destruct (running (fc s)) eqn:Hr; simpl.
  - left. exists (Fctgt (flush_target s) 0 None (Some d) false). simpl. split_and!; [set_solver|done|].
    intros (e & _ & He). apply bytes_in in He; [|done]. unfold flush_target. lia.
  - destruct (Hidle eq_refl) as (Hq & _ & Hin & Hu). destruct (Z.eqb_spec (flush_target s) (flushed_seq_num (fc s))) as [Ht|Ht].
    + right. simpl. assert (flushable (dat s) = []) as ->; [|rewrite Hin; set_solver].
      apply bytes_zero; [done|]. unfold flush_target in Ht. rewrite Hfg, Hin, Hu in Ht. simpl in Ht. lia.
    + left. exists (Fctgt (flush_target s) 0 None (Some d) false). simpl. rewrite without_all.
      split_and!; [set_solver|done|]. set_solver.
Qed.

Lemma promised_lock D d b s : promised D d (on_ino (set_lock b) s) ↔ promised D d s.
Proof. done. Qed.

(** ** The continuations keep it *)
Lemma stable_parts un s : Inv un s → stable_write (ino s) = true →
  commit_in_progress (ino s) = false ∧ pending (dat s) = [] ∧ ctgtq (fc s) = [].
Proof. intros HI. apply HI. Qed.

Lemma flush_next_keeps un D d s :
  Inv un s → stable_write (ino s) = true → inflight (dat s) = [] → promised D d s →
  wlp flush_next s (λ _ s', promised D d s').
Proof.
  intros HI Hs Hin HK. destruct (stable_parts _ _ HI Hs) as (Hc & Hp & Hq).
  unfold flush_next. wlp_go. rewrite Hq. simpl. wlp_step; [|wlp_step].
  - rewrite Hs. wlp_go. eapply wlp_mono; [apply (sync_stable un); [done..|by eapply Inv_flushable]|].
    intros [] s' ->. cbv beta. wlp_go. by apply promised_synced.
  - unfold clear_running, assert_lock. wlp_go. done.
  - by wlp_go.
Qed.

Lemma run_ftgtq_keeps un D d s :
  Inv un s → inflight (dat s) = [] → flushed_seq_num (fc s) = flushing_seq_num (fc s) → promised D d s →
  wlp run_ftgtq s (λ _ s', promised D d s').
Proof.
  intros HI Hin Hfl HK. unfold run_ftgtq. wlp_go. eapply wlp_mono; [apply complete_targets_spec|].
  intros q2 ? (q1 & Hq & Hq1 & _ & ->). cbv beta. wlp_go. destruct HK as [(g & Hg & Hd & Hlt)|HK]; [|by right].
  rewrite Hq in Hg. apply elem_of_app in Hg as [Hg|Hg]; [right|left; eauto].
  simpl. rewrite Hin. intros e He. split; [|set_solver]. intros Hef. rewrite Forall_forall in Hq1.
  apply Hq1, Z.leb_le in Hg. specialize (Hlt (ex_intro _ e (conj He Hef))). lia.
Qed.

Lemma flush_continue_keeps un D d s :
  Inv un s → stable_write (ino s) = true → promised D d s → wlp flush_continue s (λ _ s', promised D d s').
Proof.
  intros HI0 Hs HK. unfold flush_continue, flush_lock, flush_unlock. wlp_go.
  pose proof (Inv_lock un true s HI0) as HI. set (s1 := on_ino (set_lock true) s) in *.
  eapply (wlp_mono _ _ (λ _ s', promised D d s')); [|intros [] s' ?; wlp_go; done].
  wlp_step; [wlp_go; done|]. apply orb_false_iff in Heqb as [[Hb1 Hb2]%orb_false_iff Hb3].
  apply (no_flush un) in Hb1; [|done]. wlp_go. apply Z.eqb_eq in H0.
  intros [] s2 Hrun. pose proof (run_ftgtq_keeps un D d s1 HI Hb1 H0 HK _ _ Hrun) as HK2. simpl in HK2.
  destruct (run_ftgtq_spec un s1 HI _ _ Hrun) as (HP & Hd2 & Hi2 & _).
  apply (flush_next_keeps un); [apply HP| | |done]; [by rewrite Hi2|by rewrite Hd2].
Qed.

Lemma commit_continue_keeps un D d s :
  Inv un s → stable_write (ino s) = true → promised D d s → wlp commit_continue s (λ _ s', promised D d s').
Proof.
  intros HI0 Hs HK. unfold commit_continue, flush_lock, flush_unlock. wlp_go.
  pose proof (Inv_lock un true s HI0) as HI. set (s1 := on_ino (set_lock true) s) in *.
  intros [] s2 Hrun. destruct (run_ctgtq_spec un s1 HI _ _ Hrun) as (HP & Hd2 & Hi2 & _ & Hf2 & _ & Hfl2 & _).
  assert (promised D d s2) as HK2 by (eapply promised_mono; [exact HK|by rewrite Hd2..|done|by rewrite Hf2]).
  pose proof (p_inv _ _ _ _ _ HP) as HI2. cbv beta. wlp_go.
  eapply (wlp_mono _ _ (λ _ s', promised D d s')); [|intros [] s' ?; wlp_go; done].
  wlp_step.
  - wlp_go. rewrite Hi2. simpl. rewrite Hs. wlp_go.
    eapply wlp_mono; [apply (sync_stable un); [done|by rewrite Hi2|done|by eapply Inv_flushable]|].
    intros [] s' ->. cbv beta. wlp_go. by apply promised_synced.
  - unfold clear_running, assert_lock. wlp_go. done.
Qed.

Lemma run_keeps mde un D d i c f t s :
  Inv un s → stable_write (ino s) = true → promised D d s → wlp (run i c f mde t) s (λ _ s', promised D d s').
Proof.
  intros HI Hs HK. unfold run. cbv zeta. wlp_step; [eapply wlp_mono; [apply reply_write_spec|]; by intros [] ? ->|].
  assert (∀ t, wlp (bind flush_lock (λ _, bind (ensure_flush t None false) (λ _, flush_unlock))) s (λ _ s', promised D d s')) as Hef.
  { intros t'. unfold flush_lock, flush_unlock. wlp_go. pose proof (Inv_lock un true s HI) as HI1.
    eapply wlp_mono; [by apply (ensure_flush_ensured un)|]. intros [] s' ->. cbv beta. wlp_go.
    apply promised_lock. by apply (promised_ensured un). }
  wlp_step.
  - unfold flush_lock, flush_unlock. wlp_go. cbn [ino on_ino stable_write set_lock]. rewrite Hs. pose proof (Inv_lock un true s HI) as HI1.
    eapply wlp_mono; [by apply (ensure_flush_ensured un)|]. intros [] s' ->. cbv beta. wlp_go.
    apply promised_lock. by apply (promised_ensured un).
  - wlp_step. eapply (wlp_mono _ _ (λ _ s', s' = s)).
    { wlp_step; [|by wlp_step]. wlp_go. by rewrite Hs in H. }
    intros [] ? ->. cbv beta. wlp_step. eapply (wlp_mono _ _ (λ _ s', promised D d s')).
    { wlp_step; [apply Hef|by wlp_step]. }
    intros [] s' HK'. cbv beta. eapply wlp_mono; [apply reply_write_spec|]. by intros [] ? ->.
Qed.

(** ** Executions keep it *)
Section executions.
Context (mde : Z) (Hmde : 0 ≤ mde < 2 ^ 63).

(** A thread that starts to wait when writes are stable goes on at once. *)
Lemma wait_start_stable un s :
  Inv un s → stable_write (ino s) = true →
  wlp wait_start s (λ b s', b = false ∧ s' = s ∧ inflight (dat s) = [] ∧ in_fc_callback (fc s) = 0).
Proof.
  intros HI Hs. destruct (stable_parts _ _ HI Hs) as (Hc & Hp & Hq). unfold wait_start, assert_lock. wlp_go.
  apply andb_true_iff in H1 as [Hin%negb_true_iff Hcb%Z.eqb_eq]. apply (no_flush un) in Hin; [|done].
  eapply (wlp_mono _ _ (λ _ s', s' = s)).
  - wlp_step; [wlp_go; by rewrite Hs in H1|by wlp_step].
  - intros [] ? ->. wlp_go. done.
Qed.

Lemma wait_promised c w s' D d :
  CInv c → stable_write (ino (sys_of c)) = true → inflight (dat (sys_of c)) = [] →
  in_fc_callback (fc (sys_of c)) = 0 →
  after_wait mde w (on_ino (set_lock true) (sys_of c)) = Some ((), s') →
  (promised D d (sys_of c) → promised D d s') ∧
  (w = FlushCache d → promised (flushable (dat (sys_of c)) ++ inflight (dat (sys_of c))) d s').
Proof.
  intros HC Hs Hin Hcb. set (s1 := on_ino (set_lock true) (sys_of c)).
  pose proof (Inv_lock _ true _ (c_inv _ HC)) as HI. change (on_ino _ _) with s1 in HI.
  assert (ftgtq (fc (sys_of c)) = []) as Hq.
  { apply (i_idle _ _ (c_inv _ HC)). destruct (running (fc (sys_of c))) eqn:Hr; [|done].
    pose proof (c_callbacks _ HC) as Hn. destruct (c_awake _ HC Hr) as [[?|Hc]|?]; [done| |lia].
    destruct (stable_parts _ _ (c_inv _ HC) Hs). congruence. }
  revert s'. enough (wlp (after_wait mde w) s1 (λ _ s', (promised D d (sys_of c) → promised D d s') ∧
    (w = FlushCache d → promised (flushable (dat (sys_of c)) ++ inflight (dat (sys_of c))) d s'))) as Hw by (intros s' ?; by apply (Hw ())).
  unfold after_wait, wait_finish. wlp_go. destruct w as [d'|].
  - unfold flush_cache_targets, flush_unlock. wlp_go. cbn [s1 ino on_ino stable_write set_lock]. rewrite Hs.
    eapply wlp_mono; [by apply (ensure_flush_ensured (unaccounted c))|]. intros [] s' ->. cbv beta. wlp_go.
    split; [intros HK; apply promised_lock; by apply (promised_ensured (unaccounted c))|].
    intros [= ->]. apply promised_lock. by apply (promise_made (unaccounted c) d s1).
  - unfold truncate_targets, ftgtq_cleanup, assert_lock, flush_unlock. wlp_go.
    cbn [s1 fc on_ino]. rewrite Hq. simpl. wlp_go. split; [|done].
    intros [(g & Hg & _)|HK]; [rewrite Hq in Hg; set_solver|by right].
Qed.

Lemma step_wait_stable w c c' :
  CInv c → stable_write (ino (sys_of c)) = true → handle mde (Wait w) c = Some c' →
  inflight (dat (sys_of c)) = [] ∧ in_fc_callback (fc (sys_of c)) = 0 ∧
  after_wait mde w (on_ino (set_lock true) (sys_of c)) = Some ((), sys_of c').
Proof.
  intros HC Hs Hev. unfold handle in Hev. destruct (bind _ _ (sys_of c)) as [[b s0]|] eqn:Hst; [|done].
  assert (wlp (bind flush_lock (λ _, wait_start)) (sys_of c) (λ b s0, b = false ∧
    s0 = on_ino (set_lock true) (sys_of c) ∧ inflight (dat (sys_of c)) = [] ∧ in_fc_callback (fc (sys_of c)) = 0)) as Hw.
  { unfold flush_lock. wlp_go. eapply wlp_mono; [apply (wait_start_stable (unaccounted c)); [apply Inv_lock, HC|exact Hs]|]. done. }
  destruct (Hw _ _ Hst) as (-> & -> & Hin & Hcb).
  destruct (after_wait _ _ _) as [[[] s']|] eqn:Ha; [|done]. by injection Hev as <-.
Qed.

Lemma promised_step D d ev c c' :
  CInv c → stable_write (ino (sys_of c)) = true → promised D d (sys_of c) →
  (∀ e, ev = Dirty e → e ∉ D) → handle mde ev c = Some c' → promised D d (sys_of c').
Proof.
  intros HC Hs HK Hdirty Hev. pose proof (c_inv _ HC) as HI. destruct ev.
  - simpl in Hev. destruct (fresh _ _); [|done]. injection Hev as <-. specialize (Hdirty e eq_refl).
    destruct HK as [(g & ? & ? & Hlt)|HK]; [left|right]; simpl.
    + exists g. split_and!; [done..|]. intros (e' & He' & Hin). rewrite insert_ext_perm in Hin.
      apply elem_of_cons in Hin as [->|Hin]; [done|]. eauto.
    + intros e' He'. destruct (HK e' He'). rewrite insert_ext_perm. set_solver.
  - simpl in Hev. destruct (run _ _ _ _ _ _) as [[[] s']|] eqn:Hrun; [|done]. injection Hev as <-.
    by apply (run_keeps mde (unaccounted c) D d) in Hrun.
  - destruct (step_wait_stable _ _ _ HC Hs Hev) as (Hin & Hcb & Ha). by apply (wait_promised c w (sys_of c') D d).
  - simpl in Hev. destruct (holder c) as [w|] eqn:Hh; [|done].
    destruct (c_holder _ HC w Hh) as (_ & _ & Hns). congruence.
  - simpl in Hev. destruct (write_io_complete _ _ _ _) as [[[] s']|] eqn:Hrun; [|done]. injection Hev as <-. simpl.
    apply (write_io_spec (unaccounted c)) in Hrun; [|done].
    destruct Hrun as (Hin & _ & _ & _ & _ & _ & Hf & Hi & _ & Hfl & Hq & _).
    eapply promised_mono; [done|done| |done|by rewrite Hq]. rewrite Hi, Hin. set_solver.
  - simpl in Hev. destruct (_ !! _) as [n|] eqn:Hn; [|done].
    destruct (write_account _ _) as [[l s']|] eqn:Hrun; [|done]. injection Hev as <-. simpl.
    apply (write_account_spec (unaccounted c) i) in Hrun; [|done..].
    destruct Hrun as (_ & _ & Hd & _ & _ & _ & Hq & _ & Hfl).
    eapply promised_mono; [done|by rewrite Hd..|done|by rewrite Hq].
  - simpl in Hev. destruct (flush_waiting c); [done|].
    destruct (bind _ _ _) as [[[] s']|] eqn:Hrun; [|done]. injection Hev as <-. simpl.
    unfold bind in Hrun. destruct (flush_continue _) as [[[] s1]|] eqn:Hfc; [|done].
    apply fc_cb_exit_spec in Hrun as ->. by apply (flush_continue_keeps (unaccounted c) D d) in Hfc.
  - simpl in Hev. destruct (commit_callback _) as [[[] s']|] eqn:Hrun; [|done].
    apply (commit_callback_spec (unaccounted c)) in Hrun; [|done].
    destruct Hrun as (_ & _ & _ & _ & _ & _ & _ & _ & _ & Hns & _). congruence.
  - simpl in Hev. destruct (commit_waiting c); [done|].
    destruct (bind _ _ _) as [[[] s']|] eqn:Hrun; [|done]. injection Hev as <-. simpl.
    unfold bind in Hrun. destruct (commit_continue _) as [[[] s1]|] eqn:Hfc; [|done].
    apply fc_cb_exit_spec in Hrun as ->. by apply (commit_continue_keeps (unaccounted c) D d) in Hfc.
Qed.

Lemma promised_execution D d evs c c' :
  CInv c → stable_write (ino (sys_of c)) = true → promised D d (sys_of c) →
  (∀ e, Dirty e ∈ evs → e ∉ D) → handle_all mde evs c = Some c' → promised D d (sys_of c').
Proof.
  revert c. induction evs as [|ev evs IH]; intros c HC Hs HK Hdirty Hrun; simpl in Hrun.
  - by injection Hrun as <-.
  - destruct (handle mde ev c) as [c1|] eqn:Hev; [|done].
    destruct (step_event mde Hmde _ _ _ HC Hev) as (HC1 & _ & _ & _ & Hs1).
    eapply (IH c1); [done|auto| | |done].
    + apply (promised_step D d ev c c1); try done. intros e ->. apply Hdirty. by left.
    + intros e He. apply Hdirty. by right.
Qed.
End executions.

Lemma handle_all_app mde evs1 evs2 c c' :
  handle_all mde (evs1 ++ evs2) c = Some c' ↔
  ∃ c1, handle_all mde evs1 c = Some c1 ∧ handle_all mde evs2 c1 = Some c'.
Proof.
  revert c. induction evs1 as [|ev evs1 IH]; intros c; simpl; [naive_solver|].
  destruct (handle mde ev c); [apply IH|naive_solver].
Qed.

(** C5: when [flush_cache_and_wait()] of a file with stable writes returns, all the data
    that was dirty when it was called is written: in every execution, once the flag of the
    call is set no range that was dirty at the call is dirty or under write any more (ranges
    the application writes again after the call are new data). *)
Theorem flush_cache_durable mde stable evs0 c0 d c1 evs c :
  0 ≤ mde < 2 ^ 63 →
  handle_all mde evs0 (conf0 stable) = Some c0 → stable_write (ino (sys_of c0)) = true →
  handle mde (Wait (FlushCache d)) c0 = Some c1 → handle_all mde evs c1 = Some c →
  (∀ e, Dirty e ∈ evs → e ∉ flushable (dat (sys_of c0))) →
  NoDup (dones_of (evs0 ++ Wait (FlushCache d) :: evs)) →
  d ∈ signalled (ans (sys_of c)) →
  ∀ e, e ∈ flushable (dat (sys_of c0)) → e ∉ flushable (dat (sys_of c)) ∧ e ∉ inflight (dat (sys_of c)).
Proof.
  intros Hmde H0 Hs H1 H2 Hdirty Hnd Hsig.
  destruct (reached mde Hmde _ _ _ H0) as (HC0 & _ & _).
  destruct (step_event mde Hmde _ _ _ HC0 H1) as (HC1 & _ & _ & _ & Hs1). specialize (Hs1 Hs).
  destruct (step_wait_stable mde _ _ _ HC0 Hs H1) as (Hin & Hcb & Ha).
  destruct (wait_promised mde Hmde c0 _ (sys_of c1) [] d HC0 Hs Hin Hcb Ha) as [_ HK]. specialize (HK eq_refl).
  rewrite Hin, app_nil_r in HK.
  apply (promised_execution mde Hmde _ _ evs c1 c) in HK; [|done..].
  assert (handle_all mde (evs0 ++ Wait (FlushCache d) :: evs) (conf0 stable) = Some c) as Hall.
  { apply handle_all_app. exists c0. split; [done|]. cbn [handle_all]. by rewrite H1. }
  destruct (reached mde Hmde _ _ _ Hall) as (_ & _ & Hd). rewrite <- Hd in Hnd.
  unfold conf_dones, all_dones in Hnd. apply NoDup_app in Hnd as [[_ [Hx _]]%NoDup_app _].
  destruct HK as [(g & Hg & Hdg & _)|HK]; [|done]. exfalso. apply (Hx d Hsig).
  apply list_elem_of_omap. exists g. split; [|done]. apply elem_of_app. by left.
Qed.
