(* ===== verification/FcsmProgress.v ===== *)
(** * The flush-commit state machine: no handler aborts for stable writes

    Every assertion of the handlers holds, in every reachable configuration of a file with
    stable writes, when a flush callback takes the flush lock only after the other
    finished writes were accounted ([can_happen]); and whatever the order of the callbacks,
    the machine drains. *)
From S2P Require Import Prelude Fcsm FcsmInv FcsmSteps FcsmStable.

(** [m] runs from [s] without an assertion failing. *)
Abbreviation runs m s := (wp m s (λ _ _, True)).

Lemma wp_use {S A} (m : M S A) s (Q : A → S → Prop) : runs m s → wlp m s Q → wp m s Q.
Proof. intros (a & s' & Hm & _) HQ. exists a, s'. split; [done|]. by apply HQ. Qed.

Lemma wp_call {S A} (m : M S A) s (Q Q' : A → S → Prop) :
  runs m s → wlp m s Q → (∀ a s', Q a s' → Q' a s') → wp m s Q'.
Proof. intros Hm HQ HQ'. eapply wp_mono; [by apply wp_use|done]. Qed.

Lemma runs_bind {S A B} (m : M S A) (k : A → M S B) s (Q : A → S → Prop) :
  runs m s → wlp m s Q → (∀ a s', Q a s' → runs (k a) s') → runs (bind m k) s.
Proof. intros Hm HQ Hk. apply wp_bind. eapply wp_mono; [by apply wp_use|]. simpl. auto. Qed.

(** Steps over the next instruction; assertions are left to prove. *)
Ltac runs_go := repeat wp_step; try done.

Definition exclusive (t d : option nat) : Prop := t = None ∨ d = None.

Lemma not_done_true d s : (∀ x, d = Some x → x ∉ signalled (ans s)) → not_done d s = true.
Proof. intros Hd. destruct d as [x|]; [|done]. simpl. rewrite bool_decide_false by (by apply Hd). done. Qed.

Lemma answer_runs t d s : exclusive t d → (∀ x, d = Some x → x ∉ signalled (ans s)) → runs (answer t d) s.
Proof.
  intros Hex Hd. unfold answer, reply_write, signal. destruct t as [k|], d as [x|]; runs_go.
  - by destruct Hex.
  - rewrite bool_decide_false by (by apply Hd). done.
Qed.

Lemma complete_runs reached q s :
  Forall (λ g, exclusive (task g) (done g)) q → NoDup (signalled (ans s) ++ omap done q) →
  runs (complete_targets reached q) s.
Proof.
  revert s. induction q as [|g q IH]; intros s Hex Hnd; simpl; [runs_go|].
  apply Forall_cons in Hex as [Hg Hex]. destruct (reached g); [|runs_go].
  eapply runs_bind; [apply answer_runs|apply answer_spec|]; [done| |].
  - intros x Hx Hin. simpl in Hnd. rewrite Hx in Hnd. apply NoDup_app in Hnd as (_ & Hd & _).
    apply (Hd x Hin). by left.
  - intros [] s' ->. apply IH; [done|]. simpl in Hnd |- *. destruct (done g); simpl; [by rewrite <- app_assoc|].
    by rewrite app_nil_r.
Qed.

Lemma emplace_runs f t d s :
  f ≠ 0 → (∀ x, d = Some x → x ∉ signalled (ans s)) → runs (ftgtq_emplace f 0 t d false) s.
Proof.
  intros Hf Hd. unfold ftgtq_emplace, fctgt_new. runs_go.
  - destruct (Z.eqb_spec f 0); [done|]. done.
  - by apply not_done_true.
Qed.

Lemma max_file : 0 ≤ AZNFSC_MAX_FILE_SIZE.
Proof. unfold AZNFSC_MAX_FILE_SIZE, AZNFSC_MAX_BLOCK_SIZE. lia. Qed.

Lemma sync_runs un v s :
  Inv un s → stable_write (ino s) = true → is_flushing (ino s) = true → v ⊆ flushable (dat s) → NoDup v →
  runs (sync_membufs v) s.
Proof.
  intros HI Hs Hl Hsub Hnd. destruct (stable_parts _ _ HI Hs) as (Hc & _).
  assert (positive v) as Hpv.
  { apply Forall_forall. intros e He. pose proof (i_positive _ _ HI) as Hp.
    eapply Forall_forall in Hp; [done|]. set_solver. }
  unfold sync_membufs, assert_lock. runs_go; [by rewrite Hs|by rewrite Hc|].
  destruct v as [|[o l] v']; [runs_go|]. unfold check_stable_write_required, assert_lock. runs_go.
  - apply Forall_cons in Hpv as [[Hl1 Hl2] _]. simpl in *. apply Z.leb_le. lia.
  - rewrite Hs. runs_go. exists (), (synced ((o, l) :: v') s). split; [|done].
    apply sync_each; [done|by eapply Inv_ordered|done..].
Qed.

Lemma ensure_checks_runs un t d s :
  Inv un s → exclusive t d → (∀ x, d = Some x → x ∉ signalled (ans s)) → stable_write (ino s) = true →
  runs (ensure_checks t d) s.
Proof.
  intros HI Hex Hd Hs. open_inv HI. unfold ensure_checks. runs_go.
  - by destruct Hex as [-> | ->]; [|destruct t].
  - by apply not_done_true.
  - destruct (running (fc s)); [done|]. by destruct (Hidle eq_refl) as (-> & -> & _).
  - destruct (running (fc s)); [done|]. destruct (Hidle eq_refl) as (_ & _ & Hin & Hu).
    simpl. apply Z.eqb_eq. rewrite Hin, Hu in Hfg. simpl in Hfg. lia.
  - destruct (running (fc s)); [done|]. simpl. apply Z.eqb_eq. symmetry. apply Hcing. by apply Hst.
Qed.

Lemma ensure_flush_runs un t d s :
  Inv un s → stable_write (ino s) = true → is_flushing (ino s) = true →
  exclusive t d → (∀ x, d = Some x → x ∉ signalled (ans s)) → runs (ensure_flush t d false) s.
Proof.
  intros HI Hs Hl Hex Hd. pose proof (flush_target_bound _ _ HI) as Hb. pose proof (Inv_ordered _ _ HI) as (Ho & Ho' & _).
  pose proof HI as HI'. open_inv HI'. unfold ensure_flush, assert_lock. runs_go.
  eapply wp_call; [by apply (ensure_checks_runs un)|apply ensure_checks_spec|]. intros [] ? [-> _]. cbv beta.
  runs_go; [by apply Z.leb_le|]. destruct (running (fc s)) eqn:Hr.
  - runs_go.
    + destruct Hftg as [|g q [_ Hg] _]; [done|]. simpl. apply andb_true_iff. split; [apply Z.leb_le; lia|by apply Z.eqb_eq].
    + destruct (_ && _); [runs_go|]. apply emplace_runs; [|done]. specialize (Hstart eq_refl).
      unfold get_bytes_to_flush. lia.
  - destruct (Hidle eq_refl) as (Hq & Hcq & Hin & Hu). rewrite Hin, Hu in Hfg. simpl in Hfg.
    runs_go; [apply Z.eqb_eq; lia|apply Z.leb_le; unfold get_bytes_to_flush; lia|].
    destruct (Z.eqb_spec (Z.max (flushing_seq_num (fc s) + get_bytes_to_flush s) (front_flush_seq (ftgtq (fc s))))
      (flushed_seq_num (fc s))) as [Ht|Ht]; [by apply answer_runs|].
    rewrite Hq in *. unfold get_bytes_to_flush in *. simpl in *.
    assert (0 < bytes (flushable (dat s))) as Hpos0 by lia.
    unfold pick_flush. runs_go. rewrite Hs. runs_go; [apply Z.leb_le; unfold get_bytes_to_flush; lia| | |].
    + destruct (Z.eqb_spec (bytes (flushable (dat s))) 0); [lia|]. by destruct (flushable (dat s)).
    + by apply Z.ltb_lt.
    + eapply wp_call; [apply (sync_runs un); [done..|by eapply Inv_flushable]|
        apply (sync_stable un); [done..|by eapply Inv_flushable]|]. intros [] s1 ->. cbv beta. runs_go.
      * destruct (flushable (dat s)); [simpl in *; lia|done].
      * by apply Z.eqb_eq.
      * apply Z.leb_le. simpl. lia.
      * apply emplace_runs; [lia|done].
Qed.

Lemma run_ftgtq_runs un s : Inv un s → NoDup (all_dones s) → stable_write (ino s) = true → runs run_ftgtq s.
Proof.
  intros HI Hnd Hs. destruct (stable_parts _ _ HI Hs) as (_ & _ & Hq). unfold run_ftgtq. runs_go.
  eapply wp_mono; [apply complete_runs|].
  - eapply Forall_impl; [apply (i_ftargets _ _ HI)|]. by intros g [? _].
  - unfold all_dones in Hnd. by rewrite Hq, app_nil_r in Hnd.
  - intros q s' _. runs_go.
Qed.

Lemma u64_le x : 0 ≤ x → u64 x ≤ x.
Proof. intros. by apply Z.mod_le. Qed.

(** After the targets reached so far were completed. *)
Lemma flush_next_runs un s :
  Inv un s → stable_write (ino s) = true → is_flushing (ino s) = true → running (fc s) = true →
  inflight (dat s) = [] → flushed_seq_num (fc s) = flushing_seq_num (fc s) →
  (∀ g q, ftgtq (fc s) = g :: q → flushed_seq_num (fc s) < flush_seq g) → runs flush_next s.
Proof.
  intros HI Hs Hl Hr Hin Hfl Hfront. destruct (stable_parts _ _ HI Hs) as (Hc & _ & Hq).
  pose proof HI as HI'. open_inv HI'. unfold flush_next. runs_go. rewrite Hq. simpl.
  destruct (ftgtq (fc s)) as [|g q] eqn:Hft'; simpl.
  - runs_go; [apply Z.leb_le; lia|unfold is_flushing_in_progress; by rewrite Hin|by rewrite Hc|].
    unfold clear_running, assert_lock. runs_go.
  - specialize (Hfront g q eq_refl). apply Forall_cons in Hft as [Hg _].
    destruct (Z.ltb_spec (flushing_seq_num (fc s)) (flush_seq g)) as [Hlt|]; [|lia]. simpl. rewrite Hs.
    assert (0 < bytes (flushable (dat s))) as Hpos0 by lia. runs_go.
    + destruct (flushable (dat s)); [simpl in *; lia|done].
    + apply Z.leb_le. pose proof (u64_le (flush_seq g `max` 0 - flushing_seq_num (fc s))). lia.
    + apply Z.leb_le. lia.
    + eapply wp_call; [apply (sync_runs un); [done..|by eapply Inv_flushable]|
        apply (sync_stable un); [done..|by eapply Inv_flushable]|]. intros [] s1 ->. cbv beta. runs_go.
      by apply Z.eqb_eq.
Qed.

Lemma flush_continue_runs s :
  Inv [] s → stable_write (ino s) = true → is_flushing (ino s) = false → NoDup (all_dones s) →
  runs flush_continue s.
Proof.
  intros HI0 Hs Hl Hnd. unfold flush_continue, flush_lock, flush_unlock. runs_go; [by rewrite Hl|].
  pose proof (Inv_lock [] true s HI0) as HI. set (s1 := on_ino (set_lock true) s) in *.
  eapply (wp_call _ _ (λ _ s', is_flushing (ino s') = true)); [| |by intros [] s' Hl'; runs_go].
  - destruct (_ || _) eqn:Hb; [|apply orb_false_iff in Hb as [[Hb1 Hb2]%orb_false_iff Hb3%negb_false_iff]].
    + apply wp_assert; [|done]. destruct (running (fc s1)) eqn:Hr; [done|]. by rewrite (proj1 (i_idle _ _ HI Hr)).
    + apply (no_flush []) in Hb1; [|done]. pose proof (i_flushing _ _ HI) as Hfg. rewrite Hb1 in Hfg. simpl in Hfg.
      runs_go; [apply Z.eqb_eq; simpl; lia|]. eapply wp_call; [by apply (run_ftgtq_runs [])|by apply (run_ftgtq_spec [])|].
      intros [] s2 (HP & Hd & Hi & Hr & _ & Hfd & Hfl & Hfront).
      apply (flush_next_runs []); [apply HP|by rewrite Hi..|by rewrite Hr|by rewrite Hd| |done].
      rewrite Hfd, Hfl. simpl. lia.
  - wlp_step; [wlp_go; done|]. apply orb_false_iff in Heqb as [[Hb1 Hb2]%orb_false_iff Hb3%negb_false_iff].
    apply (no_flush []) in Hb1; [|done]. wlp_go.
    eapply wlp_mono; [by apply (run_ftgtq_spec [])|]. intros [] s2 (HP & Hd & Hi & _). cbv beta.
    eapply wlp_mono; [apply (Post_flush_next []); [apply HP|by rewrite Hd|done|by rewrite Hi]|].
    intros [] s3 [HP3 _]. by rewrite (p_lock _ _ _ _ _ HP3), (p_lock _ _ _ _ _ HP).
Qed.

Lemma ensure_under_lock un t d s :
  Inv un s → stable_write (ino s) = true → is_flushing (ino s) = false →
  exclusive t d → (∀ x, d = Some x → x ∉ signalled (ans s)) →
  runs (bind flush_lock (λ _, bind (ensure_flush t d false) (λ _, flush_unlock))) s.
Proof.
  intros HI Hs Hl Hex Hd. pose proof (Inv_lock un true s HI) as HI1.
  unfold flush_lock, flush_unlock. runs_go; [by rewrite Hl|].
  eapply wp_call; [by apply (ensure_flush_runs un)|by apply (Post_ensure_flush' un)|].
  intros [] s' HP. cbv beta. runs_go. by rewrite (p_lock _ _ _ _ _ HP).
Qed.

Lemma reply_runs t s : runs (reply_write t) s.
Proof. unfold reply_write. runs_go. Qed.

Lemma run_runs mde un i f t s :
  Inv un s → stable_write (ino s) = true → is_flushing (ino s) = false → runs (run i false f mde t) s.
Proof.
  intros HI Hs Hl. unfold run. cbv zeta. rewrite andb_false_r. destruct (_ && _); [apply reply_runs|].
  destruct i; simpl.
  - pose proof (Inv_lock un true s HI) as HI1. unfold flush_lock, flush_unlock. runs_go; [by rewrite Hl|].
    cbn [ino on_ino stable_write set_lock]. rewrite Hs.
    eapply wp_call; [apply (ensure_flush_runs un); try done; by right|by apply (Post_ensure_flush' un)|].
    intros [] s' HP. cbv beta. runs_go. by rewrite (p_lock _ _ _ _ _ HP).
  - runs_go. destruct f; [|runs_go; apply reply_runs].
    eapply wp_mono; [apply (ensure_under_lock un); try done; by right|]. intros [] s' _. apply reply_runs.
Qed.

(** ** Progress *)

(** The events that can happen to a file with stable writes: the cache asks for no commit,
    a thread that waits goes on when no write is under way and no callback runs, and a
    flush callback takes the flush lock when all finished writes are accounted. *)
Definition can_happen (ev : event) (c : conf) : Prop :=
  let s := sys_of c in
  match ev with
  | Dirty e => fresh e (dat s) = true
  | Run _ cr _ _ => cr = false
  | Wait _ => inflight (dat s) = [] ∧ in_fc_callback (fc s) = 0
  | WriteDone a v b => inflight (dat s) = a ++ v ++ b ∧ v ≠ []
  | FlushAccount i => (i < length (unaccounted c))%nat
  | FlushContinue => flush_waiting c ≠ O ∧ unaccounted c = []
  | _ => False
  end.

Section progress.
Context (mde : Z) (Hmde : 0 ≤ mde < 2 ^ 63).

Lemma wait_runs c w :
  CInv c → stable_write (ino (sys_of c)) = true → inflight (dat (sys_of c)) = [] →
  in_fc_callback (fc (sys_of c)) = 0 → NoDup (conf_dones c ++ waiter_dones w) →
  ∃ c', handle mde (Wait w) c = Some c'.
Proof.
  intros HC Hs Hin Hcb Hnd. pose proof (c_inv _ HC) as HI. destruct (stable_parts _ _ HI Hs) as (Hc & Hp & Hq).
  assert (holder c = None) as Hh.
  { destruct (holder c) as [w'|] eqn:Hh; [|done]. destruct (c_holder _ HC _ Hh) as (_ & _ & ?). congruence. }
  pose proof (c_lock _ HC) as Hl. rewrite Hh in Hl. simpl in Hl.
  assert (running (fc (sys_of c)) = false) as Hr.
  { destruct (running (fc (sys_of c))) eqn:Hr; [|done].
    pose proof (c_callbacks _ HC) as Hn. destruct (c_awake _ HC Hr) as [[?|?]|?]; [done|congruence|lia]. }
  set (s1 := on_ino (set_lock true) (sys_of c)). assert (Inv (unaccounted c) s1) as HI1 by (by apply Inv_lock).
  assert (runs (bind flush_lock (λ _, wait_start)) (sys_of c)) as (b & s0 & Hrun & _).
  { unfold flush_lock, wait_start, assert_lock. runs_go.
    - by rewrite Hl.
    - simpl. by rewrite Hc, Hp, orb_true_r.
    - unfold is_flushing_in_progress. simpl. by rewrite Hin, Hcb.
    - unfold get_bytes_to_commit. simpl. rewrite Hp. simpl. runs_go. simpl. by rewrite Hc. }
  assert (wlp (bind flush_lock (λ _, wait_start)) (sys_of c) (λ b s0, b = false ∧ s0 = s1)) as Hw.
  { unfold flush_lock. wlp_go. eapply wlp_mono; [apply (wait_start_stable (unaccounted c)); [done|exact Hs]|].
    by intros ? ? (? & ? & _). }
  destruct (Hw _ _ Hrun) as [-> ->].
  assert (runs (after_wait mde w) s1) as (x & s2 & Ha & _).
  { unfold after_wait, wait_finish. runs_go.
    - simpl. by rewrite Hc.
    - unfold is_flushing_in_progress. simpl. by rewrite Hin.
    - destruct w as [d|].
      + unfold flush_cache_targets, flush_unlock. runs_go. cbn [s1 ino on_ino stable_write set_lock]. rewrite Hs.
        eapply wp_call; [apply (ensure_flush_runs (unaccounted c)); try done; [by left|]|by apply (Post_ensure_flush' (unaccounted c))|].
        * intros x [= <-] Hx. simpl in Hnd. apply NoDup_app in Hnd as (_ & Hd & _). apply (Hd d); [|by left].
          unfold conf_dones, all_dones. rewrite !elem_of_app. by left; left.
        * intros [] s' HP. cbv beta. runs_go. by rewrite (p_lock _ _ _ _ _ HP).
      + unfold truncate_targets, ftgtq_cleanup, assert_lock, flush_unlock. runs_go. cbn [s1 fc on_ino].
        destruct (i_idle _ _ HI Hr) as (-> & _). simpl. runs_go. }
  eexists. unfold handle. rewrite Hrun. rewrite Ha. by destruct x.
Qed.

Lemma progress ev c :
  CInv c → stable_write (ino (sys_of c)) = true → NoDup (conf_dones c ++ event_dones ev) → can_happen ev c →
  ∃ c', handle mde ev c = Some c'.
Proof.
  intros HC Hs Hdn Hev. pose proof (c_inv _ HC) as HI. destruct (stable_parts _ _ HI Hs) as (Hc & Hp & Hq).
  assert (is_flushing (ino (sys_of c)) = false) as Hl.
  { rewrite (c_lock _ HC). destruct (holder c) as [w|] eqn:Hh; [|done].
    destruct (c_holder _ HC _ Hh) as (_ & _ & ?). congruence. }
  pose proof (Inv_ordered _ _ HI) as (Ho & Ho' & _). pose proof (c_callbacks _ HC) as Hcb.
  assert (NoDup (all_dones (sys_of c))) as Hdn2.
  { unfold conf_dones in Hdn. by apply NoDup_app in Hdn as [[? _]%NoDup_app _]. }
  destruct ev as [e|i cr f t|w| |a v b|i| | |]; simpl in Hev; try done.
  - eexists. simpl. by rewrite Hev.
  - subst cr. destruct (run_runs mde (unaccounted c) i f t (sys_of c)) as (x & s' & Hrun & _); [done..|].
    eexists. simpl. by rewrite Hrun.
  - destruct Hev. by apply wait_runs.
  - destruct Hev as [Hin Hv]. assert (runs (write_io_complete a v b) (sys_of c)) as (x & s' & Hrun & _).
    { unfold write_io_complete, fc_cb_enter. runs_go; [by apply bool_decide_eq_true|by destruct v]. }
    eexists. simpl. by rewrite Hrun.
  - destruct (lookup_lt_is_Some_2 _ _ Hev) as [n Hn].
    assert (runs (write_account n) (sys_of c)) as (x & s' & Hrun & _).
    { open_inv HI. assert (0 < n) as Hn0 by (by eapply Forall_lookup_1 in Hun).
      pose proof (lsum_delete _ _ _ Hn). pose proof (lsum_nonneg _ (Forall_delete _ _ i Hun)).
      unfold write_account, flush_account, fc_cb_exit. runs_go.
      - by apply Z.eqb_eq.
      - by apply Z.ltb_lt.
      - apply Z.ltb_lt. lia.
      - by rewrite Hc.
      - apply Z.leb_le. lia.
      - apply Z.leb_le. lia.
      - apply Z.leb_le. lia.
      - apply Z.leb_le. simpl. lia.
      - destruct (negb _); runs_go. apply Z.ltb_lt. simpl. lia. }
    eexists. simpl. rewrite Hn, Hrun. done.
  - destruct Hev as [Hfw Hun]. destruct (flush_waiting c) as [|n] eqn:Hn; [done|]. rewrite Hun in *.
    assert (runs (bind flush_continue (λ _, fc_cb_exit)) (sys_of c)) as (x & s' & Hrun & _).
    { eapply runs_bind; [by apply flush_continue_runs|by apply (Post_flush_continue [])|].
      intros [] s' [HP _]. unfold fc_cb_exit. runs_go. apply Z.ltb_lt. rewrite (p_cb _ _ _ _ _ HP). lia. }
    eexists. simpl. rewrite Hn, Hrun. by destruct x.
Qed.

(** A file opened for stable writes never has a commit to wait for. *)
Lemma stable_from_start evs c :
  handle_all mde evs (conf0 true) = Some c → stable_write (ino (sys_of c)) = true ∧ commit_waiting c = O.
Proof.
  enough (∀ c0, CInv c0 → stable_write (ino (sys_of c0)) = true → commit_waiting c0 = O →
    handle_all mde evs c0 = Some c → stable_write (ino (sys_of c)) = true ∧ commit_waiting c = O) as H.
  { intros Hrun. by apply (H _ (conf0_ok true)). }
  induction evs as [|ev evs IH]; intros c0 HC Hs Hcw Hrun; simpl in Hrun; [by injection Hrun as <-|].
  destruct (handle mde ev c0) as [c1|] eqn:Hev; [|done].
  destruct (step_event mde Hmde _ _ _ HC Hev) as (HC1 & _ & _ & _ & Hs1). apply (IH c1); auto.
  unfold handle in Hev. destruct ev; repeat case_match; simplify_eq; try done.
  apply (commit_callback_spec (unaccounted c0)) in H; [|apply HC].
  destruct H as (_ & _ & _ & _ & _ & _ & _ & _ & _ & ? & _). congruence.
Qed.

(** The callbacks of the writes under way, in any state: an event that can happen next. *)
Lemma next_callback c :
  CInv c → stable_write (ino (sys_of c)) = true → commit_waiting c = O →
  (∃ ev, is_callback ev = true ∧ can_happen ev c ∧ event_dones ev = []) ∨
  (inflight (dat (sys_of c)) = [] ∧ unaccounted c = [] ∧ flush_waiting c = O).
Proof.
  intros HC Hs Hcw. destruct (decide (inflight (dat (sys_of c)) = [])) as [Hin|Hin].
  2:{ left. exists (WriteDone [] (inflight (dat (sys_of c))) []). simpl. by rewrite app_nil_r. }
  destruct (unaccounted c) as [|n un] eqn:Hun.
  2:{ left. exists (FlushAccount 0). simpl. rewrite Hun. simpl. split_and!; [done|lia|done]. }
  destruct (flush_waiting c) as [|n] eqn:Hfw; [by right|]. left. exists FlushContinue. simpl. by rewrite Hun, Hfw.
Qed.

(** Where no callback is left the machine has stopped and everything was answered. *)
Lemma drained c :
  CInv c → stable_write (ino (sys_of c)) = true → commit_waiting c = O →
  inflight (dat (sys_of c)) = [] → unaccounted c = [] → flush_waiting c = O →
  running (fc (sys_of c)) = false ∧ replied (ans (sys_of c)) ≡ₚ conf_tasks c ∧ signalled (ans (sys_of c)) ≡ₚ conf_dones c.
Proof.
  intros HC Hs Hcw Hin Hun Hfw. destruct (stable_parts _ _ (c_inv _ HC) Hs) as (Hc & _ & _).
  assert (running (fc (sys_of c)) = false) as Hr.
  { destruct (running (fc (sys_of c))) eqn:Hr; [|done].
    destruct (c_awake _ HC Hr) as [[?|?]|Hlt]; [done|congruence|]. rewrite Hun, Hfw, Hcw in Hlt. simpl in Hlt. lia. }
  destruct (i_idle _ _ (c_inv _ HC) Hr) as (Hfq & Hcq & _).
  assert (holder c = None) as Hh.
  { destruct (holder c) as [w'|] eqn:Hh; [|done]. destruct (c_holder _ HC _ Hh) as (_ & _ & ?). congruence. }
  unfold conf_tasks, conf_dones, all_tasks, all_dones. rewrite Hfq, Hcq, Hh. simpl. by rewrite !app_nil_r.
Qed.

(** A run of callbacks. *)
Lemma callbacks_run evs' : ∀ c c',
  CInv c → handle_all mde evs' c = Some c' → Forall (λ ev, is_callback ev = true) evs' →
  (length evs' + conf_weight c' ≤ conf_weight c)%nat ∧ tasks_of evs' = [] ∧ dones_of evs' = [].
Proof.
  induction evs' as [|ev evs' IH]; intros c c' HC Hrun Hcb; simpl in *; [injection Hrun as <-; split_and!; (done || lia)|].
  destruct (handle mde ev c) as [c1|] eqn:Hev; [|done]. apply Forall_cons in Hcb as [Hev' Hcb].
  destruct (step_event mde Hmde _ _ _ HC Hev) as (HC1 & _ & _ & Hw & _). specialize (Hw Hev').
  destruct (IH _ _ HC1 Hrun Hcb) as (? & Ht & Hd). split; [lia|].
  change (event_tasks ev ++ tasks_of evs' = [] ∧ event_dones ev ++ dones_of evs' = []). rewrite Ht, Hd. by destruct ev.
Qed.

End progress.

(** C33: no assertion of the state machine fails for a file with stable writes under the conditions of
    [can_happen]: in every reachable configuration, when the done flags are distinct, new dirty data,
    a run that asks for no commit, a thread that waited until no write is under way and no callback runs, the end
    of writes, their accounting, and a flush callback that takes the flush lock when all finished
    writes are accounted are each handled.  (A callback that takes the lock before another
    has accounted its bytes fails an assertion: [concurrent_flush_callbacks_abort].) *)
Theorem stable_progress mde stable evs c ev :
  0 ≤ mde < 2 ^ 63 →
  handle_all mde evs (conf0 stable) = Some c → stable_write (ino (sys_of c)) = true →
  NoDup (dones_of (evs ++ [ev])) → can_happen ev c →
  ∃ c', handle mde ev c = Some c'.
Proof.
  intros Hmde Hrun Hs Hnd Hev. destruct (reached mde Hmde _ _ _ Hrun) as (HC & _ & Hd).
  apply progress; [done..| |done]. rewrite Hd. unfold dones_of in *.
  by rewrite fmap_app, join_app in Hnd; simpl in Hnd; rewrite app_nil_r in Hnd.
Qed.

(** C34: every write and every flush of a file opened for stable writes completes, however its callbacks
    are interleaved, unless an assertion fails: any sequence of callbacks that are handled after any execution
    has at most [conf_weight c] elements, and after it either a further callback is handled, or the
    machine has stopped with no write under way, every write was answered and every done flag is
    set.  (The order of callbacks that fails an assertion, see C33, is not a sequence of callbacks
    that are handled.) *)
Theorem stable_drains mde evs c evs' c' :
  0 ≤ mde < 2 ^ 63 →
  handle_all mde evs (conf0 true) = Some c → NoDup (dones_of evs) →
  handle_all mde evs' c = Some c' → Forall (λ ev, is_callback ev = true) evs' →
  (length evs' + conf_weight c' ≤ conf_weight c)%nat ∧
  ((∃ ev c'', is_callback ev = true ∧ can_happen ev c' ∧ handle mde ev c' = Some c'') ∨
   (running (fc (sys_of c')) = false ∧ inflight (dat (sys_of c')) = [] ∧
    replied (ans (sys_of c')) ≡ₚ tasks_of evs ∧ signalled (ans (sys_of c')) ≡ₚ dones_of evs)).
Proof.
  intros Hmde Hrun Hnd Hrun' Hcb. destruct (reached mde Hmde _ _ _ Hrun) as (HC & _).
  destruct (callbacks_run mde Hmde _ _ _ HC Hrun' Hcb) as (Hw & Ht & Hd). split; [done|].
  assert (handle_all mde (evs ++ evs') (conf0 true) = Some c') as Hall by (apply handle_all_app; eauto).
  destruct (reached mde Hmde _ _ _ Hall) as (HC' & Ht' & Hd').
  destruct (stable_from_start mde Hmde _ _ Hall) as [Hs Hcw].
  assert (tasks_of (evs ++ evs') = tasks_of evs ∧ dones_of (evs ++ evs') = dones_of evs) as [Et Ed].
  { unfold tasks_of, dones_of in *. by rewrite !fmap_app, !join_app, Ht, Hd, !app_nil_r. }
  rewrite Et in Ht'. rewrite Ed in Hd'.
  destruct (next_callback c' HC' Hs Hcw) as [(ev & Hcb' & Hev & Hed)|(Hin & Hun & Hfw)]; [left|right].
  - destruct (progress mde ev c') as [c'' Hc'']; [done|done| |done|by exists ev, c''].
    rewrite Hed, app_nil_r. by rewrite Hd'.
  - destruct (drained c' HC' Hs Hcw Hin Hun Hfw) as (Hr & Ht1 & Hd1). by rewrite Ht1, Hd1, Ht', Hd'.
Qed.
