(* ===== verification/FcsmExamples.v ===== *)
(** * The flush-commit state machine: concrete executions

    Instances of the theorems on executions, and executions that show where the
    state machine does not do what its comments say. *)
From S2P Require Import Prelude Fcsm FcsmInv FcsmSteps FcsmStable FcsmProgress.

Definition final (stable : bool) (evs : list event) : conf :=
  match handle_all 100 evs (conf0 stable) with Some c => c | None => conf0 stable end.

Definition runs_ok (stable : bool) (evs : list event) : bool := some (handle_all 100 evs (conf0 stable)).

Lemma ran stable evs : runs_ok stable evs = true → handle_all 100 evs (conf0 stable) = Some (final stable evs).
Proof. unfold runs_ok, final. by destruct (handle_all _ _ _). Qed.

(** An appending writer on a file with unstable writes: flush, more data, commit. *)
Definition append_events : list event :=
  [ Dirty (0, 1000); Run true false false 1; Dirty (1000, 500); Run false false true 2;
    WriteDone [] [(0, 1000)] []; FlushAccount 0; FlushContinue; CommitDone; CommitContinue ].

Definition append_rest : list event :=
  [ WriteDone [] [(1000, 500)] []; FlushAccount 0; FlushContinue ].

(** A random writer on a file with stable writes: two writes under way, then a flush of
    the file. *)
Definition stable_events : list event :=
  [ Dirty (0, 10); Dirty (50, 10); Run true false false 1; WriteDone [] [(0, 10)] [(50, 10)];
    WriteDone [] [(50, 10)] []; FlushAccount 0; FlushAccount 0; FlushContinue; FlushContinue;
    Dirty (20, 10); Dirty (70, 10) ].

Definition stable_rest : list event :=
  [ Dirty (90, 10); WriteDone [] [(20, 10); (70, 10)] []; FlushAccount 0; FlushContinue ].

Lemma fcsm_accounting_witness :
  let c := final false append_events in
  bytes (inflight (dat (sys_of c))) = 500 ∧
  flushing_seq_num (fc (sys_of c)) = flushed_seq_num (fc (sys_of c)) + bytes (inflight (dat (sys_of c))) + lsum (unaccounted c).
Proof.
  split; [vm_compute; reflexivity|].
  exact (proj1 (fcsm_accounting 100 ltac:(lia) false append_events _ (ran false append_events ltac:(vm_compute; reflexivity)))).
Defined.

Lemma fcsm_answers_once_witness :
  let c := final false append_events in
  replied (ans (sys_of c)) = [2%nat; 1%nat] ∧
  replied (ans (sys_of c)) ++ omap task (ftgtq (fc (sys_of c)) ++ ctgtq (fc (sys_of c))) ≡ₚ tasks_of append_events.
Proof.
  split; [vm_compute; reflexivity|].
  exact (proj1 (fcsm_answers_once 100 ltac:(lia) false append_events _ (ran false append_events ltac:(vm_compute; reflexivity)))).
Defined.

Lemma fcsm_never_stalls_witness :
  let c := final false (append_events ++ append_rest) in
  running (fc (sys_of c)) = false ∧ replied (ans (sys_of c)) ≡ₚ [1%nat; 2%nat].
Proof.
  destruct (fcsm_never_stalls 100 ltac:(lia) false (append_events ++ append_rest) _
    (ran false (append_events ++ append_rest) ltac:(vm_compute; reflexivity))) as (H1 & H2 & _);
    [vm_compute; reflexivity..|].
  split; [exact H1|exact H2].
Defined.

Lemma fcsm_callbacks_terminate_witness :
  (length append_rest + conf_weight (final false (append_events ++ append_rest)) ≤ conf_weight (final false append_events))%nat.
Proof.
  apply (fcsm_callbacks_terminate 100 ltac:(lia) false append_events).
  - apply ran. vm_compute. reflexivity.
  - vm_compute. reflexivity.
  - repeat constructor.
Defined.

Lemma flush_cache_durable_witness :
  let c := final true (stable_events ++ Wait (FlushCache 7) :: stable_rest) in
  (70, 10) ∉ flushable (dat (sys_of c)) ∧ (70, 10) ∉ inflight (dat (sys_of c)).
Proof.
  apply (flush_cache_durable 100 true stable_events (final true stable_events) 7
    (final true (stable_events ++ [Wait (FlushCache 7)])) stable_rest).
  - lia.
  - apply ran. vm_compute. reflexivity.
  - vm_compute. reflexivity.
  - vm_compute. reflexivity.
  - vm_compute. reflexivity.
  - intros e He. assert (e = (90, 10)) as -> by (unfold stable_rest in He; set_solver).
    apply (bool_decide_unpack _). vm_compute. exact I.
  - apply (bool_decide_unpack _). vm_compute. exact I.
  - apply (bool_decide_unpack _). vm_compute. exact I.
  - apply (bool_decide_unpack _). vm_compute. exact I.
Defined.

Lemma stable_progress_witness :
  ∃ c', handle 100 (WriteDone [(20, 10)] [(70, 10)] []) (final true (stable_events ++ [Wait (FlushCache 7)])) = Some c'.
Proof.
  apply (stable_progress 100 true (stable_events ++ [Wait (FlushCache 7)])).
  - lia.
  - apply ran. vm_compute. reflexivity.
  - vm_compute. reflexivity.
  - apply (bool_decide_unpack _). vm_compute. exact I.
  - split; [vm_compute; reflexivity|discriminate].
Defined.

Definition drain_events : list event := [ WriteDone [] [(20, 10); (70, 10)] []; FlushAccount 0; FlushContinue ].

Lemma stable_drains_witness :
  let c := final true (stable_events ++ [Wait (FlushCache 7)]) in
  let c' := final true (stable_events ++ Wait (FlushCache 7) :: drain_events) in
  (length drain_events + conf_weight c' ≤ conf_weight c)%nat ∧
  ((∃ ev c'', is_callback ev = true ∧ can_happen ev c' ∧ handle 100 ev c' = Some c'') ∨
   (running (fc (sys_of c')) = false ∧ inflight (dat (sys_of c')) = [] ∧
    replied (ans (sys_of c')) ≡ₚ [1%nat] ∧ signalled (ans (sys_of c')) ≡ₚ [7%nat])).
Proof.
  apply (stable_drains 100 (stable_events ++ [Wait (FlushCache 7)]) _ drain_events).
  - lia.
  - apply ran. vm_compute. reflexivity.
  - apply (bool_decide_unpack _). vm_compute. exact I.
  - vm_compute. reflexivity.
  - repeat constructor.
Defined.

(** ** Executions that abort or break a promise *)

(** Two writes are finished, one callback has not yet accounted its bytes: the other one
    finds nothing under write, takes the flush lock and fails
    [assert(flushed_seq_num == flushing_seq_num)]. *)
Example concurrent_flush_callbacks_abort :
  let evs := [ Dirty (0, 10); Dirty (50, 10); Run true false false 1; WriteDone [] [(0, 10)] [(50, 10)];
               WriteDone [] [(50, 10)] []; FlushAccount 0 ] in
  runs_ok true evs = true ∧ flush_waiting (final true evs) = 1%nat ∧ runs_ok true (evs ++ [FlushContinue]) = false.
Proof. vm_compute. auto. Qed.

(** Unstable writes, two separate dirty ranges and one flush target for both: the flush of
    the first range fails [assert(bytes >= (next_goal - flushing_seq_num))]. *)
Example separate_dirty_ranges_abort :
  let evs := [ Dirty (0, 100); Run false false true 1; Dirty (2000, 100); Dirty (3000, 100); Run false false true 2;
               WriteDone [] [(0, 100)] []; FlushAccount 0 ] in
  runs_ok false evs = true ∧ runs_ok false (evs ++ [FlushContinue]) = false.
Proof. vm_compute. auto. Qed.

(** Unstable writes under memory pressure with separate dirty ranges: [ensure_commit()]
    expects [ensure_flush()] to have issued all the dirty data, it issued the first range
    only, and [assert(flushing_seq_num >= target_committed_seq_num)] fails. *)
Example inline_commit_aborts :
  runs_ok false [Dirty (0, 200); Dirty (1000, 500)] = true ∧
  runs_ok false [Dirty (0, 200); Dirty (1000, 500); Run true false false 1] = false.
Proof. vm_compute. auto. Qed.

(** Unstable writes: [flush_cache_and_wait()] first commits what waits for a commit and then
    queues a commit target for the dirty data.  The dirty range does not continue the file, so
    its flush switches to stable writes, and the switch completes the commit target: the caller
    returns while its data is still under write. *)
Example flush_returns_before_data_is_written :
  let evs := [ Dirty (0, 100); Run false false true 1; WriteDone [] [(0, 100)] []; FlushAccount 0; FlushContinue;
               Dirty (2000, 100); Wait (FlushCache 7); CommitDone; WaitDone; CommitContinue ] in
  runs_ok false evs = true ∧ signalled (ans (sys_of (final false evs))) = [7%nat] ∧
  inflight (dat (sys_of (final false evs))) = [(2000, 100)].
Proof. vm_compute. auto. Qed.
