(* ===== verification/Readahead.v ===== *)
(** * Readahead: access pattern detection and the readahead window

    [class ra_state] ([turbonfs/inc/readahead.h], [turbonfs/src/readahead.cpp]): what the
    application read so far, whether that looks sequential, and which byte range to read
    ahead next.

    - All members are 64-bit unsigned ([u64] where the source can wrap); [UINT64_MAX] as
      [max_byte_read] means that nothing was read yet.
    - [scaled] is the value [get_ra_bytes()] returns at the time of the call: the window
      [ra_bytes] scaled by the global memory pressure, a floating point factor between 0
      and 32 ([nfs_client::periodic_updater()]).
    - [filesize] is [inode->get_server_file_size()]: -1 when it is not known.

    The members are atomics updated under [ra_lock_40]; each function is one step. *)
From S2P Require Import Prelude.

Definition UINT64_MAX : Z := 2 ^ 64 - 1.
Definition SECTION_SIZE : Z := 1024 * 1024 * 1024.
Definition ACCESS_DENSITY_MIN : Z := 70.

Record ra_state := RA {
  def_ra_size : Z;
  last_byte_readahead : Z;
  min_byte_read : Z;
  max_byte_read : Z;
  ra_ongoing : Z;
  num_reads : Z;
  num_bytes_read : Z;
}.

Abbreviation MR := (M ra_state).

Definition set_reads (last mn mx nr nb : Z) (r : ra_state) : ra_state :=
  RA (def_ra_size r) last mn mx (ra_ongoing r) nr nb.
Definition set_ongoing (n : Z) (r : ra_state) : ra_state :=
  RA (def_ra_size r) (last_byte_readahead r) (min_byte_read r) (max_byte_read r) n (num_reads r) (num_bytes_read r).
Definition set_last (n : Z) (r : ra_state) : ra_state :=
  RA (def_ra_size r) n (min_byte_read r) (max_byte_read r) (ra_ongoing r) (num_reads r) (num_bytes_read r).

(** [ra_state()]: [ra_bytes] and [rsize] come from the mount options. *)
Definition ra_new (ra_bytes rsize : Z) : ra_state := RA (Z.min rsize ra_bytes) 0 0 UINT64_MAX 0 0 0.

Definition reset (r : ra_state) : ra_state := set_reads (last_byte_readahead r) 0 UINT64_MAX 0 0 r.

(** [(int)] of a 64-bit unsigned value. *)
Definition i32 (x : Z) : Z := let y := u32 x in if y <? 2 ^ 31 then y else y - 2 ^ 32.

Definition is_sequential_nolock : MR bool :=
  do r ← mget;
  if num_reads r <? 3 then mret false
  else
    let access_range := i64 (max_byte_read r - min_byte_read r + 1) in
    do_ massert (0 <? access_range);
    let access_density := i32 (u64 (num_bytes_read r * 100) / access_range) in
    if 100 <? access_density then mret false
    else mret (ACCESS_DENSITY_MIN <? access_density).

(** Whether a read at [offset, offset+length) starts the pattern detection afresh. *)
Definition reset_needed (scaled offset length : Z) : MR bool :=
  do r ← mget;
  let curr_section := max_byte_read r / SECTION_SIZE in
  let this_section := u64 (offset + length) / SECTION_SIZE in
  let read_gap := Z.abs (i64 (offset - max_byte_read r)) in
  if scaled <? read_gap then mret true
  else if curr_section =? this_section then mret false
  else if this_section =? u64 (curr_section + 1) then do b ← is_sequential_nolock; mret (negb b)
  else
    do_ massert ((this_section =? u64 (curr_section - 1)) || (max_byte_read r =? UINT64_MAX));
    mret true.

(** The loop that raises [last_byte_readahead] to [max_byte_read] ends after its first
    successful exchange. *)
Definition on_application_read (scaled offset length : Z) : MR () :=
  do_ massert (offset <? AZNFSC_MAX_FILE_SIZE);
  do_ massert (u64 (offset + length) <=? AZNFSC_MAX_FILE_SIZE);
  do_ massert (negb (length =? 0));
  do_ massert (0 <? i64 length);
  do b ← reset_needed scaled offset length;
  do_ mmodify (λ r,
    if b then set_reads 0 offset (u64 (offset + length - 1)) 1 length r
    else set_reads (last_byte_readahead r) (Z.min (min_byte_read r) offset)
           (Z.max (max_byte_read r) (u64 (offset + length - 1)))
           (u64 (num_reads r + 1)) (u64 (num_bytes_read r + length)) r);
  do r ← mget;
  do_ massert (min_byte_read r <=? max_byte_read r);
  mmodify (λ r, set_last (Z.max (last_byte_readahead r) (max_byte_read r)) r).

(** The offset of the next readahead, or a negative reason not to read ahead. *)
Definition get_next_ra (scaled filesize len : Z) : MR Z :=
  do r ← mget;
  let length := if len =? 0 then def_ra_size r else len in
  if length =? 0 then mret (-1)
  else
    do_ massert ((0 <=? filesize) || (filesize =? -1));
    if (filesize =? -1) || (filesize <? i64 (last_byte_readahead r + 1 + length)) then mret (-2)
    else
      do seq ← is_sequential_nolock;
      if negb seq then mret (-3)
      else if u64 (max_byte_read r + scaled) <? u64 (last_byte_readahead r + length) then mret (-4)
      else
        do_ mmodify (λ r, set_ongoing (u64 (ra_ongoing r + length)) r);
        do r' ← mget;
        if scaled <? ra_ongoing r' then
          do_ massert (length <=? ra_ongoing r');
          do_ mmodify (λ r, set_ongoing (u64 (ra_ongoing r - length)) r);
          mret (-5)
        else
          let next_ra := u64 (last_byte_readahead r' + 1) in
          do_ mmodify (λ r, set_last (u64 (last_byte_readahead r + length)) r);
          do_ massert (0 <? i64 next_ra);
          mret next_ra.

Definition on_readahead_complete (len : Z) : MR () :=
  do r ← mget;
  let length := if len =? 0 then def_ra_size r else len in
  do_ massert (0 <? length);
  do_ massert (length <=? ra_ongoing r);
  mmodify (set_ongoing (ra_ongoing r - length)).

Definition release_till (r : ra_state) : Z :=
  if max_byte_read r =? UINT64_MAX then 0 else Z.max (i64 (max_byte_read r - SECTION_SIZE)) 0.

Definition in_ra_window (scaled offset length : Z) : MR bool :=
  do_ massert (0 <=? i64 (offset + length));
  do r ← mget;
  if last_byte_readahead r =? 0 then mret false
  else
    let re := u64 (offset + length) in
    let lra := u64 (max_byte_read r + 1) in
    let rra := u64 (max_byte_read r + scaled) in
    mret (negb (re <=? lra) && negb (rra <? offset)).
