(* ===== verification/ReadaheadSpec.v ===== *)
(** * Readahead: what the window and the pattern detection guarantee *)
From Stdlib Require Import Sorting.Sorted.
From S2P Require Import Prelude Readahead.

(** ** Well-formed states *)
Record wf (r : ra_state) : Prop := {
  wf_last : 0 ≤ last_byte_readahead r < AZNFSC_MAX_FILE_SIZE;
  wf_ongoing : 0 ≤ ra_ongoing r < 2 ^ 62;
  wf_size : 0 ≤ def_ra_size r < 2 ^ 40;
  wf_bytes : 0 ≤ num_bytes_read r < 2 ^ 64;
  wf_reads : (max_byte_read r = UINT64_MAX ∧ num_reads r = 0) ∨
    (0 ≤ min_byte_read r ≤ max_byte_read r ∧ max_byte_read r ≤ last_byte_readahead r ∧ 0 ≤ num_reads r < 2 ^ 64);
}.

Ltac consts := unfold AZNFSC_MAX_FILE_SIZE, AZNFSC_MAX_BLOCK_SIZE, UINT64_MAX, SECTION_SIZE in *.

Lemma i64_neg x : - 2 ^ 63 ≤ x < 0 → i64 x = x.
Proof.
  intros Hx. unfold i64, u64. rewrite <- (Z.mod_add x 1 (2 ^ 64)) by lia. rewrite Z.mod_small by lia.
  destruct (Z.ltb_spec (x + 1 * 2 ^ 64) (2 ^ 63)); lia.
Qed.

Lemma i64_id x : - 2 ^ 63 ≤ x < 2 ^ 63 → i64 x = x.
Proof. intros. destruct (Z.le_gt_cases 0 x); [apply i64_small|apply i64_neg]; lia. Qed.

(** A reader is seen as sequential only from its third read on. *)
Lemma seq_runs r : wf r → wp is_sequential_nolock r (λ b r', r' = r ∧ (b = true → 3 ≤ num_reads r ∧ max_byte_read r ≤ last_byte_readahead r)).
Proof.
  intros [Hl Ho Hs Hb Hr]. unfold is_sequential_nolock. repeat wp_step.
  destruct (Z.ltb_spec (num_reads r) 3); [by wp_step|]. destruct Hr as [[_ ?]|(Hm & Hml & Hn)]; [lia|]. consts.
  apply wp_bind_assert; [apply Z.ltb_lt; rewrite i64_small; lia|].
  destruct (_ <? _); wp_step; split; try done; intros; lia.
Qed.

(** What [get_next_ra()] guarantees of its result [n] and the state [r'] it leaves. *)
Definition next_post (scaled filesize length : Z) (r : ra_state) (n : Z) (r' : ra_state) : Prop :=
  wf r' ∧ n ≠ 0 ∧ (n < 0 → r' = r) ∧
  (0 < n → n = last_byte_readahead r + 1 ∧ max_byte_read r < n ∧ n + length ≤ filesize ∧
    n + length - 1 ≤ max_byte_read r + scaled ∧ last_byte_readahead r' = n + length - 1 ∧
    ra_ongoing r' = ra_ongoing r + length ∧ ra_ongoing r' ≤ scaled ∧ 3 ≤ num_reads r).

Lemma next_spec scaled filesize len r :
  wf r → 0 ≤ len < 2 ^ 40 → 0 ≤ scaled < 2 ^ 40 → -1 ≤ filesize ≤ AZNFSC_MAX_FILE_SIZE →
  wp (get_next_ra scaled filesize len) r (next_post scaled filesize (if len =? 0 then def_ra_size r else len) r).
Proof.
  intros Hwf Hlen Hsc Hfs. pose proof Hwf as [Hl Ho Hs Hb Hr]. unfold get_next_ra. repeat wp_step.
  set (length := if len =? 0 then _ else _).
  assert (0 ≤ length < 2 ^ 40) as Hlength by (unfold length; destruct (len =? 0); lia). clearbody length.
  assert (∀ n, n < 0 → wp (mret n : MR Z) r (next_post scaled filesize length r)) as Hneg.
  { intros n Hn. wp_step. split_and!; try done; lia. }
  destruct (Z.eqb_spec length 0); [apply Hneg; lia|].
  apply wp_bind_assert. { apply orb_true_iff. destruct (Z.eqb_spec filesize (-1)); [by right|left; apply Z.leb_le; lia]. }
  consts. rewrite i64_small by lia.
  destruct (Z.eqb_spec filesize (-1)); [apply Hneg; lia|]. simpl.
  destruct (Z.ltb_spec filesize (last_byte_readahead r + 1 + length)); [apply Hneg; lia|].
  apply wp_bind. eapply wp_mono; [by apply seq_runs|]. intros b ? [-> Hb']. cbv beta.
  destruct b; simpl; [|apply Hneg; lia]. destruct (Hb' eq_refl) as [Hn Hml].
  destruct Hr as [[_ ?]|(Hm & _ & Hnr)]; [lia|]. rewrite !u64_small by lia.
  destruct (Z.ltb_spec (max_byte_read r + scaled) (last_byte_readahead r + length)); [apply Hneg; lia|].
  repeat wp_step. simpl. rewrite u64_small by lia.
  destruct (Z.ltb_spec scaled (ra_ongoing r + length)).
  - apply wp_bind_assert; [apply Z.leb_le; lia|]. repeat wp_step.
    unfold next_post, set_ongoing; simpl. rewrite u64_small by lia.
    assert (ra_ongoing r + length - length = ra_ongoing r) as -> by lia. split_and!; try done; [by destruct r|].
    by destruct r.
  - repeat wp_step; [apply Z.ltb_lt; rewrite u64_small, i64_small; lia|].
    rewrite !u64_small by (simpl; lia). unfold next_post, set_last, set_ongoing; simpl.
    split_and!; [|lia|intros; exfalso; lia|intros _; split_and!; lia]. split; simpl; consts; lia.
Qed.

(** C35: [get_next_ra()] fails no assertion, and an offset it returns is the byte after the
    last one read ahead: after everything the application read, within the readahead window
    and within the file, and the bytes under readahead stay within the window; a negative
    result, which means that nothing is to be read ahead, leaves the state as it was, and 0 is
    never returned.  (The comments in readahead.h and the unit test disagree with the code here:
    they say that 0 means no readahead and that offsets beyond the end of the file are possible.) *)
Theorem next_readahead_in_window scaled filesize len r :
  wf r → 0 ≤ len < 2 ^ 40 → 0 ≤ scaled < 2 ^ 40 → -1 ≤ filesize ≤ AZNFSC_MAX_FILE_SIZE →
  wp (get_next_ra scaled filesize len) r (λ n r', wf r' ∧ n ≠ 0 ∧
    let length := if len =? 0 then def_ra_size r else len in
    (n < 0 → r' = r) ∧
    (0 < n → n = last_byte_readahead r + 1 ∧ max_byte_read r < n ∧ n + length ≤ filesize ∧
      n + length - 1 ≤ max_byte_read r + scaled ∧ last_byte_readahead r' = n + length - 1 ∧
      ra_ongoing r' = ra_ongoing r + length ∧ ra_ongoing r' ≤ scaled ∧ 3 ≤ num_reads r)).
Proof. intros Hwf Hlen Hsc Hfs. exact (next_spec scaled filesize len r Hwf Hlen Hsc Hfs). Qed.

(** ** Application reads *)

(** The pattern is dense: at least three reads that cover more than 70% of their range
    and do not overlap too much. *)
Definition dense (r : ra_state) : bool :=
  (3 <=? num_reads r) &&
  (let density := i32 (u64 (num_bytes_read r * 100) / (max_byte_read r - min_byte_read r + 1)) in
   (density <=? 100) && (ACCESS_DENSITY_MIN <? density)).

Lemma sequential_dense r : wf r → is_sequential_nolock r = Some (dense r, r).
Proof.
  intros [Hl Ho Hs Hb Hr]. unfold is_sequential_nolock, dense, bind, mget, massert, mret, M_ret.
  destruct (Z.ltb_spec (num_reads r) 3), (Z.leb_spec 3 (num_reads r)); try lia; [done|].
  destruct Hr as [[_ ?]|(Hm & Hml & Hn)]; [lia|]. consts. rewrite i64_small by lia.
  rewrite (proj2 (Z.ltb_lt 0 _)) by lia. simpl. set (d := i32 _).
  destruct (Z.ltb_spec 100 d), (Z.leb_spec d 100); try lia; done.
Qed.

(** Whether a read restarts the pattern detection. *)
Definition restarts (scaled offset length : Z) (r : ra_state) : bool :=
  (max_byte_read r =? UINT64_MAX) || (scaled <? Z.abs (offset - max_byte_read r)) ||
  (negb (max_byte_read r / SECTION_SIZE =? (offset + length) / SECTION_SIZE) &&
   negb (((offset + length) / SECTION_SIZE =? max_byte_read r / SECTION_SIZE + 1) && dense r)).

(** The state after a read. *)
Definition after_read (b : bool) (offset length : Z) (r : ra_state) : ra_state :=
  let mx := if b then offset + length - 1 else Z.max (max_byte_read r) (offset + length - 1) in
  RA (def_ra_size r) (Z.max (if b then 0 else last_byte_readahead r) mx)
    (if b then offset else Z.min (min_byte_read r) offset) mx (ra_ongoing r)
    (if b then 1 else u64 (num_reads r + 1)) (if b then length else u64 (num_bytes_read r + length)).

(** An application read that the kernel can send, and a window that fits a section. *)
Definition valid_read (scaled offset length : Z) : Prop :=
  0 ≤ offset ∧ 0 < length ∧ offset + length ≤ AZNFSC_MAX_FILE_SIZE ∧ 0 ≤ scaled ∧ scaled + length ≤ SECTION_SIZE.

Lemma reset_needed_spec scaled offset length r :
  wf r → valid_read scaled offset length →
  reset_needed scaled offset length r = Some (restarts scaled offset length r, r).
Proof.
  intros Hwf (Ho & Hl & Hf & Hs & Hw). pose proof (sequential_dense r Hwf) as Hd. pose proof (wf_reads _ Hwf) as Hr.
  pose proof (wf_last _ Hwf) as Hla. unfold reset_needed, restarts. change SECTION_SIZE with 1073741824 in *.
  unfold bind at 1, mget at 1. rewrite (u64_small (offset + length)) by (consts; lia).
  destruct (Z.eqb_spec (max_byte_read r) UINT64_MAX) as [Hm|Hm].
  - rewrite Hm. assert (Z.abs (i64 (offset - UINT64_MAX)) = offset + 1) as ->.
    { unfold i64. assert (u64 (offset - UINT64_MAX) = offset + 1) as ->; [|consts; rewrite (proj2 (Z.ltb_lt _ _)); lia].
      unfold u64. rewrite <- (Z.mod_add _ 1) by lia. rewrite Z.mod_small by (consts; lia). consts. lia. }
    destruct (_ <? _); [done|].
    assert (this : (offset + length) / 1073741824 < UINT64_MAX / 1073741824).
    { consts. Z.to_euclidean_division_equations. lia. }
    assert (u64 (UINT64_MAX / 1073741824 + 1) = UINT64_MAX / 1073741824 + 1) as -> by (vm_compute; done).
    destruct (Z.eqb_spec (UINT64_MAX / 1073741824) ((offset + length) / 1073741824)); [lia|].
    destruct (Z.eqb_spec ((offset + length) / 1073741824) (UINT64_MAX / 1073741824 + 1)); [lia|].
    unfold bind, massert. by rewrite orb_true_r.
  - destruct Hr as [[? _]|(Hmm & Hml & _)]; [done|]. consts. rewrite i64_id by lia.
    destruct (Z.ltb_spec scaled (Z.abs (offset - max_byte_read r))); [done|]. simpl.
    assert (0 ≤ max_byte_read r / 1073741824 < 2 ^ 62) as Hq by (Z.to_euclidean_division_equations; lia).
    rewrite (u64_small (_ + 1)) by lia.
    destruct (Z.eqb_spec (max_byte_read r / 1073741824) ((offset + length) / 1073741824)); [done|]. simpl.
    destruct (Z.eqb_spec ((offset + length) / 1073741824) (max_byte_read r / 1073741824 + 1)).
    + unfold bind. rewrite Hd. done.
    + assert ((offset + length) / 1073741824 = max_byte_read r / 1073741824 - 1) as Hp
        by (Z.to_euclidean_division_equations; lia).
      assert (0 ≤ (offset + length) / 1073741824) by (apply Z.div_pos; lia).
      unfold bind, massert. rewrite u64_small by lia. by rewrite Hp, Z.eqb_refl.
Qed.

Lemma read_spec scaled offset length r :
  wf r → valid_read scaled offset length →
  on_application_read scaled offset length r = Some ((), after_read (restarts scaled offset length r) offset length r).
Proof.
  intros Hwf Hv. pose proof (reset_needed_spec _ _ _ _ Hwf Hv) as Hrn. destruct Hv as (Ho & Hl & Hf & Hs & Hw).
  pose proof (wf_reads _ Hwf) as Hr. pose proof (wf_last _ Hwf) as Hla.
  unfold on_application_read, bind, massert, mmodify, mget. consts.
  rewrite (proj2 (Z.ltb_lt offset _)) by lia. rewrite u64_small by lia. rewrite (proj2 (Z.leb_le _ _)) by lia.
  rewrite (proj2 (Z.eqb_neq length 0)) by lia. simpl. rewrite i64_small by lia. rewrite (proj2 (Z.ltb_lt 0 _)) by lia.
  rewrite Hrn. rewrite !u64_small by lia. set (b := restarts _ _ _ _) in *.
  destruct b eqn:Hb; unfold set_reads; simpl.
  - rewrite (proj2 (Z.leb_le _ _)) by lia. done.
  - unfold b, restarts in Hb. apply orb_false_iff in Hb as [[Hb1%Z.eqb_neq _]%orb_false_iff _].
    destruct Hr as [[? _]|(Hmm & Hml & _)]; [done|]. rewrite (proj2 (Z.leb_le _ _)) by lia. done.
Qed.

Lemma after_read_wf scaled offset length r :
  wf r → valid_read scaled offset length → wf (after_read (restarts scaled offset length r) offset length r).
Proof.
  intros Hwf (Ho & Hl & Hf & Hs & Hw). destruct Hwf as [Hla Hon Hsz Hb Hr]. consts.
  destruct (restarts _ _ _ _) eqn:Hre; split; simpl; consts; try lia.
  - unfold restarts in Hre. apply orb_false_iff in Hre as [[Hb1%Z.eqb_neq _]%orb_false_iff _]. consts. lia.
  - apply u64_range.
  - right. unfold restarts in Hre. apply orb_false_iff in Hre as [[Hb1%Z.eqb_neq _]%orb_false_iff _]. consts.
    destruct Hr as [[? _]|(? & ? & ?)]; [done|]. split_and!; try lia; apply u64_range.
Qed.

(** Reporting a read fails no assertion and keeps the state well-formed as long as the
    readahead window and the read fit into one section; afterwards the read bytes are below
    both the largest byte read and the start of the next readahead, so that nothing already
    read is read ahead. *)
Theorem read_reported scaled offset length r :
  wf r → valid_read scaled offset length →
  wp (on_application_read scaled offset length) r (λ _ r', wf r' ∧
    min_byte_read r' ≤ offset ∧ offset + length - 1 ≤ max_byte_read r' ≤ last_byte_readahead r' ∧
    ra_ongoing r' = ra_ongoing r ∧
    (scaled < Z.abs (offset - max_byte_read r) → num_reads r' = 1)).
Proof.
  intros Hwf Hv. exists (), (after_read (restarts scaled offset length r) offset length r).
  split; [by apply read_spec|]. split; [by eapply after_read_wf|].
  assert (scaled < Z.abs (offset - max_byte_read r) → restarts scaled offset length r = true) as Hgap.
  { intros Hg. unfold restarts. by rewrite (proj2 (Z.ltb_lt _ _) Hg), orb_true_r. }
  destruct (restarts _ _ _ _); simpl; split_and!; lia.
Qed.

(** ** Sequences of operations *)
Inductive ra_op :=
  | Read (scaled offset length : Z)
  | Next (scaled filesize : Z)
  | Complete.

(** Runs the operations; returns the readaheads suggested (of the default size), how many
    were completed and whether a read restarted the pattern detection. *)
Fixpoint ra_run (ops : list ra_op) (r : ra_state) : option (list Z * Z * bool * ra_state) :=
  match ops with
  | [] => Some ([], 0, false, r)
  | op :: ops' =>
      match op with
      | Read sc o l =>
          match on_application_read sc o l r with
          | Some (_, r1) =>
              match ra_run ops' r1 with
              | Some (s, n, b, r2) => Some (s, n, restarts sc o l r || b, r2)
              | None => None
              end
          | None => None
          end
      | Next sc fs =>
          match get_next_ra sc fs 0 r with
          | Some (x, r1) =>
              match ra_run ops' r1 with
              | Some (s, n, b, r2) => Some (if 0 <? x then x :: s else s, n, b, r2)
              | None => None
              end
          | None => None
          end
      | Complete =>
          match on_readahead_complete 0 r with
          | Some (_, r1) =>
              match ra_run ops' r1 with
              | Some (s, n, b, r2) => Some (s, n + 1, b, r2)
              | None => None
              end
          | None => None
          end
      end
  end.

Definition valid_op (op : ra_op) : Prop :=
  match op with
  | Read sc o l => valid_read sc o l
  | Next sc fs => 0 ≤ sc < 2 ^ 40 ∧ -1 ≤ fs ≤ AZNFSC_MAX_FILE_SIZE
  | Complete => True
  end.

(** One operation, as far as the suggestions are concerned. *)
Lemma next_step scaled filesize r x r1 :
  wf r → 0 ≤ scaled < 2 ^ 40 → -1 ≤ filesize ≤ AZNFSC_MAX_FILE_SIZE → get_next_ra scaled filesize 0 r = Some (x, r1) →
  wf r1 ∧ def_ra_size r1 = def_ra_size r ∧
  (x < 0 ∧ r1 = r ∨
   0 < x ∧ x = last_byte_readahead r + 1 ∧ last_byte_readahead r1 = x + def_ra_size r - 1 ∧
   ra_ongoing r1 = ra_ongoing r + def_ra_size r).
Proof.
  intros Hwf Hsc Hfs Hrun.
  assert (def_ra_size r1 = def_ra_size r) as Hdef.
  { revert Hrun. unfold get_next_ra, is_sequential_nolock, bind, massert, mget, mmodify, mret, M_ret.
    repeat case_match; intros; by simplify_eq. }
  destruct (wp_run _ _ _ _ _ Hrun (next_spec scaled filesize 0 r Hwf ltac:(lia) Hsc Hfs)) as (Hwf1 & Hx & Hneg & Hpos).
  split_and!; [done..|]. destruct (Z.lt_trichotomy x 0) as [?|[?|Hx0]]; [left; auto|lia|right].
  destruct (Hpos Hx0) as (? & ? & ? & ? & ? & ? & ? & ?). done.
Qed.

Lemma complete_step r x r1 :
  wf r → on_readahead_complete 0 r = Some (x, r1) →
  wf r1 ∧ r1 = set_ongoing (ra_ongoing r - def_ra_size r) r.
Proof.
  intros [Hl Ho Hs Hb Hr]. unfold on_readahead_complete, bind, mget, massert, mmodify. simpl.
  destruct (Z.ltb_spec 0 (def_ra_size r)); [|done]. destruct (Z.leb_spec (def_ra_size r) (ra_ongoing r)); [|done].
  intros [= _ <-]. split; [|done]. split; simpl; try done; lia.
Qed.

(** Suggested readaheads of size [l], in the order they were made, do not overlap. *)
Definition disjoint_ascending (l : Z) : list Z → Prop := StronglySorted (λ x y, x + l ≤ y).

Lemma run_invariant ops r s n b r' :
  wf r → Forall valid_op ops → ra_run ops r = Some (s, n, b, r') →
  wf r' ∧ def_ra_size r' = def_ra_size r ∧
  ra_ongoing r' = ra_ongoing r + def_ra_size r * (Z.of_nat (length s) - n) ∧
  (b = false → last_byte_readahead r ≤ last_byte_readahead r' ∧
    Forall (λ x, last_byte_readahead r < x) s ∧ disjoint_ascending (def_ra_size r) s).
Proof.
  revert r s n b. induction ops as [|op ops IH]; intros r s n b Hwf Hval Hrun; simpl in Hrun.
  { simplify_eq. split_and!; try done; [simpl; lia|]. intros _. split_and!; [lia|done|constructor]. }
  apply Forall_cons in Hval as [Hop Hval]. destruct op as [sc o l|sc fs|].
  - rewrite (read_spec sc o l r Hwf Hop) in Hrun. set (bb := restarts sc o l r) in *.
    destruct (ra_run ops _) as [[[[s1 n1] b1] r1]|] eqn:Hr1; [|done]. simplify_eq.
    apply IH in Hr1 as (Hwf1 & Hd1 & Ho1 & Hb1); [|by eapply after_read_wf|done].
    split_and!; [done..|]. intros [Hbb ->]%orb_false_iff. rewrite Hbb in Hb1. simpl in *.
    destruct (Hb1 eq_refl) as (H1 & H2 & H3). split_and!; [lia| |done].
    eapply Forall_impl; [exact H2|]. simpl. intros. lia.
  - destruct Hop as [Hsc Hfs]. destruct (get_next_ra sc fs 0 r) as [[x r1]|] eqn:Hnx; [|done].
    destruct (ra_run ops r1) as [[[[s1 n1] b1] r2]|] eqn:Hr2; [|done]. simplify_eq.
    destruct (next_step _ _ _ _ _ Hwf Hsc Hfs Hnx) as (Hwf1 & Hd1 & Hx).
    apply IH in Hr2 as (Hwf2 & Hd2 & Ho2 & Hb2); [|done..]. rewrite Hd1 in *.
    destruct Hx as [[Hx ->]|(Hx & Hxe & Hl1 & Ho1)]; destruct (Z.ltb_spec 0 x); try lia.
    + done.
    + simpl. split_and!; [done..|lia|]. intros Hbf. destruct (Hb2 Hbf) as (H1 & H2 & H3).
      pose proof (wf_size _ Hwf). split_and!; [lia| |].
      * constructor; [lia|]. eapply Forall_impl; [exact H2|]. simpl. intros. lia.
      * constructor; [done|]. eapply Forall_impl; [exact H2|]. simpl. intros. lia.
  - destruct (on_readahead_complete 0 r) as [[x r1]|] eqn:Hc; [|done].
    destruct (ra_run ops r1) as [[[[s1 n1] b1] r2]|] eqn:Hr2; [|done]. simplify_eq.
    destruct (complete_step _ _ _ Hwf Hc) as [Hwf1 ->].
    apply IH in Hr2 as (Hwf2 & Hd2 & Ho2 & Hb2); [|done..]. simpl in *. split_and!; [done..|lia|done].
Qed.

(** C27: no byte is read ahead twice: in any sequence of reads, requests for the next
    readahead and completions in which no read restarts the pattern detection, the readaheads
    suggested follow one another without overlap, above everything read before. *)
Theorem readaheads_disjoint ops r s n r' :
  wf r → Forall valid_op ops → ra_run ops r = Some (s, n, false, r') →
  Forall (λ x, last_byte_readahead r < x) s ∧ disjoint_ascending (def_ra_size r) s.
Proof.
  intros Hwf Hval Hrun. destruct (run_invariant _ _ _ _ _ _ Hwf Hval Hrun) as (_ & _ & _ & Hb).
  by destruct (Hb eq_refl) as (_ & ? & ?).
Qed.

(** C36: the number of bytes under readahead is exact, also across restarts of the pattern
    detection: the readaheads suggested and not yet completed. *)
Theorem readahead_bytes_exact ra_bytes rsize ops s n b r' :
  0 ≤ ra_bytes < 2 ^ 40 → 0 ≤ rsize < 2 ^ 40 → Forall valid_op ops →
  ra_run ops (ra_new ra_bytes rsize) = Some (s, n, b, r') →
  wf r' ∧ ra_ongoing r' = Z.min rsize ra_bytes * (Z.of_nat (length s) - n).
Proof.
  intros Hra Hrs Hval Hrun. assert (wf (ra_new ra_bytes rsize)) as Hwf.
  { split; simpl; consts; lia. }
  destruct (run_invariant _ _ _ _ _ _ Hwf Hval Hrun) as (? & _ & Ho & _). split; [done|]. simpl in Ho. lia.
Qed.

(** ** Pattern detection *)

(** The state after [n] adjacent reads of [l] bytes from offset [o]. *)
Definition after_reads (o l n : Z) (r : ra_state) : ra_state :=
  RA (def_ra_size r) (o + n * l - 1) o (o + n * l - 1) (ra_ongoing r) n (n * l).

Fixpoint sequential_reads (scaled o l : Z) (n : nat) : MR () :=
  match n with
  | O => mret ()
  | S n' => do_ sequential_reads scaled o l n'; on_application_read scaled (o + Z.of_nat n' * l) l
  end.

Lemma wf_fresh r : wf r → wf (reset r).
Proof. intros [Hl Ho Hs Hb Hr]. split; simpl; try done. by left. Qed.

Lemma sequential_reads_spec scaled o l n r :
  wf r → max_byte_read r = UINT64_MAX → 0 ≤ o → l ≤ scaled → (0 < n)%nat →
  valid_read scaled o l → o + Z.of_nat n * l < (o / SECTION_SIZE + 1) * SECTION_SIZE →
  o + Z.of_nat n * l ≤ AZNFSC_MAX_FILE_SIZE →
  sequential_reads scaled o l n r = Some ((), after_reads o l (Z.of_nat n) r) ∧ wf (after_reads o l (Z.of_nat n) r).
Proof.
  intros Hwf Hm Ho Hls Hn Hv Hsec Hmax. induction n as [|n IH]; [lia|]. cbn [sequential_reads]. unfold bind.
  destruct (decide (n = O)) as [->|Hn0].
  - simpl. unfold mret, M_ret. rewrite Z.add_0_r. split.
    + rewrite (read_spec scaled o l r Hwf Hv). unfold after_read, restarts. rewrite Hm, Z.eqb_refl. simpl.
      destruct Hv as (? & ? & _). unfold after_reads. repeat f_equal; lia.
    + pose proof (after_read_wf scaled o l r Hwf Hv) as Haw. unfold after_read, restarts in Haw.
      rewrite Hm, Z.eqb_refl in Haw. simpl in Haw. unfold after_reads. destruct Hv as (? & ? & _).
      rewrite Z.max_r in Haw by lia. replace (Z.of_nat 1 * l) with l by lia. exact Haw.
  - assert (0 < l) as Hl by (by destruct Hv as (_ & ? & _)).
    destruct IH as [IH Hwfn]; [lia|nia|nia|]. rewrite IH.
    assert (valid_read scaled (o + Z.of_nat n * l) l) as Hvn.
    { destruct Hv as (? & ? & ? & ? & ?). split_and!; try done; nia. }
    assert (restarts scaled (o + Z.of_nat n * l) l (after_reads o l (Z.of_nat n) r) = false) as Hre.
    { unfold restarts, after_reads; simpl. change SECTION_SIZE with 1073741824 in *. consts.
      rewrite (proj2 (Z.eqb_neq _ _)) by nia. rewrite (proj2 (Z.ltb_ge _ _)) by lia. simpl.
      assert ((o + Z.of_nat n * l - 1) / 1073741824 = o / 1073741824) as ->.
      { symmetry. apply (Z.div_unique _ _ _ (o + Z.of_nat n * l - 1 - 1073741824 * (o / 1073741824))); [|lia].
        pose proof (Z.mul_div_le o 1073741824). nia. }
      assert ((o + Z.of_nat n * l + l) / 1073741824 = o / 1073741824) as ->.
      { symmetry. apply (Z.div_unique _ _ _ (o + Z.of_nat n * l + l - 1073741824 * (o / 1073741824))); [|lia].
        pose proof (Z.mul_div_le o 1073741824). nia. }
      by rewrite Z.eqb_refl. }
    pose proof (after_read_wf _ _ _ _ Hwfn Hvn) as Haw. rewrite (read_spec _ _ _ _ Hwfn Hvn). rewrite Hre in *.
    assert (after_read false (o + Z.of_nat n * l) l (after_reads o l (Z.of_nat n) r) = after_reads o l (Z.of_nat (S n)) r) as Heq.
    { unfold after_read, after_reads; simpl. rewrite !u64_small by (consts; nia). f_equal; nia. }
    rewrite Heq in *. done.
Qed.

(** A reader that starts on a fresh handle and reads [n] adjacent blocks is recognised as
    sequential exactly from its third read on: then the next readahead starts at the first
    byte not yet read, before that there is none. *)
Theorem sequential_reader_is_detected scaled filesize o l n r :
  wf r → ra_ongoing r = 0 → 0 < def_ra_size r ≤ scaled → scaled < 2 ^ 40 → l ≤ scaled →
  valid_read scaled o l → (0 < n)%nat → o + Z.of_nat n * l < (o / SECTION_SIZE + 1) * SECTION_SIZE →
  o + Z.of_nat n * l + def_ra_size r ≤ filesize ≤ AZNFSC_MAX_FILE_SIZE →
  wp (bind (sequential_reads scaled o l n) (λ _, get_next_ra scaled filesize 0)) (reset r)
    (λ x _, x = if (n <? 3)%nat then -3 else o + Z.of_nat n * l).
Proof.
  intros Hwf Hon Hdef Hsc Hls Hv Hn Hsec Hfs. assert (0 < l ∧ 0 ≤ o) as [Hl Ho] by (destruct Hv as (? & ? & _); lia).
  destruct (sequential_reads_spec scaled o l n (reset r)) as [Hrun Hwfn]; try done; [by apply wf_fresh|lia|].
  apply wp_bind. exists (), (after_reads o l (Z.of_nat n) (reset r)). split; [done|].
  pose proof (sequential_dense _ Hwfn) as Hd. unfold get_next_ra. repeat wp_step. cbn [Z.eqb]. simpl.
  change (def_ra_size (after_reads o l (Z.of_nat n) (reset r))) with (def_ra_size r). simpl. consts.
  rewrite (proj2 (Z.eqb_neq (def_ra_size r) 0)) by lia.
  apply wp_bind_assert. { apply orb_true_iff. left. apply Z.leb_le. lia. }
  rewrite (proj2 (Z.eqb_neq filesize (-1))) by lia. simpl. rewrite i64_small by nia.
  rewrite (proj2 (Z.ltb_ge _ _)) by lia. apply wp_bind. exists (dense (after_reads o l (Z.of_nat n) (reset r))), (after_reads o l (Z.of_nat n) (reset r)).
  split; [exact Hd|]. cbv beta.
  assert (dense (after_reads o l (Z.of_nat n) (reset r)) = negb (n <? 3)%nat) as ->.
  { unfold dense, after_reads; simpl. destruct (Nat.ltb_spec n 3), (Z.leb_spec 3 (Z.of_nat n)); try lia.
    simpl. replace (o + Z.of_nat n * l - 1 - o + 1) with (Z.of_nat n * l) by lia. rewrite u64_small by nia.
    rewrite (Z.mul_comm _ 100), Z.div_mul by nia. done. }
  destruct (n <? 3)%nat; simpl; [by wp_step|]. rewrite !u64_small by lia. rewrite (proj2 (Z.ltb_ge _ _)) by lia.
  repeat wp_step. simpl. rewrite Hon. rewrite (u64_small (0 + _)) by lia. rewrite (proj2 (Z.ltb_ge _ _)) by lia.
  repeat wp_step; [apply Z.ltb_lt; rewrite u64_small, i64_small by lia; lia|].
  rewrite u64_small by lia. lia.
Qed.

(** [in_ra_window()] holds of a range exactly when one of its bytes is in the readahead
    window, the [scaled] bytes after the last byte read, once there was a readahead. *)
Theorem in_window_exact scaled offset length r :
  wf r → max_byte_read r ≠ UINT64_MAX → 0 < scaled < 2 ^ 40 →
  0 ≤ offset → 0 < length → offset + length ≤ AZNFSC_MAX_FILE_SIZE →
  wp (in_ra_window scaled offset length) r (λ b r', r' = r ∧
    (b = true ↔ last_byte_readahead r ≠ 0 ∧
      ∃ x, offset ≤ x < offset + length ∧ max_byte_read r < x ≤ max_byte_read r + scaled)).
Proof.
  intros [Hl _ _ _ Hr] Hm Hsc Ho Hlen Hmax. destruct Hr as [[? _]|(Hmm & Hml & _)]; [done|].
  unfold in_ra_window. consts. apply wp_bind_assert; [apply Z.leb_le; rewrite i64_small; lia|]. repeat wp_step.
  destruct (Z.eqb_spec (last_byte_readahead r) 0); wp_step; (split; [done|]).
  { split; [done|]. intros [? _]. done. }
  rewrite !u64_small by lia. rewrite andb_true_iff, !negb_true_iff, Z.leb_gt, Z.ltb_ge. split.
  - intros [H1 H2]. split; [done|]. exists (Z.max offset (max_byte_read r + 1)). lia.
  - intros (_ & x & Hx). lia.
Qed.

(** [release_till()] never reaches into the last section before the largest byte read, and
    releases nothing before anything was read. *)
Lemma release_till_exact r :
  wf r → release_till r = if max_byte_read r =? UINT64_MAX then 0 else Z.max 0 (max_byte_read r - SECTION_SIZE).
Proof.
  intros [Hl _ _ _ Hr]. unfold release_till. destruct (Z.eqb_spec (max_byte_read r) UINT64_MAX); [done|].
  destruct Hr as [[? _]|(Hmm & Hml & _)]; [done|]. consts. rewrite i64_id by lia. lia.
Qed.

Lemma release_till_bound r : wf r → 0 ≤ release_till r ≤ AZNFSC_MAX_FILE_SIZE.
Proof.
  intros Hw. rewrite release_till_exact by done. pose proof (wf_last _ Hw). pose proof (wf_reads _ Hw).
  destruct (Z.eqb_spec (max_byte_read r) UINT64_MAX); consts; [lia|]. lia.
Qed.

(** ** Witnesses *)
Definition MiB : Z := 1048576.
Definition window : Z := 128 * MiB.
Definition fresh_ra : ra_state := ra_new window (4 * MiB).

(** Three adjacent reads seen. *)
Definition three_reads : ra_state := after_reads 0 MiB 3 fresh_ra.

Ltac ra_wf := split; vm_compute; intuition (discriminate || congruence).

Lemma three_reads_wf : wf three_reads.
Proof. ra_wf. Defined.

Lemma next_readahead_in_window_witness :
  wp (get_next_ra window (1000 * MiB) 0) three_reads (λ n _, 0 < n → 3 * MiB - 1 < n).
Proof.
  eapply wp_mono; [apply next_readahead_in_window; unfold window, MiB, AZNFSC_MAX_FILE_SIZE, AZNFSC_MAX_BLOCK_SIZE; [exact three_reads_wf|lia..]|].
  intros n r' (_ & _ & _ & Hpos) Hn. destruct (Hpos Hn) as (_ & H & _). exact H.
Defined.

Lemma read_reported_witness :
  wp (on_application_read window (3 * MiB) MiB) three_reads (λ _ r', 4 * MiB - 1 ≤ last_byte_readahead r').
Proof.
  eapply wp_mono; [apply read_reported; [exact three_reads_wf|]|].
  - unfold valid_read, window, MiB, AZNFSC_MAX_FILE_SIZE, AZNFSC_MAX_BLOCK_SIZE, SECTION_SIZE. lia.
  - intros [] r' (_ & _ & H & _). unfold MiB in *. lia.
Defined.

Definition ops1 : list ra_op :=
  [ Read window 0 MiB; Read window MiB MiB; Read window (2 * MiB) MiB; Next window (1000 * MiB);
    Next window (1000 * MiB); Complete; Next window (1000 * MiB) ].

Definition ra_result (ops : list ra_op) : list Z * Z * bool :=
  match ra_run ops fresh_ra with Some (s, n, b, _) => (s, n, b) | None => ([], 0, true) end.

Lemma ops1_valid : Forall valid_op ops1.
Proof. repeat constructor; vm_compute; intuition discriminate. Defined.

Lemma fresh_wf : wf fresh_ra.
Proof. ra_wf. Defined.

(** The first read of a file restarts the detection; the rest of [ops1] does not. *)
Definition after_first : ra_state := after_reads 0 MiB 1 fresh_ra.

Lemma after_first_wf : wf after_first.
Proof. ra_wf. Defined.

Lemma readaheads_disjoint_witness :
  disjoint_ascending (4 * MiB) [3 * MiB; 7 * MiB; 11 * MiB].
Proof.
  refine (proj2 (readaheads_disjoint (tl ops1) after_first [3 * MiB; 7 * MiB; 11 * MiB] 1
    (RA (4 * MiB) (15 * MiB - 1) 0 (3 * MiB - 1) (8 * MiB) 3 (3 * MiB)) after_first_wf _ _)).
  - exact (Forall_inv_tail ops1_valid).
  - vm_compute. reflexivity.
Defined.

Lemma readahead_bytes_exact_witness :
  wf (RA (4 * MiB) (15 * MiB - 1) 0 (3 * MiB - 1) (8 * MiB) 3 (3 * MiB)) ∧
  8 * MiB = Z.min (4 * MiB) window * (Z.of_nat 3 - 1).
Proof.
  apply (readahead_bytes_exact window (4 * MiB) ops1 [3 * MiB; 7 * MiB; 11 * MiB] 1 true).
  - unfold window, MiB. lia.
  - unfold MiB. lia.
  - exact ops1_valid.
  - vm_compute. reflexivity.
Defined.

Lemma sequential_reader_is_detected_witness :
  wp (bind (sequential_reads window (10 * MiB) MiB 5) (λ _, get_next_ra window (1000 * MiB) 0)) (reset fresh_ra)
    (λ x _, x = 15 * MiB).
Proof.
  eapply wp_mono; [apply (sequential_reader_is_detected window (1000 * MiB) (10 * MiB) MiB 5 fresh_ra)|].
  - exact fresh_wf.
  - reflexivity.
  - vm_compute. intuition discriminate.
  - unfold window, MiB. lia.
  - unfold window, MiB. lia.
  - unfold valid_read, window, MiB, AZNFSC_MAX_FILE_SIZE, AZNFSC_MAX_BLOCK_SIZE, SECTION_SIZE. lia.
  - lia.
  - vm_compute. reflexivity.
  - vm_compute. intuition discriminate.
  - intros x r' Hx. exact Hx.
Defined.

Lemma in_window_exact_witness :
  wp (in_ra_window window (2 * MiB) (2 * MiB)) three_reads (λ b _, b = true).
Proof.
  eapply wp_mono; [apply in_window_exact; [exact three_reads_wf|vm_compute; discriminate|unfold window, MiB, AZNFSC_MAX_FILE_SIZE, AZNFSC_MAX_BLOCK_SIZE; lia..]|].
  intros b r' [_ Hb]. apply Hb. split; [vm_compute; discriminate|]. exists (3 * MiB). vm_compute. intuition discriminate.
Defined.

(** ** Where the code and its description differ *)

(** The reads are at increasing offsets, but a section boundary is crossed while the pattern is
    not sequential: [last_byte_readahead] is reset and the byte at 1027 MiB is read ahead a second
    time (property 3 of the class comment excludes this). *)
Definition readahead_twice : list Z * list Z :=
  let reads := fix reads (l : list Z) : MR () := match l with
    | [] => mret () | o :: l' => do_ on_application_read window (o * MiB) MiB; reads l' end in
  let nexts := fix nexts (n : nat) : MR (list Z) := match n with
    | O => mret [] | S n' => do x ← get_next_ra window AZNFSC_MAX_FILE_SIZE 0; do l ← nexts n'; mret (x / MiB :: l) end in
  match (do_ reads [900; 901; 902]; do l1 ← nexts 32%nat; do_ reads [1023; 1024; 1025; 1026];
         do_ on_readahead_complete 0; do l2 ← nexts 1%nat; mret (l1, l2)) fresh_ra with
  | Some (l, _) => l
  | None => ([], [])
  end.

Example offset_read_ahead_twice : 1027 ∈ readahead_twice.1 ∧ 1027 ∈ readahead_twice.2.
Proof. split; apply (bool_decide_unpack _); vm_compute; exact I. Qed.

(** The window is scaled by up to 32 when little of the cache is used: with a readahead of 64 MiB
    it is wider than a section, and a second read near its end fails
    [assert((this_section == (curr_section - 1)) || (max_byte_read == UINT64_MAX))]. *)
Example wide_window_aborts :
  (do_ on_application_read (32 * 64 * MiB) 0 MiB; on_application_read (32 * 64 * MiB) (2047 * MiB) MiB)
    (ra_new (64 * MiB) (4 * MiB)) = None.
Proof. vm_compute. reflexivity. Qed.

(** The unit test and the comment of [get_next_ra()] expect 0 when no readahead is to be issued:
    after one read the function returns -3. *)
Example no_readahead_is_negative :
  match (do_ on_application_read window 0 MiB; get_next_ra window AZNFSC_MAX_FILE_SIZE 0) fresh_ra with
  | Some (x, _) => x = -3
  | None => False
  end.
Proof. vm_compute. reflexivity. Qed.
