(* ===== verification/ReadPath.v ===== *)
(** * The read path

    A read request of fuse from its arrival to the reply: [rpc_task::run_read()],
    [read_from_server()], [read_callback()], [send_read_response()] and
    [free_rpc_task()] ([turbonfs/src/rpc_task.cpp]), with the retry of
    [nfs_client::jukebox_read()] ([turbonfs/src/nfs_client.cpp]).

    - The state is the file cache of the inode, the contents of its buffers ([mem]: byte
      [j] of the buffer of membuf [id], [None] while it was never written), the readahead
      state and the read tasks of fuse.
    - [bc_vec] of a task is [visited ++ todo]: the chunks the loop of [run_read()] has
      dealt with and those it still has to visit.  A visited chunk whose child task waits
      for the server is [InFlight], one whose child task waits in the jukebox queue is
      [Queued].
    - [run_read()] is split where it may block: [read_start] runs up to the loop,
      [read_visit] visits one chunk, [read_lock] goes on when [set_locked()] returns,
      [read_end] is the part after the loop.  Each of these, each callback and each retry
      is one step; steps of different requests interleave.
    - The data of a READ reply reaches the buffer with its callback.  [attempts] is the
      number of times [rpc_nfs3_read_task()] fails to queue the call.
    - [RELEASE_CHUNK_AFTER_APPLICATION_READ] is defined, as in the source. *)
From S2P Require Import Prelude CacheState Membuf ChunkMap FileCache Readahead.

Definition FUSE_REPLY_IOV_MAX_COUNT : nat := 1023.

(** ** State *)
Definition memory := nat → Z → option Z.

(** Stores the bytes [l] at index [j] of buffer [id]. *)
Definition mem_write (id : nat) (j : Z) (l : list Z) (m : memory) : memory :=
  λ i x, if decide (i = id) then
           if (j <=? x) && (x <? j + Z.of_nat (length l)) then l !! Z.to_nat (x - j) else m i x
         else m i x.

Inductive progress := InFlight | Queued | Finished.

#[export] Instance progress_eq_dec : EqDecision progress.
Proof. solve_decision. Defined.

Record slot := Slot { s_bc : bytes_chunk; s_prog : progress }.

(** What fuse is told: the vectors of the bytes read, or an error. *)
Inductive reply := Data (iov : list (list (option Z))) | Error (status : Z).

Record read_task := Task {
  t_offset : Z;
  t_size : Z;
  t_requested : Z;
  t_sfsize : Z;
  t_cfsize : Z;
  visited : list slot;
  todo : list bytes_chunk;
  looping : bool;
  waiting : bool;
  found_in_cache : bool;
  total_length : Z;
  num_ongoing_backend_reads : Z;
  read_status : Z;
  replies : list reply;
}.

Record rstate := RState { fcache : cache; mem : memory; rastate : ra_state; tasks : list read_task }.

Abbreviation MT := (M rstate).

Definition set_fcache (c : cache) (w : rstate) : rstate := RState c (mem w) (rastate w) (tasks w).
Definition set_mem (m : memory) (w : rstate) : rstate := RState (fcache w) m (rastate w) (tasks w).
Definition set_ra (r : ra_state) (w : rstate) : rstate := RState (fcache w) (mem w) r (tasks w).
Definition set_tasks (l : list read_task) (w : rstate) : rstate := RState (fcache w) (mem w) (rastate w) l.

Definition on_cache {A} (m : MC A) : MT A :=
  λ w, match m (fcache w) with Some (a, c) => Some (a, set_fcache c w) | None => None end.
Definition on_ra {A} (m : MR A) : MT A :=
  λ w, match m (rastate w) with Some (a, r) => Some (a, set_ra r w) | None => None end.

Definition get_task (t : nat) : MT read_task := do w ← mget; mderef (tasks w !! t).
Definition put_task (t : nat) (x : read_task) : MT () := mmodify (λ w, set_tasks (<[t := x]> (tasks w)) w).
Definition write_mem (id : nat) (j : Z) (l : list Z) : MT () := mmodify (λ w, set_mem (mem_write id j l (mem w)) w).

(** Updates of a task. *)
Definition with_vec (v : list slot) (r : list bytes_chunk) (x : read_task) : read_task :=
  Task (t_offset x) (t_size x) (t_requested x) (t_sfsize x) (t_cfsize x) v r (looping x) (waiting x) (found_in_cache x)
    (total_length x) (num_ongoing_backend_reads x) (read_status x) (replies x).
Definition with_loop (l w f : bool) (n : Z) (x : read_task) : read_task :=
  Task (t_offset x) (t_size x) (t_requested x) (t_sfsize x) (t_cfsize x) (visited x) (todo x) l w f n
    (num_ongoing_backend_reads x) (read_status x) (replies x).
Definition with_ongoing (n : Z) (x : read_task) : read_task :=
  Task (t_offset x) (t_size x) (t_requested x) (t_sfsize x) (t_cfsize x) (visited x) (todo x) (looping x) (waiting x)
    (found_in_cache x) (total_length x) n (read_status x) (replies x).
Definition with_status (n : Z) (x : read_task) : read_task :=
  Task (t_offset x) (t_size x) (t_requested x) (t_sfsize x) (t_cfsize x) (visited x) (todo x) (looping x) (waiting x)
    (found_in_cache x) (total_length x) (num_ongoing_backend_reads x) n (replies x).
Definition with_reply (r : reply) (x : read_task) : read_task :=
  Task (t_offset x) (t_size x) (t_requested x) (t_sfsize x) (t_cfsize x) (visited x) (todo x) (looping x) (waiting x)
    (found_in_cache x) (total_length x) (num_ongoing_backend_reads x) (read_status x) (replies x ++ [r]).

Definition bc_set (pvt calls : Z) (bc : bytes_chunk) : bytes_chunk :=
  Chunk (bc_alloc_buffer bc) (bc_offset bc) (bc_length bc) (bc_buffer_offset bc) pvt calls (bc_is_whole bc) (bc_is_new bc).

(** ** Replying to fuse *)

(** The bytes of a chunk that have been read. *)
Definition chunk_data (m : memory) (bc : bytes_chunk) : list (option Z) :=
  (λ j, m (bc_alloc_buffer bc) (bc_buffer_offset bc + j)) <$> seqZ 0 (bc_pvt bc).

(** The loop that fills the iovec: it ends with the first chunk that is partial. *)
Fixpoint fill_iov (m : memory) (v : list slot) : MT (list (list (option Z)) * bool) :=
  match v with
  | [] => mret ([], false)
  | x :: v' =>
      let bc := s_bc x in
      do_ massert (bc_pvt bc <=? bc_length bc);
      if bc_pvt bc <? bc_length bc then mret ([chunk_data m bc], true)
      else do r ← fill_iov m v'; mret (chunk_data m bc :: r.1, r.2)
  end.

Definition bc_vec_clear (v : list slot) : MT () := mfor v (λ x, on_cache (bytes_chunk_dtor (s_bc x))).

(** [free_rpc_task()] of the task of a fuse request. *)
Definition free_rpc_task (t : nat) : MT () :=
  do x ← get_task t;
  do_ massert (num_ongoing_backend_reads x =? 0);
  do_ bc_vec_clear (visited x);
  put_task t (with_vec [] [] (with_status 0 x)).

(** [reply_iov()] and [reply_error()] answer the request and free its task. *)
Definition reply_with (t : nat) (r : reply) : MT () :=
  do x ← get_task t;
  do_ put_task t (with_reply r x);
  free_rpc_task t.

Definition reply_iov (t : nat) (iov : list (list (option Z))) : MT () :=
  do_ massert (length iov <=? FUSE_REPLY_IOV_MAX_COUNT)%nat;
  reply_with t (Data iov).

Definition send_read_response (t : nat) : MT () :=
  do x ← get_task t;
  do_ massert (num_ongoing_backend_reads x =? 0);
  if negb (read_status x =? 0) then
    do_ massert (0 <=? read_status x);
    reply_with t (Error (read_status x))
  else
    do w ← mget;
    do r ← fill_iov (mem w) (visited x);
    let bytes_read := Z.of_nat (length (concat r.1)) in
    do_ massert ((bytes_read =? t_size x) || r.2 || (length (visited x) =? FUSE_REPLY_IOV_MAX_COUNT)%nat);
    do_ massert (bytes_read <=? 1048576);
    if bytes_read =? 0 then reply_iov t [] else reply_iov t r.1.

(** ** run_read() *)

(** [inode->get_cached_filesize()] *)
Definition get_cached_filesize : MT Z :=
  do w ← mget;
  do_ massert (0 <=? cache_size (fcache w));
  do_ massert (cache_size (fcache w) <=? AZNFSC_MAX_FILE_SIZE);
  mret (cache_size (fcache w)).

(** [inode->get_file_sizes()]: the client's and the server's file size; [sfsize] is the
    size in the attribute cache, -1 when that has expired. *)
Definition get_file_sizes (sfsize : Z) : MT (Z * Z) :=
  if sfsize =? -1 then mret (-1, -1)
  else do cs ← get_cached_filesize; mret (Z.max sfsize cs, sfsize).

(** [inode->in_ra_window()] as the pruning code calls it. *)
Definition ra_window (scaled : Z) (r : ra_state) (off len : Z) : bool :=
  match in_ra_window scaled off len r with Some (b, _) => b | None => false end.

Definition new_task (x : read_task) : MT () := mmodify (λ w, set_tasks (tasks w ++ [x]) w).

Definition read_start (prune_goal : Z → Z → Z) (scaled sfsize offset size : Z) : MT () :=
  do fs ← get_file_sizes sfsize;
  let cfsize := fs.1 in
  let sfsize := fs.2 in
  if negb (cfsize =? -1) && (cfsize <=? offset) then
    new_task (Task offset size size sfsize cfsize [] [] false false true 0 0 0 [Data []])
  else
    do size' ← (if negb (cfsize =? -1) && (cfsize <? offset + size) then
                  let trimmed := size - (offset + size - cfsize) in
                  do_ massert (trimmed <? size); mret trimmed
                else mret size);
    do w ← mget;
    do v ← on_cache (get prune_goal (ra_window scaled (rastate w)) offset size');
    do_ on_ra (on_application_read scaled offset size');
    do_ massert (0 <? length v)%nat;
    new_task (Task offset size' size sfsize cfsize [] v true false true 0 1 0 []).

(** The bytes of [bc] were in the cache: drop the chunk, or what else may be dropped. *)
Definition release_read (bc : bytes_chunk) : MT () :=
  do released ← on_cache (release (bc_offset bc) (bc_length bc));
  do_ massert (released <=? bc_length bc);
  if released =? bc_length bc then mret ()
  else
    do w ← mget;
    let till := release_till (rastate w) in
    if till =? 0 then mret () else do_ on_cache (release 0 till); mret ().

(** One iteration of the loop, up to [set_locked()] if the chunk is not uptodate. *)
Definition read_visit (t : nat) : MT () :=
  do x ← get_task t;
  do_ massert (looping x && negb (waiting x));
  do bc ← mderef (head (todo x));
  let id := bc_alloc_buffer bc in
  let rest := tail (todo x) in
  let total := total_length x + bc_length bc in
  do mb ← on_cache (get_membuf id);
  do_ massert (is_inuse mb);
  do_ massert (bc_pvt bc =? 0);
  do_ massert (bc_num_backend_calls_issued bc =? 0);
  do_ massert ((t_cfsize x =? -1) || (bc_end bc <=? t_cfsize x));
  if (FUSE_REPLY_IOV_MAX_COUNT <=? length (visited x))%nat then
    do_ on_cache (clear_inuse id);
    put_task t (with_loop true false (found_in_cache x) total (with_vec (visited x ++ [Slot bc Finished]) rest x))
  else if is_uptodate mb then
    do_ on_cache (clear_inuse id);
    let bc' := bc_set (bc_length bc) 0 bc in
    do_ put_task t (with_loop true false (found_in_cache x) total (with_vec (visited x ++ [Slot bc' Finished]) rest x));
    release_read bc
  else put_task t (with_loop true true (found_in_cache x) total x).

(** [read_from_server()]: the child task for chunk [i] issues its READ.  The loop counts
    the call again each time it cannot be queued. *)
Definition read_from_server (t i : nat) (attempts : nat) : MT () :=
  do x ← get_task t;
  do s ← mderef (visited x !! i);
  let bc := s_bc s in
  let is_jukebox_read := 0 <? bc_num_backend_calls_issued bc in
  do mb ← on_cache (get_membuf (bc_alloc_buffer bc));
  do_ massert (is_locked mb);
  do_ massert (0 <? num_ongoing_backend_reads x);
  do_ massert (bc_pvt bc <? bc_length bc);
  do_ massert ((bc_length bc <=? AZNFSC_MAX_CHUNK_SIZE) && (bc_offset bc <? AZNFSC_MAX_FILE_SIZE));
  let n := Z.of_nat attempts + 1 in
  let s' := Slot (bc_set (bc_pvt bc) (bc_num_backend_calls_issued bc + n) bc) InFlight in
  let ongoing := if is_jukebox_read then num_ongoing_backend_reads x else num_ongoing_backend_reads x + n in
  put_task t (with_ongoing ongoing (with_vec (<[i := s']> (visited x)) (todo x) x)).

(** The rest of the iteration, once the lock is held. *)
Definition read_lock (t : nat) (attempts : nat) : MT () :=
  do x ← get_task t;
  do_ massert (looping x && waiting x);
  do bc ← mderef (head (todo x));
  let id := bc_alloc_buffer bc in
  let rest := tail (todo x) in
  let done := Slot (bc_set (bc_length bc) 0 bc) Finished in
  let finish := put_task t (with_loop true false (found_in_cache x) (total_length x)
                              (with_vec (visited x ++ [done]) rest x)) in
  do_ on_cache (set_locked id);
  do mb ← on_cache (get_membuf id);
  if is_uptodate mb then
    do_ on_cache (clear_locked id);
    do_ on_cache (clear_inuse id);
    do_ finish;
    do_ on_cache (release (bc_offset bc) (bc_length bc));
    mret ()
  else if (t_sfsize x =? -1) || (bc_offset bc <? t_sfsize x) then
    do_ massert (t_offset x <=? bc_offset bc);
    do_ massert (bc_length bc <=? t_size x);
    do_ put_task t (with_loop true false false (total_length x)
                      (with_vec (visited x ++ [Slot (bc_set 0 0 bc) InFlight]) rest x));
    read_from_server t (length (visited x)) attempts
  else
    do_ write_mem id (bc_buffer_offset bc) (repeat 0 (Z.to_nat (bc_length bc)));
    do_ on_cache (set_uptodate id);
    do_ on_cache (clear_locked id);
    do_ on_cache (clear_inuse id);
    do_ finish;
    do_ on_cache (release (bc_offset bc) (bc_length bc));
    mret ().

(** The part of [run_read()] after the loop. *)
Definition read_end (t : nat) : MT () :=
  do x ← get_task t;
  do_ massert (looping x && negb (waiting x));
  do_ massert (match todo x with [] => true | _ => false end);
  do_ bc_vec_clear (drop FUSE_REPLY_IOV_MAX_COUNT (visited x));
  do_ massert (total_length x =? t_size x);
  do_ massert (1 <=? num_ongoing_backend_reads x);
  let n := num_ongoing_backend_reads x - 1 in
  do_ put_task t (with_ongoing n (with_loop false false (found_in_cache x) (total_length x)
                    (with_vec (take FUSE_REPLY_IOV_MAX_COUNT (visited x)) [] x)));
  if negb (n =? 0) then massert (negb (found_in_cache x)) else send_read_response t.

(** ** read_callback() *)

(** A READ reply: data with the end-of-file flag, and whether the attributes that came
    with it make the inode invalidate its cache; a request to retry later; or an error. *)
Inductive read_res := ReadOk (data : list Z) (eof : bool) (invalidates : bool) | ReadJukebox | ReadFailed (status : Z).

(** The child task of chunk [i] is done with status [status]. *)
Definition child_done (t i : nat) (status : Z) : MT () :=
  do x ← get_task t;
  do s ← mderef (visited x !! i);
  let bc := s_bc s in
  do_ on_cache (clear_locked (bc_alloc_buffer bc));
  do_ on_cache (clear_inuse (bc_alloc_buffer bc));
  do_ on_cache (release (bc_offset bc) (bc_length bc));
  do mb ← on_cache (get_membuf (bc_alloc_buffer bc));
  do_ massert ((status =? 0) || negb (is_uptodate mb));
  let st := if read_status x =? 0 then status else read_status x in
  let n := num_ongoing_backend_reads x - 1 in
  do_ put_task t (with_ongoing n (with_status st (with_vec (<[i := Slot bc Finished]> (visited x)) (todo x) x)));
  if n =? 0 then send_read_response t else mret ().

(** All data the server has for the chunk is there: mark the membuf uptodate, after
    cutting off what lies beyond the end of the file. *)
Definition mark_uptodate (bc : bytes_chunk) (eof : bool) (count issued_length : Z) : MT () :=
  let id := bc_alloc_buffer bc in
  do full ← maps_full_membuf bc;
  if full && (bc_length bc =? bc_pvt bc) then on_cache (set_uptodate id)
  else
    do full' ← maps_full_membuf bc;
    if full' && (bc_pvt bc <? bc_length bc) && eof then
      do_ massert (count <? issued_length);
      do_ on_cache (clear_inuse id);
      do released ← on_cache (release (bc_offset bc + bc_pvt bc) (bc_length bc - bc_pvt bc));
      do_ on_cache (set_inuse id);
      do_ massert (released <=? bc_length bc - bc_pvt bc);
      if released =? bc_length bc - bc_pvt bc then on_cache (set_uptodate id) else mret ()
    else mret ().

(** The server's file ends after the first [pvt] bytes of the chunk, the client's may go on. *)
Definition zero_fill (bc : bytes_chunk) (pvt csfsize : Z) : MT Z :=
  if bc_offset bc + pvt <? csfsize then
    let zb_len := Z.min csfsize (bc_end bc) - (bc_offset bc + pvt) in
    do_ massert (0 <? zb_len);
    do_ write_mem (bc_alloc_buffer bc) (bc_buffer_offset bc + pvt) (repeat 0 (Z.to_nat zb_len));
    do_ massert (pvt + zb_len <=? bc_length bc);
    mret (pvt + zb_len)
  else mret pvt.

(** The part for a successful READ, once the attributes are updated. *)
Definition read_ok (t i : nat) (x : read_task) (bc : bytes_chunk) (data : list Z) (eof : bool) : MT () :=
  let issued_length := bc_length bc - bc_pvt bc in
  let count := Z.of_nat (length data) in
  do_ massert ((bc_pvt bc =? 0) || (1 <? bc_num_backend_calls_issued bc));
  do_ massert (count <=? issued_length);
  let is_partial_read := negb eof && (count <? issued_length) in
  do_ write_mem (bc_alloc_buffer bc) (bc_buffer_offset bc + bc_pvt bc) data;
  let pvt := bc_pvt bc + count in
  do_ massert (pvt <=? bc_length bc);
  do csfsize ← get_cached_filesize;
  do pvt' ← (if eof && (count <? issued_length) then zero_fill bc pvt csfsize else mret pvt);
  if is_partial_read then
    do_ massert ((bc_length bc <=? AZNFSC_MAX_CHUNK_SIZE) && (bc_offset bc <? AZNFSC_MAX_FILE_SIZE));
    put_task t (with_vec (<[i := Slot (bc_set pvt' (bc_num_backend_calls_issued bc + 1) bc) InFlight]> (visited x)) (todo x) x)
  else
    let bc' := bc_set pvt' (bc_num_backend_calls_issued bc) bc in
    do_ massert ((bc_length bc' =? bc_pvt bc') || eof);
    do_ put_task t (with_vec (<[i := Slot bc' InFlight]> (visited x)) (todo x) x);
    do_ mark_uptodate bc' eof count issued_length;
    child_done t i 0.

Definition read_callback (t i : nat) (res : read_res) : MT () :=
  do x ← get_task t;
  do s ← mderef (visited x !! i);
  do_ massert (bool_decide (s_prog s = InFlight));
  let bc := s_bc s in
  do_ massert (0 <? num_ongoing_backend_reads x);
  do_ massert (0 <? bc_length bc);
  do_ massert (0 <? bc_num_backend_calls_issued bc);
  do_ massert (bc_pvt bc <? bc_length bc);
  do mb ← on_cache (get_membuf (bc_alloc_buffer bc));
  do_ massert (is_inuse mb);
  do_ massert (is_locked mb);
  match res with
  | ReadOk data eof invalidates =>
      do_ (if invalidates then on_cache invalidate else mret ());
      read_ok t i x bc data eof
  | ReadJukebox => put_task t (with_vec (<[i := Slot bc Queued]> (visited x)) (todo x) x)
  | ReadFailed status => child_done t i status
  end.

(** [jukebox_read()]: a queued READ is issued again. *)
Definition jukebox_read (t i : nat) (attempts : nat) : MT () :=
  do x ← get_task t;
  do s ← mderef (visited x !! i);
  do_ massert (bool_decide (s_prog s = Queued));
  do_ massert (0 <? num_ongoing_backend_reads x);
  do_ massert (0 <? bc_num_backend_calls_issued (s_bc s));
  do_ massert (t_offset x <=? bc_offset (s_bc s) + bc_pvt (s_bc s));
  do_ massert (bc_length (s_bc s) - bc_pvt (s_bc s) <=? t_size x);
  read_from_server t i attempts.
