(* ===== verification/ReadCache.v ===== *)
(** * The file cache as the read path uses it

    [cside] is the part of the read path's invariant that concerns the cache and the
    buffers: [A] are the chunks the read tasks hold references on, [h] the membufs they
    hold use counts on, [l] the membufs they hold locked, [P] the chunks that are
    certain to be in the chunkmap.  The file's contents are fixed: [srv] and [ssize] are
    what the server has, [wr] the bytes written by the application that are still only in
    the cache.  [F] are the membufs that a flush is writing out, none for the read and write paths.  This file proves that every cache operation the read path uses runs and
    keeps [cside]. *)
From S2P Require Import Prelude CacheState Membuf MembufSpec ChunkMap FileCache CacheInv MembufInv CacheOps Purge ScanGet CacheGet ScanRelease CacheRelease Truncate CacheSize TruncateSpec CacheTruncate DirtyLists CacheSteps CacheFrame Readahead ReadPath.

Section contents.
Context (srv : Z → Z) (ssize : Z) (wr : Z → option Z) (F : list nat).

(** The byte a reader of the file must see. *)
Definition file_byte (o : Z) : Z :=
  match wr o with Some b => b | None => if o <? ssize then srv o else 0 end.

(** Nothing of the file is at or beyond [e]. *)
Definition file_ends (e : Z) : Prop := ssize ≤ e ∧ ∀ o, e ≤ o → wr o = None.

(** Byte [o] of the file is in the buffer of [mb], and it is the right one. *)
Definition holds_byte (m : memory) (i : nat) (mb : membuf) (o : Z) : Prop :=
  is_Some (m i (o - mb_initial_offset mb)).

Record cside (c : cache) (m : memory) (A : list bytes_chunk) (h l : list nat) (P : list bytes_chunk) : Prop := {
  cs_inv : inv c;
  cs_led : ledger (vids A) h c;
  cs_sub : ∀ i, occ i h ≤ occ i (vids A);
  cs_lock : ∀ i mb, membufs c !! i = Some mb → mb_has Locked mb = true ↔ i ∈ l;
  cs_nodup : NoDup l;
  cs_lref : ∀ i, i ∈ l → i ∈ vids A;
  cs_att : ∀ bc, bc ∈ A → ∃ mb, membufs c !! bc_alloc_buffer bc = Some mb ∧
    bc_buffer_offset bc = bc_offset bc - mb_initial_offset mb;
  cs_pin : ∀ bc, bc ∈ P → bc_alloc_buffer bc ∈ h ∧ ∃ k x, (k, x) ∈ chunkmap c ∧ is_view bc x;
  cs_flush : ∀ i mb, membufs c !! i = Some mb → mb_has Flushing mb = true → i ∈ F;
  cs_unsaved : ∀ i mb, membufs c !! i = Some mb → unsaved mb = true → i ∈ ids (chunkmap c);
  cs_true : ∀ i mb o v, membufs c !! i = Some mb → mb_offset mb ≤ o < mb_offset mb + mb_length mb →
    m i (o - mb_initial_offset mb) = Some v → v = file_byte o;
  cs_seen : ∀ bc j v, bc ∈ A → 0 ≤ j < bc_length bc →
    m (bc_alloc_buffer bc) (bc_buffer_offset bc + j) = Some v → v = file_byte (bc_offset bc + j);
  cs_fresh : ∀ i j, (next_id c ≤ i)%nat → m i j = None;
  cs_up : ∀ i mb o, membufs c !! i = Some mb → mb_has Uptodate mb = true →
    mb_offset mb ≤ o < mb_offset mb + mb_length mb → holds_byte m i mb o;
  cs_wr : ∀ o, is_Some (wr o) → o < cache_size c ∧
    ∃ k x mb, (k, x) ∈ chunkmap c ∧ bc_offset x ≤ o < bc_end x ∧
      membufs c !! bc_alloc_buffer x = Some mb ∧ mb_has Dirty mb = true;
  cs_size : 0 ≤ cache_size c ≤ AZNFSC_MAX_FILE_SIZE;
  cs_fit : ∀ i mb, membufs c !! i = Some mb → mb_has Uptodate mb = true → mb_offset mb + mb_length mb ≤ cache_size c;
}.

Lemma cside_perm c m A A' h h' l l' P P' :
  A ≡ₚ A' → h ≡ₚ h' → l ≡ₚ l' → P ≡ₚ P' → cside c m A h l P → cside c m A' h' l' P'.
Proof.
  intros HA Hh Hl HP [I Ld S Lk N Lr At Pn Fl U T Tv Fr Up W Z Ft]. assert (vids A ≡ₚ vids A') as Hv by (unfold vids; by rewrite HA).
  split; try done.
  - by eapply ledger_perm.
  - intros i. rewrite <- Hh, <- Hv. apply S.
  - intros i mb Hi. rewrite <- Hl. by apply Lk.
  - by rewrite <- Hl.
  - intros i. rewrite <- Hl, <- Hv. apply Lr.
  - intros bc. rewrite <- HA. apply At.
  - intros bc. rewrite <- HP, <- Hh. apply Pn.
  - intros bc j v. rewrite <- HA. apply Tv.
Qed.

Lemma cside_unpin c m A h l P P' : (∀ bc, bc ∈ P' → bc ∈ P) → cside c m A h l P → cside c m A h l P'.
Proof. intros HP []. split; auto. Qed.

Lemma cs_calm c m A h l P i mb : cside c m A h l P → membufs c !! i = Some mb → i ∉ F → mb_has Flushing mb = false.
Proof. intros C Hm HF. apply not_true_iff_false. by intros ?%(cs_flush _ _ _ _ _ _ C _ _ Hm). Qed.

Section facts.
Context (c : cache) (m : memory) (A : list bytes_chunk) (h l : list nat) (P : list bytes_chunk).
Context (C : cside c m A h l P).

Lemma cs_inuse i mb : membufs c !! i = Some mb → mb_inuse mb = occ i h.
Proof. apply (ld_use _ _ _ (cs_led _ _ _ _ _ _ C)). Qed.

(** A membuf with a use count is alive and in use. *)
Lemma cs_held i : i ∈ h → ∃ mb, membufs c !! i = Some mb ∧ is_inuse mb = true ∧ mb_wf mb.
Proof.
  intros Hi. assert (i ∈ vids A) as HA.
  { apply occ_pos. apply occ_pos in Hi. pose proof (cs_sub _ _ _ _ _ _ C i). lia. }
  destruct (ld_live _ _ _ (cs_led _ _ _ _ _ _ C) _ HA) as [mb Hmb]. exists mb. split; [done|].
  split; [|by apply (inv_heap _ _ (cs_inv _ _ _ _ _ _ C)) in Hmb as [? _]].
  unfold is_inuse, mb_is_inuse. rewrite (cs_inuse _ _ Hmb). by apply Z.ltb_lt, occ_pos.
Qed.

(** A pinned chunk, its entry in the chunkmap and its membuf. *)
Lemma cs_pinned bc :
  bc ∈ P → ∃ k x mb, (k, x) ∈ chunkmap c ∧ is_view bc x ∧ membufs c !! bc_alloc_buffer bc = Some mb ∧
    linked x mb ∧ mb_wf mb ∧ is_inuse mb = true.
Proof.
  intros Hb. destruct (cs_pin _ _ _ _ _ _ C _ Hb) as (Hh & k & x & Hin & Hv).
  destruct (cs_held _ Hh) as (mb & Hmb & Hu & Hwf). destruct (inv_chunk _ _ (cs_inv _ _ _ _ _ _ C) _ _ Hin) as (mb' & Hmb' & Hl & _).
  rewrite <- (view_alloc _ _ Hv), Hmb in Hmb'. injection Hmb' as <-. by exists k, x, mb.
Qed.

(** A membuf that is not uptodate caches nothing the application has written. *)
Lemma cs_unwritten bc mb o :
  bc ∈ P → membufs c !! bc_alloc_buffer bc = Some mb → mb_has Uptodate mb = false →
  bc_offset bc ≤ o < bc_end bc → wr o = None.
Proof.
  intros Hb Hmb Hup Ho. destruct (wr o) as [b|] eqn:Hw; [|done]. exfalso.
  destruct (cs_wr _ _ _ _ _ _ C o) as (_ & k & x & mb' & Hin & Hx & Hmb' & Hd); [by rewrite Hw|].
  destruct (cs_pinned _ Hb) as (k2 & x2 & mb2 & Hin2 & Hv & _).
  pose proof (inv_wf _ _ (cs_inv _ _ _ _ _ _ C)) as Hm.
  assert (cm_find o (chunkmap c) = Some x) as E1 by (apply (cm_find_elem 0); [done|]; destruct (cm_wf_elem _ _ _ _ Hm Hin) as (-> & _); done).
  assert (cm_find o (chunkmap c) = Some x2) as E2.
  { apply (cm_find_elem 0); [done|]. destruct (cm_wf_elem _ _ _ _ Hm Hin2) as (-> & _). split; [done|].
    pose proof (view_lo _ _ Hv). pose proof (view_hi _ _ Hv). lia. }
  rewrite E1 in E2. injection E2 as ->. rewrite (view_alloc _ _ Hv), Hmb' in Hmb. injection Hmb as ->.
  destruct (inv_heap _ _ (cs_inv _ _ _ _ _ _ C) _ _ Hmb') as [Hwf _]. apply (wf_dirty _ Hwf) in Hd as [? _]. congruence.
Qed.
End facts.

(** ** Operations on the chunkmap *)

(** The cache evolved under a ledger: everything but the chunkmap is as before. *)
Lemma cside_evolves c c' m A h l P A' h' P' :
  cside c m A h l P → inv c' → ledger (vids A') h' c' → evolves c c' → keeps_unsaved c c' →
  (∀ i, occ i h' ≤ occ i (vids A')) → (∀ i, i ∈ l → i ∈ vids A') →
  (∀ bc, bc ∈ A' → bc ∈ A ∨ ∃ mb, membufs c' !! bc_alloc_buffer bc = Some mb ∧ bc_buffer_offset bc = bc_offset bc - mb_initial_offset mb ∧
    mb_offset mb ≤ bc_offset bc ∧ bc_end bc ≤ mb_offset mb + mb_length mb) →
  (∀ bc, bc ∈ P' → bc_alloc_buffer bc ∈ h' ∧ ∃ k x, (k, x) ∈ chunkmap c' ∧ is_view bc x) →
  cside c' m A' h' l P'.
Proof.
  intros C I' Ld' E K S' L' At' P''. pose proof (cs_inv _ _ _ _ _ _ C) as I.
  assert (∀ i mb', membufs c' !! i = Some mb' → i ∈ vids A → ∃ mb, membufs c !! i = Some mb ∧ mb_later mb mb') as Hold.
  { intros i mb' H Hi. destruct (ev_mb _ _ E _ _ H) as [?|[? _]]; [done|].
    destruct (ld_live _ _ _ (cs_led _ _ _ _ _ _ C) _ Hi) as [mb Hm]. apply (inv_heap _ _ I) in Hm as [_ ?]. lia. }
  assert (∀ i mb' f, membufs c' !! i = Some mb' → mb_has f mb' = true → ∃ mb, membufs c !! i = Some mb ∧ mb_later mb mb' ∧ mb_has f mb = true) as Hflag.
  { intros i mb' f H Hf. destruct (ev_mb _ _ E _ _ H) as [(mb & Hm & Hl)|[_ Fl]].
    - exists mb. split_and!; try done. unfold mb_has in *. by rewrite (lt_flag _ _ Hl) in Hf.
    - unfold mb_has in Hf. by rewrite Fl, has_flag_0 in Hf. }
  assert (∀ i mb' o v, membufs c' !! i = Some mb' → mb_offset mb' ≤ o < mb_offset mb' + mb_length mb' →
    m i (o - mb_initial_offset mb') = Some v → v = file_byte o) as Htrue.
  { intros i mb' o v H Ho Hv. destruct (ev_mb _ _ E _ _ H) as [(mb & Hm & Hl)|[Hn _]].
    - rewrite (lt_initial _ _ Hl) in Hv. pose proof (lt_lo _ _ Hl). pose proof (lt_hi _ _ Hl).
      eapply (cs_true _ _ _ _ _ _ C); [done| |done]. lia.
    - by rewrite (cs_fresh _ _ _ _ _ _ C) in Hv. }
  split; try done.
  - intros i mb' H. split.
    + intros (mb & Hm & _ & Hf)%(Hflag _ _ _ H). by apply (cs_lock _ _ _ _ _ _ C _ _ Hm).
    + intros Hi. destruct (Hold i mb' H) as (mb & Hm & Hl); [by apply (cs_lref _ _ _ _ _ _ C)|].
      apply (cs_lock _ _ _ _ _ _ C _ _ Hm) in Hi. unfold mb_has in *. by rewrite (lt_flag _ _ Hl).
  - apply (cs_nodup _ _ _ _ _ _ C).
  - intros bc HA. destruct (At' _ HA) as [Hb|(mb & ? & ? & _)]; [|by exists mb]. destruct (cs_att _ _ _ _ _ _ C _ Hb) as (mb & Hm & Ho).
    destruct (ld_live _ _ _ Ld' (bc_alloc_buffer bc)) as [mb' Hm']; [by apply list_elem_of_fmap_2|].
    destruct (Hold _ _ Hm') as (mb0 & Hm0 & Hl); [by apply list_elem_of_fmap_2|]. rewrite Hm in Hm0. injection Hm0 as <-.
    exists mb'. split; [done|]. by rewrite (lt_initial _ _ Hl).
  - intros i mb' H Hf. destruct (Hflag _ _ _ H Hf) as (mb & Hm & _ & Hf'). by apply (cs_flush _ _ _ _ _ _ C _ _ Hm).
  - intros i mb' H Hu. destruct (ev_mb _ _ E _ _ H) as [(mb & Hm & Hl)|[_ Fl]].
    + assert (unsaved mb = true) as Hu' by (unfold unsaved, mb_has in *; by rewrite <- (lt_flag _ _ Hl)).
      pose proof (cs_unsaved _ _ _ _ _ _ C _ _ Hm Hu') as (k & x & Hin & <-)%elem_of_ids.
      destruct (K k x mb Hin Hm Hu') as [Hin' _]. apply elem_of_ids. eauto.
    + unfold unsaved, mb_has in Hu. by rewrite Fl, !has_flag_0 in Hu.
  - intros bc j v HA Hj Hv. destruct (At' _ HA) as [Hb|(mb & Hm & Ho & Hlo & Hhi)]; [by eapply (cs_seen _ _ _ _ _ _ C)|].
    unfold bc_end in Hhi. eapply Htrue; [exact Hm|lia|]. rewrite <- Hv. f_equal. lia.
  - intros i j Hi. apply (cs_fresh _ _ _ _ _ _ C). pose proof (ev_next _ _ E). lia.
  - intros i mb' o H Hu Ho. destruct (Hflag _ _ _ H Hu) as (mb & Hm & Hl & Hu').
    unfold holds_byte. rewrite (lt_initial _ _ Hl). eapply (cs_up _ _ _ _ _ _ C); [done|done|].
    pose proof (lt_lo _ _ Hl). pose proof (lt_hi _ _ Hl). lia.
  - intros o Ho. destruct (cs_wr _ _ _ _ _ _ C o Ho) as (Hlt & k & x & mb & Hin & Hx & Hm & Hd).
    rewrite (ev_size _ _ E). split; [done|].
    destruct (K k x mb Hin Hm) as (Hin' & mb' & Hm' & Hu' & _); [unfold unsaved; by rewrite Hd|].
    exists k, x, mb'. split_and!; try done; try lia.
    destruct (ev_mb _ _ E _ _ Hm') as [(mb0 & Hm0 & Hl)|[_ Fl]].
    + rewrite Hm in Hm0. injection Hm0 as <-. unfold mb_has in *. by rewrite (lt_flag _ _ Hl).
    + unfold unsaved, mb_has in Hu'. by rewrite Fl, !has_flag_0 in Hu'.
  - rewrite (ev_size _ _ E). apply (cs_size _ _ _ _ _ _ C).
  - intros i mb' H Hu. destruct (Hflag _ _ _ H Hu) as (mb & Hm & Hl & Hu').
    pose proof (lt_hi _ _ Hl). pose proof (cs_fit _ _ _ _ _ _ C _ _ Hm Hu'). rewrite (ev_size _ _ E). lia.
Qed.

Lemma ignore_run {X} (f : MC X) c x c' : f c = Some (x, c') → ignore f c = Some ((), c').
Proof. intros Hf. unfold ignore, bind. by rewrite Hf. Qed.

(** An entry whose membuf is in use. *)
Lemma pin_busy c m A h l P k x bc :
  cside c m A h l P → (k, x) ∈ chunkmap c → is_view bc x → bc_alloc_buffer bc ∈ h →
  ∃ mb, membufs c !! bc_alloc_buffer x = Some mb ∧ is_inuse mb = true.
Proof.
  intros C Hin Hv Hh. destruct (cs_held _ _ _ _ _ _ C _ Hh) as (mb & Hm & Hu & _).
  exists mb. by rewrite <- (view_alloc _ _ Hv).
Qed.

Lemma cside_release c m A h l P o n :
  cside c m A h l P → release_range o n →
  wp (release o n) c (λ r c', 0 ≤ r ≤ n ∧ cside c' m A h l P ∧ evolves c c').
Proof.
  intros C Hr. pose proof (cs_inv _ _ _ _ _ _ C) as I.
  destruct (release_spec c o n I Hr) as (r & c' & Hrun & s1 & s2 & _ & _ & Hrel & _ & I').
  destruct (ledger_release o n _ _ _ (cs_led _ _ _ _ _ _ C) _ _ Hrun) as [Ld' E].
  exists r, c'. split; [done|]. split; [apply (re_le _ _ _ _ _ Hrel)|]. split; [|done].
  eapply cside_evolves; [exact C|done|done|done| |apply C|apply C|by left|].
  - eapply (keeps_unsaved_step (Release o n)); [done| |done|by eapply ignore_run]. destruct Hr. simpl.
    rewrite !andb_true_iff, !Z.leb_le, Z.ltb_lt. lia.
  - intros bc Hb. destruct (cs_pin _ _ _ _ _ _ C _ Hb) as (Hh & k & x & Hin & Hv). split; [done|].
    destruct (pin_busy _ _ _ _ _ _ _ _ _ C Hin Hv Hh) as (mb & Hm & Hu). exists k, x. split; [|done].
    eapply (wp_run _ _ _ _ _ Hrun (release_keeps c o n k x mb I Hr Hin Hm ltac:(by rewrite Hu))).
Qed.

Lemma cside_clear c m A h l P : cside c m A h l P → wp (clear false) c (λ _ c', cside c' m A h l P ∧ evolves c c').
Proof.
  intros C. pose proof (cs_inv _ _ _ _ _ _ C) as I.
  destruct (clear_nolock_spec c I) as ([] & c' & Hrun & Hp & _).
  destruct (ledger_clear _ _ _ (cs_led _ _ _ _ _ _ C) _ _ Hrun) as [Ld' E].
  exists (), c'. split; [done|]. split; [|done].
  eapply cside_evolves; [exact C|apply (pu_inv _ _ Hp)|done|done|by apply keeps_purged|apply C|apply C|by left|].
  intros bc Hb. destruct (cs_pin _ _ _ _ _ _ C _ Hb) as (Hh & k & x & Hin & Hv). split; [done|].
  destruct (pin_busy _ _ _ _ _ _ _ _ _ C Hin Hv Hh) as (mb & Hm & Hu). exists k, x. split; [|done].
  destruct (decide ((k, x) ∈ chunkmap c')) as [?|Hn]; [done|].
  apply (pu_drop _ _ Hp _ Hin), (purgeable_spec _ _ _ _ Hm) in Hn as [Hu' _]. unfold is_inuse in Hu. congruence.
Qed.

(** A chunk that a lookup has just added is whole. *)
Definition new_whole (bc : bytes_chunk) : Prop := bc_is_new bc = true → bc_is_whole bc = true.

Lemma got_new_whole s o n v s' : got s o n v s' → Forall new_whole v.
Proof.
  intros Hg. apply Forall_forall. intros bc Hb Hnew. pose proof (inv_wf _ _ (got_inv _ _ _ _ _ Hg)) as Hw.
  assert (0 < bc_length bc) as Hl.
  { pose proof (got_cov _ _ _ _ _ Hg) as Hc. apply list_elem_of_split in Hb as (v1 & v2 & ->). by apply covers_app in Hc as (? & _ & _ & ? & _). }
  destruct (got_view _ _ _ _ _ Hg _ Hb) as (k & x & Hin & Hv).
  assert ((bc_offset bc, entry bc) ∈ chunkmap s') as Hin' by (apply (got_map _ _ _ _ _ Hg); right; eauto).
  assert (cm_find (bc_offset bc) (chunkmap s') = Some (entry bc)) as E1.
  { apply (cm_find_elem 0); [done|]. split; [done|]. unfold bc_end. simpl. lia. }
  assert (cm_find (bc_offset bc) (chunkmap s') = Some x) as E2.
  { apply (cm_find_elem 0); [done|]. destruct (cm_wf_elem _ _ _ _ Hw Hin) as (-> & _). split; [done|].
    pose proof (view_lo _ _ Hv). pose proof (view_hi _ _ Hv). unfold bc_end in *. lia. }
  rewrite E1 in E2. injection E2 as <-. by apply (view_whole _ _ Hv).
Qed.

(** A lookup adds the chunks it returns, which are in the chunkmap and unread. *)
Lemma cside_looked_up c m A h l P o n v c' :
  cside c m A h l P → looked_up c o n v c' → ledger (vids v ++ vids A) (vids v ++ h) c' → evolves c c' → keeps_unsaved c c' →
  cside c' m (v ++ A) (vids v ++ h) l (v ++ P) ∧ covers v o (o + n) ∧ Forall new_whole v.
Proof.
  intros C Hl Ld' E K. pose proof (cs_inv _ _ _ _ _ _ C) as I. pose proof (up_inv _ _ _ _ _ Hl) as I'.
  pose proof Hl as (s1 & Hp & Hg). split_and!; [|apply (got_cov _ _ _ _ _ Hg)|by eapply got_new_whole].
  assert (vids (v ++ A) = vids v ++ vids A) as Hva by apply fmap_app.
  eapply cside_evolves; [exact C|done|by rewrite Hva|done|done|..].
  - intros i. rewrite Hva, !occ_app. pose proof (cs_sub _ _ _ _ _ _ C i). lia.
  - intros i Hi. rewrite Hva. apply elem_of_app. right. by apply (cs_lref _ _ _ _ _ _ C).
  - intros bc [Hb|?]%elem_of_app; [right|by left].
    destruct (got_view _ _ _ _ _ Hg _ Hb) as (k & x & Hin & Hv). destruct (inv_chunk _ _ I' _ _ Hin) as (mb & Hm & Hlk & _).
    exists mb. rewrite (view_alloc _ _ Hv). split; [done|]. rewrite (view_boff _ _ Hv), (link_buffer _ _ Hlk).
    pose proof (view_lo _ _ Hv). pose proof (view_hi _ _ Hv). rewrite <- (link_offset _ _ Hlk), <- (link_length _ _ Hlk).
    unfold bc_end in *. split_and!; lia.
  - intros bc [Hb|Hb]%elem_of_app.
    + split; [apply elem_of_app; left; by apply list_elem_of_fmap_2|]. by apply (got_view _ _ _ _ _ Hg).
    + destruct (cs_pin _ _ _ _ _ _ C _ Hb) as (Hh & k & x & Hin & Hv). split; [apply elem_of_app; by right|].
      destruct (pin_busy _ _ _ _ _ _ _ _ _ C Hin Hv Hh) as (mb & Hm & Hiu). exists k, x. split; [|done].
      apply (up_busy _ I _ _ _ _ Hl k x mb Hin Hm). apply not_true_iff_false. rewrite (purgeable_spec _ _ _ _ Hm).
      intros [Hu' _]. unfold is_inuse in Hiu. congruence.
Qed.

Lemma lookup_op_ok o n : get_range o n → (0 <=? o) && (0 <? n) && (n <=? AZNFSC_MAX_CHUNK_SIZE) && (o + n <=? AZNFSC_MAX_FILE_SIZE) = true.
Proof. intros []. rewrite !andb_true_iff, !Z.leb_le, Z.ltb_lt. lia. Qed.

Lemma cside_get c m A h l P pg ra o n :
  cside c m A h l P → get_range o n →
  wp (get pg ra o n) c (λ v c', cside c' m (v ++ A) (vids v ++ h) l (v ++ P) ∧ evolves c c' ∧
    covers v o (o + n) ∧ Forall unread v ∧ Forall new_whole v).
Proof.
  intros C Hr. pose proof (cs_inv _ _ _ _ _ _ C) as I.
  destruct (get_spec pg ra c o n I Hr) as (v & c' & Hrun & Hl).
  destruct (ledger_get pg ra o n _ _ _ (cs_led _ _ _ _ _ _ C) _ _ Hrun) as [[Ld' E] Hu]. exists v, c'. split; [done|].
  assert (keeps_unsaved c c') as K by (eapply (keeps_unsaved_step (Get pg ra o n)); [done|by apply lookup_op_ok|done|by eapply ignore_run]).
  by destruct (cside_looked_up _ _ _ _ _ _ _ _ _ _ C Hl Ld' E K) as (? & ? & ?).
Qed.

Lemma cside_getx c m A h l P pg ra o n :
  cside c m A h l P → get_range o n →
  wp (getx pg ra o n) c (λ r c', cside c' m (r.1.1 ++ A) (vids r.1.1 ++ h) l (r.1.1 ++ P) ∧ evolves c c' ∧
    covers r.1.1 o (o + n) ∧ NoDup (vids r.1.1) ∧ Forall new_whole r.1.1 ∧ extent_ok o n r.1.2 r.2 c' ∧ looked_up c o n r.1.1 c').
Proof.
  intros C Hr. pose proof (cs_inv _ _ _ _ _ _ C) as I.
  destruct (getx_spec pg ra c o n I Hr) as (r & c' & Hrun & Hl & Hx).
  destruct (ledger_getx pg ra o n _ _ _ (cs_led _ _ _ _ _ _ C) _ _ Hrun) as [[Ld' E] _]. exists r, c'. split; [done|].
  assert (keeps_unsaved c c') as K by (eapply (keeps_unsaved_step (Getx pg ra o n)); [done|by apply lookup_op_ok|done|by eapply ignore_run]).
  destruct (cside_looked_up _ _ _ _ _ _ _ _ _ _ C Hl Ld' E K) as (? & ? & ?). split_and!; try done.
  destruct Hl as (s1 & _ & Hg). by apply (got_nodup _ _ _ _ _ Hg).
Qed.

Lemma cside_invalidate c m A h l P : cside c m A h l P → cside (c_set_invalidate true c) m A h l P.
Proof.
  intros C. pose proof (cs_led _ _ _ _ _ _ C) as [V R U H M L].
  split; try apply C; [by apply inv_set_invalidate, C|by split].
Qed.

(** Dropping the last use of a chunk: its reference goes. *)
Lemma cside_drop c m A h l P bc :
  cside c m (bc :: A) h l P → (∀ i, occ i h ≤ occ i (vids A)) → (∀ i, i ∈ l → i ∈ h) →
  wp (bytes_chunk_dtor bc) c (λ _ c', cside c' m A h l P ∧ evolves c c' ∧ chunkmap c' = chunkmap c).
Proof.
  intros C S Lh. pose proof (cs_inv _ _ _ _ _ _ C) as I. unfold bytes_chunk_dtor. set (id := bc_alloc_buffer bc).
  pose proof (cs_led _ _ _ _ _ _ C) as Ld. change (vids (bc :: A)) with (id :: vids A) in Ld.
  destruct (ld_live _ _ _ Ld id) as [mb Hm]; [by left|]. pose proof (ld_ref _ _ _ Ld _ _ Hm) as Hr. rewrite occ_cons_eq in Hr.
  assert (Z.b2z (in_map id (chunkmap c)) ≤ occ id (ids (chunkmap c))) as Hmap.
  { unfold in_map. case_bool_decide as Hin; simpl; [apply occ_pos in Hin; lia|apply occ_nonneg]. }
  assert (Z.b2z (held mb) ≤ occ id (vids A)) as Hheld.
  { specialize (S id). pose proof (occ_nonneg id h). destruct (held mb) eqn:Hh; simpl; [|lia]. enough (id ∈ h) by (apply occ_pos in H0; lia).
    apply orb_true_iff in Hh as [Hlk|Hiu].
    - apply Lh. by apply (cs_lock _ _ _ _ _ _ C _ _ Hm).
    - apply occ_pos. rewrite <- (ld_use _ _ _ Ld _ _ Hm). by apply Z.ltb_lt. }
  assert (mb_use_count mb = 1 → mb_has Dirty mb = false ∧ mb_has CommitPending mb = false) as Hlast.
  { intros Hone. apply orb_false_iff. destruct (_ || _) eqn:Hu; [|done].
    apply (cs_unsaved _ _ _ _ _ _ C _ _ Hm), occ_pos in Hu. pose proof (occ_nonneg id (vids A)). lia. }
  destruct (shared_ptr_reset_spec ∅ c id mb I Hm) as ([] & c' & Hrun & I' & Hd); [set_solver|unfold held_out; rewrite decide_False by set_solver; lia| |].
  { intros Hone. by destruct (Hlast Hone) as [-> ->]. }
  destruct (ledger_reset _ _ _ _ Ld _ _ Hrun) as [Ld' E]. exists (), c'. split; [done|].
  split; [|split; [done|apply (drop_chunkmap _ _ _ _ Hd)]].
  eapply cside_evolves; [exact C|done|done|done| |done| |..].
  - eapply (keeps_drop_ref c id); [done| |done]. unfold op_ok, on_membuf. rewrite Hm. simpl.
    apply andb_true_iff. split; [apply Z.leb_le; unfold needed_refs; lia|].
    apply orb_true_iff. destruct (Z.eqb_spec (mb_use_count mb) 1) as [Hone|]; [right|by left].
    by destruct (Hlast Hone) as [-> ->].
  - intros i Hi. apply occ_pos. specialize (S i). apply Lh, occ_pos in Hi. lia.
  - intros b Hb. left. by right.
  - intros b Hb. rewrite (drop_chunkmap _ _ _ _ Hd). apply (cs_pin _ _ _ _ _ _ C _ Hb).
Qed.

(** ** Operations on a membuf *)

(** A change of the flags and the use count of one membuf. *)
Lemma cside_update c c' m A h l P id mb mb' h' l' P' :
  cside c m A h l P → membufs c !! id = Some mb → membufs c' = <[id := mb']> (membufs c) →
  chunkmap c' = chunkmap c → next_id c' = next_id c → cache_size c ≤ cache_size c' ≤ AZNFSC_MAX_FILE_SIZE → inv c' →
  mb_initial_offset mb' = mb_initial_offset mb → mb_offset mb' = mb_offset mb → mb_length mb' = mb_length mb →
  mb_use_count mb' = mb_use_count mb →
  mb_inuse mb' = occ id h' → (∀ i, i ≠ id → occ i h' = occ i h) → occ id h' ≤ occ id (vids A) →
  (mb_has Locked mb' = true ↔ id ∈ l') → (∀ i, i ≠ id → i ∈ l' ↔ i ∈ l) → NoDup l' → (id ∈ l' → id ∈ vids A) →
  (mb_has Flushing mb' = true → id ∈ F) → (unsaved mb' = true → unsaved mb = true ∨ id ∈ ids (chunkmap c)) →
  (mb_has Dirty mb = true → mb_has Dirty mb' = true ∨ ∀ o, mb_offset mb ≤ o < mb_offset mb + mb_length mb → wr o = None) →
  (mb_has Uptodate mb' = true → ∀ o, mb_offset mb' ≤ o < mb_offset mb' + mb_length mb' → holds_byte m id mb o) →
  (mb_has Uptodate mb' = true → mb_offset mb' + mb_length mb' ≤ cache_size c') →
  (∀ bc, bc ∈ P' → bc ∈ P ∧ bc_alloc_buffer bc ∈ h' ∨ bc_alloc_buffer bc ∈ h' ∧ ∃ k x, (k, x) ∈ chunkmap c ∧ is_view bc x) →
  cside c' m A h' l' P'.
Proof.
  intros C Hm Hh Hc Hn Hz I' Hi Hof Hle0 Hu Hiu Hoth Hle Hlk Hlo Hnd Hla Hf Hun Hd Hup Hft HP.
  assert (∀ i x, membufs c' !! i = Some x → i = id ∧ x = mb' ∨ i ≠ id ∧ membufs c !! i = Some x) as Hcase.
  { intros i x. rewrite Hh. destruct (decide (i = id)) as [->|Hne]; [rewrite lookup_insert_eq; intros [= <-]; by left|].
    rewrite lookup_insert_ne by done. by right. }
  assert (∀ i x, membufs c !! i = Some x → ∃ x', membufs c' !! i = Some x' ∧ mb_initial_offset x' = mb_initial_offset x) as Hkeep.
  { intros i x Hx. rewrite Hh. destruct (decide (i = id)) as [->|Hne].
    - rewrite lookup_insert_eq. exists mb'. split; [done|]. congruence.
    - rewrite lookup_insert_ne by done. eauto. }
  split; try done.
  - destruct (cs_led _ _ _ _ _ _ C) as [V R U H M L]. split; rewrite ?Hc, ?Hn; try done.
    + intros i Hi'. destruct (V _ Hi') as [x Hx]. by destruct (Hkeep _ _ Hx) as (x' & ? & _).
    + intros i x [[-> ->]|[Hne Hx]]%Hcase; [rewrite Hu; by apply R|by apply R].
    + intros i x [[-> ->]|[Hne Hx]]%Hcase; [done|]. rewrite Hoth by done. by apply U.
    + intros i x [[-> ->]|[Hne Hx]]%Hcase; [by eapply H|by eapply H].
    + intros i Hi'. destruct (decide (i = id)) as [->|Hne]; [by eapply H|]. apply L, occ_pos. rewrite <- Hoth by done. by apply occ_pos.
  - intros i. destruct (decide (i = id)) as [->|Hne]; [done|]. rewrite Hoth by done. apply (cs_sub _ _ _ _ _ _ C).
  - intros i x [[-> ->]|[Hne Hx]]%Hcase; [done|]. rewrite Hlo by done. by apply (cs_lock _ _ _ _ _ _ C).
  - intros i Hi'. destruct (decide (i = id)) as [->|Hne]; [by apply Hla|]. apply (cs_lref _ _ _ _ _ _ C). by apply Hlo.
  - intros bc Hb. destruct (cs_att _ _ _ _ _ _ C _ Hb) as (x & Hx & Ho). destruct (Hkeep _ _ Hx) as (x' & Hx' & Hi').
    exists x'. split; [done|]. by rewrite Hi'.
  - intros bc [[Hb Hh']|(Hh' & k & x & Hin & Hv)]%HP; (split; [done|]); rewrite Hc.
    + apply (cs_pin _ _ _ _ _ _ C _ Hb).
    + eauto.
  - intros i x [[-> ->]|[Hne Hx]]%Hcase; [done|]. by eapply (cs_flush _ _ _ _ _ _ C).
  - intros i x [[-> ->]|[Hne Hx]]%Hcase; rewrite Hc; [intros [Hx|?]%Hun; [|done]|]; by eapply (cs_unsaved _ _ _ _ _ _ C).
  - intros i x o v [[-> ->]|[Hne Hx]]%Hcase; [rewrite Hi, Hof, Hle0|]; by apply (cs_true _ _ _ _ _ _ C).
  - apply C.
  - intros i j. rewrite Hn. apply (cs_fresh _ _ _ _ _ _ C).
  - intros i x o [[-> ->]|[Hne Hx]]%Hcase; [|by apply (cs_up _ _ _ _ _ _ C)].
    unfold holds_byte in *. rewrite Hi. auto.
  - intros o Ho. destruct (cs_wr _ _ _ _ _ _ C o Ho) as (Hlt & k & x & y & Hin & Hx & Hy & Hdy). split; [lia|]. rewrite Hc.
    destruct (decide (bc_alloc_buffer x = id)) as [He|Hne].
    + exists k, x, mb'. rewrite Hh, He, lookup_insert_eq. split_and!; try done; try lia.
      assert (y = mb) as -> by congruence. destruct (Hd Hdy) as [?|Hnw]; [done|]. exfalso.
      destruct (inv_link _ _ (cs_inv _ _ _ _ _ _ C) _ _ Hin) as (mb0 & Hm0 & [Lo Ll _]). assert (mb0 = mb) as -> by congruence.
      unfold bc_end in Hx. rewrite Hnw in Ho by lia. by destruct Ho.
    + exists k, x, y. rewrite Hh, lookup_insert_ne by done. done.
  - pose proof (cs_size _ _ _ _ _ _ C). lia.
  - intros i x [[-> ->]|[Hne Hx]]%Hcase Hux; [by apply Hft|]. pose proof (cs_fit _ _ _ _ _ _ C _ _ Hx Hux). lia.
Qed.

(** Membuf [i] was replaced by [mb'], nothing else that the read path looks at changed. *)
Definition replaced (i : nat) (mb' : membuf) (c c' : cache) : Prop :=
  membufs c' = <[i := mb']> (membufs c) ∧ chunkmap c' = chunkmap c.

(** The obligations of [cside_update] that the changed field does not touch. *)
Ltac cs_rest C Hm :=
  simpl; try done;
  try first
    [ by apply (cs_inuse _ _ _ _ _ _ C) | by apply (cs_sub _ _ _ _ _ _ C) | by apply (cs_lock _ _ _ _ _ _ C _ _ Hm)
    | by apply (cs_nodup _ _ _ _ _ _ C) | by apply (cs_lref _ _ _ _ _ _ C) | by apply (cs_flush _ _ _ _ _ _ C _ _ Hm)
    | by intros Hup o Hoo; apply (cs_up _ _ _ _ _ _ C)
    | by pose proof (cs_flush _ _ _ _ _ _ C _ _ Hm); unfold mb_has in *; simpl; rewrite ?has_or_flag, ?has_clear_flag; simpl
    | by left | by intros _; left
    | by unfold mb_has; simpl; rewrite ?has_or_flag, ?has_clear_flag; simpl; left
    | by unfold unsaved, mb_has; simpl; rewrite ?has_or_flag, ?has_clear_flag; left
    | by unfold mb_has; simpl; rewrite ?has_or_flag, ?has_clear_flag; simpl; intros Hup o Hoo; apply (cs_up _ _ _ _ _ _ C)
    | by unfold mb_has; simpl; rewrite ?has_or_flag, ?has_clear_flag; simpl; intros Hup;
        pose proof (cs_fit _ _ _ _ _ _ C _ _ Hm Hup); lia
    | by intros bc Hb; left; split; [|apply (cs_pin _ _ _ _ _ _ C)] ].

Lemma cside_clear_inuse c m A h l P P' id :
  cside c m A (id :: h) l P → (id ∈ F → id ∈ h) → (∀ bc, bc ∈ P' → bc ∈ P ∧ bc_alloc_buffer bc ∈ h) →
  wp (clear_inuse id) c (λ _ c', cside c' m A h l P' ∧ ∃ mb, membufs c !! id = Some mb ∧
    replaced id (mb_set_inuse (mb_inuse mb - 1) mb) c c' ∧ cache_size c' = cache_size c).
Proof.
  intros C HF HP. destruct (cs_held _ _ _ _ _ _ C id ltac:(by left)) as (mb & Hm & Hiu & Hwf).
  pose proof (cs_inuse _ _ _ _ _ _ C _ _ Hm) as Ho. rewrite occ_cons_eq in Ho.
  destruct (clear_inuse_total id c mb Hm (inv_room _ _ _ _ (cs_inv _ _ _ _ _ _ C) Hm) Hiu (wf_length _ Hwf)) as ([] & c' & Hrun & Hu).
  exists (), c'. split; [done|]. pose proof Hu as [_ Hh _ _ Hc Hn _ _ _ Hz].
  split; [|exists mb; by split].
  eapply cside_update; try done; cs_rest C Hm.
  - rewrite Hz. split; [lia|]. apply (cs_size _ _ _ _ _ _ C).
  - eapply (clear_inuse_inv ∅ c (cs_inv _ _ _ _ _ _ C) id mb Hm); [|exact Hrun].
    intros Hfl%(cs_flush _ _ _ _ _ _ C _ _ Hm)%HF%occ_pos. lia.
  - lia.
  - intros i Hi. by rewrite decide_False.
  - pose proof (cs_sub _ _ _ _ _ _ C id) as Hs. rewrite occ_cons_eq in Hs. lia.
  - intros bc Hb. left. by apply HP.
Qed.

Lemma cside_set_inuse c m A h l P P' id :
  cside c m A h l P → occ id h + 1 ≤ occ id (vids A) → (∀ bc, bc ∈ P' → bc ∈ P) →
  wp (set_inuse id) c (λ _ c', cside c' m A (id :: h) l P' ∧ ∃ mb, membufs c !! id = Some mb ∧
    replaced id (mb_set_inuse (mb_inuse mb + 1) mb) c c' ∧ cache_size c' = cache_size c).
Proof.
  intros C Hocc HP. pose proof (cs_led _ _ _ _ _ _ C) as Ld.
  destruct (ld_live _ _ _ Ld id) as [mb Hm]. { apply occ_pos. pose proof (occ_nonneg id h). lia. }
  pose proof (ld_ref _ _ _ Ld _ _ Hm) as Hr. pose proof (occ_nonneg id h).
  assert (Z.b2z (in_map id (chunkmap c)) ≤ occ id (ids (chunkmap c))) as Hmap.
  { unfold in_map. case_bool_decide as Hin; simpl; [apply occ_pos in Hin; lia|apply occ_nonneg]. }
  destruct (set_inuse_inv ∅ c (cs_inv _ _ _ _ _ _ C) id mb Hm) as ([] & c' & Hrun & I' & Hu); [left; lia|].
  exists (), c'. split; [done|]. pose proof Hu as [_ Hh _ _ Hc Hn _ _ _ Hz].
  split; [|exists mb; by split].
  eapply cside_update; try done; cs_rest C Hm.
  - rewrite Hz. split; [lia|]. apply (cs_size _ _ _ _ _ _ C).
  - rewrite decide_True by done. pose proof (cs_inuse _ _ _ _ _ _ C _ _ Hm). lia.
  - intros i Hi. by rewrite decide_False.
  - rewrite decide_True by done. lia.
  - intros bc Hb. left. split; [by apply HP|]. right. by apply (cs_pin _ _ _ _ _ _ C), HP.
Qed.

(** Flag updates. *)
Lemma cside_set_locked c m A h l P id :
  cside c m A h l P → id ∈ h → id ∉ l →
  (∀ mb, membufs c !! id = Some mb → is_locked mb = false → st c bytes_locked + mb_length mb ≤ AZNFSC_MAX_FILE_SIZE) →
  wp (set_locked id) c (λ _ c', cside c' m A h (id :: l) P ∧ ∃ mb, membufs c !! id = Some mb ∧
    replaced id (mb_set_flag (or_flag (mb_flag mb) Locked) mb) c c' ∧ cache_size c' = cache_size c).
Proof.
  intros C Hid Hl Hal. destruct (cs_held _ _ _ _ _ _ C id Hid) as (mb & Hm & Hiu & Hwf).
  assert (is_locked mb = false) as Hlk.
  { apply not_true_iff_false. intros Hk. by apply Hl, (cs_lock _ _ _ _ _ _ C _ _ Hm). }
  destruct (set_locked_total id c mb Hm Hiu Hlk) as (b & c' & Hrun & Hu).
  { by apply Hal. }
  exists b, c'. split; [done|]. pose proof Hu as [_ Hh _ _ Hc Hn _ _ _ Hz]. split; [|exists mb; by split].
  eapply cside_update; try done; cs_rest C Hm.
  - rewrite Hz. split; [lia|]. apply (cs_size _ _ _ _ _ _ C).
  - by eapply (set_locked_inv ∅ c (cs_inv _ _ _ _ _ _ C) id).
  - unfold mb_has. simpl. rewrite has_or_flag. simpl. split; [by left|done].
  - intros i Hi. rewrite elem_of_cons. naive_solver.
  - by apply NoDup_cons; [split; [|apply (cs_nodup _ _ _ _ _ _ C)]].
  - intros _. apply occ_pos. pose proof (cs_sub _ _ _ _ _ _ C id). apply occ_pos in Hid. lia.
Qed.

Lemma cside_clear_locked c m A h l P id :
  cside c m A h (id :: l) P → id ∈ h → id ∉ F →
  wp (clear_locked id) c (λ _ c', cside c' m A h l P ∧ ∃ mb, membufs c !! id = Some mb ∧
    replaced id (mb_set_flag (clear_flag (mb_flag mb) Locked) mb) c c' ∧ cache_size c' = cache_size c).
Proof.
  intros C Hid HF. destruct (cs_held _ _ _ _ _ _ C id Hid) as (mb & Hm & Hiu & Hwf).
  pose proof (cs_nodup _ _ _ _ _ _ C) as [Hnl Hnd]%NoDup_cons.
  assert (is_locked mb = true) as Hlk by (apply (cs_lock _ _ _ _ _ _ C _ _ Hm); by left).
  destruct (clear_locked_total id c mb Hm (inv_room _ _ _ _ (cs_inv _ _ _ _ _ _ C) Hm) Hlk Hiu (cs_calm _ _ _ _ _ _ _ _ C Hm HF))
    as ([] & c' & Hrun & Hu).
  exists (), c'. split; [done|]. pose proof Hu as [_ Hh _ _ Hc Hn _ _ _ Hz]. split; [|exists mb; by split].
  eapply cside_update; try done; cs_rest C Hm.
  - rewrite Hz. split; [lia|]. apply (cs_size _ _ _ _ _ _ C).
  - by eapply (clear_locked_inv ∅ c (cs_inv _ _ _ _ _ _ C) id).
  - intros i Hi. rewrite elem_of_cons. naive_solver.
Qed.

(** The uptodate bytes, with those of [mb], fit below the cached file size; the assertion
    at the end of [set_uptodate()] relies on it. *)
Definition uptodate_fits (c : cache) (off len : Z) : Prop :=
  st c bytes_uptodate + len ≤ Z.max (cache_size c) (off + len).

(** No byte of the file is in two buffers that are uptodate, buffer [id] counted as one. *)
Definition counted (id i : nat) (mb : membuf) : Prop := mb_has Uptodate mb = true ∨ i = id.
Definition sole (c : cache) (id : nat) : Prop :=
  map_Forall (λ i mb, map_Forall (λ j mb', i ≠ j → counted id i mb → counted id j mb' →
    mb_offset mb + mb_length mb ≤ mb_offset mb' ∨ mb_offset mb' + mb_length mb' ≤ mb_offset mb) (membufs c)) (membufs c).

#[export] Instance counted_dec id i mb : Decision (counted id i mb).
Proof. unfold counted. apply _. Defined.
#[export] Instance sole_dec c id : Decision (sole c id).
Proof. unfold sole. apply _. Defined.

(** Such buffers lie beside each other within the file, which bounds the uptodate bytes. *)
Lemma sole_room c m A h l P id mb :
  cside c m A h l P → membufs c !! id = Some mb → mb_has Uptodate mb = false → sole c id →
  uptodate_fits c (mb_offset mb) (mb_length mb).
Proof.
  intros C Hm Hup Hs. pose proof (cs_inv _ _ _ _ _ _ C) as I. set (mb' := mb_set_flag (or_flag (mb_flag mb) Uptodate) mb).
  assert (mb_has Uptodate mb' = true) as Hup' by (unfold mb_has, mb'; simpl; by rewrite has_or_flag).
  assert (∀ i x, membufs c !! i = Some x → mb_wf x) as Hwf by (intros i x Hx; by apply (inv_heap _ _ I) in Hx as [? _]).
  pose proof (cs_size _ _ _ _ _ _ C) as Hz. pose proof (Hwf _ _ Hm) as Hwf0. pose proof (wf_length _ Hwf0).
  assert (∀ i x, <[id := mb']> (membufs c) !! i = Some x → 0 < weight bytes_uptodate x → ∃ y, membufs c !! i = Some y ∧
    counted id i y ∧ mb_offset x = mb_offset y ∧ mb_length x = mb_length y ∧ weight bytes_uptodate x = mb_length y ∧
    (i = id ∨ mb_has Uptodate y = true)) as Hold.
  { intros i x [[<- <-]|[Hne Hx]]%lookup_insert_Some; simpl.
    - rewrite Hup'. intros _. exists mb. split_and!; try done; [by right|by left].
    - destruct (mb_has Uptodate x) eqn:Hx'; [|simpl; lia]. intros _. exists x. split_and!; try done; [by left|by right]. }
  pose proof (msum_insert (weight bytes_uptodate) (membufs c) id mb mb' Hm) as Hsum. simpl in Hsum. rewrite Hup, Hup' in Hsum.
  unfold uptodate_fits. rewrite (inv_st _ _ I) by done.
  enough (msum (weight bytes_uptodate) (<[id := mb']> (membufs c)) ≤ Z.max (cache_size c) (mb_offset mb + mb_length mb) - 0) by lia.
  apply (msum_disjoint mb_offset).
  - lia.
  - intros i x [[<- <-]|[_ Hx]]%lookup_insert_Some; [simpl; rewrite Hup'; lia|by apply weight_nonneg, (Hwf i)].
  - intros i x Hx Hpos. destruct (Hold _ _ Hx Hpos) as (y & Hy & _ & -> & _ & -> & Hc). destruct (Hwf _ _ Hy). split; [lia|].
    destruct Hc as [->|Hu]; [assert (y = mb) as -> by congruence; lia|]. pose proof (cs_fit _ _ _ _ _ _ C _ _ Hy Hu). lia.
  - intros i j x y Hne Hx Hy Hpx Hpy. destruct (Hold _ _ Hx Hpx) as (x' & Hx' & Hcx & -> & _ & -> & _).
    destruct (Hold _ _ Hy Hpy) as (y' & Hy' & Hcy & -> & _ & -> & _). exact (Hs _ _ Hx' _ _ Hy' Hne Hcx Hcy).
Qed.

Lemma cside_set_uptodate c m A h l P id mb :
  cside c m A h l P → membufs c !! id = Some mb → id ∈ h → id ∈ l →
  (mb_has Uptodate mb = false → uptodate_fits c (mb_offset mb) (mb_length mb)) →
  (∀ o, mb_offset mb ≤ o < mb_offset mb + mb_length mb → holds_byte m id mb o) →
  wp (set_uptodate id) c (λ _ c', cside c' m A h l P ∧
    replaced id (mb_set_flag (or_flag (mb_flag mb) Uptodate) mb) c c').
Proof.
  intros C Hm Hid Hl Hfit Hby. destruct (cs_held _ _ _ _ _ _ C id Hid) as (mb0 & Hm0 & Hiu & Hwf).
  rewrite Hm in Hm0. injection Hm0 as <-.
  assert (is_locked mb = true) as Hlk by (by apply (cs_lock _ _ _ _ _ _ C _ _ Hm)).
  pose proof (wf_length _ Hwf). pose proof (wf_fits _ Hwf). pose proof (wf_file _ Hwf). pose proof (cs_size _ _ _ _ _ _ C).
  assert (wp (set_uptodate id) c (λ _ c', True)) as ([] & c' & Hrun & _).
  { unfold set_uptodate, get_membuf, put_membuf, stat_add. unfold is_uptodate. unfold uptodate_fits in Hfit.
    do 3 wp_step. wp_step; [exact Hm|]. wp_asserts ltac:(first [done|cmp]). do 2 wp_step.
    destruct (mb_has Uptodate mb); [by wp_step|]. specialize (Hfit eq_refl).
    repeat wp_step; try done; simpl; bumps; [cmp|apply orb_true_iff; left; cmp|cmp]. }
  destruct (set_uptodate_spec id c _ _ Hrun) as (mb0 & _ & _ & Hz & Hu).
  pose proof Hu as [Hm0 Hh _ _ Hc Hn _ _ _ _]. simpl in Hm0, Hh, Hc, Hn. rewrite Hm in Hm0. injection Hm0 as <-.
  assert (mb_offset mb + mb_length mb ≤ cache_size c' ∧ cache_size c ≤ cache_size c' ≤ AZNFSC_MAX_FILE_SIZE) as [? ?].
  { unfold is_uptodate in Hz. rewrite Hz. destruct (mb_has Uptodate mb) eqn:Hup; [|lia].
    pose proof (cs_fit _ _ _ _ _ _ C _ _ Hm Hup). lia. }
  exists (), c'. split; [done|]. split; [|by split].
  eapply cside_update; try done; cs_rest C Hm.
  by eapply (set_uptodate_inv ∅ c (cs_inv _ _ _ _ _ _ C) id).
Qed.

Lemma cside_set_dirty c m A h l P id mb :
  cside c m A h l P → membufs c !! id = Some mb → id ∈ h → id ∈ l → id ∉ F → id ∈ ids (chunkmap c) →
  mb_has Uptodate mb = true → mb_has CommitPending mb = false →
  (mb_has Dirty mb = false → st c bytes_dirty + mb_length mb ≤ AZNFSC_MAX_FILE_SIZE) →
  wp (set_dirty id) c (λ _ c', cside c' m A h l P ∧
    replaced id (mb_set_flag (or_flag (mb_flag mb) Dirty) mb) c c' ∧ cache_size c' = cache_size c).
Proof.
  intros C Hm Hid Hl HF Hin Hup Hcp Hroom. destruct (cs_held _ _ _ _ _ _ C id Hid) as (mb0 & Hm0 & Hiu & Hwf).
  rewrite Hm in Hm0. injection Hm0 as <-.
  assert (is_locked mb = true) as Hlk by (by apply (cs_lock _ _ _ _ _ _ C _ _ Hm)).
  pose proof (cs_calm _ _ _ _ _ _ _ _ C Hm HF) as Hfl. pose proof (cs_inv _ _ _ _ _ _ C) as I.
  assert (wp (set_dirty id) c (λ _ c', True)) as ([] & c' & Hrun & _).
  { unfold set_dirty. wp_step. eapply get_membuf_wp; [exact Hm|]. wp_asserts done. wp_step. apply is_flushing_wp; [done|].
    rewrite Hfl. wp_asserts done. wp_step. apply is_commit_pending_wp; [done|]. rewrite Hcp. wp_asserts done.
    unfold put_membuf, stat_add. destruct (mb_has Dirty mb); [by repeat wp_step|]. specialize (Hroom eq_refl).
    repeat wp_step; [|done]. simpl. bumps. cmp. }
  destruct (set_dirty_spec id c _ _ Hrun) as (mb0 & _ & _ & _ & _ & _ & Hu).
  pose proof Hu as [Hm0 Hh _ _ Hc Hn _ _ _ Hz]. rewrite Hm in Hm0. injection Hm0 as <-.
  exists (), c'. split; [done|]. split; [|by split].
  eapply cside_update; try done; cs_rest C Hm.
  - rewrite Hz. split; [lia|]. apply (cs_size _ _ _ _ _ _ C).
  - by eapply (set_dirty_inv ∅ c I id).
  - intros _. by right.
  - intros _ o. by apply (cs_up _ _ _ _ _ _ C).
  - intros _. rewrite Hz. by apply (cs_fit _ _ _ _ _ _ C id).
Qed.

(** ** Buffers *)
Lemma mem_write_other m id j d i x : i ≠ id → mem_write id j d m i x = m i x.
Proof. intros. unfold mem_write. by rewrite decide_False. Qed.

Lemma mem_write_in m id j d x : j ≤ x < j + Z.of_nat (length d) → mem_write id j d m id x = d !! Z.to_nat (x - j).
Proof.
  intros Hx. unfold mem_write. rewrite decide_True by done.
  by rewrite (proj2 (Z.leb_le _ _)), (proj2 (Z.ltb_lt _ _)) by lia.
Qed.

Lemma mem_write_out m id j d x : ¬ (j ≤ x < j + Z.of_nat (length d)) → mem_write id j d m id x = m id x.
Proof.
  intros Hx. unfold mem_write. rewrite decide_True by done.
  destruct (Z.leb_spec j x), (Z.ltb_spec x (j + Z.of_nat (length d))); simpl; (done || lia).
Qed.

(** What was written stays written. *)
Lemma mem_write_some m id j d i x : is_Some (m i x) → is_Some (mem_write id j d m i x).
Proof.
  intros Hm. destruct (decide (i = id)) as [->|Hne]; [|by rewrite mem_write_other].
  destruct (decide (j ≤ x < j + Z.of_nat (length d))) as [Hx|Hx]; [|by rewrite mem_write_out].
  rewrite mem_write_in by done. apply lookup_lt_is_Some. lia.
Qed.

(** A byte that is there was written, or it was there. *)
Lemma mem_write_inv m id j d i x v :
  mem_write id j d m i x = Some v → (i = id ∧ ∃ k, x = j + Z.of_nat k ∧ d !! k = Some v) ∨ m i x = Some v.
Proof.
  destruct (decide (i = id)) as [->|Hne]; [|rewrite mem_write_other by done; by right].
  destruct (decide (j ≤ x < j + Z.of_nat (length d))) as [Hx|Hx]; [|rewrite mem_write_out by done; by right].
  rewrite mem_write_in by done. intros Hv. left. split; [done|]. exists (Z.to_nat (x - j)). split; [lia|done].
Qed.

(** The bytes [d] are those of the file from [o] on. *)
Definition file_data (o : Z) (d : list Z) : Prop := ∀ k b, d !! k = Some b → b = file_byte (o + Z.of_nat k).

Lemma cside_write c m A h l P bc j d :
  cside c m A h l P → bc ∈ A → file_data (bc_offset bc + j) d →
  cside c (mem_write (bc_alloc_buffer bc) (bc_buffer_offset bc + j) d m) A h l P.
Proof.
  intros C HA Hd. destruct (cs_att _ _ _ _ _ _ C _ HA) as (mb & Hm & Ho). set (id := bc_alloc_buffer bc) in *.
  split; try apply C.
  - intros i mb' o v Hm' Hoo Hv. apply mem_write_inv in Hv as [(-> & k & Hk & Hv)|Hv]; [|by eapply (cs_true _ _ _ _ _ _ C)].
    rewrite Hm in Hm'. injection Hm' as <-. apply Hd in Hv. rewrite Hv. f_equal. lia.
  - intros b x v Hb Hx Hv. apply mem_write_inv in Hv as [(Hi & k & Hk & Hv)|Hv]; [|by eapply (cs_seen _ _ _ _ _ _ C)].
    destruct (cs_att _ _ _ _ _ _ C _ Hb) as (mb' & Hm' & Ho'). rewrite Hi, Hm in Hm'. injection Hm' as <-.
    apply Hd in Hv. rewrite Hv. f_equal. lia.
  - intros i x Hi. rewrite mem_write_other; [by apply (cs_fresh _ _ _ _ _ _ C)|]. intros ->.
    apply (inv_heap _ _ (cs_inv _ _ _ _ _ _ C)) in Hm as [_ ?]. lia.
  - intros i mb' o Hm' Hup Hoo. apply mem_write_some. by apply (cs_up _ _ _ _ _ _ C).
Qed.
End contents.
