(* ===== verification/ReadInv.v ===== *)
(** * The invariant of the read path

    [rinv w] states for all read tasks together that the cache is consistent with the
    chunks they hold ([cside]), that the membufs of the child tasks under way are locked
    and not uptodate, and for each task that its chunks tile its range, that its counter
    of backend reads is exact and that it holds the right bytes ([running]), or that it
    was answered once, with the right bytes ([answered]).  [foc] is the same, seen from one
    task whose handler is running. *)
From S2P Require Import Prelude CacheState Membuf MembufSpec ChunkMap FileCache CacheInv CacheOps ScanGet CacheGet CacheRelease CacheSteps CacheFrame Readahead ReadaheadSpec ReadPath ReadCache.

(** Where a chunk is, without the progress of its read. *)
Definition place (bc : bytes_chunk) : bytes_chunk := bc_set 0 0 bc.

Lemma place_set p n bc : place (bc_set p n bc) = place bc.
Proof. done. Qed.

Lemma place_unread bc : unread bc → place bc = bc.
Proof. intros [Hp Hc]. destruct bc. simpl in *. by subst. Qed.

Definition busy (s : slot) : Prop := s_prog s ≠ Finished.
#[export] Instance busy_dec s : Decision (busy s).
Proof. unfold busy. solve_decision. Defined.

(** The chunks of a task: all, those whose child task is under way, and those that are
    in the chunkmap because the task uses them. *)
Definition bcs (x : read_task) : list bytes_chunk := (s_bc <$> visited x) ++ todo x.
Definition flying (x : read_task) : list bytes_chunk := s_bc <$> filter busy (visited x).
Definition pinned (x : read_task) : list bytes_chunk := flying x ++ todo x.

Definition gather (f : read_task → list bytes_chunk) (ts : list read_task) : list bytes_chunk :=
  place <$> concat (f <$> ts).

(** The tasks other than [t]. *)
Definition others (t : nat) (ts : list read_task) : list read_task := take t ts ++ drop (S t) ts.

Lemma gather_split f ts t x : ts !! t = Some x → gather f ts ≡ₚ (place <$> f x) ++ gather f (others t ts).
Proof.
  intros Ht. unfold gather, others. rewrite <- fmap_app. apply fmap_Permutation.
  rewrite <- (take_drop_middle ts t x Ht) at 1. rewrite !fmap_app, fmap_cons, !concat_app. simpl.
  rewrite !app_assoc. by rewrite (Permutation_app_comm (concat (f <$> take t ts)) (f x)).
Qed.

Lemma others_insert ts t x y : ts !! t = Some x → others t (<[t := y]> ts) = others t ts.
Proof.
  intros Ht. unfold others. rewrite take_insert_ge by lia. by rewrite drop_insert_lt by lia.
Qed.

Lemma others_elem ts t x y n : ts !! t = Some x → ts !! n = Some y → n ≠ t → y ∈ others t ts.
Proof.
  intros Ht Hn Hne. unfold others. apply elem_of_app. destruct (decide (n < t)%nat).
  - left. apply (list_elem_of_lookup_2 _ n). by rewrite lookup_take_lt.
  - right. apply (list_elem_of_lookup_2 _ (n - S t)%nat). rewrite lookup_drop. rewrite <- Hn. f_equal. lia.
Qed.

Lemma others_sub ts t y : y ∈ others t ts → ∃ n, n ≠ t ∧ ts !! n = Some y.
Proof.
  unfold others. intros [(n & Hn)%list_elem_of_lookup|(n & Hn)%list_elem_of_lookup]%elem_of_app.
  - apply lookup_take_Some in Hn as [? ?]. exists n. split; [lia|done].
  - rewrite lookup_drop in Hn. exists (S t + n)%nat. split; [lia|done].
Qed.

(** What [set_uptodate()] asserts about cannot have got worse. *)
Definition calm (c c' : cache) : Prop :=
  cache_size c' = cache_size c ∧ st c' bytes_uptodate ≤ st c bytes_uptodate.

Lemma calm_compose c1 c2 c3 : calm c1 c2 → calm c2 c3 → calm c1 c3.
Proof. unfold calm. intros [] []. split; [congruence|lia]. Qed.

Lemma calm_heap c c' :
  inv c → inv c' → cache_size c' = cache_size c →
  (∀ i mb', membufs c' !! i = Some mb' → mb_has Uptodate mb' = true →
    ∃ mb, membufs c !! i = Some mb ∧ mb_has Uptodate mb = true ∧ mb_length mb' ≤ mb_length mb) → calm c c'.
Proof.
  intros I I' Hz Hm. split; [done|]. rewrite (inv_st _ _ I), (inv_st _ _ I') by done. apply msum_le.
  - intros i mb Hi. apply weight_nonneg. by apply (inv_heap _ _ I) in Hi as [? _].
  - intros i mb' Hi. simpl. destruct (mb_has Uptodate mb') eqn:Hu; [left|by right].
    destruct (Hm _ _ Hi Hu) as (mb & Hmb & Hu' & ?). exists mb. by rewrite Hu'.
Qed.

Lemma calm_evolves c c' : inv c → inv c' → evolves c c' → calm c c'.
Proof.
  intros I I' E. apply calm_heap; try done; [apply (ev_size _ _ E)|]. intros i mb' Hi Hu.
  destruct (ev_mb _ _ E _ _ Hi) as [(mb & Hm & Hl)|[_ F]]; [|by unfold mb_has in Hu; rewrite F, has_flag_0 in Hu].
  exists mb. unfold mb_has in *. rewrite (lt_flag _ _ Hl) in Hu. pose proof (lt_lo _ _ Hl). pose proof (lt_hi _ _ Hl).
  split_and!; (done || lia).
Qed.

Lemma calm_replaced c c' i mb mb' :
  inv c → inv c' → membufs c !! i = Some mb → replaced i mb' c c' → cache_size c' = cache_size c →
  mb_has Uptodate mb' = mb_has Uptodate mb → mb_length mb' = mb_length mb → calm c c'.
Proof.
  intros I I' Hi [Hh _] Hz Hu Hl. apply calm_heap; try done. intros j x. rewrite Hh. destruct (decide (j = i)) as [->|Hne].
  - rewrite lookup_insert_eq. intros [= <-] Hx. exists mb. split_and!; (congruence || lia).
  - rewrite lookup_insert_ne by done. intros Hj Hx. exists x. split_and!; (done || lia).
Qed.

Section contents.
Context (srv : Z → Z) (ssize : Z) (wr : Z → option Z).

Abbreviation file_byte := (file_byte srv ssize wr).
Abbreviation file_ends := (file_ends ssize wr).
Abbreviation cside := (cside srv ssize wr []).

(** The first [bc_pvt] bytes of the chunk are in its buffer. *)
Definition chunk_read (m : memory) (bc : bytes_chunk) : Prop :=
  ∀ j, 0 ≤ j < bc_pvt bc → is_Some (m (bc_alloc_buffer bc) (bc_buffer_offset bc + j)).

Record slot_ok (m : memory) (status : Z) (n : nat) (s : slot) : Prop := {
  sl_pvt : 0 ≤ bc_pvt (s_bc s) ≤ bc_length (s_bc s);
  sl_data : chunk_read m (s_bc s);
  sl_busy : busy s → bc_pvt (s_bc s) < bc_length (s_bc s) ∧ 0 < bc_num_backend_calls_issued (s_bc s) ∧
    (bc_pvt (s_bc s) = 0 ∨ 1 < bc_num_backend_calls_issued (s_bc s)) ∧ (n < FUSE_REPLY_IOV_MAX_COUNT)%nat;
  sl_done : s_prog s = Finished → status = 0 → (n < FUSE_REPLY_IOV_MAX_COUNT)%nat →
    bc_pvt (s_bc s) = bc_length (s_bc s) ∨ file_ends (bc_offset (s_bc s) + bc_pvt (s_bc s));
}.

(** A request whose task is not answered yet. *)
Record running (m : memory) (x : read_task) : Prop := {
  ru_range : 0 ≤ t_offset x ∧ 0 < t_size x ≤ 1048576 ∧ t_offset x + t_size x ≤ AZNFSC_MAX_FILE_SIZE;
  ru_cov : ∃ e, covers (bcs x) (t_offset x) e ∧
    (e = t_offset x + t_size x ∨ looping x = false ∧ length (visited x) = FUSE_REPLY_IOV_MAX_COUNT) ∧ e ≤ t_offset x + t_size x;
  ru_todo : Forall unread (todo x);
  ru_new : Forall new_whole (bcs x);
  ru_slot : ∀ n s, visited x !! n = Some s → slot_ok m (read_status x) n s;
  ru_loop : looping x = false → todo x = [] ∧ waiting x = false ∧ flying x ≠ [] ∧
    (length (visited x) ≤ FUSE_REPLY_IOV_MAX_COUNT)%nat;
  ru_wait : waiting x = true → todo x ≠ [] ∧ (length (visited x) < FUSE_REPLY_IOV_MAX_COUNT)%nat;
  ru_total : looping x = true → covers ((s_bc <$> visited x) ++ (if waiting x then take 1 (todo x) else []))
    (t_offset x) (t_offset x + total_length x);
  ru_ongoing : num_ongoing_backend_reads x = Z.b2z (looping x) + Z.of_nat (length (flying x));
  ru_found : flying x ≠ [] → found_in_cache x = false;
  ru_status : 0 ≤ read_status x;
  ru_sf : t_sfsize x = -1 ∨ t_sfsize x = ssize;
  ru_cf : t_cfsize x = -1 ∨ t_offset x + t_size x ≤ t_cfsize x;
  ru_req : t_size x ≤ t_requested x ∧ (t_size x = t_requested x ∨ file_ends (t_offset x + t_size x));
}.

(** The reply to a read of [size] bytes at [off]: the bytes of the file, and fewer than
    asked for only at the end of the file or when the reply has as many vectors as it may
    have, none of them empty. *)
Definition reply_ok (off size : Z) (r : reply) : Prop :=
  match r with
  | Data iov => (length iov ≤ FUSE_REPLY_IOV_MAX_COUNT)%nat ∧
      ∃ n, 0 ≤ n ≤ size ∧ concat iov = (λ j, Some (file_byte (off + j))) <$> seqZ 0 n ∧
      (n < size → file_ends (off + n) ∨ length iov = FUSE_REPLY_IOV_MAX_COUNT ∧ [] ∉ iov)
  | Error status => 0 < status
  end.

Record answered (x : read_task) : Prop := {
  an_reply : ∃ r, replies x = [r] ∧ reply_ok (t_offset x) (t_requested x) r;
  an_vec : visited x = [] ∧ todo x = [];
  an_loop : looping x = false ∧ waiting x = false ∧ num_ongoing_backend_reads x = 0;
}.

Definition task_ok (m : memory) (x : read_task) : Prop := replies x = [] ∧ running m x ∨ answered x.

Definition dry (c : cache) (l : list nat) : Prop :=
  ∀ i mb, i ∈ l → membufs c !! i = Some mb → mb_has Uptodate mb = false.

Record rinv (w : rstate) : Prop := {
  ri_side : cside (fcache w) (mem w) (gather bcs (tasks w)) (vids (gather pinned (tasks w)))
    (vids (gather flying (tasks w))) (gather pinned (tasks w));
  ri_dry : dry (fcache w) (vids (gather flying (tasks w)));
  ri_ra : wf (rastate w);
  ri_tasks : ∀ t x, tasks w !! t = Some x → task_ok (mem w) x;
}.

(** The invariant while a handler of task [t] runs: it holds references on [A], use
    counts on [h], locks on [l]; [P] are in the chunkmap and [d] are not uptodate. *)
Record foc (t : nat) (O : list read_task) (A P : list bytes_chunk) (h l d : list nat) (w : rstate) : Prop := {
  fo_side : cside (fcache w) (mem w) (A ++ gather bcs O) (h ++ vids (gather pinned O))
    (l ++ vids (gather flying O)) (P ++ gather pinned O);
  fo_dry : dry (fcache w) (d ++ vids (gather flying O));
  fo_ra : wf (rastate w);
  fo_oth : ∀ y, y ∈ O → task_ok (mem w) y;
  fo_task : others t (tasks w) = O ∧ is_Some (tasks w !! t);
}.

Lemma vids_app v1 v2 : vids (v1 ++ v2) = vids v1 ++ vids v2.
Proof. apply fmap_app. Qed.

#[export] Instance vids_perm : Proper ((≡ₚ) ==> (≡ₚ)) vids.
Proof. intros v v' H. by apply fmap_Permutation. Qed.

Definition places (v : list bytes_chunk) : list bytes_chunk := place <$> v.

Lemma focus w t x :
  rinv w → tasks w !! t = Some x →
  foc t (others t (tasks w)) (places (bcs x)) (places (pinned x)) (vids (places (pinned x)))
    (vids (places (flying x))) (vids (places (flying x))) w.
Proof.
  intros [C D R T] Ht. split; [|..|done| |by rewrite Ht].
  - eapply cside_perm; [..|exact C]; rewrite <- ?vids_app; try apply vids_perm; by rewrite gather_split.
  - intros i mb Hi. apply D. rewrite (gather_split flying _ _ _ Ht), vids_app. done.
  - intros y (n & _ & Hn)%others_sub. by eapply T.
Qed.

Lemma unfocus w t x O h l d :
  foc t O (places (bcs x)) (places (pinned x)) h l d w → tasks w !! t = Some x → task_ok (mem w) x →
  h ≡ₚ vids (places (pinned x)) → l ≡ₚ vids (places (flying x)) → d ≡ₚ vids (places (flying x)) → rinv w.
Proof.
  intros [C D R T [HO _]] Ht Hx Hh Hl Hd. subst O. split; [|..|done|].
  - eapply cside_perm; [..|exact C]; rewrite ?Hh, ?Hl, <- ?vids_app; try apply vids_perm; by rewrite (gather_split _ _ _ _ Ht).
  - intros i mb Hi. apply D. rewrite Hd, <- vids_app. by rewrite (gather_split flying _ _ _ Ht) in Hi.
  - intros n y Hn. destruct (decide (n = t)) as [->|Hne]; [by simplify_eq|]. apply T. by eapply others_elem.
Qed.

(** ** Running the cache operations from a handler *)
Lemma wp_on_cache {X} (f : MC X) w (Q : X → rstate → Prop) :
  wp f (fcache w) (λ a c, Q a (set_fcache c w)) → wp (on_cache f) w Q.
Proof. intros (a & c & Hf & HQ). exists a, (set_fcache c w). split; [|done]. unfold on_cache. by rewrite Hf. Qed.

Lemma dry_evolves c c' l : evolves c c' → dry c l → dry c' l.
Proof.
  intros E D i mb' Hi Hm. destruct (ev_mb _ _ E _ _ Hm) as [(mb & Hm0 & Hl)|[_ F]].
  - specialize (D _ _ Hi Hm0). unfold mb_has in *. by rewrite (lt_flag _ _ Hl).
  - unfold mb_has. by rewrite F, has_flag_0.
Qed.

Lemma dry_replaced c c' l i mb mb' :
  membufs c !! i = Some mb → replaced i mb' c c' → (i ∈ l → mb_has Uptodate mb' = mb_has Uptodate mb) → dry c l → dry c' l.
Proof.
  intros Hm [Hh _] Hu D j x Hj. rewrite Hh. destruct (decide (j = i)) as [->|Hne].
  - rewrite lookup_insert_eq. intros [= <-]. rewrite Hu by done. by eapply D.
  - rewrite lookup_insert_ne by done. by eapply D.
Qed.

(** What a task uses it refers to, and what it has locked it uses. *)
Lemma flying_occ v i : occ i (vids (places (s_bc <$> filter busy v))) ≤ occ i (vids (places (s_bc <$> v))).
Proof.
  assert (∀ s v, occ i (vids (places (s_bc <$> (s :: v)))) = occ i [bc_alloc_buffer (s_bc s)] + occ i (vids (places (s_bc <$> v)))) as Hcons.
  { intros s v'. by rewrite <- occ_app. }
  induction v as [|s v IH]; [done|]. rewrite filter_cons, Hcons. pose proof (occ_nonneg i [bc_alloc_buffer (s_bc s)]).
  case_decide; rewrite ?Hcons; lia.
Qed.

Lemma pinned_occ ts i : occ i (vids (gather pinned ts)) ≤ occ i (vids (gather bcs ts)).
Proof.
  induction ts as [|x ts IH]; [done|]. unfold gather in *. rewrite !fmap_cons. cbn [concat]. rewrite !fmap_app, !vids_app, !occ_app.
  enough (occ i (vids (place <$> pinned x)) ≤ occ i (vids (place <$> bcs x))) by lia. unfold pinned, bcs, flying.
  rewrite !fmap_app, !vids_app, !occ_app. pose proof (flying_occ (visited x) i). unfold places in *. lia.
Qed.

Lemma flying_pinned ts i : i ∈ vids (gather flying ts) → i ∈ vids (gather pinned ts).
Proof.
  unfold gather, vids. rewrite !list_elem_of_fmap. intros (b & -> & (bc & -> & Hb)%list_elem_of_fmap). eexists. split; [done|].
  apply list_elem_of_fmap_2. apply list_elem_of_In, in_concat in Hb as (v & Hv & Hb). apply list_elem_of_In, in_concat.
  apply list_elem_of_In, list_elem_of_fmap in Hv as (x & -> & Hx). exists (pinned x). split.
  - apply list_elem_of_In, list_elem_of_fmap_2. done.
  - unfold pinned. apply in_app_iff. by left.
Qed.

Section ops.
Context (t : nat) (O : list read_task).

(** What a cache operation leaves alone of the rest of the state. *)
Definition same_rest (w w' : rstate) : Prop := tasks w' = tasks w ∧ mem w' = mem w ∧ rastate w' = rastate w.

Lemma foc_set_cache A P h l d A' P' h' l' d' w c :
  foc t O A P h l d w →
  cside c (mem w) (A' ++ gather bcs O) (h' ++ vids (gather pinned O)) (l' ++ vids (gather flying O)) (P' ++ gather pinned O) →
  dry c (d' ++ vids (gather flying O)) → foc t O A' P' h' l' d' (set_fcache c w).
Proof. intros [] ? ?. by split. Qed.

Lemma foc_release A P h l d w o n :
  foc t O A P h l d w → release_range o n →
  wp (on_cache (release o n)) w (λ r w', 0 ≤ r ≤ n ∧ foc t O A P h l d w' ∧ same_rest w w' ∧ calm (fcache w) (fcache w')).
Proof.
  intros F Hr. apply wp_on_cache. eapply wp_mono; [eapply cside_release; [apply F|done]|]. cbv beta.
  intros r c (Hn & C & E). split; [done|]. split_and!; try done; [|by apply calm_evolves; [apply F|apply C|]].
  eapply foc_set_cache; [done|done|]. by eapply dry_evolves; [|apply F].
Qed.

Lemma foc_invalidate A P h l d w :
  foc t O A P h l d w → wp (on_cache invalidate) w (λ _ w', foc t O A P h l d w' ∧ same_rest w w' ∧
    calm (fcache w) (fcache w') ∧ w' = set_fcache (c_set_invalidate true (fcache w)) w).
Proof.
  intros F. apply wp_on_cache. unfold invalidate. wp_step. split_and!; try done.
  eapply foc_set_cache; [done|by apply cside_invalidate, F|apply F].
Qed.

Lemma foc_clear_inuse A P P' h l d w id :
  foc t O A P (id :: h) l d w → (∀ bc, bc ∈ P' → bc ∈ P ∧ bc_alloc_buffer bc ∈ h) →
  wp (on_cache (clear_inuse id)) w (λ _ w', foc t O A P' h l d w' ∧ same_rest w w' ∧ calm (fcache w) (fcache w') ∧
    chunkmap (fcache w') = chunkmap (fcache w)).
Proof.
  intros F HP. apply wp_on_cache. eapply wp_mono.
  { eapply (cside_clear_inuse _ _ _ _ _ _ _ _ _ _ (P' ++ gather pinned O)); [apply F|by intros ?%elem_of_nil|].
    intros bc [Hb|Hb]%elem_of_app.
    - destruct (HP _ Hb). split; apply elem_of_app; by left.
    - split; apply elem_of_app; right; [done|]. by apply list_elem_of_fmap_2. }
  cbv beta. intros _ c (C & mb & Hm & Hr & Hz). split_and!; try done; [|by eapply calm_replaced; [apply F|apply C|..]|apply Hr].
  eapply foc_set_cache; [done|done|]. eapply dry_replaced; [done|done|done|apply F].
Qed.

Lemma foc_set_inuse A P P' h l d w id :
  foc t O A P h l d w → (∀ i, occ i (h ++ vids (gather pinned O)) + occ i [id] ≤ occ i (vids (A ++ gather bcs O))) →
  (∀ bc, bc ∈ P' → bc ∈ P) →
  wp (on_cache (set_inuse id)) w (λ _ w', foc t O A P' (id :: h) l d w' ∧ same_rest w w' ∧ calm (fcache w) (fcache w') ∧
    ∃ mb, membufs (fcache w) !! id = Some mb ∧ membufs (fcache w') !! id = Some (mb_set_inuse (mb_inuse mb + 1) mb)).
Proof.
  intros F Ho HP. apply wp_on_cache. eapply wp_mono.
  { eapply (cside_set_inuse _ _ _ _ _ _ _ _ _ _ (P' ++ gather pinned O)); [apply F|specialize (Ho id); simpl in Ho; rewrite decide_True in Ho by done; lia|].
    intros bc [Hb|Hb]%elem_of_app; apply elem_of_app; [left; by apply HP|by right]. }
  cbv beta. intros _ c (C & mb & Hm & Hr & Hz). split_and!; try done; [|by eapply calm_replaced; [apply F|apply C|..]|exists mb; destruct Hr as [Hr _]; simpl; by rewrite Hr, lookup_insert_eq].
  eapply foc_set_cache; [done|done|]. eapply dry_replaced; [done|done|done|apply F].
Qed.

Lemma foc_set_locked A P h l d w id :
  foc t O A P h l d w → id ∈ h → id ∉ l → id ∉ vids (gather flying O) →
  st (fcache w) bytes_allocated ≤ AZNFSC_MAX_FILE_SIZE →
  wp (on_cache (set_locked id)) w (λ _ w', foc t O A P h (id :: l) d w' ∧ same_rest w w' ∧ calm (fcache w) (fcache w') ∧
    ∃ mb, membufs (fcache w) !! id = Some mb ∧ membufs (fcache w') !! id = Some (mb_set_flag (or_flag (mb_flag mb) Locked) mb)).
Proof.
  intros F Hh Hl Ho Hal. apply wp_on_cache. eapply wp_mono.
  { eapply (cside_set_locked _ _ _ _ _ _ _ _ _ _ id); [apply F|apply elem_of_app; by left|rewrite elem_of_app; tauto|].
    intros mb Hm Hlk. eapply locked_room; [apply F|done..]. }
  cbv beta. intros _ c (C & mb & Hm & Hr & Hz).
  assert (mb_has Uptodate (mb_set_flag (or_flag (mb_flag mb) Locked) mb) = mb_has Uptodate mb) as Hu.
  { unfold mb_has. simpl. by rewrite has_or_flag. }
  split_and!; try done; [|by eapply calm_replaced; [apply F|apply C|..]|exists mb; destruct Hr as [Hr _]; simpl; by rewrite Hr, lookup_insert_eq].
  eapply foc_set_cache; [done|done|].
  eapply dry_replaced; [done|done|done|apply F].
Qed.

Lemma foc_clear_locked A P h l d w id :
  foc t O A P h (id :: l) d w → id ∈ h →
  wp (on_cache (clear_locked id)) w (λ _ w', foc t O A P h l d w' ∧ same_rest w w').
Proof.
  intros F Hh. apply wp_on_cache. eapply wp_mono.
  { eapply (cside_clear_locked _ _ _ _ _ _ _ _ _ _ id); [apply F|apply elem_of_app; by left|apply not_elem_of_nil]. }
  cbv beta. intros _ c (C & mb & Hm & Hr & _). split; [|done]. eapply foc_set_cache; [done|done|].
  eapply dry_replaced; [done|done| |apply F]. intros _. unfold mb_has. simpl. by rewrite has_clear_flag.
Qed.

Lemma foc_set_uptodate A P h l d w id mb :
  foc t O A P h l d w → membufs (fcache w) !! id = Some mb → id ∈ h → id ∈ l → id ∉ d →
  mb_has Uptodate mb = false → uptodate_fits (fcache w) (mb_offset mb) (mb_length mb) →
  (∀ o, mb_offset mb ≤ o < mb_offset mb + mb_length mb → holds_byte (mem w) id mb o) →
  wp (on_cache (set_uptodate id)) w (λ _ w', foc t O A P h l d w' ∧ same_rest w w').
Proof.
  intros F Hm Hh Hl Hd Hu Hfit Hby. apply wp_on_cache. pose proof (cs_nodup _ _ _ _ _ _ _ _ _ _ (fo_side _ _ _ _ _ _ _ _ F)) as Hnd.
  eapply wp_mono.
  { eapply (cside_set_uptodate _ _ _ _ _ _ _ _ _ _ id mb); [apply F|done|apply elem_of_app; by left|apply elem_of_app; by left|by intros _|done]. }
  cbv beta. intros _ c (C & Hr). split; [|done]. eapply foc_set_cache; [done|done|].
  eapply dry_replaced; [done|done| |apply F]. intros [?|Hf]%elem_of_app; [done|].
  apply NoDup_app in Hnd as (_ & Hnd & _). by destruct (Hnd _ Hl).
Qed.

Lemma foc_drop A P h l d w bc :
  foc t O (bc :: A) P h l d w →
  (∀ i, occ i h ≤ occ i (vids A)) → (∀ i, i ∈ l → i ∈ h) →
  wp (on_cache (bytes_chunk_dtor bc)) w (λ _ w', foc t O A P h l d w' ∧ same_rest w w').
Proof.
  intros F Ho Hl. apply wp_on_cache. eapply wp_mono.
  { eapply (cside_drop _ _ _ _ _ _ (A ++ gather bcs O)); [apply F|..].
    - intros i. rewrite vids_app, !occ_app. specialize (Ho i). pose proof (pinned_occ O i). lia.
    - intros i. rewrite !elem_of_app. pose proof (flying_pinned O i). naive_solver. }
  cbv beta. intros _ c (C & E & _). split; [|done]. eapply foc_set_cache; [done|done|]. by eapply dry_evolves; [|apply F].
Qed.

Lemma foc_drop_all v : ∀ A P h l d w,
  foc t O (places (s_bc <$> v) ++ A) P h l d w →
  (∀ i, occ i h ≤ occ i (vids A)) → (∀ i, i ∈ l → i ∈ h) →
  wp (bc_vec_clear v) w (λ _ w', foc t O A P h l d w' ∧ same_rest w w').
Proof.
  induction v as [|s v IH]; intros A P h l d w F Ho Hl; unfold bc_vec_clear; simpl.
  - wp_step. by split.
  - wp_step. eapply wp_mono.
    { change (bytes_chunk_dtor (s_bc s)) with (bytes_chunk_dtor (place (s_bc s))). apply (foc_drop (places (s_bc <$> v) ++ A)); [exact F| |done].
      intros i. rewrite vids_app, occ_app. specialize (Ho i). pose proof (occ_nonneg i (vids (places (s_bc <$> v)))). lia. }
    cbv beta. intros _ w1 (F1 & R1a & R1b & R1c). eapply wp_mono; [by eapply IH|]. cbv beta. intros _ w2 (F2 & R2a & R2b & R2c).
    split; [done|]. split_and!; congruence.
Qed.

Lemma foc_put A P h l d w y : foc t O A P h l d w → wp (put_task t y) w (λ _ w', foc t O A P h l d w' ∧ w' = set_tasks (<[t := y]> (tasks w)) w ∧ tasks w' !! t = Some y).
Proof.
  intros [C D R T [HO [x Hx]]]. unfold put_task. wp_step.
  assert (<[t := y]> (tasks w) !! t = Some y) as Hy by (apply list_lookup_insert_eq; by eapply lookup_lt_Some).
  split; [|by split]. split; try done. simpl. split; [by erewrite others_insert|by rewrite Hy].
Qed.

Lemma foc_perm A A' P P' h h' l l' d d' w :
  A ≡ₚ A' → P ≡ₚ P' → h ≡ₚ h' → l ≡ₚ l' → d ≡ₚ d' → foc t O A P h l d w → foc t O A' P' h' l' d' w.
Proof.
  intros HA HP Hh Hl Hd [C D R T Ht]. split; try done.
  - eapply cside_perm; [..|exact C]; by rewrite ?HA, ?HP, ?Hh, ?Hl.
  - intros i mb. rewrite <- Hd. apply D.
Qed.

Lemma foc_less A P P' h l d d' w :
  (∀ bc, bc ∈ P' → bc ∈ P) → (∀ i, i ∈ d' → i ∈ d) → foc t O A P h l d w → foc t O A P' h l d' w.
Proof.
  intros HP Hd [C D R T Ht]. split; try done.
  - eapply cside_unpin; [|exact C]. intros bc. rewrite !elem_of_app. naive_solver.
  - intros i mb Hi. apply D. rewrite elem_of_app in *. naive_solver.
Qed.
End ops.

Lemma slot_ok_mono m m' st n s : (∀ i j, is_Some (m i j) → is_Some (m' i j)) → slot_ok m st n s → slot_ok m' st n s.
Proof. intros Hm [P D B F]. split; try done. intros j Hj. by apply Hm, D. Qed.

Lemma running_mono m m' x : (∀ i j, is_Some (m i j) → is_Some (m' i j)) → running m x → running m' x.
Proof. intros Hm [?? ? ? S]. split; try done. intros n s Hs. by eapply slot_ok_mono, S. Qed.

Lemma task_ok_mono m m' x : (∀ i j, is_Some (m i j) → is_Some (m' i j)) → task_ok m x → task_ok m' x.
Proof. intros Hm [[Hr Hx]|?]; [left|by right]. split; [done|]. by eapply running_mono. Qed.

Lemma foc_write t O A P h l d w bc j b :
  foc t O A P h l d w → place bc ∈ A → file_data srv ssize wr (bc_offset bc + j) b →
  wp (write_mem (bc_alloc_buffer bc) (bc_buffer_offset bc + j) b) w
    (λ _ w', foc t O A P h l d w' ∧ w' = set_mem (mem_write (bc_alloc_buffer bc) (bc_buffer_offset bc + j) b (mem w)) w).
Proof.
  intros [C D R T Ht] HA Hb. unfold write_mem. wp_step. split; [|done]. split; try done.
  - eapply (cside_write _ _ _ _ _ _ _ _ _ _ (place bc)); [done|apply elem_of_app; by left|done].
  - intros y Hy. eapply task_ok_mono; [|by apply T]. intros. by apply mem_write_some.
Qed.

Lemma get_task_wp t w x (Q : read_task → rstate → Prop) : tasks w !! t = Some x → Q x w → wp (get_task t) w Q.
Proof. intros Ht HQ. unfold get_task. repeat wp_step; [exact Ht|exact HQ]. Qed.
End contents.
