(* ===== verification/ReadReply.v ===== *)
(** * Answering a read

    [send_read_response()] sends the bytes of the file and frees the task. *)
From S2P Require Import Prelude CacheState Membuf MembufSpec ChunkMap FileCache CacheInv CacheOps ScanGet CacheGet CacheRelease CacheSteps CacheFrame Readahead ReadaheadSpec ReadPath ReadCache ReadInv.

Section contents.
Context (srv : Z → Z) (ssize : Z) (wr : Z → option Z).

Abbreviation file_byte := (file_byte srv ssize wr).
Abbreviation file_ends := (file_ends ssize wr).
Abbreviation cside := (cside srv ssize wr []).
Abbreviation foc := (foc srv ssize wr).
Abbreviation rinv := (rinv srv ssize wr).
Abbreviation running := (running ssize wr).
Abbreviation task_ok := (task_ok srv ssize wr).
Abbreviation slot_ok := (slot_ok ssize wr).

(** [n] bytes of the file from [o] on, as a reply. *)
Definition file_range (o n : Z) : list (option Z) := (λ j, Some (file_byte (o + j))) <$> seqZ 0 n.

Lemma file_range_length o n : 0 ≤ n → Z.of_nat (length (file_range o n)) = n.
Proof. intros. unfold file_range. rewrite length_fmap, length_seqZ. lia. Qed.

Lemma file_range_app o p q : 0 ≤ p → 0 ≤ q → file_range o (p + q) = file_range o p ++ file_range (o + p) q.
Proof.
  intros Hp Hq. unfold file_range. rewrite seqZ_app by lia. rewrite fmap_app. f_equal.
  rewrite Z.add_0_l. rewrite <- (Z.add_0_r p) at 1. rewrite <- fmap_add_seqZ, <- list_fmap_compose.
  apply list_fmap_ext. intros i x _. simpl. do 2 f_equal. lia.
Qed.

(** The bytes read of a chunk are those of the file. *)
Lemma chunk_data_file c m A h l P bc :
  cside c m A h l P → place bc ∈ A → bc_pvt bc ≤ bc_length bc → chunk_read m bc →
  chunk_data m bc = file_range (bc_offset bc) (bc_pvt bc).
Proof.
  intros C HA Hp Hr. unfold chunk_data, file_range. apply list_fmap_ext. intros i j Hj%list_elem_of_lookup_2%elem_of_seqZ. simpl.
  destruct (Hr j ltac:(lia)) as [v Hv]. rewrite Hv. f_equal. eapply (cs_seen _ _ _ _ _ _ _ _ _ _ C (place bc)); [done|simpl; lia|done].
Qed.

(** The loop over the chunks of a finished read. *)
Lemma fill_iov_spec c m A h l P v : ∀ k a e w,
  cside c m A h l P → (∀ bc, bc ∈ s_bc <$> v → place bc ∈ A) → covers (s_bc <$> v) a e →
  (∀ n s, v !! n = Some s → slot_ok m 0 (k + n) s ∧ s_prog s = Finished) → (k + length v ≤ FUSE_REPLY_IOV_MAX_COUNT)%nat →
  wp (fill_iov m v) w (λ r w', w' = w ∧ (length r.1 ≤ length v)%nat ∧ ∃ n, 0 ≤ n ∧ concat r.1 = file_range a n ∧
    (if r.2 then n < e - a ∧ file_ends (a + n) else n = e - a ∧ length r.1 = length v ∧ [] ∉ r.1)).
Proof.
  induction v as [|s v IH]; intros k a e w C HA Hcov Hs Hk; cbn [fill_iov].
  - wp_step. simpl in *. subst e. split_and!; try done. exists 0. split_and!; try (done || lia). by intros ?%elem_of_nil.
  - destruct Hcov as (Ha & Hl & Hcov). fold (fmap s_bc v) in Hcov. destruct (Hs 0%nat s eq_refl) as [[Hp Hd Hb Hf] Hfin].
    pose proof (covers_le _ _ _ Hcov) as Hle.
    assert (chunk_data m (s_bc s) = file_range a (bc_pvt (s_bc s))) as Hcd.
    { rewrite <- Ha. eapply chunk_data_file; [done| |lia|done]. apply HA. by left. }
    wp_asserts cmp. destruct (Z.ltb_spec (bc_pvt (s_bc s)) (bc_length (s_bc s))) as [Hlt|Hge].
    + wp_step. split; [done|]. split; [simpl; lia|]. exists (bc_pvt (s_bc s)). simpl. rewrite app_nil_r, Hcd.
      split_and!; [lia|done|unfold bc_end in *; lia|]. simpl in Hk.
      destruct (Hf Hfin eq_refl) as [?|He]; [lia|lia|]. by rewrite Ha in He.
    + wp_step. eapply wp_mono.
      { apply (IH (S k) (bc_end (s_bc s)) e w C); [|done| |simpl in Hk; lia].
        - intros bc Hbc. apply HA. by right.
        - intros n x Hx. replace (S k + n)%nat with (k + S n)%nat by lia. by apply (Hs (S n)). }
      cbv beta. intros r w' (-> & Hlen & n & Hn & Hc & He). wp_step. split; [done|]. simpl. split; [lia|].
      unfold bc_end in *. exists (bc_length (s_bc s) + n). rewrite Hcd, Hc, file_range_app by lia.
      replace (bc_pvt (s_bc s)) with (bc_length (s_bc s)) by lia. rewrite Ha. split_and!; [lia|done|].
      destruct r.2; destruct He as [? He].
      * split; [lia|]. by replace (a + (bc_length (s_bc s) + n)) with (bc_offset (s_bc s) + bc_length (s_bc s) + n) by lia.
      * destruct He as [Hlr Hne]. split; [lia|]. split; [by rewrite Hlr|]. intros [Hnil|?]%elem_of_cons; [|done].
        apply (f_equal (λ l, Z.of_nat (length l))) in Hnil. rewrite file_range_length in Hnil by lia. simpl in Hnil. lia.
Qed.

(** A task all of whose chunks are done is answered and freed. *)
Record finished (m : memory) (x : read_task) : Prop := {
  fi_run : replies x = [];
  fi_range : 0 ≤ t_offset x ∧ 0 < t_size x ≤ 1048576;
  fi_cov : ∃ e, covers (s_bc <$> visited x) (t_offset x) e ∧
    (e = t_offset x + t_size x ∨ length (visited x) = FUSE_REPLY_IOV_MAX_COUNT) ∧ e ≤ t_offset x + t_size x;
  fi_slot : ∀ n s, visited x !! n = Some s → slot_ok m (read_status x) n s ∧ s_prog s = Finished;
  fi_cap : (length (visited x) ≤ FUSE_REPLY_IOV_MAX_COUNT)%nat;
  fi_rest : todo x = [] ∧ looping x = false ∧ waiting x = false ∧ num_ongoing_backend_reads x = 0 ∧ 0 ≤ read_status x;
  fi_req : t_size x ≤ t_requested x ∧ (t_size x = t_requested x ∨ file_ends (t_offset x + t_size x));
}.

Lemma covers_count v a e : covers v a e → Z.of_nat (length v) ≤ e - a.
Proof.
  revert a. induction v as [|bc v IH]; intros a; simpl; [lia|]. intros (<- & ? & Hc). apply IH in Hc. unfold bc_end in *. lia.
Qed.

Lemma reply_with_spec t O w x r :
  foc t O (places (s_bc <$> visited x)) [] [] [] [] w → tasks w !! t = Some x → finished (mem w) x →
  reply_ok srv ssize wr (t_offset x) (t_requested x) r → wp (reply_with t r) w (λ _ w', rinv w').
Proof.
  intros F Ht Hfin Hr. destruct Hfin as [Hrep _ _ _ _ (Htodo & Hlo & Hwa & Hon & _) _].
  unfold reply_with. wp_step. eapply get_task_wp; [exact Ht|]. wp_step.
  eapply wp_mono; [by apply foc_put|]. cbv beta. intros _ w1 (F1 & -> & Ht1).
  unfold free_rpc_task. wp_step. eapply get_task_wp; [exact Ht1|]. simpl. rewrite Hon. wp_asserts done. wp_step.
  eapply wp_mono; [apply (foc_drop_all srv ssize wr t O _ [] [] [] [] []); [by rewrite app_nil_r|done|by intros ? ?%elem_of_nil]|].
  cbv beta. intros _ w2 (F2 & T2 & M2 & _). eapply wp_mono; [by apply foc_put|]. cbv beta. intros _ w3 (F3 & -> & Ht3).
  eapply unfocus; [|exact Ht3| |done..]; [exact F3|]. right. split; simpl; [|done|].
  - exists r. by rewrite Hrep.
  - done.
Qed.

Lemma send_spec t O w x :
  foc t O (places (s_bc <$> visited x)) [] [] [] [] w → tasks w !! t = Some x → finished (mem w) x →
  wp (send_read_response t) w (λ _ w', rinv w').
Proof.
  intros F Ht Hfin. pose proof Hfin as [Hrep [Ho Hsz] (e & Hcov & He & Hle) Hs Hcap (Htodo & Hlo & Hwa & Hon & Hst) [Hrq Hreq]].
  unfold send_read_response. wp_step. eapply get_task_wp; [exact Ht|]. rewrite Hon. wp_asserts done.
  destruct (Z.eqb_spec (read_status x) 0) as [H0|H0]; simpl.
  2: { wp_asserts cmp. eapply reply_with_spec; [exact F|exact Ht|done|]. simpl. lia. }
  wp_step. wp_step. wp_step. rewrite H0 in Hs. eapply wp_mono.
  { apply (fill_iov_spec _ _ _ _ _ _ (visited x) 0 (t_offset x) e w (fo_side _ _ _ _ _ _ _ _ _ _ _ F)); [|done|exact Hs|simpl; lia].
    intros bc Hb. apply elem_of_app. left. by apply list_elem_of_fmap_2. }
  cbv beta. intros r ? (-> & Hlen & n & Hn & Hc & Hr). rewrite Hc, file_range_length by done.
  pose proof (covers_count _ _ _ Hcov) as Hcnt. rewrite length_fmap in Hcnt.
  assert (n ≤ e - t_offset x) as Hne by (destruct r.2; lia). clear Hcnt.
  apply wp_bind_assert. { rewrite !orb_true_iff, Z.eqb_eq, Nat.eqb_eq. destruct r.2; [tauto|]. destruct He as [He|He]; [|tauto]. left. left. lia. }
  wp_asserts cmp.
  assert (n < t_requested x → file_ends (t_offset x + n) ∨ length r.1 = FUSE_REPLY_IOV_MAX_COUNT ∧ [] ∉ r.1) as Hshort.
  { intros Hlt. destruct r.2; [left; apply Hr|]. destruct Hr as (Hr & Hlr & Hnil), He as [He|He].
    - left. assert (n = t_size x) as -> by lia. destruct Hreq as [?|?]; [lia|done].
    - right. by rewrite Hlr. }
  destruct (Z.eqb_spec n 0) as [->|Hn0]; unfold reply_iov; (apply wp_bind_assert; [apply Nat.leb_le; simpl; lia|]).
  - eapply reply_with_spec; try done. split; [simpl; lia|]. exists 0. split; [lia|]. split; [done|]. intros Hlt.
    destruct (Hshort Hlt) as [?|[Hl Hnil]]; [by left|]. exfalso. destruct r.1 as [|v0 l0]; [discriminate Hl|].
    apply Hnil. destruct v0; [by left|discriminate Hc].
  - eapply reply_with_spec; try done. split; [lia|]. exists n. split; [lia|]. done.
Qed.
End contents.
