(* ===== verification/ReadSteps.v ===== *)
(** * The steps of the read path

    Every step of a read task, taken in a state that satisfies the invariant [rinv], runs
    without failing an assertion and keeps the invariant.  The first part follows the
    fields of a task through the updates the steps make. *)
From S2P Require Import Prelude CacheState Membuf MembufSpec ChunkMap FileCache CacheInv CacheFrame MembufInv CacheOps Purge ScanGet CacheGet ScanRelease CacheRelease CacheSteps Readahead ReadaheadSpec ReadPath ReadCache ReadInv ReadReply.

(** ** Tiling and places *)
Lemma covers_places v a e : covers (places v) a e ↔ covers v a e.
Proof.
  revert a. induction v as [|bc v IH]; intros a; [done|]. unfold places in *. cbn [fmap list_fmap covers].
  rewrite IH. done.
Qed.

Lemma covers_same v v' a e : places v = places v' → covers v a e → covers v' a e.
Proof. rewrite <- (covers_places v), <- (covers_places v'). by intros ->. Qed.

Lemma covers_fun v a e e' : covers v a e → covers v a e' → e = e'.
Proof.
  revert a. induction v as [|bc v IH]; intros a; cbn [covers]; [congruence|]. intros (_ & _ & H1) (_ & _ & H2). by eapply IH.
Qed.

Lemma place_eq bc bc' :
  place bc = place bc' → bc_alloc_buffer bc = bc_alloc_buffer bc' ∧ bc_offset bc = bc_offset bc' ∧
    bc_length bc = bc_length bc' ∧ bc_buffer_offset bc = bc_buffer_offset bc' ∧
    bc_is_whole bc = bc_is_whole bc' ∧ bc_is_new bc = bc_is_new bc'.
Proof. destruct bc, bc'. unfold place, bc_set. simpl. intros [=]. by subst. Qed.

Lemma new_whole_places v v' : places v = places v' → Forall new_whole v → Forall new_whole v'.
Proof.
  intros Hp Hv. apply Forall_forall. intros bc Hb. assert (place bc ∈ places v) as Hin by (rewrite Hp; by apply list_elem_of_fmap_2).
  apply list_elem_of_fmap in Hin as (b & Hpl & Hin). rewrite Forall_forall in Hv. specialize (Hv _ Hin). unfold new_whole in *.
  by destruct (place_eq _ _ Hpl) as (_ & _ & _ & _ & -> & ->).
Qed.

(** Replacing one slot by another of the same place. *)
Lemma places_insert v i s s' :
  v !! i = Some s → place (s_bc s') = place (s_bc s) → places (s_bc <$> <[i := s']> v) = places (s_bc <$> v).
Proof.
  intros Hi Hp. unfold places. rewrite <- !list_fmap_compose, list_fmap_insert. simpl. rewrite Hp.
  apply list_insert_id. by rewrite list_lookup_fmap, Hi.
Qed.

Lemma filter_busy_insert v i s s' :
  v !! i = Some s → busy s → ¬ busy s' → s_bc <$> filter busy v ≡ₚ s_bc s :: (s_bc <$> filter busy (<[i := s']> v)).
Proof.
  intros Hi Hb Hb'. assert (i < length v)%nat by (by eapply lookup_lt_Some).
  rewrite (insert_take_drop _ _ _ H). rewrite <- (take_drop_middle v i s Hi) at 1.
  rewrite !filter_app, !filter_cons_True, filter_cons_False by done. rewrite !fmap_app, fmap_cons. by rewrite Permutation_middle.
Qed.

Lemma filter_busy_same v i s s' :
  v !! i = Some s → busy s → busy s' → place (s_bc s') = place (s_bc s) →
  places (s_bc <$> filter busy (<[i := s']> v)) = places (s_bc <$> filter busy v).
Proof.
  intros Hi Hb Hb' Hp. assert (i < length v)%nat by (by eapply lookup_lt_Some).
  rewrite (insert_take_drop _ _ _ H). rewrite <- (take_drop_middle v i s Hi) at 3. unfold places.
  rewrite !filter_app, !filter_cons_True by done. rewrite !fmap_app, !fmap_cons. by rewrite Hp.
Qed.

Lemma none_busy v : filter busy v = [] → ∀ n s, v !! n = Some s → s_prog s = Finished.
Proof.
  intros Hf n s Hn. destruct (decide (s_prog s = Finished)) as [?|Hb]; [done|].
  assert (s ∈ filter busy v) as Hs by (apply list_elem_of_filter; split; [done|by eapply list_elem_of_lookup_2]).
  rewrite Hf in Hs. by apply not_elem_of_nil in Hs.
Qed.

Section contents.
Context (srv : Z → Z) (ssize : Z) (wr : Z → option Z).

Abbreviation file_byte := (file_byte srv ssize wr).
Abbreviation file_ends := (file_ends ssize wr).
Abbreviation cside := (cside srv ssize wr []).
Abbreviation foc := (foc srv ssize wr).
Abbreviation rinv := (rinv srv ssize wr).
Abbreviation running := (running ssize wr).
Abbreviation slot_ok := (slot_ok ssize wr).
Abbreviation finished := (finished ssize wr).

(** ** Updates of a task *)

(** The loop is done with its first chunk. *)
Definition advanced (s : slot) (f : bool) (total ongoing : Z) (x : read_task) : read_task :=
  with_ongoing ongoing (with_loop true false f total (with_vec (visited x ++ [s]) (tail (todo x)) x)).

Lemma bcs_advanced s f total n x bc rest :
  todo x = bc :: rest → place (s_bc s) = place bc → places (bcs (advanced s f total n x)) = places (bcs x).
Proof.
  intros Hb Hp. unfold bcs, places. simpl. rewrite Hb, !fmap_app. simpl. rewrite Hp, <- app_assoc. done.
Qed.

Lemma flying_advanced s f total n x :
  flying (advanced s f total n x) = flying x ++ (if decide (busy s) then [s_bc s] else []).
Proof.
  unfold flying. simpl. rewrite filter_app, fmap_app. f_equal. case_decide; [by rewrite filter_cons_True|by rewrite filter_cons_False].
Qed.

Lemma running_advanced m x bc rest s f total :
  running m x → looping x = true → todo x = bc :: rest → place (s_bc s) = place bc →
  slot_ok m (read_status x) (length (visited x)) s → (busy s → f = false) → (f = false ∨ f = found_in_cache x) →
  total = total_length x + (if waiting x then 0 else bc_length bc) →
  running m (advanced s f total (num_ongoing_backend_reads x + (if decide (busy s) then 1 else 0)) x).
Proof.
  intros R Hl Hb Hp Hs Hbf Hf Ht. pose proof (place_eq _ _ Hp) as (Ha & Ho & Hlen & _).
  split; simpl; try done; try apply R.
  - destruct (ru_cov _ _ _ _ R) as (e & Hc & He & Hle). exists e. split; [|split; [|done]].
    + eapply covers_same; [symmetry; by eapply bcs_advanced|done].
    + left. destruct He as [He|[He _]]; [done|congruence].
  - rewrite Hb. pose proof (ru_todo _ _ _ _ R) as H. rewrite Hb in H. by apply Forall_cons in H as [_ ?].
  - eapply new_whole_places; [symmetry; by eapply bcs_advanced|apply (ru_new _ _ _ _ R)].
  - intros n y [Hy|[Hn Hy]]%lookup_app_Some; [by apply (ru_slot _ _ _ _ R)|].
    apply list_lookup_singleton_Some in Hy as [Hz <-]. by replace n with (length (visited x)) by lia.
  - intros _. rewrite app_nil_r, fmap_app. simpl. pose proof (ru_total _ _ _ _ R Hl) as Hc.
    destruct (waiting x).
    + rewrite Hb in Hc. simpl in Hc. rewrite Ht, Z.add_0_r. eapply covers_same; [|exact Hc].
      unfold places. rewrite !fmap_app. simpl. by rewrite Hp.
    + rewrite app_nil_r in Hc. destruct (ru_cov _ _ _ _ R) as (e & Hce & _). unfold bcs in Hce.
      apply covers_app in Hce as (a & Hca & Hcb). rewrite Hb in Hcb. destruct Hcb as (Hbo & Hbl & _).
      pose proof (covers_fun _ _ _ _ Hc Hca). rewrite Ht.
      replace (t_offset x + (total_length x + bc_length bc)) with (bc_end (s_bc s)) by (unfold bc_end; lia).
      eapply covers_snoc; [exact Hc|lia|lia].
  - rewrite flying_advanced, length_app, (ru_ongoing _ _ _ _ R), Hl. case_decide; simpl; lia.
  - rewrite flying_advanced. intros Hne. case_decide as Hbs; [by apply Hbf|]. rewrite app_nil_r in Hne.
    destruct Hf as [?| ->]; [done|]. by apply (ru_found _ _ _ _ R).
Qed.

(** The child task of slot [i] is done. *)
Definition settled (i : nat) (s' : slot) (ongoing status : Z) (x : read_task) : read_task :=
  with_ongoing ongoing (with_status status (with_vec (<[i := s']> (visited x)) (todo x) x)).

Lemma bcs_settled i s s' n st x :
  visited x !! i = Some s → place (s_bc s') = place (s_bc s) → places (bcs (settled i s' n st x)) = places (bcs x).
Proof.
  intros Hi Hp. unfold bcs, places. simpl. rewrite !fmap_app. f_equal. by eapply places_insert.
Qed.

Section settled.
Context (m : memory) (x : read_task) (i : nat) (s s' : slot) (n st : Z).
Context (R : running m x) (Hr : replies x = []) (Hi : visited x !! i = Some s) (Hb : busy s) (Hp : place (s_bc s') = place (s_bc s)).
Context (Hst : 0 ≤ st) (Hkeep : st = 0 → read_status x = 0) (Hs : slot_ok m st i s').

Abbreviation x' := (settled i s' n st x).

Lemma settled_slots k y : visited x' !! k = Some y → slot_ok m st k y.
Proof.
  simpl. intros Hy. destruct (decide (k = i)) as [->|Hne].
  - rewrite list_lookup_insert_eq in Hy by (by eapply lookup_lt_Some). by injection Hy as <-.
  - rewrite list_lookup_insert_ne in Hy by done. destruct (ru_slot _ _ _ _ R _ _ Hy) as [P D B F]. split; try done.
    intros Hf Hz. by apply F; [|apply Hkeep].
Qed.

Lemma settled_cov :
  ∃ e, covers (bcs x') (t_offset x) e ∧
    (e = t_offset x + t_size x ∨ looping x = false ∧ length (visited x') = FUSE_REPLY_IOV_MAX_COUNT) ∧ e ≤ t_offset x + t_size x.
Proof.
  destruct (ru_cov _ _ _ _ R) as (e & Hc & He & Hle). exists e. simpl. rewrite length_insert.
  split_and!; try done. eapply covers_same; [symmetry; by eapply bcs_settled|done].
Qed.

Lemma running_settled :
  n = Z.b2z (looping x) + Z.of_nat (length (flying x')) → (flying x' ≠ [] ∨ looping x = true) → running m x'.
Proof.
  intros Hn Hfl. split; simpl; try done; try apply R.
  - apply settled_cov.
  - eapply new_whole_places; [symmetry; by eapply bcs_settled|apply (ru_new _ _ _ _ R)].
  - apply settled_slots.
  - intros Hl. destruct (ru_loop _ _ _ _ R Hl) as (? & ? & _ & ?). rewrite length_insert. split_and!; try done.
    destruct Hfl; [done|congruence].
  - rewrite length_insert. apply R.
  - intros Hl. eapply covers_same; [|by apply (ru_total _ _ _ _ R)]. unfold places. rewrite !fmap_app. f_equal.
    symmetry. by eapply places_insert.
  - intros _. apply (ru_found _ _ _ _ R). unfold flying. intros Hnil%fmap_nil_inv.
    pose proof (none_busy _ Hnil _ _ Hi). done.
Qed.

Lemma finished_settled : flying x' = [] → looping x = false → n = 0 → finished m x'.
Proof.
  intros Hf Hl Hn. destruct (ru_loop _ _ _ _ R Hl) as (Htodo & Hw & _ & Hcap).
  destruct settled_cov as (e & Hc & He & Hle).
  split; simpl; try done.
  - destruct (ru_range _ _ _ _ R) as (? & ? & ?). split; [done|lia].
  - exists e. unfold bcs in Hc. simpl in *. rewrite Htodo, app_nil_r in Hc. split_and!; try done. naive_solver.
  - intros k y Hy. split; [by apply settled_slots|]. eapply none_busy; [|exact Hy]. by eapply fmap_nil_inv.
  - by rewrite length_insert.
  - apply (ru_req _ _ _ _ R).
Qed.
End settled.

(** ** Helpers for the steps *)
Lemma wp_get_membuf w id mb (Q : membuf → rstate → Prop) :
  membufs (fcache w) !! id = Some mb → Q mb w → wp (on_cache (get_membuf id)) w Q.
Proof.
  intros Hm HQ. apply wp_on_cache. unfold get_membuf. repeat wp_step; [exact Hm|]. by destruct w.
Qed.

Lemma foc_live t O A P h l d w bc :
  foc t O A P h l d w → place bc ∈ A → ∃ mb, membufs (fcache w) !! bc_alloc_buffer bc = Some mb ∧
    bc_buffer_offset bc = bc_offset bc - mb_initial_offset mb.
Proof.
  intros F HA. apply (cs_att _ _ _ _ _ _ _ _ _ _ (fo_side _ _ _ _ _ _ _ _ _ _ _ F) (place bc)). apply elem_of_app. by left.
Qed.

(** A chunk in use, its membuf and its entry. *)
Lemma foc_pinned t O A P h l d w bc :
  foc t O A P h l d w → place bc ∈ P → ∃ k x mb, (k, x) ∈ chunkmap (fcache w) ∧ is_view (place bc) x ∧
    membufs (fcache w) !! bc_alloc_buffer bc = Some mb ∧ linked x mb ∧ mb_wf mb ∧ is_inuse mb = true.
Proof.
  intros F HP. apply (cs_pinned _ _ _ _ _ _ _ _ _ _ (fo_side _ _ _ _ _ _ _ _ _ _ _ F) (place bc)). apply elem_of_app. by left.
Qed.

(** An uptodate membuf holds all bytes of a chunk in use. *)
Lemma foc_uptodate t O A P h l d w bc mb :
  foc t O A P h l d w → place bc ∈ P → membufs (fcache w) !! bc_alloc_buffer bc = Some mb → mb_has Uptodate mb = true →
  chunk_read (mem w) (bc_set (bc_length bc) 0 bc).
Proof.
  intros F HP Hm Hu j Hj. simpl in *. destruct (foc_pinned _ _ _ _ _ _ _ _ _ F HP) as (k & x & mb' & Hin & Hv & Hm' & Hlk & _).
  rewrite Hm in Hm'. injection Hm' as <-. pose proof (view_lo _ _ Hv). pose proof (view_hi _ _ Hv).
  pose proof (view_boff _ _ Hv). destruct Hlk. unfold bc_end in *. simpl in *.
  pose proof (cs_up _ _ _ _ _ _ _ _ _ _ (fo_side _ _ _ _ _ _ _ _ _ _ _ F) _ _ (bc_offset bc + j) Hm Hu ltac:(lia)) as Hh.
  unfold holds_byte in Hh. by replace (bc_buffer_offset bc + j) with (bc_offset bc + j - mb_initial_offset mb) by lia.
Qed.

(** Nothing of a chunk in use that is not uptodate was written by the application. *)
Lemma foc_unwritten t O A P h l d w bc mb o :
  foc t O A P h l d w → place bc ∈ P → membufs (fcache w) !! bc_alloc_buffer bc = Some mb → mb_has Uptodate mb = false →
  bc_offset bc ≤ o < bc_end bc → wr o = None.
Proof.
  intros F HP. apply (cs_unwritten _ _ _ _ _ _ _ _ _ _ (fo_side _ _ _ _ _ _ _ _ _ _ _ F) (place bc)). apply elem_of_app. by left.
Qed.

Lemma foc_locked t O A P h l d w id mb :
  foc t O A P h l d w → membufs (fcache w) !! id = Some mb → id ∈ l → is_locked mb = true.
Proof.
  intros F Hm Hl. apply (cs_lock _ _ _ _ _ _ _ _ _ _ (fo_side _ _ _ _ _ _ _ _ _ _ _ F) _ _ Hm). apply elem_of_app. by left.
Qed.

Lemma foc_add_dry t O A P h l d w id mb :
  foc t O A P h l d w → membufs (fcache w) !! id = Some mb → mb_has Uptodate mb = false → foc t O A P h l (id :: d) w.
Proof.
  intros [C D R T Ht] Hm Hu. split; try done. intros i x [->|Hi]%elem_of_cons Hx; [congruence|by eapply D].
Qed.

(** The chunks of a running task lie within the file's bounds. *)
Lemma running_bounds m x bc :
  running m x → bc ∈ bcs x → t_offset x ≤ bc_offset bc ∧ 0 < bc_length bc ≤ t_size x ∧ bc_end bc ≤ t_offset x + t_size x ∧
    release_range (bc_offset bc) (bc_length bc).
Proof.
  intros R Hb. destruct (ru_cov _ _ _ _ R) as (e & Hc & _ & He). destruct (ru_range _ _ _ _ R) as (? & ? & ?).
  destruct (covers_elem _ _ _ _ Hc Hb). assert (0 < bc_length bc).
  { apply list_elem_of_split in Hb as (v1 & v2 & E). rewrite E in Hc. by apply covers_app in Hc as (? & _ & _ & ? & _). }
  unfold bc_end in *. split_and!; try lia. split; lia.
Qed.

Lemma release_read_spec t O A P h l d w bc :
  foc t O A P h l d w → release_range (bc_offset bc) (bc_length bc) →
  wp (release_read bc) w (λ _ w', foc t O A P h l d w' ∧ same_rest w w').
Proof.
  intros F Hr. unfold release_read. wp_step. eapply wp_mono; [by eapply foc_release|]. cbv beta.
  intros r w1 (Hn & F1 & Rs & _). wp_asserts cmp. destruct (r =? bc_length bc); [by wp_step|]. wp_step. wp_step.
  pose proof (fo_ra _ _ _ _ _ _ _ _ _ _ _ F1) as Hw. pose proof (release_till_bound _ Hw).
  destruct (Z.eqb_spec (release_till (rastate w1)) 0); [by wp_step|]. wp_step.
  eapply wp_mono; [eapply foc_release; [done|split; lia]|]. cbv beta. intros r2 w2 (_ & F2 & Rs2 & _). wp_step.
  split; [done|]. destruct Rs as (? & ? & ?), Rs2 as (? & ? & ?). split_and!; congruence.
Qed.
End contents.
