(* ===== verification/ReadLoop.v ===== *)
(** * The steps of run_read()

    [read_start], [read_visit], [read_lock] and [read_end] run and keep the invariant of
    the read path. *)
From S2P Require Import Prelude CacheState Membuf MembufSpec ChunkMap FileCache CacheInv CacheFrame MembufInv CacheOps Purge ScanGet CacheGet ScanRelease CacheRelease CacheSteps Readahead ReadaheadSpec ReadPath ReadCache ReadInv ReadReply ReadSteps.

Section contents.
Context (srv : Z → Z) (ssize : Z) (wr : Z → option Z).

Abbreviation file_byte := (file_byte srv ssize wr).
Abbreviation file_ends := (file_ends ssize wr).
Abbreviation cside := (cside srv ssize wr []).
Abbreviation foc := (foc srv ssize wr).
Abbreviation rinv := (rinv srv ssize wr).
Abbreviation running := (running ssize wr).
Abbreviation slot_ok := (slot_ok ssize wr).

(** A slot that is done for good. *)
Lemma slot_done m st n bc p :
  0 ≤ p ≤ bc_length bc → chunk_read m (bc_set p 0 bc) → p = bc_length bc ∨ (FUSE_REPLY_IOV_MAX_COUNT ≤ n)%nat →
  slot_ok m st n (Slot (bc_set p 0 bc) Finished).
Proof.
  intros Hp Hc Hd. split; simpl; try done. intros _ _ Hn. left. destruct Hd; [done|lia].
Qed.

(** The task the loop works on, its first chunk split off. *)
Lemma loop_focus w t x bc rest :
  rinv w → tasks w !! t = Some x → todo x = bc :: rest →
  foc t (others t (tasks w)) (places (bcs x)) (place bc :: places (flying x ++ rest))
    (bc_alloc_buffer bc :: vids (places (flying x ++ rest))) (vids (places (flying x))) (vids (places (flying x))) w.
Proof.
  intros I Ht Hb. assert (places (pinned x) ≡ₚ place bc :: places (flying x ++ rest)) as Hp.
  { unfold pinned. rewrite Hb. unfold places. rewrite <- fmap_cons. apply fmap_Permutation. by rewrite Permutation_middle. }
  eapply foc_perm; [done|exact Hp|..|by apply focus]; try done. by rewrite Hp.
Qed.

(** The loop puts its first chunk among the visited ones, as done. *)
Lemma loop_finish w t O x bc rest s total l d :
  foc t O (places (bcs x)) (places (flying x ++ rest)) (vids (places (flying x ++ rest))) l d w →
  l ≡ₚ vids (places (flying x)) → d ≡ₚ vids (places (flying x)) →
  tasks w !! t = Some (advanced s (found_in_cache x) total (num_ongoing_backend_reads x) x) →
  replies x = [] → running (mem w) x → looping x = true → todo x = bc :: rest → place (s_bc s) = place bc →
  slot_ok (mem w) (read_status x) (length (visited x)) s → s_prog s = Finished →
  total = total_length x + (if waiting x then 0 else bc_length bc) → rinv w.
Proof.
  intros F Hl Hd Ht Hr R Hlo Hb Hp Hs Hf Htot. assert (¬ busy s) as Hnb by (unfold busy; tauto).
  assert (flying (advanced s (found_in_cache x) total (num_ongoing_backend_reads x) x) = flying x) as Hfl.
  { rewrite flying_advanced, decide_False by done. apply app_nil_r. }
  assert (pinned (advanced s (found_in_cache x) total (num_ongoing_backend_reads x) x) = flying x ++ rest) as Hpi.
  { unfold pinned. rewrite Hfl. simpl. by rewrite Hb. }
  eapply unfocus; [|exact Ht|..]; rewrite ?Hfl, ?Hpi, ?(bcs_advanced _ _ _ _ _ _ _ Hb Hp); try done.
  left. split; [done|]. pose proof (running_advanced ssize wr _ _ _ _ s (found_in_cache x) total R Hlo Hb Hp Hs) as Hrun.
  rewrite decide_False, Z.add_0_r in Hrun by done. apply Hrun; [done|by right|done].
Qed.

Lemma visit_spec w t x bc rest :
  rinv w → tasks w !! t = Some x → replies x = [] → running (mem w) x → looping x = true → waiting x = false →
  todo x = bc :: rest → wp (read_visit t) w (λ _ w', rinv w').
Proof.
  intros I Ht Hrep R Hl Hw Hb. pose proof (loop_focus _ _ _ _ _ I Ht Hb) as F.
  assert (bc ∈ bcs x) as Hin by (unfold bcs; rewrite Hb; apply elem_of_app; right; left).
  destruct (running_bounds _ _ _ _ _ R Hin) as (Ho & Hlen & He & Hrr).
  destruct (foc_pinned _ _ _ _ _ _ _ _ _ _ _ bc F ltac:(by left)) as (k & e & mb & _ & _ & Hm & _ & _ & Hiu).
  pose proof (ru_todo _ _ _ _ R) as Hun. rewrite Hb in Hun. apply Forall_cons in Hun as [[Hp0 Hc0] _].
  unfold read_visit. wp_step. eapply get_task_wp; [exact Ht|]. rewrite Hl, Hw. wp_asserts done. wp_step.
  wp_step; [rewrite Hb; reflexivity|]. wp_step. eapply wp_get_membuf; [exact Hm|]. rewrite Hp0, Hc0. wp_asserts done.
  apply wp_bind_assert. { apply orb_true_iff. destruct (ru_cf _ _ _ _ R) as [->|?]; [by left|right; apply Z.leb_le; lia]. }
  destruct (Nat.leb_spec FUSE_REPLY_IOV_MAX_COUNT (length (visited x))) as [Hcap|Hcap].
  - wp_step. eapply wp_mono; [eapply foc_clear_inuse; [exact F|]|].
    { intros b Hbb. split; [by right|by apply list_elem_of_fmap_2]. }
    cbv beta. intros _ w1 (F1 & (T1 & M1 & _) & _). eapply wp_mono; [by apply foc_put|]. cbv beta. intros _ w2 (F2 & -> & Ht2).
    eapply (loop_finish _ _ _ x bc rest (Slot bc Finished)); try done; simpl; rewrite ?M1, ?Hw; try done.
    rewrite <- (place_unread bc) by done. apply slot_done; [lia| |by right]. intros j Hj. simpl in Hj. lia.
  - unfold is_uptodate. destruct (mb_has Uptodate mb) eqn:Hup.
    + wp_step. eapply wp_mono; [eapply foc_clear_inuse; [exact F|]|].
      { intros b Hbb. split; [by right|by apply list_elem_of_fmap_2]. }
      cbv beta. intros _ w1 (F1 & (T1 & M1 & _) & _). wp_step. eapply wp_mono; [by apply foc_put|]. cbv beta. intros _ w2 (F2 & -> & Ht2).
      eapply wp_mono; [by eapply release_read_spec|]. cbv beta. intros _ w3 (F3 & T3 & M3 & _).
      assert (mem w3 = mem w) as HM by (by rewrite M3; simpl).
      eapply (loop_finish _ _ _ x bc rest (Slot (bc_set (bc_length bc) 0 bc) Finished)); try done; rewrite ?HM, ?Hw; try done.
      * by rewrite T3, Ht2.
      * apply slot_done; [lia| |by left]. eapply foc_uptodate; [exact F|by left|done|done].
    + eapply wp_mono; [by apply foc_put|]. cbv beta. intros _ w2 (F2 & -> & Ht2).
      assert (places (pinned x) ≡ₚ place bc :: places (flying x ++ rest)) as Hp.
      { unfold pinned. rewrite Hb. unfold places. rewrite <- fmap_cons. apply fmap_Permutation. by rewrite Permutation_middle. }
      eapply (unfocus _ _ _ _ t (with_loop true true (found_in_cache x) (total_length x + bc_length bc) x)); [|exact Ht2|..];
        [eapply foc_perm; [done|symmetry; exact Hp|done..|exact F2]| |by rewrite Hp|done|done].
      left. split; [done|]. split; simpl; try done; try apply R.
      * rewrite <- Hl. apply R.
      * intros _. rewrite Hb. split; [done|lia].
      * intros _. rewrite Hb. simpl. pose proof (ru_total _ _ _ _ R Hl) as Hc. rewrite Hw, app_nil_r in Hc.
        destruct (ru_cov _ _ _ _ R) as (e' & Hce & _). unfold bcs in Hce. apply covers_app in Hce as (a & Hca & Hcb).
        rewrite Hb in Hcb. destruct Hcb as (Hbo & Hbl & _). pose proof (covers_fun _ _ _ _ Hc Hca).
        replace (t_offset x + (total_length x + bc_length bc)) with (bc_end bc) by (unfold bc_end; lia).
        eapply covers_snoc; [exact Hc|lia|lia].
      * rewrite (ru_ongoing _ _ _ _ R), Hl. done.
Qed.

(** [read_from_server()] when the call is queued at once. *)
Lemma server_spec t O A P h l d w x i s mb :
  foc t O A P h l d w → tasks w !! t = Some x → visited x !! i = Some s →
  membufs (fcache w) !! bc_alloc_buffer (s_bc s) = Some mb → is_locked mb = true →
  0 < num_ongoing_backend_reads x → bc_pvt (s_bc s) < bc_length (s_bc s) →
  bc_length (s_bc s) ≤ 1048576 → bc_offset (s_bc s) < AZNFSC_MAX_FILE_SIZE →
  wp (read_from_server t i 0) w (λ _ w', foc t O A P h l d w' ∧ mem w' = mem w ∧ tasks w' !! t = Some (with_ongoing
    (if 0 <? bc_num_backend_calls_issued (s_bc s) then num_ongoing_backend_reads x else num_ongoing_backend_reads x + 1)
    (with_vec (<[i := Slot (bc_set (bc_pvt (s_bc s)) (bc_num_backend_calls_issued (s_bc s) + 1) (s_bc s)) InFlight]> (visited x)) (todo x) x))).
Proof.
  intros F Ht Hi Hm Hlk Hon Hpv Hlen Hoff. unfold read_from_server. wp_step. eapply get_task_wp; [exact Ht|].
  wp_step. wp_step; [exact Hi|]. wp_step. eapply wp_get_membuf; [exact Hm|]. rewrite Hlk.
  wp_asserts ltac:(first [done|cmp]).
  apply wp_bind_assert. { apply andb_true_iff. rewrite Z.leb_le, Z.ltb_lt. change AZNFSC_MAX_CHUNK_SIZE with 4194304. lia. }
  eapply wp_mono; [by apply foc_put|]. cbv beta. intros _ w' (F' & -> & Ht'). split_and!; done.
Qed.

Lemma lock_server_spec w t O x bc rest l d mb :
  foc t O (places (bcs x)) (place bc :: places (flying x ++ rest)) (bc_alloc_buffer bc :: vids (places (flying x ++ rest)))
    (bc_alloc_buffer bc :: l) (bc_alloc_buffer bc :: d) w →
  l = vids (places (flying x)) → d = vids (places (flying x)) → membufs (fcache w) !! bc_alloc_buffer bc = Some mb →
  tasks w !! t = Some x → replies x = [] → running (mem w) x → looping x = true → waiting x = true → todo x = bc :: rest →
  wp (do_ put_task t (with_loop true false false (total_length x)
        (with_vec (visited x ++ [Slot (bc_set 0 0 bc) InFlight]) (tail (todo x)) x));
      read_from_server t (length (visited x)) 0) w (λ _ w', rinv w').
Proof.
  intros F -> -> Hm Ht Hrep R Hl Hw Hb. assert (bc ∈ bcs x) as Hin by (unfold bcs; rewrite Hb; apply elem_of_app; right; left).
  destruct (running_bounds _ _ _ _ _ R Hin) as (Ho & Hlen & He & [_ _ Hfile]). destruct (ru_range _ _ _ _ R) as (? & ? & ?).
  destruct (ru_wait _ _ _ _ R Hw) as [_ Hcap].
  pose proof (foc_locked _ _ _ _ _ _ _ _ _ _ _ _ _ F Hm ltac:(by left)) as Hlk.
  wp_step. eapply wp_mono; [by apply foc_put|]. cbv beta. intros _ w1 (F1 & -> & Ht1).
  eapply wp_mono; [eapply server_spec; [exact F1|exact Ht1|by apply list_lookup_middle|exact Hm|done|..]|]; simpl; try lia.
  { rewrite (ru_ongoing _ _ _ _ R), Hl. simpl. lia. }
  intros _ w2 (F2 & M2 & Ht2). rewrite insert_app_r_alt, Nat.sub_diag in Ht2 by done. simpl in Ht2.
  set (s := Slot (bc_set 0 1 bc) InFlight) in *. assert (busy s) as Hbs by done.
  pose proof (running_advanced ssize wr _ _ _ _ s false (total_length x) R Hl Hb eq_refl) as R'. rewrite decide_True in R' by done.
  set (x' := advanced s false (total_length x) (num_ongoing_backend_reads x + 1) x) in *.
  assert (places (flying x') ≡ₚ place bc :: places (flying x)) as Hfl.
  { unfold x'. rewrite flying_advanced, decide_True by done. unfold places. rewrite fmap_app. by rewrite Permutation_app_comm. }
  assert (places (pinned x') ≡ₚ place bc :: places (flying x ++ rest)) as Hpi.
  { unfold pinned, places. rewrite fmap_app. fold (places (flying x')). rewrite Hfl. simpl. rewrite Hb, fmap_app. done. }
  eapply (unfocus _ _ _ _ t x'); [|exact Ht2|..]; rewrite ?Hfl, ?Hpi; try done.
  - unfold x'. rewrite (bcs_advanced _ _ _ _ _ _ _ Hb) by done. eapply foc_perm; [..|exact F2]; done.
  - left. split; [done|]. rewrite M2. apply R'; try done; [|by left|rewrite Hw; lia].
    split; simpl; try done; [lia|intros j Hj; simpl in Hj; lia|]. intros _. split_and!; lia.
Qed.

(** The lock of the first chunk can be taken; a hole is filled only through a chunk that maps
    its membuf, and when no byte of the file is uptodate in two buffers. *)
Record lock_ok (w : rstate) (x : read_task) (bc : bytes_chunk) : Prop := {
  lo_free : ∀ mb, membufs (fcache w) !! bc_alloc_buffer bc = Some mb → is_locked mb = false;
  lo_room : st (fcache w) bytes_allocated ≤ AZNFSC_MAX_FILE_SIZE;
  lo_hole : t_sfsize x ≠ -1 → t_sfsize x ≤ bc_offset bc →
    bc_is_whole bc = true ∧ sole (fcache w) (bc_alloc_buffer bc);
}.

(** What a chunk that turned out to be uptodate, or was filled with zeroes, goes through. *)
Lemma lock_finish w t O x bc rest l d :
  foc t O (places (bcs x)) (place bc :: places (flying x ++ rest)) (bc_alloc_buffer bc :: vids (places (flying x ++ rest)))
    (bc_alloc_buffer bc :: l) d w →
  l = vids (places (flying x)) → d = vids (places (flying x)) → tasks w !! t = Some x → replies x = [] →
  running (mem w) x → looping x = true → waiting x = true → todo x = bc :: rest →
  chunk_read (mem w) (bc_set (bc_length bc) 0 bc) →
  wp (do_ on_cache (clear_locked (bc_alloc_buffer bc));
      do_ on_cache (clear_inuse (bc_alloc_buffer bc));
      do_ put_task t (with_loop true false (found_in_cache x) (total_length x)
            (with_vec (visited x ++ [Slot (bc_set (bc_length bc) 0 bc) Finished]) (tail (todo x)) x));
      do_ on_cache (release (bc_offset bc) (bc_length bc));
      mret ()) w (λ _ w', rinv w').
Proof.
  intros F -> -> Ht Hrep R Hl Hw Hb Hc. assert (bc ∈ bcs x) as Hin by (unfold bcs; rewrite Hb; apply elem_of_app; right; left).
  destruct (running_bounds _ _ _ _ _ R Hin) as (Ho & Hlen & He & Hrr).
  wp_step. eapply wp_mono; [eapply foc_clear_locked; [exact F|by left]|]. cbv beta. intros _ w1 (F1 & T1 & M1 & _).
  wp_step. eapply wp_mono; [eapply foc_clear_inuse; [exact F1|]|].
  { intros b Hbb. split; [by right|by apply list_elem_of_fmap_2]. }
  cbv beta. intros _ w2 (F2 & (T2 & M2 & _) & _). wp_step. eapply wp_mono; [by apply foc_put|]. cbv beta. intros _ w3 (F3 & -> & Ht3).
  wp_step. eapply wp_mono; [by eapply foc_release|]. cbv beta. intros _ w4 (_ & F4 & (T4 & M4 & _) & _). wp_step.
  assert (mem w4 = mem w) as HM by (rewrite M4; simpl; congruence).
  eapply (loop_finish _ _ _ x bc rest (Slot (bc_set (bc_length bc) 0 bc) Finished) (total_length x)); try done; rewrite ?HM, ?Hw; try done;
    [by rewrite T4, Ht3|apply slot_done; [lia|done|by left]|lia].
Qed.

Lemma repeat_data o n : (∀ j, o ≤ j < o + n → file_byte j = 0) → file_data srv ssize wr o (repeat 0 (Z.to_nat n)).
Proof.
  intros Hz k b Hk. pose proof (lookup_lt_Some _ _ _ Hk) as Hlt. rewrite repeat_length in Hlt.
  rewrite Hz by lia. apply list_elem_of_lookup_2, list_elem_of_In in Hk. by apply repeat_spec in Hk.
Qed.

Lemma lock_spec w t x bc rest :
  rinv w → tasks w !! t = Some x → replies x = [] → running (mem w) x → looping x = true → waiting x = true →
  todo x = bc :: rest → lock_ok w x bc → wp (read_lock t 0) w (λ _ w', rinv w').
Proof.
  intros I Ht Hrep R Hl Hw Hb [Hfree Hroom Hhole]. pose proof (loop_focus _ _ _ _ _ I Ht Hb) as F.
  assert (bc ∈ bcs x) as Hin by (unfold bcs; rewrite Hb; apply elem_of_app; right; left).
  destruct (running_bounds _ _ _ _ _ R Hin) as (Ho & Hlen & He & Hrr).
  destruct (foc_pinned _ _ _ _ _ _ _ _ _ _ _ bc F ltac:(by left)) as (_ & _ & mb0 & _ & _ & Hm0 & _).
  assert (bc_alloc_buffer bc ∉ vids (places (flying x)) ++ vids (gather flying (others t (tasks w)))) as Hnl.
  { intros Hk. apply (cs_lock _ _ _ _ _ _ _ _ _ _ (fo_side _ _ _ _ _ _ _ _ _ _ _ F) _ _ Hm0) in Hk. specialize (Hfree _ Hm0). unfold is_locked in Hfree. congruence. }
  apply not_elem_of_app in Hnl as [Hnl Hno].
  unfold read_lock. wp_step. eapply get_task_wp; [exact Ht|]. rewrite Hl, Hw. wp_asserts done. wp_step.
  wp_step; [rewrite Hb; reflexivity|]. cbv zeta. wp_step.
  eapply wp_mono; [eapply foc_set_locked; [exact F|by left|done..]|]. cbv beta. intros _ w1 (F1 & (T1 & M1 & _) & [Hcz Hcu] & mb1 & Hm1 & Hm1').
  destruct (foc_pinned _ _ _ _ _ _ _ _ _ _ _ bc F1 ltac:(by left)) as (k & e & mb & Hke & Hv & Hm & Hlk & Hwf & Hiu).
  rewrite <- T1 in Ht. rewrite <- M1 in R. wp_step. eapply wp_get_membuf; [exact Hm|]. unfold is_uptodate.
  destruct (mb_has Uptodate mb) eqn:Hup.
  { eapply lock_finish; try done. eapply foc_uptodate; [exact F1|by left|done..]. }
  destruct ((t_sfsize x =? -1) || (bc_offset bc <? t_sfsize x)) eqn:Hsf.
  { wp_asserts cmp. eapply lock_server_spec; try done. by eapply foc_add_dry. }
  apply orb_false_iff in Hsf as [Hs1%Z.eqb_neq Hs2%Z.ltb_ge]. destruct (Hhole Hs1 Hs2) as [Hwh Hsole].
  assert (uptodate_fits (fcache w) (mb_offset mb) (mb_length mb)) as Hfit.
  { assert (mb = mb_set_flag (or_flag (mb_flag mb1) Locked) mb1) as -> by congruence.
    eapply (sole_room _ _ _ _ _ _ _ _ _ _ _ mb1 (fo_side _ _ _ _ _ _ _ _ _ _ _ F)); try done.
    unfold mb_has in *. simpl in Hup. by rewrite has_or_flag in Hup. }
  destruct (ru_sf _ _ _ _ R) as [?|Hsf]; [done|].
  assert (∀ o, bc_offset bc ≤ o < bc_end bc → file_byte o = 0) as Hzero.
  { intros o Hoo. unfold ReadCache.file_byte. rewrite (foc_unwritten _ _ _ _ _ _ _ _ _ _ _ _ _ o F1 ltac:(by left) Hm Hup Hoo).
    by rewrite (proj2 (Z.ltb_ge _ _)) by lia. }
  wp_step. replace (bc_buffer_offset bc) with (bc_buffer_offset bc + 0) by lia. eapply wp_mono.
  { eapply foc_write; [exact F1|by apply list_elem_of_fmap_2|]. apply repeat_data. unfold bc_end in Hzero. intros. apply Hzero. lia. }
  cbv beta. intros _ w2 (F2 & Hw2). rewrite Z.add_0_r in Hw2. subst w2.
  destruct (proj1 (view_whole _ _ Hv) Hwh) as [Hvo Hvl]. pose proof (view_boff _ _ Hv) as Hvb. destruct Hlk as [Hlo Hll Hlb].
  simpl in Hvo, Hvl, Hvb. set (data := repeat 0 (Z.to_nat (bc_length bc))) in *.
  assert (Z.of_nat (length data) = bc_length bc) as Hdl by (unfold data; rewrite repeat_length; lia).
  set (m2 := mem_write (bc_alloc_buffer bc) (bc_buffer_offset bc) data (mem w1)) in *.
  assert (∀ j, 0 ≤ j < bc_length bc → is_Some (m2 (bc_alloc_buffer bc) (bc_buffer_offset bc + j))) as Hrd.
  { intros j Hj. unfold m2. rewrite mem_write_in by lia. apply lookup_lt_is_Some. lia. }
  wp_step. eapply wp_mono; [eapply foc_set_uptodate; [exact F2|exact Hm|by left|by left|done|done|..]|].
  { unfold uptodate_fits in *. simpl. lia. }
  { intros o Hoo. unfold holds_byte. simpl. replace (o - mb_initial_offset mb) with (bc_buffer_offset bc + (o - bc_offset bc)) by lia.
    apply Hrd. lia. }
  cbv beta. intros _ w3 (F3 & T3 & M3 & _). eapply lock_finish; try done; [by rewrite T3| |by rewrite M3].
  rewrite M3. eapply running_mono; [|exact R]. intros. by apply mem_write_some.
Qed.

(** The chunks beyond the limit of the reply are done. *)
Lemma busy_take m x :
  running m x → filter busy (visited x) = filter busy (take FUSE_REPLY_IOV_MAX_COUNT (visited x)).
Proof.
  intros R. rewrite <- (take_drop FUSE_REPLY_IOV_MAX_COUNT (visited x)) at 1. rewrite filter_app.
  assert (filter busy (drop FUSE_REPLY_IOV_MAX_COUNT (visited x)) = []) as ->; [|apply app_nil_r].
  apply filter_none. intros s (n & Hn)%list_elem_of_lookup Hb. rewrite lookup_drop in Hn.
  destruct (sl_busy _ _ _ _ _ _ (ru_slot _ _ _ _ R _ _ Hn) Hb) as (_ & _ & _ & ?). lia.
Qed.

Lemma end_spec w t x :
  rinv w → tasks w !! t = Some x → replies x = [] → running (mem w) x → looping x = true → waiting x = false →
  todo x = [] → wp (read_end t) w (λ _ w', rinv w').
Proof.
  intros I Ht Hrep R Hl Hw Hb. pose proof (focus _ _ _ _ _ _ I Ht) as F.
  set (N := FUSE_REPLY_IOV_MAX_COUNT) in *. set (v := take N (visited x)). pose proof (busy_take _ _ R) as Hbt.
  destruct (ru_cov _ _ _ _ R) as (e & Hc & [->|[? _]] & _); [|congruence].
  pose proof Hc as Hc'. unfold bcs in Hc'. rewrite Hb, app_nil_r in Hc'.
  pose proof (ru_total _ _ _ _ R Hl) as Htot. rewrite Hw, app_nil_r in Htot. pose proof (covers_fun _ _ _ _ Htot Hc') as Hsz.
  assert (flying x = s_bc <$> filter busy v) as Hfl by (unfold flying; by rewrite Hbt).
  assert (pinned x = flying x) as Hpi by (unfold pinned; by rewrite Hb, app_nil_r).
  unfold read_end. wp_step. eapply get_task_wp; [exact Ht|]. rewrite Hl, Hw, Hb. wp_asserts done. wp_step.
  assert (foc t (others t (tasks w)) (places (s_bc <$> drop N (visited x)) ++ places (s_bc <$> v)) (places (flying x))
    (vids (places (flying x))) (vids (places (flying x))) (vids (places (flying x))) w) as F'.
  { rewrite Hpi in F. eapply foc_perm; [|done..|exact F]. unfold bcs, places. rewrite Hb, app_nil_r.
    rewrite <- fmap_app, <- fmap_app. apply fmap_Permutation, fmap_Permutation. rewrite Permutation_app_comm. unfold v. by rewrite take_drop. }
  eapply wp_mono; [apply (foc_drop_all _ _ _ _ _ _ _ _ _ _ _ _ F')|].
  { intros i. rewrite Hfl. apply flying_occ. } { done. }
  cbv beta. intros _ w1 (F1 & T1 & M1 & _). wp_asserts cmp.
  apply wp_bind_assert. { apply Z.leb_le. rewrite (ru_ongoing _ _ _ _ R), Hl. simpl. lia. }
  wp_step. eapply wp_mono; [by apply foc_put|]. cbv beta. intros _ w2 (F2 & -> & Ht2).
  set (x' := with_ongoing _ _) in *. set (w2 := set_tasks _ w1) in *. assert (mem w2 = mem w) as HM by done.
  assert (bcs x' = s_bc <$> v) as Hbc by (unfold bcs; simpl; apply app_nil_r).
  assert (flying x' = flying x) as Hfl' by (by rewrite Hfl).
  assert (∀ n s, visited x' !! n = Some s → slot_ok (mem w2) (read_status x') n s) as Hslots.
  { intros n s. change (visited x') with v. intros [Hn _]%lookup_take_Some. rewrite HM. by apply (ru_slot _ _ _ _ R). }
  assert (length v ≤ N)%nat as Hlv by (unfold v; rewrite length_take; lia).
  assert (∃ e, covers (s_bc <$> v) (t_offset x) e ∧ (e = t_offset x + t_size x ∨ length v = N) ∧ e ≤ t_offset x + t_size x) as Hcv.
  { rewrite <- (take_drop N (visited x)), fmap_app in Hc'. apply covers_app in Hc' as (a & Ha & Hd). exists a. split; [done|].
    split; [|by apply covers_le in Hd]. destruct (decide (length (visited x) ≤ N)%nat) as [Hle|Hgt].
    - left. rewrite drop_ge in Hd by done. done.
    - right. unfold v. rewrite length_take. lia. }
  assert (num_ongoing_backend_reads x - 1 = Z.of_nat (length (flying x))) as Hn by (rewrite (ru_ongoing _ _ _ _ R), Hl; simpl; lia).
  destruct (Z.eqb_spec (num_ongoing_backend_reads x - 1) 0) as [Hz|Hz]; simpl.
  - assert (flying x = []) as Hnil by (destruct (flying x); [done|simpl in *; lia]).
    eapply (send_spec _ _ _ _ (others t (tasks w)) _ x'); [|exact Ht2|].
    + rewrite Hnil in F2. exact F2.
    + destruct (ru_range _ _ _ _ R) as (? & ? & ?). split; try done.
      * intros n s Hs. split; [by apply Hslots|]. eapply none_busy; [|exact Hs].
        eapply fmap_nil_inv. unfold flying in Hfl'. by rewrite Hfl'.
      * unfold x'. simpl. split_and!; try done. apply (ru_status _ _ _ _ R).
      * apply (ru_req _ _ _ _ R).
  - assert (flying x ≠ []) as Hne by (intros E; rewrite E in Hn; simpl in Hn; lia).
    wp_step; [by rewrite (ru_found _ _ _ _ R Hne)|].
    eapply (unfocus _ _ _ _ t x'); [|exact Ht2|..]; rewrite ?Hbc; unfold pinned; rewrite ?Hfl'; change (todo x') with (@nil bytes_chunk); rewrite ?app_nil_r; try done.
    left. split; [done|]. split; try done; try apply R; rewrite ?Hbc, ?Hfl'; try done.
    + destruct Hcv as (e & ? & ? & ?). exists e. unfold x'. simpl. split_and!; try done. naive_solver.
    + apply Forall_forall. intros b Hbv. eapply Forall_forall; [apply (ru_new _ _ _ _ R)|]. unfold bcs. rewrite Hb, app_nil_r.
      unfold v in Hbv. rewrite fmap_take in Hbv. eapply elem_of_take in Hbv as (n & Hn' & _). by eapply list_elem_of_lookup_2.
    + apply (ru_found _ _ _ _ R).
Qed.

(** ** A new request *)
Lemma gather_snoc f ts x : gather f (ts ++ [x]) ≡ₚ places (f x) ++ gather f ts.
Proof.
  unfold gather, places. rewrite fmap_app, concat_app. simpl. rewrite app_nil_r, fmap_app. apply Permutation_app_comm.
Qed.

Lemma new_task_spec w x v :
  cside (fcache w) (mem w) (v ++ gather bcs (tasks w)) (vids v ++ vids (gather pinned (tasks w)))
    (vids (gather flying (tasks w))) (v ++ gather pinned (tasks w)) →
  dry (fcache w) (vids (gather flying (tasks w))) → wf (rastate w) → (∀ t y, tasks w !! t = Some y → task_ok srv ssize wr (mem w) y) →
  visited x = [] → todo x = v → Forall unread v → task_ok srv ssize wr (mem w) x → wp (new_task x) w (λ _ w', rinv w').
Proof.
  intros C D Ra T Hv Ht Hu Hx. assert (places v = v) as Hpv.
  { unfold places. rewrite <- (list_fmap_id v) at 2. apply Forall_fmap_ext_1. eapply Forall_impl; [exact Hu|].
    intros bc Hb. simpl. by apply place_unread. }
  assert (bcs x = v) as Eb by (unfold bcs; by rewrite Hv). assert (flying x = []) as Ef by (unfold flying; by rewrite Hv).
  assert (pinned x = v) as Ep by (unfold pinned; by rewrite Ef).
  unfold new_task. wp_step. split; simpl.
  - eapply cside_perm; [..|exact C]; symmetry; rewrite ?gather_snoc, ?Eb, ?Ep, ?Ef, ?vids_app, ?Hpv; done.
  - intros i mb Hi. apply D. rewrite gather_snoc, Ef in Hi. done.
  - done.
  - intros t y [Hy|[_ Hy]]%lookup_app_Some; [by eapply T|]. by apply list_lookup_singleton_Some in Hy as [_ <-].
Qed.

(** The requests fuse makes, with the attribute cache up to date or expired. *)
Record start_ok (scaled sfsize offset size : Z) : Prop := {
  so_offset : 0 ≤ offset;
  so_size : 0 < size ≤ 1048576;
  so_file : offset + size ≤ AZNFSC_MAX_FILE_SIZE;
  so_scaled : 0 ≤ scaled ∧ scaled + size ≤ SECTION_SIZE;
  so_attr : sfsize = -1 ∨ sfsize = ssize;
  so_server : 0 ≤ ssize;
}.

(** The client's file size is where the file ends. *)
Lemma client_size_ends c m A h l P e :
  cside c m A h l P → Z.max ssize (cache_size c) ≤ e → file_ends e.
Proof.
  intros C He. split; [lia|]. intros o Ho. destruct (wr o) eqn:Hw; [|done].
  destruct (cs_wr _ _ _ _ _ _ _ _ _ _ C o) as [? _]; [by rewrite Hw|lia].
Qed.

Lemma start_spec pg scaled sfsize offset size w :
  rinv w → start_ok scaled sfsize offset size → wp (read_start pg scaled sfsize offset size) w (λ _ w', rinv w').
Proof.
  intros I [Ho Hs Hf [Hsc Hsec] Hsf Hsrv]. pose proof I as [C D Ra T]. pose proof (cs_size _ _ _ _ _ _ _ _ _ _ C) as Hcs.
  unfold read_start. wp_step.
  apply (wp_mono _ _ (λ fs w', w' = w ∧ fs.2 = sfsize ∧ (fs.1 = -1 ∨ fs.1 = Z.max ssize (cache_size (fcache w))))).
  { unfold get_file_sizes. destruct (Z.eqb_spec sfsize (-1)) as [->|Hne]; [wp_step; simpl; tauto|].
    unfold get_cached_filesize. wp_step. wp_step. wp_step. wp_asserts cmp. wp_step. wp_step. simpl. destruct Hsf as [?| ->]; [done|tauto]. }
  cbv beta. intros [cf sf] ? (-> & Hf2 & Hcf). cbn [fst snd] in *. subst sf.
  destruct (negb (cf =? -1) && (cf <=? offset)) eqn:Heof.
  { apply andb_true_iff in Heof as [Hc1%negb_true_iff%Z.eqb_neq Hc2%Z.leb_le]. destruct Hcf as [?|Hcf]; [done|].
    eapply (new_task_spec _ _ []); try done. right. split; try done. simpl. eexists. split; [done|]. split; [simpl; lia|]. exists 0. split_and!; try done; [lia|].
    intros _. left. eapply client_size_ends; [exact C|lia]. }
  set (size' := if negb (cf =? -1) && (cf <? offset + size) then cf - offset else size).
  assert (0 < size' ≤ size ∧ (cf = -1 ∨ offset + size' ≤ cf) ∧ (size' = size ∨ file_ends (offset + size'))) as (Hsz & Hcf' & Hreq).
  { unfold size'. destruct (Z.eqb_spec cf (-1)) as [->|Hne]; simpl in *; [lia|]. apply Z.leb_gt in Heof. destruct Hcf as [?|Hcf]; [done|].
    destruct (Z.ltb_spec cf (offset + size)); [|lia]. split_and!; try lia. right. eapply client_size_ends; [exact C|lia]. }
  wp_step. apply (wp_mono _ _ (λ r w', w' = w ∧ r = size')).
  { unfold size'. destruct (negb (cf =? -1) && (cf <? offset + size)) eqn:Htr; [|by wp_step].
    apply andb_true_iff in Htr as [_ Htr%Z.ltb_lt]. wp_asserts cmp. wp_step. split; [done|lia]. }
  cbv beta. intros r ? [-> ->]. wp_step. wp_step. wp_step. apply wp_on_cache. eapply wp_mono.
  { eapply cside_get; [exact C|]. split; [done| |lia]. change AZNFSC_MAX_CHUNK_SIZE with 4194304. lia. }
  cbv beta. intros v c (C1 & E & Hcov & Hun & Hnw). wp_step.
  assert (valid_read scaled offset size') as Hval by (split_and!; lia).
  eexists (), _. split.
  { unfold on_ra. simpl. by rewrite (read_spec _ _ _ _ Ra Hval). }
  pose proof (after_read_wf _ _ _ _ Ra Hval) as Ra'.
  apply wp_bind_assert.
  { apply Nat.ltb_lt. destruct v; [simpl in Hcov; lia|simpl; lia]. }
  eapply (new_task_spec _ _ v); try done; simpl.
  - by eapply dry_evolves.
  - left. split; [done|]. split; simpl; try done; try lia.
    + exists (offset + size'). split_and!; try done. by left.
    + split; [lia|done].
Qed.
End contents.
