(* ===== verification/ReadCallback.v ===== *)
(** * The callback of a READ

    [read_callback] and [jukebox_read] run and keep the invariant of the read path. *)
From S2P Require Import Prelude CacheState Membuf MembufSpec ChunkMap FileCache CacheInv CacheFrame MembufInv CacheOps Purge ScanGet CacheGet ScanRelease CacheRelease CacheSteps Readahead ReadaheadSpec ReadPath ReadCache ReadInv ReadReply ReadSteps ReadLoop.

(** ** Cutting off the tail of a chunk *)

(** Releasing the tail of a locked chunk: if all of it was released, the chunk and its
    membuf end where the tail began. *)
Lemma release_tail c k x o n :
  inv c → (k, x) ∈ chunkmap c → release_range o n → bc_offset x < o → o + n = bc_end x →
  (∀ mb, membufs c !! bc_alloc_buffer x = Some mb → mb_has Locked mb = true) →
  wp (release o n) c (λ r c', r = n → ∃ mb', membufs c' !! bc_alloc_buffer x = Some mb' ∧
    mb_offset mb' = bc_offset x ∧ mb_length mb' = o - bc_offset x).
Proof.
  intros I Hin Hr Hlo Hhi Hlk. eapply wp_mono; [by apply release_spec|]. cbv beta. intros r c' (s1 & s2 & Hp & _ & Hrel & -> & I') ->.
  simpl. pose proof (pu_inv _ _ Hp) as I1. destruct (inv_chunk _ _ I _ _ Hin) as (mb & Hm & _).
  assert ((k, x) ∈ chunkmap s1) as Hin1.
  { destruct (decide ((k, x) ∈ chunkmap s1)) as [?|Hn]; [done|].
    apply (pu_drop _ _ Hp _ Hin), (purgeable_spec _ _ _ _ Hm) in Hn as (_ & _ & _ & Hl). specialize (Hlk _ Hm). unfold is_locked in *. congruence. }
  destruct (chunk_safe s1 x) eqn:Hs.
  - assert ((k, cut x (bc_offset x) o) ∈ chunkmap s2) as Hin2.
    { rewrite (re_map _ _ _ _ _ Hrel). unfold after_release. apply list_elem_of_fmap. exists (k, x). split.
      - unfold trims, cut_tail. simpl. rewrite Hs, (proj2 (Z.ltb_lt (bc_offset x) o)), (proj2 (Z.ltb_lt o (bc_end x))), (proj2 (Z.leb_le (bc_end x) (o + n))) by (destruct Hr; lia). done.
      - apply list_elem_of_filter. split; [|done]. unfold drops. simpl. rewrite (proj2 (Z.leb_gt o (bc_offset x))) by lia. by rewrite andb_false_r. }
    destruct (inv_chunk _ _ (re_inv _ _ _ _ _ Hrel) _ _ Hin2) as (mb' & Hm' & [L1 L2 _] & _). simpl in *. exists mb'. split; [done|]. lia.
  - exfalso. assert (chunkmap s2 = chunkmap s1) as Hsame.
    { rewrite (re_map _ _ _ _ _ Hrel). apply after_release_outside. intros [k' y] Hy.
      destruct (decide ((k', y) = (k, x))) as [[= -> ->]|Hne]; [by apply unsafe|].
      destruct (inv_chunk_bounds _ _ I1 _ _ Hy) as (-> & _ & Hly & _). destruct (inv_chunk_bounds _ _ I1 _ _ Hin1) as (-> & _ & Hlx & _).
      apply outside; [by destruct Hr| |exact Hly]. simpl. pose proof (inv_wf _ _ I1) as Hw.
      destruct (decide (bc_end y ≤ o)) as [?|H1]; [by left|]. destruct (decide (o + n ≤ bc_offset y)) as [?|H2]; [by right|].
      exfalso. apply Hne. assert (0 < n) by (by destruct Hr). set (z := Z.max o (bc_offset y)).
      assert (cm_find z (chunkmap s1) = Some y) as E1.
      { apply (cm_find_elem 0); [done|]. split; [done|]. unfold z, bc_end in *. lia. }
      assert (cm_find z (chunkmap s1) = Some x) as E2.
      { apply (cm_find_elem 0); [done|]. split; [done|]. unfold z, bc_end in *. lia. }
      rewrite E1 in E2. by injection E2 as ->. }
    pose proof (re_bytes _ _ _ _ _ Hrel) as Hb. rewrite (inv_cached _ _ I1), (inv_cached _ _ (re_inv _ _ _ _ _ Hrel)), Hsame in Hb.
    destruct Hr. lia.
Qed.

Section contents.
Context (srv : Z → Z) (ssize : Z) (wr : Z → option Z).

Abbreviation file_byte := (file_byte srv ssize wr).
Abbreviation file_ends := (file_ends ssize wr).
Abbreviation cside := (cside srv ssize wr []).
Abbreviation foc := (foc srv ssize wr).
Abbreviation rinv := (rinv srv ssize wr).
Abbreviation running := (running ssize wr).
Abbreviation slot_ok := (slot_ok ssize wr).

(** There is room for the uptodate bytes of a chunk that starts at [o] and has at most [n] bytes. *)
Definition up_room (c : cache) (o n : Z) : Prop :=
  st c bytes_uptodate + n ≤ cache_size c ∨ st c bytes_uptodate ≤ o.

Lemma up_room_calm c c' o n n' : up_room c o n → calm c c' → n' ≤ n → uptodate_fits c' o n'.
Proof. unfold up_room, calm, uptodate_fits. lia. Qed.

Lemma mark_spec t O A P h l d w bc eof count issued :
  foc t O A (place bc :: P) (bc_alloc_buffer bc :: h) (bc_alloc_buffer bc :: l) (bc_alloc_buffer bc :: d) w →
  place bc ∈ A → bc_alloc_buffer bc ∉ d → (∀ b, b ∈ P → bc_alloc_buffer b ∈ h) → new_whole bc →
  chunk_read (mem w) bc → 0 < bc_pvt bc ≤ bc_length bc → release_range (bc_offset bc) (bc_length bc) →
  up_room (fcache w) (bc_offset bc) (bc_length bc) → (bc_pvt bc < bc_length bc → count < issued) →
  wp (mark_uptodate bc eof count issued) w (λ _ w',
    foc t O A P (bc_alloc_buffer bc :: h) (bc_alloc_buffer bc :: l) d w' ∧ same_rest w w').
Proof.
  intros F HA Hd HP Hnw Hrd Hpv Hrr Hroom Hcnt. set (id := bc_alloc_buffer bc) in *.
  destruct (foc_pinned _ _ _ _ _ _ _ _ _ _ _ bc F ltac:(by left)) as (k & x & mb & Hin & Hv & Hm & Hlk & Hwf & Hiu).
  assert (mb_has Uptodate mb = false) as Hup.
  { eapply (fo_dry _ _ _ _ _ _ _ _ _ _ _ F); [by left|exact Hm]. }
  assert (foc t O A P (id :: h) (id :: l) d w) as F0.
  { eapply foc_less; [..|exact F]; intros; by right. }
  assert (negb (bc_is_new bc) || bc_is_whole bc = true) as Has.
  { unfold new_whole in Hnw. destruct (bc_is_new bc); [by rewrite Hnw|done]. }
  assert (∀ w' mb', foc t O A P (id :: h) (id :: l) d w' → same_rest w w' → calm (fcache w) (fcache w') →
    membufs (fcache w') !! id = Some mb' → mb_has Uptodate mb' = false → mb_offset mb' = bc_offset bc → mb_length mb' = bc_pvt bc →
    mb_initial_offset mb' = mb_initial_offset mb →
    wp (on_cache (set_uptodate id)) w' (λ _ w', foc t O A P (id :: h) (id :: l) d w' ∧ same_rest w w')) as Hset.
  { intros w' mb' F' (T' & M' & R') Hcalm Hm' Hu' Ho Hl Hio. eapply wp_mono.
    { eapply foc_set_uptodate; [exact F'|exact Hm'|by left|by left|done|done| |].
      - rewrite Ho, Hl. eapply up_room_calm; [done|done|lia].
      - intros o Hoo. unfold holds_byte. rewrite M', Hio. destruct Hlk. pose proof (view_boff _ _ Hv) as Hb. simpl in Hb.
        replace (o - mb_initial_offset mb) with (bc_buffer_offset bc + (o - bc_offset bc)) by lia. apply Hrd. lia. }
    cbv beta. intros _ w2 (F2 & T2 & M2 & R2). split; [done|]. split_and!; congruence. }
  unfold mark_uptodate, maps_full_membuf. wp_step. wp_asserts done. wp_step.
  destruct (bc_is_whole bc) eqn:Hwh; simpl; [|wp_step; wp_asserts ltac:(exact Has); wp_step; simpl; wp_step; by split].
  destruct (proj1 (view_whole _ _ Hv) Hwh) as [Hvo Hvl]. simpl in Hvo, Hvl. pose proof Hlk as [L1 L2 L3].
  destruct (Z.eqb_spec (bc_length bc) (bc_pvt bc)) as [Hfull|Hpart].
  { eapply (Hset w mb); try done; try lia. }
  wp_step. wp_asserts ltac:(exact Has). wp_step. rewrite (proj2 (Z.ltb_lt (bc_pvt bc) (bc_length bc))) by lia.
  destruct eof; simpl; [|wp_step; by split]. wp_asserts cmp. wp_step.
  eapply wp_mono; [eapply (foc_clear_inuse _ _ _ _ _ _ _ P); [exact F|]|].
  { intros b Hb. split; [by right|by apply HP]. }
  cbv beta. intros _ w1 (F1 & (T1 & M1 & R1) & Hc1 & Hmap). wp_step.
  assert (release_range (bc_offset bc + bc_pvt bc) (bc_length bc - bc_pvt bc)) as Hrr' by (destruct Hrr; split; lia).
  assert (wp (on_cache (release (bc_offset bc + bc_pvt bc) (bc_length bc - bc_pvt bc))) w1 (λ r w',
    (r = bc_length bc - bc_pvt bc → ∃ mb', membufs (fcache w') !! id = Some mb' ∧ mb_offset mb' = bc_offset bc ∧ mb_length mb' = bc_pvt bc))) as Htail.
  { apply wp_on_cache. eapply wp_mono; [eapply (release_tail _ k x); [apply F1|by rewrite Hmap|done|lia|unfold bc_end; lia|]|].
    - intros mb1 Hm1. rewrite <- (view_alloc _ _ Hv) in Hm1. eapply foc_locked; [exact F1|exact Hm1|by left].
    - cbv beta. intros r c Hr Heq. destruct (Hr Heq) as (mb' & Hm' & ? & ?). rewrite <- (view_alloc _ _ Hv) in Hm'. exists mb'.
      split_and!; [done|lia|lia]. }
  destruct (foc_release _ _ _ _ _ _ _ _ _ _ _ _ _ F1 Hrr') as (r & w2 & Hrun & Hr & F2 & (T2 & M2 & R2) & Hc2).
  pose proof (wp_run _ _ _ _ _ Hrun Htail) as Hend. exists r, w2. split; [done|].
  wp_step. eapply wp_mono; [eapply (foc_set_inuse _ _ _ _ _ _ P); [exact F2| |done]|].
  { intros i. pose proof (cs_sub _ _ _ _ _ _ _ _ _ _ (fo_side _ _ _ _ _ _ _ _ _ _ _ F) i) as Hs.
    change (id :: h) with ([id] ++ h) in Hs. rewrite !occ_app in Hs. rewrite occ_app. fold id. lia. }
  cbv beta. intros _ w3 (F3 & (T3 & M3 & R3) & Hc3 & mb2 & Hm2 & Hm3). wp_asserts cmp.
  assert (foc t O A P (id :: h) (id :: l) d w3) as F4 by (eapply foc_less; [..|exact F3]; [done|intros; by right]).
  assert (same_rest w w3) as Hrest by (split_and!; congruence).
  destruct (Z.eqb_spec r (bc_length bc - bc_pvt bc)) as [Heq|]; [|by wp_step].
  destruct (Hend Heq) as (mb' & Hm' & Ho' & Hl'). fold id in Hm2, Hm3. rewrite Hm2 in Hm'. injection Hm' as ->.
  destruct (foc_live _ _ _ _ _ _ _ _ _ _ _ bc F3 HA) as (mb3 & Hm3' & Hb3). fold id in Hm3'. rewrite Hm3 in Hm3'. injection Hm3' as <-.
  destruct (foc_live _ _ _ _ _ _ _ _ _ _ _ bc F HA) as (mb0 & Hm0' & Hb0). rewrite Hm in Hm0'. injection Hm0' as <-.
  simpl in Hb3. eapply Hset; [exact F4|exact Hrest| |exact Hm3| |simpl; lia..].
  - by eapply calm_compose, calm_compose.
  - eapply (fo_dry _ _ _ _ _ _ _ _ _ _ _ F3); [by left|exact Hm3].
Qed.

(** ** The end of a child task *)
Section child.
Context (t : nat) (O : list read_task) (x : read_task) (i : nat) (s : slot) (bc : bytes_chunk).
Context (Hi : visited x !! i = Some s) (Hb : busy s) (Hp : place bc = place (s_bc s)).

(** The task with its chunk [i] read further, its child still under way, and done. *)
Definition reading : read_task := with_vec (<[i := Slot bc InFlight]> (visited x)) (todo x) x.
Definition read_done : read_task := with_vec (<[i := Slot bc Finished]> (visited x)) (todo x) x.

Lemma flying_done : places (flying x) ≡ₚ place bc :: places (flying read_done).
Proof.
  unfold places. rewrite Hp, <- fmap_cons. apply fmap_Permutation. unfold flying. simpl.
  apply filter_busy_insert; try done. intros Hn. by apply Hn.
Qed.

Lemma pinned_done : places (pinned x) ≡ₚ place bc :: places (pinned read_done).
Proof.
  unfold pinned, places. rewrite !fmap_app. fold (places (flying x)). by rewrite flying_done.
Qed.

Lemma bcs_done : places (bcs read_done) = places (bcs x).
Proof. unfold bcs, places. rewrite !fmap_app. f_equal. by eapply places_insert. Qed.

Lemma child_spec w d status :
  foc t O (places (bcs x)) (places (pinned read_done)) (bc_alloc_buffer bc :: vids (places (pinned read_done)))
    (bc_alloc_buffer bc :: vids (places (flying read_done))) d w →
  (∀ j, j ∈ vids (places (flying read_done)) → j ∈ d) → tasks w !! t = Some reading → replies x = [] → running (mem w) x →
  0 ≤ bc_pvt bc ≤ bc_length bc → chunk_read (mem w) bc →
  status = 0 ∧ (bc_pvt bc = bc_length bc ∨ file_ends (bc_offset bc + bc_pvt bc)) ∨ 0 < status ∧ bc_alloc_buffer bc ∈ d →
  wp (child_done t i status) w (λ _ w', rinv w').
Proof.
  intros F Hd Ht Hrep R Hpv Hrd Hst. assert (i < length (visited x))%nat as Hil by (by eapply lookup_lt_Some).
  assert (place bc ∈ places (bcs x)) as HA.
  { rewrite Hp. apply list_elem_of_fmap_2. unfold bcs. apply elem_of_app. left. apply list_elem_of_fmap_2. by eapply list_elem_of_lookup_2. }
  assert (∃ b, b ∈ bcs x ∧ place bc = place b) as (b & Hbb & Hpb).
  { apply list_elem_of_fmap in HA as (b & ? & ?). eauto. }
  destruct (running_bounds _ _ _ _ _ R Hbb) as (_ & _ & _ & Hrr). destruct (place_eq _ _ Hpb) as (_ & Eo & El & _). rewrite <- Eo, <- El in Hrr.
  unfold child_done. wp_step. eapply get_task_wp; [exact Ht|]. wp_step. wp_step; [by apply list_lookup_insert_eq|]. cbn [s_bc].
  wp_step. eapply wp_mono; [eapply foc_clear_locked; [exact F|by left]|]. cbv beta. intros _ w1 (F1 & T1 & M1 & _).
  wp_step. eapply wp_mono; [eapply foc_clear_inuse; [exact F1|]|].
  { intros c Hc. split; [done|]. by apply list_elem_of_fmap_2. }
  cbv beta. intros _ w2 (F2 & (T2 & M2 & _) & _). wp_step. eapply wp_mono; [by eapply foc_release|]. cbv beta.
  intros _ w3 (_ & F3 & (T3 & M3 & _) & _). wp_step. destruct (foc_live _ _ _ _ _ _ _ _ _ _ _ bc F3 HA) as (mb & Hm & _).
  eapply wp_get_membuf; [exact Hm|]. apply wp_bind_assert.
  { apply orb_true_iff. destruct Hst as [[-> _]|[_ Hid]]; [by left|right]. apply negb_true_iff.
    eapply (fo_dry _ _ _ _ _ _ _ _ _ _ _ F3); [|exact Hm]. apply elem_of_app. by left. }
  set (st := if read_status reading =? 0 then status else read_status reading). set (n := num_ongoing_backend_reads reading - 1).
  wp_step. eapply wp_mono; [by apply foc_put|]. cbv beta. intros _ w4 (F4 & -> & Ht4).
  set (w4 := set_tasks _ w3) in *. assert (mem w4 = mem w) as HM by (simpl; congruence).
  set (x' := settled i (Slot bc Finished) n st x).
  assert (tasks w4 !! t = Some x') as Ht5.
  { rewrite Ht4. unfold x', settled, reading. simpl. by rewrite list_insert_insert_eq. }
  pose proof (ru_status _ _ _ _ R) as Hrs. assert (0 ≤ st ∧ (st = 0 → read_status x = 0 ∧ status = 0)) as [Hst0 Hstz].
  { unfold st. simpl. destruct (Z.eqb_spec (read_status x) 0); lia. }
  assert (slot_ok (mem w4) st i (Slot bc Finished)) as Hslot.
  { rewrite HM. split; simpl; try done. intros _ Hz _. destruct (Hstz Hz) as [_ ->]. destruct Hst as [[_ ?]|[? _]]; [done|lia]. }
  assert (running (mem w4) x) as R4 by (by rewrite HM).
  assert (n = Z.b2z (looping x) + Z.of_nat (length (flying x'))) as Hn.
  { unfold n. simpl. rewrite (ru_ongoing _ _ _ _ R). pose proof (Permutation_length flying_done) as Hlen. unfold places in Hlen. simpl in Hlen.
    rewrite !length_fmap in Hlen. change (flying x') with (flying read_done). lia. }
  assert (places (bcs x') = places (bcs x)) as Hbc by (by eapply bcs_settled).
  destruct (Z.eqb_spec n 0) as [Hz|Hz].
  - assert (flying x' = [] ∧ looping x = false) as [Hnil Hlo].
    { destruct (looping x), (flying x'); simpl in *; (done || lia). }
    pose proof (ru_loop _ _ _ _ R Hlo) as (Htodo & _). eapply (send_spec _ _ _ _ O _ x'); [|exact Ht5|].
    + assert (places (s_bc <$> visited x') = places (bcs x)) as Hv.
      { rewrite <- Hbc. unfold bcs. simpl. by rewrite Htodo, app_nil_r. }
      rewrite Hv. unfold pinned in F4. change (flying read_done) with (flying x') in F4. rewrite Hnil in F4. simpl in F4. rewrite Htodo in F4.
      eapply foc_less; [..|exact F4]; [done|]. by intros ? ?%elem_of_nil.
    + eapply finished_settled; try done. intros Hz0. by destruct (Hstz Hz0).
  - wp_step. eapply (unfocus _ _ _ _ t x'); [|exact Ht5|..]; [rewrite Hbc; eapply foc_less; [..|exact F4]; [done|exact Hd]| |done..].
    left. split; [done|]. eapply running_settled; try done; [intros Hz0; by destruct (Hstz Hz0)|].
    destruct (looping x) eqn:Hlo; [by right|left]. intros E. fold x' in E. rewrite E in Hn. simpl in Hn. lia.
Qed.
End child.

(** The child task goes on: its READ was issued again, or it is queued for a retry. *)
Lemma goes_on w t O x i s s' :
  foc t O (places (bcs x)) (places (pinned x)) (vids (places (pinned x))) (vids (places (flying x))) (vids (places (flying x))) w →
  tasks w !! t = Some (with_vec (<[i := s']> (visited x)) (todo x) x) → replies x = [] → running (mem w) x →
  visited x !! i = Some s → busy s → busy s' → place (s_bc s') = place (s_bc s) →
  slot_ok (mem w) (read_status x) i s' → rinv w.
Proof.
  intros F Ht Hrep R Hi Hb Hb' Hp Hs. set (x' := with_vec (<[i := s']> (visited x)) (todo x) x) in *.
  assert (places (bcs x') = places (bcs x)) as Hbc by (by eapply (bcs_settled _ _ _ 0 0)).
  assert (places (flying x') = places (flying x)) as Hfl by (by eapply filter_busy_same).
  assert (places (pinned x') = places (pinned x)) as Hpi.
  { unfold pinned, places in *. rewrite !fmap_app. by rewrite Hfl. }
  assert (length (flying x') = length (flying x)) as Hlen.
  { unfold places in Hfl. apply (f_equal length) in Hfl. by rewrite !length_fmap in Hfl. }
  assert (flying x ≠ []) as Hne.
  { unfold flying. intros Hnil%fmap_nil_inv. by pose proof (none_busy _ Hnil _ _ Hi). }
  eapply (unfocus _ _ _ _ t x'); [|exact Ht|..]; rewrite ?Hbc, ?Hfl, ?Hpi; try done.
  left. split; [done|]. change x' with (settled i s' (num_ongoing_backend_reads x) (read_status x) x).
  eapply running_settled; try done; [apply (ru_status _ _ _ _ R)| |left].
  - change (flying (settled i s' (num_ongoing_backend_reads x) (read_status x) x)) with (flying x'). rewrite Hlen. apply (ru_ongoing _ _ _ _ R).
  - change (flying (settled i s' (num_ongoing_backend_reads x) (read_status x) x)) with (flying x'). intros E. rewrite E in Hlen. by destruct (flying x).
Qed.

(** The READ failed. *)
Lemma fails w t O x i s status :
  foc t O (places (bcs x)) (places (pinned x)) (vids (places (pinned x))) (vids (places (flying x))) (vids (places (flying x))) w →
  tasks w !! t = Some x → replies x = [] → running (mem w) x → visited x !! i = Some s → s_prog s = InFlight → 0 < status →
  wp (child_done t i status) w (λ _ w', rinv w').
Proof.
  intros F Ht Hrep R Hi Hpr Hst. assert (busy s) as Hb by (unfold busy; by rewrite Hpr).
  pose proof (flying_done x i s (s_bc s) Hi Hb eq_refl) as Hfl. pose proof (pinned_done x i s (s_bc s) Hi Hb eq_refl) as Hpi.
  destruct (ru_slot _ _ _ _ R _ _ Hi) as [Hpv Hrd _ _].
  eapply (child_spec _ _ x i s (s_bc s) Hi Hb eq_refl _ (vids (places (flying x)))); try done.
  - eapply (foc_less _ _ _ _ _ _ (places (pinned x))); [intros; rewrite Hpi; by right|done|].
    eapply foc_perm; [..|exact F]; rewrite ?Hpi, ?Hfl; done.
  - intros j Hj. rewrite Hfl. by right.
  - rewrite Ht. f_equal. unfold reading. replace (Slot (s_bc s) InFlight) with s by (destruct s; simpl in *; congruence).
    rewrite list_insert_id by done. by destruct x.
  - right. split; [done|]. rewrite Hfl. by left.
Qed.

(** All data of the chunk is there. *)
Lemma completes w t O x i s bc eof count issued :
  foc t O (places (bcs x)) (places (pinned x)) (vids (places (pinned x))) (vids (places (flying x))) (vids (places (flying x))) w →
  tasks w !! t = Some x → replies x = [] → running (mem w) x → visited x !! i = Some s → busy s → place bc = place (s_bc s) →
  chunk_read (mem w) bc → 0 < bc_pvt bc ≤ bc_length bc → bc_pvt bc = bc_length bc ∨ file_ends (bc_offset bc + bc_pvt bc) →
  up_room (fcache w) (bc_offset bc) (bc_length bc) → (bc_pvt bc < bc_length bc → count < issued) →
  wp (do_ put_task t (reading x i bc); do_ mark_uptodate bc eof count issued; child_done t i 0) w (λ _ w', rinv w').
Proof.
  intros F Ht Hrep R Hi Hb Hp Hrd Hpv Hdone Hroom Hcnt.
  assert (s_bc s ∈ bcs x) as Hin.
  { unfold bcs. apply elem_of_app. left. apply list_elem_of_fmap_2. by eapply list_elem_of_lookup_2. }
  destruct (running_bounds _ _ _ _ _ R Hin) as (_ & _ & _ & Hrr). destruct (place_eq _ _ Hp) as (_ & Eo & El & _ & Ew & En).
  pose proof (flying_done x i s bc Hi Hb Hp) as Hfl. pose proof (pinned_done x i s bc Hi Hb Hp) as Hpi.
  wp_step. eapply wp_mono; [by apply foc_put|]. cbv beta. intros _ w1 (F1 & -> & Ht1). wp_step.
  assert (foc t O (places (bcs x)) (place bc :: places (pinned (read_done x i bc))) (bc_alloc_buffer bc :: vids (places (pinned (read_done x i bc))))
    (bc_alloc_buffer bc :: vids (places (flying (read_done x i bc)))) (bc_alloc_buffer bc :: vids (places (flying (read_done x i bc))))
    (set_tasks (<[t := reading x i bc]> (tasks w)) w)) as F2.
  { eapply foc_perm; [..|exact F1]; rewrite ?Hpi, ?Hfl; done. }
  eapply wp_mono; [eapply mark_spec; [exact F2|..]; simpl; try done|].
  - rewrite Hp. by apply list_elem_of_fmap_2.
  - pose proof (cs_nodup _ _ _ _ _ _ _ _ _ _ (fo_side _ _ _ _ _ _ _ _ _ _ _ F2)) as [Hn _]%NoDup_cons.
    intros Hk. apply Hn, elem_of_app. by left.
  - intros b Hbb. by apply list_elem_of_fmap_2.
  - unfold new_whole. rewrite Ew, En. by apply (proj1 (Forall_forall _ _) (ru_new _ _ _ _ R)).
  - by rewrite Eo, El.
  - cbv beta. intros _ w2 (F3 & T3 & M3 & _). eapply child_spec; try done.
    + by rewrite T3.
    + by rewrite M3.
    + lia.
    + by rewrite M3.
    + by left.
Qed.

(** ** The callback *)

(** What the server may answer to the READ of [bc]: bytes of its file and [eof] only at its
    end; a chunk that starts beyond the end is never asked for. *)
Definition served (bc : bytes_chunk) (res : read_res) : Prop :=
  match res with
  | ReadOk data eof _ =>
      let o := bc_offset bc + bc_pvt bc in
      Z.of_nat (length data) ≤ bc_length bc - bc_pvt bc ∧
      (∀ k b, data !! k = Some b → o + Z.of_nat k < ssize ∧ b = srv (o + Z.of_nat k)) ∧
      (eof = true → ssize ≤ o + Z.of_nat (length data)) ∧ bc_offset bc < ssize
  | ReadJukebox => True
  | ReadFailed status => 0 < status
  end.

Lemma chunk_read_more m bc p d n :
  chunk_read m (bc_set p n bc) → 0 ≤ p →
  chunk_read (mem_write (bc_alloc_buffer bc) (bc_buffer_offset bc + p) d m) (bc_set (p + Z.of_nat (length d)) n bc).
Proof.
  intros Hr Hp j Hj. simpl in *. destruct (decide (j < p)) as [Hlt|Hge]; [by apply mem_write_some, Hr; simpl; lia|].
  rewrite mem_write_in by lia. apply lookup_lt_is_Some. lia.
Qed.

(** The server's bytes are the file's where the application has written nothing. *)
Lemma served_data bc data eof inv :
  served bc (ReadOk data eof inv) → 0 ≤ bc_pvt bc → (∀ o, bc_offset bc ≤ o < bc_end bc → wr o = None) →
  file_data srv ssize wr (bc_offset bc + bc_pvt bc) data.
Proof.
  intros (Hlen & Hd & _) Hp Hw k b Hk. destruct (Hd _ _ Hk) as [Hlt ->]. pose proof (lookup_lt_Some _ _ _ Hk).
  unfold ReadCache.file_byte. rewrite Hw by (unfold bc_end; lia). by rewrite (proj2 (Z.ltb_lt _ _)) by lia.
Qed.

(** The bytes between the ends of the server's and of the client's file are zeroes. *)
Lemma zero_fill_spec t O A P h l d w bc p n :
  foc t O A P h l d w → place bc ∈ A → chunk_read (mem w) (bc_set p n bc) → 0 ≤ p < bc_length bc →
  ssize ≤ bc_offset bc + p → (∀ o, bc_offset bc ≤ o < bc_end bc → wr o = None) →
  wp (zero_fill bc p (cache_size (fcache w))) w (λ p' w', foc t O A P h l d w' ∧ tasks w' = tasks w ∧ fcache w' = fcache w ∧
    (∀ i j, is_Some (mem w i j) → is_Some (mem w' i j)) ∧ chunk_read (mem w') (bc_set p' n bc) ∧ p ≤ p' ≤ bc_length bc ∧
    (p' = bc_length bc ∨ file_ends (bc_offset bc + p'))).
Proof.
  intros F HA Hr Hp Hss Hunw. pose proof (fo_side _ _ _ _ _ _ _ _ _ _ _ F) as C. unfold zero_fill.
  destruct (Z.ltb_spec (bc_offset bc + p) (cache_size (fcache w))) as [Hlt|Hge].
  2: { wp_step. split_and!; try done; try lia. right. eapply client_size_ends; [exact C|lia]. }
  set (zb := Z.min (cache_size (fcache w)) (bc_end bc) - (bc_offset bc + p)).
  assert (0 < zb ∧ p + zb ≤ bc_length bc) as [Hz1 Hz2] by (unfold zb, bc_end; lia).
  apply wp_bind_assert; [cmp|]. wp_step.
  assert (Z.of_nat (length (repeat 0 (Z.to_nat zb))) = zb) as Hzl by (rewrite repeat_length; lia).
  eapply wp_mono; [eapply foc_write; [exact F|done|]|].
  { apply repeat_data. intros j Hj. unfold ReadCache.file_byte. rewrite Hunw by (unfold bc_end in *; lia). by rewrite (proj2 (Z.ltb_ge _ _)) by lia. }
  cbv beta. intros _ w1 (F1 & ->). wp_asserts cmp. wp_step. split; [exact F1|]. do 2 (split; [done|]). split; [|split; [|split; [lia|]]].
  - intros. by apply mem_write_some.
  - simpl. rewrite <- Hzl at 2. apply chunk_read_more; [done|lia].
  - destruct (decide (p + zb = bc_length bc)) as [?|Hne]; [by left|right]. eapply client_size_ends; [exact C|]. unfold zb, bc_end in *. lia.
Qed.

(** What is known about a chunk whose child task is under way. *)
Record child_state (w : rstate) (x : read_task) (i : nat) (bc : bytes_chunk) (mb : membuf) : Prop := {
  ch_pvt : 0 ≤ bc_pvt bc < bc_length bc;
  ch_read : chunk_read (mem w) bc;
  ch_calls : 0 < bc_num_backend_calls_issued bc ∧ (bc_pvt bc = 0 ∨ 1 < bc_num_backend_calls_issued bc);
  ch_cap : (i < FUSE_REPLY_IOV_MAX_COUNT)%nat;
  ch_in : place bc ∈ places (bcs x);
  ch_range : t_offset x ≤ bc_offset bc ∧ bc_length bc ≤ t_size x ∧ bc_end bc ≤ t_offset x + t_size x;
  ch_membuf : membufs (fcache w) !! bc_alloc_buffer bc = Some mb;
  ch_dry : mb_has Uptodate mb = false;
  ch_view : mb_offset mb ≤ bc_offset bc ∧ bc_end bc ≤ mb_offset mb + mb_length mb;
  ch_inuse : is_inuse mb = true;
  ch_locked : is_locked mb = true;
  ch_unwritten : ∀ o, bc_offset bc ≤ o < bc_end bc → wr o = None;
  ch_ongoing : 0 < num_ongoing_backend_reads x;
}.

Lemma child_facts w t O x i s :
  running (mem w) x →
  foc t O (places (bcs x)) (places (pinned x)) (vids (places (pinned x))) (vids (places (flying x))) (vids (places (flying x))) w →
  visited x !! i = Some s → busy s → ∃ mb, child_state w x i (s_bc s) mb.
Proof.
  intros R F Hi Hb. destruct (ru_slot _ _ _ _ R _ _ Hi) as [Hpv Hrd Hbs _]. destruct (Hbs Hb) as (Hlt & Hcalls & Hcalls1 & Hcap).
  assert (s_bc s ∈ flying x) as Hfly.
  { unfold flying. apply list_elem_of_fmap_2, list_elem_of_filter. split; [done|]. by eapply list_elem_of_lookup_2. }
  assert (place (s_bc s) ∈ places (pinned x)) as Hpin by (apply list_elem_of_fmap_2, elem_of_app; by left).
  assert (s_bc s ∈ bcs x) as Hbc.
  { unfold bcs. apply elem_of_app. left. apply list_elem_of_fmap_2. by eapply list_elem_of_lookup_2. }
  destruct (running_bounds _ _ _ _ _ R Hbc) as (Ho & Hlen & Hend & Hrr).
  destruct (foc_pinned _ _ _ _ _ _ _ _ _ _ _ (s_bc s) F Hpin) as (k & e & mb & _ & Hvw & Hm & [Lo Ll _] & _ & Hiu).
  assert (bc_alloc_buffer (s_bc s) ∈ vids (places (flying x))) as Hidf.
  { apply (list_elem_of_fmap_2 bc_alloc_buffer _ (place (s_bc s))). by apply list_elem_of_fmap_2. }
  pose proof (foc_locked _ _ _ _ _ _ _ _ _ _ _ _ _ F Hm Hidf) as Hlk.
  assert (mb_has Uptodate mb = false) as Hup.
  { eapply (fo_dry _ _ _ _ _ _ _ _ _ _ _ F); [apply elem_of_app; by left|exact Hm]. }
  exists mb. split; try done; try lia.
  - by apply list_elem_of_fmap_2.
  - destruct Hvw as [_ V1 V2 _ _]. unfold bc_end in *. simpl in *. lia.
  - intros o. by eapply foc_unwritten.
  - rewrite (ru_ongoing _ _ _ _ R). destruct (flying x); [by apply elem_of_nil in Hfly|simpl; destruct (looping x); simpl; lia].
Qed.

Lemma cached_size_wp t O A P h l d w (Q : Z → rstate → Prop) :
  foc t O A P h l d w → Q (cache_size (fcache w)) w → wp get_cached_filesize w Q.
Proof.
  intros F HQ. pose proof (cs_size _ _ _ _ _ _ _ _ _ _ (fo_side _ _ _ _ _ _ _ _ _ _ _ F)).
  unfold get_cached_filesize. wp_step. wp_step. wp_asserts cmp. by wp_step.
Qed.

(** The bytes of the chunk after the reply: [p'] of them are there. *)
Lemma read_more_spec t O A P h l d w bc n p eof short (count issued : Z) :
  foc t O A P h l d w → place bc ∈ A → chunk_read (mem w) (bc_set p n bc) → 0 ≤ p ≤ bc_length bc →
  (count < issued → p < bc_length bc) → (count = issued → p = bc_length bc) → (count ≤ issued) →
  short = eof && (count <? issued) → (eof = true → ssize ≤ bc_offset bc + p) →
  (∀ o, bc_offset bc ≤ o < bc_end bc → wr o = None) →
  wp (if short then zero_fill bc p (cache_size (fcache w)) else mret p) w (λ p' w', foc t O A P h l d w' ∧ tasks w' = tasks w ∧
    fcache w' = fcache w ∧ (∀ i j, is_Some (mem w i j) → is_Some (mem w' i j)) ∧ chunk_read (mem w') (bc_set p' n bc) ∧ p ≤ p' ≤ bc_length bc ∧
    (if negb eof && (count <? issued) then p' = p else p' = bc_length bc ∨ file_ends (bc_offset bc + p') ∧ count < issued)).
Proof.
  intros F HA Hr Hp Hlt Heq Hle -> Hs Hunw.
  destruct (Z.ltb_spec count issued) as [Hc|Hc]; rewrite ?andb_true_r, ?andb_false_r.
  - destruct eof; simpl; [|wp_step; split_and!; (done || lia)]. eapply wp_mono; [eapply zero_fill_spec; try done; [split; [lia|by apply Hlt]|by apply Hs]|].
    cbv beta. intros p' w' (? & ? & ? & ? & ? & ? & Hd). split_and!; try done; try lia. destruct Hd; [by left|by right].
  - wp_step. split_and!; try done; try lia.
Qed.

Lemma read_ok_spec w t O x i s data eof inv :
  foc t O (places (bcs x)) (places (pinned x)) (vids (places (pinned x))) (vids (places (flying x))) (vids (places (flying x))) w →
  tasks w !! t = Some x → replies x = [] → running (mem w) x → visited x !! i = Some s → s_prog s = InFlight →
  served (s_bc s) (ReadOk data eof inv) → up_room (fcache w) (bc_offset (s_bc s)) (bc_length (s_bc s)) →
  wp (read_ok t i x (s_bc s) data eof) w (λ _ w', rinv w').
Proof.
  intros F Ht Hrep R Hi Hpr Hsv Hroom. assert (busy s) as Hb by (unfold busy; by rewrite Hpr).
  destruct (child_facts _ _ _ _ _ _ R F Hi Hb) as (mb & [Hpv Hrd [Hcalls Hcalls1] Hcap HA (Ro & Rl & Re) Hm _ _ _ _ Hunw _]).
  destruct (ru_range _ _ _ _ R) as (? & ? & ?). set (bc := s_bc s) in *. pose proof Hsv as (Hcnt & _ & Heof & Hoff).
  unfold read_ok. set (count := Z.of_nat (length data)) in *. set (issued := bc_length bc - bc_pvt bc) in *.
  apply wp_bind_assert; [apply orb_true_iff; destruct Hcalls1; [left|right]; cmp|]. apply wp_bind_assert; [cmp|]. wp_step.
  eapply wp_mono; [eapply foc_write; [exact F|done|by eapply served_data; [|lia|]]|]. cbv beta. intros _ w1 (F1 & Hw1).
  assert (∀ a b, is_Some (mem w a b) → is_Some (mem w1 a b)) as Hmono by (subst w1; intros; by apply mem_write_some).
  assert (chunk_read (mem w1) (bc_set (bc_pvt bc + count) (bc_num_backend_calls_issued bc) bc)) as Hrd1.
  { subst w1. apply chunk_read_more; [done|lia]. }
  assert (tasks w1 = tasks w ∧ fcache w1 = fcache w) as [T1 C1] by (by subst w1). clear Hw1.
  apply wp_bind_assert; [unfold issued in *; cmp|]. wp_step. eapply cached_size_wp; [exact F1|]. wp_step.
  eapply wp_mono; [eapply (read_more_spec _ _ _ _ _ _ _ _ _ _ _ eof _ count issued); try done; unfold issued in *; try lia; intros He; specialize (Heof He); lia|].
  cbv beta. intros p w2 (F2 & T2 & C2 & Hm2 & Hrd2 & Hp2 & Hend).
  assert (running (mem w2) x) as R2 by (eapply running_mono; [|exact R]; auto).
  assert (tasks w2 !! t = Some x) as Ht2 by (by rewrite T2, T1).
  destruct (negb eof && (count <? issued)) eqn:Hpart.
  - apply andb_true_iff in Hpart as [_ Hc%Z.ltb_lt]. subst p.
    apply wp_bind_assert. { apply andb_true_iff. rewrite Z.leb_le, Z.ltb_lt. change AZNFSC_MAX_CHUNK_SIZE with 4194304. unfold bc_end in *. lia. }
    eapply wp_mono; [by apply foc_put|]. cbv beta. intros _ w3 (F3 & -> & Ht3). eapply goes_on; try done.
    split; simpl; try done; [lia|]. intros _. unfold issued in *. split_and!; try done; lia.
  - apply wp_bind_assert; [|eapply completes; try done; simpl].
    + simpl. apply orb_true_iff. destruct eof; [by right|left]. apply Z.eqb_eq. simpl in Hpart. apply Z.ltb_ge in Hpart. unfold issued in *. lia.
    + split; [|lia]. destruct eof; [specialize (Heof eq_refl); lia|]. simpl in Hpart. apply Z.ltb_ge in Hpart. unfold issued in *. lia.
    + naive_solver.
    + by rewrite C2, C1.
    + intros Hlt. destruct Hend as [?|[_ ?]]; [lia|done].
Qed.

Lemma callback_spec w t x i s res :
  rinv w → tasks w !! t = Some x → replies x = [] → running (mem w) x → visited x !! i = Some s → s_prog s = InFlight →
  served (s_bc s) res → (∀ d e v, res = ReadOk d e v → sole (fcache w) (bc_alloc_buffer (s_bc s))) →
  wp (read_callback t i res) w (λ _ w', rinv w').
Proof.
  intros I Ht Hrep R Hi Hpr Hsv Hsole. pose proof (focus _ _ _ _ _ _ I Ht) as F. set (O := others t (tasks w)) in *.
  assert (busy s) as Hb by (unfold busy; by rewrite Hpr).
  destruct (child_facts _ _ _ _ _ _ R F Hi Hb) as (mb & [Hpv Hrd [Hcalls Hcalls1] Hcap HA _ Hm Hdry Hvw Hiu Hlk _ Hon]).
  unfold read_callback. wp_step. eapply get_task_wp; [exact Ht|]. wp_step. wp_step; [exact Hi|].
  rewrite bool_decide_true by done. apply wp_bind_assert; [done|]. do 4 (apply wp_bind_assert; [cmp|]). wp_step.
  eapply wp_get_membuf; [exact Hm|]. rewrite Hiu, Hlk. wp_asserts done.
  destruct res as [data eof inv| |status].
  3: { by eapply fails. }
  2: { eapply wp_mono; [by apply foc_put|]. cbv beta. intros _ w1 (F1 & -> & Ht1). eapply goes_on; try done. split; simpl; try done; [lia|]. intros _. split_and!; (done || lia). }
  assert (wp (if inv then on_cache invalidate else mret ()) w (λ _ w1, foc t O (places (bcs x)) (places (pinned x)) (vids (places (pinned x)))
    (vids (places (flying x))) (vids (places (flying x))) w1 ∧ same_rest w w1 ∧ calm (fcache w) (fcache w1))) as Hinv.
  { destruct inv; [|wp_step; split_and!; done]. eapply wp_mono; [by apply foc_invalidate|]. cbv beta. intros _ w1 (? & ? & ? & _). done. }
  wp_step. eapply wp_mono; [exact Hinv|]. cbv beta. intros _ w1 (F1 & (T1 & M1 & R1) & Hcalm).
  assert (up_room (fcache w) (bc_offset (s_bc s)) (bc_length (s_bc s))) as Hroom.
  { pose proof (sole_room _ _ _ _ _ _ _ _ _ _ _ mb (fo_side _ _ _ _ _ _ _ _ _ _ _ F) Hm Hdry (Hsole _ _ _ eq_refl)) as Hfit.
    unfold up_room, uptodate_fits, bc_end in *. lia. }
  eapply read_ok_spec; try done; [by rewrite T1|by rewrite M1|]. unfold up_room, calm in *. lia.
Qed.

Lemma jukebox_spec w t x i s :
  rinv w → tasks w !! t = Some x → replies x = [] → running (mem w) x → visited x !! i = Some s → s_prog s = Queued →
  wp (jukebox_read t i 0) w (λ _ w', rinv w').
Proof.
  intros I Ht Hrep R Hi Hpr. pose proof (focus _ _ _ _ _ _ I Ht) as F.
  assert (busy s) as Hb by (unfold busy; by rewrite Hpr). destruct (child_facts _ _ _ _ _ _ R F Hi Hb) as (mb & [Hpv Hrd [Hcalls Hcalls1] Hcap HA (Hr1 & Hr2 & Hr3) Hm _ _ Hiu Hlk _ Hon]).
  destruct (ru_range _ _ _ _ R) as (Ro & Rs & Rf). unfold jukebox_read. wp_step. eapply get_task_wp; [exact Ht|]. wp_step. wp_step; [exact Hi|].
  rewrite bool_decide_true by done. wp_asserts ltac:(first [done|cmp]).
  eapply wp_mono; [eapply server_spec; [exact F|exact Ht|exact Hi|exact Hm|exact Hlk|..]; unfold bc_end in *; lia|].
  cbv beta. intros _ w1 (F1 & M1 & Ht1). rewrite (proj2 (Z.ltb_lt 0 _)) in Ht1 by done.
  eapply (goes_on _ _ _ x i s _ F1); [exact Ht1|done|by rewrite M1|done..|]. rewrite M1. split; simpl; try done; [lia|]. intros _. split_and!; (done || lia).
Qed.
End contents.
