(* ===== verification/ReadProps.v ===== *)
(** * Correctness of the read path

    Requests, callbacks and retries in any order, interleaved with what the rest of the
    client does to the cache: [runs ops w w'] executes the steps [ops], each of which has
    to be possible where it is taken ([enabled]). *)
From S2P Require Import Prelude CacheState Membuf MembufSpec ChunkMap FileCache CacheInv CacheFrame MembufInv CacheOps Purge ScanGet CacheGet ScanRelease CacheRelease CacheSteps Readahead ReadaheadSpec ReadPath ReadCache ReadInv ReadReply ReadSteps ReadLoop ReadCallback.

(** ** Steps *)
Inductive step_of :=
  | Start (prune_goal : Z → Z → Z) (scaled sfsize offset size : Z)
  | Visit (t : nat)
  | Lock (t : nat)
  | End_ (t : nat)
  | Callback (t i : nat) (res : read_res)
  | Retry (t i : nat)
  | Release_ (offset length : Z)
  | Clear_
  | Invalidate_.

Definition act (a : step_of) : MT () :=
  match a with
  | Start pg sc sf o n => read_start pg sc sf o n
  | Visit t => read_visit t
  | Lock t => read_lock t 0
  | End_ t => read_end t
  | Callback t i r => read_callback t i r
  | Retry t i => jukebox_read t i 0
  | Release_ o n => do_ on_cache (release o n); mret ()
  | Clear_ => on_cache (clear false)
  | Invalidate_ => on_cache invalidate
  end.

Inductive runs : list step_of → rstate → rstate → Prop :=
  | runs_nil w : runs [] w w
  | runs_snoc ops a w w' w'' : runs ops w w' → act a w' = Some ((), w'') → runs (ops ++ [a]) w w''.

(** What was asked for, in order: task [t] belongs to the [t]-th request. *)
Definition request (a : step_of) : list (Z * Z) := match a with Start _ _ _ o n => [(o, n)] | _ => [] end.
Definition requests (ops : list step_of) : list (Z * Z) := concat (request <$> ops).

(** ** Where errors come from *)
Section status.
Context (B : nat → Z → Prop) (K : list (Z * Z)).

(** The status of task [t] and the errors it was answered with are failures of its READs,
    and it serves the [t]-th request of [K]. *)
Definition tidy_task (t : nat) (x : read_task) : Prop :=
  (read_status x = 0 ∨ B t (read_status x)) ∧ (∀ e, Error e ∈ replies x → B t e) ∧ K !! t = Some (t_offset x, t_requested x).
Definition tidy (w : rstate) : Prop :=
  (∀ t x, tasks w !! t = Some x → tidy_task t x) ∧ length (tasks w) = length K.

Lemma tidy_cache {X} (f : MC X) w : tidy w → wlp (on_cache f) w (λ _ w', tidy w').
Proof. intros T a w'. unfold on_cache. destruct (f (fcache w)) as [[b c]|]; [|done]. by intros [= <- <-]. Qed.

Lemma tidy_ra {X} (f : MR X) w : tidy w → wlp (on_ra f) w (λ _ w', tidy w').
Proof. intros T a w'. unfold on_ra. destruct (f (rastate w)) as [[b c]|]; [|done]. by intros [= <- <-]. Qed.

Lemma tidy_get t w : tidy w → wlp (get_task t) w (λ x w', tidy w' ∧ tidy_task t x).
Proof. intros T. unfold get_task. repeat wlp_step. split; [done|]. by apply (proj1 T). Qed.

Lemma tidy_put t x w : tidy w → tidy_task t x → wlp (put_task t x) w (λ _ w', tidy w').
Proof.
  intros [T Hl] Hx. unfold put_task. wlp_step. split; [|simpl; by rewrite length_insert]. intros u y. simpl.
  intros [(<- & <- & _)|[_ ?]]%list_lookup_insert_Some; [done|by apply T].
Qed.

Lemma tidy_write id j l w : tidy w → wlp (write_mem id j l) w (λ _ w', tidy w').
Proof. intros T. unfold write_mem. by wlp_step. Qed.

(** Walks through a handler; what it leaves are the tasks the handler stores. *)
Ltac tidy_step :=
  lazymatch goal with
  | |- wlp (on_cache _) _ _ => eapply wlp_mono; [by apply tidy_cache|cbv beta; intros]
  | |- wlp (on_ra _) _ _ => eapply wlp_mono; [by apply tidy_ra|cbv beta; intros]
  | |- wlp (get_task _) _ _ => eapply wlp_mono; [by apply tidy_get|cbv beta; intros ? ? [? (? & ? & ?)]]
  | |- wlp (put_task _ _) _ _ => eapply wlp_mono; [apply tidy_put; [done|]|cbv beta; intros]
  | |- wlp (write_mem _ _ _) _ _ => eapply wlp_mono; [by apply tidy_write|cbv beta; intros]
  | |- tidy_task _ _ => by split_and!
  | |- tidy _ => done
  | _ => wlp_step
  end.
Ltac tidy_auto := repeat (cbv zeta; tidy_step).

Lemma tidy_reply t r w : tidy w → (∀ e, r = Error e → B t e) → wlp (reply_with t r) w (λ _ w', tidy w').
Proof.
  intros T Hr. unfold reply_with, free_rpc_task, bc_vec_clear. tidy_auto.
  - split; [done|]. split; [|done]. simpl. intros e [?|He]%elem_of_app; [by auto|]. apply list_elem_of_singleton in He. by apply Hr.
  - eapply wlp_mono; [apply (wlp_for _ _ tidy); [done|intros; tidy_auto]|]. cbv beta. intros. tidy_auto. split; [by left|by split].
Qed.

Lemma tidy_fill m v w : tidy w → wlp (fill_iov m v) w (λ _ w', tidy w').
Proof.
  revert w. induction v as [|s v IH]; intros w T; cbn [fill_iov]; tidy_auto.
  eapply wlp_mono; [by apply IH|]. cbv beta. intros. tidy_auto.
Qed.

Lemma tidy_send t w : tidy w → wlp (send_read_response t) w (λ _ w', tidy w').
Proof.
  intros T. unfold send_read_response, reply_iov. tidy_auto.
  - apply tidy_reply; [done|]. intros e [= <-]. apply negb_true_iff, Z.eqb_neq in Heqb. naive_solver.
  - eapply wlp_mono; [by apply tidy_fill|]. cbv beta. intros. tidy_auto; by apply tidy_reply.
Qed.

Lemma tidy_child t i status w : tidy w → (status = 0 ∨ B t status) → wlp (child_done t i status) w (λ _ w', tidy w').
Proof.
  intros T Hs. unfold child_done. tidy_auto; [|by apply tidy_send]. split; [simpl; by case_match|by split].
Qed.

(** The failures among the results of READs are those of [B]. *)
Definition blames (a : step_of) : Prop := ∀ t i e, a = Callback t i (ReadFailed e) → B t e.

Lemma tidy_server t i n w : tidy w → wlp (read_from_server t i n) w (λ _ w', tidy w').
Proof. intros T. unfold read_from_server. tidy_auto. Qed.

Lemma tidy_zero bc p n w : tidy w → wlp (zero_fill bc p n) w (λ _ w', tidy w').
Proof. intros T. unfold zero_fill. tidy_auto. Qed.

Lemma tidy_mark bc eof n k w : tidy w → wlp (mark_uptodate bc eof n k) w (λ _ w', tidy w').
Proof. intros T. unfold mark_uptodate, maps_full_membuf. tidy_auto. Qed.

Lemma tidy_ok t i x bc data eof w : tidy w → tidy_task t x → wlp (read_ok t i x bc data eof) w (λ _ w', tidy w').
Proof.
  intros T (? & ? & ?). unfold read_ok, get_cached_filesize. tidy_auto;
    try (eapply wlp_mono; [by apply tidy_zero|cbv beta; intros; tidy_auto]);
    (eapply wlp_mono; [by apply tidy_mark|cbv beta; intros; apply tidy_child; [done|by left]]).
Qed.

Lemma tidy_callback t i res w : tidy w → blames (Callback t i res) → wlp (read_callback t i res) w (λ _ w', tidy w').
Proof.
  intros T Hb. unfold read_callback. tidy_auto. destruct res as [data eof inv| |status].
  - wlp_step. apply (wlp_mono _ _ (λ _ w', tidy w')); [destruct inv; tidy_auto|]. cbv beta. intros _ w1 T1. by apply tidy_ok.
  - tidy_auto.
  - apply tidy_child; [done|]. right. by eapply Hb.
Qed.

Lemma tidy_act a w : tidy w → blames a → request a = [] → wlp (act a) w (λ _ w', tidy w').
Proof.
  intros T Hb Hq. destruct a; simpl; [done|..].
  - unfold read_visit, release_read. tidy_auto.
  - unfold read_lock. tidy_auto. by apply tidy_server.
  - unfold read_end, bc_vec_clear. tidy_auto.
    eapply wlp_mono; [apply (wlp_for _ _ tidy); [done|intros; tidy_auto]|]. cbv beta. intros. tidy_auto. by apply tidy_send.
  - by apply tidy_callback.
  - unfold jukebox_read. tidy_auto. by apply tidy_server.
  - tidy_auto.
  - tidy_auto.
  - tidy_auto.
Qed.
End status.

Lemma tidy_start B K pg sc sf o n w :
  tidy B K w → wlp (read_start pg sc sf o n) w (λ _ w', tidy B (K ++ [(o, n)]) w').
Proof.
  intros T. assert (∀ x w, tidy B K w → read_status x = 0 → (∀ e, Error e ∉ replies x) → t_offset x = o → t_requested x = n →
    wlp (new_task x) w (λ _ w', tidy B (K ++ [(o, n)]) w')) as Hnew.
  { intros x w' [T' Hl] Hs He Ho Hn. unfold new_task. wlp_step. split; [|simpl; rewrite !length_app; simpl; lia].
    intros t y. simpl. intros [Hy|[Hge Hy]]%lookup_app_Some.
    - destruct (T' _ _ Hy) as (? & ? & HK). split_and!; try done. by apply lookup_app_l_Some.
    - apply list_lookup_singleton_Some in Hy as [Hz <-]. split_and!; [by left|by intros e ?%He|].
      rewrite lookup_app_r by lia. rewrite <- Hl, Hz. by subst. }
  unfold read_start. wlp_step. apply (wlp_mono _ _ (λ _ w', tidy B K w')).
  { unfold get_file_sizes, get_cached_filesize. repeat wlp_step; done. }
  cbv beta. intros fs w1 T1. cbv zeta. wlp_step; [apply Hnew; simpl; try done; by intros e ?%list_elem_of_singleton|].
  wlp_step. apply (wlp_mono _ _ (λ _ w', tidy B K w')); [repeat wlp_step; done|]. cbv beta. intros n' w2 T2.
  do 3 wlp_step. eapply wlp_mono; [by apply tidy_cache|]. cbv beta. intros v w3 T3. wlp_step.
  eapply wlp_mono; [by apply tidy_ra|]. cbv beta. intros _ w4 T4. do 2 wlp_step. apply Hnew; simpl; try done. by intros e ?%elem_of_nil.
Qed.

Lemma tidy_more (B B' : nat → Z → Prop) K w : (∀ t e, B t e → B' t e) → tidy B K w → tidy B' K w.
Proof.
  intros HB [T Hl]. split; [|done]. intros t x Hx. destruct (T _ _ Hx) as (H1 & H2 & H3). split_and!; [|naive_solver|done].
  destruct H1; [by left|right; auto].
Qed.

Lemma runs_tidy ops w w' :
  runs ops w w' → tasks w = [] → tidy (λ t e, ∃ i, Callback t i (ReadFailed e) ∈ ops) (requests ops) w'.
Proof.
  intros Hr Ht. induction Hr as [w|ops a w w' w'' Hr IH Ha].
  - split; [|by rewrite Ht]. intros t x. by rewrite Ht.
  - specialize (IH Ht). eapply (tidy_more _ (λ t e, ∃ i, Callback t i (ReadFailed e) ∈ ops ++ [a])) in IH.
    2: { intros t e [i ?]. exists i. apply elem_of_app. by left. }
    assert (requests (ops ++ [a]) = requests ops ++ request a) as ->.
    { unfold requests. rewrite fmap_app, concat_app. simpl. by rewrite app_nil_r. }
    destruct (request a) as [|q l] eqn:Hq.
    + rewrite app_nil_r. eapply (tidy_act _ _ a w'); [done| |done|exact Ha]. intros t i e ->. exists i. apply elem_of_app. right. by left.
    + destruct a; try done. injection Hq as <- <-. eapply tidy_start; [done|exact Ha].
Qed.

Section contents.
Context (srv : Z → Z) (ssize : Z) (wr : Z → option Z).

Abbreviation file_byte := (file_byte srv ssize wr).
Abbreviation file_ends := (file_ends ssize wr).
Abbreviation rinv := (rinv srv ssize wr).
Abbreviation running := (running ssize wr).

(** ** When a step is possible *)
Definition enabled (w : rstate) (a : step_of) : Prop :=
  match a with
  | Start _ sc sf o n => start_ok ssize sc sf o n
  | Visit t => ∃ x, tasks w !! t = Some x ∧ looping x = true ∧ waiting x = false ∧ todo x ≠ []
  | Lock t => ∃ x bc rest, tasks w !! t = Some x ∧ looping x = true ∧ waiting x = true ∧ todo x = bc :: rest ∧ lock_ok w x bc
  | End_ t => ∃ x, tasks w !! t = Some x ∧ looping x = true ∧ waiting x = false ∧ todo x = []
  | Callback t i res => ∃ x s, tasks w !! t = Some x ∧ visited x !! i = Some s ∧ s_prog s = InFlight ∧
      served srv ssize (s_bc s) res ∧
      (∀ d e v, res = ReadOk d e v → sole (fcache w) (bc_alloc_buffer (s_bc s)))
  | Retry t i => ∃ x s, tasks w !! t = Some x ∧ visited x !! i = Some s ∧ s_prog s = Queued
  | Release_ o n => release_range o n
  | Clear_ | Invalidate_ => True
  end.

Inductive steps : list step_of → rstate → rstate → Prop :=
  | steps_nil w : steps [] w w
  | steps_snoc ops a w w' w'' : steps ops w w' → enabled w' a → act a w' = Some ((), w'') → steps (ops ++ [a]) w w''.

Lemma steps_runs ops w w' : steps ops w w' → runs ops w w'.
Proof. induction 1; [constructor|by econstructor]. Qed.

(** A task with work left is not answered. *)
Lemma unanswered w t x :
  rinv w → tasks w !! t = Some x → looping x = true ∨ visited x ≠ [] → replies x = [] ∧ running (mem w) x.
Proof.
  intros I Ht Hw. destruct (ri_tasks _ _ _ _ I _ _ Ht) as [?|[_ [Hv _] (Hl & _)]]; [done|]. destruct Hw; congruence.
Qed.

Lemma rinv_evolves w c :
  rinv w → cside srv ssize wr [] c (mem w) (gather bcs (tasks w)) (vids (gather pinned (tasks w)))
    (vids (gather flying (tasks w))) (gather pinned (tasks w)) → dry c (vids (gather flying (tasks w))) →
  rinv (set_fcache c w).
Proof. intros [C D R T] ? ?. by split. Qed.

Lemma act_keeps w a : rinv w → enabled w a → wp (act a) w (λ _ w', rinv w').
Proof.
  intros I He. destruct a as [pg sc sf o n|t|t|t|t i res|t i|o n| |]; simpl in *.
  - by eapply start_spec.
  - destruct He as (x & Ht & Hl & Hw & Hn). destruct (unanswered _ _ _ I Ht) as [? ?]; [by left|].
    destruct (todo x) as [|bc rest] eqn:Hb; [done|]. by eapply visit_spec.
  - destruct He as (x & bc & rest & Ht & Hl & Hw & Hb & Hk). destruct (unanswered _ _ _ I Ht) as [? ?]; [by left|]. by eapply lock_spec.
  - destruct He as (x & Ht & Hl & Hw & Hb). destruct (unanswered _ _ _ I Ht) as [? ?]; [by left|]. by eapply end_spec.
  - destruct He as (x & s & Ht & Hi & Hp & Hs & Hr). destruct (unanswered _ _ _ I Ht) as [? ?]; [right; by intros E; rewrite E in Hi|].
    by eapply callback_spec.
  - destruct He as (x & s & Ht & Hi & Hp). destruct (unanswered _ _ _ I Ht) as [? ?]; [right; by intros E; rewrite E in Hi|].
    by eapply jukebox_spec.
  - wp_step. apply wp_on_cache. eapply wp_mono; [by eapply cside_release; [apply I|]|]. cbv beta. intros r c (_ & C & E). wp_step.
    apply rinv_evolves; [done|done|]. eapply dry_evolves; [done|apply I].
  - apply wp_on_cache. eapply wp_mono; [eapply cside_clear; apply I|]. cbv beta. intros _ c [C E].
    apply rinv_evolves; [done|done|]. eapply dry_evolves; [done|apply I].
  - apply wp_on_cache. unfold invalidate. wp_step. apply rinv_evolves; [done|apply cside_invalidate, I|apply I].
Qed.

(** ** The cache before the first read *)

(** Nobody uses the cache, and it refers to all its buffers; what they hold is right, and
    what was written is in one of them. *)
Record at_rest (c : cache) (m : memory) : Prop := {
  ar_inv : inv c;
  ar_idle : ∀ i mb, membufs c !! i = Some mb → mb_inuse mb = 0 ∧ mb_has Locked mb = false ∧ mb_has Flushing mb = false;
  ar_refs : ∀ i mb, membufs c !! i = Some mb → i ∈ ids (chunkmap c) ∧ mb_use_count mb = 1;
  ar_true : ∀ i mb o v, membufs c !! i = Some mb → mb_offset mb ≤ o < mb_offset mb + mb_length mb →
    m i (o - mb_initial_offset mb) = Some v → v = file_byte o;
  ar_fresh : ∀ i j, (next_id c ≤ i)%nat → m i j = None;
  ar_uptodate : ∀ i mb o, membufs c !! i = Some mb → mb_has Uptodate mb = true →
    mb_offset mb ≤ o < mb_offset mb + mb_length mb → holds_byte m i mb o;
  ar_written : ∀ o, is_Some (wr o) → o < cache_size c ∧ ∃ k x mb, (k, x) ∈ chunkmap c ∧ bc_offset x ≤ o < bc_end x ∧
    membufs c !! bc_alloc_buffer x = Some mb ∧ mb_has Dirty mb = true;
  ar_size : 0 ≤ cache_size c ≤ AZNFSC_MAX_FILE_SIZE;
  ar_fit : ∀ i mb, membufs c !! i = Some mb → mb_has Uptodate mb = true → mb_offset mb + mb_length mb ≤ cache_size c;
}.

Lemma rest_ledger c m : at_rest c m → ledger [] [] c.
Proof.
  intros [I Hidle Hrefs _ _ _ _ _ _]. split; try (intros; by destruct (elem_of_nil _)).
  - by intros i ?%elem_of_nil.
  - intros i mb Hm. rewrite Z.add_0_r. destruct (Hrefs _ _ Hm) as [Hi ->].
    apply occ_pos in Hi. pose proof (occ_nodup i _ (inv_ids _ _ I)). lia.
  - intros i mb Hm. by apply Hidle in Hm as (-> & _).
  - intros i mb Hm. by apply (inv_heap _ _ I) in Hm as [_ ?].
  - intros i (k & x & Hin & <-)%elem_of_ids. destruct (inv_chunk _ _ I _ _ Hin) as (mb & Hm & _). by apply (inv_heap _ _ I) in Hm as [_ ?].
  - by intros i ?%elem_of_nil.
Qed.

Lemma rest_cside c m : at_rest c m → cside srv ssize wr [] c m [] [] [] [].
Proof.
  intros A. pose proof A as [I Hidle Hrefs Htr Hfr Hup Hwr Hsz Hft]. split; try done.
  - by apply rest_ledger with m.
  - intros i mb Hm. destruct (Hidle _ _ Hm) as (_ & -> & _). split; [done|]. by intros ?%elem_of_nil.
  - constructor.
  - by intros bc ?%elem_of_nil.
  - by intros bc ?%elem_of_nil.
  - intros i mb Hm. apply Hidle in Hm as (_ & _ & ->). done.
  - intros i mb Hm _. by apply Hrefs in Hm as [? _].
  - by intros bc j v ?%elem_of_nil.
Qed.

Lemma rest_rinv c m r : at_rest c m → wf r → rinv (RState c m r []).
Proof. intros A Hw. split; [by apply rest_cside|by intros i mb ?%elem_of_nil|done|done]. Qed.

(** Conversely, a cache nobody holds anything of is at rest. *)
Lemma cside_rest c m : cside srv ssize wr [] c m [] [] [] [] → at_rest c m.
Proof.
  intros C. pose proof (cs_inv _ _ _ _ _ _ _ _ _ _ C) as I. split; try apply C; intros i mb Hm.
  - split_and!; [apply (cs_inuse _ _ _ _ _ _ _ _ _ _ C _ _ Hm)| |apply (cs_calm _ _ _ _ _ _ _ _ _ _ _ _ C Hm), not_elem_of_nil].
    apply not_true_iff_false. intros Hk. apply (cs_lock _ _ _ _ _ _ _ _ _ _ C _ _ Hm) in Hk. by apply elem_of_nil in Hk.
  - pose proof (ld_ref _ _ _ (cs_led _ _ _ _ _ _ _ _ _ _ C) _ _ Hm) as Hr. pose proof (inv_refs _ _ I _ _ Hm).
    pose proof (occ_nodup i _ (inv_ids _ _ I)). change (occ i (vids [])) with 0 in Hr.
    split; [apply occ_pos; lia|lia].
Qed.

Lemma steps_rinv ops w w' : steps ops w w' → rinv w → rinv w'.
Proof.
  induction 1 as [w|ops a w w1 w2 _ IH He Ha]; [done|]. intros I. by apply (wp_run _ _ _ _ _ Ha (act_keeps _ _ (IH I) He)).
Qed.

(** ** Properties *)
Section properties.
Context (c : cache) (m : memory) (r : ra_state) (Hrest : at_rest c m) (Hwf : wf r).

Lemma steps_from ops w : steps ops (RState c m r []) w → rinv w.
Proof. intros Hs. eapply steps_rinv; [exact Hs|]. by apply rest_rinv. Qed.

(** A request is answered once, with what [reply_ok] says, and its errors are failures of
    its own READs. *)
Lemma reply_of_request ops w t x y :
  steps ops (RState c m r []) w → tasks w !! t = Some x → y ∈ replies x →
  replies x = [y] ∧ reply_ok srv ssize wr (t_offset x) (t_requested x) y ∧
  requests ops !! t = Some (t_offset x, t_requested x) ∧ ∀ e, y = Error e → ∃ i, Callback t i (ReadFailed e) ∈ ops.
Proof.
  intros Hs Ht Hy. pose proof (steps_from _ _ Hs) as I.
  destruct (runs_tidy _ _ _ (steps_runs _ _ _ Hs) eq_refl) as [T _]. destruct (T _ _ Ht) as (_ & He & HK).
  destruct (ri_tasks _ _ _ _ I _ _ Ht) as [[Hnil _]|[(y' & Hrep & Hok) _ _]]; [rewrite Hnil in Hy; by apply elem_of_nil in Hy|].
  rewrite Hrep in Hy. apply list_elem_of_singleton in Hy as ->. split; [done|]. split; [done|]. split; [done|].
  intros e ->. apply He. rewrite Hrep. by left.
Qed.
End properties.

(** C1: in any interleaving of requests, callbacks, retries, releases, clears and invalidations that
    meets the conditions of [enabled], a read is answered at most once, and the answer to the
    [t]-th request for [size] bytes at [off] consists of at most 1023 vectors whose bytes are a
    prefix of these bytes of the file as the application must see it: its own writes over the server's
    data, zeroes in holes.  The prefix is shorter only where the file ends, or when the reply has
    all its 1023 vectors and none is empty; an error is one the server returned to a READ of this
    request.  The conditions: the server returns bytes of its file, no READ starts beyond its end
    ([eof_read_grows_the_file] shows what happens else) and calls are queued at the first attempt
    ([requeued_read_is_never_answered]); a hole is filled through a chunk that maps its whole buffer
    ([hole_marked_uptodate_in_part]); where a buffer becomes uptodate no byte of the file is in two
    uptodate buffers ([uptodate_assertion_fails]); and at most AZNFSC_MAX_FILE_SIZE bytes are
    allocated. *)
Theorem read_replies_are_the_file c m r ops w t x y :
  at_rest c m → wf r → steps ops (RState c m r []) w → tasks w !! t = Some x → y ∈ replies x →
  replies x = [y] ∧ ∃ off size, requests ops !! t = Some (off, size) ∧
  match y with
  | Data iov => (length iov ≤ FUSE_REPLY_IOV_MAX_COUNT)%nat ∧
      ∃ n, 0 ≤ n ≤ size ∧ concat iov = (λ j, Some (file_byte (off + j))) <$> seqZ 0 n ∧
      (n < size → file_ends (off + n) ∨ length iov = FUSE_REPLY_IOV_MAX_COUNT ∧ [] ∉ iov)
  | Error e => 0 < e ∧ ∃ i, Callback t i (ReadFailed e) ∈ ops
  end.
Proof.
  intros Hrest Hwf Hs Ht Hy. destruct (reply_of_request _ _ _ Hrest Hwf _ _ _ _ _ Hs Ht Hy) as (Hrep & Hok & Hreq & He).
  split; [done|]. exists (t_offset x), (t_requested x). split; [done|]. destruct y; [done|]. split; [done|by apply He].
Qed.

(** C9: no step of the read path that meets the conditions of [enabled] fails an assertion or uses
    a dead object, in any state that such steps lead to.  The conditions are those of C1; none is
    about the counters that the assertions look at: that [set_uptodate()] finds the uptodate bytes
    within the file size follows from the absence of bytes that are uptodate in two buffers. *)
Theorem reads_never_abort c m r ops w a :
  at_rest c m → wf r → steps ops (RState c m r []) w → enabled w a → ∃ w', act a w = Some ((), w').
Proof.
  intros Hrest Hwf Hs He. pose proof (steps_from _ _ _ Hrest Hwf _ _ Hs) as I.
  destruct (act_keeps _ _ I He) as ([] & w' & Ha & _). eauto.
Qed.

(** Some READ for the buffer of [bc] is under way. *)
Definition read_under_way (w : rstate) (id : nat) : Prop :=
  ∃ t x i s, tasks w !! t = Some x ∧ visited x !! i = Some s ∧ s_prog s ≠ Finished ∧ bc_alloc_buffer (s_bc s) = id.

Lemma flying_task w id : id ∈ vids (gather flying (tasks w)) → read_under_way w id.
Proof.
  unfold gather, vids. intros (b & -> & (bc & -> & Hb)%list_elem_of_fmap)%list_elem_of_fmap. simpl.
  apply list_elem_of_In, in_concat in Hb as (v & Hv & Hb). apply list_elem_of_In, list_elem_of_fmap in Hv as (x & -> & Hx).
  apply list_elem_of_In, list_elem_of_fmap in Hb as (s & -> & [Hbs Hs]%list_elem_of_filter).
  apply list_elem_of_lookup in Hx as [t Ht]. apply list_elem_of_lookup in Hs as [i Hi]. by exists t, x, i, s.
Qed.

(** C22: under the conditions of C1, in particular when calls are queued at the first attempt, a
    request that is not answered is never stuck: its loop can go on, or one of its READs is
    under way, or it waits for the lock of a buffer that is free or that a READ under way holds.
    So there is no deadlock between requests.  (A call that has to be queued again leaves its request
    unanswered: [requeued_read_is_never_answered].) *)
Theorem read_never_stuck c m r ops w t x :
  at_rest c m → wf r → steps ops (RState c m r []) w → tasks w !! t = Some x → replies x = [] →
  enabled w (Visit t) ∨ enabled w (End_ t) ∨ (∃ i s, visited x !! i = Some s ∧ s_prog s ≠ Finished) ∨
  ∃ bc mb, looping x = true ∧ waiting x = true ∧ head (todo x) = Some bc ∧
    membufs (fcache w) !! bc_alloc_buffer bc = Some mb ∧ (is_locked mb = false ∨ read_under_way w (bc_alloc_buffer bc)).
Proof.
  intros Hrest Hwf Hs Ht Hr. pose proof (steps_from _ _ _ Hrest Hwf _ _ Hs) as I.
  destruct (ri_tasks _ _ _ _ I _ _ Ht) as [[_ R]|[(y & ? & _) _ _]]; [|congruence].
  destruct (looping x) eqn:Hl.
  2: { right. right. left. destruct (ru_loop _ _ _ _ R Hl) as (_ & _ & Hf & _). destruct (flying x) as [|b v] eqn:E; [done|].
       assert (b ∈ flying x) as Hb by (rewrite E; by left). unfold flying in Hb.
       apply list_elem_of_fmap in Hb as (s & -> & [Hbs [i Hi]%list_elem_of_lookup]%list_elem_of_filter). by exists i, s. }
  destruct (waiting x) eqn:Hw.
  - right. right. right. destruct (ru_wait _ _ _ _ R Hw) as [Hn _]. destruct (todo x) as [|bc rest] eqn:Hb; [done|].
    pose proof (loop_focus _ _ _ _ _ _ _ _ I Ht Hb) as F. destruct (foc_pinned _ _ _ _ _ _ _ _ _ _ _ bc F ltac:(by left)) as (_ & _ & mb & _ & _ & Hm & _).
    exists bc, mb. split_and!; try done. destruct (is_locked mb) eqn:Hk; [right|by left]. apply flying_task.
    by apply (cs_lock _ _ _ _ _ _ _ _ _ _ (ri_side _ _ _ _ I) _ _ Hm).
  - destruct (todo x) eqn:Hb; [right; left|left]; exists x; split_and!; (done || congruence).
Qed.

(** C20: under the conditions of C1, when all requests are answered the cache is at rest again: no
    buffer is in use or locked, uptodate buffers hold the bytes of the file, and everything the
    application has written is still there, dirty and within the cached file size.  (Without the
    condition on holes an uptodate buffer may hold bytes nobody wrote:
    [hole_marked_uptodate_in_part].) *)
Theorem reads_leave_the_cache_at_rest c m r ops w :
  at_rest c m → wf r → steps ops (RState c m r []) w → (∀ t x, tasks w !! t = Some x → replies x ≠ []) →
  at_rest (fcache w) (mem w).
Proof.
  intros Hrest Hwf Hs Hall. pose proof (steps_from _ _ _ Hrest Hwf _ _ Hs) as I.
  assert (∀ f, (∀ x, answered srv ssize wr x → f x = []) → gather f (tasks w) = []) as Hnil.
  { intros f Hf. unfold gather. assert (concat (f <$> tasks w) = []) as ->; [|done].
    apply concat_nil_Forall, Forall_fmap, Forall_forall. intros x [t Ht]%list_elem_of_lookup. apply Hf.
    destruct (ri_tasks _ _ _ _ I _ _ Ht) as [[Hr _]|?]; [by destruct (Hall _ _ Ht)|done]. }
  assert (gather pinned (tasks w) = []) as Hp.
  { apply Hnil. intros x [_ [Hv Ht] _]. unfold pinned, flying. by rewrite Hv, Ht. }
  assert (gather flying (tasks w) = []) as Hf.
  { apply Hnil. intros x [_ [Hv Ht] _]. unfold flying. by rewrite Hv. }
  assert (gather bcs (tasks w) = []) as Hb.
  { apply Hnil. intros x [_ [Hv Ht] _]. unfold bcs. by rewrite Hv, Ht. }
  pose proof (ri_side _ _ _ _ I) as C. rewrite Hb, Hp, Hf in C. by apply cside_rest.
Qed.
End contents.
