(* ===== verification/ReadExamples.v ===== *)
(** * Read path: runs

    A read of the first eight bytes of a ten-byte file, step by step, and the situations
    in which the code does not do what it should. *)
From S2P Require Import Prelude CacheState Membuf MembufSpec ChunkMap FileCache CacheInv CacheFrame MembufInv CacheOps Purge ScanGet CacheGet ScanRelease CacheRelease CacheSteps Readahead ReadaheadSpec ReadPath ReadCache ReadInv ReadReply ReadSteps ReadLoop ReadCallback ReadProps.

Definition no_pruning (a b : Z) : Z := 0.
Definition bytes (o : Z) : Z := 65 + o.
Definition unwritten (o : Z) : option Z := None.
Definition blank : memory := λ _ _, None.

Lemma empty_at_rest : at_rest bytes 10 unwritten empty_cache blank.
Proof.
  split; try (intros; done).
  - apply empty_inv.
  - by intros o [? ?].
Qed.

(** Bytes all of which are there. *)
Definition somes (l : list Z) : list (option Z) := Some <$> l.

Definition next (a : step_of) (w : rstate) : rstate := match act a w with Some (_, w') => w' | None => w end.

Definition ask : step_of := Start no_pruning 0 10 0 8.
Definition answer : step_of := Callback 0 0 (ReadOk [65; 66; 67; 68; 69; 70; 71; 72] false false).
Definition w0 : rstate := RState empty_cache blank fresh_ra [].
Definition w1 : rstate := next ask w0.
Definition w2 : rstate := next (Visit 0) w1.
Definition w3 : rstate := next (Lock 0) w2.
Definition w4 : rstate := next (End_ 0) w3.
Definition w5 : rstate := next answer w4.

Example read_answered : replies <$> tasks w5 = [[Data [somes [65; 66; 67; 68; 69; 70; 71; 72]]]].
Proof. vm_compute. reflexivity. Qed.

Lemma next_act a w : (if act a w then true else false) = true → act a w = Some ((), next a w).
Proof. unfold next. by destruct (act a w) as [[[] ?]|]. Qed.

(** The task in a state, without the state. *)
Ltac task_of w := destruct (tasks w !! 0%nat) as [x|] eqn:E; vm_compute in E; [injection E as <-|done].

Lemma steps_next srv ssize ops a w w' :
  steps srv ssize ops w w' → enabled srv ssize w' a → (if act a w' then true else false) = true →
  steps srv ssize (ops ++ [a]) w (next a w').
Proof. intros Hs He Ha. eapply steps_snoc; [done|done|by apply next_act]. Qed.

Lemma run1 : steps bytes 10 [ask] w0 w1.
Proof.
  apply (steps_next _ _ [] ask); [constructor| |vm_compute; reflexivity].
  split; try (right; reflexivity); consts; lia.
Qed.

Lemma run2 : steps bytes 10 [ask; Visit 0] w0 w2.
Proof.
  apply (steps_next _ _ [ask] (Visit 0)); [exact run1| |vm_compute; reflexivity].
  eexists. split; [vm_compute; reflexivity|]. by split_and!.
Qed.

Lemma run3 : steps bytes 10 [ask; Visit 0; Lock 0] w0 w3.
Proof.
  apply (steps_next _ _ [ask; Visit 0] (Lock 0)); [exact run2| |vm_compute; reflexivity].
  eexists _, _, _. split; [vm_compute; reflexivity|]. split_and!; try done. split.
  - assert (option_map is_locked (membufs (fcache w2) !! 0%nat) = Some false) as E by (vm_compute; reflexivity).
    intros mb Hm. cbn [bc_alloc_buffer] in Hm. rewrite Hm in E. by injection E.
  - vm_compute. discriminate.
  - cbn. lia.
Qed.

Lemma run4 : steps bytes 10 [ask; Visit 0; Lock 0; End_ 0] w0 w4.
Proof.
  apply (steps_next _ _ [ask; Visit 0; Lock 0] (End_ 0)); [exact run3| |vm_compute; reflexivity].
  eexists. split; [vm_compute; reflexivity|]. by split_and!.
Qed.

Lemma answer_enabled : enabled bytes 10 w4 answer.
Proof.
  eexists _, _. split; [vm_compute; reflexivity|]. split; [reflexivity|]. split; [reflexivity|]. split.
  - split_and!; try (cbn; lia); try done. intros k b Hk. do 8 (destruct k as [|k]; [injection Hk as <-; split; vm_compute; reflexivity|]). done.
  - intros d e v _. apply (bool_decide_eq_true_1 (sole _ _)). vm_compute. reflexivity.
Qed.

Lemma run5 : steps bytes 10 [ask; Visit 0; Lock 0; End_ 0; answer] w0 w5.
Proof.
  apply (steps_next _ _ [ask; Visit 0; Lock 0; End_ 0] answer); [exact run4|exact answer_enabled|vm_compute; reflexivity].
Qed.

Lemma read_replies_are_the_file_witness :
  ∃ x y, tasks w5 !! 0%nat = Some x ∧ replies x = [y] ∧
    ∃ off size, requests [ask; Visit 0; Lock 0; End_ 0; answer] !! 0%nat = Some (off, size) ∧ y = Data [somes [65; 66; 67; 68; 69; 70; 71; 72]].
Proof.
  eexists _, _. split; [vm_compute; reflexivity|].
  edestruct (read_replies_are_the_file bytes 10 unwritten empty_cache blank fresh_ra [ask; Visit 0; Lock 0; End_ 0; answer] w5 0)
    as (Hr & off & size & Hq & _);
    [exact empty_at_rest|exact fresh_wf|exact run5|vm_compute; reflexivity|apply list_elem_of_singleton; reflexivity|].
  split; [exact Hr|]. exists off, size. split; [exact Hq|reflexivity].
Defined.

Lemma reads_never_abort_witness : ∃ w, act answer w4 = Some ((), w).
Proof.
  apply (reads_never_abort bytes 10 unwritten empty_cache blank fresh_ra [ask; Visit 0; Lock 0; End_ 0] w4 answer);
    [exact empty_at_rest|exact fresh_wf|exact run4|exact answer_enabled].
Defined.

Lemma read_never_stuck_witness : ∃ x, tasks w4 !! 0%nat = Some x ∧
  (enabled bytes 10 w4 (Visit 0) ∨ enabled bytes 10 w4 (End_ 0) ∨ (∃ i s, visited x !! i = Some s ∧ s_prog s ≠ Finished) ∨
  ∃ bc mb, looping x = true ∧ waiting x = true ∧ head (todo x) = Some bc ∧
    membufs (fcache w4) !! bc_alloc_buffer bc = Some mb ∧ (is_locked mb = false ∨ read_under_way w4 (bc_alloc_buffer bc))).
Proof.
  eexists. split; [vm_compute; reflexivity|].
  apply (read_never_stuck bytes 10 unwritten empty_cache blank fresh_ra [ask; Visit 0; Lock 0; End_ 0] w4 0);
    [exact empty_at_rest|exact fresh_wf|exact run4|vm_compute; reflexivity|reflexivity].
Defined.

Lemma all_answered w :
  forallb (λ x, match replies x with [] => false | _ => true end) (tasks w) = true → ∀ t x, tasks w !! t = Some x → replies x ≠ [].
Proof.
  intros Hall t x Ht Hn. rewrite forallb_forall in Hall. specialize (Hall x). rewrite Hn in Hall. discriminate Hall.
  by apply list_elem_of_In, (list_elem_of_lookup_2 _ t).
Qed.

Lemma reads_leave_the_cache_at_rest_witness : at_rest bytes 10 unwritten (fcache w5) (mem w5).
Proof.
  apply (reads_leave_the_cache_at_rest bytes 10 unwritten empty_cache blank fresh_ra [ask; Visit 0; Lock 0; End_ 0; answer] w5);
    [exact empty_at_rest|exact fresh_wf|exact run5|]. apply all_answered. vm_compute. reflexivity.
Defined.

(** ** Where the code falls short *)
Definition then_ {A} (o : option (A * rstate)) (f : MT ()) : option (() * rstate) :=
  match o with Some (_, w) => f w | None => None end.
Definition after (w : rstate) (l : list (MT ())) : option (() * rstate) := fold_left then_ l (Some ((), w)).
Definition answers (o : option (() * rstate)) : option (list (list reply)) :=
  match o with Some (_, w) => Some (replies <$> tasks w) | None => None end.

(** A call that could not be queued at the first attempt is counted twice: when its READ
    has succeeded the counter is still 1, and the request is never answered. *)
Example requeued_read_is_never_answered :
  match after w0 [act ask; act (Visit 0); read_lock 0 1; act (End_ 0); act answer] with
  | Some (_, w) => (λ x, (num_ongoing_backend_reads x, length (flying x), replies x)) <$> tasks w
  | None => []
  end = [(1, 0%nat, [])].
Proof. vm_compute. reflexivity. Qed.

(** A READ of an empty file that returns no data and the end-of-file flag leaves an uptodate
    buffer of the length asked for, which makes the client believe the file has these bytes: the
    next read of the empty file returns ten zeroes. *)
Example eof_read_grows_the_file :
  answers (after w0 [act (Start no_pruning 0 (-1) 0 10); act (Visit 0); act (Lock 0); act (End_ 0);
    act (Callback 0 0 (ReadOk [] true false));
    act (Start no_pruning 0 0 0 10); act (Visit 1); act (Lock 1); act (End_ 1)])
  = Some [[Data []]; [Data [repeat (Some 0) 10]]].
Proof. vm_compute. reflexivity. Qed.

(** The cache of a file that the server does not have yet and of which the application has
    written bytes [16, 20). *)
Definition written_tail : rstate :=
  match after w0 [on_cache (do_ get no_pruning (λ _ _, false) 16 4; mret ()); on_cache (do_ set_locked 0; mret ());
    write_mem 0 0 [1; 2; 3; 4]; on_cache (set_uptodate 0); on_cache (set_dirty 0); on_cache (clear_locked 0); on_cache (clear_inuse 0)] with
  | Some (_, w) => w
  | None => w0
  end.

(** Two readers share the buffer of the hole [0, 16).  The one that asked for four bytes
    zeroes these and marks the whole buffer uptodate; the other returns sixteen bytes, twelve of
    which nobody ever wrote. *)
Example hole_marked_uptodate_in_part :
  answers (after written_tail [act (Start no_pruning 0 0 0 16); act (Start no_pruning 0 0 0 4);
    act (Visit 1); act (Lock 1); act (End_ 1); act (Visit 0); act (End_ 0)])
  = Some [[Data [repeat (Some 0) 4 ++ repeat None 12]]; [Data [repeat (Some 0) 4]]].
Proof. vm_compute. reflexivity. Qed.

(** Three overlapping requests for a file whose attributes have expired: a buffer that was
    released while the second request still refers to it counts as uptodate, and the assertion at
    the end of [set_uptodate()] compares that count with a file size that does not. *)
Definition ten_bytes : list Z := [65; 66; 67; 68; 69; 70; 71; 72; 73; 74].
Definition overlapping : option (() * rstate) :=
  after w0 [act (Start no_pruning 0 (-1) 0 10); act (Start no_pruning 0 (-1) 0 20);
    act (Visit 0); act (Lock 0); act (End_ 0); act (Visit 1); act (Callback 0 0 (ReadOk ten_bytes false false));
    act (Lock 1); act (Visit 1); act (Lock 1); act (End_ 1);
    act (Start no_pruning 0 (-1) 0 10); act (Visit 2); act (Lock 2); act (End_ 2)].

Example uptodate_assertion_fails :
  match overlapping with
  | Some (_, w) => Some (cache_size (fcache w), st (fcache w) bytes_uptodate,
                         if act (Callback 2 0 (ReadOk ten_bytes false false)) w then true else false)
  | None => None
  end = Some (10, 10, false).
Proof. vm_compute. reflexivity. Qed.
