(* ===== verification/WritePath.v ===== *)
(** * The write path

    A write request of fuse up to the point where the data is in the cache:
    [nfs_inode::copy_to_cache()] ([turbonfs/src/nfs_inode.cpp]) and
    [rpc_task::run_write()] ([turbonfs/src/rpc_task.cpp]).  What follows, [fcsm::run()], is
    in [Fcsm].

    - The state is that of [ReadPath]: the file cache and the contents of its buffers.
    - The writer sleeps without the lock of the membuf when somebody else is to read into
      it: [others] is what the other threads do meanwhile.
    - [fuel] bounds the jumps to [try_copy:] within one chunk.
    - Without [ENABLE_PARANOID], which injects errors and asserts that there is one such
      jump at most. *)
From S2P Require Import Prelude CacheState Membuf ChunkMap FileCache ReadPath.

Definition EAGAIN : Z := 11.
Definition EFBIG : Z := 27.
Definition EIO : Z := 5.

(** The size of the file is the cache's: it was updated by [set_uptodate()]. *)
Definition on_cached_write (offset length : Z) : MT () :=
  do w ← mget;
  massert (offset + length <=? cache_size (fcache w)).

(** The chunk's part of the data goes to the buffer. *)
Definition copy_data (bc : bytes_chunk) (data : list Z) : MT () :=
  do_ massert (bc_length bc <=? Z.of_nat (length data));
  do_ write_mem (bc_alloc_buffer bc) (bc_buffer_offset bc) (take (Z.to_nat (bc_length bc)) data);
  do_ on_cache (set_uptodate (bc_alloc_buffer bc));
  do_ on_cache (set_dirty (bc_alloc_buffer bc));
  on_cached_write (bc_offset bc) (bc_length bc).

(** The membuf nobody has filled is released, so that the next attempt gets a new one. *)
Definition release_membuf (id : nat) : MT () :=
  do_ on_cache (clear_inuse id);
  do mb ← on_cache (get_membuf id);
  do_ on_cache (release (mb_offset mb) (mb_length mb));
  on_cache (set_inuse id).

Section write.
Context (prune_goal : Z → Z → Z) (scaled : Z) (others : MT ()).

(** From the label [try_copy:] on, for one chunk and the data left: the error, 0 if the
    chunk's part of the data was copied. *)
Fixpoint try_copy (fuel : nat) (bc : bytes_chunk) (data : list Z) : MT Z :=
  let id := bc_alloc_buffer bc in
  do mb ← on_cache (get_membuf id);
  do full ← maps_full_membuf bc;
  do pending ← (if full || is_uptodate mb then on_cache (is_commit_pending mb) else mret false);
  if (full || is_uptodate mb) && negb pending then
    do_ copy_data bc data; mret 0
  else
    do_ on_cache (clear_locked id);
    do_ others;
    do_ on_cache (set_locked id);
    do mb' ← on_cache (get_membuf id);
    if is_uptodate mb' then
      match fuel with O => mderef None | S fuel' => try_copy fuel' bc data end
    else do_ release_membuf id; mret EAGAIN.

(** The body of the loop over the chunks. *)
Definition copy_chunk (fuel : nat) (bc : bytes_chunk) (data : list Z) (err : Z) : MT Z :=
  let id := bc_alloc_buffer bc in
  if err =? EAGAIN then
    do_ on_cache (clear_inuse id);
    do_ massert (bc_length bc <=? Z.of_nat (length data));
    mret err
  else
    do_ on_cache (set_locked id);
    do err' ← try_copy fuel bc data;
    do_ on_cache (clear_locked id);
    do_ on_cache (clear_inuse id);
    do_ massert (bc_length bc <=? Z.of_nat (length data));
    mret err'.

(** The loop; [remaining] is the length of [data]. *)
Fixpoint copy_chunks (fuel : nat) (v : list bytes_chunk) (data : list Z) (err : Z) : MT Z :=
  match v with
  | [] => do_ massert (length data =? 0)%nat; mret err
  | bc :: v' =>
      do err' ← copy_chunk fuel bc data err;
      copy_chunks fuel v' (drop (Z.to_nat (bc_length bc)) data) err'
  end.

(** The error and the extent that [getx()] found. *)
Definition copy_to_cache (fuel : nat) (data : list Z) (offset : Z) : MT (Z * Z * Z) :=
  let length := Z.of_nat (length data) in
  do_ massert (offset <? AZNFSC_MAX_FILE_SIZE);
  do_ massert (offset + length <=? AZNFSC_MAX_FILE_SIZE);
  do w ← mget;
  do r ← on_cache (getx prune_goal (ra_window scaled (rastate w)) offset length);
  let v := r.1.1 in
  do err ← copy_chunks fuel v data 0;
  do_ mfor v (λ bc, on_cache (bytes_chunk_dtor bc));
  mret (err, r.1.2, r.2).

(** What becomes of the request: an error for fuse, or [fcsm::run()] with the extent. *)
Inductive write_res := Reply_error (error_code : Z) | Run_fcsm (extent_left extent_right : Z).

(** The attempts, and the outcome of the last one. *)
Fixpoint write_attempts (fuel n : nat) (data : list Z) (offset : Z) (last : Z * Z * Z) : MT (Z * Z * Z) :=
  match n with
  | O => mret last
  | S n' =>
      do r ← copy_to_cache fuel data offset;
      if negb (r.1.1 =? EAGAIN) then mret r
      else do_ others; write_attempts fuel n' data offset r
  end.

Definition run_write (fuel : nat) (truncate_in_progress : bool) (write_error : Z) (data : list Z) (offset : Z) : MT write_res :=
  do_ massert (negb truncate_in_progress);
  let length := Z.of_nat (length data) in
  if negb (write_error =? 0) then mret (Reply_error write_error)
  else if AZNFSC_MAX_FILE_SIZE <? offset + length then mret (Reply_error EFBIG)
  else
    do r ← write_attempts fuel 100 data offset (0, 0, 0);
    let '(error_code, extent_left, extent_right) := r in
    if negb (error_code =? 0) then mret (Reply_error (if error_code =? EAGAIN then EIO else error_code))
    else
      do_ massert (extent_left + length <=? extent_right);
      mret (Run_fcsm extent_left extent_right).
End write.
