(* ===== verification/WriteCache.v ===== *)
(** * The file cache as the write path uses it

    What [ReadCache] states for reads, for the operations of a writer: [set_dirty()], and
    the step in which a chunk's bytes are copied to its buffer, which changes what the
    file's contents are ([overlay]).  Two assertions of the membuf operations hold because
    a writer leaves no membuf outside the chunkmap ([rooted]). *)
From S2P Require Import Prelude CacheState Membuf MembufSpec ChunkMap FileCache CacheInv MembufInv CacheOps Purge ScanGet CacheGet ScanRelease CacheRelease Truncate CacheSize TruncateSpec CacheTruncate DirtyLists CacheSteps CacheFrame Readahead ReadPath ReadCache ReadInv WritePath.

(** [wr] after the bytes [d] were written at [o]. *)
Definition overlay (wr : Z → option Z) (o : Z) (d : list Z) : Z → option Z :=
  λ x, if decide (o ≤ x < o + Z.of_nat (length d)) then d !! Z.to_nat (x - o) else wr x.

Lemma overlay_in wr o d x : o ≤ x < o + Z.of_nat (length d) → overlay wr o d x = d !! Z.to_nat (x - o).
Proof. intros. unfold overlay. by rewrite decide_True. Qed.

Lemma overlay_out wr o d x : ¬ (o ≤ x < o + Z.of_nat (length d)) → overlay wr o d x = wr x.
Proof. intros. unfold overlay. by rewrite decide_False. Qed.

Lemma overlay_app wr o d d' x : overlay (overlay wr o d) (o + Z.of_nat (length d)) d' x = overlay wr o (d ++ d') x.
Proof.
  unfold overlay. rewrite length_app. repeat case_decide; try lia; try done.
  - rewrite lookup_app_r by lia. f_equal. lia.
  - by rewrite lookup_app_l by lia.
Qed.

Lemma overlay_nil wr o x : overlay wr o [] x = wr x.
Proof. apply overlay_out. simpl. lia. Qed.

(** Writing the same data again, up to another point. *)
Lemma overlay_again wr o d n n' x :
  overlay (overlay wr o (take n d)) o (take n' d) x = overlay wr o (take (n `max` n') d) x.
Proof.
  unfold overlay. rewrite !length_take. repeat case_decide; try lia; try done; rewrite !lookup_take_lt by lia; done.
Qed.

(** ** Room for flags *)
Lemma hsum_le_bytes f h m :
  (∀ i mb, h !! i = Some mb → f mb ≤ mb_length mb) → (∀ k bc, (k, bc) ∈ m → ∃ mb, h !! bc_alloc_buffer bc = Some mb ∧ linked bc mb) →
  hsum f h m ≤ cm_bytes m.
Proof.
  intros Hf. induction m as [|[k bc] m IH]; intros Hl; simpl; [done|].
  destruct (Hl k bc) as (mb & Hm & Hlk); [by left|]. rewrite Hm. simpl. specialize (Hf _ _ Hm).
  rewrite (link_length _ _ Hlk). enough (hsum f h m ≤ cm_bytes m) by lia. apply IH. intros k' bc' Hin. apply (Hl k'). by right.
Qed.

Section room.
Context (c : cache) (Hinv : inv c) (Hno : no_orphans c) (id : nat) (mb : membuf) (Hid : membufs c !! id = Some mb).

(** The heap with [mb] changed. *)
Lemma changed_linked mb' : mb_offset mb' = mb_offset mb → mb_length mb' = mb_length mb → mb_initial_offset mb' = mb_initial_offset mb →
  ∀ k bc, (k, bc) ∈ chunkmap c → ∃ x, <[id := mb']> (membufs c) !! bc_alloc_buffer bc = Some x ∧ linked bc x.
Proof.
  intros Ho Hl Hi k bc Hin. destruct (inv_link _ _ Hinv _ _ Hin) as (x & Hx & [L1 L2 L3]).
  destruct (decide (bc_alloc_buffer bc = id)) as [He|Hne].
  - rewrite He, lookup_insert_eq. exists mb'. split; [done|]. rewrite He, Hid in Hx. injection Hx as <-. split; congruence.
  - rewrite lookup_insert_ne by done. exists x. by split.
Qed.

Lemma changed_sum f mb' : msum f (membufs c) - f mb + f mb' = hsum f (<[id := mb']> (membufs c)) (chunkmap c).
Proof.
  rewrite <- (msum_insert f _ _ _ mb' Hid). apply msum_hsum; [apply (inv_ids _ _ Hinv)|].
  intros i x. destruct (decide (i = id)) as [->|Hne]; [intros _; by eapply Hno|]. rewrite lookup_insert_ne by done. apply Hno.
Qed.

Lemma uptodate_room :
  (∀ i x, membufs c !! i = Some x → mb_has Uptodate x = true → mb_offset x + mb_length x ≤ cache_size c) →
  0 ≤ cache_size c → mb_has Uptodate mb = false → uptodate_fits c (mb_offset mb) (mb_length mb).
Proof.
  intros Hfit Hz Hup. set (mb' := mb_set_flag (or_flag (mb_flag mb) Uptodate) mb).
  pose proof (changed_sum (weight bytes_uptodate) mb') as Hs. simpl in Hs. rewrite Hup in Hs.
  assert (mb_has Uptodate mb' = true) as Hup' by (unfold mb_has, mb'; simpl; by rewrite has_or_flag).
  rewrite Hup' in Hs. unfold uptodate_fits. rewrite (inv_st _ _ Hinv) by done.
  pose proof (uptodate_bytes_le (<[id := mb']> (membufs c)) (chunkmap c) (inv_wf _ _ Hinv)) as Hle.
  specialize (Hle ltac:(by apply changed_linked)).
  destruct (last_uptodate _ _) as [x|] eqn:E; [|simpl in *; lia].
  apply last_uptodate_elem in E as (k & bc & _ & Hx & Hu). destruct (decide (bc_alloc_buffer bc = id)) as [He|Hne].
  - rewrite He, lookup_insert_eq in Hx. injection Hx as <-. simpl in *. lia.
  - rewrite lookup_insert_ne in Hx by done. pose proof (Hfit _ _ Hx Hu). simpl in *. lia.
Qed.

Lemma dirty_room : mb_has Dirty mb = false → st c bytes_dirty + mb_length mb ≤ AZNFSC_MAX_FILE_SIZE.
Proof.
  intros Hd. set (mb' := mb_set_flag (or_flag (mb_flag mb) Dirty) mb).
  pose proof (changed_sum (weight bytes_dirty) mb') as Hs. simpl in Hs. rewrite Hd in Hs.
  assert (mb_has Dirty mb' = true) as Hd' by (unfold mb_has, mb'; simpl; by rewrite has_or_flag).
  rewrite Hd' in Hs. rewrite (inv_st _ _ Hinv) by done.
  pose proof (hsum_le_bytes (weight bytes_dirty) (<[id := mb']> (membufs c)) (chunkmap c)) as Hle.
  pose proof (cm_bytes_le _ _ (inv_wf _ _ Hinv)). pose proof (inv_bound _ _ Hinv).
  assert (hsum (weight bytes_dirty) (<[id := mb']> (membufs c)) (chunkmap c) ≤ cm_bytes (chunkmap c)); [|simpl in *; lia].
  apply Hle; [|by apply changed_linked]. intros i x Hx.
  assert (0 < mb_length x).
  { destruct (decide (i = id)) as [->|Hne].
    - rewrite lookup_insert_eq in Hx. injection Hx as <-. apply (inv_heap _ _ Hinv) in Hid as [Hwf _]. apply (wf_length _ Hwf).
    - rewrite lookup_insert_ne in Hx by done. apply (inv_heap _ _ Hinv) in Hx as [Hwf _]. apply (wf_length _ Hwf). }
  simpl. case_match; lia.
Qed.
End room.

Section contents.
Context (srv : Z → Z) (ssize : Z) (wr : Z → option Z).

Abbreviation cside wr := (ReadCache.cside srv ssize wr []).

Lemma cside_ext wr' c m A h l P : (∀ x, wr x = wr' x) → cside wr c m A h l P → cside wr' c m A h l P.
Proof.
  intros Hw C. assert (∀ x, file_byte srv ssize wr x = file_byte srv ssize wr' x) as Hf by (intros; unfold file_byte; by rewrite Hw).
  split; try apply C.
  - intros i mb o v Hm Ho Hv. rewrite <- Hf. by eapply (cs_true _ _ _ _ _ _ _ _ _ _ C).
  - intros b j v Hb Hj Hv. rewrite <- Hf. by eapply (cs_seen _ _ _ _ _ _ _ _ _ _ C).
  - intros o. rewrite <- Hw. apply C.
Qed.

(** Every chunk that is held is in the chunkmap; then so is every live membuf. *)
Definition rooted (c : cache) (A : list bytes_chunk) : Prop := ∀ i, i ∈ vids A → i ∈ ids (chunkmap c).

Lemma rooted_no_orphans c m A h l P : cside wr c m A h l P → rooted c A → no_orphans c.
Proof.
  intros C R i mb Hi. pose proof (ld_ref _ _ _ (cs_led _ _ _ _ _ _ _ _ _ _ C) _ _ Hi) as Hr.
  pose proof (inv_refs _ _ (cs_inv _ _ _ _ _ _ _ _ _ _ C) _ _ Hi).
  destruct (decide (i ∈ vids A)) as [?|Hn]; [by apply R|]. rewrite (occ_notin _ _ Hn) in Hr. apply occ_pos. lia.
Qed.

(** With nothing locked there is room to lock any membuf. *)
Lemma unlocked_room c m A h P id mb :
  cside wr c m A h [] P → membufs c !! id = Some mb → st c bytes_locked + mb_length mb ≤ AZNFSC_MAX_FILE_SIZE.
Proof.
  intros C Hm. pose proof (cs_inv _ _ _ _ _ _ _ _ _ _ C) as I. destruct (inv_heap _ _ I _ _ Hm) as [[] _].
  enough (msum (weight bytes_locked) (membufs c) ≤ msum (λ _, 0) (membufs c)) as Hle.
  { rewrite (inv_st _ _ I) by done. enough (msum (λ _, 0) (membufs c) = 0) by lia.
    clear. induction (membufs c) as [|i x m Hi IH] using map_ind; [done|]. rewrite msum_insert_fresh by done. lia. }
  apply msum_mono. intros i x Hi. simpl. destruct (mb_has Locked x) eqn:Hk; [|done].
  apply (cs_lock _ _ _ _ _ _ _ _ _ _ C _ _ Hi) in Hk. by apply elem_of_nil in Hk.
Qed.

Lemma file_byte_overlay_in o d x v : o ≤ x < o + Z.of_nat (length d) → d !! Z.to_nat (x - o) = Some v →
  file_byte srv ssize (overlay wr o d) x = v.
Proof. intros Hx Hv. unfold file_byte. by rewrite overlay_in, Hv. Qed.

Lemma file_byte_overlay_out o d x : ¬ (o ≤ x < o + Z.of_nat (length d)) →
  file_byte srv ssize (overlay wr o d) x = file_byte srv ssize wr x.
Proof. intros Hx. unfold file_byte. by rewrite overlay_out. Qed.

(** A byte that a pinned chunk caches is cached nowhere else. *)
Lemma pinned_unique c m A h l P bc i x o :
  cside wr c m A h l P → bc ∈ P → bc_offset bc ≤ o < bc_end bc →
  no_orphans c → membufs c !! i = Some x → mb_offset x ≤ o < mb_offset x + mb_length x → i = bc_alloc_buffer bc.
Proof.
  intros C HP Ho Hno Hx Hox. pose proof (cs_inv _ _ _ _ _ _ _ _ _ _ C) as I. pose proof (inv_wf _ _ I) as Hw.
  destruct (cs_pinned _ _ _ _ _ _ _ _ _ _ C _ HP) as (k & y & _ & Hin & Hv & _).
  pose proof (Hno _ _ Hx) as (k' & y' & Hin' & <-)%elem_of_ids. destruct (inv_link _ _ I _ _ Hin') as (x' & Hx' & Hl).
  rewrite Hx in Hx'. injection Hx' as <-. pose proof (view_lo _ _ Hv). pose proof (view_hi _ _ Hv). destruct Hl as [Hl1 Hl2 _].
  assert (cm_find o (chunkmap c) = Some y) as E1 by (destruct (cm_wf_elem _ _ _ _ Hw Hin) as (-> & _); apply (cm_find_elem 0); [done|]; split; [done|lia]).
  assert (cm_find o (chunkmap c) = Some y') as E2.
  { destruct (cm_wf_elem _ _ _ _ Hw Hin') as (-> & _). apply (cm_find_elem 0); [done|]. split; [done|unfold bc_end in *; lia]. }
  rewrite E1 in E2. injection E2 as ->. by rewrite (view_alloc _ _ Hv).
Qed.

(** The bytes of a chunk are replaced in its buffer, which is dirty: from now on they are
    the file's. *)
Lemma cside_overwrite c m m' v h l P a e bc d mb :
  cside wr c m v h l P → covers v a e → bc ∈ v → bc ∈ P → rooted c v → Z.of_nat (length d) = bc_length bc →
  membufs c !! bc_alloc_buffer bc = Some mb → mb_has Dirty mb = true →
  (∀ i x, m' i x = mem_write (bc_alloc_buffer bc) (bc_buffer_offset bc) d m i x) →
  cside (overlay wr (bc_offset bc) d) c m' v h l P.
Proof.
  intros C Hcov Hv HP R Hd Hm Hdi Hm'. pose proof (rooted_no_orphans _ _ _ _ _ _ C R) as Hno. pose proof (cs_inv _ _ _ _ _ _ _ _ _ _ C) as I.
  destruct (cs_att _ _ _ _ _ _ _ _ _ _ C _ Hv) as (mb0 & Hm0 & Hbo). rewrite Hm in Hm0. injection Hm0 as <-.
  destruct (cs_pinned _ _ _ _ _ _ _ _ _ _ C _ HP) as (k & y & mb0 & Hin & Hview & Hm0 & Hl & Hwf & _). rewrite Hm in Hm0. injection Hm0 as <-.
  pose proof (view_lo _ _ Hview). pose proof (view_hi _ _ Hview). destruct Hl as [Hl1 Hl2 _].
  split; try apply C.
  - intros i x o b Hx Ho. rewrite Hm'. destruct (decide (bc_offset bc ≤ o < bc_offset bc + Z.of_nat (length d))) as [Hin'|Hout].
    + assert (i = bc_alloc_buffer bc) as -> by (eapply pinned_unique; try done; unfold bc_end; lia).
      rewrite Hm in Hx. injection Hx as <-. rewrite mem_write_in by lia. intros Hb. symmetry. apply file_byte_overlay_in; [done|].
      rewrite <- Hb. f_equal. lia.
    + rewrite file_byte_overlay_out by done. destruct (decide (i = bc_alloc_buffer bc)) as [->|Hne].
      * rewrite Hm in Hx. injection Hx as <-. rewrite mem_write_out by lia. by apply (cs_true _ _ _ _ _ _ _ _ _ _ C).
      * rewrite mem_write_other by done. by apply (cs_true _ _ _ _ _ _ _ _ _ _ C).
  - intros b j w Hb Hj. rewrite Hm'. destruct (cs_att _ _ _ _ _ _ _ _ _ _ C _ Hb) as (mb' & Hmb' & Hbo').
    destruct (decide (bc_offset bc ≤ bc_offset b + j < bc_offset bc + Z.of_nat (length d))) as [Hin'|Hout].
    + assert (b = bc) as -> by (eapply (covers_unique _ _ _ _ _ (bc_offset b + j)); [done..| |]; unfold bc_end; lia).
      rewrite mem_write_in by lia. intros Hw. symmetry. apply file_byte_overlay_in; [done|]. rewrite <- Hw. f_equal. lia.
    + rewrite file_byte_overlay_out by done. destruct (decide (bc_alloc_buffer b = bc_alloc_buffer bc)) as [He|Hne].
      * rewrite He in *. rewrite Hm in Hmb'. injection Hmb' as <-. rewrite mem_write_out by lia. rewrite <- He.
        by apply (cs_seen _ _ _ _ _ _ _ _ _ _ C).
      * rewrite mem_write_other by done. by apply (cs_seen _ _ _ _ _ _ _ _ _ _ C).
  - intros i j Hi. rewrite Hm', mem_write_other; [by apply (cs_fresh _ _ _ _ _ _ _ _ _ _ C)|]. intros ->.
    apply (inv_heap _ _ I) in Hm as [_ ?]. lia.
  - intros i x o Hx Hup Ho. unfold holds_byte. rewrite Hm'. apply mem_write_some. by apply (cs_up _ _ _ _ _ _ _ _ _ _ C).
  - intros o Ho. destruct (decide (bc_offset bc ≤ o < bc_offset bc + Z.of_nat (length d))) as [Hin'|Hout].
    + assert (mb_has Uptodate mb = true) as Hup by (by apply (wf_dirty _ Hwf) in Hdi as [? _]).
      pose proof (cs_fit _ _ _ _ _ _ _ _ _ _ C _ _ Hm Hup). unfold bc_end in *. split; [lia|].
      exists k, y, mb. rewrite <- (view_alloc _ _ Hview). split_and!; (done || lia).
    + rewrite overlay_out in Ho by done. by apply (cs_wr _ _ _ _ _ _ _ _ _ _ C).
Qed.
End contents.
