(* ===== verification/WriteStale.v ===== *)
(** * Stale chunks: why a writer stops waiting

    A copy is given up when the chunk is part of a membuf that is not uptodate.  That
    membuf sticks out of the written range at one of its ends ([stale]); giving up releases it, and
    nothing a writer does makes an end stale again ([fresher]).  So a writer whom nobody
    disturbs gives up at most twice. *)
From S2P Require Import Prelude CacheState Membuf MembufSpec ChunkMap FileCache CacheInv CacheOps Purge ScanGet CacheGet ScanRelease CacheRelease CacheFrame ReadCache.

(** A chunk that is not uptodate contains the bytes on both sides of [x]. *)
Definition stale (c : cache) (x : Z) : Prop := ∃ k y mb, (k, y) ∈ chunkmap c ∧ bc_offset y < x < bc_end y ∧
  membufs c !! bc_alloc_buffer y = Some mb ∧ mb_has Uptodate mb = false.

(** Outside of [o, e), nothing has become stale. *)
Definition fresher (o e : Z) (c c' : cache) : Prop := ∀ x, x ≤ o ∨ e ≤ x → stale c' x → stale c x.

#[export] Instance fresher_preorder o e : PreOrder (fresher o e).
Proof. split; [by intros c x _|]. intros c1 c2 c3 H1 H2 x Hx Hs. by apply H1, H2. Qed.

(** Chunks of [c'] that could be stale come from chunks of [c]. *)
Lemma fresher_evolves o e c c' :
  inv c → evolves c c' →
  (∀ k z, (k, z) ∈ chunkmap c' → (o ≤ bc_offset z ∧ bc_end z ≤ e) ∨ ∃ k0 y, (k0, y) ∈ chunkmap c ∧
    bc_alloc_buffer z = bc_alloc_buffer y ∧ bc_offset y ≤ bc_offset z ∧ bc_end z ≤ bc_end y) → fresher o e c c'.
Proof.
  intros I E Hsub x Hx (k & z & mb' & Hin & Hz & Hm & Hu). destruct (Hsub _ _ Hin) as [?|(k0 & y & Hy & Ha & ? & ?)]; [lia|].
  destruct (inv_link _ _ I _ _ Hy) as (mb & Hm0 & _). exists k0, y, mb. split; [done|]. split; [lia|]. split; [done|].
  rewrite Ha in Hm. destruct (ev_mb _ _ E _ _ Hm) as [(mb1 & Hm1 & Hl)|[Hn _]].
  - assert (mb1 = mb) as -> by congruence. unfold mb_has in *. by rewrite <- (lt_flag _ _ Hl).
  - apply (inv_heap _ _ I) in Hm0 as [_ ?]. lia.
Qed.

Lemma fresher_replaced o e c c' i mb mb' :
  membufs c !! i = Some mb → replaced i mb' c c' → (mb_has Uptodate mb = true → mb_has Uptodate mb' = true) → fresher o e c c'.
Proof.
  intros Hi [Hh Hc] Hu x _ (k & y & m & Hin & Hy & Hm & Hs). rewrite Hc in Hin. rewrite Hh in Hm.
  destruct (decide (bc_alloc_buffer y = i)) as [He|Hne].
  - rewrite He, lookup_insert_eq in Hm. injection Hm as <-. exists k, y, mb. rewrite He. split_and!; try done; try lia.
    apply not_true_iff_false. intros H. by rewrite Hu in Hs.
  - rewrite lookup_insert_ne in Hm by done. by exists k, y, m.
Qed.

Lemma fresher_looked_up c o n v c' : inv c → evolves c c' → looked_up c o n v c' → fresher o (o + n) c c'.
Proof.
  intros I E (s1 & Hp & Hg). apply fresher_evolves; [done|done|]. intros k z [Hin|(bc & Hb & _ & -> & ->)]%(got_map _ _ _ _ _ Hg).
  - right. exists k, z. split; [by apply (pu_sub _ _ Hp)|]. lia.
  - left. destruct (covers_elem _ _ _ _ (got_cov _ _ _ _ _ Hg) Hb). done.
Qed.

Lemma fresher_same o e c c' : inv c → evolves c c' → chunkmap c' = chunkmap c → fresher o e c c'.
Proof. intros I E Hc. apply fresher_evolves; [done|done|]. rewrite Hc. intros k z Hin. right. exists k, z. by split_and!. Qed.

(** A release only makes chunks smaller. *)
Lemma release_sub c off len r c' k z :
  inv c → release_range off len → release off len c = Some (r, c') → (k, z) ∈ chunkmap c' →
  ∃ k0 y, (k0, y) ∈ chunkmap c ∧ bc_alloc_buffer z = bc_alloc_buffer y ∧ bc_offset y ≤ bc_offset z ∧ bc_end z ≤ bc_end y ∧
    (off ≤ bc_offset y → bc_end y ≤ off + len → chunk_safe c y = false).
Proof.
  intros I Hr Hrun Hin. destruct (wp_run _ _ _ _ _ Hrun (release_spec c off len I Hr)) as (s1 & s2 & Hp & _ & Hrel & -> & _).
  simpl in Hin. rewrite (re_map _ _ _ _ _ Hrel) in Hin. unfold after_release in Hin.
  apply list_elem_of_fmap in Hin as ([k0 y] & Heq & [Hd Hin]%list_elem_of_filter).
  destruct (inv_chunk_bounds _ _ (pu_inv _ _ Hp) _ _ Hin) as (_ & _ & ? & _).
  destruct (trims_sub s1 off len (k0, y)) as [H1 H2]; [done|]. exists k0, y.
  assert (bc_alloc_buffer z = bc_alloc_buffer y) as Ha.
  { apply (f_equal (λ p : Z * bytes_chunk, bc_alloc_buffer p.2)) in Heq. simpl in Heq. rewrite Heq. unfold trims. by repeat case_match. }
  rewrite <- Heq in H1, H2. simpl in *. split; [by apply (pu_sub _ _ Hp)|]. split_and!; try done. intros Ho He.
  unfold drops in Hd. simpl in Hd. apply andb_false_iff in Hd as [[Hd|Hd%Z.leb_gt]%andb_false_iff|Hd%Z.leb_gt]; [|lia|lia].
  unfold chunk_safe in *. rewrite (purged_chunk _ _ k0 y Hp) in Hd; [done|by apply (pu_sub _ _ Hp)|apply (inv_ids _ _ I)|done].
Qed.

Lemma fresher_release o e c off len r c' :
  inv c → evolves c c' → release_range off len → release off len c = Some (r, c') → fresher o e c c'.
Proof.
  intros I E Hr Hrun. apply fresher_evolves; [done|done|]. intros k z Hin. right.
  destruct (release_sub _ _ _ _ _ _ _ I Hr Hrun Hin) as (k0 & y & ? & ? & ? & ? & _). by exists k0, y.
Qed.

(** A chunk nobody needs is gone when its range was released: what it contained is in no
    stale chunk any more. *)
Lemma release_stale c r c' k y mb x :
  inv c → (k, y) ∈ chunkmap c → membufs c !! bc_alloc_buffer y = Some mb → safe_mb mb = true → bc_offset y < x < bc_end y →
  release_range (mb_offset mb) (mb_length mb) → release (mb_offset mb) (mb_length mb) c = Some (r, c') → ¬ stale c' x.
Proof.
  intros I Hin Hm Hsafe Hx Hr Hrun (k' & z & mb' & Hz & Hxz & _).
  destruct (release_sub _ _ _ _ _ _ _ I Hr Hrun Hz) as (k0 & y0 & Hin0 & _ & ? & ? & Hs).
  assert ((k0, y0) = (k, y)) as [= -> ->].
  { pose proof (inv_wf _ _ I) as Hw. destruct (cm_wf_elem _ _ _ _ Hw Hin) as (-> & _). destruct (cm_wf_elem _ _ _ _ Hw Hin0) as (-> & _).
    assert (cm_find x (chunkmap c) = Some y) as E1 by (apply (cm_find_elem 0); [done|split; [done|lia]]).
    assert (cm_find x (chunkmap c) = Some y0) as E2 by (apply (cm_find_elem 0); [done|split; [done|lia]]). congruence. }
  destruct (inv_link _ _ I _ _ Hin) as (mb0 & Hm0 & [L1 L2 _]). assert (mb0 = mb) as -> by congruence.
  specialize (Hs ltac:(lia) ltac:(unfold bc_end; lia)). unfold chunk_safe in Hs. rewrite Hm in Hs. congruence.
Qed.

(** What an attempt with outcome [r] does to the ends of its range: a failure ends the
    staleness of one of them. *)
Definition progress (a e : Z) (c c' : cache) (failed : bool) : Prop :=
  fresher a e c c' ∧ (failed = true → ∃ x, (x = a ∨ x = e) ∧ stale c x ∧ ¬ stale c' x).

Lemma progress_before a e c1 c2 c3 b : a ≤ e → fresher a e c1 c2 → progress a e c2 c3 b → progress a e c1 c3 b.
Proof.
  intros Hae F [F' P]. split; [by trans c2|]. intros Hb. destruct (P Hb) as (x & Hx & Hs & Hn).
  exists x. split; [done|]. split; [|done]. apply F; [lia|done].
Qed.

Lemma progress_after a e c1 c2 c3 b : a ≤ e → progress a e c1 c2 b → fresher a e c2 c3 → progress a e c1 c3 b.
Proof.
  intros Hae [F P] F'. split; [by trans c2|]. intros Hb. destruct (P Hb) as (x & Hx & Hs & Hn).
  exists x. split; [done|]. split; [done|]. intros Hs'. apply Hn, F'; [lia|done].
Qed.

(** How many ends may be stale. *)
Definition stale_ends (n : nat) (a e : Z) (c : cache) : Prop :=
  match n with O => ¬ stale c a ∧ ¬ stale c e | 1%nat => ¬ stale c a ∨ ¬ stale c e | _ => True end.

Lemma fresher_ends n a e c c' : a ≤ e → fresher a e c c' → stale_ends n a e c → stale_ends n a e c'.
Proof.
  intros Hae F. assert (stale c' a → stale c a) by (apply F; lia). assert (stale c' e → stale c e) by (apply F; lia).
  destruct n as [|[|n]]; simpl; tauto.
Qed.

Lemma progress_ends n a e c c' : a ≤ e → progress a e c c' true → stale_ends n a e c → (n ≤ 2)%nat →
  ∃ n', n = S n' ∧ stale_ends n' a e c'.
Proof.
  intros Hae [F P] H Hn. destruct (P eq_refl) as (x & Hx & Hs & Hns).
  assert (stale c' a → stale c a) by (apply F; lia). assert (stale c' e → stale c e) by (apply F; lia).
  destruct n as [|[|[|n]]]; simpl in *; [|exists 0%nat|exists 1%nat|lia]; [exfalso|split; [done|]..]; destruct Hx as [->| ->]; simpl; tauto.
Qed.
