(* ===== verification/WriteSteps.v ===== *)
(** * The steps of a write

    [writing] is the state in the loop of [copy_to_cache()]: the chunks [d] are copied and
    dirty, those of [rest] are pinned.  A chunk whose membuf is whole or uptodate is
    copied; for the others the writer waits for a reader, which is [others]' business
    ([bystander]). *)
From S2P Require Import Prelude CacheState Membuf MembufSpec ChunkMap FileCache CacheInv MembufInv CacheOps Purge ScanGet CacheGet ScanRelease CacheRelease CacheSize CacheSteps CacheFrame Readahead ReadPath ReadCache ReadInv WritePath WriteCache WriteStale.

(** No membuf waits for a commit. *)
Definition committed (c : cache) : Prop := ∀ i mb, membufs c !! i = Some mb → mb_has CommitPending mb = false.

Definition dirty_at (c : cache) (i : nat) : Prop := ∃ mb, membufs c !! i = Some mb ∧ mb_has Dirty mb = true.

Lemma committed_evolves c c' : evolves c c' → committed c → committed c'.
Proof.
  intros E Q i mb' Hm. destruct (ev_mb _ _ E _ _ Hm) as [(mb & Hm0 & Hl)|[_ F]].
  - specialize (Q _ _ Hm0). unfold mb_has in *. by rewrite (lt_flag _ _ Hl).
  - unfold mb_has. by rewrite F, has_flag_0.
Qed.

Lemma committed_replaced c c' i mb mb' :
  membufs c !! i = Some mb → replaced i mb' c c' → mb_has CommitPending mb' = mb_has CommitPending mb → committed c → committed c'.
Proof.
  intros Hm [Hh _] Hu Q j x. rewrite Hh. destruct (decide (j = i)) as [->|Hne].
  - rewrite lookup_insert_eq. intros [= <-]. rewrite Hu. by eapply Q.
  - rewrite lookup_insert_ne by done. apply Q.
Qed.

Lemma dirty_replaced c c' i mb mb' j :
  membufs c !! i = Some mb → replaced i mb' c c' → (mb_has Dirty mb = true → mb_has Dirty mb' = true) → dirty_at c j → dirty_at c' j.
Proof.
  intros Hm [Hh _] Hu (x & Hx & Hd). unfold dirty_at. rewrite Hh. destruct (decide (j = i)) as [->|Hne].
  - rewrite lookup_insert_eq. exists mb'. split; [done|]. apply Hu. congruence.
  - rewrite lookup_insert_ne by done. eauto.
Qed.

Ltac flag_simpl := unfold mb_has; simpl; by rewrite ?has_or_flag, ?has_clear_flag.

Section write.
Context (srv : Z → Z) (ssize : Z) (prune_goal : Z → Z → Z) (scaled : Z) (others : MT ()).

Abbreviation cside wr := (ReadCache.cside srv ssize wr []).

(** What the other threads do while the writer sleeps: nothing to what the writer holds,
    to locks and to commits, and no dirty data is cleaned. *)
Definition bystander : Prop := ∀ wr v h P w,
  cside wr (fcache w) (mem w) v h [] P → committed (fcache w) →
  wp others w (λ _ w', cside wr (fcache w') (mem w') v h [] P ∧ committed (fcache w') ∧
    ∀ i, dirty_at (fcache w) i → dirty_at (fcache w') i).
Context (Hothers : bystander).

(** They may also leave no partial reads behind. *)
Definition harmless : Prop := ∀ w a w' x, others w = Some (a, w') → stale (fcache w') x → stale (fcache w) x.

Lemma others_wp wr v h P w :
  cside wr (fcache w) (mem w) v h [] P → committed (fcache w) →
  wp others w (λ _ w', cside wr (fcache w') (mem w') v h [] P ∧ committed (fcache w') ∧
    (∀ i, dirty_at (fcache w) i → dirty_at (fcache w') i) ∧ (harmless → ∀ o e, fresher o e (fcache w) (fcache w'))).
Proof.
  intros C Q. destruct (Hothers _ _ _ _ _ C Q) as (a & w' & Hrun & C' & Q' & D). exists a, w'. split_and!; try done.
  intros Hh o e x _. by eapply Hh.
Qed.

Record writing (wr : Z → option Z) (d rest : list bytes_chunk) (h l : list nat) (w : rstate) : Prop := {
  wt_side : cside wr (fcache w) (mem w) (d ++ rest) h l rest;
  wt_done : ∀ bc, bc ∈ d → dirty_at (fcache w) (bc_alloc_buffer bc);
  wt_com : committed (fcache w);
}.

Lemma writing_rooted wr d rest h l w : writing wr d rest h l w → rooted (fcache w) (d ++ rest).
Proof.
  intros [C D _] i (bc & -> & [Hb|Hb]%elem_of_app)%list_elem_of_fmap.
  - destruct (D _ Hb) as (mb & Hm & Hd). apply (cs_unsaved _ _ _ _ _ _ _ _ _ _ C _ _ Hm). unfold unsaved. by rewrite Hd.
  - destruct (cs_pinned _ _ _ _ _ _ _ _ _ _ C _ Hb) as (k & x & _ & Hin & Hv & _). rewrite (view_alloc _ _ Hv). apply elem_of_ids. eauto.
Qed.

(** Data of the length of the chunk. *)
Definition chunk_part (bc : bytes_chunk) (data : list Z) : list Z := take (Z.to_nat (bc_length bc)) data.

Lemma chunk_part_length bc data : 0 < bc_length bc ≤ Z.of_nat (length data) → Z.of_nat (length (chunk_part bc data)) = bc_length bc.
Proof. intros. unfold chunk_part. rewrite length_take. lia. Qed.

(** The buffer of a chunk that is about to be overwritten may hold anything: say, the
    bytes that the file has there now. *)
Lemma cside_scratch wr c m A h l P bc n :
  cside wr c m A h l P → bc ∈ A → 0 ≤ n →
  ∃ d, Z.of_nat (length d) = n ∧ cside wr c (mem_write (bc_alloc_buffer bc) (bc_buffer_offset bc) d m) A h l P.
Proof.
  intros C HA Hn. exists ((λ k, file_byte srv ssize wr (bc_offset bc + k)) <$> seqZ 0 n). split; [rewrite length_fmap, length_seqZ; lia|].
  rewrite <- (Z.add_0_r (bc_buffer_offset bc)). apply cside_write; [done|done|]. intros k b Hk.
  apply list_lookup_fmap_Some in Hk as (j & -> & [-> _]%lookup_seqZ). f_equal. lia.
Qed.

Lemma mem_write_again m id j d d' i x :
  length d = length d' → mem_write id j d' m i x = mem_write id j d' (mem_write id j d m) i x.
Proof. intros Hl. unfold mem_write. rewrite <- !Hl. by destruct (decide (i = id)), ((j <=? x) && (x <? j + Z.of_nat (length d)))%bool. Qed.

(** The copy itself. *)
Lemma copy_data_spec wr d bc rest h w mb a e data :
  writing wr d (bc :: rest) h [bc_alloc_buffer bc] w → covers (d ++ bc :: rest) a e →
  0 < bc_length bc ≤ Z.of_nat (length data) →
  membufs (fcache w) !! bc_alloc_buffer bc = Some mb → bc_is_whole bc || is_uptodate mb = true →
  wp (copy_data bc data) w (λ _ w',
    writing (overlay wr (bc_offset bc) (chunk_part bc data)) d (bc :: rest) h [bc_alloc_buffer bc] w' ∧
    dirty_at (fcache w') (bc_alloc_buffer bc) ∧ ∀ o e, fresher o e (fcache w) (fcache w')).
Proof.
  intros W Hcov Hlen Hm Hready. pose proof (writing_rooted _ _ _ _ _ _ W) as R. destruct W as [C D Q].
  destruct (cs_pinned _ _ _ _ _ _ _ _ _ _ C bc) as (k & x & mb0 & Hin & Hv & Hm0 & Hlk & Hwf & _); [by left|].
  rewrite Hm in Hm0. injection Hm0 as <-. set (id := bc_alloc_buffer bc) in *. pose proof (chunk_part_length _ _ Hlen) as Hpl.
  assert (id ∈ h) as Hid by (apply (cs_pin _ _ _ _ _ _ _ _ _ _ C bc); by left).
  assert (bc ∈ d ++ bc :: rest) as HA by (apply elem_of_app; right; by left).
  unfold copy_data. fold id. apply wp_bind_assert; [cmp|]. unfold write_mem. do 2 wp_step.
  destruct (cside_scratch _ _ _ _ _ _ _ bc (bc_length bc) C HA ltac:(lia)) as (d0 & Hd0 & C0). fold id in C0.
  set (m0 := mem_write id (bc_buffer_offset bc) d0 (mem w)) in *.
  wp_step. apply wp_on_cache. eapply wp_mono.
  { eapply (cside_set_uptodate _ _ _ _ _ _ _ _ _ _ id mb C0); [exact Hm|done|by left| |].
    - intros Hup. eapply uptodate_room; [apply C|by eapply rooted_no_orphans|done|apply C|apply C|done].
    - intros o Ho. apply orb_true_iff in Hready as [Hw|Hup]; [|by apply (cs_up _ _ _ _ _ _ _ _ _ _ C0)].
      apply (view_whole _ _ Hv) in Hw as [Hw1 Hw2]. destruct (cs_att _ _ _ _ _ _ _ _ _ _ C _ HA) as (mb1 & Hm1 & Hbo).
      fold id in Hm1. rewrite Hm in Hm1. injection Hm1 as <-. destruct Hlk as [L1 L2 _].
      unfold holds_byte, m0. rewrite mem_write_in by lia. apply lookup_lt_is_Some. lia. }
  cbv beta. intros _ c1 [C1 R1]. set (mb1 := mb_set_flag _ mb) in *. pose proof R1 as [Hh1 Hk1].
  assert (membufs c1 !! id = Some mb1) as Hm1 by (by rewrite Hh1, lookup_insert_eq).
  assert (rooted c1 (d ++ bc :: rest)) as Hr1 by (unfold rooted; by rewrite Hk1).
  assert (mb_has CommitPending mb1 = false) as Hcp1 by (rewrite <- (Q _ _ Hm); unfold mb1; flag_simpl).
  assert (mb_has Uptodate mb1 = true) as Hup1 by (unfold mb1; flag_simpl).
  wp_step. apply wp_on_cache. eapply wp_mono.
  { eapply (cside_set_dirty _ _ _ _ _ _ _ _ _ _ id mb1 C1); [done|done|by left|apply not_elem_of_nil| |done|done|].
    - apply elem_of_ids. rewrite Hk1. exists k, x. by rewrite <- (view_alloc _ _ Hv).
    - intros Hd. by apply dirty_room with id; [apply C1|eapply rooted_no_orphans|..]. }
  cbv beta. intros _ c2 (C2 & R2 & Hz2). set (mb2 := mb_set_flag _ mb1) in *. pose proof R2 as [Hh2 Hk2].
  assert (membufs c2 !! id = Some mb2) as Hm2 by (by rewrite Hh2, lookup_insert_eq).
  assert (mb_has Uptodate mb2 = true) as Hup2 by (rewrite <- Hup1; unfold mb2; flag_simpl).
  unfold on_cached_write. wp_step. wp_step. wp_step.
  { pose proof (cs_fit _ _ _ _ _ _ _ _ _ _ C2 _ _ Hm2 Hup2). pose proof (view_hi _ _ Hv). destruct Hlk as [L1 L2 _].
    unfold bc_end in *. cmp. }
  split; [split|].
  - simpl. eapply (cside_overwrite _ _ _ _ m0); [exact C2|exact Hcov|done|by left| |done|exact Hm2|unfold mb2; flag_simpl|].
    + unfold rooted. by rewrite Hk2.
    + intros i y. apply mem_write_again. lia.
  - intros b Hb. simpl. eapply dirty_replaced; [exact Hm1|exact R2|unfold mb2; flag_simpl|].
    eapply dirty_replaced; [exact Hm|exact R1|unfold mb1; flag_simpl|by apply D].
  - simpl. eapply committed_replaced; [exact Hm1|exact R2|unfold mb2; flag_simpl|].
    eapply committed_replaced; [exact Hm|exact R1|unfold mb1; flag_simpl|done].
  - simpl. split; [exists mb2; split; [done|unfold mb2; flag_simpl]|]. intros o e'. trans c1.
    + by eapply fresher_replaced; [exact Hm|exact R1|].
    + by eapply fresher_replaced; [exact Hm1|exact R2|].
Qed.
Lemma set_fcache_same w : set_fcache (fcache w) w = w.
Proof. by destruct w. Qed.

Lemma on_membuf_wp id mb w (Q : membuf → rstate → Prop) : membufs (fcache w) !! id = Some mb → Q mb w → wp (on_cache (get_membuf id)) w Q.
Proof. intros Hm HQ. apply wp_on_cache. eapply get_membuf_wp; [exact Hm|]. by rewrite set_fcache_same. Qed.

(** Is the membuf waiting for a commit?  It is not. *)
Lemma pending_wp (b : bool) mb w (Q : bool → rstate → Prop) :
  mb_wf mb → mb_has CommitPending mb = false → Q false w → wp (if b then on_cache (is_commit_pending mb) else mret false) w Q.
Proof.
  intros Hwf Hcp HQ. destruct b; [|by wp_step]. apply wp_on_cache, is_commit_pending_wp; [done|]. by rewrite Hcp, set_fcache_same.
Qed.

Lemma try_copy_ready wr d bc rest h w mb a e data fuel :
  writing wr d (bc :: rest) h [bc_alloc_buffer bc] w → covers (d ++ bc :: rest) a e → new_whole bc →
  0 < bc_length bc ≤ Z.of_nat (length data) →
  membufs (fcache w) !! bc_alloc_buffer bc = Some mb → bc_is_whole bc || is_uptodate mb = true →
  wp (try_copy others fuel bc data) w (λ r w', r = 0 ∧
    writing (overlay wr (bc_offset bc) (chunk_part bc data)) d (bc :: rest) h [bc_alloc_buffer bc] w' ∧
    dirty_at (fcache w') (bc_alloc_buffer bc) ∧ ∀ o e, fresher o e (fcache w) (fcache w')).
Proof.
  intros W Hcov Hnew Hlen Hm Hready. pose proof W as [C D Q].
  destruct (inv_heap _ _ (cs_inv _ _ _ _ _ _ _ _ _ _ C) _ _ Hm) as [Hwf _].
  destruct fuel; cbn [try_copy]; wp_step; (eapply on_membuf_wp; [exact Hm|]); unfold maps_full_membuf; wp_step;
    (apply wp_bind_assert; [by destruct (bc_is_new bc) eqn:E; [rewrite (Hnew E)|]|]); do 2 wp_step;
    (apply pending_wp; [done|by apply (Q _ _ Hm)|]); rewrite Hready; simpl; wp_step;
    (eapply wp_mono; [by eapply copy_data_spec|]); cbv beta; intros _ w' [? ?]; by wp_step.
Qed.

(** What is left of [writing] when the copy was given up. *)
Definition gave_up (wr : Z → option Z) (v : list bytes_chunk) (h l : list nat) (rest : list bytes_chunk) (w : rstate) : Prop :=
  cside wr (fcache w) (mem w) v h l rest ∧ committed (fcache w).

(** The chunk at which the copy is given up sticks out of the range. *)
Lemma giving_up wr c m d bc rest h l a e mb :
  cside wr c m (d ++ bc :: rest) h l (bc :: rest) → covers (d ++ bc :: rest) a e → NoDup (vids (bc :: rest)) →
  (∀ x, a ≤ x < bc_offset bc → is_Some (wr x)) → membufs c !! bc_alloc_buffer bc = Some mb →
  mb_has Uptodate mb = false → bc_is_whole bc = false →
  ∃ x k y, (x = a ∨ x = e) ∧ (k, y) ∈ chunkmap c ∧ bc_offset y < x < bc_end y ∧ bc_alloc_buffer y = bc_alloc_buffer bc.
Proof.
  intros C Hcov Hnd Hwr Hm Hup Hwhole. pose proof (cs_inv _ _ _ _ _ _ _ _ _ _ C) as I. pose proof (inv_wf _ _ I) as Hw.
  destruct (cs_pinned _ _ _ _ _ _ _ _ _ _ C bc) as (k & y & mb0 & Hin & Hv & Hm0 & _ & Hwf & _); [by left|].
  assert (mb0 = mb) as -> by congruence. pose proof (view_lo _ _ Hv). pose proof (view_hi _ _ Hv).
  assert (∀ x k' z, (k', z) ∈ chunkmap c → bc_offset z ≤ x < bc_end z → bc_offset y ≤ x < bc_end y → z = y) as Huniq.
  { intros x k' z Hz H1 H2. assert (cm_find x (chunkmap c) = Some z) as E1 by (destruct (cm_wf_elem _ _ _ _ Hw Hz) as (-> & _); by apply (cm_find_elem 0)).
    assert (cm_find x (chunkmap c) = Some y) as E2 by (destruct (cm_wf_elem _ _ _ _ Hw Hin) as (-> & _); by apply (cm_find_elem 0)). congruence. }
  apply covers_app in Hcov as (mid & Hd & Hmid & Hlen & Hrest). pose proof (covers_le _ _ _ Hd). pose proof (covers_le _ _ _ Hrest).
  unfold bc_end in *. destruct (decide (bc_offset y < bc_offset bc)) as [Hl|Hl].
  - exists a, k, y. split; [by left|]. split; [done|]. split; [|by rewrite (view_alloc _ _ Hv)]. split; [|lia].
    destruct (decide (bc_offset bc = a)) as [<-|Hne]; [done|]. exfalso.
    destruct (cs_wr _ _ _ _ _ _ _ _ _ _ C (bc_offset bc - 1)) as (_ & k' & z & mb' & Hz & Hxz & Hm' & Hdi); [apply Hwr; lia|].
    assert (z = y) as -> by (eapply Huniq; [exact Hz|exact Hxz|lia]). rewrite <- (view_alloc _ _ Hv) in Hm'.
    assert (mb' = mb) as -> by congruence. apply (wf_dirty _ Hwf) in Hdi as [? _]. congruence.
  - assert (bc_offset bc + bc_length bc < bc_offset y + bc_length y) as Hr.
    { assert (¬ (bc_offset bc = bc_offset y ∧ bc_length bc = bc_length y)) by (intros Hx; apply (view_whole _ _ Hv) in Hx; congruence). lia. }
    exists e, k, y. split; [by right|]. split; [done|]. split; [|by rewrite (view_alloc _ _ Hv)].
    destruct rest as [|b2 rest]; [simpl in Hrest; unfold bc_end in *; lia|]. exfalso. destruct Hrest as (Ho2 & Hl2 & _).
    destruct (cs_pinned _ _ _ _ _ _ _ _ _ _ C b2) as (k2 & y2 & _ & Hin2 & Hv2 & _); [right; by left|].
    pose proof (view_lo _ _ Hv2). pose proof (view_hi _ _ Hv2). unfold bc_end in *.
    assert (y2 = y) as -> by (eapply (Huniq (bc_offset b2)); [exact Hin2|lia|lia]).
    apply NoDup_cons in Hnd as [Hnd _]. apply Hnd. rewrite (view_alloc _ _ Hv), <- (view_alloc _ _ Hv2). left.
Qed.

(** The writer lets go of the membuf [id]: the chunk [y] goes, which only it used. *)
Lemma release_membuf_spec wr w d bc rest mb k y x a e :
  cside wr (fcache w) (mem w) (d ++ bc :: rest) (vids (bc :: rest)) [bc_alloc_buffer bc] (bc :: rest) → committed (fcache w) →
  NoDup (vids (bc :: rest)) → membufs (fcache w) !! bc_alloc_buffer bc = Some mb → mb_has Uptodate mb = false →
  (k, y) ∈ chunkmap (fcache w) → bc_offset y < x < bc_end y → bc_alloc_buffer y = bc_alloc_buffer bc →
  wp (release_membuf (bc_alloc_buffer bc)) w (λ _ w',
    gave_up wr (d ++ bc :: rest) (vids (bc :: rest)) [bc_alloc_buffer bc] rest w' ∧
    fresher a e (fcache w) (fcache w') ∧ ¬ stale (fcache w') x).
Proof.
  intros C Q Hnd Hm Hup Hy Hyx Hya. set (id := bc_alloc_buffer bc) in *. change (vids (bc :: rest)) with (id :: vids rest) in *.
  unfold release_membuf. wp_step. apply wp_on_cache. eapply wp_mono.
  { eapply (cside_clear_inuse _ _ _ _ _ _ _ _ _ _ rest id C); [by intros ?%elem_of_nil|]. intros b Hb. split; [by right|by apply list_elem_of_fmap_2]. }
  cbv beta. intros _ c4 (C4 & mb4 & Hm4 & R4 & _). assert (mb4 = mb) as -> by congruence. clear Hm4. set (mb4 := mb_set_inuse _ mb) in *.
  assert (membufs c4 !! id = Some mb4) as Hm4 by (destruct R4 as [Hh _]; by rewrite Hh, lookup_insert_eq).
  assert (committed c4) as Q4 by (eapply committed_replaced; [exact Hm|exact R4|done|done]).
  wp_step. eapply on_membuf_wp; [exact Hm4|]. wp_step. apply wp_on_cache.
  destruct (inv_heap _ _ (cs_inv _ _ _ _ _ _ _ _ _ _ C4) _ _ Hm4) as [Hwf4 _].
  assert (release_range (mb_offset mb4) (mb_length mb4)) as Hrr.
  { pose proof (wf_initial _ Hwf4). pose proof (wf_offset _ Hwf4). pose proof (wf_length _ Hwf4).
    pose proof (wf_fits _ Hwf4). pose proof (wf_file _ Hwf4). split; lia. }
  destruct (cside_release _ _ _ _ _ _ _ _ _ _ _ _ C4 Hrr) as (rel & c5 & Hrun & _ & C5 & E5). exists rel, c5. split; [exact Hrun|].
  assert (¬ stale c5 x) as Hns.
  { eapply (release_stale c4 rel c5 k y mb4); [apply C4|by destruct R4 as [_ ->]|by rewrite Hya| |done|done|exact Hrun].
    pose proof (cs_inuse _ _ _ _ _ _ _ _ _ _ C4 _ _ Hm4) as Hiu. apply NoDup_cons in Hnd as [Hnd _]. rewrite (occ_notin _ _ Hnd) in Hiu.
    unfold safe_mb, mb_is_inuse. rewrite Hiu. rewrite (Q4 _ _ Hm4). simpl. destruct (mb_has Dirty mb4) eqn:Hd; [|done].
    apply (wf_dirty _ Hwf4) in Hd as [Hd _]. change (mb_has Uptodate mb = true) in Hd. congruence. }
  apply wp_on_cache. eapply wp_mono.
  { eapply (cside_set_inuse _ _ _ _ _ _ _ _ _ _ rest id C5); [|done].
    rewrite vids_app, occ_app. change (vids (bc :: rest)) with (id :: vids rest). rewrite occ_cons_eq. pose proof (occ_nonneg id (vids d)). lia. }
  cbv beta. intros _ c6 (C6 & mb5 & Hm5 & R6 & _). split; [split; [exact C6|]|split].
  - simpl. eapply committed_replaced; [exact Hm5|exact R6|done|]. by eapply committed_evolves.
  - trans c4; [by eapply fresher_replaced; [exact Hm|exact R4|]|]. trans c5; [eapply fresher_release; [apply C4|done..]|].
    by eapply fresher_replaced; [exact Hm5|exact R6|].
  - intros Hs. apply Hns. eapply (fresher_replaced x x); [exact Hm5|exact R6|done|lia|exact Hs].
Qed.

Lemma try_copy_spec wr d bc rest w a e data fuel :
  writing wr d (bc :: rest) (vids (bc :: rest)) [bc_alloc_buffer bc] w → covers (d ++ bc :: rest) a e → new_whole bc →
  0 < bc_length bc ≤ Z.of_nat (length data) → (∀ x, a ≤ x < bc_offset bc → is_Some (wr x)) → NoDup (vids (bc :: rest)) →
  wp (try_copy others (S fuel) bc data) w (λ r w',
    (harmless → progress a e (fcache w) (fcache w') (r =? EAGAIN)) ∧
    ((r = 0 ∧ writing (overlay wr (bc_offset bc) (chunk_part bc data)) d (bc :: rest) (vids (bc :: rest)) [bc_alloc_buffer bc] w' ∧
      dirty_at (fcache w') (bc_alloc_buffer bc)) ∨
    (r = EAGAIN ∧ gave_up wr (d ++ bc :: rest) (vids (bc :: rest)) [bc_alloc_buffer bc] rest w'))).
Proof.
  intros W Hcov Hnew Hlen Hwr Hnd. set (id := bc_alloc_buffer bc) in *. pose proof W as [C D Q]. pose proof (covers_le _ _ _ Hcov) as Hae.
  destruct (cs_held _ _ _ _ _ _ _ _ _ _ C id) as (mb & Hm & _ & Hwf); [by left|].
  destruct (bc_is_whole bc || is_uptodate mb) eqn:Hready.
  { eapply wp_mono; [by eapply try_copy_ready|]. cbv beta. intros r w' (-> & ? & ? & F). split; [|by left]. intros _. by split. }
  cbn [try_copy]. fold id. wp_step. eapply on_membuf_wp; [exact Hm|]. unfold maps_full_membuf. wp_step.
  apply wp_bind_assert; [by destruct (bc_is_new bc) eqn:E; [rewrite (Hnew E)|]|]. do 2 wp_step.
  apply pending_wp; [done|by apply (Q _ _ Hm)|]. rewrite Hready. simpl. apply orb_false_iff in Hready as [Hwhole _].
  wp_step. apply wp_on_cache. eapply wp_mono; [eapply cside_clear_locked; [exact C|by left|apply not_elem_of_nil]|].
  cbv beta. intros _ c1 (C1 & mb0 & Hm0 & R1 & _). change (vids (bc :: rest)) with (id :: vids rest) in *.
  assert (mb0 = mb) as -> by congruence. wp_step. eapply wp_mono.
  { eapply (others_wp _ _ _ _ (set_fcache c1 w)); [exact C1|]. eapply committed_replaced; [exact Hm|exact R1|flag_simpl|done]. }
  cbv beta. intros _ w2 (C2 & Q2 & D2 & F2).
  assert (∀ b, b ∈ d → dirty_at (fcache w2) (bc_alloc_buffer b)) as D2'.
  { intros b Hb. apply D2. simpl. eapply dirty_replaced; [exact Hm|exact R1|flag_simpl|by apply D]. }
  wp_step. apply wp_on_cache. eapply wp_mono.
  { eapply (cside_set_locked _ _ _ _ _ _ _ _ _ _ id C2); [by left|by intros ?%elem_of_nil|]. intros mb2 Hm2 _. by eapply unlocked_room. }
  cbv beta. intros _ c3 (C3 & mb2 & Hm2 & R3 & _). set (mb3 := mb_set_flag _ mb2) in *.
  assert (membufs c3 !! id = Some mb3) as Hm3 by (destruct R3 as [Hh _]; by rewrite Hh, lookup_insert_eq).
  assert (committed c3) as Q3 by (eapply committed_replaced; [exact Hm2|exact R3|unfold mb3; flag_simpl|done]).
  assert (harmless → fresher a e (fcache w) c3) as F3.
  { intros Hh. trans c1; [eapply fresher_replaced; [exact Hm|exact R1|]|trans (fcache w2); [by apply F2|eapply fresher_replaced; [exact Hm2|exact R3|]]];
      unfold mb3, mb_has; simpl; by rewrite ?has_or_flag, ?has_clear_flag. }
  wp_step. eapply on_membuf_wp; [exact Hm3|]. destruct (is_uptodate mb3) eqn:Hup.
  { eapply wp_mono; [eapply (try_copy_ready wr d bc rest); [split; [exact C3| |done]|done..| |by rewrite Hup, orb_true_r]|].
    - intros b Hb. simpl. eapply dirty_replaced; [exact Hm2|exact R3|unfold mb3; flag_simpl|by apply D2'].
    - exact Hm3.
    - cbv beta. intros r w' (-> & ? & ? & F). split; [|by left]. intros Hh. split; [|done]. trans c3; [by apply F3|apply F]. }
  destruct (giving_up _ _ _ _ _ _ _ _ _ _ _ C3 Hcov Hnd Hwr Hm3 Hup Hwhole) as (x & k & y & Hx & Hy & Hyx & Hya). fold id in Hya.
  wp_step. eapply wp_mono; [by eapply (release_membuf_spec wr (set_fcache c3 w2) d bc rest mb3 k y x a e)|].
  cbv beta. intros _ w' (G & F & Hns). wp_step. split; [|by right]. intros Hh. eapply progress_before; [done|by apply F3|].
  split; [done|]. intros _. exists x. split; [done|]. split; [|done]. exists k, y, mb3. split_and!; (done || lia || by rewrite Hya).
Qed.
End write.
