(* ===== verification/WriteLoop.v ===== *)
(** * A whole write

    The loop over the chunks, [copy_to_cache()] and [run_write()].  In a cache at rest a
    write copies a prefix of the data, all of it if it succeeds, and leaves the cache at
    rest. *)
From S2P Require Import Prelude CacheState Membuf MembufSpec ChunkMap FileCache CacheInv MembufInv CacheOps Purge ScanGet CacheGet ScanRelease CacheRelease CacheSize CacheSteps CacheFrame Readahead ReadPath ReadCache ReadInv WritePath WriteCache WriteStale WriteSteps.

Section write.
Context (srv : Z → Z) (ssize : Z) (prune_goal : Z → Z → Z) (scaled : Z) (others : MT ()).
Context (Hothers : bystander srv ssize others).

Abbreviation cside wr := (ReadCache.cside srv ssize wr []).
Abbreviation writing := (writing srv ssize).
Abbreviation gave_up := (gave_up srv ssize).

Abbreviation harmless := (harmless others).

Lemma copy_chunk_spec wr d bc rest w a e data fuel :
  writing wr d (bc :: rest) (vids (bc :: rest)) [] w → covers (d ++ bc :: rest) a e → new_whole bc →
  0 < bc_length bc ≤ Z.of_nat (length data) → (∀ x, a ≤ x < bc_offset bc → is_Some (wr x)) → NoDup (vids (bc :: rest)) →
  wp (copy_chunk others (S fuel) bc data 0) w (λ r w',
    (harmless → progress a e (fcache w) (fcache w') (r =? EAGAIN)) ∧
    ((r = 0 ∧ writing (overlay wr (bc_offset bc) (chunk_part bc data)) (d ++ [bc]) rest (vids rest) [] w') ∨
    (r = EAGAIN ∧ gave_up wr (d ++ bc :: rest) (vids rest) [] rest w'))).
Proof.
  intros W Hcov Hnew Hlen Hwr Hnd. pose proof W as [C D Q]. pose proof (covers_le _ _ _ Hcov) as Hae.
  unfold copy_chunk. simpl. set (id := bc_alloc_buffer bc) in *.
  wp_step. apply wp_on_cache. eapply wp_mono.
  { eapply (cside_set_locked _ _ _ _ _ _ _ _ _ _ id C); [by left|by intros ?%elem_of_nil|]. intros mb Hm _. by eapply unlocked_room. }
  cbv beta. intros _ c1 (C1 & mb & Hm & R1 & _). wp_step. eapply wp_mono.
  { eapply (try_copy_spec _ _ _ Hothers wr d bc rest); [split; [exact C1|..]|done..].
    - intros b Hb. simpl. eapply dirty_replaced; [exact Hm|exact R1|flag_simpl|by apply D].
    - eapply committed_replaced; [exact Hm|exact R1|flag_simpl|done]. }
  cbv beta. intros r w2 [P2 Hr].
  assert (fresher a e (fcache w) c1) as F1 by (eapply fresher_replaced; [exact Hm|exact R1|flag_simpl]).
  assert (∃ wr2 Q, (∀ b, b ∈ rest → b ∈ Q) ∧ gave_up wr2 (d ++ bc :: rest) (id :: vids rest) [id] Q w2 ∧
    (r = 0 ∧ wr2 = overlay wr (bc_offset bc) (chunk_part bc data) ∧ (∀ b, b ∈ d ++ [bc] → dirty_at (fcache w2) (bc_alloc_buffer b)) ∨
     r = EAGAIN ∧ wr2 = wr)) as (wr2 & PQ & HP2 & [C2 Q2] & Hres).
  { destruct Hr as [(-> & [C2 D2 Q2] & Hd)|(-> & [C2 Q2])]; eexists _, _; (split; [|split; [by split|]]).
    - intros b Hb. by right.
    - left. split_and!; [done|done|]. intros b [?|Hb%list_elem_of_singleton]%elem_of_app; [by apply D2|by rewrite Hb].
    - done.
    - by right. }
  wp_step. apply wp_on_cache. eapply wp_mono; [eapply cside_clear_locked; [exact C2|by left|apply not_elem_of_nil]|].
  cbv beta. intros _ c3 (C3 & mb2 & Hm2 & R3 & _). wp_step. apply wp_on_cache. eapply wp_mono.
  { eapply (cside_clear_inuse _ _ _ _ _ _ _ _ _ _ rest id C3); [by intros ?%elem_of_nil|]. intros b Hb. split; [by apply HP2|by apply list_elem_of_fmap_2]. }
  cbv beta. intros _ c4 (C4 & mb3 & Hm3 & R4 & _). apply wp_bind_assert; [cmp|]. wp_step.
  assert (committed c4) as Q4 by (eapply committed_replaced; [exact Hm3|exact R4|done|]; eapply committed_replaced; [exact Hm2|exact R3|flag_simpl|done]).
  split.
  { intros Hh. eapply progress_before; [done|exact F1|]. eapply progress_after; [done|by apply P2|]. simpl. trans c3.
    - eapply fresher_replaced; [exact Hm2|exact R3|flag_simpl].
    - by eapply fresher_replaced; [exact Hm3|exact R4|]. }
  destruct Hres as [(-> & -> & Hd)|[-> ->]]; [left|right]; (split; [done|]); [|by split].
  split; [by rewrite <- app_assoc| |done]. intros b Hb. simpl.
  eapply dirty_replaced; [exact Hm3|exact R4|done|]. eapply dirty_replaced; [exact Hm2|exact R3|flag_simpl|by apply Hd].
Qed.

(** After a failure the rest of the chunks is let go. *)
Lemma drain_spec fuel rest : ∀ wr v data a o e w,
  gave_up wr v (vids rest) [] rest w → covers rest o e → Z.of_nat (length data) = e - o →
  wp (copy_chunks others fuel rest data EAGAIN) w (λ r w', r = EAGAIN ∧ gave_up wr v [] [] [] w' ∧ fresher a e (fcache w) (fcache w')).
Proof.
  induction rest as [|bc rest IH]; intros wr v data a o e w [C Q] Hcov Hlen; cbn [copy_chunks].
  - simpl in Hcov. apply wp_bind_assert; [apply Nat.eqb_eq; lia|]. by wp_step.
  - destruct Hcov as (Ho & Hl & Hcov). pose proof (covers_le _ _ _ Hcov). unfold bc_end in *. unfold copy_chunk. simpl.
    do 2 wp_step. apply wp_on_cache. eapply wp_mono.
    { eapply (cside_clear_inuse _ _ _ _ _ _ _ _ _ _ rest (bc_alloc_buffer bc) C); [by intros ?%elem_of_nil|]. intros b Hb. split; [by right|by apply list_elem_of_fmap_2]. }
    cbv beta. intros _ c1 (C1 & mb & Hm & R1 & _). apply wp_bind_assert; [cmp|]. wp_step. eapply wp_mono.
    { eapply (IH _ _ _ a); [split; [exact C1|]|exact Hcov|rewrite length_drop; lia]. by eapply committed_replaced; [exact Hm|exact R1|..]. }
    cbv beta. intros r w2 (-> & G & F). split; [done|]. split; [done|]. trans c1; [|done]. by eapply fresher_replaced; [exact Hm|exact R1|].
Qed.

Lemma copy_chunks_spec fuel rest : ∀ wr d data a o e w,
  writing wr d rest (vids rest) [] w → covers (d ++ rest) a e → covers rest o e → Forall new_whole rest →
  Z.of_nat (length data) = e - o → (∀ x, a ≤ x < o → is_Some (wr x)) → NoDup (vids rest) →
  wp (copy_chunks others (S fuel) rest data 0) w (λ r w',
    (harmless → progress a e (fcache w) (fcache w') (r =? EAGAIN)) ∧ ∃ n, (n ≤ length data)%nat ∧
    gave_up (overlay wr o (take n data)) (d ++ rest) [] [] [] w' ∧ (r = 0 ∧ n = length data ∨ r = EAGAIN)).
Proof.
  induction rest as [|bc rest IH]; intros wr d data a o e w W Hall Hcov Hnew Hlen Hwr Hnd; cbn [copy_chunks].
  - simpl in Hcov. destruct data; [|simpl in *; lia]. apply wp_bind_assert; [done|]. wp_step. split; [by intros _; split|]. exists 0%nat.
    destruct W as [C D Q]. split_and!; [done| |by left]. split; [|done]. eapply cside_ext; [|exact C]. intros x. by rewrite take_nil, overlay_nil.
  - destruct Hcov as (Ho & Hl & Hcov). pose proof (covers_le _ _ _ Hcov). apply Forall_cons in Hnew as [Hn Hnew].
    pose proof (covers_le _ _ _ Hall) as Hae.
    assert (0 < bc_length bc ≤ Z.of_nat (length data)) as Hbl by (unfold bc_end in *; lia). pose proof (chunk_part_length _ _ Hbl) as Hpl.
    wp_step. eapply wp_mono; [by eapply copy_chunk_spec; rewrite ?Ho|]. cbv beta. intros r w1 [P1 [[-> W1]|[-> G1]]].
    + eapply wp_mono.
      { eapply (IH _ (d ++ [bc]) _ a); [exact W1|by rewrite <- app_assoc|exact Hcov|done|rewrite length_drop; unfold bc_end in *; lia| |by apply NoDup_cons in Hnd as [_ ?]].
        intros x Hx. unfold overlay. case_decide as Hc; [apply lookup_lt_is_Some; lia|]. apply Hwr. unfold bc_end in *. lia. }
      cbv beta. intros r w2 (P2 & n & Hnl & G & Hr). split; [intros Hh; eapply progress_before; [done|by apply P1|by apply P2]|].
      rewrite length_drop in *. exists (Z.to_nat (bc_length bc) + n)%nat.
      split; [lia|]. split; [|destruct Hr as [[-> ->]|Hr]; [left; split; [done|lia]|rewrite Hr; by right]].
      rewrite <- app_assoc in G. destruct G as [C Q]. split; [|done]. eapply cside_ext; [|exact C].
      intros x. unfold bc_end. rewrite Ho, <- take_take_drop, <- overlay_app. unfold chunk_part in *. by rewrite Hpl.
    + eapply wp_mono; [eapply (drain_spec _ _ _ _ _ a); [exact G1|exact Hcov|rewrite length_drop; unfold bc_end in *; lia]|].
      cbv beta. intros r w2 (-> & [C Q] & F). split; [intros Hh; by eapply progress_after; [|by apply P1|]|].
      exists 0%nat. split; [lia|]. split; [|by right]. split; [|done].
      eapply cside_ext; [|exact C]. intros x. by rewrite take_0, overlay_nil.
Qed.

(** The vector of chunks is destroyed. *)
Lemma destroy_spec wr v w a e :
  gave_up wr v [] [] [] w →
  wp (mfor v (λ bc, on_cache (bytes_chunk_dtor bc))) w (λ _ w', gave_up wr [] [] [] [] w' ∧ fresher a e (fcache w) (fcache w')).
Proof.
  intros G. apply (wp_for _ _ (λ v w', gave_up wr v [] [] [] w' ∧ fresher a e (fcache w) (fcache w'))); [done| |done].
  intros bc v' w' [[C Q] F]. apply wp_on_cache. eapply wp_mono; [eapply cside_drop; [exact C|intros; apply occ_nonneg|done]|].
  cbv beta. intros _ c (C' & E & Hc). split; [split; [done|by eapply committed_evolves]|]. trans (fcache w'); [done|].
  apply fresher_same; [apply C|done..].
Qed.

(** The range of a write, as fuse sends it. *)
Record write_range (offset : Z) (data : list Z) : Prop := {
  wr_off : 0 ≤ offset;
  wr_len : 0 < Z.of_nat (length data) ≤ AZNFSC_MAX_CHUNK_SIZE;
}.

Lemma extent_covers c o n l r : inv c → extent_ok o n l r c → l ≤ o ∧ o + n ≤ r.
Proof.
  intros I (cl & cr & Hcl & Hcr & Hdl & Hdr & _).
  apply (cm_find_elem 0) in Hcl as [_ ?]; [|apply (inv_wf _ _ I)].
  apply (cm_find_elem 0) in Hcr as [_ ?]; [|apply (inv_wf _ _ I)].
  pose proof (dirty_run_le _ I _ _ Hdl). pose proof (dirty_run_le _ I _ _ Hdr). lia.
Qed.

Section request.
Context (offset : Z) (data : list Z) (Hr : write_range offset data).
Context (Hfile : offset + Z.of_nat (length data) ≤ AZNFSC_MAX_FILE_SIZE).

Abbreviation end_ := (offset + Z.of_nat (length data)).

(** What an attempt leaves behind, when [n] bytes are in the cache. *)
Definition attempted (wr : Z → option Z) (w : rstate) (n : nat) (r : Z * Z * Z) : Prop :=
  (n ≤ length data)%nat ∧ gave_up (overlay wr offset (take n data)) [] [] [] [] w ∧
  (r.1.1 = 0 ∧ n = length data ∧ r.1.2 ≤ offset ∧ end_ ≤ r.2 ∨ r.1.1 = EAGAIN).

Lemma copy_to_cache_spec fuel wr w :
  gave_up wr [] [] [] [] w →
  wp (copy_to_cache prune_goal scaled others (S fuel) data offset) w (λ r w',
    (harmless → progress offset end_ (fcache w) (fcache w') (r.1.1 =? EAGAIN)) ∧ ∃ n, attempted wr w' n r).
Proof.
  intros [C Q]. destruct Hr as [Ho Hl]. unfold copy_to_cache. wp_asserts cmp. do 3 wp_step. apply wp_on_cache.
  eapply wp_mono; [eapply (cside_getx _ _ _ _ _ _ _ _ _ _ _ _ _ _ C); by split|]. cbv beta.
  intros r c1 (C1 & E1 & Hcov & Hnd & Hnew & Hx & Hlk). rewrite !app_nil_r in C1. wp_step. eapply wp_mono.
  { eapply (copy_chunks_spec fuel _ wr [] data offset); [split; [exact C1|by intros b ?%elem_of_nil|by eapply committed_evolves]|exact Hcov|exact Hcov|done|lia|lia|done]. }
  cbv beta. intros err w2 (P2 & n & Hn & G & Herr). wp_step. eapply wp_mono; [by apply destroy_spec|]. cbv beta. intros _ w3 [G3 F3]. wp_step.
  destruct (extent_covers _ _ _ _ _ (cs_inv _ _ _ _ _ _ _ _ _ _ C1) Hx) as [Hx1 Hx2]. split.
  - intros Hh. eapply progress_before; [lia|by eapply (fresher_looked_up _ _ _ _ _ (cs_inv _ _ _ _ _ _ _ _ _ _ C))|].
    eapply progress_after; [lia|by apply P2|exact F3].
  - exists n. split; [done|]. split; [done|]. simpl. destruct Herr as [[-> ->]|Herr]; [by left|by right].
Qed.

Lemma others_rest wr w :
  gave_up wr [] [] [] [] w →
  wp others w (λ _ w', gave_up wr [] [] [] [] w' ∧ (harmless → fresher offset end_ (fcache w) (fcache w'))).
Proof.
  intros [C Q]. eapply wp_mono; [by eapply (others_wp _ _ _ Hothers)|]. cbv beta. intros _ w' (? & ? & _ & F). split; [by split|auto].
Qed.

(** A series of attempts; each failure leaves fewer stale ends behind. *)
Lemma write_attempts_spec fuel wr k : ∀ n0 w last,
  attempted wr w n0 (EAGAIN, last.1.2, last.2) → last.1.1 = EAGAIN ∨ (0 < k)%nat →
  wp (write_attempts prune_goal scaled others (S fuel) k data offset last) w (λ r w', (∃ n, attempted wr w' n r) ∧
    ∀ ends, harmless → (ends ≤ 2)%nat → stale_ends ends offset end_ (fcache w) → (ends < k)%nat → r.1.1 = 0).
Proof.
  induction k as [|k IH]; intros n0 w last (Hn0 & G & _) Hk; cbn [write_attempts].
  - wp_step. split; [|intros; lia]. exists n0. split; [done|]. split; [done|]. destruct Hk; [by right|lia].
  - wp_step. eapply wp_mono; [by eapply copy_to_cache_spec|]. cbv beta. intros r w1 (P1 & n & Hn & [C1 Q1] & Hres).
    assert (gave_up (overlay wr offset (take (n0 `max` n) data)) [] [] [] [] w1) as G1.
    { split; [|done]. eapply cside_ext; [|exact C1]. intros x. apply overlay_again. }
    destruct Hres as [(H0 & -> & ? & ?)|H11].
    + rewrite H0. simpl. wp_step. split; [|done]. exists (length data). rewrite Nat.max_r in G1 by done. split; [done|]. split; [done|]. by left.
    + rewrite H11 in *. simpl. wp_step. eapply wp_mono; [by apply others_rest|]. cbv beta. intros _ w2 [G2 F2]. eapply wp_mono.
      { apply (IH (n0 `max` n)%nat w2 r); [|by left]. split; [lia|]. split; [done|by right]. }
      cbv beta. intros r' w3 [? Hends]. split; [done|]. intros ends Hh He Hs Hlt.
      assert (offset ≤ end_) as Hoe by lia. destruct (progress_ends _ _ _ _ _ Hoe (P1 Hh) Hs He) as (n' & -> & Hs').
      apply (Hends n'); [done|lia| |lia]. eapply fresher_ends; [lia|by apply F2|done].
Qed.
End request.

(** A write from a cache at rest ends with a cache at rest. *)
Lemma run_write_spec fuel wr error offset data w :
  gave_up wr [] [] [] [] w → write_range offset data →
  wp (run_write prune_goal scaled others (S fuel) false error data offset) w (λ r w', ∃ n, (n ≤ length data)%nat ∧
    gave_up (overlay wr offset (take n data)) [] [] [] [] w' ∧
    match r with
    | Run_fcsm l r => n = length data ∧ error = 0 ∧ l ≤ offset ∧ offset + Z.of_nat (length data) ≤ r
    | Reply_error e => e ≠ 0 ∧
        (w' = w ∧ (e = error ∨ e = EFBIG ∧ AZNFSC_MAX_FILE_SIZE < offset + Z.of_nat (length data)) ∨ e = EIO ∧ ¬ harmless)
    end).
Proof.
  intros G Hr. unfold run_write. wp_asserts done. cbv zeta.
  assert (gave_up (overlay wr offset (take 0 data)) [] [] [] [] w) as G0.
  { destruct G as [C Q]. split; [|done]. eapply cside_ext; [|exact C]. intros x. by rewrite take_0, overlay_nil. }
  destruct (Z.eqb_spec error 0) as [->|He]; cbn [negb].
  2: { wp_step. exists 0%nat. split; [lia|]. split; [done|]. split; [done|]. left. auto. }
  destruct (Z.ltb_spec AZNFSC_MAX_FILE_SIZE (offset + Z.of_nat (length data))) as [Hbig|Hfit].
  { wp_step. exists 0%nat. split; [lia|]. split; [done|]. split; [done|]. left. auto. }
  set (k := 100%nat). assert (2 < k)%nat as Hk by (unfold k; lia). clearbody k. wp_step. eapply wp_mono.
  { eapply (write_attempts_spec _ _ Hr Hfit _ wr k 0 w (0, 0, 0)); [|right; lia]. split; [lia|]. split; [done|by right]. }
  cbv beta. intros [[err l] r] w1 [(n & Hn & G1 & [(Herr & -> & Hl & Hx)|Herr]) Hends]; simpl in Herr; subst err; simpl.
  - apply wp_bind_assert; [cmp|]. wp_step. exists (length data). by split_and!.
  - wp_step. exists n. split; [done|]. split; [done|]. split; [done|]. right. split; [done|].
    intros Hh. discriminate (Hends 2%nat Hh ltac:(lia) I Hk).
Qed.
End write.
