(* ===== verification/WriteProps.v ===== *)
(** * Correctness of the write path

    Writes between which the cache comes to rest: what they do to the contents of the
    file, and that reads see it. *)
From S2P Require Import Prelude CacheState Membuf MembufSpec ChunkMap FileCache CacheInv CacheOps DirtyLists CacheSteps Readahead ReadaheadSpec CacheRelease CacheFrame ReadPath ReadCache ReadInv ReadReply ReadSteps ReadLoop ReadCallback ReadProps WritePath WriteCache WriteStale WriteSteps WriteLoop.

(** ** What other threads may do meanwhile *)
Section bystanders.
Context (srv : Z → Z) (ssize : Z).

(** Nothing. *)
Lemma idle_bystander : bystander srv ssize (mret ()).
Proof. intros wr v h P w C Q. by wp_step. Qed.

Lemma idle_harmless : harmless (mret ()).
Proof. by intros w [] w' x [= <-]. Qed.

(** Release a range of the cache, as a reader or the pruning does. *)
Definition releasing (o n : Z) : MT () := do_ on_cache (release o n); mret ().

Lemma releasing_bystander o n : release_range o n → bystander srv ssize (releasing o n).
Proof.
  intros Hr wr v h P w C Q. unfold releasing. wp_step. apply wp_on_cache.
  destruct (cside_release _ _ _ _ _ _ _ _ _ _ _ _ C Hr) as (r & c & Hrun & _ & C' & E). exists r, c. split; [done|]. wp_step.
  split; [done|]. split; [by eapply committed_evolves|]. intros i (mb & Hm & Hd).
  assert (unsaved mb = true) as Hu by (unfold unsaved; by rewrite Hd).
  pose proof (cs_unsaved _ _ _ _ _ _ _ _ _ _ C _ _ Hm Hu) as (k & x & Hin & <-)%elem_of_ids.
  assert (keeps_unsaved (fcache w) c) as K.
  { eapply (keeps_unsaved_step (Release o n)); [apply C| |done|by eapply ignore_run]. destruct Hr. simpl. rewrite !andb_true_iff, !Z.leb_le, Z.ltb_lt. lia. }
  destruct (K _ _ _ Hin Hm Hu) as (_ & mb' & Hm' & _). exists mb'. split; [done|].
  destruct (ev_mb _ _ E _ _ Hm') as [(mb0 & Hm0 & Hl)|[Hn _]].
  - assert (mb0 = mb) as -> by congruence. unfold mb_has in *. by rewrite (lt_flag _ _ Hl).
  - apply (inv_heap _ _ (cs_inv _ _ _ _ _ _ _ _ _ _ C)) in Hm as [_ ?]. lia.
Qed.
End bystanders.

Section write.
Context (srv : Z → Z) (ssize : Z) (wr : Z → option Z) (prune_goal : Z → Z → Z) (scaled : Z) (others : MT ()).

(** C6: a write to a cache at rest with no buffer that waits for a commit never fails an
    assertion and ends: with the data in the cache, dirty, and an extent for the flush
    that contains it; or with an error, when an earlier write had failed, the file would become too
    large or others kept a buffer from being filled, and then with a prefix of the data in the
    cache.  The cache is at rest again, and nothing else of the file has changed.  What other threads do
    each time the write sleeps is arbitrary as far as [bystander] goes: reads in full, releases,
    pruning, clears, invalidations; they do not write, flush, commit or clean dirty data, and hold no
    lock or use count when the writer goes on.  (A second writer of the same bytes, and a buffer that
    waits for a commit, are not covered; the latter fails an assertion, nfs_inode.cpp:1046.) *)
Theorem write_is_buffered fuel error c m r ts offset data :
  at_rest srv ssize wr c m → committed c → bystander srv ssize others → write_range offset data →
  ∃ res w' n, run_write prune_goal scaled others (S fuel) false error data offset (RState c m r ts) = Some (res, w') ∧
    (n ≤ length data)%nat ∧ at_rest srv ssize (overlay wr offset (take n data)) (fcache w') (mem w') ∧ committed (fcache w') ∧
    match res with
    | Run_fcsm l r => n = length data ∧ error = 0 ∧ l ≤ offset ∧ offset + Z.of_nat (length data) ≤ r
    | Reply_error e => e ≠ 0 ∧ (w' = RState c m r ts ∧
        (e = error ∨ e = EFBIG ∧ AZNFSC_MAX_FILE_SIZE < offset + Z.of_nat (length data)) ∨ e = EIO ∧ ¬ harmless others)
    end.
Proof.
  intros A Q Hb Hr. destruct (run_write_spec srv ssize prune_goal scaled others Hb fuel wr error offset data (RState c m r ts))
    as (res & w' & Hrun & n & Hn & [C' Q'] & Hres); [split; [by apply rest_cside|done]|done|].
  exists res, w', n. split; [done|]. split; [done|]. split; [by apply cside_rest|]. by split.
Qed.

(** C25: a write that fits, to a cache at rest with no buffer that waits for a commit, is not
    given up: when the other threads are as in C6 and leave no partial reads behind ([harmless]),
    the chunks it finds half-read are at the ends of its range, each failed attempt drops one, and
    the third of the hundred attempts succeeds at the latest.  (Writers that hold use counts on the
    same half-read buffer while they sleep, which the comment in run_write() describes, are excluded
    by [bystander]; they may use up all attempts.) *)
Theorem undisturbed_write_succeeds fuel c m r ts offset data :
  at_rest srv ssize wr c m → committed c → bystander srv ssize others → harmless others → write_range offset data →
  offset + Z.of_nat (length data) ≤ AZNFSC_MAX_FILE_SIZE →
  (∃ r' w', write_attempts prune_goal scaled others (S fuel) 3 data offset (EAGAIN, 0, 0) (RState c m r ts) = Some (r', w') ∧ r'.1.1 = 0) ∧
  ∃ l x w', run_write prune_goal scaled others (S fuel) false 0 data offset (RState c m r ts) = Some (Run_fcsm l x, w') ∧
    at_rest srv ssize (overlay wr offset data) (fcache w') (mem w').
Proof.
  intros A Q Hb Hh Hr Hf. assert (gave_up srv ssize wr [] [] [] [] (RState c m r ts)) as G by (split; [by apply rest_cside|done]). split.
  - destruct (write_attempts_spec srv ssize prune_goal scaled others Hb offset data Hr Hf fuel wr 3 0 (RState c m r ts) (EAGAIN, 0, 0))
      as (r' & w' & Hrun & _ & Hends); [|by left|].
    + split; [lia|]. split; [|by right]. destruct G as [C _]. split; [|done]. eapply cside_ext; [|exact C]. intros x. by rewrite take_0, overlay_nil.
    + exists r', w'. split; [done|]. apply (Hends 2%nat Hh); [lia|done|lia].
  - destruct (run_write_spec srv ssize prune_goal scaled others Hb fuel wr 0 offset data _ G Hr) as ([e|l x] & w' & Hrun & n & Hn & [C' _] & Hres).
    + exfalso. destruct Hres as (He & [[_ [?|[_ ?]]]|[_ ?]]); [done|lia|done].
    + destruct Hres as (-> & _). rewrite firstn_all in C'. exists l, x, w'. split; [done|]. by apply cside_rest.
Qed.

(** C2: a read after a write sees what was written: after a write to a cache at rest (with other
    threads as in C6), in any interleaving of requests, callbacks, retries and cache operations
    that meets the conditions of C1, every byte written in the range of a request is at its place in
    each reply with data to it, unless the reply ends before it because it has all its 1023
    vectors, none of them empty. *)
Theorem read_your_writes fuel c m r ts offset data l x w1 r1 ops w t y off size iov k b :
  at_rest srv ssize wr c m → committed c → bystander srv ssize others → write_range offset data →
  run_write prune_goal scaled others (S fuel) false 0 data offset (RState c m r ts) = Some (Run_fcsm l x, w1) →
  wf r1 → steps srv ssize ops (RState (fcache w1) (mem w1) r1 []) w → tasks w !! t = Some y → Data iov ∈ replies y →
  requests ops !! t = Some (off, size) → data !! k = Some b → off ≤ offset + Z.of_nat k < off + size →
  concat iov !! Z.to_nat (offset + Z.of_nat k - off) = Some (Some b) ∨
  concat iov !! Z.to_nat (offset + Z.of_nat k - off) = None ∧ length iov = FUSE_REPLY_IOV_MAX_COUNT ∧ [] ∉ iov.
Proof.
  intros A Q Hb Hr Hrun Hwf Hs Ht Hy Hreq Hk Hrange.
  destruct (wp_run _ _ _ _ _ Hrun (run_write_spec srv ssize prune_goal scaled others Hb fuel wr 0 offset data (RState c m r ts)
    (conj (rest_cside _ _ _ _ _ A) Q) Hr)) as (n & _ & [C1%cside_rest _] & -> & _).
  rewrite firstn_all in C1. destruct (reply_of_request _ _ _ _ _ _ C1 Hwf _ _ _ _ _ Hs Ht Hy) as (_ & (_ & j & Hj & Hc & Hshort) & Hreq' & _).
  rewrite Hreq in Hreq'. injection Hreq' as Ho Hz. rewrite <- ?Ho, <- ?Hz in *. set (o := offset + Z.of_nat k) in *.
  pose proof (lookup_lt_Some _ _ _ Hk) as Hlt. rewrite Hc.
  assert (overlay wr offset data o = Some b) as Hov by (rewrite overlay_in by lia; rewrite <- Hk; f_equal; lia).
  destruct (decide (o < off + j)) as [Hin|Hout].
  - left. rewrite list_lookup_fmap, (lookup_seqZ_lt 0 j) by lia. simpl. do 2 f_equal. unfold file_byte.
    replace (off + (0 + Z.of_nat (Z.to_nat (o - off)))) with o by lia. by rewrite Hov.
  - right. destruct Hshort as [[_ Hend]|Hfull]; [lia| |].
    + rewrite Hend in Hov by lia. done.
    + split; [|exact Hfull]. apply lookup_ge_None. rewrite length_fmap, length_seqZ. lia.
Qed.
End write.
