(* ===== verification/WriteExamples.v ===== *)
(** * Write path: runs

    A write into an empty cache and a read of what was written; a write that meets a
    buffer which a failed read left behind. *)
From S2P Require Import Prelude CacheState Membuf MembufSpec ChunkMap FileCache CacheInv MembufInv CacheOps Purge ScanGet CacheGet CacheSteps Readahead ReadaheadSpec CacheFrame ReadPath ReadCache ReadInv ReadLoop ReadProps ReadExamples WritePath WriteCache WriteStale WriteSteps WriteLoop WriteProps.

Definition three : list Z := [1; 2; 3].

Lemma three_range : write_range 4 three.
Proof. by split. Qed.

Lemma empty_committed : committed empty_cache.
Proof. by intros i mb. Qed.

Abbreviation write3 := (run_write no_pruning 0 (mret ()) 1 false 0 three 4).
Abbreviation at0 := (RState empty_cache blank fresh_ra []).

(** The state after the write. *)
Definition v1 : rstate := match write3 at0 with Some (_, w) => w | None => w0 end.

Lemma written : write3 at0 = Some (Run_fcsm 4 7, v1).
Proof.
  unfold v1. destruct (write3 at0) as [[res w]|] eqn:E.
  - assert (option_map fst (write3 at0) = Some (Run_fcsm 4 7)) as Hr by (vm_compute; reflexivity). rewrite E in Hr. by injection Hr as ->.
  - exfalso. assert (option_map fst (write3 at0) = Some (Run_fcsm 4 7)) as Hr by (vm_compute; reflexivity). by rewrite E in Hr.
Qed.

Lemma write_is_buffered_witness : ∃ res w' n, write3 at0 = Some (res, w') ∧ (n ≤ length three)%nat ∧
  at_rest bytes 10 (overlay unwritten 4 (take n three)) (fcache w') (mem w').
Proof.
  destruct (write_is_buffered bytes 10 unwritten no_pruning 0 (mret ()) 0 0 empty_cache blank fresh_ra [] 4 three)
    as (res & w' & n & Hrun & Hn & Hrest & _); [exact empty_at_rest|exact empty_committed|apply idle_bystander|exact three_range|].
  exists res, w', n. split; [exact Hrun|]. split; [exact Hn|exact Hrest].
Defined.

Lemma undisturbed_write_succeeds_witness : ∃ l x w', write3 at0 = Some (Run_fcsm l x, w') ∧
  at_rest bytes 10 (overlay unwritten 4 three) (fcache w') (mem w').
Proof.
  apply (undisturbed_write_succeeds bytes 10 unwritten no_pruning 0 (mret ()) 0 empty_cache blank fresh_ra [] 4 three);
    [exact empty_at_rest|exact empty_committed|apply idle_bystander|exact idle_harmless|exact three_range|by vm_compute].
Defined.

(** A read of the bytes that were written. *)
Definition ask3 : step_of := Start no_pruning 0 10 4 3.
Definition u0 : rstate := RState (fcache v1) (mem v1) fresh_ra [].
Definition u1 : rstate := next ask3 u0.
Definition u2 : rstate := next (Visit 0) u1.
Definition u3 : rstate := next (End_ 0) u2.

Lemma rerun : steps bytes 10 [ask3; Visit 0; End_ 0] u0 u3.
Proof.
  apply (steps_next _ _ [ask3; Visit 0] (End_ 0)); [apply (steps_next _ _ [ask3] (Visit 0));
    [apply (steps_next _ _ [] ask3); [constructor| |vm_compute; reflexivity]| |vm_compute; reflexivity]| |vm_compute; reflexivity].
  - split; try (right; reflexivity); consts; lia.
  - eexists. split; [vm_compute; reflexivity|]. by split_and!.
  - eexists. split; [vm_compute; reflexivity|]. by split_and!.
Qed.

Example reread : replies <$> tasks u3 = [[Data [somes three]]].
Proof. vm_compute. reflexivity. Qed.

Lemma read_your_writes_witness : ∃ y, tasks u3 !! 0%nat = Some y ∧ Data [somes three] ∈ replies y ∧
  (concat [somes three] !! Z.to_nat (4 + 1 - 4) = Some (Some 2) ∨
   concat [somes three] !! Z.to_nat (4 + 1 - 4) = None ∧ length [somes three] = FUSE_REPLY_IOV_MAX_COUNT ∧ [] ∉ [somes three]).
Proof.
  eexists. split; [vm_compute; reflexivity|]. split; [by apply list_elem_of_singleton|].
  eapply (read_your_writes bytes 10 unwritten no_pruning 0 (mret ()) 0 empty_cache blank fresh_ra [] 4 three 4 7 v1 fresh_ra
    [ask3; Visit 0; End_ 0] u3 0 _ 4 3 [somes three] 1 2);
    [exact empty_at_rest|exact empty_committed|apply idle_bystander|exact three_range|exact written|exact fresh_wf|exact rerun
    |vm_compute; reflexivity|by apply list_elem_of_singleton|reflexivity|reflexivity|simpl; lia].
Defined.

(** ** A buffer that two readers left behind

    The situation that the comment in [run_write()] describes: two readers share the
    buffer of [0, 16); the file ends before, but the part beyond its end cannot be released while the
    other reader uses the buffer, which therefore does not become uptodate.  What stays in the cache
    is [8, 16).  A write of [10, 13) releases it at the first attempt and succeeds at the second. *)
Definition half_read : rstate :=
  match after w0 [act (Start no_pruning 0 (-1) 0 16); act (Start no_pruning 0 (-1) 0 8);
    act (Visit 0); act (Lock 0); act (End_ 0); act (Visit 1); act (Callback 0 0 (ReadOk ten_bytes true false));
    act (Lock 1); act (End_ 1); act (Callback 1 0 (ReadOk (take 8 ten_bytes) false false))] with
  | Some (_, w) => w
  | None => w0
  end.

Example half_read_replies : replies <$> tasks half_read = [[Data [somes ten_bytes]]; [Data [somes (take 8 ten_bytes)]]].
Proof. vm_compute. reflexivity. Qed.

Example first_attempt_gives_up :
  match copy_to_cache no_pruning 0 (mret ()) 1 three 10 half_read with
  | Some (r, w) => Some (r.1.1, length (chunkmap (fcache half_read)), length (chunkmap (fcache w)))
  | None => None
  end = Some (EAGAIN, 1%nat, 0%nat).
Proof. vm_compute. reflexivity. Qed.

Example second_attempt_succeeds :
  option_map fst (run_write no_pruning 0 (mret ()) 1 false 0 three 10 half_read) = Some (Run_fcsm 10 13).
Proof. vm_compute. reflexivity. Qed.

(** ** Overwriting data that waits for a commit

    [three] again, after an unstable write has flushed it: the buffer is uptodate and its
    commit pending. *)
Definition uncommitted : rstate :=
  match after v1 [on_cache (set_inuse 0); on_cache (do_ set_locked 0; mret ()); on_cache (set_flushing true 0);
    on_cache (clear_dirty 0); on_cache (clear_flushing 0); on_cache (set_commit_pending 0);
    on_cache (clear_locked 0); on_cache (clear_inuse 0)] with
  | Some (_, w) => w
  | None => w0
  end.

(** The writer's naps, counted by tasks that are of no other use; the commit completes during
    the third. *)
Definition nap : MT () :=
  do_ new_task (Task 0 0 0 0 0 [] [] false false false 0 0 0 []);
  do w ← mget;
  if (length (tasks w) =? 3)%nat then
    do_ on_cache (do_ set_inuse 0; set_locked 0); do_ on_cache (clear_commit_pending 0);
    do_ on_cache (clear_locked 0); on_cache (clear_inuse 0)
  else mret ().

(** Every time the writer wakes up it finds the buffer uptodate and goes back to [try_copy:],
    where the pending commit sends it to sleep again: the second time, a build with
    [ENABLE_PARANOID] asserts that it has not been there before. *)
Example overwrite_naps_until_commit :
  match run_write no_pruning 0 nap 5 false 0 three 4 (set_tasks [] uncommitted) with
  | Some (r, w) => Some (r, length (tasks w))
  | None => None
  end = Some (Run_fcsm 4 7, 3%nat).
Proof. vm_compute. reflexivity. Qed.
