(* ===== verification/WriteBack.v ===== *)
(** * Writing back dirty data

    The way of dirty data from the file cache to the server: [nfs_inode::sync_membufs()] and
    [switch_to_stable_write()] ([turbonfs/src/nfs_inode.cpp]), [struct bc_iovec]
    ([turbonfs/inc/rpc_task.h]), [issue_write_rpc()] and [write_iov_callback()]
    ([turbonfs/src/rpc_task.cpp]), [jukebox_write()] ([turbonfs/src/nfs_client.cpp]).  [Fcsm] has
    the decisions when to flush and sees ranges; here are the chunks, their buffers and the
    bytes that are sent.

    - The state is the file cache and its buffers, the flags of the inode, the write tasks
      and [server], the WRITEs the server has carried out: their offset and the bytes that
      were in the iovec.  Each task owns a [bc_iovec]; a task that takes over the
      [bc_iovec] of another (after a short write, a jukebox retry) takes its place.
    - [sync_membufs()] may be interleaved with the callbacks of the writes it has issued:
      [sync_start] runs up to its loop, [sync_chunk] is one iteration, [sync_end] the rest.
      All callers pass neither [is_flush] nor a [parent_task].
    - Of [fcsm] there are the sequence numbers, the calls of [on_flush_complete()]
      ([completed]), whose accounting and assertions are here, and the flag [running], which is
      cleared under the flush lock when nothing is being flushed any longer; that, the targets
      and [ctgtq_cleanup()] are in [Fcsm].  [fc_cb_running()] holds in [write_iov_callback()],
      which starts with [FC_CB_TRACKER].
    - [sync_start] is the part of [ensure_flush()] that starts a flush.
    - [wsize_adj] is the write size the server advertises. *)
From S2P Require Import Prelude CacheState Membuf FileCache DirtyLists ReadPath.

Definition AZNFSCFG_WSIZE_MIN : Z := 1048576.
Definition AZNFSCFG_WSIZE_MAX : Z := AZNFSC_MAX_BLOCK_SIZE.
Definition BC_IOVEC_MAX_VECTORS : Z := 1000.
Definition UINT64_MAX : Z := 2 ^ 64 - 1.

(** ** State *)
Record iovec := Iovec { iov_buffer : nat; iov_index : Z; iov_len : Z }.

(** [iov] are the entries from the pointer [iov] on; [iov_pos] is [iov - base]. *)
Record bc_iovec := Biov {
  iov : list iovec;
  iov_pos : nat;
  iovcnt : Z;
  io_offset : Z;
  io_length : Z;
  orig_offset : Z;
  orig_length : Z;
  bcq : list bytes_chunk;
  max_iosize : Z;
}.

(** Where the WRITE of a task is: on the wire, in the jukebox queue, or done. *)
Inductive wprogress := Issued | Jukeboxed | Freed.
#[export] Instance wprogress_eq_dec : EqDecision wprogress.
Proof. solve_decision. Defined.

Record write_task := WTask { wt_bciov : bc_iovec; wt_prog : wprogress }.

(** [sync_membufs()] at work: the vector is [s_done ++ s_todo], [s_task] its current task. *)
Record sync_state := Sync { s_done : list bytes_chunk; s_todo : list bytes_chunk; s_task : option bc_iovec }.

Record bstate := BState {
  filecache : cache;
  buffers : memory;
  is_flushing : bool;
  stable_write : bool;
  commit_in_progress : bool;
  write_error : Z;
  putblock_filesize : Z;
  running : bool;
  flushing_seq_num : Z;
  flushed_seq_num : Z;
  committing_seq_num : Z;
  committed_seq_num : Z;
  completed : list Z;
  server : list (Z * list (option Z));
  writes : list write_task;
  syncing : option sync_state;
}.

Abbreviation MB := (M bstate).

Definition set_filecache (c : cache) (w : bstate) : bstate :=
  BState c (buffers w) (is_flushing w) (stable_write w) (commit_in_progress w) (write_error w) (putblock_filesize w) (running w)
    (flushing_seq_num w) (flushed_seq_num w) (committing_seq_num w) (committed_seq_num w) (completed w) (server w) (writes w) (syncing w).
Definition set_inode (lock stable : bool) (error putblock : Z) (w : bstate) : bstate :=
  BState (filecache w) (buffers w) lock stable (commit_in_progress w) error putblock (running w)
    (flushing_seq_num w) (flushed_seq_num w) (committing_seq_num w) (committed_seq_num w) (completed w) (server w) (writes w) (syncing w).
Definition set_fcsm (run : bool) (flushing flushed : Z) (compl : list Z) (w : bstate) : bstate :=
  BState (filecache w) (buffers w) (is_flushing w) (stable_write w) (commit_in_progress w) (write_error w) (putblock_filesize w) run
    flushing flushed (committing_seq_num w) (committed_seq_num w) compl (server w) (writes w) (syncing w).
Definition set_server (l : list (Z * list (option Z))) (w : bstate) : bstate :=
  BState (filecache w) (buffers w) (is_flushing w) (stable_write w) (commit_in_progress w) (write_error w) (putblock_filesize w) (running w)
    (flushing_seq_num w) (flushed_seq_num w) (committing_seq_num w) (committed_seq_num w) (completed w) l (writes w) (syncing w).
Definition set_writes (l : list write_task) (w : bstate) : bstate :=
  BState (filecache w) (buffers w) (is_flushing w) (stable_write w) (commit_in_progress w) (write_error w) (putblock_filesize w) (running w)
    (flushing_seq_num w) (flushed_seq_num w) (committing_seq_num w) (committed_seq_num w) (completed w) (server w) l (syncing w).
Definition set_syncing (x : option sync_state) (w : bstate) : bstate :=
  BState (filecache w) (buffers w) (is_flushing w) (stable_write w) (commit_in_progress w) (write_error w) (putblock_filesize w) (running w)
    (flushing_seq_num w) (flushed_seq_num w) (committing_seq_num w) (committed_seq_num w) (completed w) (server w) (writes w) x.

Definition with_cache {A} (m : MC A) : MB A :=
  λ w, match m (filecache w) with Some (a, c) => Some (a, set_filecache c w) | None => None end.

Definition mark_running : MB () :=
  do w ← mget; do_ massert (is_flushing w); mmodify (λ w, set_fcsm true (flushing_seq_num w) (flushed_seq_num w) (completed w) w).
Definition add_flushing (n : Z) : MB () :=
  do w ← mget; do_ massert (is_flushing w); mmodify (λ w, set_fcsm (running w) (flushing_seq_num w + n) (flushed_seq_num w) (completed w) w).

(** [on_flush_complete()] up to its test for other writes. *)
Definition on_flush_complete (n : Z) : MB () :=
  do w ← mget;
  do_ massert (write_error w =? 0);
  do_ massert (0 <? n);
  do_ massert (negb (commit_in_progress w));
  do_ massert (committing_seq_num w <=? flushed_seq_num w);
  do_ massert (committed_seq_num w <=? committing_seq_num w);
  do_ massert (committing_seq_num w <=? flushing_seq_num w);
  let flushed := flushed_seq_num w + n in
  do_ mmodify (λ w, set_fcsm (running w) (flushing_seq_num w) flushed (completed w ++ [n]) w);
  massert (flushed <=? flushing_seq_num w).

Definition set_write_error (error : Z) : MB () :=
  do_ massert (0 <? error);
  mmodify (λ w, if write_error w =? 0 then set_inode (is_flushing w) (stable_write w) error (putblock_filesize w) w else w).
Definition set_stable_write : MB () :=
  do w ← mget;
  do_ massert (negb (stable_write w));
  mmodify (λ w, set_inode (is_flushing w) true (write_error w) AZNFSC_BAD_OFFSET w).
Definition get_bytes_to_flush (w : bstate) : Z := Z.max (st (filecache w) bytes_dirty - st (filecache w) bytes_flushing) 0.
Definition is_flushing_in_progress : MB bool := do w ← mget; mret (0 <? st (filecache w) bytes_flushing).

(** ** bc_iovec *)
Section bc_iovec.
Context (wsize_adj : Z).

Definition bc_iovec_new : MB bc_iovec :=
  do w ← mget;
  let max := if stable_write w then wsize_adj else AZNFSCFG_WSIZE_MAX in
  do_ massert (0 <? max);
  do_ massert (AZNFSCFG_WSIZE_MIN <=? max);
  do_ massert (max <=? AZNFSCFG_WSIZE_MAX);
  mret (Biov [] 0 0 0 0 0 0 [] max).

(** [mb->set_flushing(); bcq.emplace(bc); add_flushing(bc.length)] *)
Definition enqueue (bc : bytes_chunk) : MB bytes_chunk :=
  do w ← mget;
  do_ with_cache (set_flushing (is_flushing w) (bc_alloc_buffer bc));
  do c ← with_cache (bytes_chunk_copy bc);
  do_ add_flushing (bc_length bc);
  mret c.

Definition iovec_of (bc : bytes_chunk) : iovec := Iovec (bc_alloc_buffer bc) (bc_buffer_offset bc) (bc_length bc).

(** The [bc_iovec] with the chunk, [None] if it cannot take it. *)
Definition add_bc (b : bc_iovec) (bc : bytes_chunk) : MB (option bc_iovec) :=
  do w ← mget;
  do_ massert (is_flushing w);
  do_ massert (iov_pos b =? 0)%nat;
  do_ massert (iovcnt b =? Z.of_nat (length (bcq b)));
  do_ massert (bc_length bc <=? max_iosize b);
  do_ massert (bc_pvt bc =? 0);
  do full ← maps_full_membuf bc;
  do_ massert full;
  do mb ← with_cache (get_membuf (bc_alloc_buffer bc));
  do_ massert (is_inuse mb);
  do_ massert (is_locked mb);
  do_ massert (is_uptodate mb);
  if iovcnt b =? 0 then
    do_ massert (io_offset b =? 0);
    do_ massert (io_length b =? 0);
    do c ← enqueue bc;
    mret (Some (Biov [iovec_of bc] (iov_pos b) (iovcnt b + 1) (bc_offset bc) (bc_length bc) (bc_offset bc) (bc_length bc)
                  (bcq b ++ [c]) (max_iosize b)))
  else if (io_offset b + io_length b =? bc_offset bc) && (io_length b + bc_length bc <=? max_iosize b)
          && (iovcnt b + 1 <=? BC_IOVEC_MAX_VECTORS) then
    do c ← enqueue bc;
    let length := io_length b + bc_length bc in
    mret (Some (Biov (iov b ++ [iovec_of bc]) (iov_pos b) (iovcnt b + 1) (io_offset b) length (orig_offset b) length
                  (bcq b ++ [c]) (max_iosize b)))
  else mret None.

(** A whole chunk leaves the queue: what happens to the membuf is [m]. *)
Definition pop_bc (m : nat → MC ()) (bc : bytes_chunk) : MB () :=
  let id := bc_alloc_buffer bc in
  do mb ← with_cache (get_membuf id);
  do_ massert (is_inuse mb && is_locked mb);
  do flushing ← with_cache (Membuf.is_flushing mb);
  do dirty ← with_cache (is_dirty mb);
  do_ massert (flushing && dirty && is_uptodate mb);
  do_ with_cache (m id);
  do_ with_cache (clear_locked id);
  do_ with_cache (clear_inuse id);
  with_cache (bytes_chunk_dtor bc).

Definition written (is_unstable_write : bool) (id : nat) : MC () :=
  do_ clear_dirty id;
  do_ clear_flushing id;
  if is_unstable_write then set_commit_pending id else mret ().

(** The [bc_iovec] without its first chunk, of which [len] bytes were left. *)
Definition popped (len : Z) (b : bc_iovec) : bc_iovec :=
  Biov (tail (iov b)) (S (iov_pos b)) (iovcnt b - 1) (io_offset b + len) (io_length b - len) (orig_offset b) (orig_length b)
    (tail (bcq b)) (max_iosize b).

Definition set_pvt (n : Z) (bc : bytes_chunk) : bytes_chunk := bc_set n (bc_num_backend_calls_issued bc) bc.

(** The loop of [on_io_complete()]; [q] is [bcq]. *)
Fixpoint io_complete_loop (q : list bytes_chunk) (end_off n : Z) (unstable : bool) (b : bc_iovec) : MB bc_iovec :=
  match q with
  | [] => mderef None
  | bc :: q' =>
      do w ← mget;
      do_ massert (eqb (stable_write w) (negb unstable));
      let bc_off := bc_offset bc + bc_pvt bc in
      let bc_len := bc_length bc - bc_pvt bc in
      do_ massert (io_offset b <=? bc_off);
      do_ massert (bc_len <=? io_length b);
      if bc_off + bc_len <=? end_off then
        do_ pop_bc (written unstable) bc;
        do_ massert (bc_len <=? n);
        let b' := popped bc_len b in
        if n - bc_len =? 0 then mret b' else io_complete_loop q' end_off (n - bc_len) unstable b'
      else
        match iov b with
        | [] => mderef None
        | v :: vs =>
            let v' := Iovec (iov_buffer v) (iov_index v + n) (iov_len v - n) in
            do_ massert (0 <? iov_len v');
            mret (Biov (v' :: vs) (iov_pos b) (iovcnt b) (io_offset b + n) (io_length b - n) (orig_offset b) (orig_length b)
                    (set_pvt (bc_pvt bc + n) bc :: q') (max_iosize b))
        end
  end.

(** The assertions on a [bc_iovec] whose WRITE has ended. *)
Definition io_checks (b : bc_iovec) : MB () :=
  do_ massert (iovcnt b =? Z.of_nat (length (bcq b)));
  do_ massert (0 <? iovcnt b);
  match bcq b with
  | [] => mderef None
  | bc :: _ => massert (bc_offset bc + bc_pvt bc =? io_offset b)
  end.

Definition on_io_complete (bytes_completed : Z) (is_unstable_write : bool) (b : bc_iovec) : MB bc_iovec :=
  let end_off := io_offset b + bytes_completed in
  do_ io_checks b;
  do_ massert (bytes_completed <=? io_length b);
  do b' ← io_complete_loop (bcq b) end_off bytes_completed is_unstable_write b;
  do_ massert (io_offset b' =? end_off);
  mret b'.

Fixpoint io_fail_loop (q : list bytes_chunk) (b : bc_iovec) : MB bc_iovec :=
  match q with
  | [] => mret b
  | bc :: q' =>
      let bc_off := bc_offset bc + bc_pvt bc in
      let bc_len := bc_length bc - bc_pvt bc in
      do_ massert (io_offset b <=? bc_off);
      do_ massert (bc_len <=? io_length b);
      do_ pop_bc clear_flushing bc;
      do_ massert (0 <? iovcnt b);
      io_fail_loop q' (popped bc_len b)
  end.

Definition on_io_fail (b : bc_iovec) : MB bc_iovec :=
  do_ io_checks b;
  do b' ← io_fail_loop (bcq b) b;
  do_ massert (iovcnt b' =? 0);
  mret b'.

(** [~bc_iovec()]: what was written is not cached any longer. *)
Definition bc_iovec_dtor (b : bc_iovec) : MB () :=
  do_ massert (length (bcq b) =? 0)%nat;
  do_ with_cache (release (orig_offset b) (orig_length b));
  mret ().

(** ** The WRITE RPC *)
Definition issue_checks (b : bc_iovec) : MB () :=
  do_ massert (io_length b <=? orig_length b);
  do_ massert (orig_offset b <=? io_offset b);
  do_ massert (orig_offset b + orig_length b =? io_offset b + io_length b);
  do w ← mget;
  do_ massert (running w);
  do_ massert ((0 <? iovcnt b) && (iovcnt b <=? BC_IOVEC_MAX_VECTORS));
  do_ massert (io_offset b <? AZNFSC_MAX_FILE_SIZE);
  do_ massert (io_offset b + io_length b <? AZNFSC_MAX_FILE_SIZE);
  massert (0 <? io_length b).

(** A new task sends the [bc_iovec]. *)
Definition issue_write_rpc (b : bc_iovec) : MB () :=
  do_ issue_checks b; mmodify (λ w, set_writes (writes w ++ [WTask b Issued]) w).

(** The task that takes over the [bc_iovec] of task [t] sends it. *)
Definition reissue_write_rpc (t : nat) (b : bc_iovec) : MB () :=
  do_ issue_checks b; mmodify (λ w, set_writes (<[t := WTask b Issued]> (writes w)) w).

Definition set_progress (t : nat) (b : bc_iovec) (p : wprogress) : MB () :=
  mmodify (λ w, set_writes (<[t := WTask b p]> (writes w)) w).

(** The bytes an iovec refers to. *)
Definition iov_bytes (m : memory) (v : list iovec) : list (option Z) :=
  concat ((λ x, (λ j, m (iov_buffer x) (iov_index x + j)) <$> seqZ 0 (iov_len x)) <$> v).

(** What the server does with a WRITE: it writes [count] bytes and perhaps reports that
    the file has changed meanwhile, it asks to try again later, or it fails. *)
Inductive write_res := Wrote (count : Z) (changed : bool) | Jukebox | WriteFailed (status : Z).

(** The WRITE of [b] reached the server, which wrote the first [count] bytes. *)
Definition server_write (b : bc_iovec) (count : Z) : MB () :=
  mmodify (λ w, set_server (server w ++ [(io_offset b, take (Z.to_nat count) (iov_bytes (buffers w) (iov b)))]) w).

(** The task is done: fcsm is told, then the [bc_iovec] is deleted. *)
Definition write_done (t : nat) (b : bc_iovec) : MB () :=
  do w ← mget;
  do_ massert (write_error w =? 0);
  do_ on_flush_complete (orig_length b);
  do_ bc_iovec_dtor b;
  set_progress t b Freed.

Definition write_ok (t : nat) (b : bc_iovec) (count : Z) : MB () :=
  do_ massert (0 <? count);
  do_ massert (count <=? io_length b);
  do_ massert (io_length b <=? orig_length b);
  do_ massert (orig_offset b <=? io_offset b);
  do w ← mget;
  do b' ← on_io_complete count (negb (stable_write w)) b;
  if count <? io_length b then reissue_write_rpc t b' else write_done t b'.

Definition write_iov_callback (t : nat) (res : write_res) : MB () :=
  do w ← mget;
  do x ← mderef (writes w !! t);
  let b := wt_bciov x in
  match res with
  | Wrote count changed =>
      do_ server_write b count;
      do_ (if changed then with_cache invalidate else mret ());
      write_ok t b count
  | Jukebox => set_progress t b Jukeboxed
  | WriteFailed status =>
      do_ set_write_error status;
      do b' ← on_io_fail b;
      write_done t b'
  end.

(** [jukebox_write()] *)
Definition jukebox_write (t : nat) : MB () :=
  do w ← mget; do x ← mderef (writes w !! t); reissue_write_rpc t (wt_bciov x).

(** ** sync_membufs() *)
Definition redirty_one (bc : bytes_chunk) : MC () :=
  let id := bc_alloc_buffer bc in
  do mb ← get_membuf id;
  do_ massert (is_inuse mb);
  do_ massert (is_locked mb);
  do_ massert (is_uptodate mb);
  do cp ← is_commit_pending mb;
  do_ massert cp;
  do dirty ← is_dirty mb;
  do_ massert (negb dirty);
  do_ clear_commit_pending id;
  do_ set_dirty id;
  do_ clear_locked id;
  clear_inuse id.

Definition switch_to_stable_write : MB () :=
  do w ← mget;
  do_ massert (is_flushing w);
  do_ massert (negb (stable_write w));
  do_ massert (negb (commit_in_progress w));
  do flushing ← is_flushing_in_progress;
  do_ massert (negb flushing);
  if st (filecache w) bytes_commit_pending =? 0 then set_stable_write
  else
    do r ← with_cache (get_commit_pending_bcs (stable_write w));
    do_ massert (eqb (length r.1 =? 0)%nat (r.2 =? 0));
    do_ massert (0 <? r.2);
    do_ mfor r.1 (λ bc, with_cache (redirty_one bc));
    do w' ← mget;
    do_ massert (st (filecache w') bytes_commit_pending =? 0);
    do flushing' ← is_flushing_in_progress;
    do_ massert (negb flushing');
    do_ massert (negb (commit_in_progress w'));
    do_ set_stable_write;
    mfor r.1 (λ bc, with_cache (bytes_chunk_dtor bc)).

Definition check_stable_write_required (offset : Z) : MB bool :=
  do w ← mget;
  do_ massert (is_flushing w);
  do_ massert (offset <=? AZNFSC_MAX_FILE_SIZE);
  if stable_write w then mret false
  else do_ massert (negb (putblock_filesize w =? AZNFSC_BAD_OFFSET)); mret (negb (putblock_filesize w =? offset)).

(** What the state machine flushes: all dirty data if writes are stable, else the first
    contiguous run; [full] asks for everything, which may need stable writes. *)
Definition pick_flush (full : bool) (bytes_to_flush : Z) : MB (list bytes_chunk) :=
  do w ← mget;
  do r ← (if stable_write w then
      do r ← with_cache (get_dirty_nonflushing_bcs_range 0 UINT64_MAX);
      do_ massert (bytes_to_flush <=? r.2);
      mret r
    else
      do r ← with_cache get_contiguous_dirty_bcs;
      if full && (r.2 <? bytes_to_flush) then
        do_ mfor r.1 (λ bc, with_cache (clear_inuse (bc_alloc_buffer bc)));
        do_ massert (negb (commit_in_progress w));
        do flushing ← is_flushing_in_progress;
        do_ massert (negb flushing);
        do r' ← with_cache (get_dirty_nonflushing_bcs_range 0 UINT64_MAX);
        do_ mfor r.1 (λ bc, with_cache (bytes_chunk_dtor bc));
        do_ massert (bytes_to_flush <=? r'.2);
        do_ set_stable_write;
        mret r'
      else mret r);
  do_ massert (eqb (length r.1 =? 0)%nat (r.2 =? 0));
  do_ massert (0 <? r.2);
  mret r.1.

(** [flush_lock()], which waits for the lock, and [flush_unlock()]. *)
Definition flush_lock : MB () :=
  do w ← mget;
  do_ massert (negb (is_flushing w));
  mmodify (λ w, set_inode true (stable_write w) (write_error w) (putblock_filesize w) w).
Definition flush_unlock : MB () :=
  do w ← mget;
  do_ massert (is_flushing w);
  mmodify (λ w, set_inode false (stable_write w) (write_error w) (putblock_filesize w) w).

(** [sync_membufs()] up to its loop. *)
Definition sync_enter (v : list bytes_chunk) : MB () :=
  do w ← mget;
  do_ (if negb (stable_write w) then do flushing ← is_flushing_in_progress; massert (negb flushing) else mret ());
  do_ massert (negb (commit_in_progress w));
  do_ match v with
      | [] => mret ()
      | bc :: _ =>
          do required ← check_stable_write_required (bc_offset bc);
          if required then switch_to_stable_write else mret ()
      end;
  mmodify (set_syncing (Some (Sync [] v None))).

(** [ensure_flush()] under the flush lock, without its targets: if there is something to flush, the
    chunks are picked and [sync_membufs()] is called.  The flush lock is taken and, if there is
    nothing to do, released by the caller. *)
Definition sync_start (full : bool) : MB () :=
  do_ flush_lock;
  do w ← mget;
  if get_bytes_to_flush w =? 0 then flush_unlock
  else do v ← pick_flush full (get_bytes_to_flush w); sync_enter v.

(** Is there something to write? *)
Definition to_write (id : nat) (truncated_too : bool) : MB bool :=
  do mb ← with_cache (get_membuf id);
  do flushing ← with_cache (Membuf.is_flushing mb);
  if flushing then mret false
  else
    do dirty ← with_cache (is_dirty mb);
    mret (dirty && negb (truncated_too && is_truncated mb)).

Definition add_putblock (n : Z) : MB () :=
  do w ← mget;
  if negb (stable_write w) then
    mmodify (λ w, set_inode (is_flushing w) (stable_write w) (write_error w) (putblock_filesize w + n) w)
  else massert (putblock_filesize w =? AZNFSC_BAD_OFFSET).

(** The chunk is locked and dirty: it goes to the current task or to a new one. *)
Definition sync_write (task : option bc_iovec) (bc : bytes_chunk) : MB bc_iovec :=
  do b ← (match task with
          | Some b => mret b
          | None => do b ← bc_iovec_new; do_ mark_running; mret b
          end);
  do r ← add_bc b bc;
  do b' ← (match r with
           | Some b' => mret b'
           | None =>
               do_ issue_write_rpc b;
               do b1 ← bc_iovec_new;
               do r1 ← add_bc b1 bc;
               mderef r1
           end);
  do_ add_putblock (bc_length bc);
  mret b'.

(** One iteration of the loop. *)
Definition sync_chunk : MB () :=
  do w ← mget;
  do x ← mderef (syncing w);
  match s_todo x with
  | [] => mderef None
  | bc :: rest =>
      let id := bc_alloc_buffer bc in
      let next task := mmodify (set_syncing (Some (Sync (s_done x ++ [bc]) rest task))) in
      do full ← maps_full_membuf bc;
      do_ massert full;
      do mb ← with_cache (get_membuf id);
      do_ massert (is_inuse mb);
      do wanted ← to_write id false;
      if negb wanted then do_ with_cache (clear_inuse id); next (s_task x)
      else
        do_ with_cache (set_locked id);
        do wanted' ← to_write id true;
        if negb wanted' then
          do_ with_cache (clear_locked id);
          do_ with_cache (clear_inuse id);
          next (s_task x)
        else
          do b ← sync_write (s_task x) bc;
          next (Some b)
  end.

(** After the loop: the leftover is sent; the caller drops the vector and the lock. *)
Definition sync_end : MB () :=
  do w ← mget;
  do x ← mderef (syncing w);
  do_ massert (length (s_todo x) =? 0)%nat;
  do_ (match s_task x with Some b => issue_write_rpc b | None => mret () end);
  do_ mfor (s_done x) (λ bc, with_cache (bytes_chunk_dtor bc));
  do_ mmodify (set_syncing None);
  flush_unlock.
End bc_iovec.
