(* ===== verification/FlushCache.v ===== *)
(** * The file cache as the write-back uses it

    What [ReadCache] states for reads, for the operations of a flush: taking the dirty
    chunks, flagging them, and the end of a WRITE ([written]).  [F] are the membufs that are
    being flushed.  While the server takes over the bytes, [srv], [ssize] and [wr] change,
    the contents of the file do not ([cside_contents]). *)
From S2P Require Import Prelude CacheState Membuf MembufSpec ChunkMap FileCache CacheInv MembufInv CacheOps Purge ScanGet CacheGet ScanRelease CacheRelease Truncate CacheSize TruncateSpec CacheTruncate DirtyLists CacheSteps CacheFrame Readahead ReadPath ReadCache ReadInv WritePath WriteCache WriteBack.

(** ** Room for flags *)

(** A sum over the membufs that the chunkmap refers to is bounded by its size. *)
Lemma chunked_sum c (h : gmap nat membuf) f :
  inv c → (∀ i x, h !! i = Some x → 0 ≤ f x ≤ mb_length x) → (∀ i x, h !! i = Some x → 0 < f x → i ∈ ids (chunkmap c)) →
  (∀ k bc, (k, bc) ∈ chunkmap c → ∃ mb, h !! bc_alloc_buffer bc = Some mb ∧ linked bc mb) →
  msum f h ≤ AZNFSC_MAX_FILE_SIZE.
Proof.
  intros I Hf Hin Hl. set (h' := filter (λ p : nat * membuf, p.1 ∈ ids (chunkmap c)) h).
  assert (msum f h ≤ msum f h') as Hle.
  { apply msum_le.
    - intros i x [Hx _]%map_lookup_filter_Some. by apply (Hf i).
    - intros i x Hx. destruct (decide (i ∈ ids (chunkmap c))) as [Hi|Hi].
      + left. exists x. split; [by apply map_lookup_filter_Some|done].
      + right. destruct (Z.le_gt_cases (f x) 0) as [?|Hg]; [done|]. apply Z.lt_gt in Hg. exfalso. apply Hi. eapply Hin; [done|lia]. }
  assert (msum f h' = hsum f h' (chunkmap c)) as He.
  { apply msum_hsum; [apply (inv_ids _ _ I)|]. by intros i x [_ ?]%map_lookup_filter_Some. }
  assert (hsum f h' (chunkmap c) ≤ cm_bytes (chunkmap c)) as Hb.
  { apply hsum_le_bytes; [intros i x [Hx _]%map_lookup_filter_Some; by apply (Hf i)|].
    intros k bc Hk. destruct (Hl _ _ Hk) as (mb & Hm & Hlk). exists mb. split; [|done]. apply map_lookup_filter_Some. split; [done|].
    simpl. apply elem_of_ids. eauto. }
  pose proof (cm_bytes_le _ _ (inv_wf _ _ I)). pose proof (inv_bound _ _ I). lia.
Qed.

(** The weights that are the lengths of flagged membufs. *)
Definition flag_weight (f : MB_Flag) (mb : membuf) : Z := if mb_has f mb then mb_length mb else 0.

Lemma flag_room c id mb f :
  inv c → membufs c !! id = Some mb → id ∈ ids (chunkmap c) → mb_has f mb = false →
  (∀ i x, membufs c !! i = Some x → mb_has f x = true → i ∈ ids (chunkmap c)) →
  msum (flag_weight f) (membufs c) + mb_length mb ≤ AZNFSC_MAX_FILE_SIZE.
Proof.
  intros I Hm Hid Hf Hin. set (mb' := mb_set_flag (or_flag (mb_flag mb) f) mb).
  assert (mb_has f mb' = true) as Hf' by (unfold mb_has, mb'; simpl; rewrite has_or_flag; by destruct f).
  pose proof (msum_insert (flag_weight f) (membufs c) id mb mb' Hm) as Hs. unfold flag_weight at 3 4 in Hs. rewrite Hf, Hf' in Hs. simpl in Hs.
  enough (msum (flag_weight f) (<[id := mb']> (membufs c)) ≤ AZNFSC_MAX_FILE_SIZE) by lia.
  apply (chunked_sum c); [done|..].
  - intros i x. unfold flag_weight. destruct (decide (i = id)) as [->|Hne].
    + rewrite lookup_insert_eq. intros [= <-]. apply (inv_heap _ _ I) in Hm as [Hwf _]. pose proof (wf_length _ Hwf). simpl. case_match; lia.
    + rewrite lookup_insert_ne by done. intros Hx. apply (inv_heap _ _ I) in Hx as [Hwf _]. pose proof (wf_length _ Hwf). case_match; lia.
  - intros i x. unfold flag_weight. destruct (decide (i = id)) as [->|Hne]; [done|].
    rewrite lookup_insert_ne by done. intros Hx. destruct (mb_has f x) eqn:E; [|lia]. intros _. by eapply Hin.
  - by eapply changed_linked.
Qed.

Lemma place_fields bc bc' : place bc = place bc' →
  bc_alloc_buffer bc = bc_alloc_buffer bc' ∧ bc_offset bc = bc_offset bc' ∧ bc_length bc = bc_length bc' ∧
  bc_buffer_offset bc = bc_buffer_offset bc' ∧ bc_is_whole bc = bc_is_whole bc'.
Proof. by intros [= -> -> -> -> -> _]. Qed.

Lemma vids_places v : vids (places v) = vids v.
Proof. unfold vids, places. rewrite <- list_fmap_compose. by apply list_fmap_ext. Qed.

(** ** What an operation on other membufs does to those of [K] *)

Record quiet (K : nat → Prop) (c c' : cache) : Prop := {
  qt_flag : ∀ i mb, K i → membufs c !! i = Some mb → ∃ mb', membufs c' !! i = Some mb' ∧ mb_flag mb' = mb_flag mb;
  qt_dirt : ∀ i mb', membufs c' !! i = Some mb' → mb_has Dirty mb' = true →
    ∃ mb, membufs c !! i = Some mb ∧ mb_has Dirty mb = true ∧ mb_length mb' ≤ mb_length mb;
  qt_size : cache_size c' = cache_size c;
}.

Lemma quiet_refl K c : quiet K c c.
Proof. split; [eauto| |done]. intros i mb Hm Hd. exists mb. split_and!; (done || lia). Qed.

Lemma quiet_trans K c1 c2 c3 : quiet K c1 c2 → quiet K c2 c3 → quiet K c1 c3.
Proof.
  intros [F1 D1 Z1] [F2 D2 Z2]. split; [| |congruence].
  - intros i mb Hi Hm. destruct (F1 _ _ Hi Hm) as (mb2 & Hm2 & <-). by apply F2.
  - intros i mb3 H3 Hd3. destruct (D2 _ _ H3 Hd3) as (mb2 & H2 & Hd2 & L2). destruct (D1 _ _ H2 Hd2) as (mb1 & H1 & Hd1 & L1).
    exists mb1. split_and!; (done || lia).
Qed.

Lemma quiet_sub (K K' : nat → Prop) c c' : (∀ i, K' i → K i) → quiet K c c' → quiet K' c c'.
Proof. intros HK [F D Z]. split; auto. Qed.

Lemma quiet_updated (K : nat → Prop) id mb mb' c c' :
  ¬ K id → membufs c !! id = Some mb → replaced id mb' c c' → cache_size c' = cache_size c →
  (mb_has Dirty mb' = true → mb_has Dirty mb = true) → mb_length mb' ≤ mb_length mb → quiet K c c'.
Proof.
  intros HK Hm [Hh _] Hz Hd Hl. split; [| |done].
  - intros i x Hi Hx. exists x. rewrite Hh, lookup_insert_ne; [done|]. by intros ->.
  - intros i y. rewrite Hh. destruct (decide (i = id)) as [->|Hne].
    + rewrite lookup_insert_eq. intros [= <-] ?. exists mb. auto.
    + rewrite lookup_insert_ne by done. intros Hy Hdy. exists y. split_and!; (done || lia).
Qed.

(** An update that leaves the flags alone. *)
Lemma quiet_same_flag K id mb mb' c c' :
  membufs c !! id = Some mb → replaced id mb' c c' → cache_size c' = cache_size c →
  mb_flag mb' = mb_flag mb → mb_length mb' = mb_length mb → quiet K c c'.
Proof.
  intros Hm [Hh _] Hz Hf Hl. split; [| |done].
  - intros i x Hi Hx. rewrite Hh. destruct (decide (i = id)) as [->|Hne]; [|exists x; by rewrite lookup_insert_ne].
    exists mb'. rewrite lookup_insert_eq. split; [done|congruence].
  - intros i y. rewrite Hh. destruct (decide (i = id)) as [->|Hne].
    + rewrite lookup_insert_eq. intros [= <-] ?. exists mb. unfold mb_has in *. rewrite <- Hf. split_and!; (done || lia).
    + rewrite lookup_insert_ne by done. intros Hy Hdy. exists y. split_and!; (done || lia).
Qed.

Lemma quiet_evolves (K : nat → Prop) c c' : inv c → evolves c c' → (∀ i, K i → is_Some (membufs c' !! i)) → quiet K c c'.
Proof.
  intros I [Hn Hz Hev] HK. split; [| |done].
  - intros i x Hi Hx. destruct (HK _ Hi) as [y Hy]. exists y. split; [done|]. destruct (Hev _ _ Hy) as [(mb & Hm & Hl)|[Hlt _]].
    + assert (mb = x) as -> by congruence. apply (lt_flag _ _ Hl).
    + apply (inv_heap _ _ I) in Hx as [_ ?]. lia.
  - intros i y Hy Hd. destruct (Hev _ _ Hy) as [(mb & Hm & Hl)|[_ Hf]].
    + exists mb. unfold mb_has in *. rewrite (lt_flag _ _ Hl) in Hd. pose proof (lt_lo _ _ Hl). pose proof (lt_hi _ _ Hl).
      pose proof (lt_held _ _ Hl). split_and!; (done || lia).
    + unfold mb_has in Hd. by rewrite Hf, has_flag_0 in Hd.
Qed.

(** ** What does not depend on the operation *)
Section contents.
Context (srv : Z → Z) (ssize : Z) (wr : Z → option Z).

(** Chunks are as good as others at the same place. *)
Lemma cside_places F c m A A' h l P P' :
  places A = places A' → places P = places P' → cside srv ssize wr F c m A h l P → cside srv ssize wr F c m A' h l P'.
Proof.
  intros HA HP C. assert (vids A = vids A') as HvA by (rewrite <- (vids_places A), <- (vids_places A'); by rewrite HA).
  assert (∀ (v v' : list bytes_chunk) b, places v = places v' → b ∈ v' → ∃ b0, b0 ∈ v ∧ place b0 = place b) as Hback.
  { intros v v' b Hv Hb. assert (place b ∈ places v) as (b0 & ? & ?)%list_elem_of_fmap by (rewrite Hv; by apply list_elem_of_fmap_2). eauto. }
  split; rewrite <- ?HvA; try apply C.
  - intros b Hb. destruct (Hback _ _ _ HA Hb) as (b0 & Hb0 & (E1 & E2 & E3 & E4 & E5)%place_fields). rewrite <- E1, <- E2, <- E4.
    by apply (cs_att _ _ _ _ _ _ _ _ _ _ C).
  - intros b Hb. destruct (Hback _ _ _ HP Hb) as (b0 & Hb0 & (E1 & E2 & E3 & E4 & E5)%place_fields).
    destruct (cs_pin _ _ _ _ _ _ _ _ _ _ C _ Hb0) as (Hh & k & x & Hin & [V1 V2 V3 V4 V5]). rewrite <- E1. split; [done|]. exists k, x.
    split; [done|]. unfold bc_end in *. split; unfold bc_end; rewrite <- ?E1, <- ?E2, <- ?E3, <- ?E4, <- ?E5; done.
  - intros b j v Hb. destruct (Hback _ _ _ HA Hb) as (b0 & Hb0 & (E1 & E2 & E3 & E4 & E5)%place_fields). rewrite <- E1, <- E2, <- E3, <- E4.
    by apply (cs_seen _ _ _ _ _ _ _ _ _ _ C).
Qed.

(** Which membufs may be flushing. *)
Lemma cside_flushing F F' c m A h l P :
  cside srv ssize wr F c m A h l P →
  (∀ i mb, membufs c !! i = Some mb → mb_has Flushing mb = true → i ∈ F → i ∈ F') → cside srv ssize wr F' c m A h l P.
Proof.
  intros C HF. split; try apply C. intros i mb Hm Hf. eapply HF; [done|done|]. by apply (cs_flush _ _ _ _ _ _ _ _ _ _ C _ _ Hm).
Qed.

(** The same contents, more of them on the server. *)
Lemma cside_contents srv' ssize' wr' F c m A h l P :
  cside srv ssize wr F c m A h l P → (∀ o, file_byte srv' ssize' wr' o = file_byte srv ssize wr o) →
  (∀ o, is_Some (wr' o) → is_Some (wr o)) → cside srv' ssize' wr' F c m A h l P.
Proof.
  intros C Hf Hw. split; try apply C.
  - intros i mb o v ? ? ?. rewrite Hf. by eapply (cs_true _ _ _ _ _ _ _ _ _ _ C).
  - intros bc j v ? ? ?. rewrite Hf. by eapply (cs_seen _ _ _ _ _ _ _ _ _ _ C).
  - intros o Ho. apply (cs_wr _ _ _ _ _ _ _ _ _ _ C). by apply Hw.
Qed.

(** ** Taking chunks *)

Lemma occ_fmap_nodup i v : NoDup (vids v) → occ i (vids v) = if decide (i ∈ vids v) then 1 else 0.
Proof.
  intros Hnd. case_decide as Hi; [|by apply occ_notin]. pose proof (occ_nodup i _ Hnd). apply occ_pos in Hi. lia.
Qed.

Lemma ledger_took v c c' g h :
  NoDup (vids v) → (∀ bc, bc ∈ v → ∃ k, (k, bc) ∈ chunkmap c) → inv c → took DirtyLists.taken v c c' → ledger g h c →
  ledger (vids v ++ g) (vids v ++ h) c'.
Proof.
  intros Hnd Hin I [I' Hk Hh _ Hn _] [V R U H M L].
  assert (∀ i, i ∈ vids v → ∃ mb, membufs c !! i = Some mb) as Hmb.
  { intros i (bc & -> & Hb)%list_elem_of_fmap. destruct (Hin _ Hb) as (k & Hk'). destruct (inv_link _ _ I _ _ Hk') as (mb & ? & _). eauto. }
  assert (∀ i mb', membufs c' !! i = Some mb' → ∃ mb, membufs c !! i = Some mb ∧ mb' = if decide (i ∈ vids v) then DirtyLists.taken mb else mb) as Hback.
  { intros i mb'. rewrite Hh. fold (vids v). case_decide; [|eauto]. intros (mb & -> & ?)%fmap_Some. eauto. }
  split; rewrite ?Hk, ?Hn.
  - intros i. rewrite Hh. fold (vids v). intros [Hi|Hi]%elem_of_app; [destruct (Hmb _ Hi) as [mb ->]|destruct (V _ Hi) as [mb ->]]; by case_decide.
  - intros i mb' (mb & Hm & ->)%Hback. rewrite occ_app, (occ_fmap_nodup _ _ Hnd). specialize (R _ _ Hm). case_decide; simpl; lia.
  - intros i mb' (mb & Hm & ->)%Hback. rewrite occ_app, (occ_fmap_nodup _ _ Hnd). specialize (U _ _ Hm). case_decide; simpl; lia.
  - intros i mb' (mb & Hm & _)%Hback. by eapply H.
  - done.
  - intros i [Hi|?]%elem_of_app; [|by apply L]. destruct (Hmb _ Hi) as [mb Hm]. by eapply H.
Qed.

Lemma evolves_took v c c' : took DirtyLists.taken v c c' → evolves c c'.
Proof.
  intros [I' Hk Hh Hz Hn _]. split; [lia|done|]. intros i mb'. rewrite Hh. case_decide; [|left; eauto using mb_later_refl].
  intros (mb & Hm & ->)%fmap_Some. left. exists mb. split; [done|]. split; simpl; (done || lia).
Qed.

(** A chunk of the chunkmap is a view of itself. *)
Lemma entry_view c k bc : inv c → (k, bc) ∈ chunkmap c → is_view bc bc.
Proof. intros I Hin. destruct (inv_plain _ _ I _ _ Hin) as (_ & Hw & _). split; try done; lia. Qed.

(** The chunks of a query are held and pinned. *)
Lemma cside_took F c c' m A h l P v :
  cside srv ssize wr F c m A h l P → NoDup (vids v) → (∀ bc, bc ∈ v → ∃ k, (k, bc) ∈ chunkmap c) → took DirtyLists.taken v c c' →
  cside srv ssize wr F c' m (v ++ A) (vids v ++ h) l (v ++ P).
Proof.
  intros C Hnd Hin Ht. pose proof (cs_inv _ _ _ _ _ _ _ _ _ _ C) as I. pose proof (tk_inv _ _ _ _ Ht) as I'.
  assert (vids (v ++ A) = vids v ++ vids A) as Hva by apply fmap_app.
  eapply cside_evolves; [exact C|done| |by eapply evolves_took|eapply keeps_took; [done|by intros mb; split_and!]|..].
  - rewrite Hva. eapply ledger_took; try done. apply (cs_led _ _ _ _ _ _ _ _ _ _ C).
  - intros i. rewrite Hva, !occ_app. pose proof (cs_sub _ _ _ _ _ _ _ _ _ _ C i). lia.
  - intros i Hi. rewrite Hva. apply elem_of_app. right. by apply (cs_lref _ _ _ _ _ _ _ _ _ _ C).
  - intros bc [Hb|?]%elem_of_app; [right|by left]. destruct (Hin _ Hb) as (k & Hk).
    rewrite <- (tk_map _ _ _ _ Ht) in Hk. destruct (inv_link _ _ I' _ _ Hk) as (mb & Hm & [L1 L2 L3]). exists mb.
    unfold bc_end. split_and!; (done || lia).
  - intros bc [Hb|Hb]%elem_of_app.
    + split; [apply elem_of_app; left; by apply list_elem_of_fmap_2|]. destruct (Hin _ Hb) as (k & Hk). exists k, bc.
      rewrite (tk_map _ _ _ _ Ht). split; [done|by apply (entry_view c k)].
    + rewrite (tk_map _ _ _ _ Ht). destruct (cs_pin _ _ _ _ _ _ _ _ _ _ C _ Hb) as (Hh & Hx). split; [apply elem_of_app; by right|done].
Qed.

Lemma ledger_copy g h c bc : ledger g h c →
  wlp (bytes_chunk_copy bc) c (λ _ c', ledger (bc_alloc_buffer bc :: g) h c' ∧ evolves c c').
Proof.
  intros Ha%at_init. unfold bytes_chunk_copy. wlp_step. eapply wlp_mono; [by apply at_view|]. cbv beta. intros b s1 [_ H1]. by wlp_step.
Qed.

(** A copy of a pinned chunk that is the whole of its membuf. *)
Lemma cside_copy F c m A h l P bc :
  cside srv ssize wr F c m A h l P → place bc ∈ P → bc_is_whole bc = true → bc_is_new bc = false →
  wp (bytes_chunk_copy bc) c (λ b c', b = bc ∧ cside srv ssize wr F c' m (place bc :: A) h l P ∧ chunkmap c' = chunkmap c ∧
    ∃ mb, membufs c !! bc_alloc_buffer bc = Some mb ∧ replaced (bc_alloc_buffer bc) (mb_set_use_count (mb_use_count mb + 1) mb) c c' ∧
      cache_size c' = cache_size c).
Proof.
  intros C HP Hw Hn. pose proof (cs_inv _ _ _ _ _ _ _ _ _ _ C) as I.
  destruct (cs_pinned _ _ _ _ _ _ _ _ _ _ C _ HP) as (k & x & mb & Hin & Hv & Hm & [L1 L2 L3] & Hwf & Hiu).
  pose proof (proj1 (view_whole _ _ Hv) Hw) as [Vo Vl]. pose proof (view_boff _ _ Hv). cbn [place bc_set bc_alloc_buffer bc_offset bc_length bc_buffer_offset] in *. set (id := bc_alloc_buffer bc) in *.
  assert (linked bc mb) as Hlk by (split; lia). destruct (inv_mem _ _ I) as [Hnm Hfd]. pose proof (inv_refs _ _ I _ _ Hm) as Hr.
  destruct (bytes_chunk_copy_raw c bc mb) as (b & c' & Hrun & -> & Hu); try done; [lia|]. fold id in Hu.
  exists bc, c'. split; [done|]. split; [done|]. pose proof Hu as [_ Hh _ _ Hc Hnx _ _ _ Hz].
  split; [|split; [done|exists mb; by split]].
  assert (inv c') as I'.
  { eapply inv_update; [done|exact Hu|by apply mb_step_use_count|]. change (held_out ∅ id (mb_set_use_count _ mb)) with (held_out ∅ id mb). simpl. lia. }
  destruct (ledger_copy _ _ _ bc (cs_led _ _ _ _ _ _ _ _ _ _ C) _ _ Hrun) as [Ld' E].
  eapply cside_evolves; [exact C|done|done|done|by eapply keeps_updated|..].
  - intros i. pose proof (cs_sub _ _ _ _ _ _ _ _ _ _ C i). change (vids (place bc :: A)) with ([id] ++ vids A). rewrite occ_app.
    pose proof (occ_nonneg i [id]). lia.
  - intros i Hi. right. by apply (cs_lref _ _ _ _ _ _ _ _ _ _ C).
  - intros b [->|?]%elem_of_cons; [right|by left]. exists (mb_set_use_count (mb_use_count mb + 1) mb). fold id.
    rewrite Hh, lookup_insert_eq. unfold bc_end. simpl. split_and!; (done || lia).
  - intros b Hb. rewrite Hc. apply (cs_pin _ _ _ _ _ _ _ _ _ _ C _ Hb).
Qed.

(** ** Flags *)

(** The flags of a membuf become [w]; it stays as filled as it is. *)
Lemma cside_flag F c c' m A h l l' P id mb w :
  cside srv ssize wr F c m A h l P → mb_updated id mb (mb_set_flag w mb) c c' → inv c' →
  (has_flag w Locked = true ↔ id ∈ l') → (∀ i, i ≠ id → i ∈ l' ↔ i ∈ l) → NoDup l' → (id ∈ l' → id ∈ vids A) →
  (has_flag w Flushing = true → id ∈ F) → (unsaved (mb_set_flag w mb) = true → unsaved mb = true ∨ id ∈ ids (chunkmap c)) →
  (mb_has Dirty mb = true → has_flag w Dirty = true ∨ ∀ o, mb_offset mb ≤ o < mb_offset mb + mb_length mb → wr o = None) →
  has_flag w Uptodate = mb_has Uptodate mb → cside srv ssize wr F c' m A h l' P.
Proof.
  intros C [Hm Hh _ _ Hc Hn _ _ _ Hz] I' Hlk Hlo Hnd Hla Hf Hu Hd Hup.
  eapply cside_update; [exact C|exact Hm|exact Hh|done|done| |done|done|done|done|done|..]; simpl; try done.
  - rewrite Hz. pose proof (cs_size _ _ _ _ _ _ _ _ _ _ C). lia.
  - by apply (cs_inuse _ _ _ _ _ _ _ _ _ _ C).
  - apply (cs_sub _ _ _ _ _ _ _ _ _ _ C).
  - unfold mb_has at 1. simpl. rewrite Hup. intros ? o Ho. by apply (cs_up _ _ _ _ _ _ _ _ _ _ C id mb).
  - unfold mb_has at 1. simpl. rewrite Hup, Hz. intros ?. by apply (cs_fit _ _ _ _ _ _ _ _ _ _ C id).
  - intros bc Hb. left. split; [done|]. by apply (cs_pin _ _ _ _ _ _ _ _ _ _ C).
Qed.

(** The locks are as before. *)
Lemma cside_flag_kept F c c' m A h l P id mb w :
  cside srv ssize wr F c m A h l P → mb_updated id mb (mb_set_flag w mb) c c' → inv c' → has_flag w Locked = mb_has Locked mb →
  (has_flag w Flushing = true → id ∈ F) → (unsaved (mb_set_flag w mb) = true → unsaved mb = true ∨ id ∈ ids (chunkmap c)) →
  (mb_has Dirty mb = true → has_flag w Dirty = true ∨ ∀ o, mb_offset mb ≤ o < mb_offset mb + mb_length mb → wr o = None) →
  has_flag w Uptodate = mb_has Uptodate mb → cside srv ssize wr F c' m A h l P.
Proof.
  intros C Hu I' Hlk Hf Hun Hd Hup. eapply cside_flag; try done.
  - rewrite Hlk. apply (cs_lock _ _ _ _ _ _ _ _ _ _ C). apply (upd_lookup _ _ _ _ _ Hu).
  - apply (cs_nodup _ _ _ _ _ _ _ _ _ _ C).
  - apply (cs_lref _ _ _ _ _ _ _ _ _ _ C).
Qed.

(** Starting to flush. *)
Lemma cside_set_flushing F c m A h l P id mb :
  cside srv ssize wr F c m A h l P → membufs c !! id = Some mb → id ∈ h → id ∈ l → id ∉ F → id ∈ ids (chunkmap c) →
  mb_has Dirty mb = true → is_truncated mb = false → st c bytes_flushing + mb_length mb ≤ AZNFSC_MAX_FILE_SIZE →
  wp (set_flushing true id) c (λ _ c', cside srv ssize wr (id :: F) c' m A h l P ∧
    mb_updated id mb (mb_set_flag (or_flag (mb_flag mb) Flushing) mb) c c').
Proof.
  intros C Hm Hid Hl HF Hin Hd Ht Hroom. pose proof (cs_inv _ _ _ _ _ _ _ _ _ _ C) as I.
  destruct (cs_held _ _ _ _ _ _ _ _ _ _ C id Hid) as (mb0 & Hm0 & Hiu & Hwf). rewrite Hm in Hm0. injection Hm0 as <-.
  assert (is_locked mb = true) as Hlk by (by apply (cs_lock _ _ _ _ _ _ _ _ _ _ C _ _ Hm)).
  pose proof (cs_calm _ _ _ _ _ _ _ _ _ _ _ _ C Hm HF) as Hfl. destruct (wf_dirty _ Hwf Hd) as [Hup Hcp].
  assert (wp (set_flushing true id) c (λ _ _, True)) as ([] & c' & Hrun & _).
  { unfold set_flushing, put_membuf, stat_add. wp_step. eapply get_membuf_wp; [exact Hm|].
    wp_asserts ltac:(first [done|by rewrite Ht]). wp_step. apply is_dirty_wp; [done|]. unfold is_uptodate. rewrite Hd, Hup.
    wp_asserts done. repeat wp_step; [|done]. simpl. bumps. cmp. }
  destruct (set_flushing_spec true id c mb Hm Hfl _ _ Hrun) as (_ & _ & _ & _ & _ & _ & Hu).
  exists (), c'. split; [done|]. split; [|done]. apply (cside_flushing F (id :: F)) in C; [|intros; by right].
  eapply cside_flag_kept; [exact C|exact Hu|by eapply (set_flushing_inv ∅ c I true id mb)|..]; rewrite ?has_or_flag; simpl; try done.
  - by left.
  - by intros _; right.
  - by left.
Qed.

(** The WRITE of a chunk has ended: nothing written in its range is only in the cache. *)
Lemma cside_clear_dirty F c m A h l P id mb :
  cside srv ssize wr F c m A h l P → membufs c !! id = Some mb → id ∈ h → id ∈ l → mb_has Flushing mb = true → mb_has Dirty mb = true →
  (∀ o, mb_offset mb ≤ o < mb_offset mb + mb_length mb → wr o = None) →
  wp (clear_dirty id) c (λ _ c', cside srv ssize wr F c' m A h l P ∧
    mb_updated id mb (mb_set_flag (clear_flag (mb_flag mb) Dirty) mb) c c').
Proof.
  intros C Hm Hid Hl Hf Hd Hw. pose proof (cs_inv _ _ _ _ _ _ _ _ _ _ C) as I.
  destruct (cs_held _ _ _ _ _ _ _ _ _ _ C id Hid) as (mb0 & Hm0 & Hiu & Hwf). rewrite Hm in Hm0. injection Hm0 as <-.
  assert (is_locked mb = true) as Hlk by (by apply (cs_lock _ _ _ _ _ _ _ _ _ _ C _ _ Hm)).
  pose proof (inv_room _ _ _ _ I Hm bytes_dirty) as Hr. simpl in Hr. rewrite Hd in Hr.
  assert (wp (clear_dirty id) c (λ _ _, True)) as ([] & c' & Hrun & _).
  { unfold clear_dirty, put_membuf. wp_step. eapply get_membuf_wp; [exact Hm|]. wp_asserts done. wp_step. apply is_flushing_wp; [done|].
    rewrite Hf. wp_asserts done. do 2 wp_step. apply stat_sub_wp; simpl; (lia || done). }
  destruct (clear_dirty_spec id c mb Hm Hd _ _ Hrun) as (_ & _ & _ & Hu).
  exists (), c'. split; [done|]. split; [|done].
  eapply cside_flag_kept; [exact C|exact Hu|by eapply (clear_dirty_inv ∅ c I id mb)|..]; rewrite ?has_clear_flag; simpl; try done.
  - intros _. by apply (cs_flush _ _ _ _ _ _ _ _ _ _ C _ _ Hm).
  - intros _. left. unfold unsaved. by rewrite Hd.
  - by right.
Qed.

Lemma cside_clear_flushing F c m A h l P id mb :
  cside srv ssize wr F c m A h l P → membufs c !! id = Some mb → id ∈ h → id ∈ l → mb_has Flushing mb = true → mb_has Dirty mb = false →
  is_truncated mb = false →
  wp (clear_flushing id) c (λ _ c', cside srv ssize wr (filter (.≠ id) F) c' m A h l P ∧
    mb_updated id mb (mb_set_flag (clear_flag (mb_flag mb) Flushing) mb) c c').
Proof.
  intros C Hm Hid Hl Hf Hd Ht. pose proof (cs_inv _ _ _ _ _ _ _ _ _ _ C) as I.
  destruct (cs_held _ _ _ _ _ _ _ _ _ _ C id Hid) as (mb0 & Hm0 & Hiu & Hwf). rewrite Hm in Hm0. injection Hm0 as <-.
  assert (is_locked mb = true) as Hlk by (by apply (cs_lock _ _ _ _ _ _ _ _ _ _ C _ _ Hm)).
  pose proof (inv_room _ _ _ _ I Hm bytes_flushing) as Hr. simpl in Hr. rewrite Hf in Hr.
  assert (wp (clear_flushing id) c (λ _ _, True)) as ([] & c' & Hrun & _).
  { unfold clear_flushing, put_membuf. wp_step. eapply get_membuf_wp; [exact Hm|]. wp_asserts ltac:(first [done|by rewrite Ht]).
    wp_step. apply is_dirty_wp; [done|]. rewrite Hd. wp_asserts done. do 2 wp_step. apply stat_sub_wp; simpl; (lia || done). }
  destruct (clear_flushing_spec id c _ _ Hrun) as (mb0 & _ & _ & _ & _ & Hu).
  assert (mb0 = mb) as -> by (pose proof (upd_lookup _ _ _ _ _ Hu); congruence). exists (), c'. split; [done|]. split; [|done].
  assert (cside srv ssize wr F c' m A h l P) as C'.
  { eapply cside_flag_kept; [exact C|exact Hu|by eapply (clear_flushing_inv ∅ c I id)|..]; rewrite ?has_clear_flag; simpl; try done.
    - unfold unsaved, mb_has. simpl. rewrite !has_clear_flag. by left.
    - by left. }
  eapply cside_flushing; [exact C'|]. intros i x Hi Hfi HiF. apply list_elem_of_filter. split; [|done]. intros ->.
  rewrite (upd_heap _ _ _ _ _ Hu), lookup_insert_eq in Hi. injection Hi as <-. unfold mb_has in Hfi. simpl in Hfi. by rewrite has_clear_flag in Hfi.
Qed.

(** An unstable write needs a commit. *)
Lemma cside_set_commit_pending F c m A h l P id mb :
  cside srv ssize wr F c m A h l P → membufs c !! id = Some mb → id ∈ h → id ∈ l → id ∈ ids (chunkmap c) →
  mb_has Uptodate mb = true → mb_has Flushing mb = false → mb_has Dirty mb = false → mb_has CommitPending mb = false →
  st c bytes_commit_pending + mb_length mb ≤ AZNFSC_MAX_FILE_SIZE →
  wp (set_commit_pending id) c (λ _ c', cside srv ssize wr F c' m A h l P ∧
    mb_updated id mb (mb_set_flag (or_flag (mb_flag mb) CommitPending) mb) c c').
Proof.
  intros C Hm Hid Hl Hin Hup Hf Hd Hcp Hroom. pose proof (cs_inv _ _ _ _ _ _ _ _ _ _ C) as I.
  destruct (cs_held _ _ _ _ _ _ _ _ _ _ C id Hid) as (mb0 & Hm0 & Hiu & Hwf). rewrite Hm in Hm0. injection Hm0 as <-.
  assert (is_locked mb = true) as Hlk by (by apply (cs_lock _ _ _ _ _ _ _ _ _ _ C _ _ Hm)).
  assert (wp (set_commit_pending id) c (λ _ _, True)) as ([] & c' & Hrun & _).
  { unfold set_commit_pending, put_membuf, stat_add. wp_step. eapply get_membuf_wp; [exact Hm|]. wp_asserts done.
    wp_step. apply is_dirty_wp; [done|]. rewrite Hd. wp_asserts done. wp_step. apply is_flushing_wp; [done|]. rewrite Hf, Hcp.
    wp_asserts done. repeat wp_step; [|done]. simpl. bumps. cmp. }
  destruct (set_commit_pending_spec id c _ _ Hrun) as (mb0 & _ & _ & _ & _ & _ & _ & Hu).
  assert (mb0 = mb) as -> by (pose proof (upd_lookup _ _ _ _ _ Hu); congruence). exists (), c'. split; [done|]. split; [|done].
  eapply cside_flag_kept; [exact C|exact Hu|by eapply (set_commit_pending_inv ∅ c I id)|..]; rewrite ?has_or_flag; simpl; try done.
  - unfold mb_has in Hf. congruence.
  - by intros _; right.
  - by left.
Qed.

Lemma upd_replaced id mb mb' c c' : mb_updated id mb mb' c c' → membufs c !! id = Some mb ∧ replaced id mb' c c' ∧ cache_size c' = cache_size c.
Proof. by intros []. Qed.

(** The flags of a membuf whose WRITE has ended. *)
Definition written_flag (unstable : bool) (w : Z) : Z :=
  let w' := clear_flag (clear_flag w Dirty) Flushing in if unstable then or_flag w' CommitPending else w'.

Lemma written_side F c m A h l P id mb unstable :
  cside srv ssize wr F c m A h l P → membufs c !! id = Some mb → id ∈ h → id ∈ l → id ∈ ids (chunkmap c) →
  mb_has Flushing mb = true → mb_has Dirty mb = true → is_truncated mb = false →
  (∀ o, mb_offset mb ≤ o < mb_offset mb + mb_length mb → wr o = None) →
  wp (written unstable id) c (λ _ c', cside srv ssize wr (filter (.≠ id) F) c' m A h l P ∧
    mb_updated id mb (mb_set_flag (written_flag unstable (mb_flag mb)) mb) c c').
Proof.
  intros C Hm Hid Hl Hin Hf Hd Ht Hw. pose proof (cs_inv _ _ _ _ _ _ _ _ _ _ C) as I.
  destruct (inv_heap _ _ I _ _ Hm) as [Hwf _]. destruct (wf_dirty _ Hwf Hd) as [Hup Hcp].
  unfold written. wp_step. eapply wp_mono; [by eapply cside_clear_dirty|]. cbv beta. intros _ c1 [C1 U1].
  pose proof (upd_this _ _ _ _ _ U1) as Hm1. set (mb1 := mb_set_flag _ mb) in *.
  assert (mb_has Flushing mb1 = true) as Hf1 by (unfold mb_has, mb1; simpl; rewrite has_clear_flag; exact Hf).
  assert (mb_has Dirty mb1 = false) as Hd1 by (unfold mb_has, mb1; simpl; by rewrite has_clear_flag).
  assert (is_truncated mb1 = false) as Ht1 by (unfold is_truncated, mb_has, mb1 in *; simpl; rewrite has_clear_flag; exact Ht).
  wp_step. eapply wp_mono; [by eapply cside_clear_flushing|]. cbv beta. intros _ c2 [C2 U2].
  pose proof (upd_this _ _ _ _ _ U2) as Hm2. set (mb2 := mb_set_flag _ mb1) in *.
  pose proof (mb_updated_trans _ _ _ _ _ _ _ U1 U2) as U12.
  destruct unstable; [|by wp_step].
  assert (∀ g, mb_has g mb2 = negb (flag_eqb Flushing g) && negb (flag_eqb Dirty g) && mb_has g mb) as Hg.
  { intros g. unfold mb_has, mb2, mb1. simpl. rewrite !has_clear_flag. by rewrite andb_assoc. }
  assert (id ∈ ids (chunkmap c2)) as Hin2 by by rewrite (upd_chunkmap _ _ _ _ _ U12).
  eapply wp_mono.
  { eapply (cside_set_commit_pending _ _ _ _ _ _ _ id mb2); [exact C2|done|done|done|done|rewrite Hg..|]; simpl; try done.
    pose proof (cs_inv _ _ _ _ _ _ _ _ _ _ C2) as I2. rewrite (inv_st _ _ I2) by done.
    eapply (flag_room c2 id mb2 CommitPending); [done|done|done|by rewrite Hg|]. intros i x Hx Hc.
    apply (cs_unsaved _ _ _ _ _ _ _ _ _ _ C2 _ _ Hx). unfold unsaved. rewrite Hc. apply orb_true_r. }
  cbv beta. intros _ c3 [C3 U3]. split; [done|]. by eapply mb_updated_trans.
Qed.

Lemma written_clean unstable w : has_flag (written_flag unstable w) Dirty = false ∧ has_flag (written_flag unstable w) Locked = has_flag w Locked.
Proof. unfold written_flag. destruct unstable; rewrite ?has_or_flag, !has_clear_flag; by simpl. Qed.
End contents.
