(* ===== verification/FlushInv.v ===== *)
(** * The invariant of the write-back

    [core]: every chunk in the queue of a [bc_iovec] is locked, in use and flushing, its
    iovec is what is left of it, and what is not left is on the server; the chunks that
    [sync_membufs()] has not visited yet are dirty; and all of them, with what the server
    has ([server_file]), make up the same file as before. *)
From S2P Require Import Prelude CacheState Membuf MembufSpec ChunkMap FileCache CacheInv MembufInv CacheOps Purge ScanGet CacheGet ScanRelease CacheRelease CacheSize DirtyLists CacheSteps CacheFrame Readahead ReadPath ReadCache ReadInv WritePath WriteCache WriteBack FlushCache.

(** ** The server's copy of the file *)

(** A WRITE replaces bytes and may extend the file; a gap reads as zeros. *)
Definition write_at (f : (Z → Z) * Z) (r : Z * list (option Z)) : (Z → Z) * Z :=
  let n := Z.of_nat (length r.2) in
  (λ x, if decide (r.1 ≤ x < r.1 + n) then default 0 (mjoin (r.2 !! Z.to_nat (x - r.1))) else if x <? f.2 then f.1 x else 0,
   if n =? 0 then f.2 else Z.max f.2 (r.1 + n)).

(** The server's file after the WRITEs [l]. *)
Definition server_file (f : (Z → Z) * Z) (l : list (Z * list (option Z))) : (Z → Z) * Z := foldl write_at f l.

(** A byte of the file as the application sees it is on the server. *)
Definition on_server (file : Z → Z) (f : (Z → Z) * Z) (o : Z) : Prop := o < f.2 ∧ f.1 o = file o.

(** The bytes [o, o + n) of [file], as a WRITE carries them. *)
Definition file_bytes (file : Z → Z) (o n : Z) : list (option Z) := (λ x, Some (file x)) <$> seqZ o n.

Lemma file_bytes_length file o n : 0 ≤ n → Z.of_nat (length (file_bytes file o n)) = n.
Proof. intros. unfold file_bytes. rewrite length_fmap, length_seqZ. lia. Qed.

Lemma file_bytes_lookup file o n x : o ≤ x < o + n → file_bytes file o n !! Z.to_nat (x - o) = Some (Some (file x)).
Proof.
  intros Hx. unfold file_bytes. rewrite list_lookup_fmap. rewrite lookup_seqZ_lt by lia. simpl. do 3 f_equal. lia.
Qed.

Lemma file_bytes_app file o n n' : 0 ≤ n → 0 ≤ n' → file_bytes file o n ++ file_bytes file (o + n) n' = file_bytes file o (n + n').
Proof. intros. unfold file_bytes. by rewrite <- fmap_app, <- seqZ_app. Qed.

Lemma file_bytes_take file o n n' : 0 ≤ n ≤ n' → take (Z.to_nat n) (file_bytes file o n') = file_bytes file o n.
Proof.
  intros Hn. replace n' with (n + (n' - n)) by lia. rewrite <- file_bytes_app by lia.
  rewrite take_app_length'; [done|]. pose proof (file_bytes_length file o n). lia.
Qed.

Section server.
Context (file : Z → Z) (f : (Z → Z) * Z) (o n : Z) (Hn : 0 < n).

Abbreviation f' := (write_at f (o, file_bytes file o n)).

Lemma write_at_in x : o ≤ x < o + n → on_server file f' x.
Proof.
  intros Hx. unfold on_server, write_at. simpl. rewrite file_bytes_length by lia. rewrite (proj2 (Z.eqb_neq n 0)) by lia.
  rewrite decide_True by done. rewrite file_bytes_lookup by done. split; [lia|done].
Qed.

Lemma write_at_keeps x : on_server file f x → on_server file f' x.
Proof.
  intros [Hx He]. destruct (decide (o ≤ x < o + n)) as [?|Hout]; [by apply write_at_in|].
  unfold on_server, write_at. simpl. rewrite file_bytes_length by lia. rewrite (proj2 (Z.eqb_neq n 0)) by lia.
  rewrite decide_False by done. rewrite (proj2 (Z.ltb_lt _ _) Hx). split; [lia|done].
Qed.

(** The contents of the file do not change when the server gets a part of them. *)
Lemma file_byte_write wr x : (∀ y, file_byte f.1 f.2 wr y = file y) → file_byte f'.1 f'.2 wr x = file x.
Proof.
  intros Hf. destruct (decide (o ≤ x < o + n)) as [Hx|Hx].
  - pose proof (Hf x) as Hfx. destruct (write_at_in x Hx) as [Hlt He]. unfold file_byte in *. destruct (wr x); [done|].
    by rewrite (proj2 (Z.ltb_lt _ _) Hlt).
  - rewrite <- Hf. unfold file_byte. destruct (wr x); [done|]. unfold write_at. simpl. rewrite file_bytes_length by lia.
    rewrite (proj2 (Z.eqb_neq n 0)) by lia. rewrite decide_False by done.
    destruct (Z.ltb_spec x f.2), (Z.ltb_spec x (Z.max f.2 (o + n))); try done; lia.
Qed.
End server.

(** Written bytes that the server has can be forgotten. *)
Definition forget (a e : Z) (wr : Z → option Z) : Z → option Z := λ o, if decide (a ≤ o < e) then None else wr o.

Lemma file_byte_forget file f wr a e x :
  (∀ y, file_byte f.1 f.2 wr y = file y) → (∀ y, a ≤ y < e → on_server file f y) → file_byte f.1 f.2 (forget a e wr) x = file x.
Proof.
  intros Hf Hs. unfold file_byte, forget. case_decide as Hx; [|apply Hf]. destruct (Hs x Hx) as [Hlt ->].
  by rewrite (proj2 (Z.ltb_lt _ _) Hlt).
Qed.

Lemma forget_some a e wr o : is_Some (forget a e wr o) → is_Some (wr o).
Proof. unfold forget. case_decide; [by intros [? ?]|done]. Qed.

(** ** bc_iovec *)

(** What is left of a chunk to be written. *)
Definition left_of (bc : bytes_chunk) : bytes_chunk :=
  Chunk (bc_alloc_buffer bc) (bc_offset bc + bc_pvt bc) (bc_length bc - bc_pvt bc) (bc_buffer_offset bc + bc_pvt bc) 0 0
    (bc_is_whole bc) (bc_is_new bc).

Definition full_chunk (bc : bytes_chunk) : Prop := bc_is_whole bc = true ∧ bc_is_new bc = false.

Record biov_ok (b : bc_iovec) : Prop := {
  bo_cnt : iovcnt b = Z.of_nat (length (bcq b));
  bo_few : iovcnt b ≤ BC_IOVEC_MAX_VECTORS;
  bo_iov : iov b = (λ bc, iovec_of (left_of bc)) <$> bcq b;
  bo_cov : covers (left_of <$> bcq b) (io_offset b) (io_offset b + io_length b);
  bo_pvt : Forall (λ bc, 0 ≤ bc_pvt bc) (bcq b);
  bo_full : Forall full_chunk (bcq b);
  bo_orig : orig_offset b + orig_length b = io_offset b + io_length b;
  bo_lo : 0 ≤ orig_offset b ≤ io_offset b;
}.

(** A membuf that holds data to be written; [f]: it is being flushed. *)
Definition marked (f : bool) (c : cache) (i : nat) : Prop :=
  ∃ mb, membufs c !! i = Some mb ∧ mb_has Dirty mb = true ∧ mb_has Truncated mb = false ∧ mb_has Flushing mb = f.

Lemma marked_quiet f (K : nat → Prop) c c' i : quiet K c c' → K i → marked f c i → marked f c' i.
Proof.
  intros Q Hi (mb & Hm & H1 & H2 & H3). destruct (qt_flag _ _ _ Q _ _ Hi Hm) as (mb' & Hm' & Hf). exists mb'.
  unfold mb_has in *. by rewrite Hf.
Qed.

Definition queue (L : list bc_iovec) : list bytes_chunk := L ≫= bcq.

Section core.
Context (wsize_adj : Z) (file : Z → Z) (f0 : (Z → Z) * Z).

(** A chunk that [sync_membufs()] is going to write. *)
Definition ready (c : cache) (bc : bytes_chunk) : Prop :=
  marked false c (bc_alloc_buffer bc) ∧ full_chunk bc ∧ bc_pvt bc = 0 ∧ bc_length bc ≤ wsize_adj.

(** [L] are the [bc_iovec]s, [dn ++ td] the vector of [sync_membufs()]; [all]: no other
    data is dirty. *)
Record core (all : bool) (wr : Z → option Z) (sv : list (Z * list (option Z))) (L : list bc_iovec) (dn td : list bytes_chunk)
    (c : cache) (m : memory) : Prop := {
  co_side : cside (server_file f0 sv).1 (server_file f0 sv).2 wr (vids (queue L)) c m
    (places (queue L ++ td ++ dn)) (vids (queue L ++ td)) (vids (queue L)) (places (queue L ++ td));
  co_file : ∀ o, file_byte (server_file f0 sv).1 (server_file f0 sv).2 wr o = file o;
  co_biov : Forall biov_ok L;
  co_flushing : ∀ bc, bc ∈ queue L → marked true c (bc_alloc_buffer bc);
  co_ready : ∀ bc, bc ∈ td → ready c bc;
  co_nodup : NoDup (vids (queue L ++ td));
  co_sent : ∀ bc o, bc ∈ queue L → bc_offset bc ≤ o < bc_offset bc + bc_pvt bc → on_server file (server_file f0 sv) o;
  co_small : ∀ i mb, membufs c !! i = Some mb → mb_has Dirty mb = true → mb_length mb ≤ wsize_adj;
  co_end : cache_size c < AZNFSC_MAX_FILE_SIZE;
  co_all : all = true → ∀ i mb, membufs c !! i = Some mb → mb_has Dirty mb = true → i ∈ vids (queue L ++ td);
}.

(** The order of the [bc_iovec]s does not matter. *)
Lemma core_perm all wr sv L L' dn td c m : L ≡ₚ L' → core all wr sv L dn td c m → core all wr sv L' dn td c m.
Proof.
  intros HL [C Fl B F R N S Sm E A]. assert (queue L ≡ₚ queue L') as HQ by (unfold queue; by rewrite HL).
  assert (vids (queue L) ≡ₚ vids (queue L')) as HV by (unfold vids; by rewrite HQ).
  assert (vids (queue L ++ td) ≡ₚ vids (queue L' ++ td)) as HVt by (unfold vids; by rewrite HQ).
  split; try done.
  - apply (cside_flushing _ _ _ _ (vids (queue L'))) in C; [|intros i mb _ _; by rewrite HV].
    eapply cside_perm; [..|exact C]; rewrite ?HV, ?HVt; try done; unfold places; by rewrite HQ.
  - by rewrite <- HL.
  - intros bc. rewrite <- HQ. apply F.
  - by rewrite <- HVt.
  - intros bc o. rewrite <- HQ. apply S.
  - intros Ha i mb Hm Hd. rewrite <- HVt. by eapply A.
Qed.

(** ** Facts about the chunks *)
Section facts.
Context (all : bool) (wr : Z → option Z) (sv : list (Z * list (option Z))) (L : list bc_iovec) (dn td : list bytes_chunk) (c : cache) (m : memory).
Context (W : core all wr sv L dn td c m).

Lemma core_inv : inv c.
Proof. apply (cs_inv _ _ _ _ _ _ _ _ _ _ (co_side _ _ _ _ _ _ _ _ W)). Qed.

Lemma queue_full bc : bc ∈ queue L → full_chunk bc.
Proof.
  intros (b & Hbc & Hb)%list_elem_of_bind. pose proof (co_biov _ _ _ _ _ _ _ _ W) as HB. rewrite Forall_forall in HB.
  pose proof (bo_full _ (HB _ Hb)) as Hf. rewrite Forall_forall in Hf. by apply Hf.
Qed.

Lemma held_full bc : bc ∈ queue L ++ td → full_chunk bc.
Proof. intros [Hb|Hb]%elem_of_app; [by apply queue_full|]. apply (co_ready _ _ _ _ _ _ _ _ W _ Hb). Qed.

(** A chunk that is held is the whole of its membuf, which is in the chunkmap and in use. *)
Lemma held_mb bc : bc ∈ queue L ++ td →
  ∃ mb, membufs c !! bc_alloc_buffer bc = Some mb ∧ linked bc mb ∧ mb_wf mb ∧ is_inuse mb = true ∧ bc_alloc_buffer bc ∈ ids (chunkmap c).
Proof.
  intros Hb. destruct (held_full _ Hb) as [Hw _].
  assert (place bc ∈ places (queue L ++ td)) as Hp by by apply list_elem_of_fmap_2.
  destruct (cs_pinned _ _ _ _ _ _ _ _ _ _ (co_side _ _ _ _ _ _ _ _ W) _ Hp) as (k & x & mb & Hin & Hv & Hm & [L1 L2 L3] & Hwf & Hiu).
  exists mb. split; [done|]. pose proof (proj1 (view_whole _ _ Hv) Hw) as [Vo Vl]. pose proof (view_boff _ _ Hv). simpl in *.
  split_and!; try done; [split; lia|]. apply elem_of_ids. exists k, x. split; [done|]. by rewrite <- (view_alloc _ _ Hv).
Qed.

(** A chunk that is being flushed. *)
Lemma queue_mb bc : bc ∈ queue L →
  ∃ mb, membufs c !! bc_alloc_buffer bc = Some mb ∧ linked bc mb ∧ mb_wf mb ∧ is_inuse mb = true ∧ is_locked mb = true ∧
    bc_alloc_buffer bc ∈ ids (chunkmap c) ∧ mb_has Flushing mb = true ∧ mb_has Dirty mb = true ∧ is_truncated mb = false.
Proof.
  intros Hb. destruct (held_mb bc) as (mb & Hm & Hl & Hwf & Hiu & Hin); [apply elem_of_app; by left|].
  destruct (co_flushing _ _ _ _ _ _ _ _ W _ Hb) as (mb' & Hm' & Hd & Ht & Hf). assert (mb' = mb) as -> by congruence.
  exists mb. split_and!; try done. by apply (wf_flushing _ Hwf) in Hf as (_ & ? & _).
Qed.

(** The bytes of a flushing chunk in its buffer are those of the file. *)
Lemma queue_byte bc o : bc ∈ queue L → bc_offset bc ≤ o < bc_end bc →
  m (bc_alloc_buffer bc) (bc_buffer_offset bc + (o - bc_offset bc)) = Some (file o).
Proof.
  intros Hb Ho. destruct (queue_mb _ Hb) as (mb & Hm & [L1 L2 L3] & Hwf & _ & _ & _ & _ & Hd & _).
  destruct (wf_dirty _ Hwf Hd) as [Hup _]. unfold bc_end in Ho. pose proof (co_side _ _ _ _ _ _ _ _ W) as C.
  destruct (cs_up _ _ _ _ _ _ _ _ _ _ C _ _ o Hm Hup ltac:(lia)) as [v Hv].
  replace (bc_buffer_offset bc + (o - bc_offset bc)) with (o - mb_initial_offset mb) by lia. rewrite Hv. f_equal.
  rewrite <- (co_file _ _ _ _ _ _ _ _ W). eapply (cs_true _ _ _ _ _ _ _ _ _ _ C); [done| |done]. lia.
Qed.

Lemma iov_bytes_cons v l : iov_bytes m (v :: l) = ((λ j, m (iov_buffer v) (iov_index v + j)) <$> seqZ 0 (iov_len v)) ++ iov_bytes m l.
Proof. done. Qed.

Lemma iov_bytes_left q a e : (∀ bc, bc ∈ q → bc ∈ queue L ∧ 0 ≤ bc_pvt bc) → covers (left_of <$> q) a e →
  iov_bytes m ((λ bc, iovec_of (left_of bc)) <$> q) = file_bytes file a (e - a).
Proof.
  revert a. induction q as [|bc q IH]; intros a Hq Hc.
  - simpl in Hc. subst. unfold file_bytes. by rewrite Z.sub_diag.
  - change (covers (left_of bc :: (left_of <$> q)) a e) in Hc.
    change (iov_bytes m (iovec_of (left_of bc) :: ((λ bc, iovec_of (left_of bc)) <$> q)) = file_bytes file a (e - a)).
    destruct Hc as (Ha & Hl & Hc). pose proof (covers_le _ _ _ Hc) as Hle.
    unfold bc_end in Hc, Hle. cbn [left_of bc_offset bc_length] in *. rewrite iov_bytes_cons. cbn [iovec_of left_of iov_buffer iov_index iov_len bc_alloc_buffer bc_buffer_offset bc_length].
    rewrite (IH _ ltac:(intros; apply Hq; by right) Hc). destruct (Hq bc) as [Hb Hp]; [by left|].
    replace (e - a) with ((bc_length bc - bc_pvt bc) + (e - a - (bc_length bc - bc_pvt bc))) by lia.
    rewrite <- file_bytes_app by lia. f_equal; [|f_equal; lia].
    unfold file_bytes. apply list_eq. intros i. rewrite !list_lookup_fmap.
    destruct (decide (Z.of_nat i < bc_length bc - bc_pvt bc)); [|by rewrite !lookup_seqZ_ge by lia].
    rewrite !lookup_seqZ_lt by lia. simpl. f_equal. rewrite <- (queue_byte bc); [f_equal; lia|done|unfold bc_end; lia].
Qed.

(** What the WRITE of a [bc_iovec] carries. *)
Lemma biov_bytes b : b ∈ L → iov_bytes m (iov b) = file_bytes file (io_offset b) (io_length b).
Proof.
  intros Hb. pose proof (co_biov _ _ _ _ _ _ _ _ W) as HB. rewrite Forall_forall in HB. pose proof (HB _ Hb) as [_ _ Hiov Hcov Hpvt _ _ _].
  rewrite Hiov, (iov_bytes_left (bcq b) (io_offset b) (io_offset b + io_length b)); [f_equal; lia| |done].
  intros bc Hbc. split; [apply list_elem_of_bind; eauto|]. rewrite Forall_forall in Hpvt. by apply Hpvt.
Qed.
End facts.

(** ** A chunk that has been written *)

Lemma wp_with_cache {X} (f : MC X) w (Q : X → bstate → Prop) :
  wp f (filecache w) (λ a c, Q a (set_filecache c w)) → wp (with_cache f) w Q.
Proof. intros (a & c & Hf & HQ). exists a, (set_filecache c w). split; [|done]. unfold with_cache. by rewrite Hf. Qed.

Lemma set_filecache_same w : set_filecache (filecache w) w = w.
Proof. by destruct w. Qed.

(** Operations on the cache one after the other. *)
Lemma wp_seq3 {X Y Z'} (f : MC X) (g : MC Y) (h : MC Z') c w (Q : Z' → bstate → Prop) :
  wp (do_ f; do_ g; h) c (λ z c', Q z (set_filecache c' w)) → wp (do_ with_cache f; do_ with_cache g; with_cache h) (set_filecache c w) Q.
Proof.
  intros (z & c' & Hrun & HQ). unfold bind in Hrun.
  destruct (f c) as [[x c1]|] eqn:E1; [|done]. destruct (g c1) as [[y c2]|] eqn:E2; [|done].
  exists z, (set_filecache c' w). split; [|done]. unfold bind, with_cache. simpl. rewrite E1. simpl. rewrite E2. simpl. by rewrite Hrun.
Qed.

(** What remains of [cside] when the first chunk of the queue is let go. *)
Lemma release_chunk srv ssize wr F c m A h l P bc mb :
  cside srv ssize wr F c m (bc :: A) (bc_alloc_buffer bc :: h) (bc_alloc_buffer bc :: l) P → membufs c !! bc_alloc_buffer bc = Some mb →
  bc_alloc_buffer bc ∉ h → bc_alloc_buffer bc ∉ F → (∀ i, i ∈ l → i ∈ h) → (∀ i, occ i h ≤ occ i (vids A)) →
  mb_has Dirty mb = false →
  wp (do_ clear_locked (bc_alloc_buffer bc); do_ clear_inuse (bc_alloc_buffer bc); bytes_chunk_dtor bc) c (λ _ c',
    cside srv ssize wr F c' m A h l (filter (λ x, bc_alloc_buffer x ∈ h) P) ∧ quiet (λ i, i ∈ h) c c' ∧
    ∀ mb', membufs c' !! bc_alloc_buffer bc = Some mb' → mb_has Dirty mb' = false).
Proof.
  intros C Hm Hh HF Hlh Hocc Hd. set (id := bc_alloc_buffer bc) in *.
  wp_step. eapply wp_mono; [eapply cside_clear_locked; [exact C|by left|done]|].
  cbv beta. intros _ c1 (C1 & mb0 & Hm0 & R1 & Z1). assert (mb0 = mb) as -> by congruence. set (mb1 := mb_set_flag _ mb) in *.
  assert (membufs c1 !! id = Some mb1) as Hm1 by (destruct R1 as [-> _]; apply lookup_insert_eq).
  wp_step. eapply wp_mono.
  { eapply (cside_clear_inuse _ _ _ _ _ _ _ _ _ _ (filter (λ x, bc_alloc_buffer x ∈ h) P) id C1); [done|].
    intros x [Hx ?]%list_elem_of_filter. done. }
  cbv beta. intros _ c2 (C2 & mb2 & Hm2 & R2 & Z2). assert (mb2 = mb1) as -> by congruence. set (mb2 := mb_set_inuse _ mb1) in *.
  assert (membufs c2 !! id = Some mb2) as Hm2' by (destruct R2 as [-> _]; apply lookup_insert_eq).
  eapply wp_mono; [eapply cside_drop; [exact C2|done|done]|]. cbv beta. intros _ c3 (C3 & E3 & _). split; [done|].
  assert (mb_has Dirty mb2 = false) as Hd2 by (unfold mb_has, mb2, mb1; simpl; rewrite has_clear_flag; exact Hd).
  split.
  - eapply quiet_trans; [eapply (quiet_updated _ id mb mb1); try done; unfold mb_has, mb1; simpl; rewrite ?has_clear_flag; simpl; (done || lia)|].
    eapply quiet_trans; [eapply (quiet_updated _ id mb1 mb2); try done; simpl; lia|].
    eapply quiet_evolves; [apply C2|done|]. intros i Hi. apply (ld_live _ _ _ (cs_led _ _ _ _ _ _ _ _ _ _ C3)).
    apply occ_pos. apply occ_pos in Hi. pose proof (Hocc i). lia.
  - intros y Hy. destruct (ev_mb _ _ E3 _ _ Hy) as [(mb3 & Hm3 & Hl)|[_ Hz]].
    + assert (mb3 = mb2) as -> by congruence. unfold mb_has in *. by rewrite (lt_flag _ _ Hl).
    + unfold mb_has. by rewrite Hz, has_flag_0.
Qed.

Lemma occ_sub_cons i id h l : occ i (id :: h) ≤ occ i (id :: l) → occ i h ≤ occ i l.
Proof. unfold occ. simpl. lia. Qed.

(** The core without the first chunk of its queue. *)
Lemma core_popped all wr wr' sv b L dn td c c' m bc q' :
  core all wr sv (b :: L) dn td c m → bcq b = bc :: q' →
  cside (server_file f0 sv).1 (server_file f0 sv).2 wr' (vids (q' ++ queue L)) c' m
    (places ((q' ++ queue L) ++ td ++ dn)) (vids ((q' ++ queue L) ++ td)) (vids (q' ++ queue L)) (places ((q' ++ queue L) ++ td)) →
  (∀ o, file_byte (server_file f0 sv).1 (server_file f0 sv).2 wr' o = file o) →
  quiet (λ i, i ∈ vids ((q' ++ queue L) ++ td)) c c' →
  (∀ mb', membufs c' !! bc_alloc_buffer bc = Some mb' → mb_has Dirty mb' = false) →
  core all wr' sv (popped (bc_length bc - bc_pvt bc) b :: L) dn td c' m.
Proof.
  intros W Hq C' Hf Q Hgone. pose proof W as [C Fl B F R N S Sm E A].
  assert (queue (b :: L) = bc :: q' ++ queue L) as HQ by (unfold queue; simpl; by rewrite Hq).
  assert (queue (popped (bc_length bc - bc_pvt bc) b :: L) = q' ++ queue L) as HQ' by (unfold queue; simpl; by rewrite Hq).
  rewrite HQ in F, N, S, A. apply Forall_cons in B as [Bb BL].
  assert (∀ i x, i ∈ vids ((q' ++ queue L) ++ td) → marked x c i → marked x c' i) as Hmark by (intros; by eapply marked_quiet).
  split; rewrite ?HQ'; try done.
  - apply Forall_cons. split; [|done]. destruct Bb as [B1 B2 B3 B4 B5 B6 B7 B8]. rewrite Hq in *. destruct B4 as (H1 & H2 & H3).
    apply Forall_cons in B5 as [? ?]. apply Forall_cons in B6 as [? ?].
    split; unfold popped; simpl; rewrite ?Hq, ?B3; simpl in *; try done; try lia.
    unfold bc_end in H3. simpl in H3. replace (io_offset b + (bc_length bc - bc_pvt bc)) with (bc_offset bc + bc_pvt bc + (bc_length bc - bc_pvt bc)) by lia.
    replace (bc_offset bc + bc_pvt bc + (bc_length bc - bc_pvt bc) + (io_length b - (bc_length bc - bc_pvt bc))) with (io_offset b + io_length b) by lia. done.
  - intros x Hx. apply Hmark; [apply list_elem_of_fmap_2, elem_of_app; by left|]. apply F. by right.
  - intros x Hx. destruct (R _ Hx) as (? & ? & ?). split; [|done]. apply Hmark; [apply list_elem_of_fmap_2, elem_of_app; by right|done].
  - by apply NoDup_cons in N as [_ ?].
  - intros x o Hx. apply S. by right.
  - intros i mb Hm Hd. destruct (qt_dirt _ _ _ Q _ _ Hm Hd) as (mb0 & Hm0 & Hd0 & Hl). specialize (Sm _ _ Hm0 Hd0). lia.
  - rewrite (qt_size _ _ _ Q). done.
  - intros Ha i mb Hm Hd. destruct (qt_dirt _ _ _ Q _ _ Hm Hd) as (mb0 & Hm0 & Hd0 & _).
    specialize (A Ha _ _ Hm0 Hd0). change (vids ((bc :: q' ++ queue L) ++ td)) with (bc_alloc_buffer bc :: vids ((q' ++ queue L) ++ td)) in A.
    apply elem_of_cons in A as [->|?]; [|done]. by rewrite (Hgone _ Hm) in Hd.
Qed.

(** The end of the WRITE of a chunk: the server has all of it. *)
Lemma core_pop all wr sv b L dn td w bc q' unstable :
  core all wr sv (b :: L) dn td (filecache w) (buffers w) → bcq b = bc :: q' →
  (∀ o, bc_offset bc + bc_pvt bc ≤ o < bc_end bc → on_server file (server_file f0 sv) o) →
  wp (pop_bc (written unstable) bc) w (λ _ w', ∃ c' wr', w' = set_filecache c' w ∧
    core all wr' sv (popped (bc_length bc - bc_pvt bc) b :: L) dn td c' (buffers w)).
Proof.
  intros W Hq Hs. assert (queue (b :: L) = bc :: q' ++ queue L) as HQ by (unfold queue; simpl; by rewrite Hq).
  assert (bc ∈ queue (b :: L)) as Hbc by (rewrite HQ; by left).
  destruct (queue_mb _ _ _ _ _ _ _ _ W _ Hbc) as (mb & Hm & Hlk & Hwf & Hiu & Hl & Hin & Hf & Hd & Ht). pose proof Hlk as [L1 L2 L3].
  pose proof (co_nodup _ _ _ _ _ _ _ _ W) as Hnd. rewrite HQ in Hnd. apply NoDup_cons in Hnd as [Hout Hnd].
  assert (Forall (λ bc, 0 ≤ bc_pvt bc) (bcq b)) as Hp.
  { pose proof (co_biov _ _ _ _ _ _ _ _ W) as [Bb _]%Forall_cons. apply (bo_pvt _ Bb). }
  rewrite Hq in Hp. apply Forall_cons in Hp as [Hp _].
  assert (∀ o, bc_offset bc ≤ o < bc_end bc → on_server file (server_file f0 sv) o) as Hs'.
  { intros o Ho. destruct (decide (o < bc_offset bc + bc_pvt bc)); [|apply Hs; lia]. eapply (co_sent _ _ _ _ _ _ _ _ W bc); [done|lia]. }
  set (wr' := forget (bc_offset bc) (bc_end bc) wr).
  assert (∀ o, file_byte (server_file f0 sv).1 (server_file f0 sv).2 wr' o = file o) as Hfile.
  { intros o. by apply file_byte_forget; [apply (co_file _ _ _ _ _ _ _ _ W)|]. }
  pose proof (co_side _ _ _ _ _ _ _ _ W) as C.
  apply (cside_contents _ _ _ (server_file f0 sv).1 (server_file f0 sv).2 wr') in C;
    [|intros o; rewrite (co_file _ _ _ _ _ _ _ _ W); apply Hfile|apply forget_some].
  rewrite HQ in C. set (id := bc_alloc_buffer bc) in *. set (Q' := q' ++ queue L) in *.
  unfold pop_bc. fold id. wp_step. apply wp_with_cache. eapply get_membuf_wp; [exact Hm|]. rewrite set_filecache_same.
  apply wp_bind_assert; [by rewrite Hiu, Hl|]. wp_step. apply wp_with_cache, is_flushing_wp; [done|]. rewrite set_filecache_same.
  wp_step. apply wp_with_cache, is_dirty_wp; [done|]. rewrite set_filecache_same.
  apply wp_bind_assert; [rewrite Hf, Hd; apply (wf_dirty _ Hwf) in Hd as [Hup _]; exact Hup|].
  wp_step. apply wp_with_cache. eapply wp_mono.
  { eapply (written_side _ _ _ _ _ _ _ _ _ _ id mb unstable C); try done; [by left|by left|].
    intros o Ho. unfold wr', forget. rewrite decide_True; [done|]. unfold bc_end. lia. }
  cbv beta. intros _ c1 [C1 U1]. pose proof (upd_replaced _ _ _ _ _ U1) as (_ & R1 & Z1). set (mb1 := mb_set_flag _ mb) in *.
  assert (mb_has Dirty mb1 = false) as Hd1 by apply written_clean.
  apply (cside_flushing _ _ _ _ (vids Q')) in C1.
  2:{ intros i x _ _ [Hne [?|?]%elem_of_cons]%list_elem_of_filter; [done|]. done. }
  assert (id ∉ vids Q') as HoutQ by (intros Hi; apply Hout; rewrite vids_app; apply elem_of_app; by left).
  apply wp_seq3. eapply wp_mono; [eapply (release_chunk _ _ _ _ _ _ _ _ _ _ (place bc) mb1 C1)|]; try done.
  - apply (upd_this _ _ _ _ _ U1).
  - intros i Hi. rewrite vids_app; apply elem_of_app. by left.
  - intros i. exact (occ_sub_cons _ _ _ _ (cs_sub _ _ _ _ _ _ _ _ _ _ C1 i)).
  - cbv beta. intros _ c2 (C2 & Q2 & Hgone). exists c2, wr'. split; [done|]. eapply core_popped; [exact W|exact Hq| |done| |done].
    + eapply cside_unpin; [|exact C2]. intros x Hx. apply list_elem_of_filter. split; [|by right].
      rewrite <- vids_places. by apply list_elem_of_fmap_2.
    + eapply quiet_trans; [|exact Q2]. eapply (quiet_updated _ id mb mb1); try done; simpl; lia.
Qed.
End core.
