(* ===== verification/FlushReply.v ===== *)
(** * The end of a WRITE

    What the reply to a WRITE does to [core]: the server has the first bytes of the
    [bc_iovec] ([core_server]), the chunks it has all of leave the queue, the first of the
    others is advanced ([on_io_complete_spec]). *)
From S2P Require Import Prelude CacheState Membuf MembufSpec ChunkMap FileCache CacheInv MembufInv CacheOps Purge ScanGet CacheGet ScanRelease CacheRelease CacheSize DirtyLists CacheSteps CacheFrame Readahead ReadPath ReadCache ReadInv WritePath WriteCache WriteBack FlushCache FlushInv.

Section reply.
Context (wsize_adj : Z) (file : Z → Z) (f0 : (Z → Z) * Z).

Abbreviation core := (FlushInv.core wsize_adj file f0).
Abbreviation sent sv a e := (∀ o, a ≤ o < e → on_server file (server_file f0 sv) o).

(** The server carries out a WRITE of bytes of the file. *)
Lemma core_server all wr sv L dn td c m o n :
  0 < n → core all wr sv L dn td c m →
  core all wr (sv ++ [(o, file_bytes file o n)]) L dn td c m ∧ sent (sv ++ [(o, file_bytes file o n)]) o (o + n).
Proof.
  intros Hn [C Fl B F R N S Sm E A].
  assert (server_file f0 (sv ++ [(o, file_bytes file o n)]) = write_at (server_file f0 sv) (o, file_bytes file o n)) as Hs.
  { unfold server_file. by rewrite foldl_app. }
  assert (∀ x, file_byte (server_file f0 (sv ++ [(o, file_bytes file o n)])).1 (server_file f0 (sv ++ [(o, file_bytes file o n)])).2 wr x = file x) as Hf.
  { intros x. rewrite Hs. by apply file_byte_write. }
  split; [|intros x Hx; rewrite Hs; by apply write_at_in]. split; try done.
  - eapply cside_contents; [exact C| |done]. intros x. by rewrite Hf, Fl.
  - intros bc x Hb Hx. rewrite Hs. apply write_at_keeps; [done|]. by eapply S.
Qed.

(** The first [n] bytes of what is left of a chunk have been written. *)
Definition advanced (n : Z) (bc : bytes_chunk) (q' : list bytes_chunk) (v : iovec) (vs : list iovec) (b : bc_iovec) : bc_iovec :=
  Biov (Iovec (iov_buffer v) (iov_index v + n) (iov_len v - n) :: vs) (iov_pos b) (iovcnt b) (io_offset b + n) (io_length b - n)
    (orig_offset b) (orig_length b) (set_pvt (bc_pvt bc + n) bc :: q') (max_iosize b).

Lemma core_partial all wr sv b L dn td c m bc q' v vs n :
  core all wr sv (b :: L) dn td c m → bcq b = bc :: q' → iov b = v :: vs → 0 < n < bc_length bc - bc_pvt bc →
  sent sv (bc_offset bc + bc_pvt bc) (bc_offset bc + bc_pvt bc + n) →
  core all wr sv (advanced n bc q' v vs b :: L) dn td c m.
Proof.
  intros [C Fl B F R N S Sm E A] Hq Hv Hn Hs. apply Forall_cons in B as [[B1 B2 B3 B4 B5 B6 B7 B8] BL].
  assert (queue (b :: L) = bc :: q' ++ queue L) as HQ by (unfold queue; simpl; by rewrite Hq).
  assert (queue (advanced n bc q' v vs b :: L) = set_pvt (bc_pvt bc + n) bc :: q' ++ queue L) as HQ' by done.
  rewrite HQ in *. split; rewrite ?HQ'; try done.
  - apply Forall_cons. split; [|done]. rewrite Hq in *. destruct B4 as (H1 & H2 & H3). apply Forall_cons in B5 as [? ?], B6 as [? ?].
    rewrite Hv in B3. injection B3 as -> ->. unfold bc_end in H3. simpl in *.
    split; simpl; try done; try lia.
    + f_equal. unfold iovec_of. simpl. f_equal; lia.
    + split; [lia|]. split; [lia|]. unfold bc_end. simpl.
      replace (bc_offset bc + (bc_pvt bc + n) + (bc_length bc - (bc_pvt bc + n))) with (bc_offset bc + bc_pvt bc + (bc_length bc - bc_pvt bc)) by lia.
      by replace (io_offset b + n + (io_length b - n)) with (io_offset b + io_length b) by lia.
    + apply Forall_cons. split; [simpl; lia|done].
    + apply Forall_cons. by split.
  - intros x [->|Hx]%elem_of_cons; [apply (F bc); by left|]. apply F. by right.
  - intros x o [->|Hx]%elem_of_cons Ho; [|apply (S x); [by right|done]]. simpl in Ho.
    destruct (decide (o < bc_offset bc + bc_pvt bc)); [apply (S bc); [by left|lia]|apply Hs; lia].
Qed.

(** What is left of a [bc_iovec] after [n] bytes. *)
Record rest_of (n : Z) (b b' : bc_iovec) : Prop := {
  ro_off : io_offset b' = io_offset b + n;
  ro_len : io_length b' = io_length b - n;
  ro_ooff : orig_offset b' = orig_offset b;
  ro_olen : orig_length b' = orig_length b;
  ro_max : max_iosize b' = max_iosize b;
}.

Lemma biov_head b bc q : biov_ok b → bcq b = bc :: q →
  bc_offset bc + bc_pvt bc = io_offset b ∧ 0 < bc_length bc - bc_pvt bc ≤ io_length b ∧ ∃ v vs, iov b = v :: vs ∧ iov_len v = bc_length bc - bc_pvt bc.
Proof.
  intros [_ _ B3 B4 _ _ _ _] Hq. rewrite Hq in *. destruct B4 as (H1 & H2 & H3%covers_le). unfold bc_end in H3. simpl in *.
  split_and!; [lia..|]. rewrite B3. by eexists _, _.
Qed.

Lemma biov_empty b : biov_ok b → io_length b = 0 ↔ bcq b = [].
Proof.
  intros B. destruct (bcq b) as [|bc q] eqn:Hq.
  - split; [done|]. intros _. pose proof (bo_cov _ B) as H. rewrite Hq in H. simpl in H. lia.
  - split; [|done]. intros H. destruct (biov_head _ _ _ B Hq) as (_ & ? & _). lia.
Qed.

Lemma biov_pos b : biov_ok b → bcq b ≠ [] → 0 < io_length b.
Proof.
  intros B Hq. destruct (bcq b) as [|bc q] eqn:E; [done|]. destruct (biov_head _ _ _ B E) as (_ & ? & _). lia.
Qed.

Lemma io_complete_loop_spec all sv L dn td u q : ∀ wr b w n,
  core all wr sv (b :: L) dn td (filecache w) (buffers w) → bcq b = q → 0 < n ≤ io_length b → stable_write w = negb u →
  sent sv (io_offset b) (io_offset b + n) →
  wp (io_complete_loop q (io_offset b + n) n u b) w (λ b' w', ∃ c' wr', w' = set_filecache c' w ∧ rest_of n b b' ∧
    core all wr' sv (b' :: L) dn td c' (buffers w)).
Proof.
  induction q as [|bc q IH]; intros wr b w n W Hq Hn Hst Hs; pose proof (co_biov _ _ _ _ _ _ _ _ _ _ _ W) as [B _]%Forall_cons.
  { apply (biov_empty _ B) in Hq. lia. }
  destruct (biov_head _ _ _ B Hq) as (Ho & Hl & v & vs & Hv & Hvl). cbn [io_complete_loop]. wp_step. wp_step.
  apply wp_bind_assert; [rewrite Hst; by destruct u|]. wp_asserts cmp.
  destruct (Z.leb_spec (bc_offset bc + bc_pvt bc + (bc_length bc - bc_pvt bc)) (io_offset b + n)) as [Hle|Hgt].
  - wp_step. eapply wp_mono; [eapply core_pop; [exact W|exact Hq|]; intros o ?; apply Hs; unfold bc_end in *; lia|].
    cbv beta. intros _ w1 (c1 & wr1 & -> & W1). wp_asserts cmp. set (len := bc_length bc - bc_pvt bc) in *.
    destruct (Z.eqb_spec (n - len) 0) as [Hz|Hz].
    + wp_step. exists c1, wr1. split; [done|]. split; [|done]. split; simpl; (done || lia).
    + replace (io_offset b + n) with (io_offset (popped len b) + (n - len)) by (simpl; lia).
      eapply wp_mono; [eapply (IH wr1 (popped len b) (set_filecache c1 w) (n - len)); try done; simpl; [by rewrite Hq|lia|]|].
      * intros o ?. apply Hs. lia.
      * cbv beta. intros b' w' (c' & wr' & -> & [R1 R2 R3 R4 R5] & W'). exists c', wr'. split; [done|]. split; [|done]. simpl in *.
        split; (done || lia).
  - rewrite Hv. cbn [iov_len]. wp_asserts cmp. wp_step. exists (filecache w), wr. split; [by rewrite set_filecache_same|].
    split; [split; simpl; (done || lia)|]. eapply (core_partial _ _ _ _ _ _ _ _ _ bc q v vs n); [done|done|done|lia|].
    intros o ?. apply Hs. lia.
Qed.

Lemma io_checks_wp b w (Q : () → bstate → Prop) : biov_ok b → 0 < io_length b → Q () w → wp (io_checks b) w Q.
Proof.
  intros B Hl HQ. unfold io_checks. wp_step. wp_step; [by rewrite (bo_cnt _ B), Z.eqb_refl|].
  destruct (bcq b) as [|bc q] eqn:Hq; [apply (biov_empty _ B) in Hq; lia|]. destruct (biov_head _ _ _ B Hq) as (Ho & _).
  wp_step. wp_step; [rewrite (bo_cnt _ B), Hq; cmp|]. by wp_step; [cmp|].
Qed.

(** The reply to a WRITE of which the server carried out [n] bytes. *)
Lemma on_io_complete_spec all wr sv b L dn td w n :
  core all wr sv (b :: L) dn td (filecache w) (buffers w) → 0 < n ≤ io_length b → sent sv (io_offset b) (io_offset b + n) →
  wp (on_io_complete n (negb (stable_write w)) b) w (λ b' w', ∃ c' wr', w' = set_filecache c' w ∧ rest_of n b b' ∧
    core all wr' sv (b' :: L) dn td c' (buffers w)).
Proof.
  intros W Hn Hs. pose proof (co_biov _ _ _ _ _ _ _ _ _ _ _ W) as [B _]%Forall_cons. unfold on_io_complete. wp_step.
  apply io_checks_wp; [done|lia|]. wp_asserts cmp. wp_step.
  eapply wp_mono; [eapply io_complete_loop_spec; [exact W|done|done|by rewrite negb_involutive|done]|].
  cbv beta. intros b' w' (c' & wr' & -> & R & W'). pose proof (ro_off _ _ _ R). wp_asserts cmp. wp_step. by exists c', wr'.
Qed.

(** A finished [bc_iovec] is dropped, with what it wrote. *)
Lemma core_done all wr sv b L dn td c m : core all wr sv (b :: L) dn td c m → bcq b = [] → core all wr sv L dn td c m.
Proof.
  intros [C Fl B F R N S Sm E A] Hq. assert (queue (b :: L) = queue L) as HQ by (unfold queue; simpl; by rewrite Hq).
  rewrite HQ in *. apply Forall_cons in B as [_ B]. by split.
Qed.

(** The cache evolves under its ledger. *)
Lemma core_evolved all wr sv L dn0 dn td c c' m :
  core all wr sv L dn0 td c m → evolves c c' →
  cside (server_file f0 sv).1 (server_file f0 sv).2 wr (vids (queue L)) c' m
    (places (queue L ++ td ++ dn)) (vids (queue L ++ td)) (vids (queue L)) (places (queue L ++ td)) →
  core all wr sv L dn td c' m.
Proof.
  intros [C Fl B F R N S Sm E A] Ev C'.
  assert (∀ i, i ∈ vids (queue L ++ td) → is_Some (membufs c' !! i)) as Hlive.
  { intros i Hi. apply (ld_live _ _ _ (cs_led _ _ _ _ _ _ _ _ _ _ C')). rewrite vids_places, app_assoc, vids_app.
    apply elem_of_app. by left. }
  pose proof (quiet_evolves (λ i, i ∈ vids (queue L ++ td)) c c' (cs_inv _ _ _ _ _ _ _ _ _ _ C) Ev Hlive) as Q.
  split; try done.
  - intros x Hx. eapply marked_quiet; [exact Q| |by apply F]. apply list_elem_of_fmap_2, elem_of_app. by left.
  - intros x Hx. destruct (R _ Hx) as (? & ? & ?). split; [|done]. eapply marked_quiet; [exact Q| |done].
    apply list_elem_of_fmap_2, elem_of_app. by right.
  - intros i mb Hm Hd. destruct (qt_dirt _ _ _ Q _ _ Hm Hd) as (mb0 & Hm0 & Hd0 & Hl). specialize (Sm _ _ Hm0 Hd0). lia.
  - by rewrite (qt_size _ _ _ Q).
  - intros Ha i mb Hm Hd. destruct (qt_dirt _ _ _ Q _ _ Hm Hd) as (mb0 & Hm0 & Hd0 & _). by eapply A.
Qed.
End reply.
