(* ===== verification/FlushState.v ===== *)
(** * The invariant of the write-back state

    [winv]: [core] for the [bc_iovec]s of all tasks that are not done, and what the
    assertions of the write path need of the inode's flags, of each task and of the
    counters.  The replies to WRITEs and the jukebox retries keep it. *)
From S2P Require Import Prelude CacheState Membuf MembufSpec ChunkMap FileCache CacheInv MembufInv CacheOps Purge ScanGet CacheGet ScanRelease CacheRelease CacheSize DirtyLists CacheSteps CacheFrame Readahead ReadPath ReadCache ReadInv WritePath WriteCache WriteBack FlushCache FlushInv FlushReply.

(** ** Tasks *)

(** The [bc_iovec] of a task, unless it is done. *)
Definition unfinished (x : write_task) : list bc_iovec := match wt_prog x with Freed => [] | _ => [wt_bciov x] end.
Definition active (l : list write_task) : list bc_iovec := l ≫= unfinished.

Lemma active_at l t x : l !! t = Some x → ∃ R, active l ≡ₚ unfinished x ++ R ∧ ∀ y, active (<[t := y]> l) ≡ₚ unfinished y ++ R.
Proof.
  intros Ht. exists (active (take t l) ++ active (drop (S t) l)). split.
  - rewrite <- (take_drop_middle _ _ _ Ht) at 1. unfold active. rewrite bind_app, bind_cons. by rewrite Permutation_app_swap_app.
  - intros y. rewrite insert_take_drop by (by eapply lookup_lt_Some). unfold active. rewrite bind_app, bind_cons. by rewrite Permutation_app_swap_app.
Qed.

Lemma active_app l l' : active (l ++ l') = active l ++ active l'.
Proof. apply bind_app. Qed.

Definition task_of (s : option sync_state) : list bc_iovec := match s with Some x => option_list (s_task x) | None => [] end.
Definition done_of (s : option sync_state) : list bytes_chunk := match s with Some x => s_done x | None => [] end.
Definition todo_of (s : option sync_state) : list bytes_chunk := match s with Some x => s_todo x | None => [] end.

(** All [bc_iovec]s. *)
Definition biovs (w : bstate) : list bc_iovec := active (writes w) ++ task_of (syncing w).

Definition zsum {A} (f : A → Z) (l : list A) : Z := foldr (λ x n, f x + n) 0 l.

Lemma zsum_app {A} (f : A → Z) l l' : zsum f (l ++ l') = zsum f l + zsum f l'.
Proof. unfold zsum. induction l as [|x l IH]; simpl; lia. Qed.

Lemma zsum_perm {A} (f : A → Z) l l' : l ≡ₚ l' → zsum f l = zsum f l'.
Proof. unfold zsum. induction 1; simpl; lia. Qed.

Lemma zsum_pos {A} (f : A → Z) l : Forall (λ x, 0 < f x) l → Z.of_nat (length l) ≤ zsum f l.
Proof. unfold zsum. induction 1; simpl; lia. Qed.

Lemma zsum_insert {A} (f : A → Z) l t x y : l !! t = Some x → zsum f (<[t := y]> l) = zsum f l - f x + f y.
Proof.
  intros Ht. rewrite insert_take_drop by (by eapply lookup_lt_Some). rewrite <- (take_drop_middle _ _ _ Ht) at 3.
  rewrite !zsum_app. simpl. lia.
Qed.

(** The number of tasks in the jukebox queue. *)
Definition jukeboxed (l : list write_task) : Z := zsum (λ x, if decide (wt_prog x = Jukeboxed) then 1 else 0) l.

Lemma jukeboxed_nonneg l : 0 ≤ jukeboxed l.
Proof. unfold jukeboxed, zsum. induction l as [|x l IH]; simpl; [done|]. case_decide; lia. Qed.

(** The number of bytes of a WRITE. *)
Definition wlen (r : Z * list (option Z)) : Z := Z.of_nat (length r.2).

Section winv.
Context (wsize_adj : Z) (file : Z → Z) (f0 : (Z → Z) * Z) (seq0 : Z).
Context (Hwsize : AZNFSCFG_WSIZE_MIN ≤ wsize_adj ≤ AZNFSCFG_WSIZE_MAX).

Abbreviation core := (FlushInv.core wsize_adj file f0).

(** The task of [sync_membufs()] takes more chunks. *)
Record gathering (b : bc_iovec) : Prop := {
  ga_pos : iov_pos b = 0%nat;
  ga_off : orig_offset b = io_offset b;
  ga_len : orig_length b = io_length b;
  ga_max : wsize_adj ≤ max_iosize b;
}.

(** [all]: writes are stable and no other data is dirty. *)
Record winv (all : bool) (w : bstate) : Prop := {
  wi_core : ∃ wr, core all wr (server w) (biovs w) (done_of (syncing w)) (todo_of (syncing w)) (filecache w) (buffers w);
  wi_lock : is_flushing w = match syncing w with Some _ => true | None => false end;
  wi_run : biovs w = [] ∨ running w = true;
  wi_error : write_error w = 0;
  wi_commit : commit_in_progress w = false;
  wi_task : Forall (λ b, 0 < io_length b) (biovs w);
  wi_gather : Forall gathering (task_of (syncing w));
  wi_stable : all = true → stable_write w = true;
  wi_putblock : if stable_write w then putblock_filesize w = AZNFSC_BAD_OFFSET
    else 0 ≤ putblock_filesize w ∧ putblock_filesize w + bc_bytes (todo_of (syncing w)) ≤ AZNFSC_MAX_FILE_SIZE;
  wi_count : flushing_seq_num w = seq0 + zsum id (completed w) + zsum orig_length (biovs w);
  wi_sent : flushing_seq_num w = seq0 + zsum wlen (server w) + zsum io_length (biovs w);
  wi_log : Forall (λ r, 0 < wlen r) (server w);
  wi_flushed : flushed_seq_num w = seq0 + zsum id (completed w) ∧ 0 ≤ zsum id (completed w);
  wi_committed : committed_seq_num w ≤ committing_seq_num w ≤ seq0;
}.

(** Only the cache, the tasks, the server and the counts have changed. *)
Record same_inode (w w' : bstate) : Prop := {
  sn_sync : syncing w' = syncing w;
  sn_lock : is_flushing w' = is_flushing w;
  sn_run : running w' = running w;
  sn_error : write_error w' = write_error w;
  sn_commit : commit_in_progress w' = commit_in_progress w;
  sn_stable : stable_write w' = stable_write w;
  sn_putblock : putblock_filesize w' = putblock_filesize w;
  sn_seq : flushing_seq_num w' = flushing_seq_num w;
  sn_committing : committing_seq_num w' = committing_seq_num w;
  sn_committed : committed_seq_num w' = committed_seq_num w;
  sn_mem : buffers w' = buffers w;
}.

(** The active tasks of [w'] are [L], [R] and that of [sync_membufs()] do not change. *)
Lemma winv_tasks all w w' b L R wr :
  winv all w → same_inode w w' → biovs w ≡ₚ b :: R → biovs w' ≡ₚ L ++ R →
  core all wr (server w') (L ++ R) (done_of (syncing w)) (todo_of (syncing w)) (filecache w') (buffers w) →
  Forall (λ b, 0 < io_length b) L → Forall (λ r, 0 < wlen r) (server w') →
  zsum id (completed w') + zsum orig_length L = zsum id (completed w) + orig_length b →
  flushed_seq_num w' = flushed_seq_num w + (zsum id (completed w') - zsum id (completed w)) → zsum id (completed w) ≤ zsum id (completed w') →
  zsum wlen (server w') + zsum io_length L = zsum wlen (server w) + io_length b → winv all w'.
Proof.
  intros [_ Lk Rn Er Cm Tk Ga Sb Pu Ct Sn Lg [Fl Fl'] Cn] [S1 S2 S3 S4 S5 S6 S7 S8 S10 S11 S9] HL HL' C Hpos Hlog Hc Hf Hf' Hs.
  rewrite (zsum_perm orig_length _ _ HL) in Ct. rewrite (zsum_perm io_length _ _ HL) in Sn. simpl in Ct, Sn. rewrite HL in Tk. apply Forall_cons in Tk as [_ Tk].
  split; rewrite ?S1, ?S2, ?S3, ?S4, ?S5, ?S6, ?S7, ?S8, ?S9, ?S10, ?S11, ?(zsum_perm orig_length _ _ HL'), ?(zsum_perm io_length _ _ HL'), ?zsum_app; try done; try lia.
  - exists wr. eapply core_perm; [symmetry; exact HL'|done].
  - right. destruct Rn as [Rn|Rn]; [|done]. rewrite Rn in HL. by apply Permutation_nil_cons in HL.
  - rewrite HL'. by apply Forall_app.
Qed.

(** ** The RPC *)

(** What a [bc_iovec] refers to ends inside of the file. *)
Lemma biov_end all wr sv L dn td c m b : core all wr sv L dn td c m → b ∈ L → 0 < io_length b → io_offset b + io_length b ≤ cache_size c.
Proof.
  intros W Hb Hl. pose proof (co_biov _ _ _ _ _ _ _ _ _ _ _ W) as HB. rewrite Forall_forall in HB. pose proof (bo_cov _ (HB _ Hb)) as Hcov.
  destruct (covers_at _ _ _ (io_offset b + io_length b - 1) Hcov) as (x & (bc & -> & Hbc)%list_elem_of_fmap & Hx); [lia|].
  pose proof (covers_elem _ _ _ _ Hcov (list_elem_of_fmap_2 left_of _ _ Hbc)) as [_ He].
  destruct (queue_mb _ _ _ _ _ _ _ _ _ _ _ W bc) as (mb & Hm & [L1 L2 L3] & Hwf & _ & _ & _ & _ & Hd & _); [apply list_elem_of_bind; eauto|].
  apply (wf_dirty _ Hwf) in Hd as [Hup _]. pose proof (cs_fit _ _ _ _ _ _ _ _ _ _ (co_side _ _ _ _ _ _ _ _ _ _ _ W) _ _ Hm Hup).
  unfold bc_end, left_of in *. simpl in *. lia.
Qed.

Lemma issue_checks_wp all wr sv L dn td c m b w (Q : () → bstate → Prop) :
  core all wr sv (b :: L) dn td c m → 0 < io_length b → running w = true → Q () w → wp (issue_checks b) w Q.
Proof.
  intros W Hl Hr HQ. pose proof (co_biov _ _ _ _ _ _ _ _ _ _ _ W) as [[B1 B2 B3 B4 B5 B6 B7 B8] _]%Forall_cons.
  pose proof (biov_end _ _ _ _ _ _ _ _ b W ltac:(by left) Hl) as He. pose proof (co_end _ _ _ _ _ _ _ _ _ _ _ W).
  assert (0 < iovcnt b) as Hc.
  { rewrite B1. destruct (bcq b) as [|? ?]; [simpl in B4; lia|simpl; lia]. }
  unfold issue_checks. wp_asserts cmp. wp_step. wp_step. apply wp_bind_assert; [done|].
  apply wp_bind_assert; [rewrite andb_true_iff, Z.ltb_lt, Z.leb_le; lia|]. wp_asserts cmp. by wp_step; [cmp|].
Qed.

(** ** Replies *)

(** The [bc_iovec] of a task, in front of the others. *)
Lemma winv_at all w t x :
  winv all w → writes w !! t = Some x → wt_prog x ≠ Freed →
  ∃ wr R, biovs w ≡ₚ wt_bciov x :: R ∧
    core all wr (server w) (wt_bciov x :: R) (done_of (syncing w)) (todo_of (syncing w)) (filecache w) (buffers w) ∧
    0 < io_length (wt_bciov x) ∧ running w = true ∧
    ∀ y c w', same_inode w w' → writes w' = <[t := WTask y c]> (writes w) → biovs w' ≡ₚ unfinished (WTask y c) ++ R.
Proof.
  intros W Ht Hp. pose proof W as [[wr C] _ Rn _ _ Tk _ _ _ _ _ _ _ _]. destruct (active_at _ _ _ Ht) as (R & H1 & H2).
  assert (unfinished x = [wt_bciov x]) as Hu by (unfold unfinished; by destruct (wt_prog x)).
  assert (biovs w ≡ₚ wt_bciov x :: R ++ task_of (syncing w)) as HL by (unfold biovs; rewrite H1, Hu; done).
  exists wr, (R ++ task_of (syncing w)). split; [done|]. rewrite HL in Tk. apply Forall_cons in Tk as [Tk _].
  split; [by eapply core_perm|]. split; [done|]. split.
  { destruct Rn as [Rn|Rn]; [|done]. rewrite Rn in HL. by apply Permutation_nil_cons in HL. }
  intros y c w' Sn Hw. unfold biovs. rewrite Hw, (sn_sync _ _ Sn), H2. by rewrite app_assoc.
Qed.

Definition reply_ok (b : bc_iovec) (res : write_res) : Prop :=
  match res with Wrote n _ => 0 < n ≤ io_length b | Jukebox => True | WriteFailed _ => False end.

(** A task has been answered: its progress is [p], the others are as before; the server has
    written [n] more bytes. *)
Record answered (all : bool) (t : nat) (p : wprogress) (n : Z) (w w' : bstate) : Prop := {
  an_winv : winv all w';
  an_inode : same_inode w w';
  an_server : zsum wlen (server w') = zsum wlen (server w) + n;
  an_writes : ∃ b, writes w' = <[t := WTask b p]> (writes w);
}.

Lemma jukebox_reply all w t x :
  winv all w → writes w !! t = Some x → wt_prog x = Issued → wp (write_iov_callback t Jukebox) w (λ _ w', answered all t Jukeboxed 0 w w').
Proof.
  intros W Ht Hp. destruct (winv_at _ _ _ _ W Ht) as (wr & R & HL & C & Hl & _ & HL'); [by rewrite Hp|].
  unfold write_iov_callback, set_progress. wp_step. wp_step. wp_step. wp_step; [exact Ht|]. wp_step.
  assert (same_inode w (set_writes (<[t := WTask (wt_bciov x) Jukeboxed]> (writes w)) w)) as Sn by done.
  split; [|exact Sn|simpl; lia|by eexists].
  eapply (winv_tasks _ _ _ _ [wt_bciov x]); [exact W|exact Sn|exact HL|exact (HL' _ _ _ Sn eq_refl)|exact C|by apply Forall_singleton|apply (wi_log _ _ W)|simpl; lia..].
Qed.

(** The task that takes over sends what is left. *)
Lemma reissue_spec all w w0 t x wr R b' n :
  winv all w0 → same_inode w0 w → writes w = writes w0 → writes w0 !! t = Some x → biovs w0 ≡ₚ wt_bciov x :: R →
  (∀ y c w', same_inode w0 w' → writes w' = <[t := WTask y c]> (writes w0) → biovs w' ≡ₚ unfinished (WTask y c) ++ R) →
  core all wr (server w) (b' :: R) (done_of (syncing w0)) (todo_of (syncing w0)) (filecache w) (buffers w) → 0 < io_length b' →
  running w = true → Forall (λ r, 0 < wlen r) (server w) → completed w = completed w0 → flushed_seq_num w = flushed_seq_num w0 →
  orig_length b' = orig_length (wt_bciov x) →
  zsum wlen (server w) + io_length b' = zsum wlen (server w0) + io_length (wt_bciov x) → zsum wlen (server w) = zsum wlen (server w0) + n →
  wp (reissue_write_rpc t b') w (λ _ w', answered all t Issued n w0 w').
Proof.
  intros W Sn Hw Ht HL HL' C Hl Hr Hlog Hc Hfd Ho Hs Hsn. unfold reissue_write_rpc. wp_step. eapply issue_checks_wp; [exact C|done|done|]. wp_step.
  set (w' := set_writes _ w). assert (same_inode w0 w') as Sn' by (destruct Sn; by split).
  split; [|exact Sn'|simpl; lia|exists b'; simpl; by rewrite Hw].
  eapply (winv_tasks _ w0 w' _ [b'] R); [exact W|exact Sn'|exact HL|apply (HL' b' Issued w' Sn'); simpl; by rewrite Hw| |by apply Forall_singleton|exact Hlog|simpl..].
  - rewrite <- (sn_mem _ _ Sn). exact C.
  - rewrite Hc. lia.
  - rewrite Hc, Hfd. lia.
  - by rewrite Hc.
  - lia.
Qed.

Lemma retry_spec all w t x :
  winv all w → writes w !! t = Some x → wt_prog x = Jukeboxed → wp (jukebox_write t) w (λ _ w', answered all t Issued 0 w w').
Proof.
  intros W Ht Hp. destruct (winv_at _ _ _ _ W Ht) as (wr & R & HL & C & Hl & Hr & HL'); [by rewrite Hp|].
  unfold jukebox_write. wp_step. wp_step. wp_step. wp_step; [exact Ht|]. eapply (reissue_spec all w w); try done; [apply (wi_log _ _ W)|lia].
Qed.

(** The bytes under way are at least those of one [bc_iovec]. *)
Lemma biov_orig all w b R : winv all w → biovs w ≡ₚ b :: R → 0 < orig_length b ≤ zsum orig_length (biovs w).
Proof.
  intros W HL. destruct (wi_core _ _ W) as [wr C]. pose proof (co_biov _ _ _ _ _ _ _ _ _ _ _ C) as HB.
  assert (Forall (λ b, 0 < orig_length b) (biovs w)) as Hp.
  { pose proof (wi_task _ _ W) as Tk. rewrite Forall_forall in HB, Tk |- *. intros x Hx. pose proof (Tk _ Hx). destruct (HB _ Hx). lia. }
  rewrite (zsum_perm _ _ _ HL). rewrite HL in Hp. apply Forall_cons in Hp as [? Hp]. apply zsum_pos in Hp. simpl. lia.
Qed.

Lemma on_flush_complete_wp all w w0 b R (Q : () → bstate → Prop) n :
  winv all w0 → same_inode w0 w → completed w = completed w0 → flushed_seq_num w = flushed_seq_num w0 →
  biovs w0 ≡ₚ b :: R → n = orig_length b →
  Q () (set_fcsm (running w) (flushing_seq_num w) (flushed_seq_num w + n) (completed w ++ [n]) w) → wp (on_flush_complete n) w Q.
Proof.
  intros W Sn Hc Hf HL -> HQ. pose proof (biov_orig _ _ _ _ W HL) as [Hp Hle].
  pose proof W as [_ _ _ Er Cm _ _ _ _ Ct _ _ [Fl Fl'] Cn]. destruct Sn as [S1 S2 S3 S4 S5 S6 S7 S8 S10 S11 S9].
  unfold on_flush_complete. wp_step. wp_step. rewrite S4, S5, S8, S10, S11, Hf, Er, Cm. wp_asserts ltac:(first [done|cmp]).
  wp_step. wp_step. wp_step; [cmp|]. by rewrite <- Hf.
Qed.

(** The flush is done with a [bc_iovec]. *)
Lemma write_done_spec all w w0 t x wr R b' n :
  winv all w0 → same_inode w0 w → writes w = writes w0 → writes w0 !! t = Some x → biovs w0 ≡ₚ wt_bciov x :: R →
  (∀ y c w', same_inode w0 w' → writes w' = <[t := WTask y c]> (writes w0) → biovs w' ≡ₚ unfinished (WTask y c) ++ R) →
  core all wr (server w) (b' :: R) (done_of (syncing w0)) (todo_of (syncing w0)) (filecache w) (buffers w) → bcq b' = [] →
  0 < orig_length b' → orig_offset b' + orig_length b' ≤ AZNFSC_MAX_FILE_SIZE →
  Forall (λ r, 0 < wlen r) (server w) → completed w = completed w0 → flushed_seq_num w = flushed_seq_num w0 →
  orig_length b' = orig_length (wt_bciov x) → zsum wlen (server w) = zsum wlen (server w0) + io_length (wt_bciov x) →
  zsum wlen (server w) = zsum wlen (server w0) + n →
  wp (write_done t b') w (λ _ w', answered all t Freed n w0 w').
Proof.
  intros W Sn Hw Ht HL HL' C Hq Hl He Hlog Hc Hfd Ho Hs Hsn. pose proof (co_biov _ _ _ _ _ _ _ _ _ _ _ C) as [B _]%Forall_cons.
  pose proof (bo_lo _ B). pose proof (core_done _ _ _ _ _ _ _ _ _ _ _ _ C Hq) as C'.
  unfold write_done. wp_step. wp_step. apply wp_bind_assert; [by rewrite (sn_error _ _ Sn), (wi_error _ _ W)|].
  wp_step. eapply (on_flush_complete_wp all w w0); [exact W|exact Sn|exact Hc|exact Hfd|exact HL|exact Ho|].
  wp_step. unfold bc_iovec_dtor. apply wp_bind_assert; [by rewrite Hq|].
  wp_step. apply wp_with_cache. eapply wp_mono.
  { eapply cside_release; [apply (co_side _ _ _ _ _ _ _ _ _ _ _ C')|]. split; lia. }
  cbv beta. intros r c' (_ & C1 & E). wp_step. unfold set_progress. wp_step. set (w' := set_writes _ _).
  assert (same_inode w0 w') as Sn' by (destruct Sn; by split).
  split; [|exact Sn'|simpl; lia|exists b'; simpl; by rewrite Hw].
  eapply (winv_tasks _ w0 w' _ [] R); [exact W|exact Sn'|exact HL|apply (HL' b' Freed w' Sn'); simpl; by rewrite Hw| |done|exact Hlog|simpl..].
  - rewrite <- (sn_mem _ _ Sn). eapply core_evolved; [exact C'|exact E|exact C1].
  - rewrite Hc, zsum_app. simpl. lia.
  - rewrite Hc, Hfd, zsum_app. simpl. lia.
  - rewrite Hc, zsum_app. simpl. lia.
  - lia.
Qed.

Lemma zsum_snoc {A} (f : A → Z) l x : zsum f (l ++ [x]) = zsum f l + f x.
Proof. rewrite zsum_app. simpl. lia. Qed.

Lemma core_invalidated all wr sv L dn td c m : core all wr sv L dn td c m → core all wr sv L dn td (c_set_invalidate true c) m.
Proof. intros [C ? ? ? ? ? ? ? ? ?]. split; try done. by apply cside_invalidate. Qed.

(** The server has written [n] bytes. *)
Lemma wrote_spec all w t x n changed :
  winv all w → writes w !! t = Some x → wt_prog x = Issued → 0 < n ≤ io_length (wt_bciov x) →
  wp (write_iov_callback t (Wrote n changed)) w (λ _ w', answered all t (if n <? io_length (wt_bciov x) then Issued else Freed) n w w').
Proof.
  intros W Ht Hp Hn. destruct (winv_at _ _ _ _ W Ht) as (wr & R & HL & C & Hl & Hr & HL'); [by rewrite Hp|].
  set (b := wt_bciov x) in *. pose proof (co_biov _ _ _ _ _ _ _ _ _ _ _ C) as [B _]%Forall_cons.
  pose proof (biov_end _ _ _ _ _ _ _ _ b C ltac:(by left) Hl) as He. pose proof (co_end _ _ _ _ _ _ _ _ _ _ _ C).
  pose proof (bo_lo _ B) as Blo. pose proof (bo_orig _ B) as Bor.
  unfold write_iov_callback. wp_step. wp_step. wp_step. wp_step; [exact Ht|]. fold b. unfold server_write. wp_step. wp_step.
  rewrite (biov_bytes _ _ _ _ _ _ _ _ _ _ _ C b) by (by left). rewrite file_bytes_take by lia.
  destruct (core_server _ _ _ _ _ _ _ _ _ _ _ (io_offset b) n ltac:(lia) C) as [C1 Hs]. set (sv := server w ++ _) in *.
  assert (∃ c1, wp (if changed then with_cache invalidate else mret ()) (set_server sv w) (λ _ w1, w1 = set_filecache c1 (set_server sv w)) ∧
    core all wr sv (b :: R) (done_of (syncing w)) (todo_of (syncing w)) c1 (buffers w)) as (c1 & Hch & C2).
  { destruct changed; [exists (c_set_invalidate true (filecache w))|exists (filecache w)].
    - split; [|by apply core_invalidated]. apply wp_with_cache. unfold invalidate. by wp_step.
    - split; [|done]. wp_step. symmetry; exact (set_filecache_same (set_server sv w)). }
  wp_step. eapply wp_mono; [exact Hch|]. cbv beta. intros _ w1 ->. unfold write_ok. wp_asserts cmp. wp_step. wp_step. wp_step.
  eapply wp_mono; [eapply (on_io_complete_spec _ _ _ _ _ _ _ _ _ _ (set_filecache c1 (set_server sv w))); [exact C2|done|exact Hs]|].
  cbv beta. intros b' w2 (c2 & wr2 & -> & [R1 R2 R3 R4 R5] & C3). set (w2 := set_filecache c2 _).
  assert (same_inode w w2) as Sn by done. assert (zsum wlen sv = zsum wlen (server w) + n) as Hz.
  { unfold sv. rewrite zsum_snoc. unfold wlen at 2. simpl. rewrite file_bytes_length by lia. done. }
  assert (Forall (λ r, 0 < wlen r) sv) as Hlog.
  { apply Forall_app. split; [apply (wi_log _ _ W)|]. apply Forall_singleton. unfold wlen. simpl. rewrite file_bytes_length; lia. }
  fold b. destruct (Z.ltb_spec n (io_length b)) as [Hlt|Hge].
  - eapply (reissue_spec all w2 w t x wr2 R b'); try done; cbn [server w2 set_filecache set_server]; fold b; lia.
  - eapply (write_done_spec all w2 w t x wr2 R b'); try done; cbn [server w2 set_filecache set_server]; fold b; try lia.
    pose proof (co_biov _ _ _ _ _ _ _ _ _ _ _ C3) as [B' _]%Forall_cons. apply (biov_empty _ B'). lia.
Qed.
End winv.
