(* ===== verification/FlushGather.v ===== *)
(** * Gathering dirty chunks

    One iteration of [sync_membufs()]: the chunk is locked, flagged as flushing and copied
    into the queue of a [bc_iovec] ([core_enqueued]), the current one or, when that cannot
    take it, a new one after the old one has been sent ([add_bc_spec], [sync_chunk_spec]). *)
From S2P Require Import Prelude CacheState Membuf MembufSpec ChunkMap FileCache CacheInv MembufInv CacheOps Purge ScanGet CacheGet ScanRelease CacheRelease CacheSize DirtyLists CacheSteps CacheFrame Readahead ReadPath ReadCache ReadInv WritePath WriteCache WriteBack FlushCache FlushInv FlushReply FlushState.

Section gather.
Context (wsize_adj : Z) (file : Z → Z) (f0 : (Z → Z) * Z) (seq0 : Z).
Context (Hwsize : AZNFSCFG_WSIZE_MIN ≤ wsize_adj ≤ AZNFSCFG_WSIZE_MAX).

Abbreviation core := (FlushInv.core wsize_adj file f0).
Abbreviation winv := (FlushState.winv wsize_adj file f0 seq0).

(** ** From the vector to a queue *)
Section chunk.
Context (all : bool) (wr : Z → option Z) (sv : list (Z * list (option Z))) (L : list bc_iovec) (dn : list bytes_chunk)
  (bc : bytes_chunk) (td : list bytes_chunk) (c0 : cache) (m : memory).
Context (W : core all wr sv L dn (bc :: td) c0 m).

Abbreviation id := (bc_alloc_buffer bc).
Abbreviation side F c A l := (cside (server_file f0 sv).1 (server_file f0 sv).2 wr F c m A (vids (queue L ++ bc :: td)) l (places (queue L ++ bc :: td))).
Abbreviation vec := (places (queue L ++ (bc :: td) ++ dn)).

Lemma head_fresh : id ∉ vids (queue L).
Proof.
  pose proof (co_nodup _ _ _ _ _ _ _ _ _ _ _ W) as Hnd. rewrite vids_app in Hnd. apply NoDup_app in Hnd as (_ & Hd & _).
  intros Hi. apply (Hd _ Hi). by left.
Qed.

Lemma head_held : bc ∈ queue L ++ bc :: td.
Proof. apply elem_of_app. right. by left. Qed.

(** The chunk and its membuf, before it is locked. *)
Lemma head_mb : ∃ mb, membufs c0 !! id = Some mb ∧ linked bc mb ∧ mb_wf mb ∧ is_inuse mb = true ∧ is_locked mb = false ∧
  id ∈ ids (chunkmap c0) ∧ mb_has Flushing mb = false ∧ mb_has Dirty mb = true ∧ is_truncated mb = false.
Proof.
  destruct (held_mb _ _ _ _ _ _ _ _ _ _ _ W bc head_held) as (mb & Hm & Hl & Hwf & Hiu & Hin).
  destruct (co_ready _ _ _ _ _ _ _ _ _ _ _ W bc ltac:(by left)) as ((mb' & Hm' & Hd & Ht & Hf) & _). assert (mb' = mb) as -> by congruence.
  exists mb. split_and!; try done. apply not_true_iff_false. intros Hk. apply head_fresh.
  by apply (cs_lock _ _ _ _ _ _ _ _ _ _ (co_side _ _ _ _ _ _ _ _ _ _ _ W) _ _ Hm).
Qed.

(** The chunk has been locked. *)
Record picked (c : cache) : Prop := {
  pk_side : side (vids (queue L)) c vec (id :: vids (queue L));
  pk_quiet : quiet (.≠ id) c0 c;
  pk_mb : ∃ mb, membufs c !! id = Some mb ∧ linked bc mb ∧ mb_wf mb ∧ is_inuse mb = true ∧ is_locked mb = true ∧ id ∈ ids (chunkmap c) ∧
    mb_has Flushing mb = false ∧ mb_has Dirty mb = true ∧ is_truncated mb = false ∧ is_uptodate mb = true;
}.

Lemma wlock_spec : wp (set_locked id) c0 (λ _ c, picked c).
Proof.
  destruct head_mb as (mb & Hm & Hlk & Hwf & Hiu & Hl & Hin & Hf & Hd & Ht). pose proof (co_side _ _ _ _ _ _ _ _ _ _ _ W) as C.
  pose proof (cs_inv _ _ _ _ _ _ _ _ _ _ C) as I. eapply wp_mono.
  { eapply (cside_set_locked _ _ _ _ _ _ _ _ _ _ id C); [apply list_elem_of_fmap_2, head_held|apply head_fresh|].
    intros x Hx Hlx. assert (x = mb) as -> by congruence. rewrite (inv_st _ _ I) by done.
    apply (flag_room c0 id mb Locked); try done. intros i x Hi Hli. pose proof (proj1 (cs_lock _ _ _ _ _ _ _ _ _ _ C _ _ Hi) Hli) as (b & -> & Hb)%list_elem_of_fmap.
    by destruct (queue_mb _ _ _ _ _ _ _ _ _ _ _ W b Hb) as (_ & _ & _ & _ & _ & _ & ? & _). }
  cbv beta. intros _ c (C1 & mb0 & Hm0 & R & Hz). assert (mb0 = mb) as -> by congruence. set (mb1 := mb_set_flag _ mb) in *.
  assert (∀ g, mb_has g mb1 = mb_has g mb || flag_eqb Locked g) as Hg by (intros g; unfold mb_has, mb1; simpl; rewrite has_or_flag; apply orb_comm).
  assert (membufs c !! id = Some mb1) as Hm1 by (destruct R as [-> _]; apply lookup_insert_eq).
  split; [exact C1|eapply (quiet_updated _ id mb mb1); try done; simpl; lia|].
  exists mb1. pose proof (inv_heap _ _ (cs_inv _ _ _ _ _ _ _ _ _ _ C1) _ _ Hm1) as [Hwf1 _].
  assert (chunkmap c = chunkmap c0) as Hc by (by destruct R). unfold is_locked, is_truncated, is_uptodate in *. rewrite !Hg, Hc.
  destruct (wf_dirty _ Hwf Hd) as [Hup _]. destruct Hlk. split_and!; rewrite ?Hf, ?Hd, ?Ht, ?Hup, ?Hl; done.
Qed.

(** The chunk has been put in a queue. *)
Record queued (c : cache) : Prop := {
  qd_side : side (id :: vids (queue L)) c (place bc :: vec) (id :: vids (queue L));
  qd_quiet : quiet (.≠ id) c0 c;
  qd_mark : marked true c id;
}.

Lemma enqueue_spec w :
  picked (filecache w) → is_flushing w = true →
  wp (enqueue bc) w (λ b w', b = bc ∧ ∃ c', w' = set_fcsm (running w) (flushing_seq_num w + bc_length bc) (flushed_seq_num w) (completed w) (set_filecache c' w) ∧ queued c').
Proof.
  intros [C Q (mb & Hm & Hlk & Hwf & Hiu & Hl & Hin & Hf & Hd & Ht & Hup)] Hfl. pose proof (cs_inv _ _ _ _ _ _ _ _ _ _ C) as I.
  unfold enqueue. wp_step. wp_step. rewrite Hfl. wp_step. apply wp_with_cache. eapply wp_mono.
  { eapply (cside_set_flushing _ _ _ _ _ _ _ _ _ _ id mb C); try done; [apply list_elem_of_fmap_2, head_held|by left|apply head_fresh|].
    rewrite (inv_st _ _ I) by done. apply (flag_room _ id mb Flushing); try done. intros i x Hi Hfx.
    destruct (inv_heap _ _ I _ _ Hi) as [Hwx _]. apply (wf_flushing _ Hwx) in Hfx as (_ & Hlx & _).
    pose proof (proj1 (cs_lock _ _ _ _ _ _ _ _ _ _ C _ _ Hi) Hlx) as [->|Hq]%elem_of_cons; [done|].
    apply list_elem_of_fmap in Hq as (b & -> & Hb).
    destruct (queue_mb _ _ _ _ _ _ _ _ _ _ _ W b Hb) as (y & Hy & _ & _ & _ & _ & _ & _ & Hdy & _).
    assert (bc_alloc_buffer b ≠ id) as Hne by (intros He; apply head_fresh; rewrite <- He; by apply list_elem_of_fmap_2).
    destruct (qt_flag _ _ _ Q _ _ Hne Hy) as (y' & Hy' & Hfy). assert (y' = x) as -> by congruence.
    apply (cs_unsaved _ _ _ _ _ _ _ _ _ _ C _ _ Hi). unfold unsaved, mb_has in *. by rewrite Hfy, Hdy. }
  cbv beta. intros _ c1 [C1 U1]. pose proof (upd_replaced _ _ _ _ _ U1) as (_ & R1 & Z1). set (mb1 := mb_set_flag _ mb) in *.
  destruct (held_full _ _ _ _ _ _ _ _ _ _ _ W bc head_held) as [Hwh Hnw].
  wp_step. apply wp_with_cache. eapply wp_mono.
  { eapply (cside_copy _ _ _ _ _ _ _ _ _ _ bc C1); [apply list_elem_of_fmap_2, head_held|done|done]. }
  cbv beta. intros b c2 (-> & C2 & _ & mb1' & Hm1' & R2 & Z2). unfold add_flushing. do 3 wp_step. apply wp_bind_assert; [exact Hfl|]. wp_step. wp_step.
  split; [done|]. exists c2. split; [done|]. pose proof (upd_this _ _ _ _ _ U1) as Hm1. assert (mb1' = mb1) as -> by congruence.
  assert (∀ g, mb_has g mb1 = mb_has g mb || flag_eqb Flushing g) as Hg by (intros g; unfold mb_has, mb1; simpl; rewrite has_or_flag; apply orb_comm).
  split; [exact C2| |].
  - eapply quiet_trans; [exact Q|]. eapply quiet_trans; [eapply (quiet_updated _ id mb mb1); try done; simpl; lia|].
    by eapply quiet_same_flag.
  - destruct R2 as [Hh2 _]. eexists. split; [rewrite Hh2; apply lookup_insert_eq|]. unfold is_truncated, mb_has in *. simpl. rewrite !has_or_flag.
    rewrite Hd, Ht. done.
Qed.

(** The invariant with the chunk in the queue of a [bc_iovec]. *)
Lemma core_enqueued c L' :
  queued c → Forall biov_ok L' → queue L' ≡ₚ bc :: queue L → core all wr sv L' (dn ++ [bc]) td c m.
Proof.
  intros [C' Q Hmk] B' HQ. pose proof W as [C Fl B F R N S Sm E A].
  assert (queue L' ++ td ≡ₚ queue L ++ bc :: td) as HQt by (rewrite HQ; simpl; apply Permutation_middle).
  assert (vids (queue L' ++ td) ≡ₚ vids (queue L ++ bc :: td)) as HVt by (unfold vids; by rewrite HQt).
  assert (∀ x, x ∈ queue L → bc_alloc_buffer x ≠ id) as Hne.
  { intros x Hx He. apply head_fresh. rewrite <- He. by apply list_elem_of_fmap_2. }
  assert (∀ x, x ∈ td → bc_alloc_buffer x ≠ id) as Hne'.
  { intros x Hx He. rewrite vids_app in N. apply NoDup_app in N as (_ & _ & [Hn _]%NoDup_cons). apply Hn. rewrite <- He. by apply list_elem_of_fmap_2. }
  split; try done.
  - apply (cside_flushing _ _ _ _ (vids (queue L'))) in C'.
    2:{ intros i x _ _ Hi. unfold vids. rewrite HQ. exact Hi. }
    eapply cside_perm; [| | | |exact C'].
    + unfold places. rewrite HQ. change (place <$> queue L ++ (bc :: td) ++ dn) with (places (queue L ++ (bc :: td) ++ dn)).
      change (place bc :: places (queue L ++ (bc :: td) ++ dn)) with (places (bc :: queue L ++ (bc :: td) ++ dn)). unfold places.
      apply fmap_Permutation. simpl. constructor. apply Permutation_app_head. by rewrite <- Permutation_cons_append, <- Permutation_middle.
    + by symmetry.
    + unfold vids. by rewrite HQ.
    + unfold places. by rewrite HQt.
  - intros x. rewrite HQ. intros [->|Hx]%elem_of_cons; [done|]. eapply marked_quiet; [exact Q|by apply Hne|by apply F].
  - intros x Hx. destruct (R x) as (? & ? & ?); [by right|]. split; [|done]. eapply marked_quiet; [exact Q|by apply Hne'|done].
  - by rewrite HVt.
  - intros x o. rewrite HQ. intros [->|Hx]%elem_of_cons Ho; [|by eapply S]. destruct (R bc) as (_ & _ & Hp & _); [by left|]. lia.
  - intros i mb Hm Hd. destruct (qt_dirt _ _ _ Q _ _ Hm Hd) as (mb0 & Hm0 & Hd0 & Hl). specialize (Sm _ _ Hm0 Hd0). lia.
  - by rewrite (qt_size _ _ _ Q).
  - intros Ha i mb Hm Hd. rewrite HVt. destruct (qt_dirt _ _ _ Q _ _ Hm Hd) as (mb0 & Hm0 & Hd0 & _). by eapply A.
Qed.
(** ** add_bc() *)

(** [b'] is [b] with the chunk. *)
Record grown (b b' : bc_iovec) : Prop := {
  gr_ok : biov_ok b';
  gr_gather : gathering wsize_adj b';
  gr_queue : bcq b' = bcq b ++ [bc];
  gr_len : io_length b' = io_length b + bc_length bc;
}.

Lemma head_range : 0 ≤ bc_offset bc ∧ 0 < bc_length bc ≤ wsize_adj.
Proof.
  destruct head_mb as (mb & _ & [L1 L2 L3] & Hwf & _). pose proof (wf_initial _ Hwf). pose proof (wf_offset _ Hwf). pose proof (wf_length _ Hwf).
  destruct (co_ready _ _ _ _ _ _ _ _ _ _ _ W bc ltac:(by left)) as (_ & _ & _ & ?). lia.
Qed.

Lemma grown_by off q cnt b :
  biov_ok b → gathering wsize_adj b → q = bcq b → cnt = iovcnt b → cnt + 1 ≤ BC_IOVEC_MAX_VECTORS →
  (bcq b = [] → off = bc_offset bc) → (bcq b ≠ [] → off = io_offset b ∧ io_offset b + io_length b = bc_offset bc) →
  grown b (Biov (iov b ++ [iovec_of bc]) (iov_pos b) (cnt + 1) off (io_length b + bc_length bc) off (io_length b + bc_length bc)
    (q ++ [bc]) (max_iosize b)).
Proof.
  intros B [G1 G2 G3 G4] -> -> Hcnt Hfirst Hnext. pose proof head_range as [Ho Hl].
  destruct (co_ready _ _ _ _ _ _ _ _ _ _ _ W bc ltac:(by left)) as (_ & Hfull & Hp & _).
  assert (left_of bc = Chunk id (bc_offset bc) (bc_length bc) (bc_buffer_offset bc) 0 0 (bc_is_whole bc) (bc_is_new bc)) as Hleft.
  { unfold left_of. rewrite Hp. f_equal; lia. }
  pose proof B as [B1 B2 B3 B4 B5 B6 B7 B8]. split; try done. split; simpl; try done.
  - rewrite B1, length_app. simpl. lia.
  - change ((λ x, iovec_of (left_of x)) <$> bcq b ++ [bc]) with (map (λ x, iovec_of (left_of x)) (bcq b ++ [bc])).
    rewrite map_app. simpl. rewrite Hleft, B3. done.
  - change (covers (map left_of (bcq b ++ [bc])) off (off + (io_length b + bc_length bc))). rewrite map_app. simpl. rewrite Hleft. apply covers_app.
    exists (bc_offset bc). simpl. unfold bc_end. simpl. destruct (decide (bcq b = [])) as [Hq|Hq].
    + rewrite Hq. simpl. pose proof (proj2 (biov_empty _ B) Hq). rewrite (Hfirst Hq). split_and!; (done || lia).
    + destruct (Hnext Hq) as [-> Ha]. rewrite <- Ha. split; [exact B4|]. split_and!; (done || lia).
  - apply Forall_app. split; [done|]. apply Forall_singleton. lia.
  - apply Forall_app. split; [done|]. by apply Forall_singleton.
  - destruct (decide (bcq b = [])) as [Hq|Hq]; [rewrite (Hfirst Hq)|destruct (Hnext Hq) as [-> _]]; lia.
Qed.

Lemma add_bc_spec b w :
  picked (filecache w) → is_flushing w = true → biov_ok b → gathering wsize_adj b → (iovcnt b = 0 → io_offset b = 0) →
  wp (add_bc b bc) w (λ r w', match r with
    | Some b' => grown b b' ∧ ∃ c', w' = set_fcsm (running w) (flushing_seq_num w + bc_length bc) (flushed_seq_num w) (completed w) (set_filecache c' w) ∧ queued c'
    | None => w' = w ∧ iovcnt b ≠ 0
    end).
Proof.
  intros Pk Hfl B G Hz. pose proof Pk as [_ _ (mb & Hm & _ & _ & Hiu & Hl & _ & _ & _ & _ & Hup)]. pose proof G as [G1 G2 G3 G4].
  pose proof head_range as [Ho Hlen]. destruct (held_full _ _ _ _ _ _ _ _ _ _ _ W bc head_held) as [Hwh Hnw].
  destruct (co_ready _ _ _ _ _ _ _ _ _ _ _ W bc ltac:(by left)) as (_ & _ & Hp & _).
  unfold add_bc. wp_step. wp_step. apply wp_bind_assert; [done|]. apply wp_bind_assert; [by rewrite G1|].
  apply wp_bind_assert; [by rewrite (bo_cnt _ B), Z.eqb_refl|]. wp_asserts cmp. unfold maps_full_membuf. wp_step. rewrite Hwh, Hnw. wp_asserts done.
  wp_step. wp_asserts done. wp_step. apply wp_with_cache. eapply get_membuf_wp; [exact Hm|]. rewrite set_filecache_same. wp_asserts done.
  assert (iovcnt b = 0 ↔ bcq b = []) as Hempty by (rewrite (bo_cnt _ B); destruct (bcq b); simpl; split; (done || lia)).
  destruct (Z.eqb_spec (iovcnt b) 0) as [Hc|Hc].
  - pose proof (proj1 Hempty Hc) as Hq. pose proof (proj2 (biov_empty _ B) Hq). specialize (Hz Hc). wp_asserts cmp.
    wp_step. eapply wp_mono; [by apply enqueue_spec|]. cbv beta. intros b0 w' (-> & c' & -> & Q). wp_step. split; [|by exists c'].
    assert (iov b = []) as Hi by (rewrite (bo_iov _ B), Hq; done).
    pose proof (grown_by (bc_offset bc) (bcq b) (iovcnt b) b B G eq_refl eq_refl) as Gr. rewrite Hi, (proj2 (biov_empty _ B) Hq) in Gr.
    apply Gr; try done. rewrite Hc. done.
  - destruct (_ && _ && _) eqn:E; [|by wp_step]. rewrite !andb_true_iff, Z.eqb_eq, !Z.leb_le in E. destruct E as [[E1 E2] E3].
    wp_step. eapply wp_mono; [by apply enqueue_spec|]. cbv beta. intros b0 w' (-> & c' & -> & Q). wp_step. split; [|by exists c'].
    rewrite G2. apply grown_by; try done. by intros Hq%Hempty.
Qed.
End chunk.
End gather.
