(* ===== verification/FlushSync.v ===== *)
(** * sync_membufs()

    One iteration of its loop ([sync_chunk_spec]) and what comes after it
    ([sync_end_spec]) keep the invariant of the write-back. *)
From S2P Require Import Prelude CacheState Membuf MembufSpec ChunkMap FileCache CacheInv MembufInv CacheOps Purge ScanGet CacheGet ScanRelease CacheRelease CacheSize DirtyLists CacheSteps CacheFrame Readahead ReadPath ReadCache ReadInv WritePath WriteCache WriteBack FlushCache FlushInv FlushReply FlushState FlushGather.

Section sync.
Context (wsize_adj : Z) (file : Z → Z) (f0 : (Z → Z) * Z) (seq0 : Z).
Context (Hwsize : AZNFSCFG_WSIZE_MIN ≤ wsize_adj ≤ AZNFSCFG_WSIZE_MAX).

Abbreviation core := (FlushInv.core wsize_adj file f0).
Abbreviation winv := (FlushState.winv wsize_adj file f0 seq0).

(** ** The loop of sync_membufs() *)

(** [w'] is [w] when [n] more bytes are being flushed. *)
Record flushed_more (n : Z) (w w' : bstate) : Prop := {
  fm_lock : is_flushing w' = is_flushing w;
  fm_run : running w' = true;
  fm_error : write_error w' = write_error w;
  fm_commit : commit_in_progress w' = commit_in_progress w;
  fm_stable : stable_write w' = stable_write w;
  fm_putblock : putblock_filesize w' = if stable_write w then putblock_filesize w else putblock_filesize w + n;
  fm_seq : flushing_seq_num w' = flushing_seq_num w + n;
  fm_completed : completed w' = completed w ∧ flushed_seq_num w' = flushed_seq_num w;
  fm_committed : committing_seq_num w' = committing_seq_num w ∧ committed_seq_num w' = committed_seq_num w;
  fm_server : server w' = server w;
  fm_mem : buffers w' = buffers w;
}.

Section step.
Context (all : bool) (wr : Z → option Z) (w : bstate) (dn : list bytes_chunk) (bc : bytes_chunk) (td : list bytes_chunk) (task : option bc_iovec).
Context (V : winv all w) (Hsync : syncing w = Some (Sync dn (bc :: td) task)).
Context (W : core all wr (server w) (biovs w) dn (bc :: td) (filecache w) (buffers w)).

Abbreviation picked := (FlushGather.picked f0 wr (server w) (biovs w) dn bc td (filecache w) (buffers w)).
Abbreviation queued := (FlushGather.queued f0 wr (server w) (biovs w) dn bc td (filecache w) (buffers w)).

Lemma sync_biovs : biovs w = active (writes w) ++ option_list task.
Proof. unfold biovs. by rewrite Hsync. Qed.

(** The chunk went to [b'], the new task of the loop; [b0] is [b'] without it. *)
Lemma winv_gathered w' b0 b' :
  flushed_more (bc_length bc) w w' → queued (filecache w') → grown wsize_adj bc b0 b' →
  zsum orig_length (active (writes w')) + orig_length b' = zsum orig_length (biovs w) + bc_length bc →
  zsum io_length (active (writes w')) + io_length b' = zsum io_length (biovs w) + bc_length bc →
  Forall biov_ok (active (writes w')) → Forall (λ b, 0 < io_length b) (active (writes w')) →
  queue (active (writes w')) ++ bcq b0 ≡ₚ queue (biovs w) → winv all (set_syncing (Some (Sync (dn ++ [bc]) td (Some b'))) w').
Proof.
  intros [F1 F2 F3 F4 F5 F6 F7 [F8 F11] [F12 F13] F9 F10] Q [G1 G2 G3 G4] Ho Hi HB Hpos HQ. pose proof V as [_ Lk _ Er Cm Tk _ Sb Pu Ct Sn Lg Fl Cn].
  rewrite Hsync in Lk, Pu. simpl in Lk, Pu. pose proof (head_range _ _ _ _ _ _ _ _ _ _ _ _ W) as [_ Hlen].
  set (w2 := set_syncing _ w'). assert (biovs w2 = active (writes w') ++ [b']) as HL by done.
  split; rewrite ?HL, ?zsum_app; simpl; rewrite ?F1, ?F3, ?F4, ?F5, ?F6, ?F7, ?F8, ?F9, ?F10, ?F11, ?F12, ?F13; try done; try lia.
  - exists wr. eapply core_enqueued; [exact W|exact Q|apply Forall_app; split; [done|by apply Forall_singleton]|].
    unfold queue. rewrite bind_app. simpl. rewrite app_nil_r, G3, app_assoc. fold (queue (active (writes w'))). rewrite HQ. symmetry. apply Permutation_cons_append.
  - by right.
  - apply Forall_app. split; [done|]. apply Forall_singleton, biov_pos; [done|]. rewrite G3. by destruct (bcq b0).
  - apply Forall_singleton. done.
  - destruct (stable_write w); [done|]. lia.
Qed.

(** *** The task that the chunk goes to *)

(** A [bc_iovec] that the loop may add to. *)
Record open_biov (b : bc_iovec) : Prop := {
  ob_ok : biov_ok b;
  ob_gather : gathering wsize_adj b;
  ob_zero : iovcnt b = 0 → io_offset b = 0;
}.

Lemma bc_iovec_new_wp w1 (Q : bc_iovec → bstate → Prop) :
  (∀ b, open_biov b → bcq b = [] → io_length b = 0 → Q b w1) → wp (bc_iovec_new wsize_adj) w1 Q.
Proof.
  intros HQ. unfold bc_iovec_new. wp_step. wp_step. set (max := if stable_write w1 then wsize_adj else AZNFSCFG_WSIZE_MAX).
  assert (wsize_adj ≤ max ∧ AZNFSCFG_WSIZE_MIN ≤ max ≤ AZNFSCFG_WSIZE_MAX) as [H1 H2] by (unfold max; case_match; lia).
  assert (0 < max) as H3 by (unfold AZNFSCFG_WSIZE_MIN in *; lia).
  wp_asserts cmp. wp_step. apply HQ; [|done|done]. split; [|by split|done]. split; simpl; try done; unfold BC_IOVEC_MAX_VECTORS; lia.
Qed.

Definition at_loop (c : cache) : bstate := set_fcsm true (flushing_seq_num w) (flushed_seq_num w) (completed w) (set_filecache c w).

Lemma task_spec c :
  wp (match task with Some b => mret b | None => do b ← bc_iovec_new wsize_adj; do_ mark_running; mret b end) (set_filecache c w)
    (λ b w', w' = at_loop c ∧ open_biov b ∧ (task = Some b ∨ task = None ∧ bcq b = [] ∧ io_length b = 0)).
Proof.
  pose proof V as [_ Lk Rn _ _ Tk Ga _ _ _ _ _ _ _]. rewrite Hsync in Lk. pose proof sync_biovs as HL. rewrite Hsync in Ga. simpl in Ga.
  destruct task as [b|] eqn:Et.
  - unfold option_list in HL, Ga. simpl in HL, Ga. wp_step. destruct Rn as [Rn|Rn]; [rewrite HL in Rn; by destruct (active (writes w))|]. split.
    { unfold at_loop, set_fcsm. simpl. rewrite <- Rn. by destruct w. }
    split; [|by left]. rewrite Forall_singleton in Ga. pose proof (co_biov _ _ _ _ _ _ _ _ _ _ _ W) as HB. rewrite HL in HB, Tk.
    apply Forall_app in HB as [_ HB], Tk as [_ Tk]. rewrite Forall_singleton in HB. rewrite Forall_singleton in Tk. split; [done|done|].
    intros Hc. rewrite (bo_cnt _ HB) in Hc. assert (bcq b = []) as Hq by (destruct (bcq b); [done|simpl in Hc; lia]).
    apply (biov_empty _ HB) in Hq. lia.
  - wp_step. apply bc_iovec_new_wp. intros b Ob Hq Hl. wp_step. unfold mark_running. wp_step. wp_step. apply wp_bind_assert; [exact Lk|]. do 2 wp_step.
    split; [done|]. split; [done|]. by right.
Qed.

Lemma add_putblock_wp n w1 (Q : () → bstate → Prop) :
  stable_write w1 = stable_write w → putblock_filesize w1 = putblock_filesize w →
  Q () (set_inode (is_flushing w1) (stable_write w1) (write_error w1) (if stable_write w then putblock_filesize w else putblock_filesize w + n) w1) →
  wp (add_putblock n) w1 Q.
Proof.
  intros Hs Hp HQ. pose proof (wi_putblock _ _ _ _ _ _ V) as Pu. unfold add_putblock. wp_step. wp_step. rewrite Hs in *.
  destruct (stable_write w); simpl in *.
  - wp_step; [rewrite Hp, Pu; cmp|]. rewrite <- Hs, <- Hp in HQ. by destruct w1.
  - wp_step. by rewrite Hp, Hs.
Qed.

(** The chunk goes to the current task or to a new one. *)
Lemma sync_write_spec c :
  picked c → wp (sync_write wsize_adj task bc) (set_filecache c w) (λ b' w', winv all (set_syncing (Some (Sync (dn ++ [bc]) td (Some b'))) w') ∧
    flushed_more (bc_length bc) w w' ∧ jukeboxed (writes w') = jukeboxed (writes w)).
Proof.
  intros Pk. pose proof V as [_ Lk _ _ _ Tk _ _ _ _ _ _ _ _]. rewrite Hsync in Lk. pose proof sync_biovs as HL.
  pose proof (co_biov _ _ _ _ _ _ _ _ _ _ _ W) as HB. rewrite HL in HB, Tk. apply Forall_app in HB as [HB HBt], Tk as [Tk Tkt].
  unfold sync_write. wp_step. eapply wp_mono; [apply task_spec|]. cbv beta. intros b w1 (-> & [B G Z] & Hb). wp_step.
  eapply wp_mono; [by eapply (add_bc_spec wsize_adj file f0 all wr (server w) (biovs w) dn bc td (filecache w) (buffers w) W)|].
  cbv beta. intros [b'|] w2.
  - intros (Gr & c2 & -> & Q). wp_step. wp_step. wp_step. apply add_putblock_wp; [done|done|]. wp_step.
    pose proof Gr as [[] [_ _ G3 _] G4 G5]. destruct G as [_ _ G3' _].
    split; [|split; [by split|done]]. eapply winv_gathered; [by split|exact Q|exact Gr|simpl..]; try done.
    + rewrite HL, zsum_app. destruct Hb as [-> |(-> & Hq & Hl)]; simpl; lia.
    + rewrite HL, zsum_app. destruct Hb as [-> |(-> & Hq & Hl)]; simpl; lia.
    + rewrite HL. unfold queue. rewrite bind_app. destruct Hb as [-> |(-> & -> & _)]; simpl; by rewrite ?app_nil_r.
  - intros [-> Hc]. assert (task = Some b) as Ht.
    { destruct Hb as [?|(_ & Hq & _)]; [done|]. by rewrite (bo_cnt _ B), Hq in Hc. }
    rewrite Ht in Tkt. apply Forall_inv in Tkt. wp_step. wp_step. unfold issue_write_rpc. wp_step.
    eapply (issue_checks_wp wsize_adj file f0); [eapply core_perm; [|exact W]; rewrite HL, Ht; symmetry; apply Permutation_cons_append|done|done|].
    wp_step. wp_step. apply bc_iovec_new_wp. intros b1 [B1 G1 Z1] Hq1 Hl1. wp_step.
    eapply wp_mono; [by eapply (add_bc_spec wsize_adj file f0 all wr (server w) (biovs w) dn bc td (filecache w) (buffers w) W)|].
    cbv beta. intros [b'|] w2; [|intros [_ Hc1]; exfalso; apply Hc1; by rewrite (bo_cnt _ B1), Hq1].
    intros (Gr & c2 & -> & Q). wp_step; [done|]. wp_step. apply add_putblock_wp; [done|done|]. wp_step.
    assert (active (writes w ++ [WTask b Issued]) = biovs w) as Ha by (rewrite active_app, HL, Ht; done).
    pose proof Gr as [_ [_ _ G3 _] _ G5].
    split; [|split; [by split|unfold jukeboxed; simpl; rewrite zsum_app; simpl; lia]].
    eapply winv_gathered; [by split|exact Q|exact Gr|cbn [writes set_inode set_fcsm set_filecache set_writes at_loop]; rewrite Ha..]; try lia.
    + rewrite HL. by apply Forall_app.
    + rewrite HL, Ht. apply Forall_app. split; [done|by apply Forall_singleton].
    + by rewrite Hq1, app_nil_r.
Qed.

(** ** One iteration *)

Lemma to_write_wp c id mb truncated_too w1 (Q : bool → bstate → Prop) :
  filecache w1 = c → membufs c !! id = Some mb → mb_wf mb → mb_has Flushing mb = false → mb_has Dirty mb = true → is_truncated mb = false → Q true w1 →
  wp (to_write id truncated_too) w1 Q.
Proof.
  intros <- Hm Hwf Hf Hd Ht HQ. unfold to_write. wp_step. apply wp_with_cache. eapply get_membuf_wp; [exact Hm|]. rewrite set_filecache_same.
  wp_step. apply wp_with_cache, is_flushing_wp; [done|]. rewrite set_filecache_same, Hf.
  wp_step. apply wp_with_cache, is_dirty_wp; [done|]. rewrite set_filecache_same, Hd. wp_step. by rewrite Ht, andb_false_r.
Qed.

Lemma sync_chunk_step :
  wp (sync_chunk wsize_adj) w (λ _ w', winv all w' ∧ (∃ task', syncing w' = Some (Sync (dn ++ [bc]) td task')) ∧
    flushed_more (bc_length bc) w w' ∧ jukeboxed (writes w') = jukeboxed (writes w)).
Proof.
  destruct (head_mb _ _ _ _ _ _ _ _ _ _ _ _ W) as (mb & Hm & _ & Hwf & Hiu & _ & _ & Hf & Hd & Ht).
  destruct (held_full _ _ _ _ _ _ _ _ _ _ _ W bc ltac:(apply head_held)) as [Hwh Hnw].
  unfold sync_chunk. wp_step. wp_step. wp_step. wp_step; [exact Hsync|]. cbn [s_todo s_done s_task]. unfold maps_full_membuf. wp_step.
  rewrite Hwh, Hnw. wp_asserts done. wp_step. wp_asserts done. wp_step. apply wp_with_cache. eapply get_membuf_wp; [exact Hm|].
  rewrite set_filecache_same. wp_asserts done. wp_step. eapply to_write_wp; try done. simpl.
  wp_step. apply wp_with_cache. eapply wp_mono; [eapply (wlock_spec wsize_adj file f0); exact W|]. cbv beta. intros _ c Pk.
  destruct (pk_mb _ _ _ _ _ _ _ _ _ _ Pk) as (mb1 & Hm1 & _ & Hwf1 & _ & _ & _ & Hf1 & Hd1 & Ht1 & _).
  wp_step. eapply (to_write_wp c); try done. simpl. wp_step. eapply wp_mono; [by apply sync_write_spec|]. cbv beta. intros b' w' (V' & Fm & J). wp_step.
  split; [done|]. split; [by eexists|]. split; [|exact J]. by destruct Fm.
Qed.
End step.

Theorem sync_chunk_spec all w dn bc td task :
  winv all w → syncing w = Some (Sync dn (bc :: td) task) →
  wp (sync_chunk wsize_adj) w (λ _ w', winv all w' ∧ (∃ task', syncing w' = Some (Sync (dn ++ [bc]) td task')) ∧
    flushed_more (bc_length bc) w w' ∧ jukeboxed (writes w') = jukeboxed (writes w)).
Proof.
  intros V Hs. destruct (wi_core _ _ _ _ _ _ V) as [wr W]. rewrite Hs in W. by eapply sync_chunk_step.
Qed.

(** ** After the loop *)

Lemma core_dropped all wr sv L bc dn td c m :
  core all wr sv L (bc :: dn) td c m → wp (bytes_chunk_dtor bc) c (λ _ c', core all wr sv L dn td c' m).
Proof.
  intros W. pose proof (co_side _ _ _ _ _ _ _ _ _ _ _ W) as C.
  assert (places (queue L ++ td ++ bc :: dn) ≡ₚ place bc :: places (queue L ++ td ++ dn)) as Hp.
  { unfold places. rewrite !app_assoc, <- Permutation_middle. done. }
  eapply cside_perm in C; [|exact Hp|reflexivity..]. eapply wp_mono; [eapply (cside_drop _ _ _ _ _ _ _ _ _ _ (place bc) C)|].
  - intros i. rewrite vids_places, app_assoc, (vids_app (queue L ++ td)), occ_app. pose proof (occ_nonneg i (vids dn)). lia.
  - intros i. rewrite vids_app, elem_of_app. by left.
  - cbv beta. intros _ c' (C' & E & _). by eapply core_evolved.
Qed.

Lemma drop_vector all wr sv L td m dn : ∀ w,
  core all wr sv L dn td (filecache w) m →
  wp (mfor dn (λ bc, with_cache (bytes_chunk_dtor bc))) w (λ _ w', ∃ c', w' = set_filecache c' w ∧ core all wr sv L [] td c' m).
Proof.
  induction dn as [|bc dn IH]; intros w W; cbn [mfor].
  { wp_step. exists (filecache w). by rewrite set_filecache_same. }
  wp_step. apply wp_with_cache. eapply wp_mono; [by apply core_dropped|]. cbv beta. intros _ c1 W1.
  eapply wp_mono; [by apply (IH (set_filecache c1 w))|]. cbv beta. intros _ w' (c' & -> & W'). by exists c'.
Qed.

(** The leftover is a task as any other. *)
Lemma issue_leftover all w dn task :
  winv all w → syncing w = Some (Sync dn [] task) →
  wp (match task with Some b => issue_write_rpc b | None => mret () end) w
    (λ _ w', ∃ l, w' = set_writes l w ∧ active l = biovs w ∧ jukeboxed l = jukeboxed (writes w)).
Proof.
  intros V Hs. assert (biovs w = active (writes w) ++ option_list task) as HL by (unfold biovs; by rewrite Hs).
  destruct (wi_core _ _ _ _ _ _ V) as [wr W]. pose proof (wi_task _ _ _ _ _ _ V) as Tk. rewrite HL in Tk. apply Forall_app in Tk as [_ Tk].
  destruct task as [b|]; simpl in *.
  - apply Forall_inv in Tk. unfold issue_write_rpc. wp_step.
    eapply (issue_checks_wp wsize_adj file f0); [eapply core_perm; [|exact W]; rewrite HL; symmetry; apply Permutation_cons_append|done| |].
    { destruct (wi_run _ _ _ _ _ _ V) as [Rn|]; [|done]. rewrite HL in Rn. by destruct (active (writes w)). }
    wp_step. eexists. split; [done|]. split; [by rewrite active_app, HL|]. unfold jukeboxed. rewrite zsum_app. simpl. lia.
  - wp_step. exists (writes w). split; [by destruct w|]. by rewrite HL, app_nil_r.
Qed.

Lemma sync_end_spec all w dn task :
  winv all w → syncing w = Some (Sync dn [] task) → wp sync_end w (λ _ w', winv all w' ∧ syncing w' = None ∧
    flushing_seq_num w' = flushing_seq_num w ∧ server w' = server w ∧ jukeboxed (writes w') = jukeboxed (writes w)).
Proof.
  intros V Hs. destruct (wi_core _ _ _ _ _ _ V) as [wr W]. pose proof V as [_ Lk Rn Er Cm Tk _ Sb Pu Ct Sn Lg Fl Cn]. rewrite Hs in *. simpl in *.
  unfold sync_end. wp_step. wp_step. wp_step. wp_step; [exact Hs|]. cbn [s_todo s_done s_task]. wp_asserts done. wp_step.
  eapply wp_mono; [by eapply issue_leftover|]. cbv beta. intros _ w1 (l & -> & Ha & Hj). set (w2 := set_writes l w).
  wp_step. eapply wp_mono; [eapply (drop_vector _ _ _ _ _ _ _ w2); exact W|]. cbv beta. intros _ w3 (c & -> & W').
  wp_step. wp_step. unfold flush_unlock. wp_step. wp_step. apply wp_bind_assert; [exact Lk|]. wp_step. split; [|done].
  set (w' := set_inode _ _ _ _ _). assert (biovs w' = biovs w) as HL by (transitivity (active l ++ []); [done|by rewrite app_nil_r]).
  split; rewrite ?HL; simpl; try done; try lia.
  - exists wr. exact W'.
Qed.
End sync.
