(* ===== verification/FlushPick.v ===== *)
(** * How much a flush picks

    The dirty data that is not being flushed, as [get_bytes_to_flush()] counts it and as
    the queries of the file cache return it ([flushable_total]), when no dirty data is being
    truncated. *)
From S2P Require Import Prelude CacheState Membuf MembufSpec ChunkMap FileCache CacheInv CacheOps ScanGet CacheGet CacheSize DirtyLists CacheSteps CacheFrame ReadPath ReadCache WriteBack.

(** Nothing dirty has been truncated. *)
Definition untruncated (c : cache) : Prop := ∀ i mb, membufs c !! i = Some mb → mb_has Dirty mb = true → is_truncated mb = false.

Definition flushable_weight (mb : membuf) : Z := if flushable_mb mb then mb_length mb else 0.

(** What is flushable does not depend on who uses the membufs. *)
Record same_flags (c c' : cache) : Prop := {
  sf_map : chunkmap c' = chunkmap c;
  sf_flag : ∀ i, mb_flag <$> membufs c' !! i = mb_flag <$> membufs c !! i;
}.

Lemma same_flags_refl c : same_flags c c.
Proof. by split. Qed.

Lemma same_flags_trans c1 c2 c3 : same_flags c1 c2 → same_flags c2 c3 → same_flags c1 c3.
Proof. intros [H1 F1] [H2 F2]. split; [congruence|]. intros i. by rewrite F2. Qed.

Lemma same_flags_replaced c c' i mb n :
  membufs c !! i = Some mb → replaced i (mb_set_inuse n mb) c c' → same_flags c c'.
Proof.
  intros Hm [Hh Hc]. split; [done|]. intros j. rewrite Hh. destruct (decide (j = i)) as [->|Hne].
  - by rewrite lookup_insert_eq, Hm.
  - by rewrite lookup_insert_ne.
Qed.

Lemma same_flags_took v c c' : took DirtyLists.taken v c c' → same_flags c c'.
Proof.
  intros Ht. split; [apply (tk_map _ _ _ _ Ht)|]. intros i. rewrite (tk_heap _ _ _ _ Ht). case_decide; [|done].
  by destruct (membufs c !! i).
Qed.

Lemma flushable_flags mb mb' : mb_flag mb' = mb_flag mb → flushable_mb mb' = flushable_mb mb.
Proof. intros H. unfold flushable_mb, is_truncated, mb_has. by rewrite H. Qed.

Lemma qualifying_same c c' :
  same_flags c c' → qualifying flushable_mb c' (chunkmap c') = qualifying flushable_mb c (chunkmap c).
Proof.
  intros [Hm Hf]. unfold qualifying. rewrite Hm. f_equal. apply filter_ext_in. intros p _. unfold chunk_is.
  specialize (Hf (bc_alloc_buffer p.2)). destruct (membufs c !! _) as [mb|], (membufs c' !! _) as [mb'|]; simplify_eq/=; [|done].
  by rewrite (flushable_flags mb mb').
Qed.

Section pick.
Context (c : cache) (I : inv c).
Context (Hdirty : ∀ i mb, membufs c !! i = Some mb → mb_has Dirty mb = true → i ∈ ids (chunkmap c)).
Context (Hflushing : ∀ i mb, membufs c !! i = Some mb → mb_has Flushing mb = true → mb_has Dirty mb = true).

Lemma selected_all : selected flushable_mb c 0 UINT64_MAX = qualifying flushable_mb c (chunkmap c).
Proof.
  unfold selected, qualifying. f_equal. apply filter_ext_in. intros [k bc] Hin. simpl. split; [by intros [_ ?]|]. intros H. split; [|done].
  destruct (inv_chunk_bounds _ _ I _ _ Hin) as (-> & H0 & Hl & He). unfold bc_end, AZNFSC_MAX_FILE_SIZE, AZNFSC_MAX_BLOCK_SIZE in He.
  unfold UINT64_MAX. lia.
Qed.

Lemma qualifying_sum m :
  (∀ k bc, (k, bc) ∈ m → ∃ mb, membufs c !! bc_alloc_buffer bc = Some mb ∧ linked bc mb) →
  hsum flushable_weight (membufs c) m = bc_bytes (qualifying flushable_mb c m).
Proof.
  induction m as [|[k bc] m IH]; intros Hl; [done|]. destruct (Hl k bc) as (mb & Hm & [_ Ll _]); [by left|].
  rewrite qualifying_cons. unfold chunk_is. simpl. rewrite Hm, IH by (intros k' b Hb; apply (Hl k'); by right).
  simpl. unfold flushable_weight. destruct (flushable_mb mb); simpl; lia.
Qed.

Lemma flushable_total :
  untruncated c → bc_bytes (qualifying flushable_mb c (chunkmap c)) = st c bytes_dirty - st c bytes_flushing.
Proof.
  intros Hu. rewrite <- qualifying_sum by apply (inv_link _ _ I).
  rewrite <- msum_hsum_part; [|apply (inv_ids _ _ I)|].
  - rewrite !(inv_st _ _ I) by done. enough (msum (weight bytes_dirty) (membufs c) =
      msum (λ mb, flushable_weight mb + weight bytes_flushing mb) (membufs c)) as -> by (rewrite msum_add; lia).
    assert (∀ i mb, membufs c !! i = Some mb → weight bytes_dirty mb = flushable_weight mb + weight bytes_flushing mb) as Hw.
    { intros i mb Hm. specialize (Hu _ _ Hm). pose proof (Hflushing _ _ Hm) as Hfl. unfold flushable_weight, flushable_mb. simpl.
      destruct (mb_has Dirty mb), (mb_has Flushing mb); simpl; first [lia|rewrite Hu by done; simpl; lia|by discriminate Hfl]. }
    apply Z.le_antisymm; apply msum_mono; intros i mb Hm; rewrite (Hw _ _ Hm); lia.
  - intros i mb Hm Hi. unfold flushable_weight, flushable_mb. destruct (mb_has Dirty mb) eqn:Hd; [|done]. by destruct Hi; eapply Hdirty.
Qed.

(** A run of such chunks is empty only if it has no bytes. *)
Lemma bc_bytes_nonneg v : (∀ b, b ∈ v → 0 < bc_length b) → 0 ≤ bc_bytes v.
Proof.
  induction v as [|b v IH]; intros Hl; [done|]. simpl. pose proof (Hl b ltac:(by left)).
  enough (0 ≤ bc_bytes v) by lia. apply IH. intros x Hx. apply Hl. by right.
Qed.

Lemma picked_empty v w : qualifying flushable_mb c (chunkmap c) = v ++ w → (0 < bc_bytes v ↔ v ≠ []) ∧ 0 ≤ bc_bytes v.
Proof.
  intros Hq. assert (∀ b, b ∈ v → 0 < bc_length b) as Hl.
  { intros b Hb. assert (b ∈ v ++ w) as Hb' by (apply elem_of_app; by left). rewrite <- Hq in Hb'.
    apply list_elem_of_fmap in Hb' as ([k y] & -> & [_ Hin]%list_elem_of_filter). simpl. by destruct (inv_chunk_bounds _ _ I _ _ Hin) as (_ & _ & ? & _). }
  split; [|by apply bc_bytes_nonneg]. destruct v as [|b v]; [split; [simpl; lia|done]|]. split; [done|]. intros _. simpl.
  pose proof (Hl b ltac:(by left)). enough (0 ≤ bc_bytes v) by (unfold bc_bytes in *; simpl in *; lia).
  apply bc_bytes_nonneg. intros x Hx. apply Hl. by right.
Qed.

(** What [get_bytes_to_flush()] returns. *)
Lemma bytes_to_flush_total w :
  filecache w = c → untruncated c → get_bytes_to_flush w = bc_bytes (qualifying flushable_mb c (chunkmap c)).
Proof.
  intros Hw Hu. unfold get_bytes_to_flush. rewrite Hw, <- flushable_total by done. apply Z.max_l.
  by apply (picked_empty _ []); rewrite app_nil_r.
Qed.
End pick.
