(* ===== verification/FlushStart.v ===== *)
(** * The start of a flush

    [sync_start]: the flush lock is taken, the dirty chunks are picked ([core_took]), and it
    is decided whether writes become stable. *)
From S2P Require Import Prelude CacheState Membuf MembufSpec ChunkMap FileCache CacheInv MembufInv CacheOps Purge ScanGet CacheGet ScanRelease CacheRelease CacheSize DirtyLists CacheSteps CacheFrame Readahead ReadPath ReadCache ReadInv WritePath WriteCache WriteBack FlushCache FlushInv FlushReply FlushState FlushGather FlushSync FlushPick.

(** ** Runs that may abort

    [may_abort b m s Q]: if [m] runs from [s] its result satisfies [Q], and it aborts only
    if [b] allows it. *)
Definition may_abort {S A} (b : bool) (m : M S A) (s : S) (Q : A → S → Prop) : Prop :=
  match m s with Some (a, s') => Q a s' | None => b = true end.

Lemma ma_wp {S A} b (m : M S A) s Q : wp m s Q → may_abort b m s Q.
Proof. intros (a & s' & Hm & HQ). unfold may_abort. by rewrite Hm. Qed.

Lemma ma_bind {S A B} b (m : M S A) (k : A → M S B) s Q :
  may_abort b m s (λ a s', may_abort b (k a) s' Q) → may_abort b (bind m k) s Q.
Proof. unfold may_abort, bind. by destruct (m s) as [[a s']|]. Qed.

Lemma ma_after {S A B} b (m : M S A) (k : A → M S B) s Q :
  wp m s (λ a s', may_abort b (k a) s' Q) → may_abort b (bind m k) s Q.
Proof. intros H. apply ma_bind. by apply ma_wp. Qed.

Lemma ma_assert {S A} b a (k : () → M S A) s Q :
  (b = false → a = true) → (a = true → may_abort b (k ()) s Q) → may_abort b (bind (massert a) k) s Q.
Proof. intros Ha Hk. unfold may_abort, bind, massert. destruct a; [by apply Hk|]. destruct b; [done|]. by specialize (Ha eq_refl). Qed.

Lemma ma_mono {S A} b (m : M S A) s (Q Q' : A → S → Prop) :
  may_abort b m s Q → (∀ a s', Q a s' → Q' a s') → may_abort b m s Q'.
Proof. unfold may_abort. intros H HQ. destruct (m s) as [[a s']|]; [by apply HQ|done]. Qed.

Lemma ma_total {S A} (m : M S A) s Q : may_abort false m s Q → wp m s Q.
Proof. unfold may_abort. destruct (m s) as [[a s']|] eqn:E; [|done]. intros HQ. by exists a, s'. Qed.

Lemma ma_run {S A} b (m : M S A) s Q : may_abort b m s Q → wlp m s Q.
Proof. unfold may_abort. intros H a s' Hm. by rewrite Hm in H. Qed.

(** ** Membufs without a flag *)

Definition nothing (f : MB_Flag) (c : cache) : Prop := ∀ i mb, membufs c !! i = Some mb → mb_has f mb = false.

Lemma flag_sum_zero c f : inv c → msum (flag_weight f) (membufs c) = 0 ↔ nothing f c.
Proof.
  intros I. assert (∀ i mb, membufs c !! i = Some mb → 0 < mb_length mb) as Hl.
  { intros i mb Hm. apply (inv_heap _ _ I) in Hm as [Hwf _]. by apply wf_length. }
  assert (∀ i mb, membufs c !! i = Some mb → 0 ≤ flag_weight f mb) as Hp.
  { intros i mb Hm. unfold flag_weight. pose proof (Hl _ _ Hm). case_match; lia. }
  split.
  - intros H i mb Hm. pose proof (msum_elem_le (flag_weight f) _ i mb Hp Hm) as Hle. unfold flag_weight at 1 in Hle.
    pose proof (Hl _ _ Hm). destruct (mb_has f mb); [lia|done].
  - intros H. pose proof (msum_nonneg (flag_weight f) (membufs c) Hp).
    enough (msum (flag_weight f) (membufs c) ≤ msum (λ _, 0) (membufs c)) as Hle.
    { enough (msum (λ _ : membuf, 0) (membufs c) = 0) by lia. clear. unfold msum. induction (membufs c) as [|i x m Hi IH] using map_ind.
      - by rewrite map_fold_empty.
      - rewrite map_fold_insert_L; [simpl; lia|intros; lia|done]. }
    apply msum_mono. intros i mb Hm. unfold flag_weight. by rewrite (H _ _ Hm).
Qed.

Lemma flushing_zero c : inv c → st c bytes_flushing = 0 ↔ nothing Flushing c.
Proof. intros I. rewrite (inv_st _ _ I) by done. by apply flag_sum_zero. Qed.

Lemma pending_zero c : inv c → st c bytes_commit_pending = 0 ↔ nothing CommitPending c.
Proof. intros I. rewrite (inv_st _ _ I) by done. by apply flag_sum_zero. Qed.

(** ** The chunks that are picked *)

Lemma places_app v v' : places (v ++ v') = places v ++ places v'.
Proof. apply fmap_app. Qed.

Lemma places_places v : places (places v) = places v.
Proof. unfold places. rewrite <- list_fmap_compose. by apply list_fmap_ext. Qed.

Record picks (c : cache) (v : list bytes_chunk) : Prop := {
  pi_elem : ∀ bc, bc ∈ v → ∃ k mb, (k, bc) ∈ chunkmap c ∧ membufs c !! bc_alloc_buffer bc = Some mb ∧ flushable_mb mb = true;
  pi_nodup : NoDup (vids v);
}.

Lemma filter_picks c (Q : Z * bytes_chunk → Prop) `{!∀ p, Decision (Q p)} :
  inv c → (∀ p, Q p → chunk_is flushable_mb c p.2 = true) → picks c (filter Q (chunkmap c)).*2.
Proof.
  intros I HQ. split.
  - intros bc ([k x] & -> & [Hq Hin]%list_elem_of_filter)%list_elem_of_fmap. simpl. specialize (HQ _ Hq). unfold chunk_is in HQ. simpl in HQ.
    destruct (membufs c !! bc_alloc_buffer x) as [mb|]; [|done]. by exists k, mb.
  - change (NoDup (ids (filter Q (chunkmap c)))). eapply sublist_NoDup; [apply (inv_ids _ _ I)|].
    unfold ids. do 2 apply fmap_sublist. apply sublist_filter.
Qed.

Lemma qualifying_picks c : inv c → picks c (qualifying flushable_mb c (chunkmap c)).
Proof. intros I. by apply filter_picks. Qed.

Lemma picks_prefix c v w : picks c (v ++ w) → picks c v.
Proof.
  intros [H N]. split; [intros bc Hb; apply H, elem_of_app; by left|]. rewrite vids_app in N. by apply NoDup_app in N as [? _].
Qed.

Lemma quiet_took K v c c' : took DirtyLists.taken v c c' → quiet K c c'.
Proof.
  intros [I' Hk Hh Hz Hn _]. split; [| |done].
  - intros i mb _ Hm. rewrite Hh, Hm. case_decide; [by eexists|by exists mb].
  - intros i mb'. rewrite Hh. case_decide.
    + intros (mb & Hm & ->)%fmap_Some Hd. exists mb. split_and!; [done|exact Hd|simpl; lia].
    + intros Hm Hd. exists mb'. split_and!; (done || lia).
Qed.

Lemma nothing_took f v c c' : took DirtyLists.taken v c c' → nothing f c → nothing f c'.
Proof.
  intros Ht H i mb'. rewrite (tk_heap _ _ _ _ Ht). case_decide; [|by eauto]. intros (mb & Hm & ->)%fmap_Some. exact (H i mb Hm).
Qed.

Section start.
Context (wsize_adj : Z) (file : Z → Z) (f0 : (Z → Z) * Z) (seq0 : Z).
Context (Hwsize : AZNFSCFG_WSIZE_MIN ≤ wsize_adj ≤ AZNFSCFG_WSIZE_MAX).

Abbreviation core := (FlushInv.core wsize_adj file f0).
Abbreviation winv := (FlushState.winv wsize_adj file f0 seq0).

(** Nothing is being flushed iff no chunk is in a queue. *)
Lemma idle_queue all wr sv L dn td c m : core all wr sv L dn td c m → st c bytes_flushing = 0 ↔ queue L = [].
Proof.
  intros W. rewrite flushing_zero by apply (core_inv _ _ _ _ _ _ _ _ _ _ _ W). split.
  - intros H. destruct (queue L) as [|bc q] eqn:E; [done|]. exfalso.
    destruct (co_flushing _ _ _ _ _ _ _ _ _ _ _ W bc) as (mb & Hm & _ & _ & Hf); [rewrite E; by left|]. by rewrite (H _ _ Hm) in Hf.
  - intros HQ i mb Hm. apply not_true_iff_false. intros Hf. pose proof (cs_flush _ _ _ _ _ _ _ _ _ _ (co_side _ _ _ _ _ _ _ _ _ _ _ W) _ _ Hm Hf) as Hi.
    rewrite HQ in Hi. by apply elem_of_nil in Hi.
Qed.

(** The chunks that a query returns are the vector of [sync_membufs()]. *)
Lemma core_took all all' wr sv L dn c c' m v :
  core all wr sv L dn [] c m → picks c v → took DirtyLists.taken v c c' →
  (all' = true → all = true ∨ ∀ i mb, membufs c !! i = Some mb → mb_has Dirty mb = true → mb_has Flushing mb = true ∨ i ∈ vids v) →
  core all' wr sv L dn v c' m.
Proof.
  intros W [Hp Hnd] Ht Hall. pose proof W as [C Fl B F R N S Sm E A]. pose proof (cs_inv _ _ _ _ _ _ _ _ _ _ C) as I. simpl in C, N, A.
  rewrite app_nil_r in C, N, A. pose proof (quiet_took (λ _, True) _ _ _ Ht) as Q.
  assert (∀ bc, bc ∈ v → bc_alloc_buffer bc ∉ vids (queue L)) as Hout.
  { intros bc Hb (x & Hx & Hq)%list_elem_of_fmap. destruct (Hp _ Hb) as (k & mb & _ & Hm & Hf). rewrite Hx in Hm.
    destruct (F _ Hq) as (mb' & Hm' & _ & _ & Hf'). assert (mb' = mb) as -> by congruence. unfold flushable_mb in Hf. rewrite Hf' in Hf.
    by rewrite andb_false_r in Hf. }
  assert (∀ bc, bc ∈ v → ∃ k, (k, bc) ∈ chunkmap c) as Hin by (intros bc Hb; destruct (Hp _ Hb) as (k & _ & ? & _); eauto).
  split; try done.
  - pose proof (cside_took _ _ _ _ _ c' _ _ _ _ _ v C Hnd Hin Ht) as C1.
    rewrite !places_app. eapply (cside_places _ _ _ _ _ _ (places (queue L) ++ v ++ places dn) _ _ _ (places (queue L) ++ v)).
    + by rewrite !places_app, !places_places.
    + by rewrite !places_app, !places_places.
    + eapply cside_perm; [..|exact C1]; rewrite ?places_app, ?vids_app; [by rewrite Permutation_app_swap_app|apply Permutation_app_comm|done|apply Permutation_app_comm].
  - intros x Hx. eapply marked_quiet; [exact Q|done|by apply F].
  - intros x Hx. destruct (Hp _ Hx) as (k & mb & Hk & Hm & Hf). unfold flushable_mb in Hf. rewrite !andb_true_iff, !negb_true_iff in Hf.
    destruct (inv_plain _ _ I _ _ Hk) as (H1 & H2 & H3). destruct (inv_link _ _ I _ _ Hk) as (mb' & Hm' & [L1 L2 L3]).
    assert (mb' = mb) as -> by congruence. split; [|split; [done|split; [done|]]].
    + eapply marked_quiet; [exact Q|done|]. exists mb. unfold is_truncated in Hf. naive_solver.
    + rewrite L2. apply (Sm _ _ Hm). naive_solver.
  - rewrite vids_app. apply NoDup_app. split; [done|]. split; [|done]. intros i Hi (x & -> & Hx)%list_elem_of_fmap. by eapply Hout.
  - intros i mb Hm Hd. destruct (qt_dirt _ _ _ Q _ _ Hm Hd) as (mb0 & Hm0 & Hd0 & Hl). specialize (Sm _ _ Hm0 Hd0). lia.
  - by rewrite (qt_size _ _ _ Q).
  - intros Ha i mb Hm Hd. rewrite vids_app, elem_of_app. destruct (qt_dirt _ _ _ Q _ _ Hm Hd) as (mb0 & Hm0 & Hd0 & _).
    destruct (Hall Ha) as [Ha'|H]; [left; by eapply A|]. destruct (H _ _ Hm0 Hd0) as [Hf|?]; [left|by right].
    by apply (cs_flush _ _ _ _ _ _ _ _ _ _ C _ _ Hm0).
Qed.

(** A chunk of the vector is let go unwritten. *)
Lemma core_skip all wr sv L dn bc td c m :
  core all wr sv L dn (bc :: td) c m →
  wp (clear_inuse (bc_alloc_buffer bc)) c (λ _ c', core false wr sv L (bc :: dn) td c' m ∧ same_flags c c').
Proof.
  intros W. pose proof W as [C Fl B F R N S Sm E A]. set (id := bc_alloc_buffer bc) in *.
  pose proof (head_fresh _ _ _ _ _ _ _ _ _ _ _ _ W) as Hout. fold id in Hout.
  assert (vids (queue L ++ bc :: td) ≡ₚ id :: vids (queue L ++ td)) as Hv by (unfold vids; by rewrite <- Permutation_middle).
  assert (id ∉ vids (queue L ++ td)) as Hne by (rewrite Hv in N; by apply NoDup_cons in N as [? _]).
  eapply cside_perm in C; [|reflexivity|exact Hv|reflexivity|reflexivity].
  eapply wp_mono; [eapply (cside_clear_inuse _ _ _ _ _ _ _ _ _ _ (places (queue L ++ td)) id C)|].
  - done.
  - intros x (y & -> & Hy)%list_elem_of_fmap. split; [|exact (list_elem_of_fmap_2 bc_alloc_buffer _ _ Hy)]. apply list_elem_of_fmap_2.
    rewrite elem_of_app, elem_of_cons. apply elem_of_app in Hy. tauto.
  - cbv beta. intros _ c' (C' & mb & Hm & R' & Hz). set (mb' := mb_set_inuse _ mb) in *.
    assert (quiet (λ _, True) c c') as Q by by eapply (quiet_same_flag _ id mb mb').
    assert (places (queue L ++ td ++ bc :: dn) ≡ₚ places (queue L ++ (bc :: td) ++ dn)) as Hp.
    { unfold places. apply fmap_Permutation, Permutation_app_head. symmetry. apply Permutation_middle. }
    split; [|by eapply same_flags_replaced]. split; try done.
    + eapply cside_perm; [symmetry; exact Hp|reflexivity..|exact C'].
    + intros x Hx. eapply marked_quiet; [exact Q|done|by apply F].
    + intros x Hx. destruct (R x) as (? & ? & ?); [by right|]. split; [|done]. by eapply marked_quiet.
    + rewrite Hv in N. by apply NoDup_cons in N as [_ ?].
    + intros i x Hx Hd. destruct (qt_dirt _ _ _ Q _ _ Hx Hd) as (mb0 & Hm0 & Hd0 & Hl). specialize (Sm _ _ Hm0 Hd0). lia.
    + by rewrite (qt_size _ _ _ Q).
Qed.

Lemma core_weaken all wr sv L dn td c m : core all wr sv L dn td c m → core false wr sv L dn td c m.
Proof. by intros []. Qed.

Lemma core_done_perm all wr sv L dn dn' td c m : dn ≡ₚ dn' → core all wr sv L dn td c m → core all wr sv L dn' td c m.
Proof.
  intros Hd [C Fl B F R N S Sm E A]. split; try done. eapply cside_perm; [|reflexivity..|exact C]. unfold places. by rewrite Hd.
Qed.

Lemma skip_vector wr sv L m td : ∀ dn w,
  core false wr sv L dn td (filecache w) m →
  wp (mfor td (λ bc, with_cache (clear_inuse (bc_alloc_buffer bc)))) w
    (λ _ w', ∃ c', w' = set_filecache c' w ∧ core false wr sv L (td ++ dn) [] c' m ∧ same_flags (filecache w) c').
Proof.
  induction td as [|bc td IH]; intros dn w W; cbn [mfor].
  { wp_step. exists (filecache w). by rewrite set_filecache_same. }
  wp_step. apply wp_with_cache. eapply wp_mono; [by eapply core_skip|]. cbv beta. intros _ c1 [W1 F1].
  eapply wp_mono; [by apply (IH (bc :: dn) (set_filecache c1 w))|]. cbv beta. intros _ w' (c' & -> & W' & F'). exists c'.
  split; [done|]. split; [|by eapply same_flags_trans]. apply (core_done_perm _ _ _ _ (td ++ bc :: dn)); [|exact W']. symmetry. apply Permutation_middle.
Qed.

(** ** Picking *)

(** What is dirty is in the chunkmap, what is being flushed is dirty. *)
Lemma core_dirty all wr sv L dn td c m : core all wr sv L dn td c m →
  (∀ i mb, membufs c !! i = Some mb → mb_has Dirty mb = true → i ∈ ids (chunkmap c)) ∧
  (∀ i mb, membufs c !! i = Some mb → mb_has Flushing mb = true → mb_has Dirty mb = true).
Proof.
  intros W. pose proof (co_side _ _ _ _ _ _ _ _ _ _ _ W) as C. split; intros i mb Hm Hf.
  - apply (cs_unsaved _ _ _ _ _ _ _ _ _ _ C _ _ Hm). unfold unsaved. by rewrite Hf.
  - apply (cs_flush _ _ _ _ _ _ _ _ _ _ C _ _ Hm) in Hf as (bc & -> & Hb)%list_elem_of_fmap.
    destruct (co_flushing _ _ _ _ _ _ _ _ _ _ _ W _ Hb) as (mb' & Hm' & Hd & _). congruence.
Qed.

(** All the dirty chunks that are not being flushed. *)
Lemma pick_all all all' wr L dn w :
  core all wr (server w) L dn [] (filecache w) (buffers w) → (all' = true → all = true ∨ untruncated (filecache w)) →
  wp (with_cache (get_dirty_nonflushing_bcs_range 0 UINT64_MAX)) w (λ r w', r = (qualifying flushable_mb (filecache w) (chunkmap (filecache w)), bc_bytes r.1) ∧
    ∃ c', w' = set_filecache c' w ∧ core all' wr (server w) L dn r.1 c' (buffers w)).
Proof.
  intros W Hall. pose proof (core_inv _ _ _ _ _ _ _ _ _ _ _ W) as I. set (v := selected flushable_mb (filecache w) 0 UINT64_MAX).
  apply wp_with_cache. unfold get_dirty_nonflushing_bcs_range. wp_step.
  eapply wp_mono; [eapply (range_query_spec _ flushable_mb); [apply select_flushable_decides|done|unfold UINT64_MAX; lia]|].
  cbv beta. intros v' c' [-> Ht]. fold v in Ht |- *. wp_step. split; [unfold v; simpl; by rewrite selected_all|].
  exists c'. split; [done|]. eapply core_took; [exact W| |exact Ht|].
  - apply filter_picks; [done|]. by intros p [_ ?].
  - intros Ha. destruct (Hall Ha) as [?|Hu]; [by left|right]. intros i mb Hm Hd. destruct (mb_has Flushing mb) eqn:Hf; [by left|right].
    pose proof (proj1 (core_dirty _ _ _ _ _ _ _ _ W) _ _ Hm Hd) as (k & x & Hin & <-)%elem_of_ids.
    apply list_elem_of_fmap_2. unfold v. rewrite selected_all by done. apply list_elem_of_fmap. exists (k, x). split; [done|].
    apply list_elem_of_filter. split; [|done]. unfold chunk_is. simpl. rewrite Hm. unfold flushable_mb. by rewrite Hd, Hf, (Hu _ _ Hm Hd).
Qed.

(** The run that [get_contiguous_dirty_bcs()] returns. *)
Record run_of (c c' : cache) (v : list bytes_chunk) : Prop := {
  rn_took : took DirtyLists.taken v c c';
  rn_some : ∃ w, qualifying flushable_mb c (chunkmap c) = v ++ w ∧ (v = [] → w = []);
  rn_head : ∀ bc q, v = bc :: q → ∃ r, qualifying flushable_mb c (chunkmap c) = bc :: r;
  rn_range : ∀ bc q, v = bc :: q → ∃ e, covers v (bc_offset bc) e ∧ e ≤ AZNFSC_MAX_FILE_SIZE;
}.

Lemma pick_run all wr L dn w :
  core all wr (server w) L dn [] (filecache w) (buffers w) →
  wp (with_cache get_contiguous_dirty_bcs) w (λ r w', r.2 = bc_bytes r.1 ∧ ∃ c', w' = set_filecache c' w ∧
    core false wr (server w) L dn r.1 c' (buffers w) ∧ run_of (filecache w) c' r.1).
Proof.
  intros W. pose proof (core_inv _ _ _ _ _ _ _ _ _ _ _ W) as I. set (c := filecache w) in *.
  destruct (contiguous_loop_spec (chunkmap c) AZNFSC_BAD_OFFSET [] c I eq_refl) as (v & c' & Hrun & Ht & x & Hq & Hfrom).
  assert (∀ b, b ∈ v → 0 < bc_length b ∧ bc_end b ≤ AZNFSC_MAX_FILE_SIZE) as Hv.
  { intros b Hb. assert (b ∈ qualifying flushable_mb c (chunkmap c)) as Hb' by (rewrite Hq; apply elem_of_app; by left).
    apply list_elem_of_fmap in Hb' as ([k y] & -> & [_ Hin]%list_elem_of_filter). destruct (inv_chunk_bounds _ _ I _ _ Hin) as (_ & _ & ? & ?). done. }
  apply wp_with_cache. exists (v, bc_bytes v), c'. split; [unfold get_contiguous_dirty_bcs, bind, mget; fold c; by rewrite Hrun|].
  split; [done|]. exists c'. split; [done|]. cbn [fst]. split; [|split; [done|..]].
  - eapply core_took; [by eapply core_weaken| |exact Ht|done]. apply (picks_prefix _ _ x). rewrite <- Hq. by apply qualifying_picks.
  - exists x. split; [done|]. intros ->. by destruct x as [|? ?]; [|destruct Hfrom].
  - intros bc q ->. exists (q ++ x). by rewrite Hq.
  - intros bc q ->. destruct (run_covers AZNFSC_BAD_OFFSET bc q x) as (e & Hcov & _); [|done|].
    { intros b Hb. destruct (Hv b Hb). split; [done|]. by apply bad_offset_out. }
    exists e. split; [done|]. destruct (covers_at _ _ _ (e - 1) Hcov) as (b & Hb & Hlt).
    { destruct Hcov as (_ & ? & Hle%covers_le). unfold bc_end in *. lia. }
    destruct (Hv b Hb). lia.
Qed.

(** ** sync_start *)

(** The flush may start: no other holds the lock; while writes are unstable all have ended, and
    if the next does not append to what is already staged, nothing waits for a commit. *)
Definition appending (w : bstate) : Prop :=
  ∀ bc r, qualifying flushable_mb (filecache w) (chunkmap (filecache w)) = bc :: r → putblock_filesize w = bc_offset bc.

Definition startable (w : bstate) : Prop :=
  syncing w = None ∧ (stable_write w = false → st (filecache w) bytes_flushing = 0 ∧
    (st (filecache w) bytes_commit_pending = 0 ∨ appending w)).

(** The state when the loop is entered. *)
Definition entered (sb : bool) (pb : Z) (v : list bytes_chunk) (c : cache) (w : bstate) : bstate :=
  set_syncing (Some (Sync [] v None)) (set_inode true sb (write_error w) pb (set_filecache c w)).

Section enter.
Context (all all' : bool) (w : bstate) (V : winv all w) (Hs : syncing w = None).

Lemma winv_entered wr sb pb v c :
  core all' wr (server w) (biovs w) [] v c (buffers w) → (all' = true → sb = true) →
  (if sb then pb = AZNFSC_BAD_OFFSET else 0 ≤ pb ∧ pb + bc_bytes v ≤ AZNFSC_MAX_FILE_SIZE) → winv all' (entered sb pb v c w).
Proof.
  intros W Hsb Hpb. pose proof V as [_ Lk Rn Er Cm Tk _ _ _ Ct Sn Lg Fl Cn].
  assert (biovs (entered sb pb v c w) = biovs w) as HL by (unfold biovs; by rewrite Hs).
  split; rewrite ?HL; try done. exists wr. exact W.
Qed.

Lemma head_in_file a wr v c bc q : core a wr (server w) (biovs w) [] v c (buffers w) → v = bc :: q → bc_offset bc ≤ AZNFSC_MAX_FILE_SIZE.
Proof.
  intros W ->. destruct (head_mb _ _ _ _ _ _ _ _ _ _ _ _ W) as (mb & _ & [L1 L2 L3] & Hwf & _). pose proof (wf_file _ Hwf).
  pose proof (wf_fits _ Hwf). pose proof (wf_length _ Hwf). lia.
Qed.

(** Writes are stable. *)
Lemma enter_stable a wr v c w1 (Q : () → bstate → Prop) :
  core a wr (server w) (biovs w) [] v c (buffers w) → w1 = set_inode true true (write_error w) AZNFSC_BAD_OFFSET (set_filecache c w) →
  Q () (entered true AZNFSC_BAD_OFFSET v c w) → wp (sync_enter v) w1 Q.
Proof.
  intros W -> HQ. unfold sync_enter. wp_step. wp_step. simpl. wp_step. wp_step. apply wp_bind_assert; [by rewrite (wi_commit _ _ _ _ _ _ V)|].
  destruct v as [|bc q]; [wp_step; wp_step; by wp_step|]. pose proof (head_in_file _ _ _ _ _ _ W eq_refl).
  wp_step. wp_step. unfold check_stable_write_required. wp_step. wp_step. apply wp_bind_assert; [done|]. wp_asserts cmp. simpl. wp_step. wp_step. by wp_step.
Qed.

(** Writes are unstable: nothing is being flushed. *)
Lemma enter_unstable wr v c0 c w1 :
  core false wr (server w) (biovs w) [] v c (buffers w) → queue (biovs w) = [] → run_of c0 c v → inv c0 → filecache w = c0 → stable_write w = false →
  st c0 bytes_commit_pending = 0 ∨ appending w →
  w1 = set_inode true false (write_error w) (putblock_filesize w) (set_filecache c w) →
  wp (sync_enter v) w1 (λ _ w', ∃ sb pb, w' = entered sb pb v c w ∧
    if sb then pb = AZNFSC_BAD_OFFSET else 0 ≤ pb ∧ pb + bc_bytes v ≤ AZNFSC_MAX_FILE_SIZE).
Proof.
  intros W HQ [Ht _ Hhead Hrange] I0 Hc Hst Hpend ->. pose proof (wi_putblock _ _ _ _ _ _ V) as Pu. rewrite Hst, Hs in Pu. simpl in Pu.
  pose proof (proj2 (idle_queue _ _ _ _ _ _ _ _ W) HQ) as Hidle. pose proof (core_inv _ _ _ _ _ _ _ _ _ _ _ W) as I.
  pose proof (wi_commit _ _ _ _ _ _ V) as Cm.
  unfold sync_enter. wp_step. wp_step. simpl. wp_step. wp_step. unfold is_flushing_in_progress. wp_step. wp_step. wp_step. simpl. rewrite Hidle.
  wp_step; [done|]. apply wp_bind_assert; [by rewrite Cm|].
  destruct v as [|bc q].
  { wp_step. wp_step. wp_step. exists false, (putblock_filesize w). split; [done|]. simpl. lia. }
  pose proof (head_in_file _ _ _ _ _ _ W eq_refl). destruct (Hrange _ _ eq_refl) as (e & Hcov & He). destruct (Hhead _ _ eq_refl) as (r & Hr).
  pose proof (covers_bytes _ _ _ Hcov) as Hb.
  wp_step. wp_step. unfold check_stable_write_required. wp_step. wp_step. apply wp_bind_assert; [done|]. wp_asserts cmp. simpl.
  apply wp_bind_assert; [apply negb_true_iff, Z.eqb_neq, bad_offset_out; lia|]. wp_step.
  destruct (Z.eqb_spec (putblock_filesize w) (bc_offset bc)) as [Heq|Hne]; simpl.
  { wp_step. wp_step. exists false, (putblock_filesize w). split; [done|]. simpl in Hb |- *. lia. }
  assert (st c bytes_commit_pending = 0) as Hp.
  { destruct Hpend as [Hp|Ha]; [|exfalso; apply Hne, (Ha bc r); by rewrite Hc].
    apply (pending_zero c I). eapply nothing_took; [exact Ht|]. by apply pending_zero. }
  unfold switch_to_stable_write. wp_step. wp_step. wp_asserts ltac:(first [done|simpl; by rewrite Cm]). wp_step.
  unfold is_flushing_in_progress. wp_step. wp_step. wp_step. simpl. rewrite Hidle. wp_asserts done. rewrite Hp. simpl.
  unfold set_stable_write. wp_step. wp_step. wp_asserts done. wp_step. wp_step. exists true, AZNFSC_BAD_OFFSET. by split.
Qed.

(** The state when the flush lock has been taken. *)
Abbreviation w1 := (set_inode true false (write_error w) (putblock_filesize w) w).

Abbreviation flushable c := (qualifying flushable_mb c (chunkmap c)).

(** All of the dirty data is wanted and it is not contiguous. *)
Lemma pick_rest strict wr v c n (Q : list bytes_chunk * Z → bstate → Prop) :
  core false wr (server w) (biovs w) [] v c (buffers w) → queue (biovs w) = [] → (strict = false → n ≤ bc_bytes (flushable c)) →
  (∀ v' c', core false wr (server w) (biovs w) [] v' c' (buffers w) → v' = flushable c →
    Q (v', bc_bytes v') (set_inode true true (write_error w) AZNFSC_BAD_OFFSET (set_filecache c' w))) →
  may_abort strict (do_ mfor v (λ bc, with_cache (clear_inuse (bc_alloc_buffer bc)));
      do_ massert (negb (commit_in_progress w1));
      do flushing ← is_flushing_in_progress;
      do_ massert (negb flushing);
      do r' ← with_cache (get_dirty_nonflushing_bcs_range 0 UINT64_MAX);
      do_ mfor v (λ bc, with_cache (bytes_chunk_dtor bc));
      do_ massert (n <=? r'.2);
      do_ set_stable_write;
      mret r') (set_filecache c w1) Q.
Proof.
  intros W HQ Hn Hpost. apply ma_after. eapply wp_mono; [eapply (skip_vector _ _ _ _ v [] (set_filecache c w1)); exact W|].
  cbv beta. intros _ w2 (c2 & -> & W2 & F2). rewrite app_nil_r in W2. pose proof (proj2 (idle_queue _ _ _ _ _ _ _ _ W2) HQ) as Hidle.
  apply ma_assert; [intros _; simpl; by rewrite (wi_commit _ _ _ _ _ _ V)|intros _].
  apply ma_after. unfold is_flushing_in_progress. wp_step. wp_step. wp_step. simpl. rewrite Hidle. apply ma_assert; [done|intros _].
  apply ma_after. eapply wp_mono; [eapply (pick_all false false wr _ _ (set_filecache c2 w1)); [exact W2|done]|].
  cbv beta. intros [v' k] w3 (Hr & c3 & -> & W3). simpl in Hr, W3, F2. rewrite (qualifying_same c) in Hr by done. injection Hr as Hv' ->.
  apply ma_after. eapply wp_mono; [eapply (drop_vector _ _ _ _ _ _ _ _ _ _ (set_filecache c3 w1)); exact W3|].
  cbv beta. intros _ w4 (c4 & -> & W4). apply ma_assert; [intros Hst; specialize (Hn Hst); simpl; subst v'; cmp|intros _].
  apply ma_wp. unfold set_stable_write. wp_step. wp_step. wp_step. wp_asserts done. wp_step. wp_step. by apply Hpost.
Qed.

(** What is picked, and whether writes have become stable. *)
Definition picked_by (wr : Z → option Z) (v : list bytes_chunk) (w' : bstate) : Prop :=
  ∃ c, core all' wr (server w) (biovs w) [] v c (buffers w) ∧
    (w' = set_inode true true (write_error w) AZNFSC_BAD_OFFSET (set_filecache c w) ∧ (all' = true → stable_write w = true) ∨
     stable_write w = false ∧ all' = false ∧ run_of (filecache w) c v ∧
     w' = set_inode true false (write_error w) (putblock_filesize w) (set_filecache c w)).

(** The checks at the end. *)
Lemma picked_wp strict wr (r : list bytes_chunk * Z) w' :
  r.2 = bc_bytes r.1 → (strict = false → 0 < r.2) → (0 < r.2 ↔ r.1 ≠ []) ∧ 0 ≤ r.2 → picked_by wr r.1 w' →
  may_abort strict (do_ massert (eqb (length r.1 =? 0)%nat (r.2 =? 0)); do_ massert (0 <? r.2); mret r.1) w' (λ v w', picked_by wr v w').
Proof.
  intros Hk Hp [He H0] HP. apply ma_assert; [|intros _; apply ma_assert; [intros Hs'; specialize (Hp Hs'); cmp|intros _; apply ma_wp; by wp_step]].
  intros _. destruct r as [[|b v] k]; simpl in *; [by rewrite Hk|]. assert (0 < k) by (by apply He). by rewrite (proj2 (Z.eqb_neq k 0)) by lia.
Qed.

Lemma picked_flush_spec strict wr full n :
  core all wr (server w) (biovs w) [] [] (filecache w) (buffers w) → startable w →
  (all' = true → stable_write w = true ∧ (all = true ∨ untruncated (filecache w))) →
  (strict = false → n = bc_bytes (flushable (filecache w)) ∧ 0 < n) →
  may_abort strict (pick_flush full n) (set_inode true (stable_write w) (write_error w) (putblock_filesize w) w) (λ v w', picked_by wr v w').
Proof.
  intros W (_ & Hstart) Hall Hn. pose proof (core_inv _ _ _ _ _ _ _ _ _ _ _ W) as I.
  pose proof (wi_putblock _ _ _ _ _ _ V) as Pu. set (w0 := set_inode _ _ _ _ w).
  unfold pick_flush. apply ma_after. wp_step. apply ma_bind. change (stable_write w0) with (stable_write w).
  apply (ma_mono _ _ _ (λ r w', r.2 = bc_bytes r.1 ∧ (∃ c x, inv c ∧ flushable c = r.1 ++ x) ∧ (strict = false → r.1 ≠ []) ∧ picked_by wr r.1 w')).
  - assert (strict = false → flushable (filecache w) ≠ []) as Hne.
    { intros Hst E. specialize (Hn Hst). rewrite E in Hn. simpl in Hn. lia. }
    destruct (stable_write w) eqn:Hst.
    + apply ma_after. eapply wp_mono; [eapply (pick_all all all' wr _ _ w0); [exact W|intros Ha; apply (Hall Ha)]|].
      cbv beta. intros [v k] w' (Hr & c & -> & W'). simpl in Hr, W'. injection Hr as Hv ->.
      apply ma_assert; [intros Hs'; specialize (Hn Hs'); simpl; rewrite Hv; cmp|intros _]. apply ma_wp. wp_step. simpl.
      split; [done|]. split; [exists (filecache w), []; by rewrite app_nil_r, Hv|]. split; [by rewrite Hv|].
      exists c. split; [exact W'|]. left. split; [by rewrite <- Pu|done].
    + destruct (Hstart eq_refl) as [Hfl Hpend]. pose proof (proj1 (idle_queue _ _ _ _ _ _ _ _ W) Hfl) as HQ.
      assert (all' = false) as Ha by (destruct all'; [by destruct Hall|done]).
      apply ma_after. eapply wp_mono; [eapply (pick_run all wr _ _ w0); exact W|]. cbv beta. intros [v k] w' (Hk & c & -> & W' & Hrun).
      simpl in Hk, W', Hrun. subst k. pose proof Hrun as [Ht (x & Hx & Hvx) _ _].
      pose proof (qualifying_same _ _ (same_flags_took _ _ _ Ht)) as Hsame. simpl. case_match eqn:E.
      * eapply (pick_rest strict wr v c); [exact W'|exact HQ|intros Hs'; specialize (Hn Hs'); rewrite Hsame; lia|]. intros v' c' W2 Hv'. rewrite Hsame in Hv'. simpl.
        split; [done|]. split; [exists (filecache w), []; by rewrite app_nil_r, Hv'|]. split; [by rewrite Hv'|].
        exists c'. rewrite Ha. split; [exact W2|]. by left.
      * apply ma_wp. wp_step. simpl. split; [done|]. split; [by exists (filecache w), x|].
        split; [intros Hs' Hv; apply (Hne Hs'); by rewrite Hx, Hv, Hvx|]. exists c. rewrite Ha. split; [exact W'|]. by right.
  - cbv beta. intros r w' (Hk & (c & x & Ic & Hq) & Hv & HP). pose proof (picked_empty c Ic _ x Hq) as Hp. rewrite <- Hk in Hp.
    apply picked_wp; [done|intros Hs'; by apply Hp, Hv|done|done].
Qed.

(** Nothing is to be flushed. *)
Lemma nothing_to_flush :
  (all' = true → stable_write w = true ∧ (all = true ∨ untruncated (filecache w))) →
  (untruncated (filecache w) → flushable (filecache w) = []) → winv all' w.
Proof.
  intros Hall Hz. destruct (wi_core _ _ _ _ _ _ V) as [wr W]. rewrite Hs in W. simpl in W.
  pose proof V as [_ Lk Rn Er Cm Tk Ga _ Pu Ct Sn Lg Fl Cn]. split; try done; [|intros Ha; by apply Hall].
  exists wr. rewrite Hs. simpl. pose proof W as [C Fi B F R N S Sm E A]. split; try done.
  intros Ha i mb Hm Hd. destruct (Hall Ha) as [_ [Hal|Hu]]; [by eapply A|]. rewrite app_nil_r.
  apply (cs_flush _ _ _ _ _ _ _ _ _ _ C _ _ Hm). apply not_false_iff_true. intros Hf. specialize (Hz Hu).
  pose proof (proj1 (core_dirty _ _ _ _ _ _ _ _ W) _ _ Hm Hd) as (k & x & Hin & <-)%elem_of_ids.
  assert (x ∈ flushable (filecache w)) as Hx; [|rewrite Hz in Hx; by apply elem_of_nil in Hx].
  apply list_elem_of_fmap. exists (k, x). split; [done|]. apply list_elem_of_filter. split; [|done]. unfold chunk_is. simpl. rewrite Hm.
  unfold flushable_mb. by rewrite Hd, Hf, (Hu _ _ Hm Hd).
Qed.

Lemma sync_start_enter strict full :
  startable w → (strict = false → untruncated (filecache w)) →
  (all' = true → stable_write w = true ∧ (all = true ∨ untruncated (filecache w))) →
  may_abort strict (sync_start full) w (λ _ w', winv all' w' ∧ (w' = w ∨ ∃ v, syncing w' = Some (Sync [] v None))).
Proof.
  intros St Hstrict Hall. destruct (wi_core _ _ _ _ _ _ V) as [wr W]. pose proof (wi_lock _ _ _ _ _ _ V) as Lk. rewrite Hs in W, Lk. simpl in W.
  pose proof St as (_ & Hstart). destruct (core_dirty _ _ _ _ _ _ _ _ W) as [Hdm Hfd].
  pose proof (core_inv _ _ _ _ _ _ _ _ _ _ _ W) as I. set (w0 := set_inode true (stable_write w) (write_error w) (putblock_filesize w) w).
  assert (untruncated (filecache w) → get_bytes_to_flush w0 = bc_bytes (flushable (filecache w))) as Hn by (intros; by apply bytes_to_flush_total).
  destruct (picked_empty _ I (flushable (filecache w)) []) as [Hp H0]; [by rewrite app_nil_r|].
  unfold sync_start, flush_lock. apply ma_after. wp_step. wp_step. rewrite Lk. wp_asserts done. wp_step. apply ma_after. wp_step. fold w0.
  destruct (Z.eqb_spec (get_bytes_to_flush w0) 0) as [Hz|Hz].
  - apply ma_wp. unfold flush_unlock. wp_step. wp_step. wp_asserts done. wp_step.
    assert (set_inode false (stable_write w0) (write_error w0) (putblock_filesize w0) w0 = w) as -> by (unfold w0, set_inode; simpl; rewrite <- Lk; by destruct w).
    split; [|by left]. eapply nothing_to_flush; [exact Hall|]. intros Hu. rewrite (Hn Hu) in Hz.
    destruct (flushable (filecache w)); [done|]. assert (0 < bc_bytes (b :: l)) by (by apply Hp). lia.
  - apply ma_bind. eapply ma_mono; [eapply (picked_flush_spec strict); [exact W|exact St|exact Hall|]|].
    { intros Hu%Hstrict. specialize (Hn Hu). split; [done|]. lia. }
    cbv beta. intros v w' (c & W' & [[-> Hst]|(Hst & Ha & Hrun & ->)]); apply ma_wp.
    + eapply enter_stable; [exact W'|done|]. split; [by eapply winv_entered|]. right. by exists v.
    + destruct (Hstart Hst) as [Hfl Hpend]. pose proof (proj1 (idle_queue _ _ _ _ _ _ _ _ W) Hfl) as HQ. rewrite Ha in W'.
      eapply wp_mono; [eapply enter_unstable; try done|].
      cbv beta. intros _ w' (sb & pb & -> & Hpb). split; [|right; by exists v]. eapply winv_entered; [by rewrite Ha|by rewrite Ha|done].
Qed.
End enter.

(** When no dirty data is being truncated the flush runs; if it runs it keeps the invariant. *)
Lemma sync_start_spec all all' w full strict :
  winv all w → startable w → (strict = false → untruncated (filecache w)) →
  (all' = true → stable_write w = true ∧ (all = true ∨ untruncated (filecache w))) →
  may_abort strict (sync_start full) w (λ _ w', winv all' w' ∧ (w' = w ∨ ∃ v, syncing w' = Some (Sync [] v None))).
Proof. intros V St. eapply sync_start_enter; [exact V|apply St|done]. Qed.
End start.
