(* ===== verification/FlushSteps.v ===== *)
(** * Runs of the write-back

    The steps of a flush, in whatever order: [sync_membufs()] goes on, the server answers a
    WRITE, a jukebox timer expires, and meanwhile parts of the cache are released.  Every
    enabled step runs and keeps [winv] ([step_keeps]; a flush that starts while dirty data is
    being truncated may abort); [work] bounds the steps that a flush takes ([run_work]), and an
    unfinished flush can take one ([unfinished_goes_on]). *)
From S2P Require Import Prelude CacheState Membuf MembufSpec ChunkMap FileCache CacheInv MembufInv CacheOps Purge ScanGet CacheGet ScanRelease CacheRelease CacheSize DirtyLists CacheSteps CacheFrame Readahead ReadPath ReadCache ReadInv ReadProps WritePath WriteCache WriteBack FlushCache FlushInv FlushReply FlushState FlushGather FlushSync FlushPick FlushStart.

(** ** Steps *)
Inductive flush_op :=
  | Sync_start (full : bool)
  | Sync_chunk
  | Sync_end
  | Reply (t : nat) (res : write_res)
  | Retry (t : nat)
  | Evict (offset length : Z)
  | Evict_all
  | Invalidate_.

Section steps.
Context (wsize_adj : Z).

Definition flush_act (op : flush_op) : MB () :=
  match op with
  | Sync_start full => sync_start full
  | Sync_chunk => sync_chunk wsize_adj
  | Sync_end => sync_end
  | Reply t res => write_iov_callback t res
  | Retry t => jukebox_write t
  | Evict o n => do_ with_cache (release o n); mret ()
  | Evict_all => with_cache (clear false)
  | Invalidate_ => with_cache invalidate
  end.

(** When a step may happen. *)
Definition flush_enabled (w : bstate) (op : flush_op) : Prop :=
  match op with
  | Sync_start _ => startable w
  | Sync_chunk => ∃ d bc td task, syncing w = Some (Sync d (bc :: td) task)
  | Sync_end => ∃ d task, syncing w = Some (Sync d [] task)
  | Reply t res => ∃ x, writes w !! t = Some x ∧ wt_prog x = Issued ∧ reply_ok (wt_bciov x) res
  | Retry t => ∃ x, writes w !! t = Some x ∧ wt_prog x = Jukeboxed
  | Evict o n => release_range o n
  | Evict_all | Invalidate_ => True
  end.

(** Dirty data that is being truncated fails the assertion of [ensure_flush()] that all of the
    dirty data is picked. *)
Definition flush_safe (w : bstate) (op : flush_op) : Prop :=
  match op with Sync_start _ => untruncated (filecache w) | _ => True end.

Inductive flush_steps : list flush_op → bstate → bstate → Prop :=
  | flush_nil w : flush_steps [] w w
  | flush_cons op ops w w1 w' :
      flush_enabled w op → flush_act op w = Some ((), w1) → flush_steps ops w1 w' → flush_steps (op :: ops) w w'.

Lemma flush_app ops ops' w w1 w' : flush_steps ops w w1 → flush_steps ops' w1 w' → flush_steps (ops ++ ops') w w'.
Proof. induction 1; [done|]. intros. econstructor; eauto. Qed.

(** ** The invariant is kept *)
Section keeps.
Context (file : Z → Z) (f0 : (Z → Z) * Z) (seq0 : Z).
Context (Hwsize : AZNFSCFG_WSIZE_MIN ≤ wsize_adj ≤ AZNFSCFG_WSIZE_MAX).

Abbreviation core := (FlushInv.core wsize_adj file f0).
Abbreviation winv := (FlushState.winv wsize_adj file f0 seq0).

Lemma winv_cache all w wr c :
  winv all w → core all wr (server w) (biovs w) (done_of (syncing w)) (todo_of (syncing w)) c (buffers w) → winv all (set_filecache c w).
Proof. intros [_ ? ? ? ? ? ? ? ? ? ? ? ? ?] C. split; try done. by exists wr. Qed.

(** What other threads do to the cache meanwhile. *)
Lemma evict_keeps all w o n : winv all w → release_range o n → wp (flush_act (Evict o n)) w (λ _ w', winv all w').
Proof.
  intros V Hr. destruct (wi_core _ _ _ _ _ _ V) as [wr C]. cbn [flush_act]. wp_step. apply wp_with_cache. eapply wp_mono.
  { eapply cside_release; [apply (co_side _ _ _ _ _ _ _ _ _ _ _ C)|done]. }
  cbv beta. intros _ c (_ & C' & E). wp_step. eapply winv_cache; [done|]. eapply core_evolved; [exact C|exact E|exact C'].
Qed.

Lemma evict_all_keeps all w : winv all w → wp (flush_act Evict_all) w (λ _ w', winv all w').
Proof.
  intros V. destruct (wi_core _ _ _ _ _ _ V) as [wr C]. cbn [flush_act]. apply wp_with_cache. eapply wp_mono.
  { eapply cside_clear. apply (co_side _ _ _ _ _ _ _ _ _ _ _ C). }
  cbv beta. intros _ c (C' & E). eapply winv_cache; [done|]. eapply core_evolved; [exact C|exact E|exact C'].
Qed.

Lemma invalidate_keeps all w : winv all w → wp (flush_act Invalidate_) w (λ _ w', winv all w').
Proof.
  intros V. destruct (wi_core _ _ _ _ _ _ V) as [wr C]. cbn [flush_act]. apply wp_with_cache. unfold invalidate. wp_step.
  eapply winv_cache; [done|]. apply core_invalidated, C.
Qed.

Lemma step_keeps strict all w op :
  winv all w → flush_enabled w op → (strict = false → flush_safe w op) → may_abort strict (flush_act op) w (λ _ w', winv all w').
Proof.
  intros V. destruct op as [full| | |t res|t|o n| |]; cbn [flush_enabled flush_safe].
  { intros Hs Hu. eapply ma_mono; [eapply (sync_start_spec _ _ _ _ Hwsize all all); [exact V|exact Hs|exact Hu|]|by cbv beta; intros _ w' [? _]].
    intros Ha. split; [by apply (wi_stable _ _ _ _ _ _ V)|by left]. }
  all: intros He _; apply ma_wp.
  - destruct He as (d & bc & td & task & Hs). eapply wp_mono; [by eapply sync_chunk_spec|by cbv beta; intros _ w' [? _]].
  - destruct He as (d & task & Hs). eapply wp_mono; [by eapply sync_end_spec|by cbv beta; intros _ w' [? _]].
  - destruct He as (x & Ht & Hp & Hr). destruct res as [n changed| |status]; [| |done].
    + eapply wp_mono; [by eapply wrote_spec|by cbv beta; intros _ w' [? _]].
    + eapply wp_mono; [by eapply jukebox_reply|by cbv beta; intros _ w' [? _]].
  - destruct He as (x & Ht & Hp). eapply wp_mono; [by eapply retry_spec|by cbv beta; intros _ w' [? _]].
  - by apply evict_keeps.
  - by apply evict_all_keeps.
  - by apply invalidate_keeps.
Qed.

Lemma steps_keep all ops w w' : flush_steps ops w w' → winv all w → winv all w'.
Proof.
  induction 1 as [w|op ops w w1 w' He Ha _ IH]; [done|]. intros V. apply IH.
  refine (ma_run true _ _ _ (step_keeps true all _ _ V He _) _ _ Ha). done.
Qed.

(** ** Every flush ends *)

Definition finished (w : bstate) : Prop := syncing w = None ∧ active (writes w) = [].

(** The steps that a flush takes: its own and the replies to its WRITEs, except that the server
    asks to try again. *)
Definition goes_on (op : flush_op) : bool :=
  match op with Sync_chunk | Sync_end | Retry _ | Reply _ (Wrote _ _) => true | _ => false end.
Definition asks_again (op : flush_op) : bool := match op with Reply _ Jukebox => true | _ => false end.
Definition starts (op : flush_op) : bool := match op with Sync_start _ => true | _ => false end.

Definition count (P : flush_op → bool) (ops : list flush_op) : Z := zsum (λ op, Z.b2z (P op)) ops.

(** What is left to do: a step for each byte to be written, each WRITE to be retried and each chunk
    the loop has to visit. *)
Definition work (w : bstate) : Z :=
  zsum io_length (biovs w) + jukeboxed (writes w) +
  match syncing w with Some x => 1 + zsum (λ bc, 1 + bc_length bc) (s_todo x) | None => 0 end.

Lemma work_nonneg all w : winv all w → 0 ≤ work w.
Proof.
  intros V. unfold work. pose proof (zsum_pos io_length _ (wi_task _ _ _ _ _ _ V)). pose proof (jukeboxed_nonneg (writes w)).
  destruct (syncing w) as [x|] eqn:Hs; [|lia]. destruct (wi_core _ _ _ _ _ _ V) as [wr C]. rewrite Hs in C. simpl in C.
  enough (Forall (λ bc, 0 < 1 + bc_length bc) (s_todo x)) as Hp by (apply zsum_pos in Hp; lia).
  apply Forall_forall. intros bc Hb. destruct (held_mb _ _ _ _ _ _ _ _ _ _ _ C bc) as (mb & _ & [L1 L2 L3] & Hwf & _); [apply elem_of_app; by right|].
  pose proof (wf_length _ Hwf). lia.
Qed.

(** The bytes left of an answered WRITE. *)
Lemma answered_work all t p n w w' x :
  winv all w → answered wsize_adj file f0 seq0 all t p n w w' → writes w !! t = Some x →
  work w' = work w - n - (if decide (wt_prog x = Jukeboxed) then 1 else 0) + (if decide (p = Jukeboxed) then 1 else 0).
Proof.
  intros V [V' Sn Hsv [b Hw]] Ht. unfold work. rewrite (sn_sync _ _ Sn), Hw. unfold jukeboxed. rewrite (zsum_insert _ _ _ _ _ Ht). simpl.
  pose proof (wi_sent _ _ _ _ _ _ V). pose proof (wi_sent _ _ _ _ _ _ V') as Hs'. rewrite (sn_seq _ _ Sn) in Hs'. lia.
Qed.

Lemma cache_work c w : work (set_filecache c w) = work w.
Proof. done. Qed.

Lemma step_work all w op :
  winv all w → flush_enabled w op → starts op = false →
  wp (flush_act op) w (λ _ w', winv all w' ∧ work w' + Z.b2z (goes_on op) ≤ work w + Z.b2z (asks_again op)).
Proof.
  intros V He Hns. destruct op as [full| | |t res|t|o n| |]; [done|..].
  - destruct He as (d & bc & td & task & Hs). eapply wp_mono; [by eapply sync_chunk_spec|]. cbv beta. intros _ w' (V' & (task' & Hs') & Fm & J).
    split; [done|]. unfold work. rewrite Hs, Hs', J. pose proof (wi_sent _ _ _ _ _ _ V). pose proof (wi_sent _ _ _ _ _ _ V') as Hn.
    rewrite (fm_seq _ _ _ Fm), (fm_server _ _ _ Fm) in Hn. simpl. lia.
  - destruct He as (d & task & Hs). eapply wp_mono; [by eapply sync_end_spec|]. cbv beta. intros _ w' (V' & Hs' & Hq & Hsv & J).
    split; [done|]. unfold work. rewrite Hs, Hs', J. pose proof (wi_sent _ _ _ _ _ _ V). pose proof (wi_sent _ _ _ _ _ _ V') as Hn.
    rewrite Hq, Hsv in Hn. simpl. lia.
  - destruct He as (x & Ht & Hp & Hr). destruct res as [n changed| |status]; [| |done]; simpl in Hr.
    + eapply wp_mono; [by eapply wrote_spec|]. cbv beta. intros _ w' A. split; [apply A|]. rewrite (answered_work _ _ _ _ _ _ _ V A Ht), Hp. simpl.
      case_match; simpl; lia.
    + eapply wp_mono; [by eapply jukebox_reply|]. cbv beta. intros _ w' A. split; [apply A|]. rewrite (answered_work _ _ _ _ _ _ _ V A Ht), Hp. simpl. lia.
  - destruct He as (x & Ht & Hp). eapply wp_mono; [by eapply retry_spec|]. cbv beta. intros _ w' A. split; [apply A|].
    rewrite (answered_work _ _ _ _ _ _ _ V A Ht), Hp. simpl. lia.
  - destruct (evict_keeps all w o n V He) as ([] & w' & Ha & V'). exists (), w'. split; [exact Ha|]. split; [done|]. simpl. rewrite !Z.add_0_r.
    simpl in Ha. unfold bind, with_cache in Ha. destruct (release o n (filecache w)) as [[? ?]|]; [|done]. injection Ha as <-. done.
  - destruct (evict_all_keeps all w V) as ([] & w' & Ha & V'). exists (), w'. split; [exact Ha|]. split; [done|]. simpl. rewrite !Z.add_0_r.
    simpl in Ha. unfold with_cache in Ha. destruct (clear false (filecache w)) as [[[] ?]|]; [|done]. injection Ha as <-. done.
  - destruct (invalidate_keeps all w V) as ([] & w' & Ha & V'). exists (), w'. split; [exact Ha|]. split; [done|]. simpl. rewrite !Z.add_0_r.
    simpl in Ha. unfold with_cache in Ha. destruct (invalidate (filecache w)) as [[[] ?]|]; [|done]. injection Ha as <-. done.
Qed.

Lemma run_work all ops w w' :
  flush_steps ops w w' → Forall (λ op, starts op = false) ops → winv all w → work w' + count goes_on ops ≤ work w + count asks_again ops.
Proof.
  induction 1 as [w|op ops w w1 w' He Ha _ IH]; intros Hns V; [unfold count, zsum; simpl; lia|]. apply Forall_cons in Hns as [Hn Hns].
  destruct (wp_run _ _ _ _ _ Ha (step_work all w op V He Hn)) as [V1 Hw]. specialize (IH Hns V1). unfold count, zsum in *. simpl. lia.
Qed.

Lemma active_lookup l : active l ≠ [] → ∃ t x, l !! t = Some x ∧ wt_prog x ≠ Freed.
Proof.
  induction l as [|x l IH]; [done|]. intros H. destruct (decide (wt_prog x = Freed)) as [Hf|Hf]; [|by exists 0%nat, x].
  destruct IH as (t & y & Hy & Hp); [|by exists (S t), y]. intros Hl. apply H. change (unfinished x ++ active l = []). rewrite Hl. unfold unfinished. by rewrite Hf.
Qed.

(** What a flush that is not finished does next, or what it waits for. *)
Lemma unfinished_goes_on w :
  finished w ∨ flush_enabled w Sync_chunk ∨ flush_enabled w Sync_end ∨ (∃ t, flush_enabled w (Retry t)) ∨
  ∃ t x, writes w !! t = Some x ∧ wt_prog x = Issued.
Proof.
  destruct (syncing w) as [[d [|bc td] task]|] eqn:Hs; [right; right; left; by exists d, task|right; left; by exists d, bc, td, task|].
  destruct (decide (active (writes w) = [])) as [Ha|Ha]; [by left|]. destruct (active_lookup _ Ha) as (t & x & Ht & Hp). do 3 right.
  destruct (wt_prog x) eqn:E; [right; by exists t, x|left; by exists t, x|done].
Qed.
End keeps.
End steps.
