(* ===== verification/FlushProps.v ===== *)
(** * Correctness of the write-back

    Flushes of a file whose cache was at rest: while no WRITE fails no assertion fails, the
    contents of the file do not change, a stable flush brings all of them to the server, the
    counters agree with the WRITEs carried out, and a flush ends unless the server asks to try
    again for ever.  A failed WRITE aborts. *)
From S2P Require Import Prelude CacheState Membuf MembufSpec ChunkMap FileCache CacheInv MembufInv CacheOps CacheRelease DirtyLists CacheSteps CacheFrame Readahead ReadPath ReadCache ReadInv ReadProps WritePath WriteCache WriteBack FlushCache FlushInv FlushReply FlushState FlushGather FlushSync FlushPick FlushStart FlushSteps.

Section props.
Context (wsize_adj : Z) (Hwsize : AZNFSCFG_WSIZE_MIN ≤ wsize_adj ≤ AZNFSCFG_WSIZE_MAX).
Context (srv : Z → Z) (ssize : Z) (wr : Z → option Z).

(** Before the first flush: the cache is at rest, no write has failed, none is on its way.
    fuse writes at most [AZNFSCFG_WSIZE_MIN] bytes at a time, so that no membuf is
    longer than a WRITE. *)
Record at_start (w : bstate) : Prop := {
  as_rest : at_rest srv ssize wr (filecache w) (buffers w);
  as_end : cache_size (filecache w) < AZNFSC_MAX_FILE_SIZE;
  as_small : ∀ i mb, membufs (filecache w) !! i = Some mb → mb_has Dirty mb = true → mb_length mb ≤ wsize_adj;
  as_idle : syncing w = None ∧ is_flushing w = false ∧ writes w = [] ∧ commit_in_progress w = false;
  as_clean : write_error w = 0 ∧ completed w = [] ∧ server w = [];
  as_seq : flushed_seq_num w = flushing_seq_num w ∧ committed_seq_num w ≤ committing_seq_num w ≤ flushed_seq_num w;
  as_putblock : if stable_write w then putblock_filesize w = AZNFSC_BAD_OFFSET else 0 ≤ putblock_filesize w ≤ AZNFSC_MAX_FILE_SIZE;
}.

Abbreviation file := (file_byte srv ssize wr).
Abbreviation winv := (FlushState.winv wsize_adj file (srv, ssize)).
(** What the server has after the WRITEs of the flushes. *)
Abbreviation on_disk w := (server_file (srv, ssize) (server w)).

Lemma start_winv w : at_start w → winv (flushing_seq_num w) false w.
Proof.
  intros [R E S (H1 & H2 & H3 & H4) (H5 & H6 & H7) [Hq Hq'] P].
  assert (biovs w = []) as HL by (unfold biovs; by rewrite H1, H3).
  split; rewrite ?HL, ?H1, ?H2, ?H6, ?H7; simpl; try done; try lia.
  - exists wr. split; simpl; try done; try (by intros ? ?%elem_of_nil); [by apply rest_cside|constructor|by intros ? ? ?%elem_of_nil].
  - by left.
  - destruct (stable_write w); [done|]. lia.
Qed.

Lemma finished_core all seq0 w : winv seq0 all w → finished w →
  ∃ wr', FlushInv.core wsize_adj file (srv, ssize) all wr' (server w) [] [] [] (filecache w) (buffers w).
Proof.
  intros V [Hs Ha]. destruct (wi_core _ _ _ _ _ _ V) as [wr' C]. exists wr'. unfold biovs in C. by rewrite Hs, Ha in C.
Qed.

Lemma finished_rest all seq0 w : winv seq0 all w → finished w →
  ∃ wr', at_rest (on_disk w).1 (on_disk w).2 wr' (filecache w) (buffers w) ∧
    (∀ o, file_byte (on_disk w).1 (on_disk w).2 wr' o = file o) ∧
    (all = true → ∀ i mb, membufs (filecache w) !! i = Some mb → mb_has Dirty mb = false).
Proof.
  intros V Hf. destruct (finished_core _ _ _ V Hf) as [wr' C]. exists wr'. split_and!.
  - apply cside_rest, (co_side _ _ _ _ _ _ _ _ _ _ _ C).
  - apply (co_file _ _ _ _ _ _ _ _ _ _ _ C).
  - intros Ha i mb Hm. apply not_true_iff_false. intros Hd. pose proof (co_all _ _ _ _ _ _ _ _ _ _ _ C Ha _ _ Hm Hd) as Hi. by apply elem_of_nil in Hi.
Qed.

(** C8: when the server carries out all or a part of each WRITE or asks to try again, no assertion of the
    write-back fails: after any sequence of flushes, such replies, retries and evictions of cached
    data, in any order, every step that can happen next runs; a flush starts when no other holds the
    lock, no dirty data is being truncated and, while writes are unstable, the one before has ended
    and its data is committed or appended to ([startable], [flush_safe]).  The file is smaller than
    AZNFSC_MAX_FILE_SIZE and no membuf longer than a WRITE ([at_start]).  (A WRITE that fails
    ends the program: [failed_write_aborts].) *)
Theorem writeback_never_aborts w0 ops w op :
  at_start w0 → flush_steps wsize_adj ops w0 w → flush_enabled w op → flush_safe w op → ∃ w', flush_act wsize_adj op w = Some ((), w').
Proof.
  intros A Hs He Hsafe. pose proof (steps_keep _ _ _ _ Hwsize _ _ _ _ Hs (start_winv _ A)) as V.
  destruct (ma_total _ _ _ (step_keeps _ _ _ _ Hwsize false _ _ _ V He (λ _, Hsafe))) as ([] & w' & Ha & _). by exists w'.
Qed.

(** C14: flushing does not change the file: when all that was started has ended, the cache is at rest
    again, and what the server has now, together with what is still only in the cache,
    makes up the same file as before. *)
Theorem writeback_keeps_the_file w0 ops w :
  at_start w0 → flush_steps wsize_adj ops w0 w → finished w →
  ∃ wr', at_rest (on_disk w).1 (on_disk w).2 wr' (filecache w) (buffers w) ∧ ∀ o, file_byte (on_disk w).1 (on_disk w).2 wr' o = file o.
Proof.
  intros A Hs Hf. pose proof (steps_keep _ _ _ _ Hwsize _ _ _ _ Hs (start_winv _ A)) as V.
  destruct (finished_rest _ _ _ V Hf) as (wr' & ? & ? & _). by exists wr'.
Qed.

(** C3: a stable flush reaches the server: whatever short writes, jukebox errors and evictions there
    are, when it has ended no data is dirty and the server's file is the file that the
    application has written. *)
Theorem flush_reaches_the_server w0 full ops w :
  at_start w0 → stable_write w0 = true → untruncated (filecache w0) →
  flush_steps wsize_adj (Sync_start full :: ops) w0 w → finished w →
  (∀ i mb, membufs (filecache w) !! i = Some mb → mb_has Dirty mb = false) ∧
  at_rest (on_disk w).1 (on_disk w).2 (λ _, None) (filecache w) (buffers w) ∧
  ∀ o, file_byte (on_disk w).1 (on_disk w).2 (λ _, None) o = file o.
Proof.
  intros A Hst Hu Hs Hf. inversion Hs as [|op ops' w' w1 w'' He Ha Hrest]; subst.
  assert (winv (flushing_seq_num w0) true w1) as V1.
  { refine (proj1 (wp_run _ _ _ _ _ Ha (ma_total _ _ _ (sync_start_spec _ _ _ _ Hwsize false true w0 full false (start_winv _ A) He _ _)))); [done|].
    intros _. split; [done|by right]. }
  pose proof (steps_keep _ _ _ _ Hwsize _ _ _ _ Hrest V1) as V. destruct (finished_rest _ _ _ V Hf) as (wr' & R & Hfile & Hclean).
  specialize (Hclean eq_refl). assert (∀ o, wr' o = None) as Hnone.
  { intros o. destruct (wr' o) eqn:E; [|done]. exfalso.
    destruct (ar_written _ _ _ _ _ R o) as (_ & k & x & mb & _ & _ & Hm & Hd); [by rewrite E|]. by rewrite (Hclean _ _ Hm) in Hd. }
  split; [done|]. split.
  - apply cside_rest. eapply cside_ext; [exact Hnone|]. by apply rest_cside.
  - intros o. rewrite <- Hfile. unfold file_byte. by rewrite Hnone.
Qed.

(** C21: the bytes of all flushes together are accounted for: [flushing_seq_num] has grown by the bytes of
    the [bc_iovec]s that are done, each reported to [on_flush_complete()] once, and of those
    under way; it has also grown by the bytes that the server has carried out and those that WRITEs
    have still to carry out.  So at most as many WRITEs are carried out, in full or in part, as
    bytes were to be flushed.  (Bytes may be sent more often: a short write or a jukebox error
    sends what was not carried out again.) *)
Theorem flush_is_accounted w0 ops w :
  at_start w0 → flush_steps wsize_adj ops w0 w →
  flushing_seq_num w = flushing_seq_num w0 + zsum id (completed w) + zsum orig_length (biovs w) ∧
  flushing_seq_num w = flushing_seq_num w0 + zsum wlen (server w) + zsum io_length (biovs w) ∧
  Z.of_nat (length (server w)) ≤ flushing_seq_num w - flushing_seq_num w0.
Proof.
  intros A Hs. pose proof (steps_keep _ _ _ _ Hwsize _ _ _ _ Hs (start_winv _ A)) as V.
  pose proof (wi_count _ _ _ _ _ _ V) as Hc. pose proof (wi_sent _ _ _ _ _ _ V) as Hn. split; [done|]. split; [done|].
  pose proof (zsum_pos wlen _ (wi_log _ _ _ _ _ _ V)). pose proof (zsum_pos io_length _ (wi_task _ _ _ _ _ _ V)). lia.
Qed.

(** Running [m] from [s] aborts. *)
Lemma aborts_bind {S X Y} (m : M S X) (k : X → M S Y) s : m s = None → bind m k s = None.
Proof. unfold bind. by intros ->. Qed.

Lemma aborts_after {S X Y} (m : M S X) (k : X → M S Y) s : wp m s (λ x s', k x s' = None) → bind m k s = None.
Proof. intros (x & s' & Hm & Hk). unfold bind. by rewrite Hm. Qed.

Lemma aborts_assert {S X} (a : bool) (k : () → M S X) s : k () s = None → bind (massert a) k s = None.
Proof. unfold bind, massert. by destruct a. Qed.

Lemma clear_flushing_dirty c id mb : membufs c !! id = Some mb → mb_wf mb → mb_has Dirty mb = true → clear_flushing id c = None.
Proof.
  intros Hm Hwf Hd. unfold clear_flushing. apply aborts_after. eapply get_membuf_wp; [exact Hm|].
  do 4 apply aborts_assert. apply aborts_after, is_dirty_wp; [done|]. apply aborts_bind. by rewrite Hd.
Qed.

(** C28: a WRITE that fails for good ends the program: in every reachable state the reply makes
    [on_io_fail()] call [clear_flushing()] on a membuf that it leaves dirty, and the assertion
    there that the membuf is not dirty fails, as its comment warns. *)
Theorem failed_write_aborts w0 ops w t x status :
  at_start w0 → flush_steps wsize_adj ops w0 w → writes w !! t = Some x → wt_prog x = Issued → 0 < status →
  flush_act wsize_adj (Reply t (WriteFailed status)) w = None.
Proof.
  intros A Hs Ht Hp Hst. pose proof (steps_keep _ _ _ _ Hwsize _ _ _ _ Hs (start_winv _ A)) as V.
  destruct (winv_at _ _ _ _ _ _ _ _ V Ht) as (wr' & R & _ & C & Hl & _); [by rewrite Hp|]. set (b := wt_bciov x) in *.
  pose proof (co_biov _ _ _ _ _ _ _ _ _ _ _ C) as [B _]%Forall_cons. destruct (bcq b) as [|bc q] eqn:Hq; [apply (biov_empty _ B) in Hq; lia|].
  destruct (biov_head _ _ _ B Hq) as (Ho & Hbl & _).
  destruct (queue_mb _ _ _ _ _ _ _ _ _ _ _ C bc) as (mb & Hm & _ & Hwf & Hiu & Hlk & _ & Hf & Hd & _).
  { unfold queue. simpl. rewrite Hq. by left. }
  destruct (wf_dirty _ Hwf Hd) as [Hup _]. cbn [flush_act]. unfold write_iov_callback. apply aborts_after. wp_step.
  apply aborts_after. wp_step; [exact Ht|]. fold b. apply aborts_after. unfold set_write_error. wp_asserts cmp. wp_step.
  set (w1 := if write_error w =? 0 then set_inode (is_flushing w) (stable_write w) status (putblock_filesize w) w else w). assert (filecache w1 = filecache w) as Hc by (unfold w1; by case_match).
  apply aborts_bind. unfold on_io_fail. apply aborts_after. apply io_checks_wp; [done|done|]. apply aborts_bind.
  rewrite Hq. cbn [io_fail_loop]. apply aborts_after. wp_step; [cmp|]. apply aborts_after. wp_step; [cmp|]. apply aborts_bind.
  unfold pop_bc. apply aborts_after. apply wp_with_cache. rewrite Hc. eapply get_membuf_wp; [exact Hm|]. rewrite <- Hc, set_filecache_same.
  apply aborts_after. wp_step; [by rewrite Hiu, Hlk|].
  apply aborts_after. apply wp_with_cache, is_flushing_wp; [done|]. rewrite set_filecache_same.
  apply aborts_after. apply wp_with_cache, is_dirty_wp; [done|]. rewrite set_filecache_same.
  apply aborts_after. wp_step; [by rewrite Hf, Hd|]. apply aborts_bind. unfold with_cache. rewrite Hc, (clear_flushing_dirty _ _ _ Hm Hwf Hd). done.
Qed.

(** C23: every flush ends unless the server asks to try again for ever: from any state that flushes
    lead to, in any continuation in which no new flush starts, the steps of the flushes and the replies
    that carry out a WRITE in all or part are at most [work w] (one for each byte, retry and chunk that is
    left) plus one for each time the server asks to try again; and where a flush is not finished, one of
    its own steps can be taken, or a WRITE waits for the server's answer. *)
Theorem flush_ends w0 ops w ops' w' :
  at_start w0 → flush_steps wsize_adj ops w0 w → flush_steps wsize_adj ops' w w' → Forall (λ op, starts op = false) ops' →
  count goes_on ops' ≤ work w + count asks_again ops' ∧
  (finished w' ∨ flush_enabled w' Sync_chunk ∨ flush_enabled w' Sync_end ∨ (∃ t, flush_enabled w' (Retry t)) ∨
   ∃ t x, writes w' !! t = Some x ∧ wt_prog x = Issued).
Proof.
  intros A Hs Hs' Hns. pose proof (steps_keep _ _ _ _ Hwsize _ _ _ _ Hs (start_winv _ A)) as V. split; [|apply unfinished_goes_on].
  pose proof (run_work _ _ _ _ Hwsize _ _ _ _ Hs' Hns V). pose proof (steps_keep _ _ _ _ Hwsize _ _ _ _ Hs' V) as V'.
  pose proof (work_nonneg _ _ _ _ _ _ V'). lia.
Qed.
End props.
