(* ===== verification/FlushExamples.v ===== *)
(** * Write-back: runs

    The data of a buffered write goes to the server, with a short write, a jukebox error
    and an eviction on the way. *)
From S2P Require Import Prelude CacheState Membuf MembufSpec ChunkMap FileCache CacheInv MembufInv CacheOps Purge ScanGet CacheGet DirtyLists CacheSteps CacheFrame Readahead ReadPath ReadCache ReadInv ReadProps ReadExamples WritePath WriteCache WriteLoop WriteProps WriteExamples WriteBack FlushCache FlushInv FlushReply FlushState FlushPick FlushStart FlushSteps FlushProps.

Abbreviation wsize := 1048576.
Abbreviation written3 := (overlay unwritten 4 three).

Lemma wsize_ok : AZNFSCFG_WSIZE_MIN ≤ wsize ≤ AZNFSCFG_WSIZE_MAX.
Proof. split; vm_compute; discriminate. Qed.

(** The state after the write of [three] at offset 4. *)
Definition flushable (stable : bool) : bstate :=
  BState (fcache v1) (mem v1) false stable false 0 (if stable then AZNFSC_BAD_OFFSET else 4) false 0 0 0 0 [] [] [] None.

Lemma v1_at_rest : at_rest bytes 10 written3 (fcache v1) (mem v1).
Proof.
  assert (wr_ready : cside bytes 10 unwritten [] empty_cache blank [] [] [] []) by apply rest_cside, empty_at_rest.
  destruct (wp_run _ _ _ _ _ WriteExamples.written (run_write_spec bytes 10 no_pruning 0 (mret ()) (idle_bystander bytes 10) 0 unwritten 0 4 three at0
    (conj wr_ready empty_committed) three_range)) as (n & _ & [C%cside_rest _] & -> & _). exact C.
Qed.

Lemma v1_membufs : map_Forall (λ _ mb, mb_length mb ≤ wsize ∧ is_truncated mb = false) (membufs (fcache v1)).
Proof. refine (bool_decide_unpack _ _). vm_compute. exact I. Qed.

Lemma flushable_start stable : at_start wsize bytes 10 written3 (flushable stable).
Proof.
  split.
  - exact v1_at_rest.
  - by vm_compute.
  - intros i mb Hm _. apply (map_Forall_lookup_1 _ _ _ _ v1_membufs Hm).
  - done.
  - done.
  - done.
  - by destruct stable.
Qed.

(** *** Steps *)

Definition next_state (op : flush_op) (w : bstate) : bstate :=
  match flush_act wsize op w with Some (_, w') => w' | None => w end.

(** Decides that a step other than [Sync_start] is enabled. *)
Definition enabledb (w : bstate) (op : flush_op) : bool :=
  match op with
  | Sync_chunk => match syncing w with Some (Sync _ (_ :: _) _) => true | _ => false end
  | Sync_end => match syncing w with Some (Sync _ [] _) => true | _ => false end
  | Reply t res =>
      match writes w !! t with
      | Some (WTask b Issued) => match res with Wrote n _ => (0 <? n) && (n <=? io_length b) | Jukebox => true | WriteFailed _ => false end
      | _ => false
      end
  | Retry t => match writes w !! t with Some (WTask _ Jukeboxed) => true | _ => false end
  | Evict_all | Invalidate_ => true
  | _ => false
  end.

Lemma enabledb_ok w op : enabledb w op = true → flush_enabled w op.
Proof.
  destruct op as [full| | |t res|t|o n| |]; simpl; try done.
  - destruct (syncing w) as [[d [|bc td] task]|]; [done| |done]. intros _. by exists d, bc, td, task.
  - destruct (syncing w) as [[d [|bc td] task]|]; [|done..]. intros _. by exists d, task.
  - destruct (writes w !! t) as [[b []]|] eqn:E; try done. destruct res as [n ch| |st]; try done.
    + rewrite andb_true_iff, Z.ltb_lt, Z.leb_le. intros ?. by eexists.
    + intros _. by eexists.
  - destruct (writes w !! t) as [[b []]|] eqn:E; try done. intros _. by eexists.
Qed.

Lemma next_runs op ops w w1 w' :
  w1 = next_state op w → flush_enabled w op → (if flush_act wsize op w then true else false) = true →
  flush_steps wsize ops w1 w' → flush_steps wsize (op :: ops) w w'.
Proof.
  intros -> He Ha Hs. econstructor; [exact He| |exact Hs]. unfold next_state. by destruct (flush_act wsize op w) as [[[] w2]|].
Qed.

(** A stable flush: the server writes two bytes, then asks to try again; the cache is emptied as far
    as possible; then the server writes the last byte. *)
Definition short_write : list flush_op :=
  [Sync_start true; Sync_chunk; Sync_end; Reply 0 (Wrote 2 false); Reply 0 Jukebox; Evict_all; Retry 0; Reply 0 (Wrote 1 true)].

Definition s1 : bstate := next_state (Sync_start true) (flushable true).
Definition s2 : bstate := next_state Sync_chunk s1.
Definition s3 : bstate := next_state Sync_end s2.
Definition s4 : bstate := next_state (Reply 0 (Wrote 2 false)) s3.
Definition s5 : bstate := next_state (Reply 0 Jukebox) s4.
Definition s6 : bstate := next_state Evict_all s5.
Definition s7 : bstate := next_state (Retry 0) s6.
Definition s8 : bstate := next_state (Reply 0 (Wrote 1 true)) s7.

Lemma stable_startable : startable (flushable true).
Proof. by split. Qed.

Lemma issued_run ops w : flush_steps wsize ops s3 w → flush_steps wsize ([Sync_start true; Sync_chunk; Sync_end] ++ ops) (flushable true) w.
Proof.
  intros Hs. apply (next_runs _ _ _ s1); [reflexivity|exact stable_startable|vm_compute; reflexivity|].
  apply (next_runs _ _ _ s2); [reflexivity|apply enabledb_ok; vm_compute; reflexivity|vm_compute; reflexivity|].
  apply (next_runs _ _ _ s3); [reflexivity|apply enabledb_ok; vm_compute; reflexivity|vm_compute; reflexivity|]. exact Hs.
Qed.

Lemma short_write_answers : flush_steps wsize (drop 3 short_write) s3 s8.
Proof.
  apply (next_runs _ _ _ s4); [reflexivity|apply enabledb_ok; vm_compute; reflexivity|vm_compute; reflexivity|].
  apply (next_runs _ _ _ s5); [reflexivity|apply enabledb_ok; vm_compute; reflexivity|vm_compute; reflexivity|].
  apply (next_runs _ _ _ s6); [reflexivity|done|vm_compute; reflexivity|].
  apply (next_runs _ _ _ s7); [reflexivity|apply enabledb_ok; vm_compute; reflexivity|vm_compute; reflexivity|].
  apply (next_runs _ _ _ s8); [reflexivity|apply enabledb_ok; vm_compute; reflexivity|vm_compute; reflexivity|]. constructor.
Qed.

Lemma short_write_run : flush_steps wsize short_write (flushable true) s8.
Proof. exact (issued_run _ _ short_write_answers). Qed.

Example short_write_log : server s8 = [(4, [Some 1; Some 2]); (6, [Some 3])] ∧ completed s8 = [3].
Proof. by vm_compute. Qed.

(** An unstable flush: what was written waits for a commit, and the cache keeps it. *)
Definition u1 : bstate := next_state (Sync_start false) (flushable false).
Definition u2 : bstate := next_state Sync_chunk u1.
Definition u3 : bstate := next_state Sync_end u2.
Definition u4 : bstate := next_state (Reply 0 (Wrote 3 false)) u3.

Lemma unstable_startable : startable (flushable false).
Proof. split; [done|]. intros _. split; [by vm_compute|]. left. by vm_compute. Qed.

Lemma unstable_run : flush_steps wsize [Sync_start false; Sync_chunk; Sync_end; Reply 0 (Wrote 3 false)] (flushable false) u4.
Proof.
  apply (next_runs _ _ _ u1); [reflexivity|exact unstable_startable|vm_compute; reflexivity|].
  apply (next_runs _ _ _ u2); [reflexivity|apply enabledb_ok; vm_compute; reflexivity|vm_compute; reflexivity|].
  apply (next_runs _ _ _ u3); [reflexivity|apply enabledb_ok; vm_compute; reflexivity|vm_compute; reflexivity|].
  apply (next_runs _ _ _ u4); [reflexivity|apply enabledb_ok; vm_compute; reflexivity|vm_compute; reflexivity|]. constructor.
Qed.

Example unstable_pending : st (filecache u4) bytes_commit_pending = 3 ∧ putblock_filesize u4 = 7.
Proof. by vm_compute. Qed.

(** ** Witnesses *)
Abbreviation contents := (file_byte bytes 10 written3).

Lemma writeback_never_aborts_witness : ∃ w', flush_act wsize (Reply 0 (Wrote 2 false)) s3 = Some ((), w').
Proof.
  apply (writeback_never_aborts wsize wsize_ok bytes 10 written3 (flushable true) [Sync_start true; Sync_chunk; Sync_end] s3 (Reply 0 (Wrote 2 false)));
    [exact (flushable_start true)|apply (issued_run []); constructor|apply enabledb_ok; vm_compute; reflexivity|exact I].
Defined.

Lemma writeback_keeps_the_file_witness : ∃ wr', at_rest (server_file (bytes, 10) (server u4)).1 (server_file (bytes, 10) (server u4)).2 wr' (filecache u4) (buffers u4) ∧
  ∀ o, file_byte (server_file (bytes, 10) (server u4)).1 (server_file (bytes, 10) (server u4)).2 wr' o = contents o.
Proof.
  apply (writeback_keeps_the_file wsize wsize_ok bytes 10 written3 (flushable false) [Sync_start false; Sync_chunk; Sync_end; Reply 0 (Wrote 3 false)] u4);
    [exact (flushable_start false)|exact unstable_run|split; vm_compute; reflexivity].
Defined.

Lemma v1_untruncated : untruncated (filecache (flushable true)).
Proof. intros i mb Hm _. apply (map_Forall_lookup_1 _ _ _ _ v1_membufs Hm). Qed.

Lemma flush_reaches_the_server_witness :
  at_rest (server_file (bytes, 10) (server s8)).1 (server_file (bytes, 10) (server s8)).2 (λ _, None) (filecache s8) (buffers s8) ∧
  ∀ o, file_byte (server_file (bytes, 10) (server s8)).1 (server_file (bytes, 10) (server s8)).2 (λ _, None) o = contents o.
Proof.
  apply (flush_reaches_the_server wsize wsize_ok bytes 10 written3 (flushable true) true (tail short_write) s8);
    [exact (flushable_start true)|reflexivity|exact v1_untruncated|exact short_write_run|split; vm_compute; reflexivity].
Defined.

Lemma flush_is_accounted_witness : flushing_seq_num s5 = 0 + zsum id (completed s5) + zsum orig_length (biovs s5) ∧
  flushing_seq_num s5 = 0 + zsum wlen (server s5) + zsum io_length (biovs s5) ∧ Z.of_nat (length (server s5)) ≤ flushing_seq_num s5 - 0.
Proof.
  apply (flush_is_accounted wsize wsize_ok bytes 10 written3 (flushable true) (take 5 short_write) s5); [exact (flushable_start true)|].
  apply issued_run. apply (next_runs _ _ _ s4); [reflexivity|apply enabledb_ok; vm_compute; reflexivity|vm_compute; reflexivity|].
  apply (next_runs _ _ _ s5); [reflexivity|apply enabledb_ok; vm_compute; reflexivity|vm_compute; reflexivity|]. constructor.
Defined.

(** After the loop three bytes are left; the replies and the retry are three steps, and one more
    was allowed by the jukebox error. *)
Example short_write_work : work s3 = 3 ∧ count goes_on (drop 3 short_write) = 3 ∧ count asks_again (drop 3 short_write) = 1.
Proof. by vm_compute. Qed.

Lemma flush_ends_witness : count goes_on (drop 3 short_write) ≤ work s3 + count asks_again (drop 3 short_write) ∧
  (finished s8 ∨ flush_enabled s8 Sync_chunk ∨ flush_enabled s8 Sync_end ∨ (∃ t, flush_enabled s8 (Retry t)) ∨
   ∃ t x, writes s8 !! t = Some x ∧ wt_prog x = Issued).
Proof.
  apply (flush_ends wsize wsize_ok bytes 10 written3 (flushable true) [Sync_start true; Sync_chunk; Sync_end] s3 (drop 3 short_write) s8);
    [exact (flushable_start true)|apply (issued_run []); constructor|exact short_write_answers|].
  repeat (apply Forall_cons; split; [reflexivity|]). apply Forall_nil. exact I.
Defined.

Lemma failed_write_aborts_witness : flush_act wsize (Reply 0 (WriteFailed 5)) s3 = None.
Proof.
  assert (∃ b, writes s3 !! 0%nat = Some (WTask b Issued)) as [b Hb] by (eexists; vm_compute; reflexivity).
  apply (failed_write_aborts wsize wsize_ok bytes 10 written3 (flushable true) [Sync_start true; Sync_chunk; Sync_end] s3 0 (WTask b Issued) 5);
    [exact (flushable_start true)|apply (issued_run []); constructor|exact Hb|reflexivity|lia].
Defined.
