(* ===== verification/DirCache.v ===== *)
(** * The inode table and the directory caches

    [struct readdirectory_cache] and [struct directory_entry]
    ([turbonfs/inc/rpc_readdir.h], [turbonfs/src/rpc_readdir.cpp]) with the reference
    counts of [struct nfs_inode] that keep inodes alive ([nfs_inode::incref()],
    [decref()], [nfs_client::get_nfs_inode()], [put_nfs_inode()]).

    - An inode is a number (its address); [inode_map] holds the inodes that were
      allocated and not yet deleted.  Reading a deleted inode or directory entry has no
      result, like a failing [assert], so a computation that returns used no freed memory.
    - A directory entry is shared ([std::shared_ptr]): [dirents] holds the live ones with
      their use counts; the destructor runs when the count drops to 0.
    - [dircaches] maps a directory inode to its [dircache_handle], absent until
      [alloc_dircache()].
    - Each function is one step: the sources hold [readdircache_lock_2] for the duration
      of each access to the cache.  [decref()]'s retry, taken only when another thread
      dropped its reference between two atomic operations, does not arise.
    - The reference counts are [Z]: 64-bit counters that one client cannot overflow.
    - Not part of this state: attributes other than the inode number, the open count, and
      the file cache of a regular file, which [decref()] purges too (see [clear] of the
      file cache). *)
From stdpp Require Import strings sorting.
From S2P Require Import Prelude.

Definition UINT32_MAX : Z := 2 ^ 32 - 1.
Definition UINT64_MAX : Z := 2 ^ 64 - 1.

(** ** State *)
Inductive ftype := NF3REG | NF3DIR | NF3LNK.

#[export] Instance ftype_eq_dec : EqDecision ftype.
Proof. solve_decision. Defined.

Record nfs_inode := Inode {
  fileid : Z;
  fh : Z;
  file_type : ftype;
  lookupcnt : Z;
  dircachecnt : Z;
  forget_expected : Z;
}.

Record directory_entry := Dirent {
  cookie : Z;
  name : string;
  de_inode : option nat;
  has_attributes : bool;
  st_ino : Z;
  use_count : Z;
}.

Record readdirectory_cache := DirCache {
  eof : bool;
  eof_cookie : Z;
  seq_last_cookie : Z;
  cache_size : Z;
  cookie_verifier : Z;
  lookuponly : bool;
  confirmed_msecs : Z;
  invalidate_pending : bool;
  dir_entries : gmap Z nat;
  dnlc_map : gmap string Z;
}.

(** The statics [bigcookie], [num_dirents_g] and [bytes_allocated_g] are part of the
    state; [next_ino] and [next_ent] are the next addresses to hand out. *)
Record client := Client {
  inode_map : gmap nat nfs_inode;
  dircaches : gmap nat readdirectory_cache;
  dirents : gmap nat directory_entry;
  next_ino : nat;
  next_ent : nat;
  bigcookie : Z;
  num_dirents_g : Z;
  bytes_allocated_g : Z;
}.

Abbreviation MD := (M client).

Definition set_inodes (f : gmap nat nfs_inode → gmap nat nfs_inode) (s : client) : client :=
  Client (f (inode_map s)) (dircaches s) (dirents s) (next_ino s) (next_ent s) (bigcookie s) (num_dirents_g s) (bytes_allocated_g s).
Definition set_caches (f : gmap nat readdirectory_cache → gmap nat readdirectory_cache) (s : client) : client :=
  Client (inode_map s) (f (dircaches s)) (dirents s) (next_ino s) (next_ent s) (bigcookie s) (num_dirents_g s) (bytes_allocated_g s).
Definition set_dirents (f : gmap nat directory_entry → gmap nat directory_entry) (s : client) : client :=
  Client (inode_map s) (dircaches s) (f (dirents s)) (next_ino s) (next_ent s) (bigcookie s) (num_dirents_g s) (bytes_allocated_g s).
Definition set_next_ino (n : nat) (s : client) : client :=
  Client (inode_map s) (dircaches s) (dirents s) n (next_ent s) (bigcookie s) (num_dirents_g s) (bytes_allocated_g s).
Definition set_next_ent (n : nat) (s : client) : client :=
  Client (inode_map s) (dircaches s) (dirents s) (next_ino s) n (bigcookie s) (num_dirents_g s) (bytes_allocated_g s).
Definition set_bigcookie (n : Z) (s : client) : client :=
  Client (inode_map s) (dircaches s) (dirents s) (next_ino s) (next_ent s) n (num_dirents_g s) (bytes_allocated_g s).
Definition set_globals (n b : Z) (s : client) : client :=
  Client (inode_map s) (dircaches s) (dirents s) (next_ino s) (next_ent s) (bigcookie s) n b.

Definition with_counts (l d f : Z) (i : nfs_inode) : nfs_inode := Inode (fileid i) (fh i) (file_type i) l d f.
Definition with_use (n : Z) (e : directory_entry) : directory_entry :=
  Dirent (cookie e) (name e) (de_inode e) (has_attributes e) (st_ino e) n.
Definition with_flags (look : bool) (conf : Z) (inval : bool) (c : readdirectory_cache) : readdirectory_cache :=
  DirCache (eof c) (eof_cookie c) (seq_last_cookie c) (cache_size c) (cookie_verifier c) look conf inval (dir_entries c) (dnlc_map c).
Definition with_eof (b : bool) (k conf : Z) (c : readdirectory_cache) : readdirectory_cache :=
  DirCache b k (seq_last_cookie c) (cache_size c) (cookie_verifier c) (lookuponly c) conf (invalidate_pending c) (dir_entries c) (dnlc_map c).
Definition with_maps (seq size : Z) (es : gmap Z nat) (ns : gmap string Z) (c : readdirectory_cache) : readdirectory_cache :=
  DirCache (eof c) (eof_cookie c) seq size (cookie_verifier c) (lookuponly c) (confirmed_msecs c) (invalidate_pending c) es ns.
Definition with_verf (v : Z) (c : readdirectory_cache) : readdirectory_cache :=
  DirCache (eof c) (eof_cookie c) (seq_last_cookie c) (cache_size c) v (lookuponly c) (confirmed_msecs c) (invalidate_pending c) (dir_entries c) (dnlc_map c).

(** ** Access *)
Definition get_inode (i : nat) : MD nfs_inode := do s ← mget; mderef (inode_map s !! i).
Definition put_inode (i : nat) (x : nfs_inode) : MD () := mmodify (set_inodes (insert i x)).
Definition get_dirent (e : nat) : MD directory_entry := do s ← mget; mderef (dirents s !! e).
Definition put_dirent (e : nat) (x : directory_entry) : MD () := mmodify (set_dirents (insert e x)).
Definition get_dircache (d : nat) : MD readdirectory_cache := do s ← mget; mderef (dircaches s !! d).
Definition put_dircache (d : nat) (c : readdirectory_cache) : MD () := mmodify (set_caches (insert d c)).

Definition is_forgotten (i : nfs_inode) : bool := lookupcnt i =? 0.
Definition is_dir (i : nfs_inode) : bool := bool_decide (file_type i = NF3DIR).

Definition incref (i : nat) : MD () :=
  do x ← get_inode i; put_inode i (with_counts (lookupcnt x + 1) (dircachecnt x) (forget_expected x) x).

Definition add_dircachecnt (i : nat) (n : Z) : MD () :=
  do x ← get_inode i; put_inode i (with_counts (lookupcnt x) (dircachecnt x + n) (forget_expected x) x).

Definition add_forget_expected (i : nat) (n : Z) : MD () :=
  do x ← get_inode i; put_inode i (with_counts (lookupcnt x) (dircachecnt x) (forget_expected x + n) x).

(** ** directory_entry *)

(** [sizeof(directory_entry)] of an LP64 target: cookie 8, [struct stat] 144, flag 8 with
    padding, two pointers. *)
Definition sizeof_directory_entry : Z := 176.

Definition get_cache_size (e : directory_entry) : Z :=
  sizeof_directory_entry + Z.of_nat (String.length (name e)) + 4 * 8.

(** [std::make_shared<directory_entry>(...)]: the constructor's bookkeeping, one use. *)
Definition make_dirent (e : directory_entry) : MD nat :=
  do s ← mget;
  let id := next_ent s in
  do_ mmodify (set_next_ent (S id));
  do_ put_dirent id e;
  do_ mmodify (set_globals (num_dirents_g s + 1) (bytes_allocated_g s + get_cache_size e));
  mret id.

(** The constructor for READDIRPLUS and LOOKUP results. *)
Definition directory_entry_new_plus (nm : string) (k : Z) (i : nat) : MD nat :=
  do x ← get_inode i;
  do_ massert (negb (is_forgotten x));
  do_ add_dircachecnt i 1;
  make_dirent (Dirent k nm (Some i) true (fileid x) 1).

(** The constructor for READDIR results. *)
Definition directory_entry_new (nm : string) (k fid : Z) : MD nat :=
  do_ massert (negb (fid =? 0)); make_dirent (Dirent k nm None false fid 1).

Definition directory_entry_dtor (id : nat) : MD () :=
  do e ← get_dirent id;
  do_ (match de_inode e with
       | Some i => do x ← get_inode i; do_ massert (0 <? dircachecnt x); add_dircachecnt i (-1)
       | None => mret ()
       end);
  do s ← mget;
  do_ massert (0 <? num_dirents_g s);
  do_ massert (get_cache_size e <=? bytes_allocated_g s);
  do_ mmodify (set_globals (num_dirents_g s - 1) (bytes_allocated_g s - get_cache_size e));
  mmodify (set_dirents (delete id)).

Definition shared_copy (id : nat) : MD () :=
  do e ← get_dirent id; put_dirent id (with_use (use_count e + 1) e).

Definition shared_reset (id : nat) : MD () :=
  do e ← get_dirent id;
  if use_count e =? 1 then directory_entry_dtor id else put_dirent id (with_use (use_count e - 1) e).

(** ** Purging a cache and dropping inode references *)

(** The cookies of the cache in the order [std::map] iterates them. *)
Definition cookies (m : gmap Z nat) : list Z := merge_sort Z.le (map_to_list m).*1.

(** One iteration of the loop of [clear()]: the inodes to free are collected. *)
Definition clear_one (c : readdirectory_cache) (k : Z) : MD (list nat) :=
  do id ← mderef (dir_entries c !! k);
  do e ← get_dirent id;
  do tofree ← (match de_inode e with
               | Some i =>
                   do x ← get_inode i;
                   do_ massert (0 <? dircachecnt x);
                   if dircachecnt x =? 1 then do_ incref i; mret [i] else mret []
               | None => mret []
               end);
  do_ shared_reset id;
  mret tofree.

Fixpoint clear_loop (c : readdirectory_cache) (ks : list Z) : MD (list nat) :=
  match ks with
  | [] => mret []
  | k :: ks' => do l ← clear_one c k; do l' ← clear_loop c ks'; mret (l ++ l')
  end.

Definition cleared (c : readdirectory_cache) : readdirectory_cache :=
  DirCache false UINT64_MAX 0 0 (cookie_verifier c) false 0 (invalidate_pending c) ∅ ∅.

(** [readdirectory_cache::clear()]; [dec] is [nfs_inode::decref()]. *)
Definition clear_with (dec : nat → MD ()) (d : nat) : MD () :=
  do c ← get_dircache d;
  do_ massert (bool_decide (dir_entries c = ∅) || negb (cookie_verifier c =? 0) || lookuponly c);
  do tofree ← clear_loop c (cookies (dir_entries c));
  do_ massert (bool_decide (size (dir_entries c) = size (dnlc_map c)));
  do_ put_dircache d (cleared c);
  mfor tofree (λ i, do x ← get_inode i; do_ massert (0 <? lookupcnt x); dec i).

(** [nfs_client::put_nfs_inode_nolock()] *)
Definition put_nfs_inode (i : nat) (dropcnt : Z) : MD () :=
  do x ← get_inode i;
  do_ massert (dropcnt <=? lookupcnt x);
  let x' := with_counts (lookupcnt x - dropcnt) (dircachecnt x) (forget_expected x) x in
  do_ put_inode i x';
  if 0 <? dircachecnt x' then mret ()
  else if 0 <? lookupcnt x' then mret ()
  else
    do_ massert (forget_expected x' =? 0);
    do s ← mget;
    do_ massert (negb (is_dir x') || match dircaches s !! i with
                                     | Some c => bool_decide (dir_entries c = ∅)
                                     | None => true
                                     end);
    do_ mmodify (set_inodes (delete i));
    mmodify (set_caches (delete i)).

(** [nfs_inode::invalidate_cache(purge_now, shutdown)] of a directory: the purge is
    deferred to the next enumeration unless [purge_now]. *)
Definition invalidate (d : nat) : MD () :=
  do c ← get_dircache d; put_dircache d (with_flags (lookuponly c) (confirmed_msecs c) true c).

Definition invalidate_cache (dec : nat → MD ()) (i : nat) (purge_now : bool) : MD () :=
  do x ← get_inode i;
  do s ← mget;
  if is_dir x && bool_decide (is_Some (dircaches s !! i)) then
    do_ invalidate i;
    if purge_now then clear_with dec i else mret ()
  else mret ().

(** [decref()] after its assertions: the references are dropped, and when they were the
    last ones the inode's cache is purged and the inode deleted. *)
Definition drop_refs (dec : nat → MD ()) (i : nat) (cnt : Z) : MD () :=
  do x ← get_inode i;
  let left := lookupcnt x + 1 - cnt in
  do_ put_inode i (with_counts left (dircachecnt x) (forget_expected x) x);
  if left =? 1 then
    do_ invalidate_cache dec i true;
    do y ← get_inode i;
    do_ put_inode i (with_counts (lookupcnt y + (cnt - 1)) (dircachecnt y) (forget_expected y) y);
    do z ← get_inode i;
    do_ massert (cnt <=? lookupcnt z);
    put_nfs_inode i cnt
  else
    do y ← get_inode i;
    put_inode i (with_counts (lookupcnt y - 1) (dircachecnt y) (forget_expected y) y).

(** The recursion goes through the caches that are purged: each nesting empties one more
    cache, so one more than the number of caches is enough fuel. *)
Fixpoint decref_n (fuel : nat) (i : nat) (cnt : Z) (from_forget : bool) : MD () :=
  match fuel with
  | O => massert false
  | S fuel' =>
      do x ← get_inode i;
      do_ massert (negb (is_forgotten x));
      do_ massert (0 <? cnt);
      do_ massert (from_forget || (cnt =? 1));
      do_ massert (cnt <=? lookupcnt x);
      do_ (if from_forget then
             do_ massert (cnt <=? forget_expected x);
             do_ massert (forget_expected x - cnt <=? lookupcnt x - cnt);
             do_ add_forget_expected i (- cnt);
             massert (0 <=? forget_expected x - cnt)
           else massert (forget_expected x <=? lookupcnt x - cnt));
      drop_refs (λ j, decref_n fuel' j 1 false) i cnt
  end.

Definition decref_cnt (i : nat) (cnt : Z) (from_forget : bool) : MD () :=
  do s ← mget; decref_n (S (size (dircaches s))) i cnt from_forget.

Definition decref (i : nat) : MD () := decref_cnt i 1 false.

Definition clear (d : nat) : MD () := clear_with decref d.

Definition clear_if_needed (d : nat) : MD () :=
  do c ← get_dircache d;
  do_ put_dircache d (with_flags (lookuponly c) (confirmed_msecs c) false c);
  if invalidate_pending c then clear d
  else if lookuponly c then clear d
  else mret ().

(** ** The operations of readdirectory_cache *)
Definition set_lookuponly (d : nat) : MD () :=
  do c ← get_dircache d; put_dircache d (with_flags true (confirmed_msecs c) (invalidate_pending c) c).

(** [now] is [get_current_msecs()]. *)
Definition set_eof (now : Z) (d : nat) (k : Z) : MD () :=
  do_ massert (2 <=? k);
  do c ← get_dircache d;
  put_dircache d (with_eof true k (if seq_last_cookie c =? k then now else 0) c).

(** [actimeo] is the attribute cache timeout of the directory, in seconds. *)
Definition is_confirmed (now actimeo : Z) (c : readdirectory_cache) : bool :=
  now <? u64 (confirmed_msecs c + actimeo * 1000).

Definition filename_to_cookie (d : nat) (nm : string) : MD Z :=
  do c ← get_dircache d;
  let k := match dnlc_map c !! nm with Some k => k | None => 0 end in
  do_ massert ((k <? UINT32_MAX) || (2 ^ 63 - 1 <=? k));
  mret k.

Definition is_some {A} (o : option A) : bool := match o with Some _ => true | None => false end.

(** [lookup()]: the caller gets a use of the entry, and a reference on its inode. *)
Definition lookup (d : nat) (k0 : Z) (hint : option string) : MD (option nat) :=
  do_ massert (eqb (k0 =? 0) (is_some hint));
  do k ← (match hint with Some nm => filename_to_cookie d nm | None => mret k0 end);
  if is_some hint && (k =? 0) then mret None
  else
    do c ← get_dircache d;
    match dir_entries c !! k with
    | None => mret None
    | Some id =>
        do_ shared_copy id;
        do e ← get_dirent id;
        do_ massert (match hint with Some nm => String.eqb (name e) nm | None => true end);
        do_ (match de_inode e with
             | Some i => do x ← get_inode i; do_ massert (0 <? dircachecnt x); add_dircachecnt i 1
             | None => mret ()
             end);
        mret (Some id)
    end.

(** [dnlc_lookup()]: the inode, with a lookup reference, or whether the name is known not
    to exist. *)
Definition dnlc_lookup (now actimeo : Z) (d : nat) (nm : string) : MD (option nat * bool) :=
  do r ← lookup d 0 (Some nm);
  match r with
  | Some id =>
      do e ← get_dirent id;
      match de_inode e with
      | Some i =>
          do_ massert (String.eqb nm (name e));
          do_ incref i;
          do x ← get_inode i;
          do_ massert (2 <=? dircachecnt x);
          do_ add_dircachecnt i (-1);
          do_ shared_reset id;
          mret (Some i, false)
      | None => do_ shared_reset id; mret (None, false)
      end
  | None => do c ← get_dircache d; mret (None, is_confirmed now actimeo c)
  end.

(** The entry leaves the cache: accounting, both maps, and the map's use. *)
Definition erase_entry (d : nat) (k : Z) (id : nat) (e : directory_entry) : MD () :=
  do c ← get_dircache d;
  do_ massert (get_cache_size e <=? cache_size c);
  do_ massert (bool_decide (is_Some (dnlc_map c !! name e)));
  do_ put_dircache d (with_maps (seq_last_cookie c) (cache_size c - get_cache_size e)
                        (delete k (dir_entries c)) (delete (name e) (dnlc_map c)) c);
  shared_reset id.

(** The end of [remove()]: the local [dirent] goes out of scope, and the inode is freed
    when the entry had its last reference. *)
Definition release_removed (id : nat) (e : directory_entry) : MD bool :=
  match de_inode e with
  | None => do_ shared_reset id; mret true
  | Some i =>
      do x ← get_inode i;
      do_ massert (0 <? dircachecnt x);
      if dircachecnt x =? 1 then
        do_ incref i;
        do_ shared_reset id;
        do y ← get_inode i;
        do_ massert (0 <? lookupcnt y);
        do_ decref i;
        mret true
      else do_ shared_reset id; mret true
  end.

Definition remove (d : nat) (k0 : Z) (hint : option string) : MD bool :=
  do_ massert (eqb (k0 =? 0) (is_some hint));
  do k ← (match hint with Some nm => filename_to_cookie d nm | None => mret k0 end);
  if is_some hint && (k =? 0) then mret false
  else
    do c ← get_dircache d;
    match dir_entries c !! k with
    | None => mret false
    | Some id =>
        do_ shared_copy id;
        do e ← get_dirent id;
        do_ massert (cookie e =? k);
        do_ (if k0 =? 0 then set_lookuponly d else mret ());
        do_ erase_entry d k id e;
        release_removed id e
    end.

Definition dnlc_remove (d : nat) (nm : string) : MD bool := remove d 0 (Some nm).

Definition MAX_CACHE_SIZE_LIMIT : Z := 1024 * 1024 * 1024.

(** [dir_entries.emplace(entry->cookie, entry)] and what follows a successful insertion. *)
Definition emplace_entry (d : nat) (id : nat) (e : directory_entry) (verf : option Z) : MD bool :=
  do c ← get_dircache d;
  do_ (match verf with Some v => massert (negb (v =? 0)) | None => mret () end);
  let c1 := match verf with Some v => with_verf v c | None => c end in
  match dir_entries c !! cookie e with
  | Some _ => do_ put_dircache d c1; mret false
  | None =>
      do_ shared_copy id;
      do_ put_dircache d
            (with_maps (if cookie e =? u64 (seq_last_cookie c + 1) then cookie e else seq_last_cookie c)
               (cache_size c + get_cache_size e)
               (<[cookie e := id]> (dir_entries c)) (<[name e := cookie e]> (dnlc_map c)) c1);
      mret true
  end.

(** [add()]; [max_cache] is the configured limit in bytes.  The caller keeps its own use
    of the entry. *)
Definition add (max_cache : Z) (d : nat) (id : nat) (verf : option Z) : MD bool :=
  do_ massert (negb (max_cache =? 0));
  let max_single_cache := Z.min MAX_CACHE_SIZE_LIMIT (max_cache / 2) in
  do e ← get_dirent id;
  do_ massert (negb (cookie e =? 0));
  do c ← get_dircache d;
  do_ (if max_single_cache <=? cache_size c then
         do_ clear d; do c' ← get_dircache d; massert (cache_size c' <? max_single_cache)
       else mret ());
  do s ← mget;
  if max_cache <? bytes_allocated_g s then mret false
  else
    do_ (match de_inode e with
         | Some i => do x ← get_inode i; massert (0 <? dircachecnt x)
         | None => mret ()
         end);
    do c ← get_dircache d;
    do_ massert (bool_decide (size (dir_entries c) = size (dnlc_map c)));
    do k ← filename_to_cookie d (name e);
    do_ (if negb (k =? 0) then do_ remove d k None; mret () else mret ());
    do r ← emplace_entry d id e verf;
    do c ← get_dircache d;
    do_ massert (bool_decide (size (dir_entries c) = size (dnlc_map c)));
    mret r.

(** [cookie = bigcookie++] *)
Definition next_bigcookie : MD Z :=
  do s ← mget; do_ mmodify (set_bigcookie (u64 (bigcookie s + 1))); mret (bigcookie s).

(** Drops the references [lookup()] took on the entry's inode and on the entry. *)
Definition drop_lookup (id : nat) (i : nat) : MD () :=
  do x ← get_inode i;
  do_ massert (2 <=? dircachecnt x);
  do_ add_dircachecnt i (-1);
  shared_reset id.

(** The cookie for the entry [filename -> inode]; [None] when the entry is already
    there. *)
Definition dnlc_cookie (d : nat) (nm : string) (i : nat) : MD (option Z) :=
  do k ← filename_to_cookie d nm;
  if k =? 0 then do b ← next_bigcookie; mret (Some b)
  else
    do r ← lookup d k None;
    do id ← mderef r;
    do e ← get_dirent id;
    match de_inode e with
    | Some j =>
        do_ drop_lookup id j;
        if (j =? i)%nat then mret None
        else do found ← remove d k None; do_ massert found; do b ← next_bigcookie; mret (Some b)
    | None => do_ shared_reset id; do found ← remove d k None; do_ massert found; mret (Some k)
    end.

Definition dnlc_add (max_cache : Z) (d : nat) (nm : string) (i : nat) : MD () :=
  do x ← get_inode i;
  do_ massert (negb (is_forgotten x));
  do k ← dnlc_cookie d nm i;
  match k with
  | None => mret ()
  | Some k =>
      do id ← directory_entry_new_plus nm k i;
      do y ← get_inode i;
      do_ massert (1 <=? dircachecnt y);
      do_ add max_cache d id None;
      do_ set_lookuponly d;
      shared_reset id
  end.

(** ** nfs_inode and nfs_client *)
Definition new_dircache (conf : Z) : readdirectory_cache := DirCache false UINT64_MAX 0 0 0 false conf false ∅ ∅.

Definition alloc_dircache (now : Z) (d : nat) (newly_created_directory : bool) : MD () :=
  do x ← get_inode d;
  do_ massert (is_dir x);
  do s ← mget;
  match dircaches s !! d with
  | Some _ => mret ()
  | None => put_dircache d (new_dircache (if newly_created_directory then now else 0))
  end.

(** [__inode_from_inode_map()]: the inode with the given file id and file handle. *)
Definition find_inode (fid hdl : Z) (m : gmap nat nfs_inode) : option nat :=
  match list_find (λ p : nat * nfs_inode, fileid p.2 = fid ∧ fh p.2 = hdl) (map_to_list m) with
  | Some (_, p) => Some p.1
  | None => None
  end.

Definition get_nfs_inode (fid hdl : Z) (ty : ftype) : MD nat :=
  do s ← mget;
  match find_inode fid hdl (inode_map s) with
  | Some i =>
      do x ← get_inode i;
      do_ massert (bool_decide (file_type x = ty));
      do_ incref i;
      mret i
  | None =>
      let i := next_ino s in
      do_ mmodify (set_next_ino (S i));
      do_ put_inode i (Inode fid hdl ty 1 0 0);
      mret i
  end.
