(* ===== verification/DirInv.v ===== *)
(** * The reference-count invariant of inodes and directory entries

    The invariant counts references exactly.  A running computation may hold references
    of its own, so the invariant is stated relative to a ghost record [held] of the
    references on the stack: lookup references ([hl]) and directory cache references
    ([hd]) on inodes, uses of directory entries ([he]), the directory ([hx]), if any, whose
    cache is between insertion and being marked lookup-only, and the references of fuse
    ([hf]), those of the entries collected for a reply included: [forget_expected] of an
    inode is the number of its occurrences there. *)
From stdpp Require Import strings sorting.
From S2P Require Import Prelude DirCache.

(** ** References *)
Record held := Held { hl : list nat; hd : list nat; he : list nat; hx : option nat; hf : list nat }.

Definition plus_l (i : nat) (g : held) : held := Held (i :: hl g) (hd g) (he g) (hx g) (hf g).
Definition plus_d (i : nat) (g : held) : held := Held (hl g) (i :: hd g) (he g) (hx g) (hf g).
Definition plus_e (e : nat) (g : held) : held := Held (hl g) (hd g) (e :: he g) (hx g) (hf g).
Definition plus_f (i : nat) (g : held) : held := Held (hl g) (hd g) (he g) (hx g) (i :: hf g).

(** The entries of a cache, with multiplicity. *)
Definition ents (c : readdirectory_cache) : list nat := (map_to_list (dir_entries c)).*2.

(** The uses of an entry by the caches. *)
Definition uses (e : nat) (C : gmap nat readdirectory_cache) : Z := msum (λ c, occ e (ents c)) C.

Definition points (i : nat) (de : directory_entry) : Z := if decide (de_inode de = Some i) then 1 else 0.

(** The live directory entries that refer to an inode. *)
Definition nrefs (i : nat) (D : gmap nat directory_entry) : Z := msum (points i) D.

Definition entsize (D : gmap nat directory_entry) (e : nat) : Z :=
  match D !! e with Some de => get_cache_size de | None => 0 end.

Definition csize (D : gmap nat directory_entry) (l : list nat) : Z := foldr (λ e (n : Z), entsize D e + n) 0 l.

#[export] Instance csize_perm D : Proper ((≡ₚ) ==> eq) (csize D).
Proof. intros l l' H. induction H; simpl; lia. Qed.

Lemma csize_ext D D' l : (∀ e, e ∈ l → entsize D' e = entsize D e) → csize D' l = csize D l.
Proof.
  induction l as [|e l IH]; intros H; [done|]. simpl. rewrite IH, (H e); [done|by left|].
  intros. apply H. by right.
Qed.

Lemma entsize_nonneg D e : 0 ≤ entsize D e.
Proof. unfold entsize, get_cache_size, sizeof_directory_entry. destruct (D !! e); lia. Qed.

Lemma csize_nonneg D l : 0 ≤ csize D l.
Proof. induction l as [|e l IH]; simpl; [done|]. pose proof (entsize_nonneg D e). lia. Qed.

(** ** The invariant *)
Record cache_ok (D : gmap nat directory_entry) (c : readdirectory_cache) : Prop := {
  co_ent k e : dir_entries c !! k = Some e → ∃ de, D !! e = Some de ∧ cookie de = k ∧ dnlc_map c !! name de = Some k;
  co_dnlc n k : dnlc_map c !! n = Some k → ∃ e de, dir_entries c !! k = Some e ∧ D !! e = Some de ∧ name de = n;
  co_range k e : dir_entries c !! k = Some e → 0 < k ∧ (k < UINT32_MAX ∨ 2 ^ 63 - 1 ≤ k);
  co_sizes : size (dir_entries c) = size (dnlc_map c);
  co_bytes : cache_size c = csize D (ents c);
  co_eof : eof c = true → 2 ≤ eof_cookie c < UINT32_MAX;
}.

Definition verf_ok (c : readdirectory_cache) : Prop :=
  dir_entries c = ∅ ∨ cookie_verifier c ≠ 0 ∨ lookuponly c = true.

(** The invariant, for the caches [C]. *)
Record invc (g : held) (C : gmap nat readdirectory_cache) (s : client) : Prop := {
  i_lookf i I : inode_map s !! i = Some I → lookupcnt I = forget_expected I + occ i (hl g) ∧ forget_expected I = occ i (hf g);
  i_dirc i I : inode_map s !! i = Some I → dircachecnt I = nrefs i (dirents s) + occ i (hd g);
  i_ptr e de i : dirents s !! e = Some de → de_inode de = Some i → is_Some (inode_map s !! i);
  i_use e de : dirents s !! e = Some de → use_count de = uses e C + occ e (he g) ∧ 0 < use_count de;
  i_hl i : i ∈ hl g → is_Some (inode_map s !! i);
  i_hd i : i ∈ hd g → is_Some (inode_map s !! i);
  i_he e : e ∈ he g → is_Some (dirents s !! e);
  i_hfs i : i ∈ hf g → is_Some (inode_map s !! i);
  i_cache d c : C !! d = Some c → cache_ok (dirents s) c;
  i_verf d c : C !! d = Some c → hx g ≠ Some d → verf_ok c;
  i_dirs d c : C !! d = Some c → ∃ I, inode_map s !! d = Some I ∧ file_type I = NF3DIR;
  i_num : num_dirents_g s = Z.of_nat (size (dirents s));
  i_bytes : bytes_allocated_g s = msum get_cache_size (dirents s);
  i_nextino i : (next_ino s ≤ i)%nat → inode_map s !! i = None;
  i_nextent e : (next_ent s ≤ e)%nat → dirents s !! e = None;
  i_key i j I J : inode_map s !! i = Some I → inode_map s !! j = Some J →
    fileid I = fileid J → fh I = fh J → i = j;
  i_big : 2 ^ 63 - 1 ≤ bigcookie s;
  i_ck e de : dirents s !! e = Some de → cookie de < UINT32_MAX ∨ cookie de < bigcookie s;
}.

Definition inv (g : held) (s : client) : Prop := invc g (dircaches s) s.

(** ** Facts *)
Lemma i_look g C s (V : invc g C s) i I : inode_map s !! i = Some I → lookupcnt I = forget_expected I + occ i (hl g) ∧ 0 ≤ forget_expected I.
Proof. intros HI. destruct (i_lookf _ _ _ V i I HI). pose proof (occ_nonneg i (hf g)). lia. Qed.

Lemma i_hf g C s (V : invc g C s) i : i ∈ hf g → ∃ I, inode_map s !! i = Some I ∧ occ i (hf g) ≤ forget_expected I.
Proof. intros Hi. destruct (i_hfs _ _ _ V i Hi) as [I HI]. exists I. destruct (i_lookf _ _ _ V i I HI) as [_ ->]. done. Qed.

Lemma points_nonneg i de : 0 ≤ points i de.
Proof. unfold points. case_decide; lia. Qed.

Lemma nrefs_nonneg i D : 0 ≤ nrefs i D.
Proof. apply msum_nonneg. intros. apply points_nonneg. Qed.

Lemma nrefs_pos i D e de : D !! e = Some de → de_inode de = Some i → 1 ≤ nrefs i D.
Proof.
  intros He Hi. assert (points i de = 1) as <- by (unfold points; by rewrite decide_True).
  eapply msum_elem_le; [|done]. intros. apply points_nonneg.
Qed.

Lemma uses_nonneg e C : 0 ≤ uses e C.
Proof. apply msum_nonneg. intros. apply occ_nonneg. Qed.

Lemma elem_of_ents e c : e ∈ ents c ↔ ∃ k, dir_entries c !! k = Some e.
Proof.
  unfold ents. rewrite list_elem_of_fmap. split.
  - intros ([k e'] & -> & H%elem_of_map_to_list). eauto.
  - intros [k H]. exists (k, e). split; [done|]. by apply elem_of_map_to_list.
Qed.

Lemma ents_insert c k id seq size ns :
  dir_entries c !! k = None → ents (with_maps seq size (<[k:=id]> (dir_entries c)) ns c) ≡ₚ id :: ents c.
Proof. intros H. unfold ents. simpl. by rewrite map_to_list_insert. Qed.

Lemma ents_delete c k id seq size ns :
  dir_entries c !! k = Some id → ents c ≡ₚ id :: ents (with_maps seq size (delete k (dir_entries c)) ns c).
Proof. intros H. unfold ents. simpl. by rewrite <- (map_to_list_delete _ _ _ H). Qed.

Lemma uses_insert e C d c c' :
  C !! d = Some c → uses e (<[d:=c']> C) = uses e C - occ e (ents c) + occ e (ents c').
Proof. intros H. unfold uses. by rewrite (msum_insert _ _ _ _ _ H). Qed.

Lemma uses_fresh e C d c : C !! d = None → uses e (<[d:=c]> C) = uses e C + occ e (ents c).
Proof. intros H. unfold uses. rewrite msum_insert_fresh by done. lia. Qed.

Lemma uses_delete e C d c : C !! d = Some c → uses e (delete d C) = uses e C - occ e (ents c).
Proof. intros H. unfold uses. by rewrite (msum_delete _ _ _ _ H). Qed.

Lemma uses_elem e C d c : C !! d = Some c → occ e (ents c) ≤ uses e C.
Proof.
  intros H. change (occ e (ents c)) with ((λ c, occ e (ents c)) c). eapply msum_elem_le; [|done].
  intros. apply occ_nonneg.
Qed.

(** ** How the invariant changes with the state *)

(** The counts of one inode change along with the references held. *)
Lemma inv_counts g g' C s i I l d f :
  invc g C s → inode_map s !! i = Some I →
  l = f + occ i (hl g') → d = nrefs i (dirents s) + occ i (hd g') →
  (∀ j, j ≠ i → occ j (hl g') = occ j (hl g) ∧ occ j (hd g') = occ j (hd g)) →
  he g' = he g → hx g' = hx g →
  f = occ i (hf g') → (∀ j, j ≠ i → occ j (hf g') = occ j (hf g)) →
  invc g' C (set_inodes (insert i (with_counts l d f I)) s).
Proof.
  intros V Hi Hl Hd Hoth He Hx Hfi Hfo.
  assert (∀ j, is_Some (inode_map s !! j) → is_Some (<[i:=with_counts l d f I]> (inode_map s) !! j)) as Hdom
    by (intros; apply lookup_insert_is_Some'; by right).
  assert (∀ j J', <[i:=with_counts l d f I]> (inode_map s) !! j = Some J' →
    (j = i ∧ J' = with_counts l d f I) ∨ (j ≠ i ∧ inode_map s !! j = Some J')) as Hinv
    by (intros j J' [[-> <-]|[]]%lookup_insert_Some; auto).
  constructor; simpl.
  - intros j J' [[-> ->]|[Hne HJ]]%Hinv; [done|]. destruct (Hoth j Hne) as [-> _]. rewrite Hfo by done. by apply (i_lookf _ _ _ V).
  - intros j J' [[-> ->]|[Hne HJ]]%Hinv; [done|]. destruct (Hoth j Hne) as [_ ->]. by apply (i_dirc _ _ _ V).
  - intros e de j He' Hj. apply Hdom. by eapply (i_ptr _ _ _ V).
  - rewrite He. apply (i_use _ _ _ V).
  - intros j Hj. destruct (decide (j = i)) as [->|Hne]; [apply Hdom; eauto|].
    apply Hdom, (i_hl _ _ _ V), occ_pos. destruct (Hoth j Hne) as [<- _]. by apply occ_pos.
  - intros j Hj. destruct (decide (j = i)) as [->|Hne]; [apply Hdom; eauto|].
    apply Hdom, (i_hd _ _ _ V), occ_pos. destruct (Hoth j Hne) as [_ <-]. by apply occ_pos.
  - rewrite He. apply (i_he _ _ _ V).
  - intros j Hj. destruct (decide (j = i)) as [->|Hne]; [by rewrite lookup_insert_eq; eauto|].
    rewrite lookup_insert_ne by done. apply (i_hfs _ _ _ V), occ_pos. rewrite <- Hfo by done. by apply occ_pos.
  - apply (i_cache _ _ _ V).
  - rewrite Hx. apply (i_verf _ _ _ V).
  - intros j c Hc. destruct (i_dirs _ _ _ V j c Hc) as (J & HJ & HT). destruct (decide (j = i)) as [->|Hne].
    + exists (with_counts l d f I). rewrite lookup_insert_eq. naive_solver.
    + exists J. by rewrite lookup_insert_ne.
  - apply (i_num _ _ _ V).
  - apply (i_bytes _ _ _ V).
  - intros j Hj. pose proof (i_nextino _ _ _ V j Hj). rewrite lookup_insert_ne; congruence.
  - apply (i_nextent _ _ _ V).
  - intros j k J K [[-> ->]|[Hne HJ]]%Hinv [[-> ->]|[Hne' HK]]%Hinv; simpl; intros ? ?; [done|..].
    + by eapply (i_key _ _ _ V).
    + by eapply (i_key _ _ _ V).
    + by eapply (i_key _ _ _ V).
  - apply (i_big _ _ _ V).
  - apply (i_ck _ _ _ V).
Qed.

(** The references of one inode change; what is owed to fuse stays. *)
Lemma inv_refs g g' C s i I l d :
  invc g C s → inode_map s !! i = Some I →
  l = forget_expected I + occ i (hl g') → d = nrefs i (dirents s) + occ i (hd g') →
  (∀ j, j ≠ i → occ j (hl g') = occ j (hl g) ∧ occ j (hd g') = occ j (hd g)) →
  he g' = he g → hx g' = hx g → hf g' = hf g →
  invc g' C (set_inodes (insert i (with_counts l d (forget_expected I) I)) s).
Proof.
  intros V Hi Hl Hd Hoth He Hx Hf. destruct (i_lookf _ _ _ V i I Hi). eapply inv_counts; try done; rewrite Hf; done.
Qed.

(** The use count of one entry changes along with the uses held. *)
Lemma inv_use g g' C s e de n :
  invc g C s → dirents s !! e = Some de →
  n = uses e C + occ e (he g') → 0 < n →
  (∀ e', e' ≠ e → occ e' (he g') = occ e' (he g)) →
  hl g' = hl g → hd g' = hd g → hx g' = hx g → hf g' = hf g →
  invc g' C (set_dirents (insert e (with_use n de)) s).
Proof.
  intros V He Hn Hpos Hoth Hl Hd Hx Hf.
  assert (∀ j D', <[e:=with_use n de]> (dirents s) !! j = Some D' →
    (j = e ∧ D' = with_use n de) ∨ (j ≠ e ∧ dirents s !! j = Some D')) as Hinv
    by (intros j D' [[-> <-]|[]]%lookup_insert_Some; auto).
  assert (∀ j D, dirents s !! j = Some D → ∃ D', <[e:=with_use n de]> (dirents s) !! j = Some D' ∧
    cookie D' = cookie D ∧ name D' = name D) as Hfwd.
  { intros j D HD. destruct (decide (j = e)) as [->|Hne].
    - simplify_eq. eexists. by rewrite lookup_insert_eq.
    - exists D. by rewrite lookup_insert_ne. }
  assert (∀ i, nrefs i (<[e:=with_use n de]> (dirents s)) = nrefs i (dirents s)) as Hrefs.
  { intros i. unfold nrefs. rewrite (msum_insert _ _ _ _ _ He). unfold points. simpl. lia. }
  assert (∀ j, entsize (<[e:=with_use n de]> (dirents s)) j = entsize (dirents s) j) as Hsize.
  { intros j. unfold entsize. destruct (decide (j = e)) as [->|Hne].
    - by rewrite lookup_insert_eq, He.
    - by rewrite lookup_insert_ne. }
  constructor; simpl.
  - rewrite Hl, Hf. apply (i_lookf _ _ _ V).
  - intros i I HI. rewrite Hrefs, Hd. by apply (i_dirc _ _ _ V).
  - intros j D' i [[-> ->]|[Hne HD]]%Hinv Hi; by eapply (i_ptr _ _ _ V).
  - intros j D' [[-> ->]|[Hne HD]]%Hinv; [done|]. rewrite Hoth by done. by apply (i_use _ _ _ V).
  - rewrite Hl. apply (i_hl _ _ _ V).
  - rewrite Hd. apply (i_hd _ _ _ V).
  - intros j Hj. apply lookup_insert_is_Some'. destruct (decide (j = e)) as [->|Hne]; [by left|right].
    apply (i_he _ _ _ V), occ_pos. rewrite <- Hoth by done. by apply occ_pos.
  - rewrite Hf. apply (i_hfs _ _ _ V).
  - intros d c Hc. pose proof (i_cache _ _ _ V d c Hc) as [H1 H2 H3 H4 H5 H6]. constructor; try done.
    + intros k j Hj. destruct (H1 k j Hj) as (D & HD & <- & ?). destruct (Hfwd j D HD) as (D' & ? & ? & Hname).
      exists D'. by rewrite Hname.
    + intros nm k Hk. destruct (H2 nm k Hk) as (j & D & ? & HD & <-). destruct (Hfwd j D HD) as (D' & ? & ? & ?).
      by exists j, D'.
    + rewrite H5. symmetry. by apply csize_ext.
  - rewrite Hx. apply (i_verf _ _ _ V).
  - apply (i_dirs _ _ _ V).
  - rewrite (i_num _ _ _ V), map_size_insert_Some; [done|by eexists].
  - rewrite (i_bytes _ _ _ V), (msum_insert _ _ _ _ _ He). unfold get_cache_size. simpl. lia.
  - apply (i_nextino _ _ _ V).
  - intros j Hj. pose proof (i_nextent _ _ _ V j Hj). rewrite lookup_insert_ne; congruence.
  - apply (i_key _ _ _ V).
  - apply (i_big _ _ _ V).
  - intros j D' [[-> ->]|[Hne HD]]%Hinv; [exact (i_ck _ _ _ V e de He)|by eapply (i_ck _ _ _ V)].
Qed.

(** One cache changes; uses move between the caches and the uses held. *)
Lemma inv_put_cache g g' C s d c c' :
  invc g C s → C !! d = Some c →
  (∀ e, occ e (ents c') + occ e (he g') = occ e (ents c) + occ e (he g)) →
  cache_ok (dirents s) c' → (hx g' ≠ Some d → verf_ok c') →
  (∀ x, x ≠ d → hx g' ≠ Some x → hx g ≠ Some x) →
  hl g' = hl g → hd g' = hd g → hf g' = hf g →
  invc g' (<[d:=c']> C) s.
Proof.
  intros V Hc Hocc Hok Hverf Hx Hl Hd Hf.
  assert (∀ j c0, <[d:=c']> C !! j = Some c0 → (j = d ∧ c0 = c') ∨ (j ≠ d ∧ C !! j = Some c0)) as Hinv
    by (intros j c0 [[-> <-]|[]]%lookup_insert_Some; auto).
  constructor; try solve [apply V]; rewrite ?Hl, ?Hd, ?Hf; try solve [apply V].
  - intros e de He. rewrite (uses_insert _ _ _ _ _ Hc). destruct (i_use _ _ _ V e de He). specialize (Hocc e). lia.
  - intros e He. apply occ_pos in He.
    destruct (decide (e ∈ he g)) as [|Hn]; [by apply (i_he _ _ _ V)|]. apply occ_notin in Hn.
    assert (e ∈ ents c) as (k & Hk)%elem_of_ents.
    { apply occ_pos. specialize (Hocc e). pose proof (occ_nonneg e (ents c')). lia. }
    destruct (co_ent _ _ (i_cache _ _ _ V d c Hc) _ _ Hk) as (de & ? & _). eauto.
  - intros j c0 [[-> ->]|[? ?]]%Hinv; [done|]. by eapply (i_cache _ _ _ V).
  - intros j c0 [[-> ->]|[? ?]]%Hinv ?; [by apply Hverf|]. eapply (i_verf _ _ _ V); [done|]. by apply Hx.
  - intros j c0 [[-> ->]|[? ?]]%Hinv; by eapply (i_dirs _ _ _ V).
Qed.

(** An entry nobody uses is destroyed. *)
Lemma inv_dtor g C s e de :
  invc (plus_e e g) C s → dirents s !! e = Some de → use_count de = 1 →
  invc (match de_inode de with Some i => plus_d i g | None => g end) C
    (set_dirents (delete e) (set_globals (num_dirents_g s - 1) (bytes_allocated_g s - get_cache_size de) s)).
Proof.
  intros V He Huse. destruct (i_use _ _ _ V e de He) as [Hu _]. simpl in Hu. rewrite decide_True in Hu by done.
  pose proof (uses_nonneg e C). pose proof (occ_nonneg e (he g)).
  set (g' := match de_inode de with Some i => plus_d i g | None => g end).
  assert (hl g' = hl g ∧ he g' = he g ∧ hx g' = hx g ∧ hf g' = hf g) as (Hl & Hhe & Hx & Hf) by (subst g'; by destruct (de_inode de)).
  assert (∀ j D', delete e (dirents s) !! j = Some D' ↔ j ≠ e ∧ dirents s !! j = Some D') as Hinv
    by (intros; rewrite lookup_delete_Some; naive_solver).
  assert (∀ d c, C !! d = Some c → e ∉ ents c) as Hnot.
  { intros d c Hc Hin%occ_pos. pose proof (uses_elem e C d c Hc). lia. }
  constructor; simpl; rewrite ?Hl, ?Hhe, ?Hx, ?Hf; try solve [apply V].
  - intros i I HI. rewrite (i_dirc _ _ _ V i I HI). unfold nrefs. rewrite (msum_delete _ _ _ _ He). subst g'. simpl.
    unfold points. destruct (de_inode de) as [j|]; simpl; repeat case_decide; simplify_eq; lia.
  - intros j D' i [Hne HD]%Hinv Hi. by eapply (i_ptr _ _ _ V).
  - intros j D' [Hne HD]%Hinv. destruct (i_use _ _ _ V j D' HD) as [Hj ?]. simpl in Hj.
    rewrite decide_False in Hj by done. lia.
  - intros i Hi. subst g'. destruct (de_inode de) as [j|] eqn:Hj; [|by apply (i_hd _ _ _ V)].
    apply elem_of_cons in Hi as [->|Hi]; [by eapply (i_ptr _ _ _ V)|by apply (i_hd _ _ _ V)].
  - intros j Hj. assert (j ≠ e) by (intros ->; apply occ_pos in Hj; lia).
    rewrite lookup_delete_ne by done. apply (i_he _ _ _ V). by right.
  - intros d c Hc. pose proof (i_cache _ _ _ V d c Hc) as [H1 H2 H3 H4 H5 H6]. specialize (Hnot d c Hc). constructor; try done.
    + intros k j Hj. destruct (H1 k j Hj) as (D & HD & ?). exists D. rewrite Hinv. split; [|done]. split; [|done].
      intros ->. apply Hnot, elem_of_ents. eauto.
    + intros nm k Hk. destruct (H2 nm k Hk) as (j & D & Hj & HD & ?). exists j, D. rewrite Hinv.
      split_and!; try done. intros ->. apply Hnot, elem_of_ents. eauto.
    + rewrite H5. symmetry. apply csize_ext. intros j Hj. unfold entsize. rewrite lookup_delete_ne; [done|]. by intros ->.
  - rewrite (i_num _ _ _ V), map_size_delete_Some by eauto.
    assert (size (dirents s) ≠ 0)%nat; [|lia]. intros Hz%map_size_empty_inv. by rewrite Hz in He.
  - by rewrite (i_bytes _ _ _ V), (msum_delete _ _ _ _ He).
  - intros j Hj. apply lookup_delete_None. right. by apply (i_nextent _ _ _ V).
  - intros j D' [Hne HD]%Hinv. by eapply (i_ck _ _ _ V).
Qed.

(** A new entry, used once by the caller. *)
Lemma inv_make g C s de :
  invc (match de_inode de with Some i => plus_d i g | None => g end) C s → use_count de = 1 →
  cookie de < UINT32_MAX ∨ cookie de < bigcookie s →
  invc (plus_e (next_ent s) g) C
    (set_globals (num_dirents_g s + 1) (bytes_allocated_g s + get_cache_size de)
       (set_dirents (insert (next_ent s) de) (set_next_ent (S (next_ent s)) s))).
Proof.
  set (e := next_ent s). set (g' := match de_inode de with Some i => plus_d i g | None => g end).
  intros V Huse Hck. assert (dirents s !! e = None) as He by (apply (i_nextent _ _ _ V); lia).
  assert (hl g' = hl g ∧ he g' = he g ∧ hx g' = hx g ∧ hf g' = hf g) as (Hl & Hhe & Hx & Hf) by (subst g'; by destruct (de_inode de)).
  assert (∀ j D', <[e:=de]> (dirents s) !! j = Some D' → (j = e ∧ D' = de) ∨ (j ≠ e ∧ dirents s !! j = Some D')) as Hinv
    by (intros j D' [[-> <-]|[]]%lookup_insert_Some; auto).
  assert (∀ d c, C !! d = Some c → e ∉ ents c) as Hnot.
  { intros d c Hc (k & Hk)%elem_of_ents. destruct (co_ent _ _ (i_cache _ _ _ V d c Hc) _ _ Hk) as (? & ? & _). congruence. }
  assert (uses e C = 0) as Hu0.
  { apply Z.le_antisymm; [|apply uses_nonneg]. unfold uses.
    rewrite <- (msum_empty (λ c, occ e (ents c))). clear -Hnot. induction C as [|d c C Hd IH] using map_ind; [done|].
    rewrite msum_insert_fresh by done. rewrite (occ_notin e (ents c)) by (apply (Hnot d); apply lookup_insert_eq).
    transitivity (0 + msum (λ c, occ e (ents c)) ∅); [|lia]. apply Z.add_le_mono_l, IH.
    intros d' c' Hc'. apply (Hnot d'). rewrite lookup_insert_ne; [done|congruence]. }
  assert (occ e (he g) = 0) as Hh0.
  { apply occ_notin. intros Hin. rewrite <- Hhe in Hin. destruct (i_he _ _ _ V _ Hin). congruence. }
  constructor; simpl; rewrite <- ?Hl, <- ?Hx, <- ?Hf; try solve [apply V].
  - intros i I HI. rewrite (i_dirc _ _ _ V i I HI). unfold nrefs. rewrite msum_insert_fresh by done. subst g'. simpl.
    unfold points. destruct (de_inode de) as [j|]; simpl; repeat case_decide; simplify_eq; lia.
  - intros j D' i [[-> ->]|[Hne HD]]%Hinv Hi; [|by eapply (i_ptr _ _ _ V)].
    apply (i_hd _ _ _ V). subst g'. rewrite Hi. by left.
  - intros j D' [[-> ->]|[Hne HD]]%Hinv.
    + rewrite decide_True by done. lia.
    + rewrite decide_False by done. rewrite <- Hhe. destruct (i_use _ _ _ V j D' HD). lia.
  - intros i Hi. apply (i_hd _ _ _ V). subst g'. destruct (de_inode de); [by right|done].
  - intros j [->|Hj]%elem_of_cons; apply lookup_insert_is_Some'; [by left|right].
    apply (i_he _ _ _ V). by rewrite Hhe.
  - intros d c Hc. pose proof (i_cache _ _ _ V d c Hc) as [H1 H2 H3 H4 H5 H6]. specialize (Hnot d c Hc). constructor; try done.
    + intros k j Hj. destruct (H1 k j Hj) as (D & HD & ?). exists D. rewrite lookup_insert_ne; [done|congruence].
    + intros nm k Hk. destruct (H2 nm k Hk) as (j & D & Hj & HD & ?). exists j, D. rewrite lookup_insert_ne; [done|congruence].
    + rewrite H5. symmetry. apply csize_ext. intros j Hj. unfold entsize. rewrite lookup_insert_ne; [done|]. by intros <-.
  - rewrite (i_num _ _ _ V), map_size_insert_None by done. lia.
  - rewrite (i_bytes _ _ _ V), msum_insert_fresh by done. lia.
  - intros j Hj. rewrite lookup_insert_ne by lia. apply (i_nextent _ _ _ V). lia.
  - intros j D' [[-> ->]|[Hne HD]]%Hinv; [done|by eapply (i_ck _ _ _ V)].
Qed.

(** An inode nobody refers to is deleted, with its empty cache. *)
Lemma inv_delete_inode g s i I :
  inv g s → inode_map s !! i = Some I → lookupcnt I = 0 → dircachecnt I = 0 →
  (∀ c, dircaches s !! i = Some c → dir_entries c = ∅) →
  inv g (set_caches (delete i) (set_inodes (delete i) s)).
Proof.
  intros V Hi Hl0 Hd0 Hempty. unfold inv in *. simpl.
  destruct (i_look _ _ _ V i I Hi) as [Hl Hf]. pose proof (i_dirc _ _ _ V i I Hi) as Hd.
  pose proof (occ_nonneg i (hl g)). pose proof (occ_nonneg i (hd g)). pose proof (nrefs_nonneg i (dirents s)).
  assert (i ∉ hl g) by (rewrite occ_pos; lia). assert (i ∉ hd g) by (rewrite occ_pos; lia).
  assert (∀ e, uses e (delete i (dircaches s)) = uses e (dircaches s)) as Huses.
  { intros e. destruct (dircaches s !! i) as [c|] eqn:Hc; [|by rewrite delete_id].
    rewrite (uses_delete _ _ _ _ Hc). unfold ents. rewrite (Hempty c) by done. rewrite map_to_list_empty. simpl. lia. }
  assert (∀ j (c : readdirectory_cache), delete i (dircaches s) !! j = Some c → j ≠ i ∧ dircaches s !! j = Some c) as Hc
    by (intros j c []%lookup_delete_Some; naive_solver).
  assert (∀ j J, delete i (inode_map s) !! j = Some J → j ≠ i ∧ inode_map s !! j = Some J) as HJ
    by (intros j J []%lookup_delete_Some; naive_solver).
  constructor; simpl; try solve [apply V].
  - intros j J []%HJ. by apply (i_lookf _ _ _ V).
  - intros j J []%HJ. by apply (i_dirc _ _ _ V).
  - intros e de j He Hj. rewrite lookup_delete_ne; [by eapply (i_ptr _ _ _ V)|].
    intros <-. pose proof (nrefs_pos _ _ _ _ He Hj). lia.
  - intros e de. rewrite Huses. apply (i_use _ _ _ V).
  - intros j Hj. rewrite lookup_delete_ne by (by intros ->). by apply (i_hl _ _ _ V).
  - intros j Hj. rewrite lookup_delete_ne by (by intros ->). by apply (i_hd _ _ _ V).
  - intros j Hj. destruct (i_hf _ _ _ V j Hj) as (J & HJ' & Hle). apply occ_pos in Hj. exists J.
    rewrite lookup_delete_ne; [done|]. intros <-. simplify_eq. lia.
  - intros j c []%Hc. by eapply (i_cache _ _ _ V).
  - intros j c []%Hc. by eapply (i_verf _ _ _ V).
  - intros j c [? Hj]%Hc. destruct (i_dirs _ _ _ V j c Hj) as (J & ? & ?). exists J. by rewrite lookup_delete_ne.
  - intros j Hj. apply lookup_delete_None. right. by apply (i_nextino _ _ _ V).
  - intros j k J K []%HJ []%HJ. by apply (i_key _ _ _ V).
Qed.
