(* ===== verification/DirRefs.v ===== *)
(** * Reference counting: the primitives, purging and decref

    Specifications of the primitives that move references, then of the mutual recursion of
    [clear()] and [decref()]: it never touches a freed inode or entry, fails no assertion,
    terminates within its fuel, and leaves alone the caches of inodes that are still
    referenced. *)
From stdpp Require Import strings sorting.
From S2P Require Import Prelude DirCache DirInv.

(** ** What a computation leaves alone *)
Definition same_ent (a b : directory_entry) : Prop := cookie a = cookie b ∧ name a = name b ∧ de_inode a = de_inode b.

Definition same_ino (I J : nfs_inode) : Prop :=
  fileid I = fileid J ∧ fh I = fh J ∧ file_type I = file_type J ∧ forget_expected I = forget_expected J.

(** References held ([l]) or expected back from fuse keep an inode. *)
Definition pinned (l : list nat) (s : client) (j : nat) : Prop :=
  ∃ J, inode_map s !! j = Some J ∧ 0 < forget_expected J + occ j l.

(** Inodes and entries may only go away, caches only be purged; pinned inodes stay, and
    their caches stay as they are, except the cache of [x]. *)
Record shrinks (l : list nat) (x : option nat) (s s' : client) : Prop := {
  sh_ino j J' : inode_map s' !! j = Some J' → ∃ J, inode_map s !! j = Some J ∧ same_ino J J';
  sh_pin j : pinned l s j → is_Some (inode_map s' !! j) ∧ (x ≠ Some j → dircaches s' !! j = dircaches s !! j);
  sh_ent e de' : dirents s' !! e = Some de' → ∃ de, dirents s !! e = Some de ∧ same_ent de de';
  sh_cache j c' : dircaches s' !! j = Some c' → ∃ c, dircaches s !! j = Some c ∧ (dir_entries c' = dir_entries c ∨ dir_entries c' = ∅);
  sh_next : next_ino s' = next_ino s ∧ next_ent s' = next_ent s ∧ bigcookie s' = bigcookie s;
}.

Lemma same_ino_refl I : same_ino I I.
Proof. done. Qed.

Lemma same_ent_refl e : same_ent e e.
Proof. done. Qed.

#[export] Hint Resolve same_ino_refl same_ent_refl : core.

Lemma shrinks_refl l x s : shrinks l x s s.
Proof. constructor; try done; [intros; eexists; done| |intros; eexists; done|]; eauto. intros j (J & -> & _). eauto. Qed.

Lemma shrinks_pinned l x s s' j : shrinks l x s s' → pinned l s j → pinned l s' j.
Proof.
  intros Sh Hp. destruct (sh_pin _ _ _ _ Sh j Hp) as [[J' HJ'] _]. destruct (sh_ino _ _ _ _ Sh j J' HJ') as (J & HJ & Hs).
  destruct Hp as (J0 & HJ0 & Hpos). simplify_eq. exists J'. split; [done|]. destruct Hs as (_ & _ & _ & <-). done.
Qed.

Lemma shrinks_trans l x s1 s2 s3 : shrinks l x s1 s2 → shrinks l x s2 s3 → shrinks l x s1 s3.
Proof.
  intros A B. constructor.
  - intros j J3 H3. destruct (sh_ino _ _ _ _ B j J3 H3) as (J2 & H2 & ?). destruct (sh_ino _ _ _ _ A j J2 H2) as (J1 & H1 & ?).
    exists J1. split; [done|]. unfold same_ino in *. intuition congruence.
  - intros j Hp. pose proof (shrinks_pinned _ _ _ _ _ A Hp) as Hp2.
    destruct (sh_pin _ _ _ _ A j Hp) as [_ Ha]. destruct (sh_pin _ _ _ _ B j Hp2) as [Hb1 Hb2].
    split; [done|]. intros Hx. by rewrite Hb2, Ha.
  - intros e d3 H3. destruct (sh_ent _ _ _ _ B e d3 H3) as (d2 & H2 & ?). destruct (sh_ent _ _ _ _ A e d2 H2) as (d1 & H1 & ?).
    exists d1. split; [done|]. unfold same_ent in *. intuition congruence.
  - intros j c3 H3. destruct (sh_cache _ _ _ _ B j c3 H3) as (c2 & H2 & Hor). destruct (sh_cache _ _ _ _ A j c2 H2) as (c1 & H1 & Hor').
    exists c1. split; [done|]. destruct Hor as [->|]; [done|by right].
  - destruct (sh_next _ _ _ _ A) as (?&?&?), (sh_next _ _ _ _ B) as (?&?&?). split_and!; congruence.
Qed.

Lemma shrinks_weaken l l' x s s' : (∀ j, occ j l ≤ occ j l') → shrinks l' x s s' → shrinks l x s s'.
Proof.
  intros Hle [H1 H2 H3 H4 H5]. constructor; try done. intros j (J & HJ & Hpos). apply H2. exists J. split; [done|].
  specialize (Hle j). lia.
Qed.

(** A computation that changes counters and drops entries only. *)
Definition touches (s s' : client) : Prop :=
  (∀ j J', inode_map s' !! j = Some J' → ∃ J, inode_map s !! j = Some J ∧ same_ino J J') ∧
  (∀ j, is_Some (inode_map s !! j) → is_Some (inode_map s' !! j)) ∧
  (∀ e de', dirents s' !! e = Some de' → ∃ de, dirents s !! e = Some de ∧ same_ent de de') ∧
  dircaches s' = dircaches s ∧
  (next_ino s' = next_ino s ∧ next_ent s' = next_ent s ∧ bigcookie s' = bigcookie s).

Lemma touches_shrinks l x s s' : touches s s' → shrinks l x s s'.
Proof.
  intros (H1 & H2 & H3 & H4 & H5). constructor; try done.
  - intros j (J & HJ & _). split; [eauto|]. by rewrite H4.
  - intros j c'. rewrite H4. eauto.
Qed.

Lemma touches_refl s : touches s s.
Proof. split_and!; eauto. Qed.

Lemma touches_trans s1 s2 s3 : touches s1 s2 → touches s2 s3 → touches s1 s3.
Proof.
  intros (A1 & A2 & A3 & A4 & A5 & A6 & A7) (B1 & B2 & B3 & B4 & B5 & B6 & B7). split_and!; [| | |congruence..].
  - intros j J3 H3. destruct (B1 j J3 H3) as (J2 & H2 & ?). destruct (A1 j J2 H2) as (J1 & H1 & ?).
    exists J1. split; [done|]. unfold same_ino in *. intuition congruence.
  - eauto.
  - intros e d3 H3. destruct (B3 e d3 H3) as (d2 & H2 & ?). destruct (A3 e d2 H2) as (d1 & H1 & ?).
    exists d1. split; [done|]. unfold same_ent in *. intuition congruence.
Qed.

Lemma touches_counts s i I l d : inode_map s !! i = Some I →
  touches s (set_inodes (insert i (with_counts l d (forget_expected I) I)) s).
Proof.
  intros HI. split_and!; simpl; try done.
  - intros j J' [[-> <-]|[]]%lookup_insert_Some; eauto. exists I. split; [done|]. by unfold same_ino.
  - intros j Hj. apply lookup_insert_is_Some'. by right.
  - eauto.
Qed.

(** ** Primitives *)
Section primitives.
Context (C : gmap nat readdirectory_cache).
Implicit Types (g : held) (s : client).

Lemma get_inode_spec g s i : invc g C s → is_Some (inode_map s !! i) →
  wp (get_inode i) s (λ x s', s' = s ∧ inode_map s !! i = Some x).
Proof. intros _ [x Hx]. unfold get_inode. repeat wp_step; eauto. Qed.

Lemma incref_spec g s i : invc g C s → is_Some (inode_map s !! i) →
  wp (incref i) s (λ _ s', invc (plus_l i g) C s' ∧ touches s s' ∧ dirents s' = dirents s).
Proof.
  intros V [x Hx]. unfold incref, get_inode, put_inode. repeat wp_step; [done|]. repeat wp_step.
  split_and!; [|by apply touches_counts|done].
  destruct (i_look _ _ _ V i x Hx). eapply inv_refs; eauto; simpl.
  - rewrite decide_True by done. lia.
  - by apply (i_dirc _ _ _ V).
  - intros j Hj. rewrite decide_False by done. split; lia.
Qed.

Lemma dircachecnt_up g s i : invc g C s → is_Some (inode_map s !! i) →
  wp (add_dircachecnt i 1) s (λ _ s', invc (plus_d i g) C s' ∧ touches s s' ∧ dirents s' = dirents s).
Proof.
  intros V [x Hx]. unfold add_dircachecnt, get_inode, put_inode. repeat wp_step; [done|]. repeat wp_step.
  split_and!; [|by apply touches_counts|done].
  destruct (i_look _ _ _ V i x Hx). pose proof (i_dirc _ _ _ V i x Hx). eapply inv_refs; eauto; simpl.
  - rewrite decide_True by done. lia.
  - intros j Hj. rewrite decide_False by done. split; lia.
Qed.

Lemma dircachecnt_down g s i : invc (plus_d i g) C s →
  wp (add_dircachecnt i (-1)) s (λ _ s', invc g C s' ∧ touches s s' ∧ dirents s' = dirents s).
Proof.
  intros V. destruct (i_hd _ _ _ V i) as [x Hx]; [by left|].
  unfold add_dircachecnt, get_inode, put_inode. repeat wp_step; [done|]. repeat wp_step.
  split_and!; [|by apply touches_counts|done].
  destruct (i_look _ _ _ V i x Hx). pose proof (i_dirc _ _ _ V i x Hx) as Hd. simpl in Hd. rewrite decide_True in Hd by done.
  eapply inv_refs; eauto; simpl; [lia|]. intros j Hj. rewrite decide_False by done. split; lia.
Qed.

Lemma get_dirent_spec g s e : invc g C s → is_Some (dirents s !! e) →
  wp (get_dirent e) s (λ x s', s' = s ∧ dirents s !! e = Some x).
Proof. intros _ [x Hx]. unfold get_dirent. repeat wp_step; eauto. Qed.

Lemma touches_dirents s f a b :
  (∀ e de', f (dirents s) !! e = Some de' → ∃ de, dirents s !! e = Some de ∧ same_ent de de') →
  touches s (set_dirents f (set_globals a b s)).
Proof. intros Hf. split_and!; simpl; eauto. Qed.

Lemma shared_copy_spec g s e : invc g C s → is_Some (dirents s !! e) →
  wp (shared_copy e) s (λ _ s', invc (plus_e e g) C s' ∧ touches s s' ∧ inode_map s' = inode_map s).
Proof.
  intros V [x Hx]. unfold shared_copy, get_dirent, put_dirent. repeat wp_step; [done|]. repeat wp_step.
  destruct (i_use _ _ _ V e x Hx). split_and!; [| |done].
  - eapply inv_use; [exact V|done| | | |done|done|done|done]; simpl; [rewrite decide_True by done; lia|lia|].
    intros e' He'. rewrite decide_False by done. lia.
  - apply (touches_dirents s _ (num_dirents_g s) (bytes_allocated_g s)).
    intros j D [[-> <-]|[]]%lookup_insert_Some; eauto. exists x. split; [done|]. by unfold same_ent.
Qed.

(** Entries that were not dropped last keep their state apart from the use count. *)
Definition keeps_others (e : nat) (s s' : client) : Prop := ∀ e', e' ≠ e → dirents s' !! e' = dirents s !! e'.

Lemma dtor_spec g s e de : invc (plus_e e g) C s → dirents s !! e = Some de → use_count de = 1 →
  wp (directory_entry_dtor e) s (λ _ s', invc g C s' ∧ touches s s' ∧ keeps_others e s s').
Proof.
  intros V He Hu. pose proof (inv_dtor _ _ _ _ _ V He Hu) as V'.
  assert (0 < num_dirents_g s) as Hn.
  { rewrite (i_num _ _ _ V). assert (size (dirents s) ≠ 0)%nat; [|lia]. intros Hz%map_size_empty_inv. by rewrite Hz in He. }
  assert (get_cache_size de ≤ bytes_allocated_g s) as Hb.
  { rewrite (i_bytes _ _ _ V). eapply msum_elem_le; [|done]. intros. unfold get_cache_size, sizeof_directory_entry. lia. }
  assert (∀ j D', delete e (dirents s) !! j = Some D' → ∃ D, dirents s !! j = Some D ∧ same_ent D D') as Hdel
    by (intros j D' [_ ?]%lookup_delete_Some; eauto).
  unfold directory_entry_dtor, get_dirent. repeat wp_step; [done|]. repeat wp_step.
  destruct (de_inode de) as [i|] eqn:Hi.
  - destruct (i_ptr _ _ _ V e de i He Hi) as [x Hx]. unfold get_inode. repeat wp_step; [done| |].
    { pose proof (i_dirc _ _ _ V i x Hx) as Hd. simpl in Hd. pose proof (nrefs_pos _ _ _ _ He Hi).
      pose proof (occ_nonneg i (hd g)). cmp. }
    pose proof (dircachecnt_down g (set_dirents (delete e) (set_globals (num_dirents_g s - 1) (bytes_allocated_g s - get_cache_size de) s)) i V') as
      ([] & s1 & Hrun & HV1 & HT1 & HD1).
    unfold add_dircachecnt, get_inode, put_inode in Hrun |- *. repeat wp_step; [done|cmp|cmp|].
    unfold bind, mget, mderef, mmodify in Hrun. simpl in Hrun. rewrite Hx in Hrun. simplify_eq.
    split_and!; [done| |intros e' Hne; simpl; by rewrite lookup_delete_ne].
    eapply touches_trans; [|exact HT1]. by apply touches_dirents.
  - repeat wp_step; [cmp|cmp|]. split_and!; [done|by apply touches_dirents|].
    intros e' Hne. simpl. by rewrite lookup_delete_ne.
Qed.

Lemma shared_reset_spec g s e : invc (plus_e e g) C s →
  wp (shared_reset e) s (λ _ s', invc g C s' ∧ touches s s' ∧ keeps_others e s s').
Proof.
  intros V. destruct (i_he _ _ _ V e) as [de He]; [by left|].
  unfold shared_reset, get_dirent. repeat wp_step; [done|]. repeat wp_step.
  destruct (Z.eqb_spec (use_count de) 1) as [Hu|Hu]; [by eapply dtor_spec|].
  unfold put_dirent. repeat wp_step. destruct (i_use _ _ _ V e de He) as [Hn Hpos]. simpl in Hn. rewrite decide_True in Hn by done.
  split_and!.
  - eapply inv_use; [exact V|done| | | |done|done|done|done]; simpl; [lia|lia|]. intros e' He'. rewrite decide_False by done. lia.
  - apply (touches_dirents s _ (num_dirents_g s) (bytes_allocated_g s)).
    intros j D [[-> <-]|[]]%lookup_insert_Some; eauto. exists de. split; [done|]. by unfold same_ent.
  - intros e' Hne. simpl. by rewrite lookup_insert_ne.
Qed.
End primitives.

Lemma inv_perm g g' C s :
  (∀ j, occ j (hl g') = occ j (hl g)) → (∀ j, occ j (hd g') = occ j (hd g)) → (∀ j, occ j (he g') = occ j (he g)) →
  hx g' = hx g → (∀ j, occ j (hf g') = occ j (hf g)) → invc g C s → invc g' C s.
Proof.
  intros Hl Hd He Hx Hf V. constructor; rewrite ?Hx; try solve [apply V].
  - intros i I. rewrite Hl, Hf. apply (i_lookf _ _ _ V).
  - intros i I. rewrite Hd. apply (i_dirc _ _ _ V).
  - intros e de. rewrite He. apply (i_use _ _ _ V).
  - intros i. rewrite occ_pos, Hl, <- occ_pos. apply (i_hl _ _ _ V).
  - intros i. rewrite occ_pos, Hd, <- occ_pos. apply (i_hd _ _ _ V).
  - intros e. rewrite occ_pos, He, <- occ_pos. apply (i_he _ _ _ V).
  - intros i. rewrite occ_pos, Hf, <- occ_pos. apply (i_hfs _ _ _ V).
Qed.

(** Runs a step with a known specification. *)
Ltac wp_call lem := apply wp_bind; eapply wp_mono; [eapply lem|cbv beta].

(** ** The purge loop *)
Definition more_l (l : list nat) (g : held) : held := Held (l ++ hl g) (hd g) (he g) (hx g) (hf g).
Definition more_e (l : list nat) (g : held) : held := Held (hl g) (hd g) (l ++ he g) (hx g) (hf g).
Definition more_f (l : list nat) (g : held) : held := Held (hl g) (hd g) (he g) (hx g) (l ++ hf g).

Lemma dir_clear_one_spec C c k id g s :
  dir_entries c !! k = Some id → invc (plus_e id g) C s →
  wp (clear_one c k) s (λ l s', invc (more_l l g) C s' ∧ touches s s').
Proof.
  intros Hk V. destruct (i_he _ _ _ V id) as [de He]; [by left|].
  unfold clear_one. apply wp_bind. eapply wp_deref; [done|]. cbv beta.
  wp_call get_dirent_spec; [done|by eexists|]. intros de' ? [-> He']. simplify_eq. apply wp_bind.
  assert (∀ l s1, invc (plus_e id (more_l l g)) C s1 → touches s s1 →
    wp (do_ shared_reset id; mret l) s1 (λ l' s', invc (more_l l' g) C s' ∧ touches s s')) as Hend.
  { intros l s1 V1 T1. wp_call shared_reset_spec; [done|]. intros _ s2 (V2 & T2 & _). apply wp_ret.
    split; [done|]. by eapply touches_trans. }
  destruct (de_inode de) as [i|] eqn:Hi; [|apply wp_ret, Hend; [done|apply touches_refl]].
  wp_call get_inode_spec; [done|by eapply (i_ptr _ _ _ V)|]. intros x ? [-> Hx].
  apply wp_bind_assert.
  { pose proof (i_dirc _ _ _ V i x Hx) as Hd. simpl in Hd. pose proof (nrefs_pos _ _ _ _ He Hi).
    pose proof (occ_nonneg i (hd g)). cmp. }
  destruct (dircachecnt x =? 1); [|apply wp_ret, Hend; [done|apply touches_refl]].
  wp_call incref_spec; [done|by eexists|]. intros _ s1 (V1 & T1 & _). apply wp_ret. by apply (Hend [i]).
Qed.

Lemma clear_loop_spec C c ks ids g s :
  Forall2 (λ k id, dir_entries c !! k = Some id) ks ids → invc (more_e ids g) C s →
  wp (clear_loop c ks) s (λ l s', invc (more_l l g) C s' ∧ touches s s' ∧ (ks = [] → l = [])).
Proof.
  intros HF. revert g s. induction HF as [|k id ks ids Hk HF IH]; intros g s V; simpl.
  - apply wp_ret. split_and!; [by destruct g|apply touches_refl|done].
  - wp_call (dir_clear_one_spec C c k id (more_e ids g)); [done|done|]. intros l s1 [V1 T1].
    wp_call (IH (more_l l g)); [done|]. intros l' s2 (V2 & T2 & _). apply wp_ret.
    split_and!; [|by eapply touches_trans|done]. revert V2. apply inv_perm; try done. intros j. simpl. rewrite !occ_app. lia.
Qed.

(** The entries in the order of the cookies. *)
Lemma cookies_ents c : ∃ ids, Forall2 (λ k id, dir_entries c !! k = Some id) (cookies (dir_entries c)) ids ∧ ids ≡ₚ ents c.
Proof.
  set (m := dir_entries c). exists (omap (λ k, m !! k) (cookies m)).
  assert (cookies m ≡ₚ (map_to_list m).*1) as Hp by apply merge_sort_Permutation.
  split.
  - assert (∀ k, k ∈ cookies m → is_Some (m !! k)) as Hin.
    { intros k. rewrite Hp, list_elem_of_fmap. intros ([k' e] & -> & H%elem_of_map_to_list). by eexists. }
    clear Hp. induction (cookies m) as [|k ks IH]; [constructor|]. simpl.
    destruct (Hin k) as [e He]; [by left|]. rewrite He. simpl. constructor; [done|]. apply IH. intros. apply Hin. by right.
  - rewrite Hp. unfold ents. fold m.
    assert (∀ p, p ∈ map_to_list m → m !! p.1 = Some p.2) as Hin by (intros [] H%elem_of_map_to_list; done).
    clear Hp. induction (map_to_list m) as [|p l IH]; [done|]. simpl. rewrite Hin by (by left). simpl. f_equiv.
    apply IH. intros. apply Hin. by right.
Qed.

(** ** The caches that are not empty *)
Definition nonempty (s : client) : gset nat :=
  dom (filter (λ p : nat * readdirectory_cache, dir_entries p.2 ≠ ∅) (dircaches s)).

Lemma elem_of_nonempty s d : d ∈ nonempty s ↔ ∃ c, dircaches s !! d = Some c ∧ dir_entries c ≠ ∅.
Proof.
  unfold nonempty. rewrite elem_of_dom. split.
  - intros [c Hc]. apply map_lookup_filter_Some in Hc as [? ?]. eauto.
  - intros (c & ? & ?). exists c. by apply map_lookup_filter_Some.
Qed.

Lemma shrinks_nonempty l x s s' : shrinks l x s s' → nonempty s' ⊆ nonempty s.
Proof.
  intros Sh d. rewrite !elem_of_nonempty. intros (c' & Hc' & Hne).
  destruct (sh_cache _ _ _ _ Sh d c' Hc') as (c & Hc & [Heq|?]); [|done]. exists c. by rewrite <- Heq.
Qed.

Lemma nonempty_size s : (size (nonempty s) ≤ size (dircaches s))%nat.
Proof.
  unfold nonempty. rewrite size_dom. rewrite <- !size_dom. apply subseteq_size. apply dom_filter_subseteq.
Qed.

(** ** decref and clear *)

(** The caches are an argument of the invariant of their own. *)
Lemma invc_caches g C f s : invc g C s → invc g C (set_caches f s).
Proof. by intros []; constructor. Qed.

(** What [decref()] of one reference does, when at most [n] purges can nest. *)
Definition dec_spec (n : nat) (dec : nat → MD ()) : Prop := ∀ g s j,
  hx g = None → inv (plus_l j g) s → (size (nonempty s) < n)%nat →
  wp (dec j) s (λ _ s', inv g s' ∧ shrinks (hl g) None s s').

Lemma dec_all n dec l g s :
  dec_spec n dec → hx g = None → inv (more_l l g) s → (size (nonempty s) < n)%nat →
  wp (mfor l (λ i, do x ← get_inode i; do_ massert (0 <? lookupcnt x); dec i)) s
    (λ _ s', inv g s' ∧ shrinks (hl g) None s s').
Proof.
  intros Hdec Hx. revert s. induction l as [|i l IH]; intros s V Hn; simpl.
  - apply wp_ret. split; [by destruct g|apply shrinks_refl].
  - apply wp_bind. wp_call get_inode_spec; [done|apply (i_hl _ _ _ V); by left|]. intros x ? [-> Hi].
    apply wp_bind_assert.
    { destruct (i_look _ _ _ V i x Hi) as [Hl ?]. simpl in Hl. rewrite decide_True in Hl by done.
      pose proof (occ_nonneg i (l ++ hl g)). cmp. }
    eapply wp_mono; [by apply (Hdec (more_l l g))|]. simpl. intros _ s1 [V1 S1].
    eapply wp_mono; [apply IH; [done|]|].
    + pose proof (subseteq_size _ _ (shrinks_nonempty _ _ _ _ S1)). lia.
    + intros _ s2 [V2 S2]. split; [done|]. eapply shrinks_trans; [|done].
      eapply shrinks_weaken; [|done]. intros j. rewrite occ_app. pose proof (occ_nonneg j l). lia.
Qed.

Lemma cleared_ok D c : cache_ok D (cleared c).
Proof. constructor; simpl; try done. Qed.

Lemma cleared_ents c : ents (cleared c) = [].
Proof. unfold ents. simpl. by rewrite map_to_list_empty. Qed.

Lemma shrinks_put_cache l s d c c' :
  dircaches s !! d = Some c → (dir_entries c' = dir_entries c ∨ dir_entries c' = ∅) →
  shrinks l (Some d) s (set_caches (insert d c') s).
Proof.
  intros Hc Hc'. constructor; simpl; eauto.
  - intros j (J & HJ & _). split; [eauto|]. intros Hne. rewrite lookup_insert_ne; [done|congruence].
  - intros j c0 [[-> <-]|[]]%lookup_insert_Some; eauto.
Qed.

Lemma shrinks_unpin l i s s' : shrinks l (Some i) s s' → ¬ pinned l s i → shrinks l None s s'.
Proof.
  intros [H1 H2 H3 H4 H5] Hn. constructor; try done. intros j Hj. destruct (H2 j Hj) as [? Heq]. split; [done|].
  intros _. apply Heq. by intros [= ->].
Qed.

(** A change of the flags of a cache. *)
Lemma inv_flags g s d c c' :
  inv g s → dircaches s !! d = Some c → dir_entries c' = dir_entries c → dnlc_map c' = dnlc_map c →
  cache_size c' = cache_size c → eof c' = eof c → eof_cookie c' = eof_cookie c → (hx g ≠ Some d → verf_ok c') →
  inv g (set_caches (insert d c') s).
Proof.
  intros V Hc H1 H2 H3 H4 H5 Hv. apply invc_caches. eapply (inv_put_cache g); [done|done| | |done|done|done|done|done].
  - intros e. unfold ents. by rewrite H1.
  - destruct (i_cache _ _ _ V d c Hc). constructor; unfold ents; rewrite ?H1, ?H2, ?H3, ?H4, ?H5; auto.
Qed.

(** [clear()] of a directory that stays referenced. *)
Lemma clear_with_spec n dec g s d c :
  dec_spec n dec → hx g = None → inv g s → dircaches s !! d = Some c → pinned (hl g) s d →
  (size (nonempty s) ≤ n)%nat →
  wp (clear_with dec d) s (λ _ s', inv g s' ∧ shrinks (hl g) (Some d) s s' ∧ dircaches s' !! d = Some (cleared c)).
Proof.
  intros Hdec Hx V Hc Hpin Hn. unfold clear_with, get_dircache. repeat (apply wp_bind). apply wp_get, wp_deref with c; [done|].
  apply wp_bind_assert.
  { destruct (i_verf _ _ _ V d c Hc) as [Hv|[Hv|Hv]]; [by rewrite Hx|..].
    - by rewrite bool_decide_true.
    - destruct (Z.eqb_spec (cookie_verifier c) 0); [done|]. simpl. by rewrite orb_true_r.
    - rewrite Hv. by rewrite !orb_true_r. }
  destruct (cookies_ents c) as (ids & HF & Hids).
  assert (invc (more_e ids g) (<[d:=cleared c]> (dircaches s)) s) as V1.
  { eapply (inv_put_cache g); [done|done| | | |done|done|done|done].
    - intros e. rewrite cleared_ents. simpl. rewrite occ_app, Hids. lia.
    - apply cleared_ok.
    - intros _. by left. }
  wp_call clear_loop_spec; [done|done|]. intros l s1 (V2 & T1 & Hnil).
  apply wp_bind_assert; [apply bool_decide_eq_true, (i_cache _ _ _ V d c Hc)|].
  assert (dircaches s1 = dircaches s) as HC1 by apply T1.
  set (s2 := set_caches (insert d (cleared c)) s1).
  assert (shrinks (hl g) (Some d) s s2) as S2.
  { apply shrinks_trans with s1; [by apply touches_shrinks|]. apply shrinks_put_cache with c; [by rewrite HC1|by right]. }
  assert (inv (more_l l g) s2) as V3 by (apply invc_caches; simpl; by rewrite HC1).
  apply wp_bind, wp_modify. fold s2. cbv beta.
  destruct l as [|i l].
  { apply wp_ret. split_and!; [by destruct g|done|]. simpl. by rewrite lookup_insert_eq. }
  assert (size (nonempty s2) < n)%nat as Hn2.
  { assert (dir_entries c ≠ ∅) as Hne.
    { intros Hz. rewrite Hz in Hnil. unfold cookies in Hnil. by rewrite map_to_list_empty in Hnil; specialize (Hnil eq_refl). }
    assert (nonempty s2 ⊂ nonempty s) as Hss; [|apply subset_size in Hss; lia].
    apply strict_spec. split; [by eapply shrinks_nonempty|].
    intros Hsub. assert (d ∈ nonempty s2) as (c' & Hc' & Hne')%elem_of_nonempty.
    { apply Hsub, elem_of_nonempty. eauto. }
    simpl in Hc'. rewrite lookup_insert_eq in Hc'. by simplify_eq. }
  eapply wp_mono; [by eapply dec_all|]. intros _ s3 [V4 S3]. split_and!; [done| |].
  - eapply shrinks_trans; [done|]. destruct S3 as [A1 A2 A3 A4 A5]. constructor; try done.
    intros j Hj. destruct (A2 j Hj) as [? Heq]. split; [done|]. intros _. by apply Heq.
  - destruct (sh_pin _ _ _ _ S3 d) as [_ Heq]; [by eapply shrinks_pinned|]. rewrite Heq by done. simpl. by rewrite lookup_insert_eq.
Qed.

(** The end of a [decref()] that found no other reference: the reference it kept for
    itself is dropped, and the inode is deleted unless a cache refers to it. *)
Lemma forget_spec g s i cnt :
  inv (plus_l i g) s → 0 < cnt → (∀ c, dircaches s !! i = Some c → dir_entries c = ∅) →
  wp (do y ← get_inode i;
      do_ put_inode i (with_counts (lookupcnt y + (cnt - 1)) (dircachecnt y) (forget_expected y) y);
      do z ← get_inode i;
      do_ massert (cnt <=? lookupcnt z);
      put_nfs_inode i cnt) s (λ _ s', inv g s' ∧ shrinks (hl g) None s s').
Proof.
  intros V Hcnt Hempty. destruct (i_hl _ _ _ V i) as [y Hi]; [by left|].
  destruct (i_look _ _ _ V i y Hi) as [Hl Hf]. simpl in Hl. rewrite decide_True in Hl by done.
  pose proof (occ_nonneg i (hl g)) as Hocc. pose proof (i_dirc _ _ _ V i y Hi) as Hd. simpl in Hd.
  wp_call get_inode_spec; [done|by eexists|]. intros ? ? [-> Hi']. simplify_eq.
  apply wp_bind, wp_modify. cbv beta. unfold get_inode at 1. do 2 apply wp_bind. apply wp_get. cbv beta.
  eapply wp_deref; [apply lookup_insert_eq|]. cbv beta. apply wp_bind_assert; [cmp|].
  unfold put_nfs_inode, get_inode, put_inode. do 2 apply wp_bind. apply wp_get. cbv beta.
  eapply wp_deref; [apply lookup_insert_eq|]. cbv beta. apply wp_bind_assert; [cmp|].
  apply wp_bind, wp_modify. cbv beta. simpl.
  set (l := lookupcnt y + (cnt - 1) - cnt).
  set (s' := set_inodes (insert i (with_counts l (dircachecnt y) (forget_expected y) y)) s).
  assert (∀ z, set_inodes (insert i (with_counts l (dircachecnt y) (forget_expected y) y)) (set_inodes (insert i z) s) = s') as Heq.
  { intros z. unfold s', set_inodes. simpl. by rewrite insert_insert_eq. }
  change (with_counts l (dircachecnt y) (forget_expected y) (with_counts _ _ _ y)) with (with_counts l (dircachecnt y) (forget_expected y) y).
  rewrite Heq.
  assert (inv g s') as V'.
  { eapply inv_refs; [exact V|done| | | |done|done|done]; simpl; [lia|done|].
    intros j Hj. rewrite decide_False by done. split; lia. }
  assert (shrinks (hl g) None s s') as Sh by (apply touches_shrinks; by apply touches_counts).
  destruct (Z.ltb_spec 0 (dircachecnt y)); [by apply wp_ret|].
  destruct (Z.ltb_spec 0 l); [by apply wp_ret|].
  pose proof (nrefs_nonneg i (dirents s)). pose proof (occ_nonneg i (hd g)).
  repeat wp_step.
  - cmp.
  - destruct (is_dir _); [|done]. simpl. destruct (dircaches s !! i) as [c|] eqn:Hc; [|done].
    apply bool_decide_eq_true. by apply Hempty.
  - simpl. split.
    + apply (inv_delete_inode _ _ i (with_counts l (dircachecnt y) (forget_expected y) y)); simpl; [done|apply lookup_insert_eq|lia|lia|done].
    + apply shrinks_trans with s'; [done|]. constructor; simpl; eauto.
      * intros j J [_ HJ]%lookup_delete_Some. eauto.
      * intros j (J & HJ & Hpos). assert (j ≠ i) as Hne.
        { intros ->. unfold s' in HJ. simpl in HJ. rewrite lookup_insert_eq in HJ. simplify_eq. simpl in Hpos. lia. }
        rewrite lookup_delete_ne by done. simpl in HJ. rewrite HJ. split; [eauto|]. intros _. by rewrite lookup_delete_ne.
      * intros j c [_ Hc]%lookup_delete_Some. eauto.
Qed.

Lemma drop_refs_spec n dec g s i cnt :
  dec_spec n dec → hx g = None → (0 < cnt)%nat → inv (more_l (repeat i cnt) g) s → (size (nonempty s) ≤ n)%nat →
  wp (drop_refs dec i (Z.of_nat cnt)) s (λ _ s', inv g s' ∧ shrinks (hl g) None s s').
Proof.
  intros Hdec Hx Hcnt V Hn.
  destruct (i_hl _ _ _ V i) as [x Hi]. { simpl. destruct cnt; [lia|]. simpl. by left. }
  destruct (i_look _ _ _ V i x Hi) as [Hl Hf]. simpl in Hl. rewrite occ_app, occ_repeat, decide_True in Hl by done.
  pose proof (occ_nonneg i (hl g)) as Hocc.
  unfold drop_refs. wp_call get_inode_spec; [done|by eexists|]. intros ? ? [-> Hi']. simplify_eq.
  set (left := lookupcnt x + 1 - Z.of_nat cnt). set (x1 := with_counts left (dircachecnt x) (forget_expected x) x).
  set (s1 := set_inodes (insert i x1) s).
  assert (inv (plus_l i g) s1) as V1.
  { unfold inv. simpl. eapply inv_refs; [exact V|done| | | |done|done|done]; simpl.
    - rewrite decide_True by done. lia.
    - by apply (i_dirc _ _ _ V).
    - intros j Hj. rewrite occ_app, occ_repeat, !decide_False by done. split; lia. }
  assert (touches s s1) as T1 by (by apply touches_counts).
  apply wp_bind, wp_modify. fold s1. cbv beta.
  assert (inode_map s1 !! i = Some x1) as Hi1 by apply lookup_insert_eq.
  destruct (Z.eqb_spec left 1) as [Hleft|Hleft].
  - assert (size (nonempty s1) ≤ n)%nat as Hn1.
    { pose proof (subseteq_size _ _ (shrinks_nonempty _ _ _ _ (touches_shrinks [] None _ _ T1))). lia. }
    apply wp_bind. eapply wp_mono with (Q := λ _ s2, inv (plus_l i g) s2 ∧ shrinks (hl g) None s s2 ∧
      ∀ c, dircaches s2 !! i = Some c → dir_entries c = ∅).
    2: { intros _ s2 (V2 & S2 & Hem). eapply wp_mono; [apply (forget_spec g); [done|lia|done]|].
         intros _ s3 [V3 S3]. split; [done|]. by eapply shrinks_trans. }
    unfold invalidate_cache, get_inode. do 2 apply wp_bind. apply wp_get. cbv beta. eapply wp_deref; [done|]. cbv beta.
    apply wp_bind, wp_get. cbv beta.
    destruct (dircaches s1 !! i) as [c|] eqn:Hc.
    + destruct (i_dirs _ _ _ V1 i c Hc) as (I & HI & HT). simplify_eq. unfold is_dir. rewrite !bool_decide_true by (done || by eexists).
      simpl. unfold invalidate, get_dircache, put_dircache. do 3 apply wp_bind. apply wp_get. cbv beta.
      eapply wp_deref; [done|]. cbv beta. apply wp_modify. cbv beta.
      set (c' := with_flags (lookuponly c) (confirmed_msecs c) true c). set (s2 := set_caches (insert i c') s1).
      assert (inv (plus_l i g) s2) as V2 by (eapply inv_flags; try done; exact (i_verf _ _ _ V1 i c Hc)).
      assert (shrinks (hl g) (Some i) s s2) as S2.
      { apply shrinks_trans with s1; [by apply touches_shrinks|]. eapply shrinks_put_cache; [done|by left]. }
      eapply wp_mono; [apply (clear_with_spec n dec (plus_l i g) s2 i c'); try done|].
      * apply lookup_insert_eq.
      * exists x1. split; [done|]. simpl. rewrite decide_True by done. lia.
      * pose proof (subseteq_size _ _ (shrinks_nonempty _ _ _ _ S2)). lia.
      * intros _ s3 (V3 & S3 & Hc3). split_and!; [done| |].
        -- apply shrinks_unpin with i.
           ++ eapply shrinks_trans; [exact S2|]. eapply shrinks_weaken; [|exact S3]. intros j. simpl. case_decide; lia.
           ++ intros (J & HJ & Hpos). simplify_eq. lia.
        -- intros c0. rewrite Hc3. by intros [= <-].
    + rewrite bool_decide_false by (by intros []). rewrite andb_false_r. apply wp_ret. split_and!; [done|by apply touches_shrinks|].
      intros c. by rewrite Hc.
  - unfold get_inode, put_inode. do 2 apply wp_bind. apply wp_get. cbv beta. eapply wp_deref; [done|]. cbv beta. apply wp_modify.
    split.
    + eapply inv_refs; [exact V1|done| | | |done|done|done]; simpl; [unfold left in *; lia|by apply (i_dirc _ _ _ V)|].
      intros j Hj. rewrite decide_False by done. split; lia.
    + apply touches_shrinks. eapply touches_trans; [exact T1|]. by apply touches_counts.
Qed.

(** Enough fuel: [decref()] of one reference needs at most one level more than there are
    caches with entries. *)
Lemma decref_n_spec n : dec_spec n (λ j, decref_n n j 1 false).
Proof.
  induction n as [|n IH]; intros g s j Hx V Hn; [lia|].
  destruct (i_hl _ _ _ V j) as [x Hj]; [by left|].
  destruct (i_look _ _ _ V j x Hj) as [Hl Hf]. simpl in Hl. rewrite decide_True in Hl by done.
  pose proof (occ_nonneg j (hl g)).
  simpl. wp_call get_inode_spec; [done|by eexists|]. intros ? ? [-> Hj']. simplify_eq.
  apply wp_bind_assert; [unfold is_forgotten; destruct (Z.eqb_spec (lookupcnt x) 0); [lia|done]|].
  do 2 (apply wp_bind_assert; [done|]). apply wp_bind_assert; [cmp|].
  apply wp_bind_assert; [cmp|]. apply (drop_refs_spec n _ g s j 1); try done; lia.
Qed.

Lemma decref_spec g s j : hx g = None → inv (plus_l j g) s →
  wp (decref j) s (λ _ s', inv g s' ∧ shrinks (hl g) None s s').
Proof.
  intros Hx V. unfold decref, decref_cnt. apply wp_bind, wp_get. cbv beta.
  apply decref_n_spec; [done..|]. pose proof (nonempty_size s). lia.
Qed.

(** A FORGET of fuse. *)
Lemma fuse_forget_spec g s i cnt : hx g = None → inv (more_f (repeat i cnt) g) s → (0 < cnt)%nat →
  wp (decref_cnt i (Z.of_nat cnt) true) s (λ _ s', inv g s' ∧
    ∃ I s1, inode_map s !! i = Some I ∧ s1 = set_inodes (insert i (with_counts (lookupcnt I) (dircachecnt I) (forget_expected I - Z.of_nat cnt) I)) s ∧
          shrinks (hl g) None s1 s').
Proof.
  intros Hx V Hpos. destruct (i_hfs _ _ _ V i) as [I HI]; [apply elem_of_app; left; destruct cnt; [lia|by left]|].
  destruct (i_lookf _ _ _ V i I HI) as [Hl Hf]. simpl in Hl, Hf. rewrite occ_app, occ_repeat, decide_True in Hf by done.
  pose proof (occ_nonneg i (hl g)). pose proof (occ_nonneg i (hf g)).
  unfold decref_cnt. apply wp_bind, wp_get. cbv beta. simpl. wp_call get_inode_spec; [done|by eexists|].
  intros ? ? [-> HI']. simplify_eq.
  apply wp_bind_assert; [unfold is_forgotten; destruct (Z.eqb_spec (lookupcnt I) 0); [lia|done]|].
  apply wp_bind_assert; [cmp|]. apply wp_bind_assert; [done|]. apply wp_bind_assert; [cmp|].
  apply wp_bind. apply wp_bind_assert; [cmp|]. apply wp_bind_assert; [cmp|].
  unfold add_forget_expected, get_inode, put_inode. do 3 apply wp_bind. apply wp_get. cbv beta.
  eapply wp_deref; [done|]. cbv beta. apply wp_modify. cbv beta. apply wp_assert; [cmp|].
  set (s1 := set_inodes (insert i (with_counts (lookupcnt I) (dircachecnt I) (forget_expected I - Z.of_nat cnt) I)) s).
  assert (inv (more_l (repeat i cnt) g) s1) as V1.
  { eapply inv_counts; [exact V|done| | | |done|done|simpl; lia|]; simpl.
    - rewrite occ_app, occ_repeat, decide_True by done. lia.
    - by apply (i_dirc _ _ _ V).
    - intros j Hj. rewrite occ_app, occ_repeat, decide_False by done. split; lia.
    - intros j Hj. rewrite occ_app, occ_repeat, decide_False by done. lia. }
  eapply wp_mono; [apply (drop_refs_spec (size (dircaches s)) _ g s1 i cnt)|]; try done.
  - apply decref_n_spec.
  - apply (nonempty_size s1).
  - simpl. intros _ s2 [V2 S2]. eauto 10.
Qed.

(** [clear()] *)
Lemma clear_spec g s d c : hx g = None → inv g s → dircaches s !! d = Some c → pinned (hl g) s d →
  wp (clear d) s (λ _ s', inv g s' ∧ shrinks (hl g) (Some d) s s' ∧ dircaches s' !! d = Some (cleared c)).
Proof.
  intros Hx V Hc Hp. apply clear_with_spec with (S (size (nonempty s))); try done; [|lia].
  intros g' s' j Hx' V' _. by apply decref_spec.
Qed.
