(* ===== verification/DirOps.v ===== *)
(** * The operations of the directory cache

    Each operation of [readdirectory_cache] run on a referenced directory fails no
    assertion, keeps the reference-count invariant, and changes only what it should. *)
From stdpp Require Import strings sorting.
From S2P Require Import Prelude DirCache DirInv DirRefs.

(** ** What an operation on directory [d] leaves alone *)
Record frame (l : list nat) (d : nat) (s s' : client) : Prop := {
  f_ino j J' : inode_map s' !! j = Some J' → ∃ J, inode_map s !! j = Some J ∧ same_ino J J';
  f_pin j : pinned l s j → is_Some (inode_map s' !! j) ∧ (j ≠ d → dircaches s' !! j = dircaches s !! j);
  f_old e de' : dirents s' !! e = Some de' → (e < next_ent s)%nat → ∃ de, dirents s !! e = Some de ∧ same_ent de de';
  f_next : (next_ent s ≤ next_ent s')%nat ∧ next_ino s' = next_ino s;
}.

Lemma shrinks_frame l d s s' : shrinks l (Some d) s s' → frame l d s s'.
Proof.
  intros [H1 H2 H3 H4 (H5 & H6 & H7)]. constructor; [done| |eauto|lia].
  intros j Hj. destruct (H2 j Hj) as [? Heq]. split; [done|]. intros Hne. apply Heq. congruence.
Qed.

Lemma shrinks_frame' l d s s' : shrinks l None s s' → frame l d s s'.
Proof.
  intros [H1 H2 H3 H4 (H5 & H6 & H7)]. constructor; [done| |eauto|lia].
  intros j Hj. destruct (H2 j Hj) as [? Heq]. split; [done|]. intros Hne. by apply Heq.
Qed.

Lemma touches_frame l d s s' : touches s s' → frame l d s s'.
Proof. intros. by apply shrinks_frame, touches_shrinks. Qed.

Lemma frame_refl l d s : frame l d s s.
Proof. apply touches_frame, touches_refl. Qed.

Lemma frame_pinned l d s s' j : frame l d s s' → pinned l s j → pinned l s' j.
Proof.
  intros F Hp. destruct (f_pin _ _ _ _ F j Hp) as [[J' HJ'] _]. destruct (f_ino _ _ _ _ F j J' HJ') as (J & HJ & Hs).
  destruct Hp as (J0 & HJ0 & Hpos). simplify_eq. exists J'. split; [done|]. destruct Hs as (_ & _ & _ & <-). done.
Qed.

Lemma frame_trans l d s1 s2 s3 : frame l d s1 s2 → frame l d s2 s3 → frame l d s1 s3.
Proof.
  intros A B. constructor.
  - intros j J3 H3. destruct (f_ino _ _ _ _ B j J3 H3) as (J2 & H2 & ?). destruct (f_ino _ _ _ _ A j J2 H2) as (J1 & H1 & ?).
    exists J1. split; [done|]. unfold same_ino in *. intuition congruence.
  - intros j Hp. pose proof (frame_pinned _ _ _ _ _ A Hp) as Hp2.
    destruct (f_pin _ _ _ _ A j Hp) as [_ Ha]. destruct (f_pin _ _ _ _ B j Hp2) as [Hb1 Hb2].
    split; [done|]. intros Hx. by rewrite Hb2, Ha.
  - pose proof (f_next _ _ _ _ A) as [? _]. intros e d3 H3 Hlt.
    destruct (f_old _ _ _ _ B e d3 H3) as (d2 & H2 & ?); [lia|]. destruct (f_old _ _ _ _ A e d2 H2) as (d1 & H1 & ?); [done|].
    exists d1. split; [done|]. unfold same_ent in *. intuition congruence.
  - pose proof (f_next _ _ _ _ A) as [? ?]. pose proof (f_next _ _ _ _ B) as [? ?]. split; [lia|congruence].
Qed.

Lemma frame_weaken l l' d s s' : (∀ j, occ j l ≤ occ j l') → frame l' d s s' → frame l d s s'.
Proof.
  intros Hle [H1 H2 H3 H4]. constructor; try done. intros j (J & HJ & Hpos). apply H2. exists J. split; [done|].
  specialize (Hle j). lia.
Qed.

Lemma frame_put_cache l d s c : frame l d s (set_caches (insert d c) s).
Proof.
  constructor; simpl; eauto. intros j (J & HJ & _). split; [eauto|]. intros Hne. by rewrite lookup_insert_ne.
Qed.

(** ** Lookup *)
Definition plus_o (o : option nat) (g : held) : held := match o with Some i => plus_d i g | None => g end.

(** The cookie a name or a cookie stands for. *)
Definition resolve (c : readdirectory_cache) (k : Z) (hint : option string) : option Z :=
  match hint with Some nm => dnlc_map c !! nm | None => Some k end.

Definition entry_at (c : readdirectory_cache) (k : Z) (hint : option string) : option nat :=
  resolve c k hint ≫= λ k, dir_entries c !! k.

Lemma resolve_range g C s d c k hint k' :
  invc g C s → C !! d = Some c → hint ≠ None → resolve c k hint = Some k' → 0 < k' ∧ (k' < UINT32_MAX ∨ 2 ^ 63 - 1 ≤ k').
Proof.
  intros V Hc Hh Hr. destruct hint as [nm|]; [|done]. simpl in Hr.
  destruct (co_dnlc _ _ (i_cache _ _ _ V d c Hc) _ _ Hr) as (e & de & He & _).
  by apply (co_range _ _ (i_cache _ _ _ V d c Hc) _ _ He).
Qed.

Lemma filename_to_cookie_spec g s d c nm : inv g s → dircaches s !! d = Some c →
  wp (filename_to_cookie d nm) s (λ k s', s' = s ∧ k = default 0 (dnlc_map c !! nm) ∧ (k = 0 ↔ dnlc_map c !! nm = None)).
Proof.
  intros V Hc. unfold filename_to_cookie, get_dircache. do 2 apply wp_bind. apply wp_get. cbv beta.
  eapply wp_deref; [done|]. cbv beta. destruct (dnlc_map c !! nm) as [k|] eqn:Hk.
  - destruct (resolve_range g _ s d c 0 (Some nm) k V Hc) as [Hpos Hr]; [done|done|].
    apply wp_bind_assert.
    { destruct (Z.ltb_spec k UINT32_MAX), (Z.leb_spec (2 ^ 63 - 1) k); try done; lia. }
    apply wp_ret. split_and!; [done|done|]. split; [lia|done].
  - apply wp_bind_assert; [done|]. by apply wp_ret.
Qed.

Lemma entry_at_spec g C s d c k hint id : invc g C s → C !! d = Some c → entry_at c k hint = Some id →
  ∃ de, dirents s !! id = Some de ∧ resolve c k hint = Some (cookie de) ∧ dir_entries c !! cookie de = Some id ∧
        dnlc_map c !! name de = Some (cookie de) ∧ (∀ nm, hint = Some nm → name de = nm).
Proof.
  intros V Hc He. unfold entry_at in He. destruct (resolve c k hint) as [k'|] eqn:Hr; [|done]. simpl in He.
  pose proof (i_cache _ _ _ V d c Hc) as Hok. destruct (co_ent _ _ Hok _ _ He) as (de & Hde & <- & Hn).
  exists de. split_and!; try done. intros nm ->. simpl in Hr.
  destruct (co_dnlc _ _ Hok _ _ Hr) as (e' & de' & He' & Hde' & <-). by simplify_eq.
Qed.

(** Resolving the arguments of [lookup()] and [remove()]. *)
Definition resolve_m (d : nat) (k0 : Z) (hint : option string) : MD Z :=
  match hint with Some nm => filename_to_cookie d nm | None => mret k0 end.

Lemma resolve_m_spec g s d c k0 hint : inv g s → dircaches s !! d = Some c → (k0 = 0 ↔ hint ≠ None) →
  wp (resolve_m d k0 hint) s (λ k s', s' = s ∧
    ((is_some hint && (k =? 0) = true ∧ entry_at c k0 hint = None) ∨
     (is_some hint && (k =? 0) = false ∧ dir_entries c !! k = entry_at c k0 hint))).
Proof.
  intros V Hc Hk. destruct hint as [nm|]; simpl.
  - eapply wp_mono; [by eapply filename_to_cookie_spec|]. simpl. intros k s' (-> & -> & Hz). split; [done|].
    unfold entry_at. simpl in *. destruct (dnlc_map c !! nm) as [k|] eqn:E; simpl in *.
    + right. destruct (Z.eqb_spec k 0) as [->|]; [|done]. pose proof (proj1 Hz eq_refl); done.
    + by left.
  - apply wp_ret. split; [done|]. right. by unfold entry_at.
Qed.

Lemma lookup_spec g s d c k0 hint : inv g s → dircaches s !! d = Some c → (k0 = 0 ↔ hint ≠ None) →
  wp (lookup d k0 hint) s (λ r s', r = entry_at c k0 hint ∧ touches s s' ∧
    match r with
    | None => s' = s
    | Some id => ∃ de, dirents s' !! id = Some de ∧ inv (plus_e id (plus_o (de_inode de) g)) s'
    end).
Proof.
  intros V Hc Hk. unfold lookup. apply wp_bind_assert.
  { destruct hint; simpl in *; destruct (Z.eqb_spec k0 0); try done; exfalso; naive_solver. }
  fold (resolve_m d k0 hint). wp_call resolve_m_spec; [done|done|done|]. intros k ? [-> [[-> HN]|[-> HN]]].
  { apply wp_ret. rewrite HN. split_and!; [done|apply touches_refl|done]. }
  unfold get_dircache. do 2 apply wp_bind. apply wp_get. cbv beta. eapply wp_deref; [done|]. cbv beta. rewrite HN.
  destruct (entry_at c k0 hint) as [id|] eqn:Hent; [|apply wp_ret; split_and!; [done|apply touches_refl|done]].
  destruct (entry_at_spec _ _ _ _ _ _ _ _ V Hc Hent) as (de & Hde & Hr & Hcd & Hnm & Hname).
  wp_call shared_copy_spec; [done|by eexists|]. intros _ s1 (V1 & T1 & HI1).
  wp_call get_dirent_spec; [done|apply (i_he _ _ _ V1); by left|]. intros de1 ? [-> Hde1].
  pose proof T1 as (A1 & A2 & A3 & A4 & A5).
  destruct (A3 _ _ Hde1) as (de0 & Hde0 & Hs1 & Hs2 & Hs3). simplify_eq.
  apply wp_bind_assert.
  { destruct hint as [nm|]; [|done]. apply String.eqb_eq. rewrite <- Hs2. by apply Hname. }
  assert (inv (plus_e id g) s1) as V1' by (unfold inv; by rewrite A4).
  apply wp_bind. destruct (de_inode de1) as [i|] eqn:Hi; simpl.
  - destruct (i_ptr _ _ _ V1 id de1 i Hde1 Hi) as [x Hx]. wp_call get_inode_spec; [done|by eexists|]. intros ? ? [-> Hx']. simplify_eq.
    apply wp_bind_assert.
    { pose proof (i_dirc _ _ _ V1 i x Hx) as Hd. simpl in Hd. pose proof (nrefs_pos _ _ _ _ Hde1 Hi).
      pose proof (occ_nonneg i (hd g)). cmp. }
    eapply wp_mono; [apply (dircachecnt_up (dircaches s1)); [done|by eexists]|]. simpl. intros _ s2 (V2 & T2 & HD2).
    apply wp_ret. assert (dircaches s2 = dircaches s1) as HC2 by apply T2.
    split_and!; [done|by eapply touches_trans|]. exists de1. rewrite HD2, Hi. split; [done|].
    unfold inv. rewrite HC2. revert V2. by apply inv_perm.
  - apply wp_ret, wp_ret. split_and!; [done|done|]. exists de1. by rewrite Hi.
Qed.

(** ** Removal *)
Definition erased (e : directory_entry) (c : readdirectory_cache) : readdirectory_cache :=
  with_maps (seq_last_cookie c) (cache_size c - get_cache_size e) (delete (cookie e) (dir_entries c)) (delete (name e) (dnlc_map c)) c.

Definition mark_lookuponly (b : bool) (c : readdirectory_cache) : readdirectory_cache :=
  if b then with_flags true (confirmed_msecs c) (invalidate_pending c) c else c.

Lemma erased_ok D c id de :
  cache_ok D c → dir_entries c !! cookie de = Some id → D !! id = Some de → cache_ok D (erased de c).
Proof.
  intros [H1 H2 H3 H4 H5 H6] Hid Hde. assert (dnlc_map c !! name de = Some (cookie de)) as Hnm.
  { destruct (H1 _ _ Hid) as (de' & Hde' & _ & ?). by simplify_eq. }
  constructor; simpl.
  - intros k e [Hk He]%lookup_delete_Some. destruct (H1 k e He) as (de1 & ? & <- & Hn). exists de1. split_and!; try done.
    rewrite lookup_delete_ne; [done|]. intros Heq. rewrite <- Heq in Hn. congruence.
  - intros n k [Hn Hk]%lookup_delete_Some. destruct (H2 n k Hk) as (e & de1 & He & Hd & <-). exists e, de1.
    rewrite lookup_delete_ne; [done|]. intros <-. congruence.
  - intros k e [_ He]%lookup_delete_Some. by eapply H3.
  - rewrite !map_size_delete_Some by eauto. lia.
  - rewrite H5. rewrite (ents_delete c _ id (seq_last_cookie c) (cache_size c - get_cache_size de) (delete (name de) (dnlc_map c)) Hid) at 1.
    simpl. unfold entsize at 1. rewrite Hde. unfold erased. lia.
  - done.
Qed.

Lemma inv_erase g s d c id de :
  inv g s → dircaches s !! d = Some c → dir_entries c !! cookie de = Some id → dirents s !! id = Some de →
  inv (plus_e id g) (set_caches (insert d (erased de c)) s).
Proof.
  intros V Hc Hid Hde. apply invc_caches. eapply (inv_put_cache g); [exact V|done| | | |done|done|done|done].
  - intros e. rewrite (ents_delete c _ id (seq_last_cookie c) (cache_size c - get_cache_size de) (delete (name de) (dnlc_map c)) Hid).
    simpl. unfold erased. lia.
  - eapply erased_ok; [by apply (i_cache _ _ _ V d)|done|done].
  - simpl. intros Hx. destruct (i_verf _ _ _ V d c Hc Hx) as [Hz|Hv]; [by rewrite Hz in Hid|]. by right.
Qed.

(** The size of a cache covers that of each of its entries. *)
Lemma entry_size_le D c id de :
  cache_ok D c → dir_entries c !! cookie de = Some id → D !! id = Some de → get_cache_size de ≤ cache_size c.
Proof.
  intros Hok Hid Hde. rewrite (co_bytes _ _ Hok), (ents_delete c _ id 0 0 ∅ Hid). simpl. unfold entsize at 1. rewrite Hde.
  pose proof (csize_nonneg D (ents (with_maps 0 0 (delete (cookie de) (dir_entries c)) ∅ c))). lia.
Qed.

Lemma erase_entry_spec g s d c id de :
  inv g s → dircaches s !! d = Some c → dir_entries c !! cookie de = Some id → dirents s !! id = Some de →
  wp (erase_entry d (cookie de) id de) s (λ _ s', inv g s' ∧ touches (set_caches (insert d (erased de c)) s) s' ∧
    dircaches s' !! d = Some (erased de c)).
Proof.
  intros V Hc Hid Hde. unfold erase_entry, get_dircache. do 2 apply wp_bind. apply wp_get. cbv beta. eapply wp_deref; [done|]. cbv beta.
  pose proof (i_cache _ _ _ V d c Hc) as Hok.
  apply wp_bind_assert. { pose proof (entry_size_le _ _ _ _ Hok Hid Hde). cmp. }
  apply wp_bind_assert.
  { apply bool_decide_eq_true. destruct (co_ent _ _ Hok _ _ Hid) as (de' & Hde' & _ & Hn). simplify_eq. by eexists. }
  apply wp_bind, wp_modify. cbv beta. fold (erased de c).
  pose proof (inv_erase _ _ _ _ _ _ V Hc Hid Hde) as V1.
  eapply wp_mono; [by apply (shared_reset_spec (dircaches (set_caches (insert d (erased de c)) s)))|].
  intros _ s' (V' & T & _). assert (dircaches s' = <[d:=erased de c]> (dircaches s)) as HC by apply T.
  split_and!; [unfold inv; by rewrite HC|done|]. rewrite HC. apply lookup_insert_eq.
Qed.

Lemma set_lookuponly_spec g s d c : inv g s → dircaches s !! d = Some c → hx g = None →
  wp (set_lookuponly d) s (λ _ s', s' = set_caches (insert d (mark_lookuponly true c)) s ∧ inv g s').
Proof.
  intros V Hc Hx. unfold set_lookuponly, get_dircache, put_dircache. do 2 apply wp_bind. apply wp_get. cbv beta.
  eapply wp_deref; [done|]. cbv beta. apply wp_modify. split; [done|]. eapply inv_flags; try done. intros _. right. by right.
Qed.

(** The last use of a removed entry goes away, and its inode if that was all that kept it. *)
Lemma release_removed_spec g s id e de :
  hx g = None → inv (plus_e id g) s → dirents s !! id = Some de → de_inode e = de_inode de →
  wp (release_removed id e) s (λ r s', r = true ∧ inv g s' ∧ shrinks (hl g) None s s').
Proof.
  intros Hx V Hde Heq. unfold release_removed. rewrite Heq.
  assert (wp (do_ shared_reset id; mret true) s (λ r s', r = true ∧ inv g s' ∧ shrinks (hl g) None s s')) as Hend.
  { wp_call shared_reset_spec; [done|]. intros _ s1 (V1 & T1 & _). apply wp_ret.
    assert (dircaches s1 = dircaches s) as HC1 by apply T1. split_and!; [done|unfold inv; by rewrite HC1|by apply touches_shrinks]. }
  destruct (de_inode de) as [i|] eqn:Hi; [|done].
  wp_call get_inode_spec; [done|by eapply (i_ptr _ _ _ V)|]. intros x ? [-> Hxi].
  apply wp_bind_assert.
  { pose proof (i_dirc _ _ _ V i x Hxi) as Hd. simpl in Hd. pose proof (nrefs_pos _ _ _ _ Hde Hi).
    pose proof (occ_nonneg i (hd g)). cmp. }
  destruct (dircachecnt x =? 1); [|done].
  wp_call incref_spec; [done|by eexists|]. intros _ s1 (V1 & T1 & _).
  wp_call (shared_reset_spec (dircaches s) (plus_l i g)); [revert V1; by apply inv_perm|]. intros _ s2 (V2 & T2 & _).
  assert (dircaches s2 = dircaches s) as HC2 by (transitivity (dircaches s1); [apply T2|apply T1]).
  wp_call get_inode_spec; [done|apply (i_hl _ _ _ V2); by left|]. intros y ? [-> Hy].
  apply wp_bind_assert.
  { destruct (i_look _ _ _ V2 i y Hy) as [Hl ?]. simpl in Hl. rewrite decide_True in Hl by done. pose proof (occ_nonneg i (hl g)). cmp. }
  wp_call (decref_spec g); [done|unfold inv; by rewrite HC2|]. intros _ s3 [V3 S3]. apply wp_ret. split_and!; [done|done|].
  eapply shrinks_trans; [|done]. eapply shrinks_trans; by apply touches_shrinks.
Qed.

(** The outcome of a removal. *)
Definition removed (g : held) (d : nat) (c' : readdirectory_cache) (s s' : client) : Prop :=
  inv g s' ∧ frame (hl g) d s s' ∧ dircaches s' !! d = Some c' ∧ next_ent s' = next_ent s ∧ bigcookie s' = bigcookie s.

(** Without new entries the allocated size does not grow. *)
Lemma bytes_shrink g g' l d s s' :
  inv g s → inv g' s' → frame l d s s' → next_ent s' = next_ent s → bytes_allocated_g s' ≤ bytes_allocated_g s.
Proof.
  intros V V' F Hn. rewrite (i_bytes _ _ _ V), (i_bytes _ _ _ V'). apply msum_sub.
  - intros. unfold get_cache_size, sizeof_directory_entry. lia.
  - intros e de' He. destruct (f_old _ _ _ _ F e de' He) as (de & Hde & _ & Hnm & _).
    { destruct (decide (e < next_ent s)%nat); [done|]. rewrite (i_nextent _ _ _ V' e) in He by lia. done. }
    exists de. split; [done|]. unfold get_cache_size. by rewrite Hnm.
Qed.

Lemma remove_spec g s d c k0 hint :
  hx g = None → inv g s → dircaches s !! d = Some c → (k0 = 0 ↔ hint ≠ None) → pinned (hl g) s d →
  wp (remove d k0 hint) s (λ r s', match entry_at c k0 hint with
    | None => r = false ∧ s' = s
    | Some id => r = true ∧ ∃ de, dirents s !! id = Some de ∧ removed g d (erased de (mark_lookuponly (k0 =? 0) c)) s s'
    end).
Proof.
  intros Hx V Hc Hk Hpin. unfold remove. apply wp_bind_assert.
  { destruct hint; simpl in *; destruct (Z.eqb_spec k0 0); try done; exfalso; naive_solver. }
  fold (resolve_m d k0 hint). wp_call resolve_m_spec; [done|done|done|]. intros k ? [-> [[-> HN]|[-> HN]]].
  { apply wp_ret. by rewrite HN. }
  unfold get_dircache. do 2 apply wp_bind. apply wp_get. cbv beta. eapply wp_deref; [done|]. cbv beta. rewrite HN.
  destruct (entry_at c k0 hint) as [id|] eqn:Hent; [|by apply wp_ret].
  destruct (entry_at_spec _ _ _ _ _ _ _ _ V Hc Hent) as (de & Hde & Hr & Hcd & Hnm & Hname).
  assert (k = cookie de) as ->.
  { destruct (co_ent _ _ (i_cache _ _ _ V d c Hc) _ _ HN) as (de' & Hde' & Hck & _). congruence. }
  wp_call shared_copy_spec; [done|by eexists|]. intros _ s1 (V1 & T1 & HI1).
  wp_call get_dirent_spec; [done|apply (i_he _ _ _ V1); by left|]. intros de1 ? [-> Hde1].
  assert (dircaches s1 = dircaches s) as HC1 by apply T1.
  assert (same_ent de de1) as Hsame.
  { destruct T1 as (_ & _ & A3 & _). destruct (A3 _ _ Hde1) as (de0 & Hde0 & ?). congruence. }
  rewrite (proj1 Hsame) in HN |- *. apply wp_bind_assert; [apply Z.eqb_refl|].
  set (c1 := mark_lookuponly (k0 =? 0) c).
  apply wp_bind. eapply wp_mono with (Q := λ _ s2, inv (plus_e id g) s2 ∧ s2 = set_caches (insert d c1) s1).
  { assert (inv (plus_e id g) s1) as V1' by (unfold inv; by rewrite HC1). unfold c1. destruct (k0 =? 0).
    - eapply wp_mono; [by eapply set_lookuponly_spec; [done|rewrite HC1|]|]. simpl. by intros _ s2 [-> ?].
    - apply wp_ret. split; [done|]. simpl. destruct s1. unfold set_caches. simpl in *. f_equal. by rewrite HC1, insert_id. }
  intros _ s2 [V2 ->]. set (s2 := set_caches (insert d c1) s1) in *.
  assert (dir_entries c1 = dir_entries c) as HE1 by (unfold c1, mark_lookuponly; by destruct (k0 =? 0)).
  wp_call erase_entry_spec; [exact V2|apply lookup_insert_eq|by rewrite HE1|done|]. intros _ s3 (V3 & T3 & Hc3).
  assert (erased de1 c1 = erased de c1) as Her.
  { unfold erased, get_cache_size. destruct Hsame as (-> & -> & _). done. }
  rewrite Her in Hc3, T3.
  assert (frame (hl g) d s s3) as F3.
  { eapply frame_trans; [by apply touches_frame|]. eapply frame_trans; [apply frame_put_cache|].
    eapply frame_trans; [apply frame_put_cache|]. by apply touches_frame. }
  destruct (i_he _ _ _ V3 id) as [de3 Hde3]; [by left|].
  assert (de_inode de1 = de_inode de3) as Hi3.
  { destruct T3 as (_ & _ & A3 & _). destruct (A3 _ _ Hde3) as (de0 & Hde0 & _ & _ & <-). simpl in Hde0. congruence. }
  eapply wp_mono; [by eapply release_removed_spec|]. intros r s4 (-> & V4 & S4). split; [done|]. exists de. split; [done|].
  split_and!; [done|by eapply frame_trans, shrinks_frame'| | |].
  - destruct (sh_pin _ _ _ _ S4 d) as [_ Heq]; [by eapply frame_pinned|]. by rewrite Heq.
  - destruct (sh_next _ _ _ _ S4) as (_ & -> & _). transitivity (next_ent s2); [apply T3|apply T1].
  - destruct (sh_next _ _ _ _ S4) as (_ & _ & ->). transitivity (bigcookie s2); [apply T3|apply T1].
Qed.

(** ** The name cache *)
Lemma dnlc_lookup_spec g s d c now act nm : inv g s → dircaches s !! d = Some c →
  wp (dnlc_lookup now act d nm) s (λ r s', touches s s' ∧
    match entry_at c 0 (Some nm) with
    | Some id => ∃ de, dirents s !! id = Some de ∧ r = (de_inode de, false) ∧
        inv (match de_inode de with Some i => plus_l i g | None => g end) s'
    | None => r = (None, is_confirmed now act c) ∧ s' = s
    end).
Proof.
  intros V Hc. unfold dnlc_lookup. wp_call lookup_spec; [done|done|done|]. intros r s1 (-> & T1 & Hr).
  destruct (entry_at c 0 (Some nm)) as [id|] eqn:Hent.
  - destruct Hr as (de & Hde & V1). destruct (entry_at_spec _ _ _ _ _ _ _ _ V Hc Hent) as (de0 & Hde0 & _ & _ & _ & Hname).
    assert (same_ent de0 de) as Hsame.
    { destruct T1 as (_ & _ & A3 & _). destruct (A3 _ _ Hde) as (? & ? & ?). congruence. }
    wp_call get_dirent_spec; [exact V1|by eexists|]. intros ? ? [-> ?]. simplify_eq.
    assert (dircaches s1 = dircaches s) as HC1 by apply T1.
    destruct (de_inode de) as [i|] eqn:Hi; simpl in V1.
    + apply wp_bind_assert. { apply String.eqb_eq. destruct Hsame as (_ & <- & _). symmetry. by apply Hname. }
      wp_call incref_spec; [exact V1|eapply (i_ptr _ _ _ V1); eauto|]. intros _ s2 (V2 & T2 & HD2).
      wp_call get_inode_spec; [exact V2|apply (i_hl _ _ _ V2); by left|]. intros x ? [-> Hx].
      apply wp_bind_assert.
      { pose proof (i_dirc _ _ _ V2 i x Hx) as Hd. rewrite HD2 in Hd. simpl in Hd. rewrite decide_True in Hd by done.
        pose proof (nrefs_pos _ _ _ _ Hde Hi). pose proof (occ_nonneg i (hd g)). cmp. }
      wp_call (dircachecnt_down (dircaches s1) (plus_e id (plus_l i g))); [revert V2; by apply inv_perm|]. intros _ s3 (V3 & T3 & _).
      wp_call shared_reset_spec; [exact V3|]. intros _ s4 (V4 & T4 & _). apply wp_ret.
      assert (touches s s4) as T by (do 3 (eapply touches_trans; [done|]); done).
      split; [done|]. exists de0. destruct Hsame as (_ & _ & ->). rewrite Hi. split_and!; [done|done|].
      unfold inv. assert (dircaches s4 = dircaches s) as -> by apply T. by rewrite <- HC1.
    + wp_call shared_reset_spec; [exact V1|]. intros _ s2 (V2 & T2 & _). apply wp_ret.
      assert (touches s s2) as T by (by eapply touches_trans).
      split; [done|]. exists de0. destruct Hsame as (_ & _ & ->). rewrite Hi. split_and!; [done|done|].
      unfold inv. assert (dircaches s2 = dircaches s) as -> by apply T. by rewrite <- HC1.
  - subst s1. unfold get_dircache. do 2 apply wp_bind. apply wp_get. cbv beta. eapply wp_deref; [done|]. cbv beta. apply wp_ret.
    split; [apply touches_refl|done].
Qed.

(** ** Insertion *)
Definition valid_cookie (k : Z) : Prop := 0 < k ∧ (k < UINT32_MAX ∨ 2 ^ 63 - 1 ≤ k).

Definition set_verf (verf : option Z) (c : readdirectory_cache) : readdirectory_cache :=
  match verf with Some v => with_verf v c | None => c end.

Definition inserted (id : nat) (e : directory_entry) (verf : option Z) (c : readdirectory_cache) : readdirectory_cache :=
  with_maps (if cookie e =? u64 (seq_last_cookie c + 1) then cookie e else seq_last_cookie c)
    (cache_size c + get_cache_size e) (<[cookie e := id]> (dir_entries c)) (<[name e := cookie e]> (dnlc_map c)) (set_verf verf c).

Definition exempt (verf : option Z) (d : nat) (g : held) : held :=
  Held (hl g) (hd g) (he g) (match verf with Some _ => None | None => Some d end) (hf g).

Lemma ents_inserted id e verf c : dir_entries c !! cookie e = None → ents (inserted id e verf c) ≡ₚ id :: ents c.
Proof. intros H. unfold ents. simpl. by rewrite map_to_list_insert. Qed.

Lemma inserted_ok D c id e verf :
  cache_ok D c → dir_entries c !! cookie e = None → dnlc_map c !! name e = None → D !! id = Some e →
  valid_cookie (cookie e) → cache_ok D (inserted id e verf c).
Proof.
  intros [H1 H2 H3 H4 H5 H6] Hk Hn He Hv. constructor; simpl.
  - intros k e' [[<- <-]|[Hne He']]%lookup_insert_Some.
    + exists e. by rewrite lookup_insert_eq.
    + destruct (H1 k e' He') as (de & ? & <- & Hn'). exists de. rewrite lookup_insert_ne; [done|congruence].
  - intros n k [[<- <-]|[Hne Hk']]%lookup_insert_Some.
    + exists id, e. by rewrite lookup_insert_eq.
    + destruct (H2 n k Hk') as (e' & de & He' & ? & <-). exists e', de. rewrite lookup_insert_ne; [done|congruence].
  - intros k e' [[<- <-]|[Hne He']]%lookup_insert_Some; [done|by eapply H3].
  - rewrite !map_size_insert_None by done. lia.
  - rewrite ents_inserted by done. simpl. unfold entsize at 1. rewrite He, H5. lia.
  - by destruct verf.
Qed.

Lemma emplace_spec g s d c id e verf :
  hx g = None → inv g s → dircaches s !! d = Some c → dirents s !! id = Some e → dnlc_map c !! name e = None →
  valid_cookie (cookie e) → (verf ≠ Some 0) →
  wp (emplace_entry d id e verf) s (λ r s', inv (exempt verf d g) s' ∧ frame (hl g) d s s' ∧ next_ent s' = next_ent s ∧
    r = negb (is_some (dir_entries c !! cookie e)) ∧
    dircaches s' !! d = Some (if r then inserted id e verf c else set_verf verf c)).
Proof.
  intros Hx V Hc He Hn Hv Hvf. unfold emplace_entry, get_dircache. do 2 apply wp_bind. apply wp_get. cbv beta.
  eapply wp_deref; [done|]. cbv beta.
  assert (verf_ok c) as Hvc by (apply (i_verf _ _ _ V d c Hc); by rewrite Hx).
  assert (∀ c', dir_entries c' = dir_entries c → verf_ok (set_verf verf c)) as Hvs.
  { intros _ _. unfold verf_ok, set_verf. destruct verf; [|done]. right; left. simpl. congruence. }
  apply wp_bind. eapply wp_mono with (Q := λ _ s', s' = s).
  { destruct verf as [v|]; [|by apply wp_ret]. apply wp_assert; [|done]. destruct (Z.eqb_spec v 0); [congruence|done]. }
  intros _ ? ->. fold (set_verf verf c). destruct (dir_entries c !! cookie e) as [o|] eqn:Hk; simpl.
  - unfold put_dircache. apply wp_bind, wp_modify. cbv beta. apply wp_ret. split_and!; [|apply frame_put_cache|done|done|apply lookup_insert_eq].
    apply invc_caches. eapply (inv_put_cache g); [exact V|done| | |by intros; eapply Hvs| |done|done|done].
    + intros e'. unfold ents, set_verf. by destruct verf.
    + destruct (i_cache _ _ _ V d c Hc). unfold set_verf. by destruct verf.
    + intros x Hxd _. by rewrite Hx.
  - wp_call shared_copy_spec; [exact V|by eexists|]. intros _ s1 (V1 & T1 & _).
    assert (dircaches s1 = dircaches s) as HC1 by apply T1.
    destruct (i_he _ _ _ V1 id) as [e1 He1]; [by left|].
    assert (same_ent e e1) as (Hs1 & Hs2 & Hs3).
    { destruct T1 as (_ & _ & A3 & _). destruct (A3 _ _ He1) as (? & ? & ?). congruence. }
    unfold put_dircache. apply wp_bind, wp_modify. cbv beta. fold (inserted id e verf c). apply wp_ret.
    split_and!; [| |by destruct T1 as (_ & _ & _ & _ & _ & ? & _)|done|simpl; rewrite HC1; apply lookup_insert_eq].
    + apply invc_caches. simpl. rewrite HC1. eapply (inv_put_cache (plus_e id g)); [exact V1|done| | | | |done|done|done].
      * intros e'. rewrite ents_inserted by done. simpl. lia.
      * assert (inserted id e verf c = inserted id e1 verf c) as -> by (unfold inserted, get_cache_size; by rewrite Hs1, Hs2).
        apply inserted_ok; [by apply (i_cache _ _ _ V1 d)|congruence..|rewrite <- Hs1; done].
      * intros Hxd. unfold exempt in Hxd. simpl in Hxd. destruct verf as [v|]; [|done]. right; left. simpl. congruence.
      * intros x Hxd _. simpl. by rewrite Hx.
    + eapply frame_trans; [by apply touches_frame|apply frame_put_cache].
Qed.

(** The entry as it was read before its use count changed. *)
Lemma emplace_spec_same g s d c id e e' verf :
  hx g = None → inv g s → dircaches s !! d = Some c → dirents s !! id = Some e' → same_ent e e' → dnlc_map c !! name e = None →
  valid_cookie (cookie e) → (verf ≠ Some 0) →
  wp (emplace_entry d id e verf) s (λ r s', inv (exempt verf d g) s' ∧ frame (hl g) d s s' ∧ next_ent s' = next_ent s ∧
    r = negb (is_some (dir_entries c !! cookie e)) ∧
    dircaches s' !! d = Some (if r then inserted id e verf c else set_verf verf c)).
Proof.
  intros Hx V Hc He (Hk & Hn & _) Hnone Hv Hvf.
  assert (emplace_entry d id e verf = emplace_entry d id e' verf ∧ inserted id e verf c = inserted id e' verf c) as [-> ->].
  { unfold emplace_entry, inserted, get_cache_size. by rewrite Hk, Hn. }
  rewrite Hk in Hv |- *. rewrite Hn in Hnone. by apply emplace_spec.
Qed.

(** The cache after the purge of an oversized cache. *)
Definition max_single (max_cache : Z) : Z := Z.min MAX_CACHE_SIZE_LIMIT (max_cache / 2).
Definition purged (max_cache : Z) (c : readdirectory_cache) : readdirectory_cache :=
  if max_single max_cache <=? cache_size c then cleared c else c.

(** The cache after the removal of another entry of the same name. *)
Definition stripped (D : gmap nat directory_entry) (nm : string) (c c0 : readdirectory_cache) : Prop :=
  match entry_at c 0 (Some nm) with
  | None => c0 = c
  | Some id => ∃ de, D !! id = Some de ∧ c0 = erased de c
  end.

Lemma inv_exempt verf d g s : hx g = None → inv g s → inv (exempt verf d g) s.
Proof. intros Hx V. constructor; simpl; try solve [apply V]. intros d' c' Hc _. apply (i_verf _ _ _ V d' c' Hc). by rewrite Hx. Qed.

Lemma purge_spec g s d c max : hx g = None → inv g s → dircaches s !! d = Some c → pinned (hl g) s d → 2 ≤ max →
  wp (if max_single max <=? cache_size c then do_ clear d; do c' ← get_dircache d; massert (cache_size c' <? max_single max) else mret ()) s
    (λ _ s', inv g s' ∧ frame (hl g) d s s' ∧ next_ent s' = next_ent s ∧ dircaches s' !! d = Some (purged max c) ∧
             ((cache_size c < max_single max) → s' = s)).
Proof.
  intros Hx V Hc Hp Hm. unfold purged. destruct (Z.leb_spec (max_single max) (cache_size c)).
  - wp_call clear_spec; [done..|]. intros _ s1 (V1 & S1 & Hc1). unfold get_dircache. do 2 apply wp_bind. apply wp_get. cbv beta.
    eapply wp_deref; [done|]. cbv beta. apply wp_assert.
    { apply Z.ltb_lt. simpl. unfold max_single, MAX_CACHE_SIZE_LIMIT. assert (1 ≤ max / 2) by (apply Z.div_le_lower_bound; lia). lia. }
    split_and!; [done|by apply shrinks_frame|apply S1|done|lia].
  - apply wp_ret. split_and!; [done|apply frame_refl|done..].
Qed.

Lemma strip_spec g s d c nm :
  hx g = None → inv g s → dircaches s !! d = Some c → pinned (hl g) s d →
  wp (do k ← filename_to_cookie d nm; if negb (k =? 0) then do_ remove d k None; mret () else mret ()) s
    (λ _ s', inv g s' ∧ frame (hl g) d s s' ∧ next_ent s' = next_ent s ∧ ∃ c0, dircaches s' !! d = Some c0 ∧ stripped (dirents s) nm c c0 ∧ dnlc_map c0 !! nm = None).
Proof.
  intros Hx V Hc Hp. wp_call filename_to_cookie_spec; [done|done|]. intros k ? (-> & -> & Hz).
  unfold stripped, entry_at. simpl. destruct (dnlc_map c !! nm) as [k|] eqn:Hk; simpl.
  - assert (k ≠ 0) as Hk0 by (intros ->; by pose proof (proj1 Hz eq_refl)). rewrite (proj2 (Z.eqb_neq k 0) Hk0). simpl.
    wp_call remove_spec; [done|done|done| |done|]; [by split; [intros ->|]|]. intros r s1. unfold entry_at. simpl.
    destruct (co_dnlc _ _ (i_cache _ _ _ V d c Hc) _ _ Hk) as (e & de & He & Hde & Hnm). rewrite He.
    intros (_ & de' & Hde' & V1 & F1 & Hc1 & Hn1 & _). simplify_eq. apply wp_ret. split_and!; [done|done|done|].
    rewrite (proj2 (Z.eqb_neq k 0) Hk0) in Hc1. simpl in Hc1. eexists. split_and!; [done|eauto|]. simpl. apply lookup_delete_eq.
  - apply wp_ret. split_and!; [done|apply frame_refl|done|]. eauto.
Qed.

Lemma frame_dirent l d s s' id e : frame l d s s' → is_Some (dirents s' !! id) → dirents s !! id = Some e →
  (id < next_ent s)%nat → ∃ e', dirents s' !! id = Some e' ∧ same_ent e e'.
Proof. intros F [e' He'] He Hlt. destruct (f_old _ _ _ _ F id e' He' Hlt) as (e0 & He0 & ?). exists e'. split; [done|]. congruence. Qed.

Lemma live_lt g C s id e : invc g C s → dirents s !! id = Some e → (id < next_ent s)%nat.
Proof. intros V He. destruct (decide (id < next_ent s)%nat); [done|]. rewrite (i_nextent _ _ _ V id) in He by lia. done. Qed.

(** The outcome of [add()]: nothing is added beyond the global limit; otherwise the entry
    is added after the purge of an oversized cache and of an entry of the same name, unless
    the cookie is taken. *)
Definition add_outcome (max_cache : Z) (D : gmap nat directory_entry) (allocated : Z) (id : nat) (e : directory_entry)
    (verf : option Z) (c : readdirectory_cache) (r : bool) (c' : readdirectory_cache) : Prop :=
  (r = false ∧ c' = purged max_cache c ∧ max_cache < allocated) ∨
  ∃ c0, stripped D (name e) (purged max_cache c) c0 ∧ r = negb (is_some (dir_entries c0 !! cookie e)) ∧
        c' = (if r then inserted id e verf c0 else set_verf verf c0).

Lemma add_spec g s d c id e verf max :
  hx g = None → inv g s → dircaches s !! d = Some c → pinned (hl g) s d → 2 ≤ max →
  id ∈ he g → dirents s !! id = Some e → valid_cookie (cookie e) → verf ≠ Some 0 →
  wp (add max d id verf) s (λ r s', inv (exempt verf d g) s' ∧ frame (hl g) d s s' ∧ next_ent s' = next_ent s ∧
    ∃ c', dircaches s' !! d = Some c' ∧ add_outcome max (dirents s) (bytes_allocated_g s) id e verf c r c').
Proof.
  intros Hx V Hc Hp Hm Hin He Hv Hvf. pose proof (live_lt _ _ _ _ _ V He) as Hlt.
  unfold add. apply wp_bind_assert; [destruct (Z.eqb_spec max 0); [lia|done]|].
  wp_call get_dirent_spec; [done|by eexists|]. intros ? ? [-> ?]. simplify_eq.
  apply wp_bind_assert. { destruct Hv. destruct (Z.eqb_spec (cookie e) 0); [lia|done]. }
  unfold get_dircache at 1. do 2 apply wp_bind. apply wp_get. cbv beta. eapply wp_deref; [done|]. cbv beta.
  fold (max_single max). wp_call purge_spec; [done..|]. intros _ s1 (V1 & F1 & Hn1 & Hc1 & Hsame).
  apply wp_bind, wp_get. cbv beta. destruct (Z.ltb_spec max (bytes_allocated_g s1)) as [Hlim|Hlim].
  { apply wp_ret. split_and!; [by apply inv_exempt|done|done|]. eexists. split; [done|]. left. split_and!; [done|done|].
    pose proof (bytes_shrink _ _ _ _ _ _ V V1 F1 Hn1). lia. }
  destruct (frame_dirent _ _ _ _ _ _ F1 (i_he _ _ _ V1 _ Hin) He Hlt) as (e1 & He1 & Hs1 & Hs2 & Hs3).
  apply wp_bind. eapply wp_mono with (Q := λ _ s', s' = s1).
  { rewrite Hs3. destruct (de_inode e1) as [i|] eqn:Hi; [|by apply wp_ret].
    destruct (i_ptr _ _ _ V1 id e1 i He1 Hi) as [x Hx1]. wp_call get_inode_spec; [done|by eexists|]. intros ? ? [-> ?]. simplify_eq.
    apply wp_assert; [|done]. pose proof (i_dirc _ _ _ V1 i x Hx1). pose proof (nrefs_pos _ _ _ _ He1 Hi).
    pose proof (occ_nonneg i (hd g)). cmp. }
  intros _ ? ->. unfold get_dircache at 1. do 2 apply wp_bind. apply wp_get. cbv beta. eapply wp_deref; [done|]. cbv beta.
  apply wp_bind_assert; [apply bool_decide_eq_true, (i_cache _ _ _ V1 d _ Hc1)|].
  assert (pinned (hl g) s1 d) as Hp1 by (by eapply frame_pinned).
  apply wp_bind_assoc. wp_call (strip_spec g s1 d); [done..|]. intros _ s2 (V2 & F2 & Hn2 & c0 & Hc0 & Hstrip & Hnone).
  pose proof (live_lt _ _ _ _ _ V1 He1) as Hlt1.
  destruct (frame_dirent _ _ _ _ _ _ F2 (i_he _ _ _ V2 _ Hin) He1 Hlt1) as (e2 & He2 & Hs4 & Hs5 & Hs6).
  assert (same_ent e e2) as Hsame2 by (unfold same_ent; intuition congruence).
  assert (stripped (dirents s) (name e) (purged max c) c0) as Hst.
  { revert Hstrip. unfold stripped, purged. destruct (Z.leb_spec (max_single max) (cache_size c)) as [|Hlt2]; [done|].
    by rewrite (Hsame Hlt2). }
  wp_call (emplace_spec_same g s2 d c0 id e e2); [done..|]. intros r s3 (V3 & F3 & Hn3 & Hr & Hc3).
  unfold get_dircache. do 2 apply wp_bind. apply wp_get. cbv beta. eapply wp_deref; [done|]. cbv beta.
  apply wp_bind_assert; [apply bool_decide_eq_true, (i_cache _ _ _ V3 d _ Hc3)|]. apply wp_ret. split_and!; [done| |congruence|].
  - by do 2 (eapply frame_trans; [done|]).
  - eexists. split; [done|]. right. eauto.
Qed.
