(* ===== verification/DirNames.v ===== *)
(** * The name cache, the inode table and deferred purges

    [dnlc_add()], [alloc_dircache()], [clear_if_needed()], [get_nfs_inode()] and the
    constructors of directory entries. *)
From stdpp Require Import strings sorting.
From S2P Require Import Prelude DirCache DirInv DirRefs DirOps.

Lemma next_bigcookie_spec g s : inv g s → bigcookie s < 2 ^ 64 - 1 →
  wp next_bigcookie s (λ b s', b = bigcookie s ∧ s' = set_bigcookie (bigcookie s + 1) s ∧ inv g s').
Proof.
  intros V Hb. unfold next_bigcookie. apply wp_bind, wp_get. cbv beta. apply wp_bind, wp_modify. cbv beta. apply wp_ret.
  pose proof (i_big _ _ _ V) as Hbig. rewrite u64_small by lia. split_and!; [done|done|].
  constructor; simpl; try solve [apply V]; [lia|]. intros e de He. destruct (i_ck _ _ _ V e de He); [by left|right; lia].
Qed.

Lemma frame_bigcookie l d n s : frame l d s (set_bigcookie n s).
Proof. constructor; simpl; eauto. intros j (J & HJ & _). eauto. Qed.

(** ** New entries *)
Lemma frame_make l d s de a b :
  frame l d s (set_globals a b (set_dirents (insert (next_ent s) de) (set_next_ent (S (next_ent s)) s))).
Proof.
  constructor; simpl; [eauto| | |lia].
  - intros j (J & HJ & _). eauto.
  - intros e de' [[<- <-]|[]]%lookup_insert_Some Hlt; [lia|eauto].
Qed.

Lemma make_dirent_spec g s de :
  inv (plus_o (de_inode de) g) s → use_count de = 1 → cookie de < UINT32_MAX ∨ cookie de < bigcookie s →
  wp (make_dirent de) s (λ id s', id = next_ent s ∧ inv (plus_e id g) s' ∧ dirents s' !! id = Some de ∧
    s' = set_globals (num_dirents_g s + 1) (bytes_allocated_g s + get_cache_size de)
           (set_dirents (insert (next_ent s) de) (set_next_ent (S (next_ent s)) s))).
Proof.
  intros V Hu Hck. unfold make_dirent, put_dirent. repeat wp_step. simpl. split_and!; [done| |apply lookup_insert_eq|done].
  by apply (inv_make g (dircaches s)).
Qed.

Lemma new_plus_spec g s d nm k i :
  inv g s → pinned (hl g) s i → k < UINT32_MAX ∨ k < bigcookie s →
  wp (directory_entry_new_plus nm k i) s (λ id s', inv (plus_e id g) s' ∧ frame (hl g) d s s' ∧ dircaches s' = dircaches s ∧
    (next_ent s ≤ id)%nat ∧
    ∃ de, dirents s' !! id = Some de ∧ cookie de = k ∧ name de = nm ∧ de_inode de = Some i ∧
          bytes_allocated_g s' = bytes_allocated_g s + get_cache_size de).
Proof.
  intros V (I & HI & Hpos) Hk. unfold directory_entry_new_plus. wp_call get_inode_spec; [done|by eexists|]. intros ? ? [-> ?]. simplify_eq.
  destruct (i_look _ _ _ V i I HI).
  apply wp_bind_assert; [unfold is_forgotten; destruct (Z.eqb_spec (lookupcnt I) 0); [lia|done]|].
  unfold add_dircachecnt, get_inode, put_inode. do 3 apply wp_bind. apply wp_get. cbv beta. eapply wp_deref; [done|]. cbv beta.
  apply wp_modify. cbv beta. set (s1 := set_inodes _ s).
  assert (inv (plus_d i g) s1) as V1.
  { eapply inv_refs; [exact V|done| | | |done|done|done]; simpl.
    - done.
    - rewrite decide_True by done. pose proof (i_dirc _ _ _ V i I HI). lia.
    - intros j Hj. rewrite decide_False by done. split; lia. }
  eapply wp_mono; [by apply (make_dirent_spec g s1)|]. intros id s2 (-> & V2 & He & ->).
  split_and!; [done| |done|simpl; lia|].
  - eapply frame_trans; [|apply frame_make]. apply touches_frame. by apply touches_counts.
  - eexists. split_and!; done.
Qed.

Lemma new_dirent_spec g s d nm k fid :
  inv g s → fid ≠ 0 → k < UINT32_MAX →
  wp (directory_entry_new nm k fid) s (λ id s', inv (plus_e id g) s' ∧ frame (hl g) d s s' ∧ dircaches s' = dircaches s ∧
    (next_ent s ≤ id)%nat ∧
    ∃ de, dirents s' !! id = Some de ∧ cookie de = k ∧ name de = nm ∧ de_inode de = None ∧
          bytes_allocated_g s' = bytes_allocated_g s + get_cache_size de).
Proof.
  intros V Hf Hk. unfold directory_entry_new. apply wp_bind_assert; [destruct (Z.eqb_spec fid 0); done|].
  eapply wp_mono; [apply (make_dirent_spec g s); [done|done|by left]|]. intros id s2 (-> & V2 & He & ->).
  split_and!; [done|apply frame_make|done|done|]. eexists. split_and!; done.
Qed.

(** ** dnlc_add *)

(** The outcome of choosing the cookie of a new name: the name and the cookie are free. *)
Definition cookie_free (nm : string) (c c' : readdirectory_cache) (k : Z) : Prop :=
  dnlc_map c' !! nm = None ∧ dir_entries c' !! k = None ∧ (c' = c ∨ ∃ de, c' = erased de c).

(** Dropping the references of a lookup of an entry with an inode. *)
Lemma drop_lookup_spec g s id de j :
  inv (plus_e id (plus_d j g)) s → dirents s !! id = Some de → de_inode de = Some j →
  wp (drop_lookup id j) s (λ _ s', inv g s' ∧ touches s s').
Proof.
  intros V Hde Hj. unfold drop_lookup. destruct (i_ptr _ _ _ V id de j Hde Hj) as [x Hx].
  wp_call get_inode_spec; [done|by eexists|]. intros ? ? [-> ?]. simplify_eq.
  apply wp_bind_assert.
  { pose proof (i_dirc _ _ _ V j x Hx) as Hd. simpl in Hd. rewrite decide_True in Hd by done.
    pose proof (nrefs_pos _ _ _ _ Hde Hj). pose proof (occ_nonneg j (hd g)). cmp. }
  wp_call (dircachecnt_down (dircaches s) (plus_e id g)); [revert V; by apply inv_perm|]. intros _ s1 (V1 & T1 & _).
  eapply wp_mono; [by eapply shared_reset_spec|]. intros _ s2 (V2 & T2 & _).
  assert (touches s s2) as T by (by eapply touches_trans). split; [|done].
  unfold inv. by assert (dircaches s2 = dircaches s) as -> by apply T.
Qed.

Lemma bigcookie_free g C s d c : invc g C s → C !! d = Some c → dir_entries c !! bigcookie s = None.
Proof.
  intros V Hc. destruct (dir_entries c !! bigcookie s) as [e|] eqn:He; [|done].
  destruct (co_ent _ _ (i_cache _ _ _ V d c Hc) _ _ He) as (de & Hde & Hck & _). pose proof (i_big _ _ _ V).
  destruct (i_ck _ _ _ V e de Hde); unfold UINT32_MAX in *; lia.
Qed.

Lemma frame_cache l d s s' c : frame l d s s' → dircaches s' = dircaches s → dircaches s !! d = Some c → dircaches s' !! d = Some c.
Proof. by intros _ ->. Qed.

(** The result of [dnlc_cookie] in the two cases. *)
Definition dnlc_cookie_post (g : held) (d : nat) (nm : string) (i : nat) (c : readdirectory_cache) (s : client) (r : option Z) (s' : client) : Prop :=
  inv g s' ∧ frame (hl g) d s s' ∧ bytes_allocated_g s' ≤ bytes_allocated_g s ∧
  ∃ c', dircaches s' !! d = Some c' ∧
  match r with
  | None => c' = c ∧ ∃ id de, entry_at c 0 (Some nm) = Some id ∧ dirents s' !! id = Some de ∧ de_inode de = Some i
  | Some k => valid_cookie k ∧ (k < UINT32_MAX ∨ k < bigcookie s') ∧ cookie_free nm c c' k
  end.

(** The entry of the name is removed to make place for a new one. *)
Lemma replace_spec g s s1 d c nm k id :
  hx g = None → inv g s → inv g s1 → touches s s1 → dircaches s !! d = Some c → pinned (hl g) s d →
  entry_at c 0 (Some nm) = Some id → dir_entries c !! k = Some id →
  wp (remove d k None) s1 (λ found s', found = true ∧ inv g s' ∧ frame (hl g) d s s' ∧ bytes_allocated_g s' ≤ bytes_allocated_g s ∧
    bigcookie s' = bigcookie s ∧ ∃ c', dircaches s' !! d = Some c' ∧ cookie_free nm c c' k).
Proof.
  intros Hx V V1 T1 Hc Hp Hent Hk. assert (dircaches s1 = dircaches s) as HC1 by apply T1.
  destruct (entry_at_spec _ _ _ _ _ _ _ _ V Hc Hent) as (de & Hde & Hr & _ & Hn & Hname).
  assert (cookie de = k) as Hck.
  { destruct (co_ent _ _ (i_cache _ _ _ V d c Hc) _ _ Hk) as (? & ? & ? & _). congruence. }
  assert (0 < k) as Hkpos by (by destruct (co_range _ _ (i_cache _ _ _ V d c Hc) _ _ Hk)).
  assert (pinned (hl g) s1 d) as Hp1 by (by eapply frame_pinned, Hp; apply (touches_frame _ d)).
  eapply wp_mono; [apply (remove_spec g s1 d c k None); [done|done|by rewrite HC1|split; [lia|done]|done]|].
  intros found s2. unfold entry_at. simpl. rewrite Hk. intros (-> & de1 & Hde1 & V2 & F2 & Hc2 & Hn2 & Hb2).
  assert (same_ent de de1) as (Hs1 & Hs2 & _).
  { destruct T1 as (_ & _ & A3 & _). destruct (A3 _ _ Hde1) as (? & ? & ?). congruence. }
  split_and!; [done|done|by eapply frame_trans; [apply touches_frame|]| |rewrite Hb2; apply T1|].
  - apply (bytes_shrink g g (hl g) d); [done|done|by eapply frame_trans; [apply touches_frame|]|].
    rewrite Hn2. apply T1.
  - destruct (Z.eqb_spec k 0) as [|Hk0]; [lia|]. simpl in Hc2. eexists. split; [done|]. split_and!.
    + simpl. rewrite <- Hs2, (Hname nm) by done. apply lookup_delete_eq.
    + simpl. rewrite <- Hs1, Hck. apply lookup_delete_eq.
    + right. eauto.
Qed.

(** A name that is not cached any more gets an impossible cookie. *)
Lemma fresh_cookie_spec g s s1 d c c1 nm i :
  inv g s1 → frame (hl g) d s s1 → bytes_allocated_g s1 ≤ bytes_allocated_g s → bigcookie s1 < 2 ^ 64 - 1 →
  dircaches s1 !! d = Some c1 → dnlc_map c1 !! nm = None → (c1 = c ∨ ∃ de, c1 = erased de c) →
  wp (do b ← next_bigcookie; mret (Some b)) s1 (dnlc_cookie_post g d nm i c s).
Proof.
  intros V F B Hb Hc1 Hn Hor. pose proof (i_big _ _ _ V) as Hbig.
  wp_call next_bigcookie_spec; [done|done|]. intros b s2 (-> & -> & V2). apply wp_ret.
  split_and!; [done|by eapply frame_trans, frame_bigcookie|done|]. exists c1. split; [done|]. split_and!.
  - unfold valid_cookie. lia.
  - right. simpl. lia.
  - split_and!; [done|by eapply bigcookie_free|done].
Qed.

Lemma dnlc_cookie_spec g s d c nm i :
  hx g = None → inv g s → dircaches s !! d = Some c → pinned (hl g) s d → bigcookie s < 2 ^ 64 - 1 →
  wp (dnlc_cookie d nm i) s (dnlc_cookie_post g d nm i c s).
Proof.
  intros Hx V Hc Hp Hb. unfold dnlc_cookie. wp_call filename_to_cookie_spec; [done|done|].
  intros k ? (-> & -> & Hz). destruct (dnlc_map c !! nm) as [k|] eqn:Hk; simpl.
  2: { apply (fresh_cookie_spec g s s d c c); try done; [apply frame_refl|by left]. }
  assert (k ≠ 0) as Hk0 by (intros ->; by pose proof (proj1 Hz eq_refl)). rewrite (proj2 (Z.eqb_neq k 0) Hk0).
  destruct (co_dnlc _ _ (i_cache _ _ _ V d c Hc) _ _ Hk) as (id & de & Hid & Hde & Hnm).
  assert (entry_at c 0 (Some nm) = Some id) as Hent by (unfold entry_at; simpl; by rewrite Hk).
  wp_call (lookup_spec g s d c k None); [done|done|by split; [intros ->|]|]. intros r s1 (-> & T1 & Hr).
  unfold entry_at in Hr |- *. simpl in Hr |- *. rewrite Hid in Hr |- *. destruct Hr as (de1 & Hde1 & V1).
  apply wp_bind. eapply wp_deref; [done|]. cbv beta. wp_call get_dirent_spec; [done|by eexists|].
  intros de1' ? [-> Hde1']. assert (de1' = de1) as -> by congruence.
  pose proof (co_range _ _ (i_cache _ _ _ V d c Hc) _ _ Hid) as Hrange.
  destruct (de_inode de1) as [j|] eqn:Hj; simpl in V1.
  - wp_call drop_lookup_spec; [done|done|done|]. intros _ s2 [V2 T2].
    assert (touches s s2) as T by (by eapply touches_trans).
    assert (dircaches s2 !! d = Some c) as Hc2 by (by assert (dircaches s2 = dircaches s) as -> by apply T).
    destruct (Nat.eqb_spec j i) as [->|Hji].
    + apply wp_ret. split_and!; [done|by apply touches_frame| |].
      { apply (bytes_shrink g g (hl g) d); [done|done|by apply touches_frame|apply T]. }
      exists c. split; [done|]. split; [done|].
      destruct (co_ent _ _ (i_cache _ _ _ V2 d c Hc2) _ _ Hid) as (de2 & Hde2 & _).
      exists id, de2. split_and!; [done|done|]. destruct T2 as (_ & _ & A3 & _).
      destruct (A3 _ _ Hde2) as (? & ? & _ & _ & <-). congruence.
    + wp_call (replace_spec g s s2 d c nm k id); [done..|]. intros found s3 (-> & V3 & F3 & B3 & Hb3 & c' & Hc' & Hfree1 & _ & Hfree3).
      apply wp_bind_assert; [done|]. apply (fresh_cookie_spec g s s3 d c c'); try done. by rewrite Hb3.
  - wp_call shared_reset_spec; [done|]. intros _ s2 (V2 & T2 & _).
    assert (touches s s2) as T by (by eapply touches_trans).
    assert (dircaches s2 = dircaches s1) as HC2 by apply T2.
    wp_call (replace_spec g s s2 d c nm k id); [done|done|unfold inv; by rewrite HC2|done..|].
    intros found s3 (-> & V3 & F3 & B3 & Hb3 & c' & Hc' & Hfree).
    apply wp_bind_assert; [done|]. apply wp_ret. split_and!; [done|done|done|]. exists c'. split_and!; try done.
    rewrite Hb3. destruct (co_ent _ _ (i_cache _ _ _ V d c Hc) _ _ Hid) as (de0 & Hde0 & <- & _). by apply (i_ck _ _ _ V id).
Qed.

(** The name is cached for the inode. *)
Definition names (s : client) (d : nat) (nm : string) (i : nat) : Prop :=
  ∃ c id de, dircaches s !! d = Some c ∧ entry_at c 0 (Some nm) = Some id ∧ dirents s !! id = Some de ∧ de_inode de = Some i.

(** There is room for an entry of the given name below the global limit. *)
Definition room (max_cache allocated : Z) (nm : string) : Prop :=
  allocated + get_cache_size (Dirent 0 nm None false 0 0) ≤ max_cache.

(** With room and a free name and cookie, [add()] adds. *)
Lemma add_outcome_room max D allocated id e verf c r c' :
  add_outcome max D allocated id e verf c r c' → allocated ≤ max →
  dnlc_map c !! name e = None → dir_entries c !! cookie e = None → r = true ∧ c' = inserted id e verf (purged max c).
Proof.
  intros [(_ & _ & Hlim)|(c0 & Hst & Hr & Hc')] Hall Hn Hk; [lia|].
  assert (dnlc_map (purged max c) !! name e = None ∧ dir_entries (purged max c) !! cookie e = None) as [Hn' Hk']
    by (unfold purged; by destruct (max_single max <=? cache_size c)).
  unfold stripped, entry_at in Hst. simpl in Hst. rewrite Hn' in Hst. simpl in Hst. subst c0. rewrite Hk' in Hr. simpl in Hr. by subst r.
Qed.

Lemma inserted_entry id e verf c : entry_at (inserted id e verf c) 0 (Some (name e)) = Some id.
Proof. unfold entry_at, inserted. simpl. rewrite lookup_insert_eq. simpl. apply lookup_insert_eq. Qed.

Lemma inv_unexempt g s d c : hx g = None → inv (exempt None d g) s → dircaches s !! d = Some c → lookuponly c = true → inv g s.
Proof.
  intros Hx V Hc Hl. constructor; try solve [apply V]. intros d' c' Hc' _. destruct (decide (d' = d)) as [->|Hne].
  - right. right. congruence.
  - apply (i_verf _ _ _ V d' c' Hc'). simpl. congruence.
Qed.

Lemma dnlc_add_spec g s d c nm i max :
  hx g = None → inv g s → dircaches s !! d = Some c → pinned (hl g) s d → pinned (hl g) s i →
  bigcookie s < 2 ^ 64 - 1 → 2 ≤ max →
  wp (dnlc_add max d nm i) s (λ _ s', inv g s' ∧ frame (hl g) d s s' ∧ is_Some (dircaches s' !! d) ∧
    (room max (bytes_allocated_g s) nm → names s' d nm i)).
Proof.
  intros Hx V Hc Hp Hpi Hb Hm. destruct Hpi as (I & HI & Hpos) eqn:E. clear E. destruct (i_look _ _ _ V i I HI).
  unfold dnlc_add. wp_call get_inode_spec; [done|by eexists|]. intros ? ? [-> ?]. simplify_eq.
  apply wp_bind_assert; [unfold is_forgotten; destruct (Z.eqb_spec (lookupcnt I) 0); [lia|done]|].
  wp_call dnlc_cookie_spec; [done..|]. intros [k|] s1 (V1 & F1 & B1 & c1 & Hc1 & Hpost).
  2: { apply wp_ret. destruct Hpost as (-> & id & de & ? & ? & ?). split_and!; [done|done|by eexists|].
       intros _. exists c, id, de. done. }
  destruct Hpost as (Hvk & Hk & Hfree1 & Hfree2 & Hor).
  assert (pinned (hl g) s1 i) as Hpi1 by (eapply frame_pinned; [done|by exists I]).
  wp_call (new_plus_spec g s1 d nm k i); [done..|]. intros id s2 (V2 & F2 & HC2 & Hid & de & Hde & Hck & Hnm & Hino & Hbytes).
  wp_call get_inode_spec; [done|by eapply (i_ptr _ _ _ V2)|]. intros y ? [-> Hy].
  apply wp_bind_assert.
  { pose proof (i_dirc _ _ _ V2 i y Hy). pose proof (nrefs_pos _ _ _ _ Hde Hino). pose proof (occ_nonneg i (hd (plus_e id g))). cmp. }
  assert (frame (hl g) d s s2) as F12 by (by eapply frame_trans).
  wp_call (add_spec (plus_e id g) s2 d c1 id de None max);
    [done|done|by rewrite HC2|by eapply frame_pinned|done|by left|done|by rewrite Hck|done|].
  intros r s3 (V3 & F3 & _ & c3 & Hc3 & Hout).
  unfold set_lookuponly, get_dircache, put_dircache. do 3 apply wp_bind. apply wp_get. cbv beta. eapply wp_deref; [done|]. cbv beta.
  apply wp_modify. cbv beta. set (s4 := set_caches _ s3).
  assert (inv (plus_e id g) s4) as V4.
  { apply (inv_unexempt _ _ d (with_flags true (confirmed_msecs c3) (invalidate_pending c3) c3)); [done| |apply lookup_insert_eq|done].
    eapply inv_flags; [exact V3|done..]. }
  eapply wp_mono; [by apply (shared_reset_spec (dircaches s4) g s4 id)|]. intros _ s5 (V5 & T5 & K5).
  assert (dircaches s5 = dircaches s4) as HC5 by apply T5.
  assert (dircaches s5 !! d = Some (mark_lookuponly true c3)) as Hc5 by (rewrite HC5; apply lookup_insert_eq).
  split_and!; [unfold inv; by rewrite HC5| |by rewrite Hc5|].
  - do 2 (eapply frame_trans; [done|]). eapply frame_trans; [apply frame_put_cache|]. by apply touches_frame.
  - intros Hr2. unfold room in Hr2. set (c2 := purged max c1) in *.
    assert (r = true ∧ c3 = inserted id de None c2) as [-> ->].
    { apply (add_outcome_room _ _ _ _ _ _ _ _ _ Hout); rewrite ?Hnm, ?Hck; try done.
      rewrite Hbytes. unfold get_cache_size in *. rewrite Hnm. simpl in Hr2. lia. }
    assert (is_Some (dirents s5 !! id)) as [de5 Hde5].
    { pose proof (i_cache _ _ _ V5 d (mark_lookuponly true (inserted id de None c2))) as Hok. rewrite <- HC5 in Hok. specialize (Hok Hc5).
      destruct (co_ent _ _ Hok (cookie de) id) as (? & ? & _); [simpl; apply lookup_insert_eq|by eexists]. }
    exists (mark_lookuponly true (inserted id de None c2)), id, de5. split_and!; [done| |done|].
    + rewrite <- Hnm. exact (inserted_entry id de None c2).
    + destruct T5 as (_ & _ & A3 & _). destruct (A3 _ _ Hde5) as (de4 & Hde4 & _ & _ & <-).
      simpl in Hde4. destruct (f_old _ _ _ _ F3 id de4 Hde4) as (de2 & Hde2 & _ & _ & <-); [by eapply live_lt|]. congruence.
Qed.

(** ** Allocation *)
Lemma inv_new_cache g s d I n :
  inv g s → inode_map s !! d = Some I → file_type I = NF3DIR → dircaches s !! d = None →
  inv g (set_caches (insert d (new_dircache n)) s).
Proof.
  intros V HI HT Hc. assert (ents (new_dircache n) = []) as Hents by (unfold ents; simpl; by rewrite map_to_list_empty).
  assert (∀ j c', <[d:=new_dircache n]> (dircaches s) !! j = Some c' → (j = d ∧ c' = new_dircache n) ∨ dircaches s !! j = Some c') as Hinv
    by (intros j c' [[-> <-]|[]]%lookup_insert_Some; auto).
  constructor; simpl; try solve [apply V].
  - intros e de. rewrite uses_fresh by done. rewrite Hents. simpl. rewrite Z.add_0_r. apply (i_use _ _ _ V).
  - intros j c' [[-> ->]|Hj]%Hinv; [|by eapply (i_cache _ _ _ V)]. constructor; simpl; try done.
  - intros j c' [[-> ->]|Hj]%Hinv; [by left|by eapply (i_verf _ _ _ V)].
  - intros j c' [[-> ->]|Hj]%Hinv; [eauto|by eapply (i_dirs _ _ _ V)].
Qed.

Lemma alloc_dircache_spec g s d I now b : inv g s → inode_map s !! d = Some I → file_type I = NF3DIR →
  wp (alloc_dircache now d b) s (λ _ s', inv g s' ∧ frame (hl g) d s s' ∧ inode_map s' = inode_map s ∧ dirents s' = dirents s ∧
    bigcookie s' = bigcookie s ∧ is_Some (dircaches s' !! d) ∧ (∀ c, dircaches s !! d = Some c → s' = s)).
Proof.
  intros V HI HT. unfold alloc_dircache. wp_call get_inode_spec; [done|by eexists|]. intros ? ? [-> ?]. simplify_eq.
  apply wp_bind_assert; [unfold is_dir; by rewrite bool_decide_true|]. apply wp_bind, wp_get. cbv beta.
  destruct (dircaches s !! d) as [c|] eqn:Hc.
  - apply wp_ret. split_and!; try done. apply frame_refl.
  - apply wp_modify. split_and!; try done; [by eapply inv_new_cache|apply frame_put_cache|]. simpl. rewrite lookup_insert_eq. by eexists.
Qed.

(** ** The inode table *)
Lemma find_inode_Some fid hdl m i : find_inode fid hdl m = Some i → ∃ I, m !! i = Some I ∧ fileid I = fid ∧ fh I = hdl.
Proof.
  unfold find_inode. destruct (list_find _ _) as [[n [j J]]|] eqn:Hf; [|done]. intros [= <-].
  apply list_find_Some in Hf as (Hl & Hp & _). apply list_elem_of_lookup_2, elem_of_map_to_list in Hl. eauto.
Qed.

Lemma find_inode_None fid hdl m i I : find_inode fid hdl m = None → m !! i = Some I → ¬ (fileid I = fid ∧ fh I = hdl).
Proof.
  unfold find_inode. destruct (list_find _ _) as [[n [j J]]|] eqn:Hf; [done|]. intros _ HI Hp.
  apply list_find_None in Hf. rewrite Forall_forall in Hf. by apply (Hf (i, I)); [apply elem_of_map_to_list|].
Qed.

Lemma inv_new_inode g s fid hdl ty :
  inv g s → (∀ i I, inode_map s !! i = Some I → ¬ (fileid I = fid ∧ fh I = hdl)) →
  inv (plus_l (next_ino s) g) (set_inodes (insert (next_ino s) (Inode fid hdl ty 1 0 0)) (set_next_ino (S (next_ino s)) s)).
Proof.
  set (i := next_ino s). set (I := Inode fid hdl ty 1 0 0). intros V Hkey.
  assert (inode_map s !! i = None) as Hi by (apply (i_nextino _ _ _ V); lia).
  assert (∀ j J, <[i:=I]> (inode_map s) !! j = Some J → (j = i ∧ J = I) ∨ (j ≠ i ∧ inode_map s !! j = Some J)) as Hinv
    by (intros j J [[-> <-]|[]]%lookup_insert_Some; auto).
  assert (∀ j, is_Some (inode_map s !! j) → is_Some (<[i:=I]> (inode_map s) !! j)) as Hfwd
    by (intros; apply lookup_insert_is_Some'; by right).
  assert (i ∉ hl g) as Hl by (intros Hin; by destruct (i_hl _ _ _ V _ Hin); simplify_eq).
  assert (i ∉ hf g) as Hf by (intros Hin; by destruct (i_hfs _ _ _ V _ Hin); simplify_eq).
  assert (i ∉ hd g) as Hd by (intros Hin; by destruct (i_hd _ _ _ V _ Hin); simplify_eq).
  assert (nrefs i (dirents s) = 0) as Hn.
  { apply Z.le_antisymm; [|apply nrefs_nonneg]. unfold nrefs. rewrite <- (msum_empty (points i)) at 1.
    etrans; [apply (msum_mono (points i) (λ _, 0))|]; [|clear; induction (dirents s) as [|e x m He IH] using map_ind; [done|];
      rewrite msum_insert_fresh by done; lia].
    intros e de He. unfold points. case_decide as Hp; [|done]. destruct (i_ptr _ _ _ V e de i He Hp); simplify_eq. }
  unfold inv. constructor; simpl; try solve [apply V].
  - intros j J [[-> ->]|[Hne HJ]]%Hinv; simpl.
    + rewrite decide_True, !occ_notin by done. lia.
    + rewrite decide_False by done. by apply (i_lookf _ _ _ V).
  - intros j J [[-> ->]|[Hne HJ]]%Hinv; [|by apply (i_dirc _ _ _ V)]. rewrite Hn, occ_notin by done. done.
  - intros e de j He Hj. by apply Hfwd, (i_ptr _ _ _ V e de).
  - intros j [->|Hj]%elem_of_cons; [rewrite lookup_insert_eq; by eexists|]. by apply Hfwd, (i_hl _ _ _ V).
  - intros j Hj. by apply Hfwd, (i_hd _ _ _ V).
  - intros j Hj. by apply Hfwd, (i_hfs _ _ _ V).
  - intros d c Hc. destruct (i_dirs _ _ _ V d c Hc) as (J & HJ & ?). exists J. rewrite lookup_insert_ne; [done|congruence].
  - intros j Hj. rewrite lookup_insert_ne by lia. apply (i_nextino _ _ _ V). lia.
  - intros j k J K [[-> ->]|[Hne HJ]]%Hinv [[-> ->]|[Hne' HK]]%Hinv; simpl; intros H1 H2; try done.
    + by destruct (Hkey k K HK).
    + by destruct (Hkey j J HJ).
    + by eapply (i_key _ _ _ V).
Qed.

(** What [get_nfs_inode()] leaves alone: everything but the inode it returns. *)
Lemma get_nfs_inode_spec g s fid hdl ty :
  inv g s → (∀ i I, inode_map s !! i = Some I → fileid I = fid → fh I = hdl → file_type I = ty) →
  wp (get_nfs_inode fid hdl ty) s (λ i s', inv (plus_l i g) s' ∧ dircaches s' = dircaches s ∧ dirents s' = dirents s ∧
    next_ent s' = next_ent s ∧ bigcookie s' = bigcookie s ∧ (next_ino s ≤ next_ino s')%nat ∧
    (∃ I, inode_map s' !! i = Some I ∧ fileid I = fid ∧ fh I = hdl ∧ file_type I = ty) ∧
    (∀ j J, inode_map s !! j = Some J → ∃ J', inode_map s' !! j = Some J' ∧ same_ino J J') ∧
    (∀ j J', inode_map s' !! j = Some J' → inode_map s !! j = None → j = i ∧ (next_ino s ≤ j)%nat)).
Proof.
  intros V Hty. unfold get_nfs_inode. apply wp_bind, wp_get. cbv beta. destruct (find_inode fid hdl (inode_map s)) as [i|] eqn:Hf.
  - apply find_inode_Some in Hf as (I & HI & Hfid & Hfh). wp_call get_inode_spec; [done|by eexists|]. intros ? ? [-> ?]. simplify_eq.
    pose proof (Hty i I HI eq_refl eq_refl) as HT. apply wp_bind_assert; [by rewrite bool_decide_true|].
    wp_call incref_spec; [done|by eexists|]. intros _ s1 (V1 & T1 & HD1). apply wp_ret.
    destruct T1 as (A1 & A2 & A3 & A4 & A5 & A6 & A7).
    assert (∀ j J, inode_map s !! j = Some J → ∃ J', inode_map s1 !! j = Some J' ∧ same_ino J J') as Hfw.
    { intros j J HJ. destruct (A2 j) as [J' HJ']; [by eexists|]. exists J'. split; [done|]. destruct (A1 j J' HJ') as (? & ? & ?). congruence. }
    split_and!; [unfold inv; by rewrite A4|done|done|done|done|lia| |done|].
    + destruct (Hfw i I HI) as (I' & HI' & Hs1 & Hs2 & Hs3 & _). exists I'. split_and!; congruence.
    + intros j J' HJ' HN. destruct (A1 j J' HJ') as (? & ? & _). congruence.
  - unfold put_inode. apply wp_bind, wp_modify. cbv beta. apply wp_bind, wp_modify. cbv beta. apply wp_ret.
    assert (inode_map s !! next_ino s = None) as Hi by (apply (i_nextino _ _ _ V); lia).
    split_and!; simpl; [|done|done|done|done|lia| | |].
    + apply inv_new_inode; [done|]. intros j J HJ. by eapply find_inode_None.
    + eexists. rewrite lookup_insert_eq. split; [done|]. by simpl.
    + intros j J HJ. exists J. rewrite lookup_insert_ne; [done|congruence].
    + intros j J' [[-> <-]|[? HJ]]%lookup_insert_Some HN; [done|congruence].
Qed.

(** ** Deferred purges *)
Lemma clear_if_needed_spec g s d c : hx g = None → inv g s → dircaches s !! d = Some c → pinned (hl g) s d →
  wp (clear_if_needed d) s (λ _ s', inv g s' ∧ frame (hl g) d s s' ∧
    dircaches s' !! d = Some (if invalidate_pending c || lookuponly c then cleared (with_flags (lookuponly c) (confirmed_msecs c) false c)
                              else with_flags (lookuponly c) (confirmed_msecs c) false c)).
Proof.
  intros Hx V Hc Hp. unfold clear_if_needed, get_dircache, put_dircache. do 2 apply wp_bind. apply wp_get. cbv beta.
  eapply wp_deref; [done|]. cbv beta. apply wp_bind, wp_modify. cbv beta.
  set (c1 := with_flags (lookuponly c) (confirmed_msecs c) false c). set (s1 := set_caches (insert d c1) s).
  assert (inv g s1) as V1 by (eapply inv_flags; try done; exact (i_verf _ _ _ V d c Hc)).
  assert (dircaches s1 !! d = Some c1) as Hc1 by apply lookup_insert_eq.
  assert (frame (hl g) d s s1) as F1 by apply frame_put_cache.
  assert (wp (clear d) s1 (λ _ s', inv g s' ∧ frame (hl g) d s s' ∧ dircaches s' !! d = Some (cleared c1))) as Hcl.
  { eapply wp_mono; [eapply clear_spec; try done; by eapply frame_pinned|]. intros _ s2 (V2 & S2 & Hc2).
    split_and!; [done|by eapply frame_trans, shrinks_frame|done]. }
  destruct (invalidate_pending c); [done|]. destruct (lookuponly c) eqn:Hl; [done|]. by apply wp_ret.
Qed.
