(* ===== verification/DirEnum.v ===== *)
(** * Directory enumeration and the handlers that move inode references

    [nfs_inode::lookup_dircache()] ([turbonfs/src/nfs_inode.cpp]), the READDIR and
    READDIRPLUS callbacks and [send_readdir_or_readdirplus_response()]
    ([turbonfs/src/rpc_task.cpp]), and [nfs_client::readdir()], [readdirplus()], their retry
    after a jukebox error, and [reply_entry()] ([turbonfs/src/nfs_client.cpp]).

    - [fuse_size plus name] is the size libfuse needs for one entry of the reply buffer
      ([fuse_add_direntry()], [fuse_add_direntry_plus()]).
    - [max_cache] is the configured limit of the directory caches in bytes, [now] is
      [get_current_msecs()], [actimeo] the attribute cache timeout in seconds.
    - [changed]: what [revalidate()] or the post-op attributes say about the directory; the
      attribute cache itself is left out.
    - The assertions under [ENABLE_PARANOID], the pressure points and the failures of the
      fuse reply functions (which end in [assert(0)]) are left out. *)
From stdpp Require Import strings sorting.
From S2P Require Import Prelude DirCache.

Section enumeration.
Context (fuse_size : bool → string → Z) (max_cache : Z).

Definition is_dot_or_dotdot (nm : string) : bool := String.eqb nm "." || String.eqb nm "..".

(** ** Enumeration from the cache *)

(** A reference on the inode of an entry that goes to fuse, in place of the reference of
    [lookup()]. *)
Definition hand_over (i : nat) : MD () :=
  do_ incref i;
  do_ add_forget_expected i 1;
  do x ← get_inode i;
  do_ massert (forget_expected x <=? lookupcnt x);
  do_ massert (2 <=? dircachecnt x);
  add_dircachecnt i (-1).

(** The entry does not fit: the references of [lookup()] are dropped. *)
Definition put_back (id : nat) (i : nat) : MD () :=
  do_ incref i;
  do x ← get_inode i;
  do_ massert (2 <=? dircachecnt x);
  do_ add_dircachecnt i (-1);
  do_ shared_reset id;
  decref i.

(** Entries a READDIR left are not usable for READDIRPLUS. *)
Definition usable (plus : bool) (r : option nat) : MD (option nat) :=
  match r with
  | Some id =>
      do e ← get_dirent id;
      if plus && negb (is_some (de_inode e)) then do_ shared_reset id; mret None else mret (Some id)
  | None => mret None
  end.

(** [while (rem_size > 0)]; every entry takes at least one byte, so the buffer size is
    enough fuel. *)
Fixpoint dircache_loop (fuel : nat) (d : nat) (plus seen : bool) (k rem : Z) (is_eof : bool) : MD (list nat * bool) :=
  if 0 <? rem then
    match fuel with
    | O => do_ massert false; mret ([], is_eof)
    | S fuel' =>
        do r0 ← lookup d k None;
        do r ← usable plus r0;
        do c ← get_dircache d;
        match r with
        | Some id =>
            do e ← get_dirent id;
            let rem' := rem - fuse_size plus (name e) in
            if 0 <=? rem' then
              do_ (match de_inode e with Some i => hand_over i | None => mret () end);
              let is_eof' := if seen && (cookie e =? eof_cookie c) then true else is_eof in
              do x ← dircache_loop fuel' d plus seen (k + 1) rem' is_eof';
              mret (id :: x.1, x.2)
            else
              do_ (match de_inode e with Some i => put_back id i | None => shared_reset id end);
              mret ([], is_eof)
        | None => mret ([], if seen && (eof_cookie c <=? k) then true else is_eof)
        end
    end
  else mret ([], is_eof).

Definition lookup_dircache (d : nat) (k max_size : Z) (plus : bool) : MD (list nat * bool) :=
  do_ massert ((0 <? max_size) && (max_size <=? 64 * 1024 * 1024));
  do_ massert (k <? UINT32_MAX);
  do_ clear_if_needed d;
  do c ← get_dircache d;
  dircache_loop (Z.to_nat max_size) d plus (eof c) k max_size false.

(** ** The reply to fuse *)

(** [forget_expected--; decref();] and the assertion after it. *)
Definition drop_fuse_ref (i : nat) : MD () :=
  do_ add_forget_expected i (-1);
  do_ decref i;
  do x ← get_inode i;
  massert (forget_expected x <=? lookupcnt x).

(** The entries put into the reply, and the ones that found no room. *)
Fixpoint send_loop (plus : bool) (offset rem : Z) (v : list nat) : MD (list nat * list nat) :=
  match v with
  | [] => mret ([], [])
  | id :: v' =>
      do e ← get_dirent id;
      do_ massert (offset <? cookie e);
      do_ (if plus then
             do i ← mderef (de_inode e);
             do x ← get_inode i;
             do_ massert (0 <? lookupcnt x);
             massert (0 <? forget_expected x)
           else mret ());
      if rem <? fuse_size plus (name e) then mret ([], v)
      else
        do_ (match de_inode e with
             | Some i =>
                 if plus then (if is_dot_or_dotdot (name e) then drop_fuse_ref i else mret ())
                 else do x ← get_inode i; do_ massert (0 <? forget_expected x); drop_fuse_ref i
             | None => mret ()
             end);
        do x ← send_loop plus offset (rem - fuse_size plus (name e)) v';
        mret (id :: x.1, x.2)
  end.

(** The references of an entry that was not sent. *)
Definition unsent (plus : bool) (id : nat) : MD () :=
  do e ← get_dirent id;
  match de_inode e with
  | Some i => do x ← get_inode i; do_ massert (0 <? forget_expected x); drop_fuse_ref i
  | None => massert (negb plus)
  end.

(** What fuse received: the cookies and names of the entries, and the inodes on which it
    now holds a reference. *)
Record received := Received { r_entries : list (Z * string); r_refs : list nat }.

Definition label (s : client) (id : nat) : option (Z * string) := (λ e, (cookie e, name e)) <$> dirents s !! id.

Definition gift (s : client) (plus : bool) (id : nat) : option nat :=
  match dirents s !! id with
  | Some e => if plus && negb (is_dot_or_dotdot (name e)) then de_inode e else None
  | None => None
  end.

(** [send_readdir_or_readdirplus_response()], and the end of the vector's life. *)
Definition send_response (d : nat) (plus : bool) (offset size : Z) (v : list nat) : MD received :=
  do_ massert (4096 <=? size);
  do c ← get_dircache d;
  do_ massert (bool_decide (v = []) || negb (cookie_verifier c =? 0));
  do x ← send_loop plus offset size v;
  do_ mfor x.2 (unsent plus);
  do s ← mget;
  let sent := Received (omap (label s) x.1) (omap (gift s plus) x.1) in
  do_ mfor v shared_reset;
  mret sent.

(** [get_readdir_entries_from_cache()]: the reply, or [None] when the server is asked. *)
Definition readdir_from_cache (d : nat) (plus : bool) (offset size : Z) : MD (option received) :=
  do x ← lookup_dircache d (offset + 1) size plus;
  if bool_decide (x.1 = []) && negb x.2 then mret None
  else do sent ← send_response d plus offset size x.1; mret (Some sent).

(** ** The READDIR and READDIRPLUS callbacks *)
Record entry3 := Entry3 { e_cookie : Z; e_name : string; e_fileid : Z; e_fh : Z; e_type : ftype }.

Record request := Request { rq_offset : Z; rq_size : Z; rq_target : Z; rq_verf : Z }.

(** [fetch_readdir_entries_from_server()] and [fetch_readdirplus_entries_from_server()]: the
    arguments of the request. *)
Definition fetch_request (d : nat) (offset size target : Z) : MD request :=
  do c ← get_dircache d;
  let verf := if offset =? 0 then 0 else cookie_verifier c in
  do_ massert (negb (offset =? 0) || (verf =? 0));
  do_ massert ((offset =? 0) || negb (verf =? 0));
  mret (Request offset size target verf).

(** What a readdir call of fuse leads to: a reply, or a request to the server. *)
Inductive readdir_step :=
  | FromCache (r : received)
  | ToServer (rq : request).

(** [get_readdir_entries_from_cache()] as [run_readdir()] and [run_readdirplus()] call it. *)
Definition get_readdir_entries (d : nat) (plus : bool) (offset size target : Z) : MD readdir_step :=
  do r ← readdir_from_cache d plus offset size;
  match r with
  | Some sent => mret (FromCache sent)
  | None => do rq ← fetch_request d offset size target; mret (ToServer rq)
  end.

(** [nfs_client::readdir()] and [nfs_client::readdirplus()], which fix the target offset to 0.
    [changed]: the attributes that [revalidate()] asked for show a change. *)
Definition readdir (d : nat) (plus : bool) (offset size : Z) (changed : bool) : MD readdir_step :=
  do_ (if changed then invalidate d else mret ());
  get_readdir_entries d plus offset size 0.

(** [jukebox_runner()] on a READDIR or READDIRPLUS that was answered with a jukebox error: the
    call is made anew with the inode, the size and the offset of the task. *)
Definition jukebox_readdir (d : nat) (plus : bool) (rq : request) (changed : bool) : MD readdir_step :=
  readdir d plus (rq_offset rq) (rq_size rq) changed.

(** [changed]: the post-op attributes of the directory show a change. *)
Inductive response :=
  | R_ok (entries : list entry3) (reof : bool) (verf : Z) (changed : bool)
  | R_jukebox
  | R_bad_cookie
  | R_error.

Inductive outcome :=
  | Sent (r : received)
  | Again (offset target : Z)
  | Jukebox
  | Error.

(** The variables of the loop over the received entries. *)
Record cb := CB { last_valid_offset : Z; cb_eof_cookie : Z; num_dirents : Z; rem_size : Z; got_new_entry : bool; vec : list nat }.

(** An entry cached under the cookie is removed first. *)
Definition remove_old (d : nat) (k : Z) : MD () :=
  do r ← lookup d k None;
  match r with
  | Some id =>
      do e ← get_dirent id;
      do_ massert (cookie e =? k);
      do_ (match de_inode e with Some j => drop_lookup id j | None => shared_reset id end);
      do_ remove d k None;
      mret ()
  | None => mret ()
  end.

(** The inode of a READDIRPLUS entry, with the reference that may go to fuse. *)
Definition entry_inode (plus : bool) (e3 : entry3) : MD (option nat) :=
  if plus then
    do i ← get_nfs_inode (e_fileid e3) (e_fh e3) (e_type e3);
    do_ add_forget_expected i 1;
    mret (Some i)
  else mret None.

Definition entry_new (e3 : entry3) (oi : option nat) : MD nat :=
  match oi with
  | Some i =>
      do id ← directory_entry_new_plus (e_name e3) (e_cookie e3) i;
      do x ← get_inode i;
      do_ massert (1 <=? dircachecnt x);
      mret id
  | None => directory_entry_new (e_name e3) (e_cookie e3) (e_fileid e3)
  end.

(** The entry is not sent: its references are dropped. *)
Definition skip_entry (id : nat) (oi : option nat) : MD () :=
  match oi with
  | Some i =>
      do x ← get_inode i;
      do_ massert (0 <? forget_expected x);
      do_ add_forget_expected i (-1);
      do_ shared_reset id;
      do_ decref i;
      do y ← get_inode i;
      massert (forget_expected y <=? lookupcnt y)
  | None => shared_reset id
  end.

(** The entry is made and entered into the cache. *)
Definition enter (d : nat) (plus : bool) (verf : Z) (e3 : entry3) : MD (option nat * nat) :=
  do oi ← entry_inode plus e3;
  do_ remove_old d (e_cookie e3);
  do id ← entry_new e3 oi;
  do_ add max_cache d id (Some verf);
  mret (oi, id).

(** One entry received. *)
Definition cb_entry (d : nat) (plus : bool) (target verf : Z) (reof : bool) (e3 : entry3) (x : cb) : MD cb :=
  do_ massert (last_valid_offset x <? e_cookie e3);
  do p ← enter d plus verf e3;
  let oi := p.1 in
  let id := p.2 in
  let got := target <=? e_cookie e3 in
  do_ massert (got || negb (target =? 0));
  let rem := if got && (0 <=? rem_size x) then rem_size x - fuse_size plus (e_name e3) else rem_size x in
  let eofck := if reof then e_cookie e3 else cb_eof_cookie x in
  if got && (0 <=? rem_size x) && (0 <=? rem) then
    do_ (match oi with
         | Some i => do y ← get_inode i; do_ massert (0 <? forget_expected y); massert (0 <? lookupcnt y)
         | None => mret ()
         end);
    mret (CB (e_cookie e3) eofck (num_dirents x + 1) rem got (vec x ++ [id]))
  else
    do_ skip_entry id oi;
    mret (CB (e_cookie e3) eofck (num_dirents x + 1) rem got (vec x)).

Fixpoint cb_loop (d : nat) (plus : bool) (target verf : Z) (reof : bool) (es : list entry3) (x : cb) : MD cb :=
  match es with
  | [] => mret x
  | e3 :: es' => do x' ← cb_entry d plus target verf reof e3 x; cb_loop d plus target verf reof es' x'
  end.

(** What the callback does with the end of the directory. *)
Definition cb_eof (now : Z) (d : nat) (plus cookie_gap : bool) (x : cb) : MD () :=
  do_ massert (negb (cb_eof_cookie x =? -1) || bool_decide (vec x = []));
  if negb (cb_eof_cookie x =? -1) then
    do_ massert (0 <? num_dirents x); set_eof now d (cb_eof_cookie x)
  else if negb cookie_gap then
    do_ massert (plus || (num_dirents x =? 0));
    do c ← get_dircache d;
    if negb (eof c) then invalidate d else massert (negb (i64 (eof_cookie c) =? -1))
  else mret ().

(** The next request of a re-enumeration. *)
Definition again (rq : request) (got reof : bool) (last target : Z) : MD outcome :=
  do_ massert (negb got);
  do_ massert (negb (rq_target rq =? 0) || (last =? 0));
  do_ massert (last <? target);
  do_ massert (negb reof);
  mret (Again last target).

Definition readdir_callback (now : Z) (d : nat) (plus : bool) (rq : request) (rs : response) : MD outcome :=
  do c ← get_dircache d;
  let cookie_gap := seq_last_cookie c <? rq_offset rq in
  match rs with
  | R_ok es reof verf changed =>
      do_ (if rq_verf rq =? 0 then mret () else massert (verf =? rq_verf rq));
      do_ (if changed then invalidate d else mret ());
      do x ← cb_loop d plus (rq_target rq) verf reof es (CB (rq_offset rq) (-1) 0 (rq_size rq) false []);
      do_ massert (Z.of_nat (length (vec x)) <=? num_dirents x);
      do_ (if reof then cb_eof now d plus cookie_gap x else mret ());
      if got_new_entry x || reof then
        do sent ← send_response d plus (rq_offset rq) (rq_size rq) (vec x); mret (Sent sent)
      else do_ mfor (vec x) shared_reset; again rq (got_new_entry x) reof (last_valid_offset x) (rq_target rq)
  | R_jukebox => mret Jukebox
  | R_bad_cookie =>
      do_ invalidate d;
      again rq false false 0 (Z.max (rq_offset rq + 1) (rq_target rq))
  | R_error => mret Error
  end.

(** ** Lookup replies, cached lookups, removals *)

(** [nfs_client::reply_entry()] with a filehandle, and [rpc_task::reply_entry()]. *)
Definition reply_entry (now : Z) (d : nat) (nm : string) (fid hdl : Z) (ty : ftype) (mkdir : bool) : MD nat :=
  do i ← get_nfs_inode fid hdl ty;
  do_ (if bool_decide (ty = NF3DIR) then alloc_dircache now i mkdir else mret ());
  do_ alloc_dircache now d false;
  do_ dnlc_add max_cache d nm i;
  do x ← get_inode i;
  do_ massert (1 <=? lookupcnt x);
  do_ add_forget_expected i 1;
  do y ← get_inode i;
  do_ massert (forget_expected y <=? lookupcnt y);
  mret i.

(** [rpc_task::run_lookup()], with the attribute cache enabled: the inode sent to fuse, or
    [None] when the server is asked.  A name known not to exist is answered by the client
    only for [get_proxy_op_type() == FUSE_LOOKUP], which no task sets. *)
Definition run_lookup (now actimeo : Z) (d : nat) (nm : string) : MD (option nat) :=
  do s ← mget;
  match dircaches s !! d with
  | None => mret None
  | Some _ =>
      do r ← dnlc_lookup now actimeo d nm;
      match r.1 with
      | Some i =>
          do x ← get_inode i;
          do j ← reply_entry now d nm (fileid x) (fh x) (file_type x) false;
          do_ decref i;
          mret (Some j)
      | None => mret None
      end
  end.

(** The name is removed from the cache ([unlink], [rmdir] and [rename]). *)
Definition remove_name (d : nat) (nm : string) : MD () :=
  do s ← mget;
  match dircaches s !! d with
  | None => mret ()
  | Some _ => do_ dnlc_remove d nm; mret ()
  end.
End enumeration.
