(* ===== verification/DirEnumInv.v ===== *)
(** * Enumeration keeps the reference counts

    The reply path: entries collected from the cache, references handed over to fuse and
    taken back.  References that fuse will give back are counted in [hf] while the entry
    they belong to waits for the reply. *)
From stdpp Require Import strings sorting.
From S2P Require Import Prelude DirCache DirInv DirRefs DirOps DirNames DirEnum.

(** The directory an operation works on is referenced, by the client or by fuse. *)
Definition anchored (g : held) (d : nat) : Prop := d ∈ hl g ∨ d ∈ hf g.

Lemma anchored_pinned g s d : inv g s → anchored g d → pinned (hl g) s d.
Proof.
  intros V [Hl|Hf].
  - destruct (i_hl _ _ _ V d Hl) as [I HI]. exists I. split; [done|]. destruct (i_look _ _ _ V d I HI). apply occ_pos in Hl. lia.
  - destruct (i_hf _ _ _ V d Hf) as (I & HI & Hle). exists I. split; [done|]. apply occ_pos in Hf. pose proof (occ_nonneg d (hl g)). lia.
Qed.

(** Every inode has the type the server gives its file. *)
Section enumeration.
Context (typ : Z → Z → ftype).

Definition typed (s : client) : Prop := ∀ i I, inode_map s !! i = Some I → file_type I = typ (fileid I) (fh I).

(** The inode is one of a file that had an inode before. *)
Definition same_file (I J : nfs_inode) : Prop := fileid I = fileid J ∧ fh I = fh J ∧ file_type I = file_type J.

(** Entries keep their cookie, name and inode, inodes their file; an address is not used
    again. *)
Record evo (s s' : client) : Prop := {
  ev_ent e de' : dirents s' !! e = Some de' → (e < next_ent s)%nat → ∃ de, dirents s !! e = Some de ∧ same_ent de de';
  ev_next : (next_ent s ≤ next_ent s')%nat ∧ (next_ino s ≤ next_ino s')%nat;
  ev_ino i I' : inode_map s' !! i = Some I' → (i < next_ino s)%nat → ∃ I, inode_map s !! i = Some I ∧ same_file I I';
  ev_typ : typed s → typed s';
}.

Lemma evo_refl s : evo s s.
Proof. constructor; eauto. intros i I HI _. by exists I. Qed.

Lemma evo_trans s1 s2 s3 : evo s1 s2 → evo s2 s3 → evo s1 s3.
Proof.
  intros [A1 A2 A3 A4] [B1 B2 B3 B4]. constructor; [|lia| |auto].
  - intros e d3 H3 Hlt. destruct (B1 e d3 H3) as (d2 & H2 & ?); [lia|]. destruct (A1 e d2 H2) as (d1 & H1 & ?); [done|].
    exists d1. split; [done|]. unfold same_ent in *. intuition congruence.
  - intros e d3 H3 Hlt. destruct (B3 e d3 H3) as (d2 & H2 & ?); [lia|]. destruct (A3 e d2 H2) as (d1 & H1 & ?); [done|].
    exists d1. split; [done|]. unfold same_file in *. intuition congruence.
Qed.

Lemma evo_files s s' :
  (∀ e de', dirents s' !! e = Some de' → (e < next_ent s)%nat → ∃ de, dirents s !! e = Some de ∧ same_ent de de') →
  (next_ent s ≤ next_ent s')%nat → next_ino s' = next_ino s →
  (∀ j J', inode_map s' !! j = Some J' → ∃ J, inode_map s !! j = Some J ∧ same_file J J') → evo s s'.
Proof.
  intros H1 H2 H3 H4. constructor; [done|lia|intros; by apply H4|]. intros HT i I' HI'.
  destruct (H4 i I' HI') as (I & HI & <- & <- & <-). by apply (HT i).
Qed.

Lemma frame_evo l d s s' : frame l d s s' → evo s s'.
Proof.
  intros F. apply evo_files; [apply F|apply F|apply F|]. intros j J' HJ'.
  destruct (f_ino _ _ _ _ F j J' HJ') as (J & ? & ? & ? & ? & ?). exists J. done.
Qed.

Lemma touches_evo s s' : touches s s' → evo s s'.
Proof. intros T. by apply (frame_evo [] 0%nat), touches_frame. Qed.

Lemma shrinks_evo l x s s' : shrinks l x s s' → evo s s'.
Proof.
  intros Sh. destruct (sh_next _ _ _ _ Sh) as (? & ? & _). apply evo_files; [|lia|done|].
  - intros e de' He _. by apply (sh_ent _ _ _ _ Sh).
  - intros j J' HJ'. destruct (sh_ino _ _ _ _ Sh j J' HJ') as (J & ? & ? & ? & ? & ?). exists J. done.
Qed.

Lemma counts_evo s i I l d f : inode_map s !! i = Some I → evo s (set_inodes (insert i (with_counts l d f I)) s).
Proof.
  intros HI. apply evo_files; simpl; eauto. intros j J' [[-> <-]|[? ?]]%lookup_insert_Some; [by exists I|by exists J'].
Qed.

(** An inode that is alive in both states is the same file. *)
Lemma evo_file g s s' i I I' : inv g s → evo s s' → inode_map s !! i = Some I → inode_map s' !! i = Some I' → same_file I I'.
Proof.
  intros V E HI HI'. destruct (ev_ino _ _ E i I' HI') as (J & HJ & ?); [|congruence].
  destruct (decide (i < next_ino s)%nat); [done|]. rewrite (i_nextino _ _ _ V i) in HI by lia. done.
Qed.

(** ** References move between the client and fuse *)
Lemma forget_up g s i : inv (plus_l i g) s →
  wp (add_forget_expected i 1) s (λ _ s', inv (plus_f i g) s' ∧ evo s s' ∧ dircaches s' = dircaches s ∧ dirents s' = dirents s ∧ bigcookie s' = bigcookie s ∧ next_ent s' = next_ent s).
Proof.
  intros V. destruct (i_hl _ _ _ V i) as [I HI]; [by left|]. destruct (i_lookf _ _ _ V i I HI) as [Hl Hf]. simpl in Hl, Hf.
  rewrite decide_True in Hl by done.
  unfold add_forget_expected, get_inode, put_inode. do 2 apply wp_bind. apply wp_get. cbv beta. eapply wp_deref; [done|]. cbv beta.
  apply wp_modify. split_and!; [|by apply counts_evo|done..].
  eapply inv_counts; [exact V|done| | | |done|done| |]; simpl.
  - lia.
  - by apply (i_dirc _ _ _ V).
  - intros j Hj. rewrite decide_False by done. split; lia.
  - rewrite decide_True by done. lia.
  - intros j Hj. rewrite decide_False by done. lia.
Qed.

Lemma forget_down g s i : inv (plus_f i g) s →
  wp (add_forget_expected i (-1)) s (λ _ s', inv (plus_l i g) s' ∧ evo s s' ∧ dircaches s' = dircaches s ∧ dirents s' = dirents s ∧ next_ent s' = next_ent s).
Proof.
  intros V. destruct (i_hfs _ _ _ V i) as [I HI]; [by left|].
  destruct (i_lookf _ _ _ V i I HI) as [Hl Hf]. simpl in Hl, Hf. rewrite decide_True in Hf by done.
  unfold add_forget_expected, get_inode, put_inode. do 2 apply wp_bind. apply wp_get. cbv beta. eapply wp_deref; [done|]. cbv beta.
  apply wp_modify. split_and!; [|by apply counts_evo|done..].
  eapply inv_counts; [exact V|done| | | |done|done| |]; simpl.
  - rewrite decide_True by done. lia.
  - by apply (i_dirc _ _ _ V).
  - intros j Hj. rewrite decide_False by done. split; lia.
  - lia.
  - intros j Hj. rewrite decide_False by done. lia.
Qed.

(** An inode a live entry points to. *)
Definition ptr (s : client) (id : nat) (o : option nat) : Prop := ∃ de, dirents s !! id = Some de ∧ de_inode de = o.

Lemma evo_ptr g g' s s' id o : inv g s → inv g' s' → evo s s' → id ∈ he g' → ptr s id o → ptr s' id o.
Proof.
  intros V V' E Hin (de & Hde & <-). destruct (i_he _ _ _ V' id Hin) as [de' Hde'].
  destruct (ev_ent _ _ E id de' Hde') as (de0 & Hde0 & _ & _ & Heq); [by eapply live_lt|].
  exists de'. split; [done|]. congruence.
Qed.

Lemma hand_over_spec g s id i : inv (plus_d i g) s → ptr s id (Some i) →
  wp (hand_over i) s (λ _ s', inv (plus_f i g) s' ∧ evo s s' ∧ dircaches s' = dircaches s ∧ dirents s' = dirents s).
Proof.
  intros V (de & Hde & Hi). unfold hand_over. wp_call incref_spec; [done|by eapply (i_ptr _ _ _ V)|]. intros _ s1 (V1 & T1 & HD1).
  assert (dircaches s1 = dircaches s) as HC1 by apply T1.
  wp_call (forget_up (plus_d i g)); [unfold inv; by rewrite HC1|]. intros _ s2 (V2 & E2 & HC2 & HD2 & _).
  destruct (i_hf _ _ _ V2 i) as (x & Hx & Hle); [by left|]. wp_call get_inode_spec; [done|by eexists|]. intros ? ? [-> ?]. simplify_eq.
  destruct (i_look _ _ _ V2 i x Hx) as [Hl ?]. pose proof (occ_nonneg i (hl (plus_f i (plus_d i g)))).
  apply wp_bind_assert; [cmp|]. apply wp_bind_assert.
  { pose proof (i_dirc _ _ _ V2 i x Hx) as Hd. simpl in Hd. rewrite decide_True in Hd by done. rewrite HD2, HD1 in Hd.
    pose proof (nrefs_pos _ _ _ _ Hde Hi). pose proof (occ_nonneg i (hd g)). cmp. }
  eapply wp_mono; [apply (dircachecnt_down (dircaches s2) (plus_f i g)); revert V2; by apply inv_perm|]. intros _ s3 (V3 & T3 & HD3).
  assert (dircaches s3 = dircaches s2) as HC3 by apply T3.
  split_and!; [unfold inv; by rewrite HC3| |congruence|congruence].
  eapply evo_trans; [by apply touches_evo|]. eapply evo_trans; [done|by apply touches_evo].
Qed.

Lemma put_back_spec g s id i : hx g = None → inv (plus_e id (plus_d i g)) s → ptr s id (Some i) →
  wp (put_back id i) s (λ _ s', inv g s' ∧ shrinks (hl g) None s s').
Proof.
  intros Hx V (de & Hde & Hi). unfold put_back. wp_call incref_spec; [done|by eapply (i_ptr _ _ _ V)|]. intros _ s1 (V1 & T1 & HD1).
  wp_call get_inode_spec; [done|apply (i_hl _ _ _ V1); by left|]. intros x ? [-> Hxi].
  apply wp_bind_assert.
  { pose proof (i_dirc _ _ _ V1 i x Hxi) as Hd. simpl in Hd. rewrite decide_True in Hd by done. rewrite HD1 in Hd.
    pose proof (nrefs_pos _ _ _ _ Hde Hi). pose proof (occ_nonneg i (hd g)). cmp. }
  wp_call (dircachecnt_down (dircaches s) (plus_e id (plus_l i g))); [revert V1; by apply inv_perm|]. intros _ s2 (V2 & T2 & HD2).
  wp_call shared_reset_spec; [done|]. intros _ s3 (V3 & T3 & _).
  assert (touches s s3) as T by (do 2 (eapply touches_trans; [done|]); done).
  assert (dircaches s3 = dircaches s) as HC3 by apply T.
  eapply wp_mono; [apply (decref_spec g); [done|unfold inv; by rewrite HC3]|]. intros _ s4 [V4 S4]. split; [done|].
  eapply shrinks_trans; [by apply touches_shrinks|done].
Qed.

(** [forget_expected--; decref()] of an entry that is still in use. *)
Lemma drop_fuse_ref_spec g s id i : hx g = None → inv (plus_f i g) s → id ∈ he g → ptr s id (Some i) →
  wp (drop_fuse_ref i) s (λ _ s', inv g s' ∧ evo s s' ∧ (∀ d, anchored g d → dircaches s' !! d = dircaches s !! d)).
Proof.
  intros Hx V Hin Hp. unfold drop_fuse_ref. wp_call forget_down; [done|]. intros _ s1 (V1 & E1 & HC1 & HD1 & _).
  wp_call (decref_spec g); [done|done|]. intros _ s2 [V2 S2].
  assert (evo s s2) as E by (by eapply evo_trans, shrinks_evo).
  destruct (evo_ptr _ _ _ _ _ _ V V2 E Hin Hp) as (de & Hde & Hi).
  wp_call get_inode_spec; [done|by eapply (i_ptr _ _ _ V2)|]. intros x ? [-> Hxi].
  apply wp_assert. { destruct (i_look _ _ _ V2 i x Hxi). pose proof (occ_nonneg i (hl g)). cmp. }
  split_and!; [done|done|]. intros d Hd. rewrite <- HC1. apply (sh_pin _ _ _ _ S2); [|done].
  destruct (anchored_pinned (plus_l i g) s1 d V1) as (J & HJ & Hpos).
  { destruct Hd; [left; by right|by right]. }
  exists J. split; [done|]. simpl in Hpos. case_decide; [|lia]. subst d.
  destruct Hd as [Hd|Hd].
  - apply occ_pos in Hd. destruct (i_look _ _ _ V1 i J HJ). lia.
  - destruct (i_hf _ _ _ V1 i Hd) as (J' & HJ' & Hle). simplify_eq. apply occ_pos in Hd. simpl in Hle. pose proof (occ_nonneg i (hl g)). lia.
Qed.

(** ** The reply *)
Context (fuse_size : bool → string → Z) (fuse_pos : ∀ p n, 0 < fuse_size p n).

Lemma anchored_more_f l g d : anchored g d → anchored (more_f l g) d.
Proof. intros [H|H]; [by left|]. right. simpl. apply elem_of_app. by right. Qed.

(** The size of the reply for a list of entries. *)
Definition wsize (s : client) (plus : bool) (v : list nat) : Z :=
  foldr (λ id (n : Z), match dirents s !! id with Some e => fuse_size plus (name e) | None => 0 end + n) 0 v.

Lemma wsize_evo g g' s s' plus v : inv g s → inv g' s' → evo s s' → (∀ id, id ∈ v → id ∈ he g') → (∀ id, id ∈ v → is_Some (dirents s !! id)) →
  wsize s' plus v = wsize s plus v.
Proof.
  intros V V' E. induction v as [|id v IH]; intros Hin Hs; [done|]. simpl.
  rewrite IH by (intros; first [apply Hin|apply Hs]; by right). f_equal.
  destruct (i_he _ _ _ V' id) as [de' Hde']; [apply Hin; by left|]. destruct (Hs id) as [de Hde]; [by left|].
  destruct (ev_ent _ _ E id de' Hde') as (de0 & Hde0 & _ & Hn & _); [by eapply live_lt|]. rewrite Hde', Hde. congruence.
Qed.

Lemma wsize_nonneg s plus v : 0 ≤ wsize s plus v.
Proof. induction v as [|id v IH]; simpl; [done|]. destruct (dirents s !! id) as [e|]; [pose proof (fuse_pos plus (name e))|]; lia. Qed.

Lemma ptrs_evo g g' s s' v os : inv g s → inv g' s' → evo s s' → (∀ id, id ∈ v → id ∈ he g') → Forall2 (ptr s) v os → Forall2 (ptr s') v os.
Proof.
  intros V V' E Hin HF. induction HF as [|id o v os Hp HF IH]; [constructor|]. constructor.
  - apply (evo_ptr g g' s s'); [done|done|done| |done]. apply Hin. by left.
  - apply IH. intros. apply Hin. by right.
Qed.

(** Entries that stay in use keep their cookie. *)
Lemma cookies_evo g s s' (P : Z → Prop) (v : list nat) : inv g s → evo s s' → (∀ id, id ∈ v → is_Some (dirents s !! id)) →
  (∀ id de, id ∈ v → dirents s !! id = Some de → P (cookie de)) → ∀ id de, id ∈ v → dirents s' !! id = Some de → P (cookie de).
Proof.
  intros V E Hs HP id de Hid Hde. destruct (Hs id Hid) as [de0 Hde0].
  destruct (ev_ent _ _ E id de Hde) as (de1 & Hde1 & <- & _); [by eapply live_lt|]. by eapply HP.
Qed.

(** What happens to the reference of an entry put into the reply: fuse takes it, except for
    READDIR and for "." and "..". *)
Lemma send_drop_spec (plus : bool) id de g s :
  hx g = None → id ∈ he g → dirents s !! id = Some de → inv (match de_inode de with Some i => plus_f i g | None => g end) s →
  wp (match de_inode de with
      | Some i =>
          if plus then (if is_dot_or_dotdot (name de) then drop_fuse_ref i else mret ())
          else do x ← get_inode i; do_ massert (0 <? forget_expected x); drop_fuse_ref i
      | None => mret ()
      end) s (λ _ s', inv (more_f (option_list (gift s plus id)) g) s' ∧ evo s s' ∧
                (∀ d, anchored g d → dircaches s' !! d = dircaches s !! d)).
Proof.
  intros Hx Hin Hde V. unfold gift. rewrite Hde.
  assert (∀ l, inv (more_f l g) s → wp (mret ()) s (λ (_ : ()) s', inv (more_f l g) s' ∧ evo s s' ∧
    (∀ d, anchored g d → dircaches s' !! d = dircaches s !! d))) as Hnop.
  { intros l V0. apply wp_ret. split_and!; [done|apply evo_refl|done]. }
  destruct (de_inode de) as [i|] eqn:Hi.
  2: { destruct (plus && _); apply (Hnop []); by destruct g. }
  assert (wp (drop_fuse_ref i) s (λ _ s', inv (more_f [] g) s' ∧ evo s s' ∧ (∀ d, anchored g d → dircaches s' !! d = dircaches s !! d))) as Hdrop.
  { eapply wp_mono; [apply (drop_fuse_ref_spec g s id i); [done|done|done|by exists de]|]. intros _ s' (V' & ? & ?).
    split_and!; [by destruct g|done|done]. }
  destruct plus; simpl.
  - destruct (is_dot_or_dotdot (name de)); simpl; [done|]. by apply (Hnop [i]).
  - destruct (i_hf _ _ _ V i) as (x & Hxi & Hle); [by left|]. simpl in Hle. rewrite decide_True in Hle by done.
    pose proof (occ_nonneg i (hf g)).
    wp_call get_inode_spec; [done|by eexists|]. intros ? ? [-> ?]. simplify_eq. apply wp_bind_assert; [cmp|done].
Qed.

Lemma gifts_evo g g' s s' plus (v : list nat) : inv g s → inv g' s' → evo s s' → (∀ id, id ∈ v → id ∈ he g') → (∀ id, id ∈ v → is_Some (dirents s !! id)) →
  omap (gift s' plus) v = omap (gift s plus) v.
Proof.
  intros V V' E. induction v as [|id v IH]; intros Hin Hs; [done|]. simpl.
  assert (gift s' plus id = gift s plus id) as ->.
  { destruct (i_he _ _ _ V' id) as [de' Hde']; [apply Hin; by left|]. destruct (Hs id) as [de Hde]; [by left|].
    destruct (ev_ent _ _ E id de' Hde') as (de0 & Hde0 & _ & Hn & Hi); [by eapply live_lt|].
    unfold gift. rewrite Hde', Hde. simplify_eq. by rewrite Hn, Hi. }
  assert (omap (gift s' plus) v = omap (gift s plus) v) as Hv by (apply IH; intros; first [apply Hin|apply Hs]; by right).
  destruct (gift s plus id); [f_equal|]; exact Hv.
Qed.

Lemma send_loop_spec plus off rem v os g s :
  hx g = None → (∀ id, id ∈ v → id ∈ he g) → Forall2 (ptr s) v os → inv (more_f (omap id os) g) s →
  (plus = true → Forall is_Some os) → (∀ id de, id ∈ v → dirents s !! id = Some de → off < cookie de) →
  wp (send_loop fuse_size plus off rem v) s (λ x s', v = x.1 ++ x.2 ∧ evo s s' ∧
    (∀ d, anchored g d → dircaches s' !! d = dircaches s !! d) ∧ (wsize s plus v ≤ rem → x.2 = []) ∧
    ∃ os2, Forall2 (ptr s') x.2 os2 ∧ (plus = true → Forall is_Some os2) ∧
           inv (more_f (omap id os2) (more_f (omap (gift s plus) x.1) g)) s').
Proof.
  intros Hx Hin HF. revert g rem s os Hx Hin HF. induction v as [|e v IH]; intros g rem s os Hx Hin HF V Hplus Hck.
  { simpl. apply wp_ret. inversion HF; subst. split_and!; [done|apply evo_refl|done|done|]. exists []. eauto. }
  apply Forall2_cons_inv_l in HF as (o & os' & Hp & HF & ->). pose proof Hp as (de & Hde & Hi).
  simpl. wp_call get_dirent_spec; [done|by eexists|]. intros ? ? [-> ?]. simplify_eq.
  apply wp_bind_assert; [apply Z.ltb_lt; eapply Hck; [by left|done]|].
  assert (∀ i, de_inode de = Some i → inv (plus_f i (more_f (omap id os') g)) s) as Vi.
  { intros i Hi. simpl in V. rewrite Hi in V. exact V. }
  apply wp_bind. eapply wp_mono with (Q := λ _ s', s' = s).
  { destruct plus; [|by apply wp_ret]. destruct (de_inode de) as [i|] eqn:Hi.
    - specialize (Vi i eq_refl). destruct (i_hf _ _ _ Vi i) as (x & Hxi & Hle); [by left|]. simpl in Hle.
      rewrite decide_True in Hle by done. pose proof (occ_nonneg i (omap id os' ++ hf g)).
      destruct (i_look _ _ _ Vi i x Hxi) as [Hl ?]. simpl in Hl. pose proof (occ_nonneg i (hl g)).
      apply wp_bind. eapply wp_deref; [done|]. cbv beta. wp_call get_inode_spec; [done|by eexists|]. intros ? ? [-> ?]. simplify_eq.
      apply wp_bind_assert; [cmp|]. apply wp_assert; [cmp|done].
    - specialize (Hplus eq_refl). by apply Forall_cons_1 in Hplus as [[? ?] _]. }
  intros _ ? ->. destruct (Z.ltb_spec rem (fuse_size plus (name de))) as [Hbig|Hfit].
  { apply wp_ret. simpl. split_and!; [done|apply evo_refl|done| |].
    - rewrite Hde. intros Hle. pose proof (wsize_nonneg s plus v). lia.
    - eexists. split_and!; [by constructor|done|done]. }
  set (gf := option_list (gift s plus e)).
  apply wp_bind. eapply wp_mono with (Q := λ _ s1, inv (more_f (omap id os') (more_f gf g)) s1 ∧ evo s s1 ∧ (∀ d, anchored g d → dircaches s1 !! d = dircaches s !! d)).
  { eapply wp_mono; [apply (send_drop_spec plus e de (more_f (omap id os') g) s); [done|apply Hin; by left|done|]|].
    - destruct (de_inode de) as [i|] eqn:Hi; [by apply Vi|done].
    - intros _ s1 (V1 & E1 & A1). split_and!; [|done|].
      + revert V1. apply inv_perm; try done. intros j. simpl. fold gf. rewrite !occ_app. lia.
      + intros d Hd. by apply A1, anchored_more_f. }
  intros _ s1 (V1 & E1 & A1).
  assert (∀ e', e' ∈ v → e' ∈ he g) as Hin' by (intros; apply Hin; by right).
  assert (∀ e', e' ∈ v → is_Some (dirents s !! e')) as Hs by (intros e' He'; apply (i_he _ _ _ V); by apply Hin').
  wp_call (IH (more_f gf g) (rem - fuse_size plus (name de)) s1 os'); [done|done| | | | |].
  - eapply (ptrs_evo _ _ s s1); [exact V|exact V1|done|exact Hin'|done].
  - done.
  - intros ->. specialize (Hplus eq_refl). by apply Forall_cons_1 in Hplus as [_ ?].
  - eapply (cookies_evo _ s s1 (λ k, off < k)); [exact V|done|done|]. intros id' de' Hid'. eapply Hck. by right.
  - intros [x1 x2] s2 (Hv & E2 & A2 & Hfull & os2 & HF2 & Hp2 & V2). simpl in *. apply wp_ret. simpl. split_and!.
    + by rewrite Hv.
    + by eapply evo_trans.
    + intros d Hd. rewrite A2 by (by apply anchored_more_f). by apply A1.
    + rewrite Hde. intros Hle. apply Hfull. rewrite (wsize_evo _ _ s s1 plus v V V1 E1 Hin' Hs). lia.
    + exists os2. split_and!; [done|done|].
      assert (omap (gift s1 plus) x1 = omap (gift s plus) x1) as Hgx.
      { eapply (gifts_evo _ _ s s1 plus x1); [exact V|exact V1|done| |]; intros e' He'; [apply Hin'|apply Hs]; rewrite Hv; apply elem_of_app; by left. }
      rewrite Hgx in V2. revert V2. apply inv_perm; try done. intros j. simpl. unfold gf. destruct (gift s plus e); simpl; rewrite !occ_app; simpl; rewrite ?occ_app; change (list_omap nat nat (gift s plus) x1) with (omap (gift s plus) x1); lia.
Qed.

(** The references of the entries that were not sent. *)
Lemma unsent_spec plus v os g s :
  hx g = None → (∀ id, id ∈ v → id ∈ he g) → Forall2 (ptr s) v os → inv (more_f (omap id os) g) s → (plus = true → Forall is_Some os) →
  wp (mfor v (unsent plus)) s (λ _ s', inv g s' ∧ evo s s' ∧ (∀ d, anchored g d → dircaches s' !! d = dircaches s !! d)).
Proof.
  intros Hx Hin HF. revert s os Hin HF. induction v as [|e v IH]; intros s os Hin HF V Hplus; simpl.
  { apply wp_ret. inversion HF; subst. split_and!; [by destruct g|apply evo_refl|done]. }
  apply Forall2_cons_inv_l in HF as (o & os' & Hp & HF & ->). pose proof Hp as (de & Hde & Hi).
  apply wp_bind. eapply wp_mono with (Q := λ _ s1, inv (more_f (omap id os') g) s1 ∧ evo s s1 ∧ (∀ d, anchored g d → dircaches s1 !! d = dircaches s !! d)).
  - unfold unsent. wp_call get_dirent_spec; [done|by eexists|]. intros ? ? [-> ?]. simplify_eq.
    destruct (de_inode de) as [i|] eqn:Hi; simpl in V.
    + change (inv (plus_f i (more_f (omap id os') g)) s) in V.
      destruct (i_hf _ _ _ V i) as (x & Hxi & Hle); [by left|]. simpl in Hle. rewrite decide_True in Hle by done.
      pose proof (occ_nonneg i (omap id os' ++ hf g)).
      wp_call get_inode_spec; [done|by eexists|]. intros ? ? [-> ?]. simplify_eq. apply wp_bind_assert; [cmp|].
      eapply wp_mono; [apply (drop_fuse_ref_spec (more_f (omap id os') g) s e i); [done|done|apply Hin; by left|by exists de]|].
      intros _ s1 (V1 & E1 & A1). split_and!; [done|done|]. intros d Hd. by apply A1, anchored_more_f.
    + apply wp_assert.
      { destruct plus; [|done]. specialize (Hplus eq_refl). by apply Forall_cons_1 in Hplus as [[? ?] _]. }
      split_and!; [done|apply evo_refl|done].
  - intros _ s1 (V1 & E1 & A1).
    assert (∀ e', e' ∈ v → e' ∈ he g) as Hin' by (intros; apply Hin; by right).
    eapply wp_mono; [apply (IH s1 os'); [done| |done|]|].
    + eapply (ptrs_evo _ (more_f (omap id os') g) s s1); [exact V|exact V1|done|exact Hin'|done].
    + intros ->. specialize (Hplus eq_refl). by apply Forall_cons_1 in Hplus as [_ ?].
    + intros _ s2 (V2 & E2 & A2). split_and!; [done|by eapply evo_trans|]. intros d Hd. by rewrite A2, A1.
Qed.

(** The vector of entries goes away. *)
Lemma reset_all_spec v g s : inv (more_e v g) s → wp (mfor v shared_reset) s (λ _ s', inv g s' ∧ touches s s').
Proof.
  revert s. induction v as [|e v IH]; intros s V; simpl.
  - apply wp_ret. split; [by destruct g|apply touches_refl].
  - wp_call (shared_reset_spec (dircaches s) (more_e v g)); [done|]. intros _ s1 (V1 & T1 & _).
    assert (dircaches s1 = dircaches s) as HC1 by apply T1.
    eapply wp_mono; [apply IH; unfold inv; by rewrite HC1|]. intros _ s2 [V2 T2]. split; [done|by eapply touches_trans].
Qed.

(** A vector of entries collected for the reply. *)
Record collected (g : held) (s : client) (plus : bool) (off : Z) (v : list nat) (os : list (option nat)) : Prop := {
  cl_ptr : Forall2 (ptr s) v os;
  cl_plus : plus = true → Forall is_Some os;
  cl_cookie id de : id ∈ v → dirents s !! id = Some de → off < cookie de;
  cl_inv : inv (more_e v (more_f (omap id os) g)) s;
}.

Lemma labels_evo g g' s s' (v : list nat) : inv g s → inv g' s' → evo s s' → (∀ id, id ∈ v → id ∈ he g') → (∀ id, id ∈ v → is_Some (dirents s !! id)) →
  omap (label s') v = omap (label s) v.
Proof.
  intros V V' E. induction v as [|id v IH]; intros Hin Hs; [done|]. simpl.
  assert (label s' id = label s id) as ->.
  { destruct (i_he _ _ _ V' id) as [de' Hde']; [apply Hin; by left|]. destruct (Hs id) as [de Hde]; [by left|].
    destruct (ev_ent _ _ E id de' Hde') as (de0 & Hde0 & Hk & Hn & _); [by eapply live_lt|].
    unfold label. rewrite Hde', Hde. simpl. congruence. }
  assert (omap (label s') v = omap (label s) v) as Hv by (apply IH; intros; first [apply Hin|apply Hs]; by right).
  destruct (label s id); [f_equal|]; exact Hv.
Qed.

Lemma send_response_spec d c plus off size v os g s :
  hx g = None → collected g s plus off v os → dircaches s !! d = Some c → (v ≠ [] → cookie_verifier c ≠ 0) → 4096 ≤ size → anchored g d →
  wp (send_response fuse_size d plus off size v) s (λ sent s', inv (more_f (r_refs sent) g) s' ∧ evo s s' ∧ dircaches s' !! d = Some c ∧
    (∃ v1 v2, v = v1 ++ v2 ∧ r_entries sent = omap (label s) v1 ∧ (wsize s plus v ≤ size → v2 = []))).
Proof.
  intros Hx [HF Hplus Hck V] Hc Hvf Hsz Ha. unfold send_response. apply wp_bind_assert; [cmp|].
  unfold get_dircache. do 2 apply wp_bind. apply wp_get. cbv beta. eapply wp_deref; [done|]. cbv beta.
  apply wp_bind_assert.
  { destruct v as [|e v]; [by rewrite bool_decide_true|]. destruct (Z.eqb_spec (cookie_verifier c) 0) as [Hz|]; [by destruct Hvf|].
    apply orb_true_r. }
  set (gv := more_e v g). assert (∀ id, id ∈ v → id ∈ he gv) as Hin by (intros; apply elem_of_app; by left).
  assert (∀ id, id ∈ v → is_Some (dirents s !! id)) as Hs by (intros; apply (i_he _ _ _ V); by apply Hin).
  wp_call (send_loop_spec plus off size v os gv s); [done|done|done|done|done|done|].
  intros [v1 v2] s1 (Hv & E1 & A1 & Hfull & os2 & HF2 & Hp2 & V1). simpl in *.
  set (gs := omap (gift s plus) v1) in *.
  wp_call (unsent_spec plus v2 os2 (more_f gs gv) s1); [done| |done|done|done|].
  { intros e He. apply Hin. rewrite Hv. apply elem_of_app. by right. }
  intros _ s2 (V2 & E2 & A2). apply wp_bind, wp_get. cbv beta.
  wp_call (reset_all_spec v (more_f gs g) s2); [done|]. intros _ s3 [V3 T3]. apply wp_ret.
  assert (evo s s2) as E12 by (by eapply evo_trans).
  assert (∀ e, e ∈ v1 → e ∈ he gv) as Hin1 by (intros e He; apply Hin; rewrite Hv; apply elem_of_app; by left).
  split_and!; [|by eapply evo_trans, touches_evo| |].
  - simpl. rewrite (gifts_evo _ _ s s2 plus v1 V V2 E12 Hin1); [done|]. intros e He. apply Hs. rewrite Hv. apply elem_of_app. by left.
  - assert (dircaches s3 = dircaches s2) as -> by apply T3. rewrite A2 by (by apply anchored_more_f). by rewrite A1.
  - exists v1, v2. split_and!; [done| |done]. simpl.
    eapply (labels_evo _ _ s s2); [exact V|exact V2|done|exact Hin1|]. intros e He. apply Hs. rewrite Hv. apply elem_of_app. by left.
Qed.

(** ** Enumeration from the cache *)

(** What an enumeration sees at a cookie: the entry and its size in the reply. *)
Definition view (s : client) (c : readdirectory_cache) (plus : bool) (k : Z) : option (nat * Z) :=
  match dir_entries c !! k with
  | Some id =>
      match dirents s !! id with
      | Some e => if plus && negb (is_some (de_inode e)) then None else Some (id, fuse_size plus (name e))
      | None => None
      end
  | None => None
  end.

(** The enumeration of a view: the entries from [k] on while they follow each other and fit. *)
Fixpoint enum_ref (vw : Z → option (nat * Z)) (seen : bool) (ec : Z) (fuel : nat) (k rem : Z) (e : bool) : list nat * bool :=
  if 0 <? rem then
    match fuel with
    | O => ([], e)
    | S fuel' =>
        match vw k with
        | None => ([], e || seen && (ec <=? k))
        | Some (id, n) =>
            if n <=? rem then
              let x := enum_ref vw seen ec fuel' (k + 1) (rem - n) (e || seen && (k =? ec)) in (id :: x.1, x.2)
            else ([], e)
        end
    end
  else ([], e).

Lemma view_evo g g' s s' d c plus k :
  inv g s → inv g' s' → evo s s' → dircaches s !! d = Some c → dircaches s' !! d = Some c → view s' c plus k = view s c plus k.
Proof.
  intros V V' E Hc Hc'. unfold view. destruct (dir_entries c !! k) as [id|] eqn:Hk; [|done].
  destruct (co_ent _ _ (i_cache _ _ _ V d c Hc) _ _ Hk) as (de & Hde & _).
  destruct (co_ent _ _ (i_cache _ _ _ V' d c Hc') _ _ Hk) as (de' & Hde' & _).
  destruct (ev_ent _ _ E id de' Hde') as (de0 & Hde0 & _ & Hn & Hi); [by eapply live_lt|]. simplify_eq.
  rewrite Hde, Hde', <- Hn, <- Hi. done.
Qed.

Lemma enum_ref_S vw seen ec fuel k rem e : 0 < rem →
  enum_ref vw seen ec (S fuel) k rem e =
    match vw k with
    | None => ([], e || seen && (ec <=? k))
    | Some (id, n) =>
        if n <=? rem then
          ((id :: (enum_ref vw seen ec fuel (k + 1) (rem - n) (e || seen && (k =? ec))).1),
           (enum_ref vw seen ec fuel (k + 1) (rem - n) (e || seen && (k =? ec))).2)
        else ([], e)
    end.
Proof. intros H. simpl. destruct (Z.ltb_spec 0 rem); [|lia]. done. Qed.

Lemma enum_ref_ext vw vw' seen ec fuel k rem e : (∀ k, vw' k = vw k) → enum_ref vw' seen ec fuel k rem e = enum_ref vw seen ec fuel k rem e.
Proof.
  intros Heq. revert k rem e. induction fuel as [|fuel IH]; intros k rem e; simpl; [done|].
  rewrite Heq. destruct (0 <? rem); [|done]. destruct (vw k) as [[id n]|]; [|done]. destruct (n <=? rem); [|done]. by rewrite IH.
Qed.

Lemma usable_spec g s c plus k id de :
  inv (plus_e id (plus_o (de_inode de) g)) s → dirents s !! id = Some de → dir_entries c !! k = Some id →
  wp (usable plus (Some id)) s (λ r s', evo s s' ∧ dircaches s' = dircaches s ∧
    match r with
    | Some id' => id' = id ∧ s' = s ∧ (plus = true → de_inode de ≠ None) ∧ view s c plus k = Some (id, fuse_size plus (name de))
    | None => plus = true ∧ inv g s' ∧ view s c plus k = None
    end).
Proof.
  intros V Hde Hk. unfold usable. wp_call get_dirent_spec; [done|by eexists|]. intros ? ? [-> ?]. simplify_eq.
  unfold view. rewrite Hk, Hde. destruct plus; simpl.
  - destruct (de_inode de) as [i|] eqn:Hi; simpl.
    + apply wp_ret. split_and!; [apply evo_refl|done|done..].
    + wp_call shared_reset_spec; [done|]. intros _ s1 (V1 & T1 & _). apply wp_ret.
      assert (dircaches s1 = dircaches s) as HC1 by apply T1.
      split_and!; [by apply touches_evo|done|done|unfold inv; by rewrite HC1|done].
  - apply wp_ret. split_and!; [apply evo_refl|done|done..].
Qed.

(** An entry that fits goes to the reply. *)
Lemma take_spec g s id de :
  inv (plus_e id (plus_o (de_inode de) g)) s → dirents s !! id = Some de →
  wp (match de_inode de with Some i => hand_over i | None => mret () end) s (λ _ s',
    inv (plus_e id (match de_inode de with Some i => plus_f i g | None => g end)) s' ∧ evo s s' ∧
    dircaches s' = dircaches s ∧ ptr s' id (de_inode de)).
Proof.
  intros V Hde. destruct (de_inode de) as [i|] eqn:Hi; simpl in V.
  - eapply wp_mono; [apply (hand_over_spec (plus_e id g) s id i); [revert V; by apply inv_perm|by exists de]|].
    intros _ s3 (V3 & E3 & HC3 & HD3). split_and!; [done|done|done|exists de; by rewrite HD3].
  - apply wp_ret. split_and!; [done|apply evo_refl|done|by exists de].
Qed.

(** An entry that does not fit is put back. *)
Lemma untake_spec g s id de d :
  hx g = None → inv (plus_e id (plus_o (de_inode de) g)) s → dirents s !! id = Some de → anchored g d →
  wp (match de_inode de with Some i => put_back id i | None => shared_reset id end) s (λ _ s',
    inv g s' ∧ evo s s' ∧ dircaches s' !! d = dircaches s !! d).
Proof.
  intros Hx V Hde Ha. destruct (de_inode de) as [i|] eqn:Hi; simpl in V.
  - eapply wp_mono; [apply (put_back_spec g s id i); [done|done|by exists de]|].
    intros _ s3 (V3 & S3). split_and!; [done|by eapply shrinks_evo|].
    destruct (sh_pin _ _ _ _ S3 d) as [_ Heq]; [|by apply Heq]. exact (anchored_pinned (plus_e id (plus_d i g)) s d V Ha).
  - eapply wp_mono; [by apply (shared_reset_spec (dircaches s) g s id)|]. intros _ s3 (V3 & T3 & _).
    assert (dircaches s3 = dircaches s) as HC3 by apply T3.
    split_and!; [unfold inv; by rewrite HC3|by apply touches_evo|by rewrite HC3].
Qed.

Lemma dircache_loop_spec fuel d c plus seen k rem e0 g s :
  hx g = None → inv g s → dircaches s !! d = Some c → anchored g d → 0 < k → rem ≤ Z.of_nat fuel →
  wp (dircache_loop fuse_size fuel d plus seen k rem e0) s (λ x s', evo s s' ∧ dircaches s' !! d = Some c ∧
    x = enum_ref (view s c plus) seen (eof_cookie c) fuel k rem e0 ∧
    ∃ os, Forall2 (ptr s') x.1 os ∧ (plus = true → Forall is_Some os) ∧ inv (more_e x.1 (more_f (omap id os) g)) s').
Proof.
  revert k rem e0 g s. induction fuel as [|fuel IH]; intros k rem e0 g s Hx V Hc Ha Hk Hfuel; simpl.
  { destruct (Z.ltb_spec 0 rem); [lia|]. apply wp_ret. split_and!; [apply evo_refl|done|done|]. exists []. by destruct g. }
  destruct (Z.ltb_spec 0 rem) as [Hrem|].
  2: { apply wp_ret. split_and!; [apply evo_refl|done|done|]. exists []. by destruct g. }
  set (E := match view s c plus k with
            | None => ([], e0 || seen && (eof_cookie c <=? k))
            | Some (id, n) => if n <=? rem then
                ((id :: (enum_ref (view s c plus) seen (eof_cookie c) fuel (k + 1) (rem - n) (e0 || seen && (k =? eof_cookie c))).1),
                 (enum_ref (view s c plus) seen (eof_cookie c) fuel (k + 1) (rem - n) (e0 || seen && (k =? eof_cookie c))).2)
                else ([], e0)
            end).
  set (Q := λ (x : list nat * bool) s', evo s s' ∧ dircaches s' !! d = Some c ∧ x = E ∧
    ∃ os, Forall2 (ptr s') x.1 os ∧ (plus = true → Forall is_Some os) ∧ inv (more_e x.1 (more_f (omap id os) g)) s').
  assert (∀ s' e1, inv g s' → evo s s' → dircaches s' !! d = Some c → ([], e1) = E → wp (mret ([], e1)) s' Q) as Hstop.
  { intros s' e1 V' E' Hc' Heq. apply wp_ret. split_and!; try done. exists []. by destruct g. }
  wp_call (lookup_spec g s d c k None); [done|done|split; [lia|done]|]. intros r s1 (-> & T1 & Hr).
  assert (entry_at c k None = dir_entries c !! k) as Hent by done. rewrite Hent in Hr |- *.
  assert (dircaches s1 = dircaches s) as HC1 by apply T1.
  assert ((if seen && (eof_cookie c <=? k) then true else e0) = e0 || seen && (eof_cookie c <=? k)) as He1
    by (destruct e0, seen, (eof_cookie c <=? k); done).
  destruct (dir_entries c !! k) as [id|] eqn:Hid.
  - destruct Hr as (de & Hde & V1). wp_call (usable_spec g s1 c plus k id de); [done|done|done|].
    intros r s2 (E2 & HC2 & Hr). unfold get_dircache at 1. do 2 apply wp_bind. apply wp_get. cbv beta.
    assert (dircaches s2 !! d = Some c) as Hc2 by (by rewrite HC2, HC1).
    eapply wp_deref; [done|]. cbv beta.
    assert (view s c plus k = view s1 c plus k) as Hview.
    { symmetry. eapply (view_evo _ _ s s1 d c); [exact V|exact V1|by apply touches_evo|done|by rewrite HC1]. }
    destruct r as [id'|].
    + destruct Hr as (-> & -> & Hp & Hvs). wp_call get_dirent_spec; [done|by eexists|]. intros ? ? [-> ?]. simplify_eq.
      set (sz := fuse_size plus (name de)) in *. pose proof (fuse_pos plus (name de)) as Hsz. fold sz in Hsz.
      destruct (Z.leb_spec 0 (rem - sz)) as [Hfit|Hfit].
      * set (g3 := plus_e id (match de_inode de with Some i => plus_f i g | None => g end)).
        apply wp_bind. eapply wp_mono with (Q := λ _ s3, inv g3 s3 ∧ evo s s3 ∧ dircaches s3 !! d = Some c ∧ ptr s3 id (de_inode de)).
        { eapply wp_mono; [by apply (take_spec g s1 id de)|]. intros _ s3 (V3 & E3 & HC3 & Hp3).
          split_and!; [done|eapply evo_trans; [by apply touches_evo|done]|by rewrite HC3|done]. }
        intros _ s3 (V3 & E3 & Hc3 & Hp3).
        wp_call (IH (k + 1) (rem - sz) (if seen && (cookie de =? eof_cookie c) then true else e0) g3 s3);
          [unfold g3; by destruct (de_inode de)|done|done| |lia|lia|].
        { destruct Ha; [left|right]; unfold g3; destruct (de_inode de); simpl; try done. by right. }
        intros [xs e1] s4 (E4 & Hc4 & Hx4 & os & HF4 & Hp4 & V4). simpl in *. apply wp_ret. unfold Q. simpl. split_and!.
        -- by eapply evo_trans.
        -- done.
        -- unfold E. rewrite Hview, Hvs. destruct (Z.leb_spec sz rem); [|lia].
           assert ((if seen && (cookie de =? eof_cookie c) then true else e0) = e0 || seen && (k =? eof_cookie c)) as He2.
           { destruct (co_ent _ _ (i_cache _ _ _ V1 d c Hc2) _ _ Hid) as (? & ? & <- & _). simplify_eq.
             by destruct e0, seen, (cookie de =? eof_cookie c). }
           rewrite He2, (enum_ref_ext (view s c plus)) in Hx4; [by rewrite <- Hx4|].
           intros k'. by eapply (view_evo g _ s s3 d).
        -- exists (de_inode de :: os). split_and!.
           ++ constructor; [|done]. eapply (evo_ptr _ _ s3 s4); [exact V3|exact V4|done| |done].
              simpl. apply elem_of_app. right. unfold g3. by left.
           ++ intros ->. constructor; [|by apply Hp4]. specialize (Hp eq_refl). by destruct (de_inode de).
           ++ revert V4. unfold g3. destruct (de_inode de); apply inv_perm; try done; intros j; apply occ_mid.
      * apply wp_bind. eapply wp_mono with (Q := λ _ s3, inv g s3 ∧ evo s s3 ∧ dircaches s3 !! d = Some c).
        { eapply wp_mono; [by apply (untake_spec g s1 id de d)|]. intros _ s3 (V3 & E3 & HC3).
          split_and!; [done|eapply evo_trans; [by apply touches_evo|done]|by rewrite HC3]. }
        intros _ s3 (V3 & E3 & Hc3). apply Hstop; [done|done|done|]. unfold E. rewrite Hview, Hvs.
        destruct (Z.leb_spec sz rem); [lia|done].
    + destruct Hr as (_ & V2 & Hvn). apply Hstop; [done|eapply evo_trans; [by apply touches_evo|done]|done|].
      unfold E. rewrite Hview, Hvn. by rewrite He1.
  - subst s1. simpl. apply wp_bind, wp_ret. cbv beta. unfold get_dircache. do 2 apply wp_bind. apply wp_get. cbv beta.
    eapply wp_deref; [done|]. cbv beta. apply Hstop; [done|apply evo_refl|done|].
    unfold E, view. rewrite Hid. by rewrite He1.
Qed.
End enumeration.
