(* ===== verification/DirReaddir.v ===== *)
(** * Enumeration from the cache

    [lookup_dircache()] and [get_readdir_entries_from_cache()]: the entries sent to fuse are
    those of the reference enumeration [enum_ref]. *)
From stdpp Require Import strings sorting.
From S2P Require Import Prelude DirCache DirInv DirRefs DirOps DirNames DirEnum DirEnumInv.

(** The cache an enumeration works on, after [clear_if_needed()]. *)
Definition refreshed (c : readdirectory_cache) : readdirectory_cache :=
  let c0 := with_flags (lookuponly c) (confirmed_msecs c) false c in
  if invalidate_pending c || lookuponly c then cleared c0 else c0.

Lemma refreshed_entries c : dir_entries (refreshed c) = dir_entries c ∨ dir_entries (refreshed c) = ∅.
Proof. unfold refreshed. destruct (invalidate_pending c || lookuponly c); [by right|by left]. Qed.

Lemma refreshed_verf c : verf_ok c → dir_entries (refreshed c) ≠ ∅ → cookie_verifier (refreshed c) ≠ 0.
Proof.
  unfold refreshed. destruct (invalidate_pending c || lookuponly c) eqn:H; [done|]. simpl.
  intros [?|[?|Hl]]; [done|done|]. rewrite Hl, orb_true_r in H. done.
Qed.

(** ** The reference enumeration *)
Section reference.
Context (vw : Z → option (nat * Z)) (seen : bool) (ec : Z).

(** The entries have consecutive cookies. *)
Lemma enum_ref_at fuel k rem e n id : (enum_ref vw seen ec fuel k rem e).1 !! n = Some id → ∃ sz, vw (k + Z.of_nat n) = Some (id, sz).
Proof.
  revert k rem e n. induction fuel as [|fuel IH]; intros k rem e n; simpl; destruct (0 <? rem); try done.
  destruct (vw k) as [[id' sz]|] eqn:Hk; [|done]. destruct (sz <=? rem); [|done]. simpl. destruct n as [|n]; simpl.
  - intros [= ->]. exists sz. by rewrite Z.add_0_r.
  - intros [sz' H]%IH. exists sz'. rewrite <- H. f_equal. lia.
Qed.

(** The sizes of the [n] entries from a cookie on. *)
Fixpoint run_size (k : Z) (n : nat) : Z :=
  match n with
  | O => 0
  | S n' => match vw k with Some (_, sz) => sz | None => 0 end + run_size (k + 1) n'
  end.

Lemma run_size_snoc k n : run_size k (S n) = run_size k n + match vw (k + Z.of_nat n) with Some (_, sz) => sz | None => 0 end.
Proof.
  revert k. induction n as [|n IH]; intros k; [replace (k + Z.of_nat 0) with k by lia; cbn [run_size]; lia|].
  change (run_size k (S (S n))) with (match vw k with Some (_, sz) => sz | None => 0 end + run_size (k + 1) (S n)). rewrite IH. cbn [run_size].
  replace (k + 1 + Z.of_nat n) with (k + Z.of_nat (S n)) by lia. lia.
Qed.

(** The run fits into the buffer. *)
Lemma enum_ref_fits fuel k rem e : 0 ≤ rem → run_size k (length (enum_ref vw seen ec fuel k rem e).1) ≤ rem.
Proof.
  revert k rem e. induction fuel as [|fuel IH]; intros k rem e Hr.
  { simpl. by destruct (0 <? rem). }
  simpl. destruct (0 <? rem); [|done]. destruct (vw k) as [[id sz]|] eqn:Hk; [|done].
  destruct (Z.leb_spec sz rem); [|done]. simpl. rewrite Hk.
  specialize (IH (k + 1) (rem - sz) (e || seen && (k =? ec))). lia.
Qed.

(** The run stops at the first cookie without an entry, or at an entry that does not fit. *)
Lemma enum_ref_maximal fuel k rem e : (∀ k id sz, vw k = Some (id, sz) → 0 < sz) → 0 ≤ rem → rem ≤ Z.of_nat fuel →
  let v := (enum_ref vw seen ec fuel k rem e).1 in
  vw (k + Z.of_nat (length v)) = None ∨ rem < run_size k (S (length v)).
Proof.
  intros Hpos. revert k rem e. induction fuel as [|fuel IH]; intros k rem e H0 Hr; cbv zeta.
  - simpl. assert (rem = 0) as -> by lia. simpl. rewrite Z.add_0_r. destruct (vw k) as [[id sz]|] eqn:Hk; [|by left].
    right. pose proof (Hpos k id sz Hk). lia.
  - simpl. destruct (vw k) as [[id sz]|] eqn:Hk.
    2: { left. destruct (0 <? rem); simpl; by rewrite Z.add_0_r. }
    pose proof (Hpos k id sz Hk). destruct (Z.ltb_spec 0 rem); [|right; simpl; lia].
    destruct (Z.leb_spec sz rem); [|right; simpl; lia].
    destruct (IH (k + 1) (rem - sz) (e || seen && (k =? ec))) as [Hn|Hn]; [lia|lia|left|right]; simpl in *.
    + rewrite <- Hn. f_equal. lia.
    + lia.
Qed.

(** The server is asked only when the cache does not have the first entry, or has no room
    for it, and does not know the end of the directory. *)
Lemma enum_ref_ask fuel k rem : 0 < rem → rem ≤ Z.of_nat fuel →
  enum_ref vw seen ec fuel k rem false = ([], false) ↔
    match vw k with None => seen = false ∨ k < ec | Some (_, sz) => rem < sz end.
Proof.
  intros H0 Hr. destruct fuel as [|fuel]; [lia|]. rewrite enum_ref_S by done. destruct (vw k) as [[id sz]|].
  - destruct (Z.leb_spec sz rem); simpl; [|done]. split; [done|lia].
  - destruct seen; simpl; [|split; [by left|done]]. destruct (Z.leb_spec ec k); split; try done; [|by right].
    intros [?|?]; [done|lia].
Qed.
End reference.

(** ** [lookup_dircache()] and [get_readdir_entries_from_cache()] *)
Section readdir.
Context (typ : Z → Z → ftype) (fuse_size : bool → string → Z) (fuse_pos : ∀ p n, 0 < fuse_size p n).

Lemma view_Some s c plus k id sz : view fuse_size s c plus k = Some (id, sz) →
  dir_entries c !! k = Some id ∧ ∃ de, dirents s !! id = Some de ∧ sz = fuse_size plus (name de) ∧ (plus = true → de_inode de ≠ None).
Proof.
  unfold view. destruct (dir_entries c !! k) as [id'|]; [|done]. destruct (dirents s !! id') as [de|] eqn:Hde; [|done].
  destruct plus; simpl; [|by intros [= -> <-]; eauto]. destruct (de_inode de) as [i|] eqn:Hi; simpl; [|done].
  intros [= -> <-]. split; [done|]. exists de. by rewrite Hi.
Qed.

(** The name an enumeration finds under a cookie. *)
Definition listed (s : client) (c : readdirectory_cache) (plus : bool) (k : Z) : option string :=
  match dir_entries c !! k ≫= λ id, dirents s !! id with
  | Some e => if plus && negb (is_some (de_inode e)) then None else Some (name e)
  | None => None
  end.

Lemma view_listed s c plus k : match view fuse_size s c plus k with Some (_, sz) => Some sz | None => None end = fuse_size plus <$> listed s c plus k.
Proof.
  unfold view, listed. destruct (dir_entries c !! k) as [id|]; [|done]. simpl. destruct (dirents s !! id) as [e|]; [|done].
  by destruct (plus && negb (is_some (de_inode e))).
Qed.

Lemma view_refreshed g g' s s' d c plus k :
  inv g s → inv g' s' → evo typ s s' → dircaches s !! d = Some c → dircaches s' !! d = Some (refreshed c) →
  view fuse_size s' (refreshed c) plus k = view fuse_size s (refreshed c) plus k.
Proof.
  intros V V' E Hc Hc'. unfold view. destruct (dir_entries (refreshed c) !! k) as [id|] eqn:Hk; [|done].
  assert (dir_entries c !! k = Some id) as Hk0 by (destruct (refreshed_entries c) as [Hr|Hr]; rewrite Hr in Hk; done).
  destruct (co_ent _ _ (i_cache _ _ _ V d c Hc) _ _ Hk0) as (de & Hde & _).
  destruct (co_ent _ _ (i_cache _ _ _ V' d _ Hc') _ _ Hk) as (de' & Hde' & _).
  destruct (ev_ent _ _ _ E id de' Hde') as (de0 & Hde0 & _ & Hn & Hi); [by eapply live_lt|]. simplify_eq.
  rewrite Hde, Hde', <- Hn, <- Hi. done.
Qed.

(** The enumeration an operation on the cache [c] makes. *)
Definition enumeration (s : client) (c : readdirectory_cache) (plus : bool) (k size : Z) : list nat * bool :=
  enum_ref (view fuse_size s (refreshed c) plus) (eof (refreshed c)) (eof_cookie (refreshed c)) (Z.to_nat size) k size false.

Lemma lookup_dircache_spec d c plus k size g s :
  hx g = None → inv g s → dircaches s !! d = Some c → anchored g d → 0 < k < UINT32_MAX → 0 < size ≤ 64 * 1024 * 1024 →
  wp (lookup_dircache fuse_size d k size plus) s (λ x s', evo typ s s' ∧ dircaches s' !! d = Some (refreshed c) ∧
    x = enumeration s c plus k size ∧
    ∃ os, Forall2 (ptr s') x.1 os ∧ (plus = true → Forall is_Some os) ∧ inv (more_e x.1 (more_f (omap id os) g)) s').
Proof.
  intros Hx V Hc Ha Hk Hsz. unfold lookup_dircache. apply wp_bind_assert; [apply andb_true_iff; split; cmp|]. apply wp_bind_assert; [cmp|].
  wp_call clear_if_needed_spec; [done|done|done|by apply anchored_pinned|]. intros _ s1 (V1 & F1 & Hc1). fold (refreshed c) in Hc1.
  unfold get_dircache. do 2 apply wp_bind. apply wp_get. cbv beta. eapply wp_deref; [done|]. cbv beta.
  assert (evo typ s s1) as E1 by (by eapply frame_evo).
  eapply wp_mono; [apply (dircache_loop_spec typ fuse_size fuse_pos _ d (refreshed c) plus _ k size false g s1); [done..|lia|lia]|].
  intros x s2 (E2 & Hc2 & Hx2 & os & HF & Hp & V2). split_and!; [by eapply evo_trans|done| |eauto].
  rewrite Hx2. unfold enumeration. apply enum_ref_ext. intros k'. by eapply view_refreshed.
Qed.

(** The reply size of a run of the view. *)
Lemma wsize_run s c plus k v :
  (∀ n id, v !! n = Some id → ∃ sz, view fuse_size s c plus (k + Z.of_nat n) = Some (id, sz)) →
  wsize fuse_size s plus v = run_size (view fuse_size s c plus) k (length v).
Proof.
  revert k. induction v as [|e v IH]; intros k Hv; [done|]. simpl. rewrite (IH (k + 1)).
  - destruct (Hv 0%nat e eq_refl) as (sz & Hk). rewrite Z.add_0_r in Hk. rewrite Hk. f_equal.
    destruct (view_Some _ _ _ _ _ _ Hk) as (_ & de & -> & -> & _). done.
  - intros n e' Hn. destruct (Hv (S n) e' Hn) as (sz & Hk). exists sz. rewrite <- Hk. f_equal. lia.
Qed.

(** The reply of the reference: [None] when the server is asked. *)
Definition reply_ref (s : client) (c : readdirectory_cache) (plus : bool) (offset size : Z) : option (list (Z * string)) :=
  let x := enumeration s c plus (offset + 1) size in
  if bool_decide (x.1 = []) && negb x.2 then None else Some (omap (label s) x.1).

Lemma enumeration_live s c plus k size e : e ∈ (enumeration s c plus k size).1 → is_Some (dirents s !! e).
Proof.
  intros [n Hn]%list_elem_of_lookup. destruct (enum_ref_at _ _ _ _ _ _ _ _ _ Hn) as (sz & Hk).
  destruct (view_Some _ _ _ _ _ _ Hk) as (_ & de & -> & _). eauto.
Qed.

(** The references fuse received. *)
Definition refs (r : option received) : list nat := match r with Some r => r_refs r | None => [] end.

Lemma labels_lookup s (v : list nat) n : (∀ e, e ∈ v → is_Some (dirents s !! e)) → omap (label s) v !! n = v !! n ≫= label s.
Proof.
  revert n. induction v as [|e v IH]; intros n Hs; [by destruct n|]. destruct (Hs e) as [de Hde]; [by left|].
  change (omap (label s) (e :: v)) with (match label s e with Some y => y :: omap (label s) v | None => omap (label s) v end).
  assert (label s e = Some (cookie de, name de)) as Hl by (unfold label; by rewrite Hde). rewrite Hl.
  destruct n as [|n]; simpl; [by rewrite Hl|]. apply IH. intros. apply Hs. by right.
Qed.

Lemma readdir_from_cache_spec d c plus offset size g s :
  hx g = None → inv g s → dircaches s !! d = Some c → anchored g d →
  0 ≤ offset < UINT32_MAX - 1 → 4096 ≤ size ≤ 64 * 1024 * 1024 →
  wp (readdir_from_cache fuse_size d plus offset size) s (λ r s', inv (more_f (refs r) g) s' ∧ evo typ s s' ∧ dircaches s' !! d = Some (refreshed c) ∧
    r_entries <$> r = reply_ref s c plus offset size).
Proof.
  intros Hx V Hc Ha Hoff Hsz. unfold readdir_from_cache.
  wp_call (lookup_dircache_spec d c plus (offset + 1) size g s); [done|done|done|done|lia|lia|].
  intros x s1 (E1 & Hc1 & Hx1 & os & HF & Hp & V1). unfold reply_ref. rewrite <- Hx1.
  assert (∀ n id, x.1 !! n = Some id → ∃ sz, view fuse_size s (refreshed c) plus (offset + 1 + Z.of_nat n) = Some (id, sz)) as Hat.
  { intros n e Hn. rewrite Hx1 in Hn. by eapply enum_ref_at. }
  assert (∀ e, e ∈ x.1 → is_Some (dirents s !! e)) as Hlive by (intros e He; rewrite Hx1 in He; by eapply enumeration_live).
  destruct (bool_decide (x.1 = []) && negb x.2) eqn:Hask.
  { apply wp_ret. apply andb_true_iff in Hask as [Hnil%bool_decide_eq_true _]. rewrite Hnil in HF, V1. inversion HF; subst os.
    split_and!; [by destruct g|done..]. }
  assert (∀ e, e ∈ x.1 → e ∈ he (more_e x.1 (more_f (omap id os) g))) as Hin by (intros e He; apply elem_of_app; by left).
  wp_call (send_response_spec typ fuse_size fuse_pos d (refreshed c) plus offset size x.1 os g s1); [done| |done| |lia|done|].
  - constructor; try done. intros e de He Hde.
    apply (cookies_evo typ _ s s1 (λ k, offset < k) x.1 V E1 Hlive) with (id := e); [|done|done].
    intros e' de' [n Hn]%list_elem_of_lookup Hde'. destruct (Hat n e' Hn) as (sz & Hk).
    destruct (view_Some _ _ _ _ _ _ Hk) as (Hent & _).
    assert (dir_entries c !! (offset + 1 + Z.of_nat n) = Some e') as Hk0 by (destruct (refreshed_entries c) as [Hr|Hr]; rewrite Hr in Hent; done).
    destruct (co_ent _ _ (i_cache _ _ _ V d c Hc) _ _ Hk0) as (? & ? & Hck & _). simplify_eq. lia.
  - intros Hne. apply refreshed_verf; [apply (i_verf _ _ _ V d c Hc); by rewrite Hx|]. intros Hz.
    destruct x.1 as [|e v]; [done|]. destruct (Hat 0%nat e eq_refl) as (sz & Hk). destruct (view_Some _ _ _ _ _ _ Hk) as (Hent & _).
    by rewrite Hz in Hent.
  - intros sent s2 (V2 & E2 & Hc2 & v1 & v2 & Hv & Hsent & Hfull). apply wp_ret. split_and!; [done|by eapply evo_trans|done|].
    simpl. f_equal. rewrite Hsent. assert (v2 = []) as ->.
    { apply Hfull. rewrite (wsize_evo typ fuse_size g _ s s1 plus x.1 V V1 E1 Hin Hlive), (wsize_run s (refreshed c) plus (offset + 1)) by done.
      rewrite Hx1. apply enum_ref_fits. lia. }
    rewrite app_nil_r in Hv. subst v1. by eapply (labels_evo typ g _ s s1 x.1).
Qed.

(** A live entry has a label. *)
Lemma labels_length s (v : list nat) : (∀ e, e ∈ v → is_Some (dirents s !! e)) → length (omap (label s) v) = length v.
Proof.
  induction v as [|e v IH]; intros Hs; [done|]. destruct (Hs e) as [de Hde]; [by left|]. simpl. unfold label at 1. rewrite Hde. simpl.
  f_equal. apply IH. intros. apply Hs. by right.
Qed.

(** The reply size of labelled entries. *)
Definition lsize (plus : bool) (l : list (Z * string)) : Z := foldr (λ p (n : Z), fuse_size plus p.2 + n) 0 l.

Lemma wsize_labels s plus v : wsize fuse_size s plus v = lsize plus (omap (label s) v).
Proof.
  induction v as [|e v IH]; [done|]. simpl. rewrite IH. unfold label at 2. destruct (dirents s !! e) as [de|]; simpl; done.
Qed.

(** What the reply contains. *)
Definition reply_facts (s : client) (c : readdirectory_cache) (plus : bool) (offset size : Z) (r : option (list (Z * string))) : Prop :=
  let lst := listed s c plus in
  match r with
  | None => match lst (offset + 1) with
            | None => eof c = false ∨ offset + 1 < eof_cookie c
            | Some nm => size < fuse_size plus nm
            end
  | Some l =>
      (∀ n, (n < length l)%nat → ∃ nm, l !! n = Some (offset + 1 + Z.of_nat n, nm) ∧ lst (offset + 1 + Z.of_nat n) = Some nm) ∧
      lsize plus l ≤ size ∧
      (∀ nm, lst (offset + 1 + Z.of_nat (length l)) = Some nm → size < lsize plus l + fuse_size plus nm)
  end.

(** The name under which an entry of the view is sent. *)
Lemma view_label g s d c plus k id sz : inv g s → dircaches s !! d = Some c → view fuse_size s (refreshed c) plus k = Some (id, sz) →
  ∃ nm, label s id = Some (k, nm) ∧ listed s (refreshed c) plus k = Some nm.
Proof.
  intros V Hc Hk. destruct (view_Some _ _ _ _ _ _ Hk) as (Hent & de & Hde & _ & Hp). exists (name de). split.
  - assert (dir_entries c !! k = Some id) as Hk0 by (destruct (refreshed_entries c) as [Hre|Hre]; rewrite Hre in Hent; done).
    destruct (co_ent _ _ (i_cache _ _ _ V d c Hc) _ _ Hk0) as (? & ? & <- & _). unfold label. simplify_eq. by rewrite Hde.
  - unfold listed. rewrite Hent. simpl. rewrite Hde. destruct plus; [|done]. simpl. specialize (Hp eq_refl). by destruct (de_inode de).
Qed.

Lemma reply_ref_facts g s d c plus offset size : inv g s → dircaches s !! d = Some c → 0 < size →
  reply_facts s (refreshed c) plus offset size (reply_ref s c plus offset size).
Proof.
  intros V Hc Hs. set (vw := view fuse_size s (refreshed c) plus).
  assert (∀ k, match vw k with Some (_, sz) => Some sz | None => None end = fuse_size plus <$> listed s (refreshed c) plus k) as Hview
    by (intros; apply view_listed).
  unfold reply_ref. set (x := enumeration s c plus (offset + 1) size) in *. unfold reply_facts.
  destruct (bool_decide (x.1 = []) && negb x.2) eqn:Hask.
  - apply andb_true_iff in Hask as [Hnil%bool_decide_eq_true Hx2%negb_true_iff].
    assert (x = ([], false)) as Hx by (rewrite (surjective_pairing x); by rewrite Hnil, Hx2).
    apply enum_ref_ask in Hx; [|lia|lia]. fold vw in Hx. specialize (Hview (offset + 1)).
    destruct (vw (offset + 1)) as [[id sz]|]; destruct (listed s (refreshed c) plus (offset + 1)) as [nm|]; simplify_eq/=; done.
  - assert (∀ e, e ∈ x.1 → is_Some (dirents s !! e)) as Hlive by apply enumeration_live.
    assert (∀ n id, x.1 !! n = Some id → ∃ sz, vw (offset + 1 + Z.of_nat n) = Some (id, sz)) as Hat by (intros n id; apply enum_ref_at).
    assert (lsize plus (omap (label s) x.1) = run_size vw (offset + 1) (length x.1)) as Hsz by (rewrite <- wsize_labels; by apply wsize_run).
    rewrite labels_length, Hsz by done. split_and!.
    + intros n Hn. destruct (lookup_lt_is_Some_2 _ _ Hn) as [id Hid]. destruct (Hat n id Hid) as (sz & Hk).
      destruct (view_label g s d c plus _ id sz V Hc Hk) as (nm & Hl & ?). exists nm. by rewrite labels_lookup, Hid.
    + apply enum_ref_fits. lia.
    + intros nm Hnm. specialize (Hview (offset + 1 + Z.of_nat (length x.1))). rewrite Hnm in Hview.
      destruct (enum_ref_maximal vw (eof (refreshed c)) (eof_cookie (refreshed c)) (Z.to_nat size) (offset + 1) size false) as [Hn|Hn]; [|lia|lia|..].
      * intros k id sz Hk. destruct (view_Some _ _ _ _ _ _ Hk) as (_ & de & _ & -> & _). apply fuse_pos.
      * change (enum_ref _ _ _ _ _ _ _) with x in Hn. by rewrite Hn in Hview.
      * change (enum_ref _ _ _ _ _ _ _) with x in Hn. rewrite run_size_snoc in Hn. destruct (vw _) as [[id sz]|]; simplify_eq/=. lia.
Qed.
End readdir.
