(* ===== verification/DirCallback.v ===== *)
(** * The READDIR and READDIRPLUS callbacks

    A reply of the server is entered into the cache and answered to fuse.  The references
    are kept, and the entries sent are those of the reference [take_ref]. *)
From stdpp Require Import strings sorting.
From S2P Require Import Prelude DirCache DirInv DirRefs DirOps DirNames DirEnum DirEnumInv DirReaddir.

Section callback.
Context (typ : Z → Z → ftype) (fuse_size : bool → string → Z) (fuse_pos : ∀ p n, 0 < fuse_size p n) (max_cache : Z) (max_ok : 2 ≤ max_cache).

Definition plus_fo (o : option nat) (g : held) : held := match o with Some i => plus_f i g | None => g end.

(** The bytes of live entries do not grow while none is created. *)
Record calm (s s' : client) : Prop := {
  ca_evo : evo typ s s';
  ca_next : next_ent s' = next_ent s;
  ca_bytes : bytes_allocated_g s' ≤ bytes_allocated_g s;
}.

Lemma calm_trans s1 s2 s3 : calm s1 s2 → calm s2 s3 → calm s1 s3.
Proof. intros [] []. constructor; [by eapply evo_trans|congruence|lia]. Qed.

Lemma calm_frame l d g g' s s' : inv g s → inv g' s' → frame l d s s' → next_ent s' = next_ent s → calm s s'.
Proof. intros V V' F Hn. constructor; [by eapply frame_evo|done|by eapply bytes_shrink]. Qed.

Lemma calm_dirents g g' s s' : inv g s → inv g' s' → evo typ s s' → dirents s' = dirents s → next_ent s' = next_ent s → calm s s'.
Proof. intros V V' E HD Hn. constructor; [done|done|]. rewrite (i_bytes _ _ _ V), (i_bytes _ _ _ V'), HD. done. Qed.

Lemma anchored_fo o g d : anchored g d → anchored (plus_fo o g) d.
Proof. destruct o; [|done]. intros [?|?]; [by left|right; by right]. Qed.

(** ** The steps of one entry *)
Lemma fetch_inode_spec fid hdl ty g s : inv g s → typed typ s → typ fid hdl = ty →
  wp (get_nfs_inode fid hdl ty) s (λ i s', inv (plus_l i g) s' ∧ evo typ s s' ∧ dircaches s' = dircaches s ∧ dirents s' = dirents s ∧
    next_ent s' = next_ent s ∧ bigcookie s' = bigcookie s ∧
    (∃ I, inode_map s' !! i = Some I ∧ fileid I = fid ∧ fh I = hdl ∧ file_type I = ty) ∧
    (∀ j J, inode_map s !! j = Some J → ∃ J', inode_map s' !! j = Some J' ∧ same_ino J J')).
Proof.
  intros V HT Hty. eapply wp_mono; [apply (get_nfs_inode_spec g s); [done|intros i I HI Hi Hj; rewrite (HT i I HI), Hi, Hj; done]|].
  intros i s1 (V1 & HC1 & HD1 & Hn1 & Hb1 & Hi1 & (I & HI & Hfid & Hfh & HtyI) & Hold & Hnew).
  split_and!; try done; [|eauto]. constructor; [rewrite HD1; intros e de He _; exists de; done|lia| |].
  { intros j J' HJ' Hlt. destruct (inode_map s !! j) as [J|] eqn:HJ.
    - destruct (Hold j J HJ) as (J1 & HJ1 & S1 & S2 & S3 & _). simplify_eq. by exists J.
    - destruct (Hnew j J' HJ' HJ) as [_ ?]. lia. }
  intros _ j J' HJ'.
  destruct (inode_map s !! j) as [J|] eqn:HJ.
  - destruct (Hold j J HJ) as (J1 & HJ1 & S1 & S2 & S3 & _). simplify_eq. rewrite <- S1, <- S2, <- S3. by apply (HT j).
  - destruct (Hnew j J' HJ' HJ) as [-> _]. simplify_eq. congruence.
Qed.

Lemma entry_inode_spec plus e3 g s : inv g s → typed typ s → typ (e_fileid e3) (e_fh e3) = e_type e3 →
  wp (entry_inode plus e3) s (λ oi s', inv (plus_fo oi g) s' ∧ calm s s' ∧ dircaches s' = dircaches s ∧ is_some oi = plus).
Proof.
  intros V HT Hty. unfold entry_inode. destruct plus.
  2: { apply wp_ret. split_and!; [done| |done|done]. constructor; [apply evo_refl|done|done]. }
  wp_call (fetch_inode_spec (e_fileid e3) (e_fh e3) (e_type e3) g s); [done..|].
  intros i s1 (V1 & E1 & HC1 & HD1 & Hn1 & _).
  wp_call (forget_up typ g s1 i); [done|]. intros _ s2 (V2 & E2 & HC2 & HD2 & _ & Hn2). apply wp_ret.
  split_and!; [done| |congruence|done]. eapply (calm_dirents g (plus_f i g)); [done|done|by eapply evo_trans|congruence|congruence].
Qed.

(** The cache without the entry under a cookie. *)
Definition without (D : gmap nat directory_entry) (k : Z) (c : readdirectory_cache) : readdirectory_cache :=
  match dir_entries c !! k with
  | Some id => match D !! id with Some de => erased de c | None => c end
  | None => c
  end.

Lemma remove_old_spec d c k g s :
  hx g = None → inv g s → dircaches s !! d = Some c → pinned (hl g) s d → k ≠ 0 →
  wp (remove_old d k) s (λ _ s', inv g s' ∧ frame (hl g) d s s' ∧ calm s s' ∧
    dircaches s' !! d = Some (without (dirents s) k c) ∧ dir_entries (without (dirents s) k c) !! k = None).
Proof.
  intros Hx V Hc Hp Hk. unfold remove_old, without. wp_call (lookup_spec g s d c k None); [done|done|split; [lia|done]|].
  intros r s1 (-> & T1 & Hr). assert (entry_at c k None = dir_entries c !! k) as He by done. rewrite He in Hr |- *.
  destruct (dir_entries c !! k) as [id|] eqn:Hid.
  2: { subst s1. apply wp_ret. split_and!; [done|apply frame_refl| |done|done]. constructor; [apply evo_refl|done|done]. }
  destruct Hr as (de & Hde & V1). assert (dircaches s1 = dircaches s) as HC1 by apply T1.
  destruct (co_ent _ _ (i_cache _ _ _ V d c Hc) _ _ Hid) as (de0 & Hde0 & Hck0 & _). rewrite Hde0.
  assert (same_ent de0 de) as (Hs1 & Hs2 & Hs3).
  { destruct T1 as (_ & _ & A3 & _). destruct (A3 _ _ Hde) as (? & ? & ?). congruence. }
  wp_call get_dirent_spec; [done|by eexists|]. intros ? ? [-> ?]. simplify_eq.
  apply wp_bind_assert; [apply Z.eqb_eq; congruence|].
  apply wp_bind. eapply wp_mono with (Q := λ _ s2, inv g s2 ∧ touches s s2).
  { destruct (de_inode de) as [j|] eqn:Hj; simpl in V1.
    - eapply wp_mono; [by apply (drop_lookup_spec g s1 id de j)|]. intros _ s2 [V2 T2]. split; [done|by eapply touches_trans].
    - eapply wp_mono; [by apply (shared_reset_spec (dircaches s1) g s1 id)|]. intros _ s2 (V2 & T2 & _).
      assert (dircaches s2 = dircaches s1) as HC2 by apply T2. split; [unfold inv; by rewrite HC2|by eapply touches_trans]. }
  intros _ s2 [V2 T2]. assert (dircaches s2 = dircaches s) as HC2 by apply T2.
  wp_call (remove_spec g s2 d c (cookie de0) None); [done|done|by rewrite HC2|split; [lia|done]| |].
  { eapply frame_pinned; [by apply (touches_frame _ d)|done]. }
  intros r s3. unfold entry_at. simpl. rewrite Hid. intros (_ & de2 & Hde2 & V3 & F3 & Hc3 & Hn3 & _). apply wp_ret.
  assert (frame (hl g) d s s3) as F by (eapply frame_trans; [by apply touches_frame|done]).
  assert (next_ent s3 = next_ent s) as Hn by (destruct T2 as (_ & _ & _ & _ & _ & Hn2 & _); congruence).
  assert (same_ent de0 de2) as (Hs4 & Hs5 & Hs6).
  { destruct T2 as (_ & _ & A3 & _). destruct (A3 _ _ Hde2) as (? & ? & ?). congruence. }
  rewrite (proj2 (Z.eqb_neq _ _) Hk) in Hc3. simpl in Hc3.
  split_and!; [done|done|by eapply calm_frame| |by apply lookup_delete_eq].
  rewrite Hc3. unfold erased, get_cache_size. by rewrite Hs4, Hs5.
Qed.

(** The bytes an entry takes in the cache. *)
Definition entry_size (e3 : entry3) : Z := get_cache_size (Dirent 0 (e_name e3) None false 0 0).

Lemma entry_new_spec d e3 oi g s :
  inv g s → (∀ i, oi = Some i → i ∈ hf g) → e_fileid e3 ≠ 0 → e_cookie e3 < UINT32_MAX →
  wp (entry_new e3 oi) s (λ id s', inv (plus_e id g) s' ∧ frame (hl g) d s s' ∧ dircaches s' = dircaches s ∧ (next_ent s ≤ id)%nat ∧
    bytes_allocated_g s' = bytes_allocated_g s + entry_size e3 ∧
    ∃ de, dirents s' !! id = Some de ∧ cookie de = e_cookie e3 ∧ name de = e_name e3 ∧ de_inode de = oi).
Proof.
  intros V Hoi Hfid Hck. unfold entry_new. destruct oi as [i|].
  - assert (pinned (hl g) s i) as Hp by (apply anchored_pinned; [done|right; by apply Hoi]).
    wp_call (new_plus_spec g s d (e_name e3) (e_cookie e3) i); [done|done|by left|].
    intros id s1 (V1 & F1 & HC1 & Hid & de & Hde & Hk & Hn & Hi & Hb).
    wp_call get_inode_spec; [done|by eapply (i_ptr _ _ _ V1)|]. intros x ? [-> Hxi]. apply wp_bind_assert.
    { pose proof (i_dirc _ _ _ V1 i x Hxi). pose proof (nrefs_pos _ _ _ _ Hde Hi). pose proof (occ_nonneg i (hd g)). simpl in *. cmp. }
    apply wp_ret. split_and!; try done; [|by exists de]. rewrite Hb. unfold entry_size, get_cache_size. by rewrite Hn.
  - eapply wp_mono; [by apply (new_dirent_spec g s d (e_name e3) (e_cookie e3) (e_fileid e3))|].
    intros id s1 (V1 & F1 & HC1 & Hid & de & Hde & Hk & Hn & Hi & Hb).
    split_and!; try done; [|by exists de]. rewrite Hb. unfold entry_size, get_cache_size. by rewrite Hn.
Qed.

(** An entry that is cached and not sent. *)
Lemma skip_entry_spec d c k id oi g s :
  hx g = None → inv (plus_e id (plus_fo oi g)) s → dircaches s !! d = Some c → dir_entries c !! k = Some id → ptr s id oi → anchored g d →
  wp (skip_entry id oi) s (λ _ s', inv g s' ∧ calm s s' ∧ dircaches s' !! d = Some c).
Proof.
  intros Hx V Hc Hk Hptr Ha. destruct oi as [i|]; simpl in V |- *.
  2: { eapply wp_mono; [by apply (shared_reset_spec (dircaches s) g s id)|]. intros _ s1 (V1 & T1 & _).
       assert (dircaches s1 = dircaches s) as HC1 by apply T1. assert (inv g s1) as V1' by (unfold inv; by rewrite HC1).
       split_and!; [done| |by rewrite HC1]. eapply (calm_frame [] d); [exact V|exact V1'|by apply touches_frame|apply T1]. }
  destruct (i_hf _ _ _ V i) as (x & Hxi & Hle); [by left|]. simpl in Hle. rewrite decide_True in Hle by done. pose proof (occ_nonneg i (hf g)).
  wp_call get_inode_spec; [done|by eexists|]. intros ? ? [-> ?]. simplify_eq. apply wp_bind_assert; [cmp|].
  wp_call (forget_down typ (plus_e id g) s i); [done|]. intros _ s1 (V1 & E1 & HC1 & HD1 & Hn1).
  wp_call (shared_reset_spec (dircaches s1) (plus_l i g) s1 id); [done|]. intros _ s2 (V2 & T2 & _).
  assert (dircaches s2 = dircaches s1) as HC2 by apply T2. assert (inv (plus_l i g) s2) as V2' by (unfold inv; by rewrite HC2).
  assert (dircaches s2 !! d = Some c) as Hc2 by congruence.
  wp_call (decref_spec g s2 i); [done|done|]. intros _ s3 [V3 S3].
  assert (calm s s3) as E.
  { eapply calm_trans; [eapply (calm_dirents _ _ s s1); [exact V|exact V1|done..]|]. eapply calm_trans.
    - eapply (calm_frame [] d); [exact V1|exact V2'|by apply touches_frame|apply T2].
    - eapply (calm_frame (hl g) d); [exact V2'|exact V3|by apply shrinks_frame'|apply S3]. }
  assert (pinned (hl g) s2 d) as Hp2.
  { destruct Ha as [Hl|Hf].
    - destruct (i_hl _ _ _ V2' d) as [J HJ]; [by right|]. exists J. split; [done|]. apply occ_pos in Hl. destruct (i_look _ _ _ V2' d J HJ). lia.
    - destruct (i_hf _ _ _ V2' d) as (J & HJ & Hle2); [done|]. exists J. split; [done|]. apply occ_pos in Hf. simpl in Hle2.
      pose proof (occ_nonneg d (hl g)). lia. }
  assert (dircaches s3 !! d = Some c) as Hc3 by (rewrite <- Hc2; by apply (sh_pin _ _ _ _ S3)).
  destruct (co_ent _ _ (i_cache _ _ _ V3 d c Hc3) _ _ Hk) as (de & Hde & _).
  assert (de_inode de = Some i) as Hi.
  { destruct Hptr as (de0 & Hde0 & Hi0). destruct (ev_ent _ _ _ (ca_evo _ _ E) id de Hde) as (? & ? & _ & _ & <-); [by eapply live_lt|]. congruence. }
  wp_call get_inode_spec; [done|by eapply (i_ptr _ _ _ V3)|]. intros y ? [-> Hy].
  apply wp_assert; [|done]. destruct (i_look _ _ _ V3 i y Hy). pose proof (occ_nonneg i (hl g)). cmp.
Qed.

(** ** The cache after one entry *)

(** An entry of another cookie and name stays in a cache that is not purged. *)
Definition stays (D : gmap nat directory_entry) (k : Z) (nm : string) (c c' : readdirectory_cache) : Prop :=
  cache_size c' ≤ cache_size c ∧
  ∀ k' id' de', dir_entries c !! k' = Some id' → D !! id' = Some de' → k' ≠ k → name de' ≠ nm → dir_entries c' !! k' = Some id'.

Lemma erased_stays D k nm c id de :
  cache_ok D c → dir_entries c !! cookie de = Some id → D !! id = Some de → cookie de = k ∨ name de = nm → stays D k nm c (erased de c).
Proof.
  intros Hok Hid Hde Hor. split; [simpl; pose proof (entsize_nonneg D id) as Hsz; unfold entsize in Hsz; rewrite Hde in Hsz; lia|].
  intros k' id' de' Hk' Hde' Hne Hnm. simpl. apply lookup_delete_Some. split; [|done]. intros <-. simplify_eq. destruct Hor; congruence.
Qed.

Lemma without_stays D k nm c : cache_ok D c → stays D k nm c (without D k c).
Proof.
  intros Hok. unfold without. destruct (dir_entries c !! k) as [id|] eqn:Hk; [|by split].
  destruct (co_ent _ _ Hok _ _ Hk) as (de & Hde & Hck & _). rewrite Hde. subst k. eapply erased_stays; [done|done|done|by left].
Qed.

Lemma stripped_stays D k nm c c0 : cache_ok D c → stripped D nm c c0 → stays D k nm c c0.
Proof.
  intros Hok. unfold stripped, entry_at. simpl. destruct (dnlc_map c !! nm) as [k0|] eqn:Hk0; simpl; [|by intros ->].
  destruct (co_dnlc _ _ Hok _ _ Hk0) as (id & de & Hid & Hde & Hnm). rewrite Hid. intros (de' & Hde' & ->). simplify_eq.
  destruct (co_ent _ _ Hok _ _ Hid) as (? & ? & <- & _). simplify_eq. eapply erased_stays; [done|done|done|by right].
Qed.

Lemma stripped_none D nm c c0 k : stripped D nm c c0 → dir_entries c !! k = None → dir_entries c0 !! k = None.
Proof.
  unfold stripped. destruct (entry_at c 0 (Some nm)); [|by intros ->]. intros (de & _ & ->) Hk. simpl.
  destruct (decide (cookie de = k)) as [<-|]; [apply lookup_delete_eq|by rewrite lookup_delete_ne].
Qed.

(** The cache is not about to be purged. *)
Definition live (c : readdirectory_cache) : Prop := invalidate_pending c = false ∧ lookuponly c = false.

Lemma without_live D k c : live c → live (without D k c).
Proof. unfold without. destruct (dir_entries c !! k) as [id|]; [|done]. by destruct (D !! id). Qed.

Lemma purged_live c : live c → live (purged max_cache c).
Proof. unfold purged. destruct (_ <=? _); [|done]. by intros []. Qed.

Lemma stripped_live D nm c c0 : stripped D nm c c0 → live c → live c0.
Proof. unfold stripped. destruct (entry_at c 0 (Some nm)); [|by intros ->]. by intros (de & _ & ->). Qed.

(** [add()] of a received entry below the global limit. *)
Lemma add_entry_spec d c id de verf g s :
  hx g = None → inv g s → dircaches s !! d = Some c → pinned (hl g) s d → id ∈ he g → dirents s !! id = Some de →
  0 < cookie de < UINT32_MAX → verf ≠ 0 → dir_entries c !! cookie de = None → bytes_allocated_g s ≤ max_cache →
  wp (add max_cache d id (Some verf)) s (λ _ s', inv g s' ∧ frame (hl g) d s s' ∧ calm s s' ∧
    ∃ c', dircaches s' !! d = Some c' ∧ dir_entries c' !! cookie de = Some id ∧ cookie_verifier c' = verf ∧ (live c → live c') ∧
          (cache_size c < max_single max_cache → ∃ c0, stays (dirents s) (cookie de) (name de) c c0 ∧
             dir_entries c' = <[cookie de := id]> (dir_entries c0) ∧ cache_size c' = cache_size c0 + get_cache_size de)).
Proof.
  intros Hx V Hc Hp Hin Hde Hck Hvf Hfree Hb.
  eapply wp_mono; [apply (add_spec g s d c id de (Some verf) max_cache); try done; [split; [lia|left; lia]|congruence]|].
  intros r s1 (V1 & F1 & Hn1 & c' & Hc' & Hout).
  assert (inv g s1) as V1' by (revert V1; by apply inv_perm).
  split_and!; [done|done|by eapply calm_frame|]. destruct Hout as [(_ & _ & ?)|(c0 & Hst & Hr & ->)]; [lia|].
  assert (dir_entries (purged max_cache c) !! cookie de = None) as Hfree' by (unfold purged; by destruct (_ <=? _)).
  rewrite (stripped_none _ _ _ _ _ Hst Hfree') in Hr. simpl in Hr. subst r.
  eexists. split_and!; [done|by apply lookup_insert_eq|done| |].
  { intros Hl. by apply (stripped_live _ _ _ _ Hst), purged_live. }
  intros Hsz.
  assert (purged max_cache c = c) as Hpu by (unfold purged; destruct (Z.leb_spec (max_single max_cache) (cache_size c)); [lia|done]).
  rewrite Hpu in Hst. exists c0. split_and!; [|done|done]. eapply stripped_stays; [by apply (i_cache _ _ _ V d)|done].
Qed.

Lemma stays_trans D k nm c1 c2 c3 : stays D k nm c1 c2 → stays D k nm c2 c3 → stays D k nm c1 c3.
Proof. intros [A1 A2] [B1 B2]. split; [lia|]. eauto. Qed.

Lemma stays_evo g g' s s1 d c c' k nm : inv g s → inv g' s1 → evo typ s s1 → dircaches s1 !! d = Some c →
  stays (dirents s1) k nm c c' → stays (dirents s) k nm c c'.
Proof.
  intros V V1 E Hc [A1 A2]. split; [done|]. intros k' id' de' Hk' Hde' Hne Hnm.
  destruct (co_ent _ _ (i_cache _ _ _ V1 d c Hc) _ _ Hk') as (de1 & Hde1 & _).
  destruct (ev_ent _ _ _ E id' de1 Hde1) as (de0 & Hde0 & _ & Hn & _); [by eapply live_lt|]. simplify_eq.
  eapply A2; [done|done|done|congruence].
Qed.

(** The entry received is cached. *)
Definition cached (s : client) (d : nat) (plus : bool) (e3 : entry3) : Prop :=
  ∃ c id de, dircaches s !! d = Some c ∧ dir_entries c !! e_cookie e3 = Some id ∧ dirents s !! id = Some de ∧
             name de = e_name e3 ∧ is_some (de_inode de) = plus.

(** Other entries stay cached while the cache is not purged. *)
Definition grows (e3 : entry3) (s : client) (c c' : readdirectory_cache) : Prop :=
  (live c → live c') ∧
  (cache_size c < max_single max_cache → cache_size c' ≤ cache_size c + entry_size e3 ∧
  ∀ k id de, dir_entries c !! k = Some id → dirents s !! id = Some de → k ≠ e_cookie e3 → name de ≠ e_name e3 → dir_entries c' !! k = Some id).

(** An entry a server may send. *)
Definition entry_good (e3 : entry3) : Prop :=
  0 < e_cookie e3 < UINT32_MAX ∧ e_fileid e3 ≠ 0 ∧ typ (e_fileid e3) (e_fh e3) = e_type e3.

Lemma enter_spec d c plus verf e3 g s :
  hx g = None → inv g s → typed typ s → dircaches s !! d = Some c → anchored g d → entry_good e3 → verf ≠ 0 →
  bytes_allocated_g s + entry_size e3 ≤ max_cache →
  wp (enter max_cache d plus verf e3) s (λ p s', inv (plus_e p.2 (plus_fo p.1 g)) s' ∧ evo typ s s' ∧
    bytes_allocated_g s' ≤ bytes_allocated_g s + entry_size e3 ∧ is_some p.1 = plus ∧
    ∃ c' de, dircaches s' !! d = Some c' ∧ cookie_verifier c' = verf ∧ dir_entries c' !! e_cookie e3 = Some p.2 ∧
      dirents s' !! p.2 = Some de ∧ cookie de = e_cookie e3 ∧ name de = e_name e3 ∧ de_inode de = p.1 ∧ grows e3 s c c').
Proof.
  intros Hx V HT Hc Ha (Hck & Hfid & Hty) Hvf Hb. unfold enter.
  wp_call (entry_inode_spec plus e3 g s); [done|done|done|]. intros oi s1 (V1 & K1 & HC1 & Hoi).
  assert (hx (plus_fo oi g) = None) as Hx1 by (by destruct oi).
  assert (pinned (hl (plus_fo oi g)) s1 d) as Hp1 by (by apply anchored_pinned, anchored_fo).
  assert (dircaches s1 !! d = Some c) as Hc1 by congruence.
  wp_call (remove_old_spec d c (e_cookie e3) (plus_fo oi g) s1); [done..|lia|]. intros _ s2 (V2 & F2 & K2 & Hc2 & Hfree).
  set (c2 := without (dirents s1) (e_cookie e3) c) in *.
  wp_call (entry_new_spec d e3 oi (plus_fo oi g) s2); [done|intros i ->; by left|done|lia|].
  intros id s3 (V3 & F3 & HC3 & _ & Hb3 & de & Hde & Hk & Hn & Hi).
  assert (evo typ s s3) as E3.
  { eapply evo_trans; [apply K1|]. eapply evo_trans; [apply K2|]. by eapply frame_evo. }
  assert (dircaches s3 !! d = Some c2) as Hc3 by congruence.
  pose proof (ca_bytes _ _ K1). pose proof (ca_bytes _ _ K2).
  wp_call (add_entry_spec d c2 id de verf (plus_e id (plus_fo oi g)) s3); [done|done|done| |by left|done|lia|done|by rewrite Hk|lia|].
  { eapply (frame_pinned _ d s2 s3); [exact F3|]. by eapply frame_pinned. }
  intros _ s4 (V4 & F4 & K4 & c4 & Hc4 & Hent & Hv4 & Hlive & Hgrow). apply wp_ret. simpl.
  destruct (i_he _ _ _ V4 id) as [de4 Hde4]; [by left|].
  destruct (ev_ent _ _ _ (ca_evo _ _ K4) id de4 Hde4) as (de' & Hde' & Hs1 & Hs2 & Hs3); [by eapply live_lt|]. simplify_eq.
  pose proof (ca_bytes _ _ K4).
  split_and!; [done|by eapply evo_trans, K4|lia|done|]. exists c4, de4. rewrite Hk in Hent. split_and!; try done; try congruence.
  split; [intros Hl; by apply Hlive, without_live|].
  intros Hsz. assert (stays (dirents s) (e_cookie e3) (e_name e3) c c2) as St1.
  { eapply (stays_evo g _ s s1 d); [done|done|apply K1|done|]. apply without_stays. by apply (i_cache _ _ _ V1 d). }
  destruct Hgrow as (c0 & St2 & Hd4 & Hs4); [destruct St1; lia|].
  assert (stays (dirents s) (e_cookie e3) (e_name e3) c c0) as [St3 St4].
  { eapply stays_trans; [exact St1|]. rewrite Hk, Hn in St2. by eapply (stays_evo g _ s s3 d). }
  split.
  - rewrite Hs4. unfold entry_size, get_cache_size. simpl. rewrite Hn. lia.
  - intros k id' de' Hk' Hde'' Hne Hnm. rewrite Hd4, Hk, lookup_insert_ne by done. by eapply St4.
Qed.

(** ** The loop over the entries *)
Definition lab (e3 : entry3) : Z * string := (e_cookie e3, e_name e3).

(** The entries sent: those at or beyond the target, while they fit. *)
Fixpoint take_ref (plus : bool) (target rem : Z) (es : list entry3) : list entry3 :=
  match es with
  | [] => []
  | e3 :: es' =>
      if target <=? e_cookie e3 then
        if fuse_size plus (e_name e3) <=? rem then e3 :: take_ref plus target (rem - fuse_size plus (e_name e3)) es' else []
      else take_ref plus target rem es'
  end.

Lemma collected_snoc g s plus off v os id oi de :
  Forall2 (ptr s) v os → (plus = true → Forall is_Some os) → (∀ e de, e ∈ v → dirents s !! e = Some de → off < cookie de) →
  dirents s !! id = Some de → de_inode de = oi → is_some oi = plus → off < cookie de →
  inv (plus_e id (plus_fo oi (more_e v (more_f (omap Datatypes.id os) g)))) s → collected g s plus off (v ++ [id]) (os ++ [oi]).
Proof.
  intros HF Hplus Hck Hde Hi Hoi Hoff V. constructor.
  - apply Forall2_app; [done|]. constructor; [by exists de|constructor].
  - intros Hp. apply Forall_app. split; [by apply Hplus|]. constructor; [|constructor]. rewrite Hp in Hoi. by destruct oi.
  - intros e de' [He|He]%elem_of_app Hde'; [by eapply Hck|]. apply list_elem_of_singleton in He as ->. congruence.
  - revert V. apply inv_perm; simpl; try (by destruct oi).
    + intros j. destruct oi; simpl; rewrite <- app_assoc; simpl; rewrite !occ_app; simpl; rewrite ?occ_app; lia.
    + intros j. rewrite omap_app. destruct oi; simpl; rewrite ?app_nil_r, <- ?app_assoc; simpl; rewrite ?occ_app; simpl; rewrite ?occ_app; lia.
Qed.

Lemma cb_entry_spec d c plus off target verf reof e3 x os g s :
  hx g = None → collected g s plus off (vec x) os → typed typ s → dircaches s !! d = Some c → anchored g d → entry_good e3 → verf ≠ 0 →
  off ≤ last_valid_offset x < e_cookie e3 → bytes_allocated_g s + entry_size e3 ≤ max_cache →
  let got := target <=? e_cookie e3 in
  let rem := if got && (0 <=? rem_size x) then rem_size x - fuse_size plus (e_name e3) else rem_size x in
  wp (cb_entry fuse_size max_cache d plus target verf reof e3 x) s (λ x' s', (∃ os', collected g s' plus off (vec x') os') ∧ evo typ s s' ∧
    bytes_allocated_g s' ≤ bytes_allocated_g s + entry_size e3 ∧
    x' = CB (e_cookie e3) (if reof then e_cookie e3 else cb_eof_cookie x) (num_dirents x + 1) rem got (vec x') ∧
    omap (label s') (vec x') = omap (label s) (vec x) ++ (if got && (0 <=? rem_size x) && (0 <=? rem) then [lab e3] else []) ∧
    cached s' d plus e3 ∧ ∃ c', dircaches s' !! d = Some c' ∧ cookie_verifier c' = verf ∧ grows e3 s c c').
Proof.
  intros Hx [HF Hplus Hck V] HT Hc Ha Hg Hvf Hlast Hb got rem. unfold cb_entry. apply wp_bind_assert; [cmp|].
  set (g1 := more_e (vec x) (more_f (omap id os) g)) in *.
  assert (anchored g1 d) as Ha1 by (destruct Ha; [by left|right; apply elem_of_app; by right]).
  assert (∀ e, e ∈ vec x → e ∈ he g1) as Hin by (intros; apply elem_of_app; by left).
  assert (∀ e, e ∈ vec x → is_Some (dirents s !! e)) as Hlive by (intros; apply (i_he _ _ _ V); by apply Hin).
  wp_call (enter_spec d c plus verf e3 g1 s); [done..|].
  intros [oi e] s1 (V1 & E1 & B1 & Hoi & c1 & de & Hc1 & Hv1 & Hent & Hde & Hk & Hn & Hi & Hgrow). simpl in *.
  assert (Forall2 (ptr s1) (vec x) os) as HF1.
  { eapply (ptrs_evo typ g1 _ s s1); [exact V|exact V1|done| |done]. intros e' He'. right. destruct oi; by apply Hin. }
  assert (∀ e de, e ∈ vec x → dirents s1 !! e = Some de → off < cookie de) as Hck1
    by (eapply (cookies_evo typ _ s s1 (λ k, off < k)); done).
  assert (omap (label s1) (vec x) = omap (label s) (vec x)) as Hlab1.
  { eapply (labels_evo typ g1 _ s s1); [exact V|exact V1|done| |done]. intros e' He'. right. destruct oi; by apply Hin. }
  apply wp_bind_assert.
  { destruct (Z.leb_spec target (e_cookie e3)); [done|]. simpl. destruct Hg as (? & _). destruct (Z.eqb_spec target 0); [lia|done]. }
  fold got rem. destruct (got && (0 <=? rem_size x) && (0 <=? rem)).
  - apply wp_bind. eapply wp_mono with (Q := λ _ s', s' = s1).
    { destruct oi as [i|]; [|by apply wp_ret]. destruct (i_hf _ _ _ V1 i) as (y & Hy & Hle); [by left|].
      simpl in Hle. rewrite decide_True in Hle by done. match type of Hle with _ + ?o ≤ _ => assert (0 ≤ o) by apply occ_nonneg end.
      destruct (i_look _ _ _ V1 i y Hy) as [Hl _]. pose proof (occ_nonneg i (hl (plus_e e (plus_fo (Some i) g1)))).
      wp_call get_inode_spec; [done|by eexists|]. intros ? ? [-> ?]. simplify_eq. apply wp_bind_assert; [cmp|]. apply wp_assert; [cmp|done]. }
    intros _ ? ->. apply wp_ret. split_and!; [|done|done|done| |by exists c1, e, de; rewrite Hi|by exists c1].
    + exists (os ++ [oi]). simpl. eapply collected_snoc; try done. rewrite Hk. lia.
    + simpl. rewrite omap_app, Hlab1. f_equal. simpl. unfold label. rewrite Hde. simpl. unfold lab. by rewrite Hk, Hn.
  - wp_call (skip_entry_spec d c1 (e_cookie e3) e oi g1 s1); [done|done|done|done|by exists de|done|].
    intros _ s2 (V2 & K2 & Hc2). apply wp_ret. pose proof (ca_bytes _ _ K2). pose proof (ca_evo _ _ K2) as E2.
    split_and!; [| |lia|done| | |by exists c1].
    + exists os. constructor; [|done| |done]; simpl.
      * eapply (ptrs_evo typ _ g1 s1 s2); [exact V1|exact V2|done|done|done].
      * eapply (cookies_evo typ _ s s2 (λ k, off < k)); [exact V|by eapply evo_trans|done|done].
    + by eapply evo_trans.
    + simpl. rewrite app_nil_r, <- Hlab1. eapply (labels_evo typ _ g1 s1 s2); [exact V1|exact V2|done|done|].
      intros e' He'. apply (i_he _ _ _ V1). right. destruct oi; by apply Hin.
    + destruct (co_ent _ _ (i_cache _ _ _ V2 d c1 Hc2) _ _ Hent) as (de2 & Hde2 & _). exists c1, e, de2.
      destruct (ev_ent _ _ _ E2 e de2 Hde2) as (de' & Hde' & Hs1 & Hs2 & Hs3); [by eapply live_lt|]. simplify_eq.
      split_and!; try done; congruence.
Qed.

(** The cookies of a reply ascend. *)
Fixpoint ascending (k : Z) (es : list entry3) : Prop :=
  match es with
  | [] => True
  | e3 :: es' => k < e_cookie e3 ∧ ascending (e_cookie e3) es'
  end.

Definition total (es : list entry3) : Z := foldr (λ e3 (n : Z), entry_size e3 + n) 0 es.

Lemma entry_size_pos e3 : 0 < entry_size e3.
Proof. unfold entry_size, get_cache_size, sizeof_directory_entry. lia. Qed.

Lemma total_nonneg es : 0 ≤ total es.
Proof. induction es as [|e3 es IH]; simpl; [done|]. pose proof (entry_size_pos e3). lia. Qed.

Lemma take_ref_negative plus target rem es : rem < 0 → take_ref plus target rem es = [].
Proof.
  intros Hr. induction es as [|e3 es IH]; simpl; [done|]. destruct (target <=? e_cookie e3); [|done].
  destruct (Z.leb_spec (fuse_size plus (e_name e3)) rem); [|done]. pose proof (fuse_pos plus (e_name e3)). lia.
Qed.

(** The variables of the loop that depend on the last entry only. *)
Definition at_last (target : Z) (reof : bool) (es : list entry3) (x x' : cb) : Prop :=
  match last es with
  | None => x' = x
  | Some e3 => last_valid_offset x' = e_cookie e3 ∧ got_new_entry x' = (target <=? e_cookie e3) ∧
               cb_eof_cookie x' = (if reof then e_cookie e3 else cb_eof_cookie x)
  end.

(** Entries before the ones of the reply stay cached. *)
Definition keeps (es : list entry3) (bound : Z) (s : client) (c c' : readdirectory_cache) : Prop :=
  (live c → live c') ∧
  (cache_size c + total es ≤ max_single max_cache → ∀ k id de,
  dir_entries c !! k = Some id → dirents s !! id = Some de → k ≤ bound → name de ∉ (e_name <$> es) → dir_entries c' !! k = Some id).

Lemma cached_keeps g g' s s' d c c' plus e3 es bound :
  inv g s → inv g' s' → evo typ s s' → cached s d plus e3 → dircaches s !! d = Some c → dircaches s' !! d = Some c' → e_cookie e3 ≤ bound →
  e_name e3 ∉ (e_name <$> es) → cache_size c + total es ≤ max_single max_cache → keeps es bound s c c' → cached s' d plus e3.
Proof.
  intros V V' E (c0 & id & de & Hc0 & Hk & Hde & Hn & Hi) Hc Hc' Hb Hnot Hsz Hkeep. simplify_eq.
  assert (dir_entries c' !! e_cookie e3 = Some id) as Hk' by (eapply (proj2 Hkeep); [done|done|done|done|by rewrite Hn]).
  destruct (co_ent _ _ (i_cache _ _ _ V' d c' Hc') _ _ Hk') as (de' & Hde' & _).
  destruct (ev_ent _ _ _ E id de' Hde') as (de0 & Hde0 & _ & Hs2 & Hs3); [by eapply live_lt|]. simplify_eq.
  exists c', id, de'. split_and!; congruence.
Qed.

Lemma cb_loop_spec d c plus off target verf reof es x os g s :
  hx g = None → collected g s plus off (vec x) os → typed typ s → dircaches s !! d = Some c → anchored g d → Forall entry_good es → verf ≠ 0 →
  off ≤ last_valid_offset x → ascending (last_valid_offset x) es → bytes_allocated_g s + total es ≤ max_cache →
  wp (cb_loop fuse_size max_cache d plus target verf reof es x) s (λ x' s', (∃ os', collected g s' plus off (vec x') os') ∧ evo typ s s' ∧
    num_dirents x' = num_dirents x + Z.of_nat (length es) ∧ at_last target reof es x x' ∧
    omap (label s') (vec x') = omap (label s) (vec x) ++ (lab <$> take_ref plus target (rem_size x) es) ∧
    ∃ c', dircaches s' !! d = Some c' ∧ cookie_verifier c' = (if bool_decide (es = []) then cookie_verifier c else verf) ∧ keeps es (last_valid_offset x) s c c' ∧
      (cache_size c + total es ≤ max_single max_cache → NoDup (e_name <$> es) → ∀ e3, e3 ∈ es → cached s' d plus e3)).
Proof.
  intros Hx Hcol HT Hc Ha Hgood Hvf. revert x os c s Hcol HT Hc.
  induction es as [|e3 es IH]; intros x os c s Hcol HT Hc Hoff Hasc Hb; simpl.
  { apply wp_ret. split_and!; [by exists os|apply evo_refl|simpl; lia|done|by rewrite app_nil_r|]. exists c. split_and!; [done|done| |].
    - split; [done|]. by intros ? k id de.
    - by intros _ _ e3 He%not_elem_of_nil. }
  apply Forall_cons_1 in Hgood as [Hg Hgood]. specialize (IH Hgood). destruct Hasc as [Hlt Hasc]. simpl in Hb.
  pose proof (total_nonneg es) as Htot. pose proof (entry_size_pos e3) as Hesz.
  wp_call (cb_entry_spec d c plus off target verf reof e3 x os g s); [done..|lia|]. cbv zeta.
  intros x1 s1 ((os1 & Hcol1) & E1 & B1 & Hx1 & Hlab1 & Hcach1 & c1 & Hc1 & Hv1 & Hgrow).
  assert (last_valid_offset x1 = e_cookie e3 ∧ num_dirents x1 = num_dirents x + 1 ∧ got_new_entry x1 = (target <=? e_cookie e3) ∧
    cb_eof_cookie x1 = (if reof then e_cookie e3 else cb_eof_cookie x) ∧
    rem_size x1 = if (target <=? e_cookie e3) && (0 <=? rem_size x) then rem_size x - fuse_size plus (e_name e3) else rem_size x)
    as (Hl1 & Hn1 & Hg1 & He1 & Hr1) by (rewrite Hx1; done). clear Hx1.
  assert (typed typ s1) as HT1 by (by apply (ev_typ _ _ _ E1)).
  eapply wp_mono; [apply (IH x1 os1 c1 s1); [done|done|done|lia|by rewrite Hl1|lia]|].
  intros x2 s2 (Hcol2 & E2 & Hn2 & Hlast2 & Hlab2 & c2 & Hc2 & Hv2 & Hkeep2 & Hcach2).
  assert (evo typ s s2) as E by (by eapply evo_trans).
  split_and!; [done|done|simpl; lia| | |].
  - revert Hlast2. unfold at_last. rewrite last_cons. destruct (last es) as [e4|].
    + intros (-> & -> & ->). split_and!; [done|done|]. by destruct reof.
    + intros ->. done.
  - rewrite Hlab2, Hlab1, <- app_assoc. f_equal. rewrite Hr1. simpl. destruct (target <=? e_cookie e3); simpl; [|done].
    pose proof (fuse_pos plus (e_name e3)) as Hpos.
    destruct (Z.leb_spec 0 (rem_size x)); simpl.
    + destruct (Z.leb_spec 0 (rem_size x - fuse_size plus (e_name e3))), (Z.leb_spec (fuse_size plus (e_name e3)) (rem_size x)); try lia; [done|].
      by rewrite take_ref_negative by lia.
    + destruct (Z.leb_spec (fuse_size plus (e_name e3)) (rem_size x)); [lia|]. by rewrite take_ref_negative by lia.
  - exists c2. split_and!; [done| | |].
    + rewrite Hv2, Hv1. by destruct (bool_decide (es = [])).
    + split; [intros Hl; by apply Hkeep2, Hgrow|]. intros Hsz k id de Hk Hde Hbound Hnot. rewrite fmap_cons, not_elem_of_cons in Hnot. destruct Hnot as [Hne Hnot].
      destruct Hgrow as [_ [Hsz1 Hstay]]; [simpl in Hsz; lia|].
      assert (dir_entries c1 !! k = Some id) as Hk1 by (eapply Hstay; [done|done|lia|done]).
      destruct Hcol1 as [_ _ _ V1]. destruct (co_ent _ _ (i_cache _ _ _ V1 d c1 Hc1) _ _ Hk1) as (de1 & Hde1 & _).
      destruct Hcol as [_ _ _ V]. destruct (ev_ent _ _ _ E1 id de1 Hde1) as (de0 & Hde0 & _ & Hs2 & _); [by eapply live_lt|]. simplify_eq.
      eapply (proj2 Hkeep2); [simpl in Hsz; lia|done|done|lia|congruence].
    + intros Hsz Hdup e4 He4. apply NoDup_cons in Hdup as [Hnot Hdup].
      destruct Hgrow as [_ [Hsz1 _]]; [simpl in Hsz; lia|]. simpl in Hsz.
      apply elem_of_cons in He4 as [->|He4]; [|apply Hcach2; [lia|done|done]].
      destruct Hcol1 as [_ _ _ V1], Hcol2 as (os2 & [_ _ _ V2]).
      eapply (cached_keeps _ _ s1 s2 d c1 c2 plus e3 es); [exact V1|exact V2|done|done|done|done| |done|lia|exact Hkeep2]. lia.
Qed.

(** ** The callback *)
Lemma set_eof_spec now d c k g s : inv g s → dircaches s !! d = Some c → 2 ≤ k < UINT32_MAX →
  wp (set_eof now d k) s (λ _ s', inv g s' ∧ evo typ s s' ∧ dirents s' = dirents s ∧
    dircaches s' !! d = Some (with_eof true k (if seq_last_cookie c =? k then now else 0) c)).
Proof.
  intros V Hc Hk. unfold set_eof, get_dircache, put_dircache. apply wp_bind_assert; [cmp|]. do 2 apply wp_bind. apply wp_get. cbv beta.
  eapply wp_deref; [done|]. cbv beta. apply wp_modify.
  split_and!; [|eapply frame_evo, (frame_put_cache [])|done|apply lookup_insert_eq].
  apply invc_caches. eapply (inv_put_cache g); [exact V|done|done| |exact (i_verf _ _ _ V d c Hc)|done..].
  destruct (i_cache _ _ _ V d c Hc). constructor; done.
Qed.

Lemma invalidate_spec d c g s : inv g s → dircaches s !! d = Some c →
  wp (invalidate d) s (λ _ s', inv g s' ∧ evo typ s s' ∧ dirents s' = dirents s ∧ bytes_allocated_g s' = bytes_allocated_g s ∧ bigcookie s' = bigcookie s ∧
    dircaches s' = <[d := with_flags (lookuponly c) (confirmed_msecs c) true c]> (dircaches s)).
Proof.
  intros V Hc. unfold invalidate, get_dircache, put_dircache. do 2 apply wp_bind. apply wp_get. cbv beta.
  eapply wp_deref; [done|]. cbv beta. apply wp_modify.
  split_and!; [|eapply frame_evo, (frame_put_cache [])|done..]. eapply inv_flags; try done. exact (i_verf _ _ _ V d c Hc).
Qed.

Lemma take_ref_length plus target rem es : (length (take_ref plus target rem es) ≤ length es)%nat.
Proof.
  revert rem. induction es as [|e3 es IH]; intros rem; simpl; [done|].
  destruct (target <=? e_cookie e3); [|pose proof (IH rem); lia].
  destruct (_ <=? rem); simpl; [|lia]. pose proof (IH (rem - fuse_size plus (e_name e3))). lia.
Qed.

Lemma take_ref_none plus target rem es : Forall (λ e3, e_cookie e3 < target) es → take_ref plus target rem es = [].
Proof. induction 1 as [|e3 es He _ IH]; simpl; [done|]. destruct (Z.leb_spec target (e_cookie e3)); [lia|done]. Qed.

Lemma ascending_last k es e3 : ascending k es → last es = Some e3 → Forall (λ e, e_cookie e ≤ e_cookie e3) es.
Proof.
  revert k. induction es as [|e es IH]; intros k; [done|]. intros [_ Ha]. rewrite last_cons. destruct (last es) as [e4|] eqn:Hl.
  - intros [= ->]. pose proof (IH _ Ha eq_refl) as HF. constructor; [|done]. destruct es as [|e5 es]; [done|].
    destruct Ha as [? _]. apply Forall_cons_1 in HF as [? _]. lia.
  - intros [= ->]. apply last_None in Hl as ->. by repeat constructor.
Qed.

Lemma take_ref_size plus target rem es : 0 ≤ rem → lsize fuse_size plus (lab <$> take_ref plus target rem es) ≤ rem.
Proof.
  revert rem. induction es as [|e3 es IH]; intros rem Hr; simpl; [done|]. destruct (target <=? e_cookie e3); [|by apply IH].
  destruct (Z.leb_spec (fuse_size plus (e_name e3)) rem); simpl; [|done]. specialize (IH (rem - fuse_size plus (e_name e3))). unfold lsize in *. apply (Z.le_trans _ (fuse_size plus (e_name e3) + (rem - fuse_size plus (e_name e3)))); [apply Zplus_le_compat_l, IH; lia|lia].
Qed.

(** A reply a server may send to a request. *)
Record reply_good (rq : request) (allocated : Z) (es : list entry3) (reof : bool) (verf : Z) : Prop := {
  rg_entries : Forall entry_good es;
  rg_asc : ascending (rq_offset rq) es;
  rg_verf : verf ≠ 0 ∧ (rq_verf rq = 0 ∨ verf = rq_verf rq);
  rg_some : es ≠ [] ∨ reof = true;
  rg_eof e3 : reof = true → last es = Some e3 → 2 ≤ e_cookie e3;
  rg_room : allocated + total es ≤ max_cache;
}.

(** The references fuse received, and the outcome apart from them. *)
Definition outcome_refs (o : outcome) : list nat := match o with Sent r => r_refs r | _ => [] end.

Definition without_refs (o : outcome) : outcome :=
  match o with Sent r => Sent (Received (r_entries r) []) | _ => o end.

(** The outcome of the callback as a function of the request and the reply. *)
Definition callback_ref (plus : bool) (rq : request) (rs : response) : outcome :=
  match rs with
  | R_ok es reof _ _ =>
      if match last es with Some e3 => rq_target rq <=? e_cookie e3 | None => false end || reof
      then Sent (Received (lab <$> take_ref plus (rq_target rq) (rq_size rq) es) [])
      else Again (match last es with Some e3 => e_cookie e3 | None => rq_offset rq end) (rq_target rq)
  | R_jukebox => Jukebox
  | R_bad_cookie => Again 0 (Z.max (rq_offset rq + 1) (rq_target rq))
  | R_error => Error
  end.

Lemma cb_eof_spec now d c plus gap x g s :
  inv g s → dircaches s !! d = Some c →
  (cb_eof_cookie x = -1 ∧ vec x = [] ∧ num_dirents x = 0 ∨ 2 ≤ cb_eof_cookie x < UINT32_MAX ∧ 0 < num_dirents x) →
  wp (cb_eof now d plus gap x) s (λ _ s', inv g s' ∧ evo typ s s' ∧ dirents s' = dirents s ∧
    ∃ c', dircaches s' !! d = Some c' ∧ dir_entries c' = dir_entries c ∧ cookie_verifier c' = cookie_verifier c ∧
          (0 < num_dirents x → live c → live c')).
Proof.
  intros V Hc Hx. unfold cb_eof. destruct Hx as [(Hm & Hv & Hn)|(Hk & Hn)].
  - rewrite Hm, Hv, Hn. simpl. apply wp_bind_assert; [done|].
    assert (wp (mret ()) s (λ (_ : ()) s', inv g s' ∧ evo typ s s' ∧ dirents s' = dirents s ∧
      ∃ c', dircaches s' !! d = Some c' ∧ dir_entries c' = dir_entries c ∧ cookie_verifier c' = cookie_verifier c ∧ (0 < 0 → live c → live c'))) as Hnop
      by (apply wp_ret; split_and!; [done|apply evo_refl|done|by exists c]).
    destruct gap; simpl; [done|]. apply wp_bind_assert; [by rewrite orb_true_r|].
    unfold get_dircache. do 2 apply wp_bind. apply wp_get. cbv beta. eapply wp_deref; [done|]. cbv beta.
    destruct (eof c) eqn:Heof; simpl.
    + apply wp_assert; [|split_and!; [done|apply evo_refl|done|by exists c]].
      pose proof (co_eof _ _ (i_cache _ _ _ V d c Hc) Heof) as Hr. unfold UINT32_MAX in Hr.
      destruct (Z.eqb_spec (i64 (eof_cookie c)) (-1)) as [He|]; [|done]. rewrite i64_small in He; lia.
    + eapply wp_mono; [by apply (invalidate_spec d c)|]. intros _ s1 (V1 & E1 & HD1 & _ & _ & HC1). split_and!; [done..|].
      rewrite HC1, lookup_insert_eq. eexists. split_and!; [done..|lia].
  - assert (cb_eof_cookie x =? -1 = false) as -> by (apply Z.eqb_neq; lia). simpl. apply wp_bind_assert; [done|].
    apply wp_bind_assert; [cmp|].
    eapply wp_mono; [by apply (set_eof_spec now d c)|]. intros _ s1 (V1 & E1 & HD1 & HC1). split_and!; [done..|]. eauto.
Qed.

Definition response_good (rq : request) (allocated : Z) (rs : response) : Prop :=
  match rs with
  | R_ok es reof verf _ => reply_good rq allocated es reof verf
  | _ => True
  end.

(** The entries of the reply are cached, when the cache of the directory need not be
    purged and the names differ. *)
Definition reply_cached (s' : client) (d : nat) (plus : bool) (c : readdirectory_cache) (rs : response) : Prop :=
  match rs with
  | R_ok es _ _ _ => cache_size c + total es ≤ max_single max_cache → NoDup (e_name <$> es) → ∀ e3, e3 ∈ es → cached s' d plus e3
  | _ => True
  end.

Lemma cached_same s s' d c c' plus e3 :
  dircaches s !! d = Some c → dircaches s' !! d = Some c' → dir_entries c' = dir_entries c → dirents s' = dirents s →
  cached s d plus e3 → cached s' d plus e3.
Proof. intros Hc Hc' He HD (c0 & id & de & ? & ? & ? & ? & ?). simplify_eq. exists c', id, de. rewrite He, HD. done. Qed.

Lemma cached_evo g g' s s' d c plus e3 :
  inv g s → inv g' s' → evo typ s s' → dircaches s !! d = Some c → dircaches s' !! d = Some c → cached s d plus e3 → cached s' d plus e3.
Proof.
  intros V V' E Hc Hc' (c0 & id & de & ? & Hk & Hde & Hn & Hi). simplify_eq.
  destruct (co_ent _ _ (i_cache _ _ _ V' d _ Hc') _ _ Hk) as (de' & Hde' & _).
  destruct (ev_ent _ _ _ E id de' Hde') as (de0 & Hde0 & _ & Hs2 & Hs3); [by eapply live_lt|]. simplify_eq.
  exists c, id, de'. split_and!; congruence.
Qed.

Lemma finish_spec now d c plus rq es reof gap x x0 g s :
  hx g = None → (∃ os, collected g s plus (rq_offset rq) (vec x) os) → dircaches s !! d = Some c → anchored g d → 4096 ≤ rq_size rq →
  (es ≠ [] → cookie_verifier c ≠ 0) → ascending (rq_offset rq) es → Forall entry_good es → es ≠ [] ∨ reof = true →
  (∀ e3, reof = true → last es = Some e3 → 2 ≤ e_cookie e3) →
  x0 = CB (rq_offset rq) (-1) 0 (rq_size rq) false [] → num_dirents x = Z.of_nat (length es) → at_last (rq_target rq) reof es x0 x →
  omap (label s) (vec x) = lab <$> take_ref plus (rq_target rq) (rq_size rq) es →
  wp (do_ massert (Z.of_nat (length (vec x)) <=? num_dirents x);
      do_ (if reof then cb_eof now d plus gap x else mret ());
      if got_new_entry x || reof then
        do sent ← send_response fuse_size d plus (rq_offset rq) (rq_size rq) (vec x); mret (Sent sent)
      else do_ mfor (vec x) shared_reset; again rq (got_new_entry x) reof (last_valid_offset x) (rq_target rq)) s
    (λ o s', inv (more_f (outcome_refs o) g) s' ∧ evo typ s s' ∧ (∃ c', dircaches s' !! d = Some c' ∧ (es ≠ [] → live c → live c')) ∧
      without_refs o = callback_ref plus rq (R_ok es reof 0 false) ∧
      ∀ e3, cached s d plus e3 → cached s' d plus e3).
Proof.
  intros Hx (os & Hcol) Hc Ha Hsz Hvf Hasc Hgood Hsome Heof2 -> Hnum Hlast Hlab.
  pose proof Hcol as [HF Hplus Hck V]. set (gv := more_e (vec x) (more_f (omap id os) g)) in *.
  assert (∀ e, e ∈ vec x → e ∈ he gv) as Hin by (intros; apply elem_of_app; by left).
  assert (∀ e, e ∈ vec x → is_Some (dirents s !! e)) as Hlive by (intros; apply (i_he _ _ _ V); by apply Hin).
  assert (length (vec x) = length (take_ref plus (rq_target rq) (rq_size rq) es)) as Hlen
    by (rewrite <- (labels_length s (vec x) Hlive), Hlab; apply length_fmap).
  pose proof (take_ref_length plus (rq_target rq) (rq_size rq) es).
  apply wp_bind_assert; [apply Z.leb_le; lia|].
  apply wp_bind. eapply wp_mono with (Q := λ _ s1, inv gv s1 ∧ evo typ s s1 ∧ dirents s1 = dirents s ∧
    ∃ c1, dircaches s1 !! d = Some c1 ∧ dir_entries c1 = dir_entries c ∧ cookie_verifier c1 = cookie_verifier c ∧ (es ≠ [] → live c → live c1)).
  { destruct reof.
    - eapply wp_mono; [apply (cb_eof_spec now d c plus gap x gv s); [done|done|]|].
      2: { intros _ s1 (? & ? & ? & c1 & ? & ? & ? & Hl). split_and!; [done..|]. exists c1. split_and!; [done..|].
           intros Hne. apply Hl. destruct es; [done|]. simpl in Hnum. lia. }
      unfold at_last in Hlast. destruct (last es) as [e3|] eqn:Hl.
      + right. destruct Hlast as (_ & _ & ->). split; [split; [by apply Heof2|]|].
        * apply last_Some_elem_of in Hl. by apply (proj1 (Forall_forall _ _) Hgood).
        * destruct es; [done|]. simpl in Hnum. lia.
      + left. rewrite Hlast. simpl. done.
    - apply wp_ret. split_and!; [done|apply evo_refl|done|by exists c]. }
  intros _ s1 (V1 & E1 & HD1 & c1 & Hc1 & Hent1 & Hv1 & Hlive1).
  assert (∀ e3, cached s d plus e3 → cached s1 d plus e3) as Hcs by (intros e3; by eapply cached_same).
  assert (omap (label s1) (vec x) = omap (label s) (vec x)) as Hlab1 by (unfold label; by rewrite HD1).
  destruct (got_new_entry x || reof) eqn:Hsend.
  - wp_call (send_response_spec typ fuse_size fuse_pos d c1 plus (rq_offset rq) (rq_size rq) (vec x) os g s1); [done| |done| |done|done|].
    + constructor; [|done| |done]; unfold ptr; rewrite ?HD1; done.
    + rewrite Hv1. intros Hne. apply Hvf. intros ->. simpl in Hlen. by destruct (vec x).
    + intros sent s2 (V2 & E2 & Hc2 & v1 & v2 & Hv & Hsent & Hfull). apply wp_ret.
      assert (v2 = []) as -> by (apply Hfull; rewrite wsize_labels, Hlab1, Hlab; apply take_ref_size; lia).
      rewrite app_nil_r in Hv. subst v1. split_and!; [done|by eapply evo_trans|by exists c1| |].
      * simpl. rewrite Hsent, Hlab1, Hlab. unfold at_last in Hlast. destruct (last es) as [e3|].
        -- destruct Hlast as (_ & Hg & _). by rewrite <- Hg, Hsend.
        -- rewrite Hlast in Hsend. simpl in Hsend. by rewrite Hsend.
      * intros e3 He. eapply (cached_evo _ _ s1 s2); [exact V1|exact V2|done|done|done|by apply Hcs].
  - apply orb_false_iff in Hsend as [Hgot ->]. destruct Hsome as [Hne|]; [|done].
    destruct (last es) as [e3|] eqn:Hl; [|by apply last_None in Hl].
    unfold at_last in Hlast. rewrite Hl in Hlast. destruct Hlast as (Hlo & Hg & _). rewrite Hgot in Hg. symmetry in Hg. apply Z.leb_gt in Hg.
    assert (take_ref plus (rq_target rq) (rq_size rq) es = []) as Hnil.
    { apply take_ref_none. eapply Forall_impl; [by eapply ascending_last|]. simpl. intros; lia. }
    rewrite Hnil in Hlen. apply nil_length_inv in Hlen. rewrite Hlen. simpl. apply wp_bind, wp_ret. cbv beta.
    rewrite Hgot, Hlo. unfold again. apply wp_bind_assert; [done|].
    assert (0 < e_cookie e3) by (apply last_Some_elem_of in Hl; by apply (proj1 (Forall_forall _ _) Hgood)).
    apply wp_bind_assert; [apply orb_true_iff; left; apply negb_true_iff, Z.eqb_neq; lia|]. apply wp_bind_assert; [cmp|].
    apply wp_bind_assert; [done|]. apply wp_ret.
    assert (gv = g) as Hgv.
    { unfold gv. rewrite Hlen in HF |- *. inversion HF; subst os. by destruct g. }
    rewrite Hgv in V1. split_and!; [by destruct g|done|by exists c1| |done]. simpl. rewrite Hl. simpl.
    by destruct (Z.leb_spec (rq_target rq) (e_cookie e3)); [lia|].
Qed.

Lemma readdir_callback_spec now d c plus rq rs g s :
  hx g = None → inv g s → typed typ s → dircaches s !! d = Some c → anchored g d → 0 ≤ rq_offset rq → 4096 ≤ rq_size rq →
  response_good rq (bytes_allocated_g s) rs →
  wp (readdir_callback fuse_size max_cache now d plus rq rs) s (λ o s', inv (more_f (outcome_refs o) g) s' ∧ evo typ s s' ∧
    without_refs o = callback_ref plus rq rs ∧ reply_cached s' d plus c rs ∧
    ∃ c', dircaches s' !! d = Some c' ∧ (∀ es reof verf, rs = R_ok es reof verf false → es ≠ [] → live c → live c')).
Proof.
  intros Hx V HT Hc Ha Hoff Hsz Hgood. unfold readdir_callback, get_dircache. do 2 apply wp_bind. apply wp_get. cbv beta.
  eapply wp_deref; [done|]. cbv beta. destruct rs as [es reof verf changed| | |]; simpl in Hgood.
  - destruct Hgood as [Hg Hasc [Hvf Hrv] Hsome Heof Hroom].
    apply wp_bind. eapply wp_mono with (Q := λ _ s1, s1 = s).
    { destruct (Z.eqb_spec (rq_verf rq) 0); [by apply wp_ret|]. apply wp_assert; [|done]. apply Z.eqb_eq. by destruct Hrv. }
    intros _ ? ->.
    apply wp_bind. eapply wp_mono with (Q := λ _ s1, inv g s1 ∧ evo typ s s1 ∧ bytes_allocated_g s1 = bytes_allocated_g s ∧
      ∃ c1, dircaches s1 !! d = Some c1 ∧ cache_size c1 = cache_size c ∧ (changed = false → c1 = c)).
    { destruct changed.
      - eapply wp_mono; [by apply (invalidate_spec d c)|]. intros _ s1 (V1 & E1 & _ & B1 & _ & HC1). split_and!; [done..|].
        rewrite HC1, lookup_insert_eq. by eexists.
      - apply wp_ret. split_and!; [done|apply evo_refl|done|by exists c]. }
    intros _ s1 (V1 & E1 & B1 & c1 & Hc1 & Hsize1 & Hch).
    set (x0 := CB (rq_offset rq) (-1) 0 (rq_size rq) false []).
    wp_call (cb_loop_spec d c1 plus (rq_offset rq) (rq_target rq) verf reof es x0 [] g s1); [done| |by apply (ev_typ _ _ _ E1)|done..|by rewrite B1|].
    { constructor; [constructor|by constructor|by intros ? ? ?%not_elem_of_nil|by destruct g]. }
    intros x s2 (Hcol & E2 & Hnum & Hlast & Hlab & c2 & Hc2 & Hv2 & [Hlive2 _] & Hcach).
    eapply wp_mono; [apply (finish_spec now d c2 plus rq es reof _ x x0 g s2); try done|].
    + rewrite Hv2. intros Hne. by rewrite bool_decide_false.
    + intros o s3 (V3 & E3 & (c3 & Hc3 & Hlive3) & Ho & Hkeep). split_and!; [done| |done| |].
      * eapply evo_trans; [done|]. by eapply evo_trans.
      * simpl. intros Hs Hd e3 He3. apply Hkeep. apply Hcach; [lia|done|done].
      * exists c3. split; [done|]. intros ? ? ? [= -> -> -> ->] Hne Hl. apply Hlive3, Hlive2; [done|]. by rewrite (Hch eq_refl).
  - apply wp_ret. split_and!; [by destruct g|apply evo_refl|done|done|by exists c].
  - wp_call (invalidate_spec d c g s); [done|done|]. intros _ s1 (V1 & E1 & _ & _ & _ & HC1). unfold again.
    apply wp_bind_assert; [done|]. apply wp_bind_assert; [by rewrite orb_true_r|]. apply wp_bind_assert; [cmp|].
    apply wp_bind_assert; [done|]. apply wp_ret. split_and!; [by destruct g|done|done|done|].
    rewrite HC1, lookup_insert_eq. by eexists.
  - apply wp_ret. split_and!; [by destruct g|apply evo_refl|done|done|by exists c].
Qed.

(** ** Facts about the entries sent *)
Lemma ascending_weaken k k' es : k' ≤ k → ascending k es → ascending k' es.
Proof. destruct es; simpl; [done|]. intros ? []. split; [lia|done]. Qed.

Lemma take_ref_ascending plus target rem k es : ascending k es → ascending k (take_ref plus target rem es).
Proof.
  revert k rem. induction es as [|e3 es IH]; intros k rem; simpl; [done|]. intros [Hk Ha].
  destruct (target <=? e_cookie e3); [|eapply ascending_weaken; [|by apply IH]; lia].
  destruct (_ <=? rem); simpl; [|done]. split; [done|by apply IH].
Qed.

Lemma take_ref_target plus target rem es : Forall (λ e3, target ≤ e_cookie e3) (take_ref plus target rem es).
Proof.
  revert rem. induction es as [|e3 es IH]; intros rem; simpl; [constructor|].
  destruct (Z.leb_spec target (e_cookie e3)); [|done]. destruct (_ <=? rem); by constructor.
Qed.

Lemma ascending_sorted k es : ascending k es → StronglySorted Z.lt (k :: (e_cookie <$> es)).
Proof.
  revert k. induction es as [|e3 es IH]; intros k; simpl; [by repeat constructor|]. intros [Hk Ha].
  specialize (IH _ Ha). constructor; [done|]. apply StronglySorted_inv in IH as [_ HF]. constructor; [done|].
  eapply Forall_impl; [done|]. simpl. intros; lia.
Qed.

Lemma take_ref_prefix plus target rem es : Forall (λ e3, target ≤ e_cookie e3) es → take_ref plus target rem es `prefix_of` es.
Proof.
  revert rem. induction es as [|e3 es IH]; intros rem HF; simpl; [done|]. apply Forall_cons_1 in HF as [H HF].
  destruct (Z.leb_spec target (e_cookie e3)); [|lia]. destruct (_ <=? rem); [|apply prefix_nil]. apply prefix_cons. by apply IH.
Qed.
End callback.
