(* ===== verification/DirClient.v ===== *)
(** * Name lookups and the client as a whole

    The replies to LOOKUP, lookups from the cache, removals of names, and [fuse_forget()].
    The operations together form a transition system in which the references of fuse are
    recorded as fuse sees them: every schedule of operations that fuse may issue runs
    without a failed assertion and without access to a freed inode or entry. *)
From stdpp Require Import strings sorting.
From S2P Require Import Prelude DirCache DirInv DirRefs DirOps DirNames DirEnum DirEnumInv DirReaddir DirCallback.

Section client.
Context (typ : Z → Z → ftype) (max_cache : Z) (max_ok : 2 ≤ max_cache).

(** Names cached survive a change of reference counts. *)
Lemma names_same s s' d nm i : dircaches s' = dircaches s → dirents s' = dirents s → names s d nm i → names s' d nm i.
Proof. intros HC HD (c & e & de & ? & ? & ? & ?). exists c, e, de. by rewrite HC, HD. Qed.

(** A directory referenced by the client or by fuse. *)
Definition directory (g : held) (s : client) (d : nat) : Prop :=
  anchored g d ∧ ∃ I, inode_map s !! d = Some I ∧ file_type I = NF3DIR.

Lemma reply_entry_spec now d nm fid hdl ty mkdir g s :
  hx g = None → inv g s → typed typ s → directory g s d → typ fid hdl = ty → bigcookie s < 2 ^ 64 - 1 →
  wp (reply_entry max_cache now d nm fid hdl ty mkdir) s (λ i s', inv (plus_f i g) s' ∧ evo typ s s' ∧
    (∃ I, inode_map s' !! i = Some I ∧ fileid I = fid ∧ fh I = hdl) ∧ is_Some (dircaches s' !! d) ∧
    (room max_cache (bytes_allocated_g s) nm → names s' d nm i)).
Proof.
  intros Hx V HT (Ha & Id & HId & Hdir) Hty Hb. unfold reply_entry.
  wp_call (fetch_inode_spec typ fid hdl ty g s); [done..|].
  intros i s1 (V1 & E1 & HC1 & HD1 & Hn1 & Hb1 & (I & HI & Hfid & Hfh & HtyI) & Hold).
  apply wp_bind. eapply wp_mono with (Q := λ _ s2, inv (plus_l i g) s2 ∧ evo typ s1 s2 ∧ inode_map s2 = inode_map s1 ∧
    dirents s2 = dirents s1 ∧ bigcookie s2 = bigcookie s1).
  { case_bool_decide as Hd; [|by apply wp_ret; split_and!; [done|apply evo_refl|..]].
    eapply wp_mono; [apply (alloc_dircache_spec (plus_l i g) s1 i I now mkdir); [done|done|congruence]|].
    intros _ s2 (V2 & F2 & HI2 & HD2 & Hb2 & _). split_and!; [done|by eapply frame_evo|done..]. }
  intros _ s2 (V2 & E2 & HI2 & HD2 & Hb2).
  destruct (Hold d Id HId) as (Id1 & HId1 & _ & _ & Ht1 & _).
  wp_call (alloc_dircache_spec (plus_l i g) s2 d Id1 now false); [done|by rewrite HI2|congruence|].
  intros _ s3 (V3 & F3 & HI3 & HD3 & Hb3 & [c Hc] & _).
  assert (anchored (plus_l i g) d) as Ha' by (destruct Ha; [left; by right|by right]).
  assert (pinned (hl (plus_l i g)) s3 i) as Hpi by (apply anchored_pinned; [done|left; by left]).
  wp_call (dnlc_add_spec (plus_l i g) s3 d c nm i max_cache); [done|done|done|by apply anchored_pinned|done|congruence|done|].
  intros _ s4 (V4 & F4 & Hc4 & Hroom).
  assert (evo typ s3 s4) as E4 by (by eapply frame_evo).
  destruct (i_hl _ _ _ V4 i) as [y Hy]; [by left|]. destruct (i_look _ _ _ V4 i y Hy) as [Hl Hf]. simpl in Hl. rewrite decide_True in Hl by done.
  pose proof (occ_nonneg i (hl g)).
  wp_call get_inode_spec; [done|by eexists|]. intros ? ? [-> ?]. simplify_eq. apply wp_bind_assert; [cmp|].
  wp_call (forget_up typ g s4 i); [done|]. intros _ s5 (V5 & E5 & HC5 & HD5 & _).
  destruct (i_hf _ _ _ V5 i) as (z & Hz & _); [by left|]. destruct (i_look _ _ _ V5 i z Hz) as [Hl5 _].
  wp_call get_inode_spec; [done|by eexists|]. intros ? ? [-> ?]. simplify_eq. simpl in Hl5. apply wp_bind_assert; [cmp|]. apply wp_ret.
  assert (evo typ s1 s5) as E15 by (do 3 (eapply evo_trans; [first [exact E2|exact E4|by eapply frame_evo]|]); done).
  split_and!; [done| | |by rewrite HC5|].
  - by eapply evo_trans.
  - destruct (evo_file typ _ s1 s5 i I z V1 E15 HI Hz) as (? & ? & _). exists z. split_and!; congruence.
  - intros Hr. eapply names_same; [done|done|]. apply Hroom. revert Hr. unfold room.
    by rewrite (i_bytes _ _ _ V), (i_bytes _ _ _ V3), HD3, HD2, HD1.
Qed.

Lemma names_entry g s d c nm id i : inv g s → dircaches s !! d = Some c → entry_at c 0 (Some nm) = Some id →
  names s d nm i ↔ ∃ de, dirents s !! id = Some de ∧ de_inode de = Some i.
Proof.
  intros V Hc He. split.
  - intros (c' & id' & de & ? & ? & ? & ?). simplify_eq. eauto.
  - intros (de & ? & ?). by exists c, id, de.
Qed.

Lemma directory_touches g i s s' d : touches s s' → directory g s d → directory (plus_l i g) s' d.
Proof.
  intros (A1 & A2 & _) (Ha & I & HI & Ht). split; [destruct Ha; [left; by right|by right]|].
  destruct (A2 d) as [I' HI']; [by eexists|]. exists I'. split; [done|]. destruct (A1 d I' HI') as (J & HJ & _ & _ & <- & _). congruence.
Qed.

Lemma directory_evo g g' s s' d : inv g s → inv g' s' → evo typ s s' → directory g s d → anchored g' d → directory g' s' d.
Proof.
  intros V V' E (Ha & I & HI & Ht) Ha'. split; [done|]. destruct (anchored_pinned g' s' d V' Ha') as (I' & HI' & _). exists I'. split; [done|].
  destruct (evo_file typ g s s' d I I' V E HI HI') as (_ & _ & <-). done.
Qed.

(** A cached lookup answers with the inode the name is cached for. *)
Lemma run_lookup_spec now act d nm g s :
  hx g = None → inv g s → typed typ s → directory g s d → bigcookie s < 2 ^ 64 - 1 →
  wp (run_lookup max_cache now act d nm) s (λ r s', inv (more_f (option_list r) g) s' ∧ evo typ s s' ∧
    ∀ i, r = Some i ↔ names s d nm i).
Proof.
  intros Hx V HT Hd Hb. unfold run_lookup. apply wp_bind, wp_get. cbv beta.
  assert ((∀ i, ¬ names s d nm i) → ∀ s1, inv g s1 → evo typ s s1 →
    wp (mret None) s1 (λ r s', inv (more_f (option_list r) g) s' ∧ evo typ s s' ∧ ∀ i : nat, r = Some i ↔ names s d nm i)) as Hnone.
  { intros Hn s1 V1 E1. apply wp_ret. split_and!; [by destruct g|done|]. intros i. split; [done|]. by intros ?%Hn. }
  destruct (dircaches s !! d) as [c|] eqn:Hc.
  2: { apply Hnone; [|done|apply evo_refl]. intros i (c & ? & ? & ? & _). congruence. }
  wp_call (dnlc_lookup_spec g s d c now act nm); [done|done|]. intros r s1 [T1 Hr].
  assert (evo typ s s1) as E1 by (by apply touches_evo).
  destruct (entry_at c 0 (Some nm)) as [id|] eqn:He.
  2: { destruct Hr as [-> ->]. simpl. apply Hnone; [|done|done]. intros i (c' & ? & ? & ? & ? & _). congruence. }
  destruct Hr as (de & Hde & -> & V1). simpl. destruct (de_inode de) as [i|] eqn:Hi.
  2: { apply Hnone; [|done|done]. intros i (de' & ? & ?)%(names_entry g s d c nm id); [congruence|done..]. }
  assert (dircaches s1 = dircaches s) as HC1 by apply T1.
  destruct (i_hl _ _ _ V1 i) as [x Hxi]; [by left|].
  wp_call get_inode_spec; [done|by eexists|]. intros ? ? [-> ?]. simplify_eq.
  assert (typed typ s1) as HT1 by (by apply (ev_typ _ _ _ E1)).
  wp_call (reply_entry_spec now d nm (fileid x) (fh x) (file_type x) false (plus_l i g) s1);
    [done|done|done|by eapply directory_touches|by rewrite (HT1 i x Hxi)| |].
  { assert (bigcookie s1 = bigcookie s) as -> by apply T1. done. }
  intros j s2 (V2 & E2 & (J & HJ & Hf & Hh) & _ & _).
  destruct (i_hl _ _ _ V2 i) as [x2 Hx2]; [by left|]. destruct (evo_file typ _ s1 s2 i x x2 V1 E2 Hxi Hx2) as (Hf2 & Hh2 & _).
  assert (j = i) as -> by (eapply (i_key _ _ _ V2); [done|done|congruence|congruence]).
  wp_call (decref_spec (plus_f i g) s2 i); [done|done|]. intros _ s3 [V3 S3]. apply wp_ret.
  split_and!; [done|eapply evo_trans; [done|]; by eapply evo_trans, shrinks_evo|].
  intros k. rewrite (names_entry g s d c nm id) by done. split; [intros [= <-]; eauto|]. intros (? & ? & ?). congruence.
Qed.

(** A removed name is not found; the other names of the directory are. *)
Lemma remove_name_spec d nm g s :
  hx g = None → inv g s → directory g s d →
  wp (remove_name d nm) s (λ _ s', inv g s' ∧ evo typ s s' ∧ (∀ i, ¬ names s' d nm i) ∧
    ∀ nm' i, nm' ≠ nm → names s d nm' i → names s' d nm' i).
Proof.
  intros Hx V [Ha _]. unfold remove_name. apply wp_bind, wp_get. cbv beta. destruct (dircaches s !! d) as [c|] eqn:Hc.
  2: { apply wp_ret. split_and!; [done|apply evo_refl| |done]. intros i (c & ? & ? & ? & _). congruence. }
  unfold dnlc_remove. wp_call (remove_spec g s d c 0 (Some nm)); [done|done|done|done|by apply anchored_pinned|].
  intros r s1 Hr. apply wp_ret. destruct (entry_at c 0 (Some nm)) as [id|] eqn:He.
  2: { destruct Hr as [_ ->]. split_and!; [done|apply evo_refl| |done]. intros i (c' & ? & ? & ? & ? & _). congruence. }
  destruct Hr as (_ & de & Hde & V1 & F1 & Hc1 & _). assert (evo typ s s1) as E1 by (by eapply frame_evo).
  destruct (entry_at_spec _ _ _ _ _ _ _ _ V Hc He) as (de0 & Hde0 & _ & Hck & _ & Hnm). specialize (Hnm nm eq_refl). simplify_eq.
  split_and!; [done|done| |].
  - intros i (c' & id' & de' & ? & Hat & _). simplify_eq. unfold entry_at in Hat. simpl in Hat. by rewrite lookup_delete_eq in Hat.
  - intros nm' i Hne (c' & id' & de' & ? & Hat & Hde' & Hi). simplify_eq. unfold entry_at in Hat. simpl in Hat.
    destruct (dnlc_map c !! nm') as [k|] eqn:Hk; [|done]. simpl in Hat.
    assert (k ≠ cookie de) as Hkne.
    { intros ->. destruct (co_dnlc _ _ (i_cache _ _ _ V d c Hc) _ _ Hk) as (? & ? & ? & ? & ?). simplify_eq. }
    assert (dir_entries (erased de (mark_lookuponly true c)) !! k = Some id') as Hk1 by (simpl; by rewrite lookup_delete_ne).
    destruct (co_ent _ _ (i_cache _ _ _ V1 d _ Hc1) _ _ Hk1) as (de1 & Hde1 & _).
    destruct (ev_ent _ _ _ E1 id' de1 Hde1) as (? & ? & _ & _ & Hs); [by eapply live_lt|]. simplify_eq.
    exists (erased de (mark_lookuponly true c)), id', de1. split_and!; [done| |done|congruence].
    unfold entry_at. simpl. by rewrite lookup_delete_ne, Hk.
Qed.
End client.
