(* ===== verification/DirSteps.v ===== *)
(** * The operations of the client as a transition system

    [world] pairs the client with the references fuse holds, one list element for each
    lookup that fuse has not forgotten.  [fuse_op] lists what fuse and the server may
    cause; [op_ok] says when: fuse names only inodes it holds a reference on (or the root),
    forgets no more than it received, and the server follows the protocol. *)
From stdpp Require Import strings sorting.
From S2P Require Import Prelude DirCache DirInv DirRefs DirOps DirNames DirEnum DirEnumInv DirReaddir DirCallback DirClient.

Record world := World { w_client : client; w_fuse : list nat }.

Inductive fuse_op :=
  | OpLookupReply (now : Z) (d : nat) (nm : string) (fid hdl : Z) (ty : ftype) (mkdir : bool)
  | OpLookup (now actimeo : Z) (d : nat) (nm : string)
  | OpRemove (d : nat) (nm : string)
  | OpForget (i : nat) (cnt : nat)
  | OpOpendir (now : Z) (d : nat)
  | OpReaddir (d : nat) (plus : bool) (offset size : Z)
  | OpReaddirReply (now : Z) (d : nat) (plus : bool) (rq : request) (rs : response)
  | OpInvalidate (d : nat) (purge_now : bool).

(** The inode has not been deleted. *)
Definition alive (s : client) (i : nat) : Prop := is_Some (inode_map s !! i).

(** The directory's cache has the entry under its cookie and finds it by its name. *)
Definition filed (s : client) (d e : nat) (de : directory_entry) : Prop :=
  ∃ c, dircaches s !! d = Some c ∧ dir_entries c !! cookie de = Some e ∧ dnlc_map c !! name de = Some (cookie de).

(** [n] occurrences of [i] taken out of a list. *)
Fixpoint take_out (i n : nat) (F : list nat) : list nat :=
  match F with
  | [] => []
  | j :: F' =>
      match n with
      | O => F
      | S n' => if (j =? i)%nat then take_out i n' F' else j :: take_out i n F'
      end
  end.

Lemma take_out_occ i n F j : Z.of_nat n ≤ occ i F → occ j (repeat i n ++ take_out i n F) = occ j F.
Proof.
  revert n. induction F as [|k F IH]; intros n Hn; simpl in Hn |- *.
  - assert (n = 0%nat) as -> by lia. done.
  - destruct n as [|n]; [done|]. destruct (Nat.eqb_spec k i) as [->|Hne].
    + rewrite decide_True in Hn by done. simpl. rewrite IH by lia. done.
    + rewrite decide_False in Hn by done. specialize (IH (S n)). rewrite occ_app in IH |- *. simpl in *. lia.
Qed.

Section steps.
Context (typ : Z → Z → ftype) (fuse_size : bool → string → Z) (fuse_pos : ∀ p n, 0 < fuse_size p n) (max_cache : Z) (max_ok : 2 ≤ max_cache) (root : nat).

(** The operation; it returns the references fuse receives. *)
Definition exec (op : fuse_op) : MD (list nat) :=
  match op with
  | OpLookupReply now d nm fid hdl ty mkdir => do i ← reply_entry max_cache now d nm fid hdl ty mkdir; mret [i]
  | OpLookup now act d nm => do r ← run_lookup max_cache now act d nm; mret (option_list r)
  | OpRemove d nm => do_ remove_name d nm; mret []
  | OpForget i cnt => do_ decref_cnt i (Z.of_nat cnt) true; mret []
  | OpOpendir now d => do_ alloc_dircache now d false; mret []
  | OpReaddir d plus offset size => do r ← readdir_from_cache fuse_size d plus offset size; mret (refs r)
  | OpReaddirReply now d plus rq rs => do o ← readdir_callback fuse_size max_cache now d plus rq rs; mret (outcome_refs o)
  | OpInvalidate d purge_now => do_ invalidate_cache decref d purge_now; mret []
  end.

(** The references of fuse after the operation. *)
Definition after (op : fuse_op) (got F : list nat) : list nat :=
  match op with OpForget i cnt => take_out i cnt F | _ => got ++ F end.

(** A directory fuse may name. *)
Definition known_dir (w : world) (d : nat) : Prop :=
  (d = root ∨ d ∈ w_fuse w) ∧ ∃ I, inode_map (w_client w) !! d = Some I ∧ file_type I = NF3DIR.

Definition op_ok (w : world) (op : fuse_op) : Prop :=
  let s := w_client w in
  match op with
  | OpLookupReply _ d _ fid hdl ty _ => known_dir w d ∧ typ fid hdl = ty ∧ bigcookie s < 2 ^ 64 - 1
  | OpLookup _ _ d _ => known_dir w d ∧ bigcookie s < 2 ^ 64 - 1
  | OpRemove d _ => known_dir w d
  | OpForget i cnt => (0 < cnt)%nat ∧ Z.of_nat cnt ≤ occ i (w_fuse w)
  | OpOpendir _ d => known_dir w d
  | OpReaddir d _ offset size =>
      known_dir w d ∧ is_Some (dircaches s !! d) ∧ 0 ≤ offset < UINT32_MAX - 1 ∧ 4096 ≤ size ≤ 64 * 1024 * 1024
  | OpReaddirReply _ d _ rq rs =>
      known_dir w d ∧ is_Some (dircaches s !! d) ∧ 0 ≤ rq_offset rq ∧ 4096 ≤ rq_size rq ∧
      response_good typ max_cache rq (bytes_allocated_g s) rs
  | OpInvalidate d _ => known_dir w d
  end.

Definition holding (F : list nat) : held := Held [root] [] [] None F.

Definition sound (w : world) : Prop := inv (holding (w_fuse w)) (w_client w) ∧ typed typ (w_client w).

Lemma known_directory w d : known_dir w d → directory (holding (w_fuse w)) (w_client w) d.
Proof. intros [[->|Hd] HI]; split; [left; by left|done|by right|done]. Qed.

Lemma invalidate_cache_spec d purge g s : hx g = None → inv g s → directory g s d →
  wp (invalidate_cache decref d purge) s (λ _ s', inv g s' ∧ evo typ s s').
Proof.
  intros Hx V (Ha & I & HI & Ht). unfold invalidate_cache. wp_call get_inode_spec; [done|by eexists|]. intros ? ? [-> ?]. simplify_eq.
  apply wp_bind, wp_get. cbv beta. unfold is_dir. rewrite (bool_decide_true _ Ht). simpl. case_bool_decide as Hc.
  2: { apply wp_ret. split; [done|apply evo_refl]. }
  destruct Hc as [c Hc]. wp_call (invalidate_spec typ d c); [done|done|]. intros _ s1 (V1 & E1 & _ & _ & _ & HC1).
  destruct purge; [|by apply wp_ret].
  eapply wp_mono; [apply (clear_spec g s1 d); [done|done|by rewrite HC1, lookup_insert_eq|by apply anchored_pinned]|].
  intros _ s2 (V2 & S2 & _). split; [done|]. by eapply evo_trans, shrinks_evo.
Qed.

(** One operation. *)
Lemma exec_spec op w : sound w → op_ok w op →
  wp (exec op) (w_client w) (λ got s', sound (World s' (after op got (w_fuse w))) ∧ evo typ (w_client w) s').
Proof.
  destruct w as [s F]. intros [V HT] Hok. simpl in V, HT |- *.
  assert (∀ op got s', inv (holding (after op got F)) s' → evo typ s s' → sound (World s' (after op got F)) ∧ evo typ s s') as Hdone
    by (intros; split; [split; [done|by eapply ev_typ]|done]).
  destruct op; simpl in Hok; unfold exec.
  - destruct Hok as (Hd & Hty & Hb). apply known_directory in Hd.
    wp_call (reply_entry_spec typ max_cache max_ok now d nm fid hdl ty mkdir (holding F) s); [done..|]. intros i s1 (V1 & E1 & _). apply wp_ret. by apply (Hdone (OpLookupReply now d nm fid hdl ty mkdir) [i]).
  - destruct Hok as (Hd & Hb). apply known_directory in Hd.
    wp_call (run_lookup_spec typ max_cache max_ok now actimeo d nm (holding F) s); [done..|]. intros r s1 (V1 & E1 & _). apply wp_ret. by apply (Hdone (OpLookup now actimeo d nm) (option_list r)).
  - apply known_directory in Hok. wp_call (remove_name_spec typ d nm (holding F) s); [done..|]. intros _ s1 (V1 & E1 & _). apply wp_ret. by apply (Hdone (OpRemove d nm) []).
  - destruct Hok as [Hpos Hcnt]. wp_call (fuse_forget_spec (holding (take_out i cnt F))); [done| |done|].
    { revert V. apply inv_perm; try done. intros j. simpl. by apply take_out_occ. }
    intros _ s1 (V1 & I & s2 & HI & -> & S1). apply wp_ret. apply (Hdone (OpForget i cnt) []); [done|].
    eapply evo_trans; [by apply counts_evo|by eapply shrinks_evo].
  - destruct Hok as (_ & I & HI & Ht). wp_call (alloc_dircache_spec (holding F) s d I now false); [done..|]. intros _ s1 (V1 & F1 & _). apply wp_ret.
    apply (Hdone (OpOpendir now d) []); [done|by eapply frame_evo].
  - destruct Hok as (Hd & [c Hc] & Ho & Hsz). apply known_directory in Hd as [Ha _].
    wp_call (readdir_from_cache_spec typ fuse_size fuse_pos d c plus offset size (holding F) s); [done..|]. intros r s1 (V1 & E1 & _). apply wp_ret. by apply (Hdone (OpReaddir d plus offset size) (refs r)).
  - destruct Hok as (Hd & [c Hc] & Ho & Hsz & Hgood). apply known_directory in Hd as [Ha _].
    wp_call (readdir_callback_spec typ fuse_size fuse_pos max_cache max_ok now d c plus rq rs (holding F) s); [done..|]. intros o s1 (V1 & E1 & _). apply wp_ret. by apply (Hdone (OpReaddirReply now d plus rq rs) (outcome_refs o)).
  - apply known_directory in Hok. wp_call (invalidate_cache_spec d purge_now (holding F) s); [done..|]. intros _ s1 [V1 E1]. apply wp_ret.
    by apply (Hdone (OpInvalidate d purge_now) []).
Qed.

(** ** Reachable worlds *)

(** The client after [nfs_client::init()]: the root directory has its inode and cache. *)
Definition init (fid hdl : Z) : world :=
  World (Client {[root := Inode fid hdl NF3DIR 1 0 0]} {[root := new_dircache 0]} ∅ (S root) 0 (2 ^ 63 - 1) 0 0) [].

Inductive reach (fid hdl : Z) : world → Prop :=
  | reach_init : typ fid hdl = NF3DIR → reach fid hdl (init fid hdl)
  | reach_step w op got s' : reach fid hdl w → op_ok w op → exec op (w_client w) = Some (got, s') →
      reach fid hdl (World s' (after op got (w_fuse w))).

Lemma init_sound fid hdl : typ fid hdl = NF3DIR → sound (init fid hdl).
Proof.
  intros Ht. split; [|intros i I HI; unfold init in HI; simpl in HI; by apply lookup_singleton_Some in HI as [<- <-]].
  assert (∀ i I, ({[root := Inode fid hdl NF3DIR 1 0 0]} : gmap nat nfs_inode) !! i = Some I → i = root ∧ I = Inode fid hdl NF3DIR 1 0 0) as HI
    by (by intros i I [<- <-]%lookup_singleton_Some).
  assert (∀ d c, ({[root := new_dircache 0]} : gmap nat readdirectory_cache) !! d = Some c → d = root ∧ c = new_dircache 0) as HC
    by (by intros d c [<- <-]%lookup_singleton_Some).
  constructor; simpl; try done; try (by intros ? ?%not_elem_of_nil).
  - intros i I [-> ->]%HI. simpl. by rewrite decide_True.
  - by intros i I [-> ->]%HI.
  - intros i ->%list_elem_of_singleton. rewrite lookup_singleton_eq. by eexists.
  - intros d c [-> ->]%HC. by constructor.
  - intros d c [-> ->]%HC _. by left.
  - intros d c [-> ->]%HC. rewrite lookup_singleton_eq. by eexists.
  - intros i Hi. apply lookup_singleton_ne. lia.
  - by intros i j I J [-> _]%HI [-> _]%HI.
Qed.

Lemma reach_sound fid hdl w : reach fid hdl w → sound w.
Proof.
  induction 1 as [Ht|w op got s' _ IH Hok Hex]; [by apply init_sound|].
  destruct (exec_spec op w IH Hok) as (got' & s1 & Hex' & Hs & _). simplify_eq. done.
Qed.

(** Uses of an entry come from a cache. *)
Lemma uses_cached e C : 0 < uses e C → ∃ d c k, C !! d = Some c ∧ dir_entries c !! k = Some e.
Proof.
  induction C as [|d c C Hd IH] using map_ind; [done|]. rewrite uses_fresh by done. intros Hpos.
  destruct (decide (e ∈ ents c)) as [(k & Hk)%elem_of_ents|Hn].
  - exists d, c, k. by rewrite lookup_insert_eq.
  - rewrite (occ_notin e (ents c)) in Hpos by done. destruct IH as (d' & c' & k & Hc & Hk); [lia|].
    exists d', c', k. rewrite lookup_insert_ne; [done|congruence].
Qed.
End steps.
