(* ===== verification/DirProps.v ===== *)
(** * What the inode table and the directory caches guarantee

    The theorems are about the worlds that operations of fuse and replies of the server
    lead to ([reach] of [DirSteps]), and hold for every reply size function of libfuse,
    every assignment of types to files, and every cache limit of at least 2 bytes. *)
From stdpp Require Import strings sorting.
From S2P Require Import Prelude DirCache DirInv DirRefs DirOps DirNames DirEnum DirEnumInv DirReaddir DirCallback DirClient DirSteps.

Lemma ascending_above k es e3 : ascending k es → e3 ∈ es → k < e_cookie e3.
Proof.
  intros Ha%ascending_sorted He. apply StronglySorted_inv in Ha as [_ HF]. apply (proj1 (Forall_forall _ _) HF). by apply list_elem_of_fmap_2.
Qed.

(** The cookies of the entries a reply of the server leads to. *)
Lemma sent_facts fuse_size plus target size off es x :
  ascending off es → r_entries x = lab <$> take_ref fuse_size plus target size es →
  StronglySorted Z.lt (off :: (r_entries x).*1) ∧ Forall (λ k, target ≤ k) (r_entries x).*1.
Proof.
  intros Ha ->. rewrite <- list_fmap_compose. split.
  - by apply (ascending_sorted off (take_ref fuse_size plus target size es)), take_ref_ascending.
  - apply Forall_fmap. apply take_ref_target.
Qed.

(** ** The request that follows a jukebox error *)
Lemma fetch_request_args d offset size target s :
  wlp (fetch_request d offset size target) s (λ rq _, rq_offset rq = offset ∧ rq_size rq = size ∧ rq_target rq = target).
Proof. unfold fetch_request, get_dircache. by repeat wlp_step. Qed.

Lemma jukebox_request fuse_size d plus rq changed s :
  wlp (jukebox_readdir fuse_size d plus rq changed) s (λ x _,
    ∀ rq', x = ToServer rq' → rq_offset rq' = rq_offset rq ∧ rq_size rq' = rq_size rq ∧ rq_target rq' = 0).
Proof.
  unfold jukebox_readdir, readdir, get_readdir_entries. do 2 (wlp_step; intros ? ? _). destruct a0 as [sent|].
  - by apply wlp_ret.
  - wlp_step. eapply wlp_mono; [apply fetch_request_args|]. intros rq0 s0 Hrq. apply wlp_ret. by intros ? [= <-].
Qed.

(** ** The cached reply repeats the reply *)
Lemma lsize_app fuse_size plus l l' : lsize fuse_size plus (l ++ l') = lsize fuse_size plus l + lsize fuse_size plus l'.
Proof. unfold lsize. induction l as [|p l IH]; simpl; [done|]. rewrite IH. lia. Qed.

Lemma lsize_nonneg fuse_size plus l : (∀ p n, 0 < fuse_size p n) → 0 ≤ lsize fuse_size plus l.
Proof. intros Hpos. unfold lsize. induction l as [|p l IH]; simpl; [done|]. pose proof (Hpos plus p.2). lia. Qed.

(** A run of listed entries that fits is a prefix of what an enumeration sends. *)
Lemma facts_prefix fuse_size s c plus off size r (t : list (Z * string)) : (∀ p n, 0 < fuse_size p n) →
  reply_facts fuse_size s c plus off size r → lsize fuse_size plus t ≤ size →
  (∀ n p, t !! n = Some p → p.1 = off + 1 + Z.of_nat n ∧ listed s c plus p.1 = Some p.2) → t `prefix_of` default [] r.
Proof.
  intros Hpos Hr Hsz Ht. destruct r as [l|]; simpl.
  2: { destruct t as [|p t]; [done|]. destruct (Ht 0%nat p eq_refl) as [Hk Hp]. simpl in Hr. rewrite Z.add_0_r in Hk. rewrite <- Hk, Hp in Hr.
       change (fuse_size plus p.2 + lsize fuse_size plus t ≤ size) in Hsz. pose proof (lsize_nonneg fuse_size plus t Hpos). lia. }
  destruct Hr as (Hent & _ & Hmax).
  assert (∀ n p, (n < length l)%nat → t !! n = Some p → l !! n = Some p) as Hsame.
  { intros n p Hn Hp. destruct (Hent n Hn) as (nm & Hl & Hlst). destruct (Ht n p Hp) as [Hk Hnm]. rewrite <- Hk, Hnm in Hlst.
    rewrite Hl, <- Hk. destruct p; simplify_eq/=. done. }
  destruct (decide (length t ≤ length l)%nat) as [Hle|Hgt].
  - exists (drop (length t) l). rewrite <- (take_drop (length t) l) at 1. f_equal. apply list_eq. intros n.
    destruct (decide (n < length t)%nat) as [Hn|Hn].
    + rewrite lookup_take_lt by done. destruct (lookup_lt_is_Some_2 _ _ Hn) as [p Hp]. rewrite Hp. apply Hsame; [lia|done].
    + rewrite lookup_take_ge, (lookup_ge_None_2 t) by lia. done.
  - exfalso. destruct (lookup_lt_is_Some_2 t (length l)) as [p Hp]; [lia|]. destruct (Ht _ _ Hp) as [Hk Hlst].
    rewrite <- Hk in Hmax. specialize (Hmax p.2 Hlst).
    assert (l = take (length l) t) as Hl.
    { apply list_eq. intros n. destruct (decide (n < length l)%nat) as [Hn|Hn].
      - rewrite lookup_take_lt by done. destruct (lookup_lt_is_Some_2 t n) as [q Hq]; [lia|]. rewrite Hq. by apply Hsame.
      - rewrite lookup_take_ge, (lookup_ge_None_2 l) by lia. done. }
    pose proof (take_drop_middle t (length l) p Hp) as Hmid. rewrite <- Hl in Hmid. rewrite <- Hmid, lsize_app in Hsz.
    change (lsize fuse_size plus (p :: drop (S (length l)) t)) with (fuse_size plus p.2 + lsize fuse_size plus (drop (S (length l)) t)) in Hsz.
    pose proof (lsize_nonneg fuse_size plus (drop (S (length l)) t) Hpos). lia.
Qed.

Section properties.
Context (typ : Z → Z → ftype) (fuse_size : bool → string → Z) (fuse_pos : ∀ p n, 0 < fuse_size p n) (max_cache : Z) (max_ok : 2 ≤ max_cache) (root : nat).
Context (rfid rhdl : Z) (w : world) (Hw : reach typ fuse_size max_cache root rfid rhdl w).

Lemma dir_sound : sound typ root w.
Proof. by eapply (reach_sound typ fuse_size fuse_pos max_cache max_ok root). Qed.


(** C10: The reference counts are exact.  An inode's [forget_expected] is the number of
    references fuse holds on it, its [lookupcnt] adds one for the root directory only, and
    its [dircachecnt] is the number of directory entries that point to it. *)
Theorem reference_counts_exact (i : nat) (I : nfs_inode) (HI : inode_map (w_client w) !! i = Some I) :
  forget_expected I = occ i (w_fuse w) ∧
  lookupcnt I = forget_expected I + (if decide (root = i) then 1 else 0) ∧
  dircachecnt I = nrefs i (dirents (w_client w)).
Proof.
  destruct dir_sound as [V _]. destruct (i_lookf _ _ _ V i I HI) as [Hl Hf]. pose proof (i_dirc _ _ _ V i I HI) as Hd. simpl in Hl, Hf, Hd.
  split_and!; [done| |lia]. rewrite Hl. case_decide; lia.
Qed.

(** C19: Nothing that can still be reached is freed, and no directory entry outlives its
    use: the inodes fuse holds references on are in the table, so are the inodes of the
    live directory entries; every live entry is in the cache of a directory whose inode is
    alive, under its cookie, and found there by its name. *)
Theorem no_dangling_references :
  (∀ i, i ∈ w_fuse w → alive (w_client w) i) ∧
  (∀ e de, dirents (w_client w) !! e = Some de →
     (∀ i, de_inode de = Some i → alive (w_client w) i) ∧ ∃ d, alive (w_client w) d ∧ filed (w_client w) d e de).
Proof.
  destruct dir_sound as [V _]. split; [intros i Hi; by apply (i_hfs _ _ _ V)|]. intros e de He. split; [intros i; by apply (i_ptr _ _ _ V e de)|].
  destruct (i_use _ _ _ V e de He) as [Hu Hpos]. simpl in Hu. destruct (uses_cached e (dircaches (w_client w))) as (d & c & k & Hc & Hk); [lia|].
  destruct (co_ent _ _ (i_cache _ _ _ V d c Hc) _ _ Hk) as (de' & ? & Hck & Hn). simplify_eq.
  destruct (i_dirs _ _ _ V d c Hc) as (I & HI & _). exists d. split; [by eexists|]. by exists c.
Qed.

(** C37: A file has at most one inode, and an inode number that fuse knows keeps naming the
    same file: after any operation, the inode under that number is of the same file. *)
Theorem inode_identity (op : fuse_op) (got : list nat) (s' : client)
    (Hok : op_ok typ max_cache root w op) (Hex : exec fuse_size max_cache op (w_client w) = Some (got, s')) :
  (∀ i j I J, inode_map s' !! i = Some I → inode_map s' !! j = Some J → fileid I = fileid J → fh I = fh J → i = j) ∧
  (∀ i I I', inode_map (w_client w) !! i = Some I → inode_map s' !! i = Some I' → same_file I I').
Proof.
  pose proof dir_sound as Hs.
  destruct (exec_spec typ fuse_size fuse_pos max_cache max_ok root op w Hs Hok) as (got' & s1 & Hex' & [V' _] & E). simplify_eq.
  split; [apply (i_key _ _ _ V')|]. intros i I I'. destruct Hs as [V _]. by eapply evo_file.
Qed.

(** C38: A name that a LOOKUP (or CREATE, MKDIR) reply entered into the cache is found there:
    the next lookup is answered without the server, with the same inode, when the entry
    fits below the configured limit of the caches. *)
Theorem lookup_reply_then_cached_lookup (now : Z) (d : nat) (nm : string) (fid hdl : Z) (ty : ftype) (mkdir : bool) (now' act : Z)
    (Hd : known_dir root w d) (Hty : typ fid hdl = ty) (Hb : bigcookie (w_client w) < 2 ^ 64 - 1)
    (Hroom : room max_cache (bytes_allocated_g (w_client w)) nm) :
  ∃ i s1, reply_entry max_cache now d nm fid hdl ty mkdir (w_client w) = Some (i, s1) ∧
    (∃ I, inode_map s1 !! i = Some I ∧ fileid I = fid ∧ fh I = hdl) ∧
    (bigcookie s1 < 2 ^ 64 - 1 → ∃ s2, run_lookup max_cache now' act d nm s1 = Some (Some i, s2)).
Proof.
  destruct dir_sound as [V HT]. apply known_directory in Hd.
  destruct (reply_entry_spec typ max_cache max_ok now d nm fid hdl ty mkdir (holding root (w_fuse w)) (w_client w))
    as (i & s1 & Hr & V1 & E1 & HI & _ & Hn); [done..|]. exists i, s1. split_and!; [done|done|]. intros Hb1.
  destruct (run_lookup_spec typ max_cache max_ok now' act d nm (plus_f i (holding root (w_fuse w))) s1) as (r & s2 & Hl & _ & _ & Hiff);
    [done|done|by apply (ev_typ _ _ _ E1)| |done|].
  { eapply (directory_evo typ (holding root (w_fuse w)) _ (w_client w) s1); [done..|]. destruct Hd as [[?|?] _]; [by left|right; by right]. }
  exists s2. rewrite Hl. by rewrite (proj2 (Hiff i) (Hn Hroom)).
Qed.

(** After a name is removed (unlink, rmdir, rename), a lookup of it asks the server; the
    other names of the directory are still answered from the cache as before. *)
Theorem remove_then_lookup (d : nat) (nm : string) (now act : Z) (Hd : known_dir root w d) :
  ∃ s1, remove_name d nm (w_client w) = Some ((), s1) ∧
    (bigcookie s1 < 2 ^ 64 - 1 →
      (∃ s2, run_lookup max_cache now act d nm s1 = Some (None, s2)) ∧
      ∀ nm' i, nm' ≠ nm → names (w_client w) d nm' i → ∃ s2, run_lookup max_cache now act d nm' s1 = Some (Some i, s2)).
Proof.
  destruct dir_sound as [V HT]. apply known_directory in Hd.
  destruct (remove_name_spec typ d nm (holding root (w_fuse w)) (w_client w)) as ([] & s1 & Hr & V1 & E1 & Hnot & Hoth); [done..|].
  exists s1. split; [done|]. intros Hb1.
  assert (∀ nm', wp (run_lookup max_cache now act d nm') s1 (λ r _, ∀ i, r = Some i ↔ names s1 d nm' i)) as Hl.
  { intros nm'. eapply wp_mono; [apply (run_lookup_spec typ max_cache max_ok now act d nm' (holding root (w_fuse w)) s1)|].
    - done.
    - done.
    - by apply (ev_typ _ _ _ E1).
    - eapply (directory_evo typ (holding root (w_fuse w)) _ (w_client w) s1); [done..|]. apply Hd.
    - done.
    - by intros r s2 (_ & _ & ?). }
  split.
  - destruct (Hl nm) as (r & s2 & Hrun & Hiff). exists s2. rewrite Hrun. destruct r as [i|]; [|done]. exfalso. by apply (Hnot i), (proj1 (Hiff i)).
  - intros nm' i Hne Hn. destruct (Hl nm') as (r & s2 & Hrun & Hiff). exists s2. rewrite Hrun. by rewrite (proj2 (Hiff i) (Hoth nm' i Hne Hn)).
Qed.

(** C26: An enumeration answered from the cache sends the entries with the cookies
    [offset + 1], [offset + 2], ... without a gap, each under the name the cache has for its
    cookie, as many as fit into the reply and no fewer: it stops where the cache has no
    (usable) entry or the next one does not fit.  The server is asked only when that leaves
    nothing to send and the cache has not seen the end of the directory there. *)
Theorem cached_enumeration (d : nat) (c : readdirectory_cache) (plus : bool) (offset size : Z)
    (Hd : known_dir root w d) (Hc : dircaches (w_client w) !! d = Some c)
    (Ho : 0 ≤ offset < UINT32_MAX - 1) (Hs : 4096 ≤ size ≤ 64 * 1024 * 1024) :
  ∃ r s', readdir_from_cache fuse_size d plus offset size (w_client w) = Some (r, s') ∧
    let lst := listed (w_client w) (refreshed c) plus in
    match r with
    | None => match lst (offset + 1) with
              | None => eof (refreshed c) = false ∨ offset + 1 < eof_cookie (refreshed c)
              | Some nm => size < fuse_size plus nm
              end
    | Some x =>
        let l := r_entries x in
        (∀ n, (n < length l)%nat → ∃ nm, l !! n = Some (offset + 1 + Z.of_nat n, nm) ∧ lst (offset + 1 + Z.of_nat n) = Some nm) ∧
        lsize fuse_size plus l ≤ size ∧
        (∀ nm, lst (offset + 1 + Z.of_nat (length l)) = Some nm → size < lsize fuse_size plus l + fuse_size plus nm)
    end.
Proof.
  destruct dir_sound as [V HT]. apply known_directory in Hd as [Ha _].
  destruct (readdir_from_cache_spec typ fuse_size fuse_pos d c plus offset size (holding root (w_fuse w)) (w_client w))
    as (r & s' & Hrun & _ & _ & _ & Hr); [done..|]. exists r, s'. split; [done|]. cbv zeta.
  pose proof (reply_ref_facts fuse_size fuse_pos (holding root (w_fuse w)) (w_client w) d c plus offset size V Hc) as Hf.
  rewrite <- Hr in Hf. destruct r; apply Hf; lia.
Qed.

(** C15: A READDIR or READDIRPLUS reply that follows the protocol and fits below the global
    limit of the caches ([response_good]) is answered as the reference [callback_ref] says:
    with the received entries at or beyond the target cookie, as many as fit, or with a
    further request.  When moreover the names of the entries differ and the directory's own
    cache has room for them, all of them are in the cache afterwards, whether sent or not. *)
Theorem readdir_reply_handled (now : Z) (d : nat) (c : readdirectory_cache) (plus : bool) (rq : request) (rs : response)
    (Hd : known_dir root w d) (Hc : dircaches (w_client w) !! d = Some c)
    (Ho : 0 ≤ rq_offset rq) (Hs : 4096 ≤ rq_size rq) (Hgood : response_good typ max_cache rq (bytes_allocated_g (w_client w)) rs) :
  ∃ o s', readdir_callback fuse_size max_cache now d plus rq rs (w_client w) = Some (o, s') ∧
    without_refs o = callback_ref fuse_size plus rq rs ∧ reply_cached max_cache s' d plus c rs.
Proof.
  destruct dir_sound as [V HT]. apply known_directory in Hd as [Ha _].
  destruct (readdir_callback_spec typ fuse_size fuse_pos max_cache max_ok now d c plus rq rs (holding root (w_fuse w)) (w_client w))
    as (o & s' & Hrun & _ & _ & Ho' & Hcach & _); eauto 10.
Qed.

(** C39: Re-enumeration after a rejected cookie makes progress and repeats nothing, as long
    as the server does not answer with a jukebox error.  A request that follows a
    BAD_COOKIE starts at the beginning of the directory with a target beyond every cookie
    fuse has seen; each further request of the re-enumeration keeps the target and starts
    later, below the target; and only entries at or beyond the target of the answered
    request, beyond its offset, and in ascending order, are sent.  A jukebox error ends
    this: whatever the state when the request is issued again, it keeps its offset and
    has the target 0, so that entries fuse already has may be sent again
    ([jukebox_forgets_target] of [DirExamples]).  The replies are those of
    [response_good]. *)
Theorem reenumeration_progress (now : Z) (d : nat) (c : readdirectory_cache) (plus : bool) (rq : request) (rs : response)
    (Hd : known_dir root w d) (Hc : dircaches (w_client w) !! d = Some c)
    (Ho : 0 ≤ rq_offset rq) (Hs : 4096 ≤ rq_size rq) (Hgood : response_good typ max_cache rq (bytes_allocated_g (w_client w)) rs) :
  ∃ o s', readdir_callback fuse_size max_cache now d plus rq rs (w_client w) = Some (o, s') ∧
    match o with
    | Again offset target =>
        offset < target ∧
        match rs with
        | R_bad_cookie => offset = 0 ∧ rq_offset rq < target ∧ rq_target rq ≤ target
        | _ => rq_offset rq < offset ∧ target = rq_target rq
        end
    | Sent x => StronglySorted Z.lt (rq_offset rq :: (r_entries x).*1) ∧ Forall (λ k, rq_target rq ≤ k) (r_entries x).*1
    | Jukebox => rs = R_jukebox ∧
        ∀ changed s1 rq' s2, jukebox_readdir fuse_size d plus rq changed s1 = Some (ToServer rq', s2) →
          rq_offset rq' = rq_offset rq ∧ rq_size rq' = rq_size rq ∧ rq_target rq' = 0
    | Error => rs = R_error
    end.
Proof.
  destruct dir_sound as [V HT]. apply known_directory in Hd as [Ha _].
  destruct (readdir_callback_spec typ fuse_size fuse_pos max_cache max_ok now d c plus rq rs (holding root (w_fuse w)) (w_client w))
    as (o & s' & Hrun & _ & _ & Hout & _); [done..|]. exists o, s'. split; [done|].
  destruct rs as [es reof verf changed| | |]; simpl in Hout, Hgood.
  - destruct Hgood as [Hg Hasc _ Hsome _ _]. destruct (last es) as [e3|] eqn:Hl.
    + pose proof (proj1 (Forall_forall _ _) Hg e3 (last_Some_elem_of _ _ Hl)) as Hge.
      destruct ((rq_target rq <=? e_cookie e3) || reof) eqn:Hsend; destruct o as [x|off tgt| |]; simplify_eq/=.
      * by eapply sent_facts.
      * apply orb_false_iff in Hsend as [Hlt%Z.leb_gt _]. split_and!; [done| |done].
        apply (ascending_above _ _ _ Hasc). by apply last_Some_elem_of.
    + apply last_None in Hl as ->. destruct Hsome as [|Hreof]; [done|]. rewrite Hreof in Hout. simpl in Hout.
      destruct o as [x|off tgt| |]; simplify_eq/=. rewrite Hout. split; [by repeat constructor|constructor].
  - destruct o; simplify_eq/=. split; [done|]. intros changed s1 rq' s2 Hj. by eapply jukebox_request.
  - destruct o; simplify_eq/=. lia.
  - by destruct o.
Qed.

(** C40: What the server sent is served from the cache: when a reply with consecutive cookies
    has been answered to fuse, the same request finds it in the cache, and the entries sent
    from the cache begin with the entries that were sent from the reply. *)
Theorem reply_then_cached_enumeration (now : Z) (d : nat) (c : readdirectory_cache) (plus : bool) (rq : request)
    (es : list entry3) (reof : bool) (verf : Z)
    (Hd : known_dir root w d) (Hc : dircaches (w_client w) !! d = Some c) (Hlive : live c)
    (Ho : 0 ≤ rq_offset rq < UINT32_MAX - 1) (Hs : 4096 ≤ rq_size rq ≤ 64 * 1024 * 1024) (Ht : rq_target rq = 0)
    (Hgood : reply_good typ max_cache rq (bytes_allocated_g (w_client w)) es reof verf) (Hne : es ≠ [])
    (Hseq : ∀ n e3, es !! n = Some e3 → e_cookie e3 = rq_offset rq + 1 + Z.of_nat n)
    (Hdup : NoDup (e_name <$> es)) (Hroom : cache_size c + total es ≤ max_single max_cache) :
  ∃ x s1 r s2, readdir_callback fuse_size max_cache now d plus rq (R_ok es reof verf false) (w_client w) = Some (Sent x, s1) ∧
    readdir_from_cache fuse_size d plus (rq_offset rq) (rq_size rq) s1 = Some (r, s2) ∧
    r_entries x = lab <$> take_ref fuse_size plus 0 (rq_size rq) es ∧
    r_entries x `prefix_of` default [] (r_entries <$> r).
Proof.
  destruct dir_sound as [V HT]. apply known_directory in Hd as [Ha _].
  destruct (readdir_callback_spec typ fuse_size fuse_pos max_cache max_ok now d c plus rq (R_ok es reof verf false) (holding root (w_fuse w)) (w_client w))
    as (o & s1 & Hrun & V1 & E1 & Hout & Hcach & c1 & Hc1 & Hl1); [done|done|done|done|done|lia|lia|done|]. simpl in Hout, Hcach.
  assert (0 ≤ rq_offset rq) as Ho' by lia. rewrite Ht in Hout.
  assert (Forall (λ e3, 0 ≤ e_cookie e3) es) as Hnn.
  { apply Forall_lookup. intros n e3 He. rewrite (Hseq n e3 He). lia. }
  destruct (last es) as [e3|] eqn:Hlast; [|by apply last_None in Hlast].
  assert (0 ≤ e_cookie e3) as Hck by (apply (proj1 (Forall_forall _ _) Hnn), last_Some_elem_of, Hlast).
  destruct (Z.leb_spec 0 (e_cookie e3)); [|lia]. destruct o as [x|? ?| |]; simplify_eq/=.
  destruct (readdir_from_cache_spec typ fuse_size fuse_pos d c1 plus (rq_offset rq) (rq_size rq) (more_f (r_refs x) (holding root (w_fuse w))) s1)
    as (r & s2 & Hrun2 & _ & _ & _ & Hr); [done|done|done| |done|done|].
  { destruct Ha; [by left|right; apply elem_of_app; by right]. }
  exists x, s1, r, s2. split_and!; [done..|].
  assert (refreshed c1 = with_flags (lookuponly c1) (confirmed_msecs c1) false c1) as Hre.
  { destruct (Hl1 es reof verf eq_refl Hne Hlive) as [Hi Hlo]. unfold refreshed. by rewrite Hi, Hlo. }
  rewrite Hr, Hout. eapply (facts_prefix fuse_size s1 (refreshed c1) plus (rq_offset rq) (rq_size rq)); [done|by eapply reply_ref_facts; [..|lia]| |].
  - apply take_ref_size. lia.
  - intros n p Hp. apply list_lookup_fmap_Some in Hp as (e4 & Hpe & He4); subst p. destruct (take_ref_prefix fuse_size plus 0 (rq_size rq) es Hnn) as [tl Htl].
    assert (es !! n = Some e4) as He5 by (rewrite Htl; by apply lookup_app_l_Some). simpl. rewrite (Hseq n e4 He5). split; [done|].
    rewrite <- (Hseq n e4 He5). destruct (Hcach Hroom Hdup e4) as (c0 & id & de & Hc0 & Hk & Hde & Hn & Hi); [by eapply list_elem_of_lookup_2|].
    simplify_eq. unfold listed. rewrite Hre. simpl. rewrite Hk. simpl. rewrite Hde, Hn. by destruct (is_some (de_inode de)).
Qed.
End properties.
