(* ===== verification/DirExamples.v ===== *)
(** * Runs of the directory cache

    A client with a root directory of a few entries, as the witness of the theorems of
    [DirProps], and runs outside of their hypotheses. *)
From stdpp Require Import strings sorting.
From S2P Require Import Prelude DirCache DirInv DirRefs DirOps DirNames DirEnum DirEnumInv DirReaddir DirCallback DirClient DirSteps DirProps.

(** File 1 is the root directory, the others are regular files. *)
Definition typ0 (fid hdl : Z) : ftype := if fid =? 1 then NF3DIR else NF3REG.
Definition fsz (plus : bool) (nm : string) : Z := (if plus then 152 else 24) + Z.of_nat (String.length nm).
Definition limit : Z := 2 ^ 20.

Lemma fsz_pos p n : 0 < fsz p n.
Proof. unfold fsz. destruct p; lia. Qed.

Lemma limit_ok : 2 ≤ limit.
Proof. done. Qed.

Definition step (op : fuse_op) (w : world) : world :=
  match exec fsz limit op (w_client w) with
  | Some (got, s') => World s' (after op got (w_fuse w))
  | None => w
  end.

Abbreviation reached0 := (reach typ0 fsz limit 0 1 100).
Abbreviation ok0 := (op_ok typ0 limit 0).

Lemma reach_by op w : reached0 w → ok0 w op → bool_decide (is_Some (exec fsz limit op (w_client w))) = true → reached0 (step op w).
Proof.
  intros Hw Hok [[got s'] Hex]%bool_decide_eq_true. unfold step. rewrite Hex. by eapply reach_step.
Qed.

Definition listing : list entry3 :=
  [Entry3 1 "." 1 100 NF3DIR; Entry3 2 ".." 1 100 NF3DIR; Entry3 3 "a" 2 200 NF3REG; Entry3 4 "b" 3 300 NF3REG].

Definition request0 : request := Request 0 4096 0 0.

Definition w0 : world := init 0 1 100.
Definition w1 : world := step (OpOpendir 5 0) w0.
Definition w2 : world := step (OpReaddirReply 5 0 true request0 (R_ok listing true 9 false)) w1.
Definition w3 : world := step (OpLookupReply 6 0 "c" 4 400 NF3REG false) w2.

Ltac known := split; [by left|eexists; split; vm_compute; reflexivity].

Lemma w1_reach : reached0 w1.
Proof. apply reach_by; [by constructor|known|by vm_compute]. Qed.

Lemma listing_good rq allocated : rq_offset rq = 0 → rq_verf rq = 0 → allocated ≤ 2 ^ 18 → reply_good typ0 limit rq allocated listing true 9.
Proof.
  intros Ho Hv Ha. constructor.
  - unfold listing. repeat (apply Forall_cons; split; [split_and!; done|]). by apply Forall_nil.
  - simpl. rewrite Ho. lia.
  - rewrite Hv. split; [done|by left].
  - by left.
  - intros e3 _ [= <-]. simpl. lia.
  - assert (total listing = 837) as -> by done. unfold limit. lia.
Qed.

Lemma w1_bytes : bytes_allocated_g (w_client w1) = 0.
Proof. by vm_compute. Qed.

Lemma w1_cache : dircaches (w_client w1) !! 0%nat = Some (new_dircache 0).
Proof. by vm_compute. Qed.

Lemma w1_known : known_dir 0 w1 0.
Proof. known. Qed.

Lemma reply_ok : response_good typ0 limit request0 (bytes_allocated_g (w_client w1)) (R_ok listing true 9 false).
Proof. apply listing_good; [done|done|]. by rewrite w1_bytes. Qed.

Lemma w2_reach : reached0 w2.
Proof.
  apply reach_by; [apply w1_reach| |by vm_compute]. split_and!; [apply w1_known|rewrite w1_cache; by eexists|done|done|apply reply_ok].
Qed.

Lemma w3_reach : reached0 w3.
Proof. apply reach_by; [apply w2_reach| |by vm_compute]. split_and!; [known|done|by vm_compute]. Qed.

(** Fuse holds a reference on each file it was sent, none on "." and "..". *)
Example w3_fuse : w_fuse w3 = [3; 1; 2]%nat.
Proof. by vm_compute. Qed.


Lemma reference_counts_exact_witness : ∃ I, inode_map (w_client w3) !! 1%nat = Some I ∧ forget_expected I = 1 ∧ dircachecnt I = 1.
Proof.
  assert (inode_map (w_client w3) !! 1%nat = Some (Inode 2 200 NF3REG 1 1 1)) as HI by (by vm_compute).
  destruct (reference_counts_exact typ0 fsz fsz_pos limit limit_ok 0 1 100 w3 w3_reach 1 _ HI) as (Hf & _ & _).
  eexists. split_and!; [exact HI|rewrite Hf, w3_fuse; by vm_compute|done].
Defined.

Lemma no_dangling_references_witness :
  (∀ i, i ∈ w_fuse w3 → alive (w_client w3) i) ∧
  (∀ e de, dirents (w_client w3) !! e = Some de →
     (∀ i, de_inode de = Some i → alive (w_client w3) i) ∧ ∃ d, alive (w_client w3) d ∧ filed (w_client w3) d e de).
Proof. exact (no_dangling_references typ0 fsz fsz_pos limit limit_ok 0 1 100 w3 w3_reach). Defined.

Lemma inode_identity_witness : ∃ got s', exec fsz limit (OpForget 3 1) (w_client w3) = Some (got, s') ∧
  (∀ i I I', inode_map (w_client w3) !! i = Some I → inode_map s' !! i = Some I' → same_file I I').
Proof.
  destruct (exec fsz limit (OpForget 3 1) (w_client w3)) as [[got s']|] eqn:Hex; [|by vm_compute in Hex].
  exists got, s'. split; [done|].
  apply (inode_identity typ0 fsz fsz_pos limit limit_ok 0 1 100 w3 w3_reach (OpForget 3 1) got s'); [|exact Hex].
  split; [lia|]. rewrite w3_fuse. by vm_compute.
Defined.

Lemma lookup_reply_then_cached_lookup_witness : ∃ i s1,
  reply_entry limit 7 0 "d" 5 500 NF3REG false (w_client w3) = Some (i, s1) ∧
  (bigcookie s1 < 2 ^ 64 - 1 → ∃ s2, run_lookup limit 8 30 0 "d" s1 = Some (Some i, s2)).
Proof.
  destruct (lookup_reply_then_cached_lookup typ0 fsz fsz_pos limit limit_ok 0 1 100 w3 w3_reach 7 0 "d" 5 500 NF3REG false 8 30)
    as (i & s1 & Hr & _ & Hl); [known|done|by vm_compute|by vm_compute|]. exists i, s1. split; [exact Hr|exact Hl].
Defined.

Lemma remove_then_lookup_witness : ∃ s1, remove_name 0 "a" (w_client w3) = Some ((), s1) ∧
  (bigcookie s1 < 2 ^ 64 - 1 → ∃ s2, run_lookup limit 8 30 0 "a" s1 = Some (None, s2)).
Proof.
  destruct (remove_then_lookup typ0 fsz fsz_pos limit limit_ok 0 1 100 w3 w3_reach 0 "a" 8 30) as (s1 & Hr & Hl); [known|].
  exists s1. split; [exact Hr|]. intros Hb. apply (Hl Hb).
Defined.

Lemma w2_known : known_dir 0 w2 0.
Proof. known. Qed.

Lemma w2_cache : ∃ c, dircaches (w_client w2) !! 0%nat = Some c.
Proof.
  assert (bool_decide (is_Some (dircaches (w_client w2) !! 0%nat)) = true) as H by (by vm_compute).
  apply bool_decide_eq_true in H. exact H.
Qed.

Lemma w2_reply : match readdir_from_cache fsz 0 true 2 4096 (w_client w2) with Some (Some r, _) => r_entries r | _ => [] end = [(3, "a"); (4, "b")].
Proof. by vm_compute. Qed.

Lemma cached_enumeration_witness : ∃ r s', readdir_from_cache fsz 0 true 2 4096 (w_client w2) = Some (r, s') ∧ r_entries <$> r = Some [(3, "a"); (4, "b")].
Proof.
  assert (0 ≤ 2 < UINT32_MAX - 1) as Ho by done. assert (4096 ≤ 4096 ≤ 64 * 1024 * 1024) as Hs by done.
  destruct w2_cache as [c Hc].
  pose proof (cached_enumeration typ0 fsz fsz_pos limit limit_ok 0 1 100 w2 w2_reach 0 c true 2 4096 w2_known Hc Ho Hs) as (r & s' & Hr & _).
  exists r, s'. split; [exact Hr|]. pose proof w2_reply as He. rewrite Hr in He. destruct r as [r|]; [|discriminate He]. simpl. f_equal. exact He.
Defined.

Lemma readdir_reply_handled_witness : ∃ o s', readdir_callback fsz limit 5 0 true request0 (R_ok listing true 9 false) (w_client w1) = Some (o, s') ∧
  without_refs o = Sent (Received [(1, "."); (2, ".."); (3, "a"); (4, "b")] []).
Proof.
  destruct (readdir_reply_handled typ0 fsz fsz_pos limit limit_ok 0 1 100 w1 w1_reach 5 0 _ true request0 (R_ok listing true 9 false) w1_known w1_cache)
    as (o & s' & Hr & Ho & _); [done|done|apply reply_ok|]. exists o, s'. split; [exact Hr|]. rewrite Ho. by vm_compute.
Defined.

Lemma w1_rejected : match readdir_callback fsz limit 5 0 true (Request 3 4096 0 9) R_bad_cookie (w_client w1) with Some (o, _) => o | None => Error end = Again 0 4.
Proof. by vm_compute. Qed.

(** A rejected cookie at offset 3: the next request starts over with the target 4. *)
Lemma reenumeration_progress_witness : ∃ o s', readdir_callback fsz limit 5 0 true (Request 3 4096 0 9) R_bad_cookie (w_client w1) = Some (o, s') ∧ o = Again 0 4.
Proof.
  destruct (reenumeration_progress typ0 fsz fsz_pos limit limit_ok 0 1 100 w1 w1_reach 5 0 _ true (Request 3 4096 0 9) R_bad_cookie w1_known w1_cache)
    as (o & s' & Hr & _); [done|done|done|]. exists o, s'. split; [exact Hr|].
  pose proof w1_rejected as He. rewrite Hr in He. exact He.
Defined.

Lemma reply_then_cached_enumeration_witness : ∃ x s1 r s2,
  readdir_callback fsz limit 5 0 true request0 (R_ok listing true 9 false) (w_client w1) = Some (Sent x, s1) ∧
  readdir_from_cache fsz 0 true 0 4096 s1 = Some (r, s2) ∧ r_entries x `prefix_of` default [] (r_entries <$> r).
Proof.
  destruct (reply_then_cached_enumeration typ0 fsz fsz_pos limit limit_ok 0 1 100 w1 w1_reach 5 0 _ true request0 listing true 9 w1_known w1_cache)
    as (x & s1 & r & s2 & H1 & H2 & _ & H3); [done|done|done|done|apply reply_ok|done| | |by vm_compute|exists x, s1, r, s2; split_and!; assumption].
  - intros n e3 He. do 4 (destruct n as [|n]; [by injection He as <-|]). done.
  - repeat (apply NoDup_cons; split; [set_solver|]). by apply NoDup_nil.
Defined.

(** ** Outside the hypotheses *)

(** Entries of a READDIR lack inodes, so READDIRPLUS cannot use them; at the last cookie the
    cache then reports the end of the directory, and the last entry is never sent. *)
Definition w2r : world := step (OpReaddirReply 5 0 false request0 (R_ok listing true 9 false)) w1.

Example readdirplus_after_readdir_loses_last_entry :
  match readdir_from_cache fsz 0 true 3 4096 (w_client w2r) with Some (Some r, _) => r_entries r = [] | _ => False end.
Proof. by vm_compute. Qed.

(** While the READDIR itself finds it. *)
Example readdir_finds_last_entry :
  match readdir_from_cache fsz 0 false 3 4096 (w_client w2r) with Some (Some r, _) => r_entries r = [(4, "b")] | _ => False end.
Proof. by vm_compute. Qed.

(** Beyond the global limit [add()] neither caches the entry nor records the cookie verifier:
    the first reply of a directory ends in a failed assertion when it is sent. *)
Example reply_beyond_limit_aborts :
  readdir_callback fsz 200 5 0 false request0 (R_ok listing true 9 false) (w_client w1) = None.
Proof. by vm_compute. Qed.

(** An entry of READDIRPLUS that was not cached and does not fit: its inode is freed by
    [decref()] and read again by the assertion that follows. *)
Example unsent_uncached_entry_reads_freed_inode :
  skip_entry 0 (Some 1%nat)
    (Client {[0%nat := Inode 1 100 NF3DIR 1 0 0; 1%nat := Inode 2 200 NF3REG 1 1 1]} {[0%nat := new_dircache 0]}
       {[0%nat := Dirent 3 "a" (Some 1%nat) true 2 1]} 2 1 (2 ^ 63 - 1) 1 209) = None.
Proof. by vm_compute. Qed.

(** An enumeration that starts at an offset in a directory without a cookie verifier. *)
Example seek_in_fresh_directory_aborts : fetch_request 0 3 4096 0 (w_client w1) = None.
Proof. by vm_compute. Qed.

(** Fuse has the entries up to the cookie 3 when the server rejects that cookie.  The directory
    is read again from the start with the target 4, the server answers that request with a
    jukebox error, and the request made anew has the target 0: its reply sends the entries
    1, 2 and 3 once more. *)
Example jukebox_forgets_target :
  match readdir_callback fsz limit 5 0 false (Request 3 4096 0 9) R_bad_cookie (w_client w1) with
  | Some (Again off target, s1) =>
      off = 0 ∧ target = 4 ∧
      match fetch_request 0 off 4096 target s1 with
      | Some (rq, s2) =>
          match readdir_callback fsz limit 5 0 false rq R_jukebox s2 with
          | Some (Jukebox, s3) =>
              match jukebox_readdir fsz 0 false rq false s3 with
              | Some (ToServer rq', s4) =>
                  rq_target rq' = 0 ∧
                  match readdir_callback fsz limit 5 0 false rq' (R_ok listing true 9 false) s4,
                        readdir_callback fsz limit 5 0 false rq (R_ok listing true 9 false) s4 with
                  | Some (Sent x, _), Some (Sent y, _) => (r_entries x).*1 = [1; 2; 3; 4] ∧ (r_entries y).*1 = [4]
                  | _, _ => False
                  end
              | _ => False
              end
          | _ => False
          end
      | None => False
      end
  | _ => False
  end.
Proof. by vm_compute. Qed.

(** With a limit of 1000 bytes: the root has two names cached, the subdirectory (inode 1) is
    fully enumerated and confirmed, and the name of a file created there is not cached. *)
Definition stepl (op : fuse_op) (w : world) : world :=
  match exec fsz 1000 op (w_client w) with
  | Some (got, s') => World s' (after op got (w_fuse w))
  | None => w
  end.

Definition wl : world :=
  stepl (OpLookupReply 5 1 "new" 9 900 NF3REG false)
  (stepl (OpReaddirReply 5 1 false request0 (R_ok [Entry3 1 "." 7 700 NF3DIR; Entry3 2 ".." 1 100 NF3DIR] true 9 false))
  (stepl (OpLookupReply 5 0 "other" 8 800 NF3REG false)
  (stepl (OpLookupReply 5 0 "sub" 7 700 NF3DIR false) w1))).

Example created_file_reported_absent :
  (∃ i I, inode_map (w_client wl) !! i = Some I ∧ fileid I = 9 ∧ forget_expected I = 1) ∧
  match dnlc_lookup 10 30 1 "new" (w_client wl) with Some (r, _) => r = (None, true) | None => False end.
Proof. split; [|by vm_compute]. exists 3%nat. eexists. by vm_compute. Qed.
